(* ===== verification/_CoqProject ===== *)
-Q . S2P
Prelude.v
CppStd.v
StringFacts.v
ShellExec.v
ContainerBackend.v
DockerClient.v
KubernetesClient.v
FunctionModel.v
Metrics.v
Http.v
HttpClient.v
HttpServer.v
HttpRoundtrip.v
ServerLoop.v
RuntimeManager.v
RuntimeInvariant.v
Worlds.v
KubernetesContract.v
SimWorld.v
RuntimeCalls.v
RuntimeConcurrency.v
RuntimePool.v
ScaleToZero.v
ReaperThread.v
Database.v
MemDatabase.v
FunctionRegistry.v
InvocationStore.v
UnitTests.v
Json.v
JsonPage.v
ControlPlane.v
ControlPlaneFacts.v
PlatformRuns.v
PlatformFacts.v
PlatformProgress.v
PlatformPromises.v
PlatformHandlers.v
Service.v
ConcurrentService.v
Startup.v
Timeouts.v
Locks.v
Serialization.v
LockedProgram.v
AtomicSections.v
Cli.v
EndToEnd.v
InvokeEndToEnd.v
ReadEndToEnd.v
