(* ===== verification/Prelude.v ===== *)
(** * Serverless FaaS platform: verification development

    A library of definitions translated from the C++ sources under [src/] and of
    theorems about them. This comment is the development's documentation.

    ** The program

    A control plane ([src/control-plane]) keeps a registry of functions and a
    history of invocations in SQLite, serves an HTTP API on a small HTTP server of
    its own ([src/common]), and runs each function in one container that it starts
    on the first invocation, keeps warm, and stops when it is idle, deleted, late or
    dead. Containers are started by the [docker] or [kubectl] command line through
    [popen]. [cloudfn] ([src/cli]) is a command line client of the API. A request
    goes: [Cli] -> [HttpClient] -> [HttpServer] -> a handler of [ControlPlane] ->
    [FunctionRegistry], [InvocationStore] (both over [Database]) and
    [RuntimeManager] -> [ContainerBackend] ([DockerClient] or [KubernetesClient]
    over [ShellExec]) and [HttpClient] again, to the container. Request threads and
    the reaper thread share the runtime manager under one mutex.

    ** How code is represented

    An operation that reads or changes state is a computation [St S A], a function
    from the state to a result and the next state. What is not in the repository -
    the clock, the sockets, [popen], the SQLite engine, the JSON library,
    [std::stod] - is a class whose members are parameters; a theorem that relies on
    their documented behaviour has a class of laws as a hypothesis, and its witness
    runs on a concrete instance ([SimWorld], [MemDatabase], [Json], [JsonPage], the small
    cluster of [KubernetesContract] and the small network of [ServerLoop]). Exceptions and
    undefined behaviour are values of [outcome] ([CppStd]). An [int], [long],
    [size_t] or port is a [Z] and the conversions that can overflow or wrap say so.
    A [std::string] is a string of bytes. A [std::map] is a [gmap] traversed in
    byte order of its keys ([map_entries]). Loops over data are structural, over a
    list or the attempts of [kReadinessAttempts] = 50. The two loops that run until a
    flag is cleared are not cut short either: the accept loop is a step relation
    ([ServerLoop]); the reaper's loop is one too ([ReaperThread]) and a function of
    how often the flag reads true ([ScaleToZero]), for which a theorem says how many
    iterations are enough. No result depends on fuel: the fuel of [drive] in [Locks]
    only bounds a search whose success the kernel checks.

    Threads are modelled at three grains. [Locks] and [LockedProgram] have every lock,
    unlock and access to what the mutexes protect; [RuntimeConcurrency] and
    [PlatformRuns] take a critical section as one step: [LockedProgram] proves that
    each step is such a section run alone, and [AtomicSections] that every run of the
    code is equivalent to one in which sections are run alone; [ServerLoop] and
    [ReaperThread] have one step per access to a flag and per blocking call.
    [ConcurrentService] joins the last two.

    ** Files and the code they model

    - [Prelude], [StringFacts]: the state computations, tactics and shared lemmas.
    - [CppStd]: what the sources use of the C++ language and library.
    - [ShellExec]: [shell_exec.cpp], and how [sh] splits the commands it is given.
    - [ContainerBackend]: [container_backend.hpp]; its contract is [BackendContract],
      over a ghost history of creations and removals, in which a removal may fail and
      say so. The runtime manager does not look at what [remove_container] returns:
      its theorems are for backends whose removals succeed ([RemovalsSucceed], together
      [BackendSpec]), and [failed_removal_leaks_container] is what happens otherwise.
    - [DockerClient], [KubernetesClient]: the two backends; the pod-name counter is
      the state [KubeProc].
    - [FunctionModel]: [function.hpp], [runtime_state.hpp].
    - [Metrics]: [metrics.cpp]; the history every series counts.
    - [Http], [HttpClient], [HttpServer], [HttpRoundtrip]: [http_client.cpp] and one
      connection of [http_server.cpp], and the two run against each other.
    - [ServerLoop]: [Server::listen], the connection threads and [Server::stop], as a
      step relation with one step per access to a shared field or system call.
    - [RuntimeManager]: [runtime_manager.cpp], one definition per member function;
      [try_invoke] is split where it releases the mutex ([acquire], [settle]).
    - [RuntimeInvariant], [RuntimeCalls]: the effect of each operation on map,
      metrics and containers, the invariant [lock_inv], and whole calls without
      interference.
    - [RuntimeConcurrency], [RuntimePool]: the step relation of interleaved calls,
      reaper passes and deletions, one step per critical section; the abstract pool
      it refines.
    - [ScaleToZero]: the reaper thread as the loop it is, on a steady clock.
    - [ReaperThread]: the constructor, the reaper thread and the destructor of the
      runtime manager over its atomic flag.
    - [Timeouts]: the receive loop of [http_client.cpp] recv by recv, against a peer
      that takes its time; how long a health check, a start and a call can take.
    - [Worlds], [SimWorld]: what the simulated worlds of the witnesses share, and one
      that meets every contract of the Docker side.
    - [KubernetesContract]: a cluster as [kubectl] documents it, and the proof that the
      Kubernetes backend keeps [BackendContract] on it, and [BackendSpec] if no
      [kubectl delete pod] fails.
    - [Database], [MemDatabase]: [database.cpp] over the SQLite interface, the laws
      of the statements the stores issue ([SqliteSpec]) and of the tables of a file
      ([SqliteSchema]: a [CREATE TABLE IF NOT EXISTS] makes the table it describes or
      leaves the one there), and an engine in memory that meets them.
    - [FunctionRegistry], [InvocationStore]: the two stores with their tables.
    - [UnitTests]: [tests/test_framework.hpp] and the test cases of
      [tests/control_plane], as programs over the stores and the metrics.
    - [Json]: the interface of the JSON library, when its accessors throw
      ([JsonKinds]), what a text made of an object or an array reads back as
      ([JsonObjects]), and a stand-in for the examples; [JsonPage] has those laws.
    - [ControlPlane], [ControlPlaneFacts]: the handlers and the route table of
      [control-plane/src/main.cpp], and their outcomes.
    - [PlatformRuns], [PlatformFacts], [PlatformProgress], [PlatformPromises],
      [PlatformHandlers]: request threads in these handlers, interleaved with each other
      and the reaper; the abstract platform they refine; what every reachable state
      satisfies; how many steps each request still has to take and what its next one
      waits for; a handler that is alone as one of the interleavings.
    - [Service]: the platform behind [ServerLoop]: from a connection's bytes through
      the route table to a run of [PlatformRuns], and back to the bytes it is sent,
      one connection after the other.
    - [ConcurrentService]: the same with the connection threads interleaved inside
      their handlers: read, handle, send and close as steps of their own.
    - [Locks], [LockedProgram]: a language of mutexes, guards and protected data with a
      check that is proved to exclude races and deadlocks, and the threads of the
      control plane in it: what [database.cpp], [function_registry.cpp],
      [invocation_store.cpp], [metrics.cpp], [runtime_manager.cpp] and the handlers
      lock, touch and release, in their order.
    - [Serialization], [AtomicSections]: the steps of that language labelled with what
      they do; runs reordered until each thread runs a whole piece at a time - locks, then
      unlocks - without interruption; and this for the control plane.
    - [Startup]: [main] up to [server.listen], and one process after the other on the
      same database.
    - [Cli]: [cli/src/main.cpp].
    - [EndToEnd]: client and server joined by a network that cuts messages anywhere,
      and [cloudfn deploy] from its arguments to the row of the registry.
    - [InvokeEndToEnd]: [cloudfn invoke] from its arguments to the function, the record
      of the invocation, and what the terminal shows.
    - [ReadEndToEnd]: the commands that ask and show ([describe], [invocation],
      [runtimes]) and [delete], the same way, and one command after another.

    ** What the theorems show

    - Runtime manager, concurrently, over a backend whose removals succeed (C1-C4): every
      interleaving is a run of a pool
      with at most one container per function whose reaper removes only idle
      runtimes; a container of this process is running exactly while it is tracked; a
      busy runtime has a call that will settle it; each finished invocation is counted
      once.
    - The platform, concurrently (C5-C9): the same for requests: each takes effect in
      one step of its thread on a map of functions, a history and the pool; history
      and metrics agree; only deployed functions run; each request takes at most ten
      steps of its own and waits for no other, only, inside [client.post], for its own
      container (which may never answer: C19); a handler that is alone is one of these
      runs.
    - The service, concurrently (C10, C11, C33): whatever its clients send and however
      its threads interleave, each client is sent the answer of its own request, each
      connection is served and closed within fourteen steps of its thread, which waits
      for its own client and its own container only, and no thread uses a descriptor
      of another.
    - Locking (C12-C15): the steps of the platform, the passes of the reaper included,
      are critical sections of the code, and sections that overlap cannot be told from
      sections that do not; the process has no deadlock and no data race on what its
      mutexes protect.
    - Runtime manager, one call (C16-C22): the postcondition of [invoke] on every
      branch, every outcome of [start_runtime] and how long it may take, what a timeout
      bounds, exactly which runtimes a reaper pass removes, that the reaper scales to
      zero in bounded time and that the destructor ends it.
    - Stores (C23, C24): the registry refines a map from names to functions; records
      read back field by field.
    - Deploying (C25): the outcome of the handler on every branch, with every default
      and every exception for a field of the wrong type.
    - Start-up (C26, C27): what starting on an earlier database gives, tables that suit
      every statement the stores issue included, and what survives restarts.
    - End to end (C28-C32): client and server understand each other's messages in
      whatever blocks they arrive; [cloudfn invoke] ends with 0 exactly when the
      function succeeded, and does less than invoke and record only if one of its two
      statements fails; what [deploy] stored is what its arguments ask for and what
      [describe] shows; the id [invoke] shows names the record [invocation] shows;
      [delete] ends with 0 exactly when it removed the function and its runtime.
    - HTTP (C34, C40): [stop] ends [listen]; one malformed request ends the process.
    - Backends (C35-C37): both keep the contract of the interface, and what the runtime
      manager relies on if removals do not fail; no token that reaches a shell is read
      as anything but one word.
    - Metrics (C38): every series equals a count over the history.
    - Unit tests (C39): they pass, on any engine that does what SQLite documents.

    Beside these the files prove facts on the way that stand for themselves:
    [request_roundtrip], [response_roundtrip], [dispatch_first_match],
    [histogram_buckets_cumulative], [scrape_reports_history], [pod_names_distinct],
    [kube_run_container_commands], [list_runtimes_agrees_with_status],
    [register_get_roundtrip], [parse_args_roundtrip], [cmd_deploy_exit_status],
    [invoke_is_a_run], [calls_complete], [server_runs_are_platform_runs],
    [connections_own_their_sockets], [api_routes_dispatch], [listen_port_bounds],
    [units_are_parsed], [cmd_invoke_exit_status], [warm_call_keeps_runtime],
    [dead_runtime_is_replaced], [request_releases_socket], [invoke_handler_outcome],
    [delete_handler_outcome], [deploy_end_to_end], [describe_end_to_end],
    [invocation_end_to_end], [runtimes_end_to_end], and the limits
    [half_written_reply_is_retried], [truncated_reply_is_ok],
    [pulled_image_container_is_lost], [register_races_with_remove],
    [failed_removal_leaks_container], [deleted_runtime_keeps_running],
    [reaper_removes_container_in_use], [removed_function_keeps_runtime],
    [removal_up_to_nul_keeps_runtime], [stop_before_loop_is_lost],
    [main_to_the_end_races], [reaper_is_not_two_phase].

    ** Not modelled

    The JSON library, the SQLite engine, [docker], [kubectl] and the operating system,
    which are parameters with laws; the single [recv] calls of a server connection as
    separate steps (its request is read in one step, in whatever blocks it came); time
    in the step relations, whose bounds count steps ([ScaleToZero] and [Timeouts] have
    the clock); the overflow of a metrics counter, a [long], after 2^63 events; the
    memory model: the flags of [Server] are accessed one at a time; the end of [main],
    which [listen] never lets the control plane reach; the Python functions, the
    integration tests, benchmarks, scripts and deployment files, which are not C++.

    Two limits of the reordering in [AtomicSections]. A reaper pass is one step of
    [PlatformRuns], but it takes the metrics' mutex once for every runtime it removes, so
    a scrape can come between two of its counts ([reaper_is_not_two_phase]): its pieces do
    not overlap with anything, its pass as a whole may. And what a thread does outside the
    locks - its calls to containers and clients - keeps its order within the thread, not
    against other threads'.

    What the map leaves of the implementation is includes, forward declarations, the
    prototypes of members modelled from their definitions, and comments. *)

From stdpp Require Export base tactics list gmap strings pretty sorting.
From Stdlib Require Export ZArith Lia.
From Stdlib Require Strings.Ascii.
Export Stdlib.Strings.Ascii(ascii(..), nat_of_ascii, ascii_of_nat).
Export (notations) Stdlib.Strings.Ascii.

(** ** Scope and state monad *)

(** Hints on which operations leave the history of containers alone. *)
Create HintDb faas.

Declare Scope faas_scope.
Delimit Scope faas_scope with faas.
#[global] Open Scope faas_scope.
#[global] Open Scope Z_scope.

(** A computation over a state of type [S]: the shape of every operation that
    reads or changes shared state or talks to the outside world. *)
Definition St (S A : Type) : Type := S → A * S.

#[export] Instance st_ret {S} : MRet (St S) := λ A a s, (a, s).
#[export] Instance st_bind {S} : MBind (St S) :=
  λ A B f m s, let '(a, s') := m s in f a s'.
#[export] Instance st_fmap {S} : FMap (St S) :=
  λ A B f m s, let '(a, s') := m s in (f a, s').

Definition st_get {S} : St S S := λ s, (s, s).
Definition st_modify {S} (f : S → S) : St S unit := λ s, (tt, f s).

(** Runs a computation on a component of a larger state. *)
Definition zoom {S E A} (get : S → E) (set : E → S → S) (m : St E A) : St S A :=
  λ s, let '(a, e) := m (get s) in (a, set e s).

Lemma st_bind_run {S A B} (m : St S A) (f : A → St S B) s :
  (m ≫= f) s = f (m s).1 (m s).2.
Proof. unfold mbind, st_bind. by destruct (m s). Qed.

Lemma st_bind_Some {S A B} (m : St S A) (f : A → St S B) s a s' :
  m s = (a, s') → (m ≫= f) s = f a s'.
Proof. rewrite st_bind_run. by intros ->. Qed.

Lemma st_bind_assoc {S A B C} (m : St S A) (f : A → St S B) (g : B → St S C) s :
  ((m ≫= f) ≫= g) s = (m ≫= λ a, f a ≫= g) s.
Proof. unfold mbind, st_bind. by destruct (m s). Qed.

(** Reduces the monadic plumbing of a computation applied to a state. *)
Ltac st_red :=
  cbn [mbind st_bind mret st_ret fmap st_fmap st_get st_modify zoom fst snd].
Tactic Notation "st_red" "in" hyp(H) :=
  cbn [mbind st_bind mret st_ret fmap st_fmap st_get st_modify zoom fst snd] in H.

(** Names the result of a state computation, the usual step of a proof that
    follows the code. *)
Tactic Notation "run" constr(m) "as" simple_intropattern(a) simple_intropattern(s) "eqn" ident(H) :=
  destruct m as [a s] eqn:H.
