(* ===== verification/CppStd.v ===== *)
(** * The C++ language and standard library, as the sources use them

    Exceptions and undefined behaviour as values ([outcome]); machine integers
    at their width; [std::string] as a Stdlib [string] of bytes with the search
    and slicing members the code calls; [std::stoi] and its relatives with the
    accepted prefixes and error cases of [strtol]; [std::to_string]; extraction
    from an [std::istringstream] and [std::getline]; integer-valued [double]
    arithmetic and its default [ostream] formatting; the ordered traversal of
    [std::map]. *)

From S2P Require Import Prelude.

(** ** Exceptions and undefined behaviour *)

Inductive exn : Type :=
  | InvalidArgument                 (* std::invalid_argument *)
  | OutOfRange                      (* std::out_of_range *)
  | RuntimeError (what : string)    (* std::runtime_error *)
  | JsonError (what : string).      (* nlohmann::json exceptions *)

Inductive ub : Type :=
  | SignedOverflow
  | EmptyOptional                   (* * on an empty std::optional *)
  | IndexOutOfRange                 (* operator[] past the end *)
  | CastOutOfRange.                 (* a floating value its integer type cannot hold *)

Inductive outcome (A : Type) : Type :=
  | Ok (a : A)
  | Throw (e : exn)
  | Undefined (u : ub).
Arguments Ok {_} _.
Arguments Throw {_} _.
Arguments Undefined {_} _.

#[export] Instance outcome_ret : MRet outcome := λ A a, Ok a.
#[export] Instance outcome_bind : MBind outcome := λ A B f m,
  match m with Ok a => f a | Throw e => Throw e | Undefined u => Undefined u end.
#[export] Instance outcome_fmap : FMap outcome := λ A B f m,
  match m with Ok a => Ok (f a) | Throw e => Throw e | Undefined u => Undefined u end.

#[export] Instance ub_eq_dec : EqDecision ub.
Proof. solve_decision. Defined.
#[export] Instance exn_eq_dec : EqDecision exn.
Proof. solve_decision. Defined.
#[export] Instance outcome_eq_dec {A} `{EqDecision A} : EqDecision (outcome A).
Proof. solve_decision. Defined.

(** [try { m } catch (const std::exception&) { h }]: undefined behaviour is not
    caught. *)
Definition catch {A} (m : outcome A) (h : outcome A) : outcome A :=
  match m with Throw _ => h | _ => m end.

Lemma mapM_Ok {A B} (f : A → outcome B) (g : A → B) (l : list A) :
  (∀ x, x ∈ l → f x = Ok (g x)) → mapM f l = Ok (g <$> l).
Proof.
  induction l as [|x l IH]; intros Hf; [done|]. simpl.
  rewrite Hf by (by left). simpl. rewrite IH by (intros; apply Hf; by right). done.
Qed.

(** ** Machine integers *)

Definition int_min : Z := -(2 ^ 31).
Definition int_max : Z := 2 ^ 31 - 1.
Definition long_min : Z := -(2 ^ 63).
Definition long_max : Z := 2 ^ 63 - 1.
Definition ulong_max : Z := 2 ^ 64 - 1.

Definition in_int (z : Z) : Prop := int_min ≤ z ≤ int_max.
Definition in_long (z : Z) : Prop := long_min ≤ z ≤ long_max.

#[export] Instance in_int_dec z : Decision (in_int z).
Proof. unfold in_int. apply _. Defined.
#[export] Instance in_long_dec z : Decision (in_long z).
Proof. unfold in_long. apply _. Defined.

(** [static_cast<int>] of a wider integer: two's-complement truncation. *)
Definition to_int (z : Z) : Z := (z + 2 ^ 31) `mod` 2 ^ 32 - 2 ^ 31.
Definition to_long (z : Z) : Z := (z + 2 ^ 63) `mod` 2 ^ 64 - 2 ^ 63.
(** [static_cast<uint16_t>]. *)
Definition to_uint16 (z : Z) : Z := z `mod` 2 ^ 16.

(** Signed [int] multiplication: overflow is undefined. *)
Definition int_mul (a b : Z) : outcome Z :=
  if decide (in_int (a * b)) then Ok (a * b) else Undefined SignedOverflow.

Lemma to_int_id z : in_int z → to_int z = z.
Proof.
  unfold in_int, int_min, int_max, to_int. intros.
  rewrite Z.mod_small; lia.
Qed.

Lemma to_int_range z : in_int (to_int z).
Proof.
  unfold in_int, int_min, int_max, to_int.
  pose proof (Z.mod_pos_bound (z + 2 ^ 31) (2 ^ 32) ltac:(lia)). lia.
Qed.

Lemma to_long_range z : in_long (to_long z).
Proof.
  unfold in_long, long_min, long_max, to_long.
  pose proof (Z.mod_pos_bound (z + 2 ^ 63) (2 ^ 64) ltac:(lia)). lia.
Qed.

(** ** Characters *)

Definition NUL : ascii := "000"%char.
Definition LF : ascii := "010"%char.
Definition CR : ascii := "013"%char.
Definition DQ : ascii := "034"%char.

Definition digit (c : ascii) : option Z := Z.of_nat <$> Ascii.is_nat c.

Definition is_digit (c : ascii) : bool := bool_decide (is_Some (digit c)).
(** [std::isalnum] in the C locale. *)
Definition isalnum (c : ascii) : bool :=
  let n := nat_of_ascii c in
  (Nat.leb 48 n && Nat.leb n 57) || (Nat.leb 65 n && Nat.leb n 90)
  || (Nat.leb 97 n && Nat.leb n 122).

(** ** Strings *)

Fixpoint str_forall (P : ascii → bool) (s : string) : bool :=
  match s with "" => true | String c s => P c && str_forall P s end.

Fixpoint take (n : nat) (s : string) : string :=
  match n, s with
  | S n, String c s => String c (take n s)
  | _, _ => ""
  end.
Fixpoint drop (n : nat) (s : string) : string :=
  match n, s with
  | O, _ => s
  | S n, String _ s => drop n s
  | _, "" => ""
  end.

(** [s.find(c)], [s.find_last_of(c)] and [s.find(pat)]. *)
Fixpoint find_char (c : ascii) (s : string) : option nat :=
  match s with
  | "" => None
  | String a s => if decide (a = c) then Some O else S <$> find_char c s
  end.
Fixpoint find_last_char (c : ascii) (s : string) : option nat :=
  match s with
  | "" => None
  | String a s =>
      match find_last_char c s with
      | Some n => Some (S n)
      | None => if decide (a = c) then Some O else None
      end
  end.
Fixpoint find_str (pat s : string) : option nat :=
  if String.prefix pat s then Some O else
  match s with "" => None | String _ s => S <$> find_str pat s end.

(** [s.find_first_not_of(set)] and [s.find_last_not_of(set)], the set given by its
    complement [P]. *)
Fixpoint find_first_if (P : ascii → bool) (s : string) : option nat :=
  match s with
  | "" => None
  | String a s => if P a then Some O else S <$> find_first_if P s
  end.
Fixpoint find_last_if (P : ascii → bool) (s : string) : option nat :=
  match s with
  | "" => None
  | String a s =>
      match find_last_if P s with
      | Some n => Some (S n)
      | None => if P a then Some O else None
      end
  end.

Fixpoint last_char (s : string) : option ascii :=
  match s with
  | "" => None
  | String c "" => Some c
  | String _ s => last_char s
  end.
Definition pop_back (s : string) : string := take (String.length s - 1) s.

(** [value.erase(value.begin())] while it starts with a blank. *)
Fixpoint drop_blanks (s : string) : string :=
  match s with
  | String c s' => if decide (c = " "%char) then drop_blanks s' else s
  | "" => ""
  end.

(** What a [const char*] taken with [c_str()] shows to a C API. *)
Fixpoint c_str (s : string) : string :=
  match s with
  | "" => ""
  | String c s => if decide (c = NUL) then "" else String c (c_str s)
  end.

Definition line (s : string) : string := s +:+ String LF "".
Definition quoted (s : string) : string := String DQ s +:+ String DQ "".

(** ** Numbers to and from text *)

Definition to_string (z : Z) : string := pretty z.

Fixpoint drop_spaces (s : string) : string :=
  match s with
  | String c s' => if Ascii.is_space c then drop_spaces s' else s
  | "" => ""
  end.
Fixpoint digits_value (acc : Z) (s : string) : Z :=
  match s with
  | String c s' =>
      match digit c with Some d => digits_value (10 * acc + d) s' | None => acc end
  | "" => acc
  end.
Definition starts_with_digit (s : string) : bool :=
  match s with String c _ => is_digit c | "" => false end.
Definition split_sign (s : string) : bool * string :=
  match s with
  | String c s' =>
      if decide (c = "-"%char) then (true, s')
      else if decide (c = "+"%char) then (false, s') else (false, s)
  | "" => (false, s)
  end.

(** The sign and magnitude [strtol]/[strtoul] read in base 10 off the front of a
    string; [None] when no conversion is performed. *)
Definition strto (s : string) : option (bool * Z) :=
  let '(neg, s) := split_sign (drop_spaces s) in
  if starts_with_digit s then Some (neg, digits_value 0 s) else None.
Definition signed (p : bool * Z) : Z := if p.1 then - p.2 else p.2.

Definition stol (s : string) : outcome Z :=
  match strto s with
  | None => Throw InvalidArgument
  | Some p => if decide (in_long (signed p)) then Ok (signed p) else Throw OutOfRange
  end.
Definition stoi (s : string) : outcome Z :=
  match strto s with
  | None => Throw InvalidArgument
  | Some p => if decide (in_int (signed p)) then Ok (signed p) else Throw OutOfRange
  end.
Definition stoul (s : string) : outcome Z :=
  match strto s with
  | None => Throw InvalidArgument
  | Some p =>
      if decide (p.2 ≤ ulong_max) then Ok (signed p `mod` 2 ^ 64) else Throw OutOfRange
  end.
(** [std::atoi] as glibc computes it: [strtol] clamps, the cast truncates. *)
Definition atoi (s : string) : Z :=
  match strto s with
  | None => 0
  | Some p => to_int (Z.max long_min (Z.min long_max (signed p)))
  end.

(** ** Streams *)

(** [stream >> token] and [stream >> int]: the value and the rest. *)
Fixpoint take_word (s : string) : string :=
  match s with
  | String c s => if Ascii.is_space c then "" else String c (take_word s)
  | "" => ""
  end.
Fixpoint drop_word (s : string) : string :=
  match s with
  | String c s' => if Ascii.is_space c then s else drop_word s'
  | "" => ""
  end.
Definition read_word (s : string) : string * string :=
  (take_word (drop_spaces s), drop_word (drop_spaces s)).
Definition read_int (s : string) : Z :=
  match strto s with
  | None => 0
  | Some p => Z.max int_min (Z.min int_max (signed p))
  end.

(** The lines successive [std::getline] calls deliver. *)
Fixpoint getlines (s : string) : list string :=
  match s with
  | "" => []
  | String c s' =>
      if decide (c = LF) then "" :: getlines s'
      else match getlines s' with
           | [] => [String c ""]
           | l :: ls => String c l :: ls
           end
  end.

(** ** Integer-valued doubles *)

(** The [double] nearest to an integer, ties to even. *)
Definition to_double (z : Z) : Z :=
  let e := Z.max 0 (Z.log2 (Z.abs z) - 52) in
  let q := Z.abs z `div` 2 ^ e in
  let r := Z.abs z `mod` 2 ^ e in
  let q' := if decide (2 * r > 2 ^ e ∨ (2 * r = 2 ^ e ∧ e > 0 ∧ Z.odd q = true))
            then q + 1 else q in
  Z.sgn z * (q' * 2 ^ e).
Definition double_add (a b : Z) : Z := to_double (a + b).

Lemma to_double_exact z : Z.abs z < 2 ^ 53 → to_double z = z.
Proof.
  intros Hz. unfold to_double.
  destruct (decide (z = 0)) as [->|Hnz]; [done|].
  assert (Z.log2 (Z.abs z) ≤ 52) as Hl.
  { apply Z.lt_succ_r. apply Z.log2_lt_pow2; lia. }
  rewrite Z.max_l by lia. rewrite Z.pow_0_r, Z.div_1_r, Z.mod_1_r.
  rewrite decide_False by lia. rewrite Z.mul_1_r. lia.
Qed.

(** Default [ostream] formatting (six significant digits, as [printf]'s [%g]). *)
Fixpoint strip_zeros (fuel : nat) (q : Z) : Z :=
  match fuel with
  | O => q
  | S f => if decide (q `mod` 10 = 0) then strip_zeros f (q `div` 10) else q
  end.
Definition os_double_abs (z : Z) : string :=
  if decide (z < 1000000) then to_string z else
  let e := Z.of_nat (String.length (to_string z)) - 1 in
  let p := 10 ^ (e - 5) in
  let q := z `div` p in
  let r := z `mod` p in
  let q := if decide (2 * r > p ∨ (2 * r = p ∧ Z.odd q = true)) then q + 1 else q in
  let '(q, e) := if decide (q = 1000000) then (100000, e + 1) else (q, e) in
  let m := to_string (strip_zeros 5 q) in
  let exp := to_string e in
  take 1 m +:+ (if decide (drop 1 m = "") then "" else "." +:+ drop 1 m)
  +:+ "e+" +:+ (if decide (e < 10) then "0" else "") +:+ exp.
Definition os_double (z : Z) : string :=
  if decide (z < 0) then "-" +:+ os_double_abs (- z) else os_double_abs z.

(** ** Ordered maps *)

(** The key order of a [std::map] ([operator<] of its key type, as [≤]):
    strings bytewise, [false] before [true], pairs lexicographically. *)
Class KeyOrder (K : Type) : Type := key_le : relation K.

#[export] Instance string_order : KeyOrder string := String.le.
#[export] Instance bool_order : KeyOrder bool := λ a b, implb a b = true.
#[export] Instance pair_order {A B} `{KeyOrder A, KeyOrder B} : KeyOrder (A * B) :=
  λ p q, (key_le p.1 q.1 ∧ p.1 ≠ q.1) ∨ (p.1 = q.1 ∧ key_le p.2 q.2).

#[export] Instance string_order_dec (x y : string) : Decision (key_le x y).
Proof. unfold key_le, string_order. apply _. Defined.
#[export] Instance bool_order_dec (x y : bool) : Decision (key_le x y).
Proof. unfold key_le, bool_order. apply _. Defined.
#[export] Instance pair_order_dec {A B} `{KeyOrder A, KeyOrder B, EqDecision A}
    `{∀ x y : A, Decision (key_le x y)} `{∀ x y : B, Decision (key_le x y)}
    (x y : A * B) : Decision (key_le x y).
Proof. unfold key_le, pair_order. apply _. Defined.

(** The entries of a [std::map] in traversal order. *)
Definition entry_le {K A} `{KeyOrder K} (x y : K * A) : Prop := key_le x.1 y.1.
#[export] Instance entry_le_dec {K A} `{KeyOrder K} `{∀ x y : K, Decision (key_le x y)}
    (x y : K * A) : Decision (entry_le x y).
Proof. unfold entry_le. apply _. Defined.

Definition map_entries {K A} `{Countable K, KeyOrder K} `{∀ x y : K, Decision (key_le x y)}
    (m : gmap K A) : list (K * A) :=
  merge_sort entry_le (map_to_list m).

Lemma map_entries_Permutation {K A} `{Countable K, KeyOrder K}
    `{∀ x y : K, Decision (key_le x y)} (m : gmap K A) :
  map_entries m ≡ₚ map_to_list m.
Proof. apply merge_sort_Permutation. Qed.

Lemma elem_of_map_entries {K A} `{Countable K, KeyOrder K}
    `{∀ x y : K, Decision (key_le x y)} (m : gmap K A) k a :
  (k, a) ∈ map_entries m ↔ m !! k = Some a.
Proof. rewrite map_entries_Permutation. apply elem_of_map_to_list. Qed.

Lemma filter_none {A} (P : A → Prop) `{∀ x, Decision (P x)} (l : list A) :
  (∀ x, x ∈ l → ¬ P x) → filter P l = [].
Proof.
  induction l as [|x l IH]; intros Hl; [done|]. rewrite filter_cons, decide_False by set_solver.
  apply IH. set_solver.
Qed.

Lemma filter_all {A} (P : A → Prop) `{∀ x, Decision (P x)} (l : list A) :
  (∀ x, x ∈ l → P x) → filter P l = l.
Proof.
  induction l as [|x l IH]; intros Hl; [done|].
  rewrite filter_cons, decide_True by (apply Hl; by left). f_equal.
  apply IH. intros y Hy. apply Hl. by right.
Qed.

Lemma filter_fmap_list {A B} (f : A → B) (P : B → Prop) `{∀ x, Decision (P x)} (l : list A) :
  filter P (f <$> l) = f <$> filter (λ x, P (f x)) l.
Proof.
  induction l as [|x l IH]; [done|]. rewrite fmap_cons, !filter_cons.
  case_decide; by rewrite IH.
Qed.

Lemma filter_fst_unique {K A} `{EqDecision K} (l : list (K * A)) k a :
  NoDup l.*1 → (k, a) ∈ l → filter (λ p, p.1 = k) l = [(k, a)].
Proof.
  induction l as [|[k' a'] l IH]; [by intros _ ?%elem_of_nil|].
  rewrite fmap_cons, NoDup_cons, elem_of_cons, filter_cons. simpl.
  intros [Hnin Hnd] [[= <- <-]|Hin].
  - rewrite decide_True by done. f_equal. apply filter_none.
    intros [k' a'] Hin. simpl. intros ->. apply Hnin, list_elem_of_fmap. by exists (k, a').
  - rewrite decide_False; [by apply IH|]. intros ->. apply Hnin, list_elem_of_fmap.
    by exists (k, a).
Qed.

Lemma map_entries_filter {K A} `{Countable K, KeyOrder K}
    `{∀ x y : K, Decision (key_le x y)} (m : gmap K A) k :
  filter (λ p, p.1 = k) (map_entries m) = option_list (pair k <$> m !! k).
Proof.
  destruct (m !! k) as [a|] eqn:Hk; simpl.
  - apply filter_fst_unique; [|by apply elem_of_map_entries].
    rewrite map_entries_Permutation. apply NoDup_fst_map_to_list.
  - apply filter_none. intros [k' a] Hin%elem_of_map_entries. simpl.
    intros ->. congruence.
Qed.

Lemma map_entries_sorted {A} (m : gmap string A) : StronglySorted key_le (map_entries m).*1.
Proof.
  assert (StronglySorted entry_le (map_entries m)) as Hs.
  { apply StronglySorted_merge_sort.
    - intros x y z. unfold entry_le, key_le, string_order. apply transitivity.
    - intros x y. unfold entry_le, key_le, string_order. apply String.le_total. }
  induction Hs as [|x l _ IH Hx]; simpl; constructor; [done|].
  apply Forall_fmap. eapply Forall_impl; [done|]. by intros.
Qed.

(** ** Effects that may throw

    A computation over a world whose result may be an exception or undefined
    behaviour, which ends the code after it. *)
Definition Io (E A : Type) : Type := St E (outcome A).

Definition io_ret {E A} (a : A) : Io E A := λ e, (Ok a, e).
Definition io_throw {E A} (x : exn) : Io E A := λ e, (Throw x, e).
Definition io_bind {E A B} (m : Io E A) (f : A → Io E B) : Io E B := λ e,
  let '(r, e') := m e in
  match r with Ok a => f a e' | Throw x => (Throw x, e') | Undefined u => (Undefined u, e') end.
(** A computation that cannot throw, and a pure one that may. *)
Definition io_lift {E A} (m : St E A) : Io E A := λ e, let '(a, e') := m e in (Ok a, e').
Definition io_of {E A} (r : outcome A) : Io E A := λ e, (r, e).
(** [try { m } catch (const std::exception& e) { h }] *)
Definition io_catch {E A} (m : Io E A) (h : exn → Io E A) : Io E A := λ e,
  let '(r, e') := m e in match r with Throw x => h x e' | _ => (r, e') end.

Notation "x '⇐' m ; k" := (io_bind m (λ x, k))
  (at level 20, m at level 100, k at level 200, right associativity,
   format "x  '⇐'  m ; '/' k") : faas_scope.

Lemma io_bind_Ok {E A B} (m : Io E A) (f : A → Io E B) e a e' :
  m e = (Ok a, e') → io_bind m f e = f a e'.
Proof. unfold io_bind. by intros ->. Qed.
Lemma io_bind_inv {E A B} (m : Io E A) (f : A → Io E B) e b e' :
  io_bind m f e = (Ok b, e') → ∃ a e1, m e = (Ok a, e1) ∧ f a e1 = (Ok b, e').
Proof. unfold io_bind. destruct (m e) as [[a|x|u] e1]; naive_solver. Qed.
