(* ===== verification/StringFacts.v ===== *)
(** * Lemmas on strings shared by the components

    Concatenation, slicing and searching; what [getlines] and word extraction do
    on concatenations; the decimal printer and the [strto] family as inverses. *)

From S2P Require Import Prelude CppStd.

Create Rewrite HintDb str.

(** ** Concatenation and slices *)

Lemma app_empty_l s : "" +:+ s = s.
Proof. done. Qed.
Lemma app_empty_r s : s +:+ "" = s.
Proof. induction s as [|c s IH]; [done|]. by change (String c (s +:+ "") = String c s); f_equal. Qed.
Lemma app_cons c s t : String c s +:+ t = String c (s +:+ t).
Proof. done. Qed.
Lemma app_assoc_str s t u : (s +:+ t) +:+ u = s +:+ (t +:+ u).
Proof. induction s as [|c s IH]; [done|]. rewrite !app_cons. by f_equal. Qed.
Lemma length_app_str s t : String.length (s +:+ t) = (String.length s + String.length t)%nat.
Proof. induction s as [|c s IH]; [done|]. rewrite app_cons. simpl. by f_equal. Qed.

#[export] Hint Rewrite app_empty_l app_empty_r app_cons app_assoc_str : str.

Lemma take_length_app s t : take (String.length s) (s +:+ t) = s.
Proof. induction s as [|c s IH]; [by destruct t|]. rewrite app_cons. simpl. by f_equal. Qed.
Lemma drop_length_app s t : drop (String.length s) (s +:+ t) = t.
Proof. by induction s as [|c s IH]; [destruct t|]. Qed.
Lemma take_drop n s : take n s +:+ drop n s = s.
Proof.
  revert s. induction n as [|n IH]; intros [|c s]; simpl; try done.
  rewrite app_cons. by f_equal.
Qed.
Lemma take_ge n s : (String.length s ≤ n)%nat → take n s = s.
Proof.
  revert s. induction n as [|n IH]; intros [|c s] Hn; simpl in *; try done; [lia|].
  f_equal. apply IH. lia.
Qed.
Lemma drop_S_app s c t : drop (S (String.length s)) (s +:+ String c t) = t.
Proof. by induction s as [|d s IH]; [destruct t|]. Qed.
Lemma pop_back_snoc s c : pop_back (s +:+ String c "") = s.
Proof.
  unfold pop_back. rewrite length_app_str. simpl.
  replace (String.length s + 1 - 1)%nat with (String.length s) by lia.
  apply take_length_app.
Qed.
Lemma last_char_snoc s c : last_char (s +:+ String c "") = Some c.
Proof.
  induction s as [|d s IH]; [done|]. rewrite app_cons. simpl.
  destruct (s +:+ String c "") eqn:E; [by destruct s|]. done.
Qed.

Lemma last_char_app s t : t ≠ "" → last_char (s +:+ t) = last_char t.
Proof.
  intros Ht. induction s as [|c s IH]; [done|]. rewrite app_cons. simpl. rewrite IH.
  destruct (s +:+ t) eqn:E; [|done]. by destruct s.
Qed.
Lemma take_add n k s : take (n + k) s = take n s +:+ take k (drop n s).
Proof.
  revert s. induction n as [|n IH]; intros s; simpl.
  - destruct s; by rewrite app_empty_l.
  - destruct s as [|c s]; [by destruct k|]. rewrite app_cons. f_equal. apply IH.
Qed.

(** ** Character predicates *)

Lemma str_forall_app P s t : str_forall P (s +:+ t) = str_forall P s && str_forall P t.
Proof.
  induction s as [|c s IH]; [done|]. rewrite app_cons. simpl. by rewrite IH, andb_assoc.
Qed.
Lemma str_forall_impl (P Q : ascii → bool) s :
  (∀ c, P c = true → Q c = true) → str_forall P s = true → str_forall Q s = true.
Proof.
  intros HPQ. induction s as [|c s IH]; [done|]. simpl.
  rewrite !andb_true_iff. naive_solver.
Qed.
Lemma str_forall_take P n s : str_forall P s = true → str_forall P (take n s) = true.
Proof.
  revert s. induction n as [|n IH]; intros [|c s]; simpl; try done.
  rewrite !andb_true_iff. naive_solver.
Qed.
Lemma str_forall_drop P n s : str_forall P s = true → str_forall P (drop n s) = true.
Proof.
  revert s. induction n as [|n IH]; intros [|c s]; simpl; try done.
  rewrite !andb_true_iff. naive_solver.
Qed.

(** Absence of a character, as a boolean check. *)
Definition lacks (c : ascii) : string → bool := str_forall (λ a, bool_decide (a ≠ c)).

Lemma lacks_cons c a s : lacks c (String a s) = true ↔ a ≠ c ∧ lacks c s = true.
Proof. unfold lacks. simpl. by rewrite andb_true_iff, bool_decide_eq_true. Qed.
Lemma lacks_app c s t : lacks c (s +:+ t) = true ↔ lacks c s = true ∧ lacks c t = true.
Proof. unfold lacks. by rewrite str_forall_app, andb_true_iff. Qed.

(** ** Searching *)

Lemma find_char_app c s t :
  lacks c s = true → find_char c (s +:+ String c t) = Some (String.length s).
Proof.
  induction s as [|a s IH]; intros Hs; rewrite ?app_cons; simpl.
  - by rewrite decide_True.
  - apply lacks_cons in Hs as [Ha Hs]. by rewrite decide_False, IH.
Qed.
Lemma find_char_None c s : find_char c s = None ↔ lacks c s = true.
Proof.
  induction s as [|a s IH]; [done|]. rewrite lacks_cons. simpl.
  destruct (decide (a = c)); [naive_solver|]. rewrite fmap_None. naive_solver.
Qed.
Lemma find_last_char_None c s : find_last_char c s = None ↔ lacks c s = true.
Proof.
  induction s as [|a s IH]; [done|]. rewrite lacks_cons. simpl.
  destruct (find_last_char c s), (decide (a = c)); naive_solver.
Qed.
Lemma find_last_char_app c s t :
  lacks c t = true → find_last_char c (s +:+ String c t) = Some (String.length s).
Proof.
  intros Ht%find_last_char_None. induction s as [|a s IH]; rewrite ?app_cons; simpl.
  - by rewrite Ht, decide_True.
  - by rewrite IH.
Qed.

Lemma find_str_miss pat a s :
  String.prefix pat (String a s) = false → find_str pat (String a s) = S <$> find_str pat s.
Proof. intros H. cbn [find_str]. by rewrite H. Qed.
Lemma find_str_hit pat s : String.prefix pat s = true → find_str pat s = Some O.
Proof. intros H. destruct s; cbn [find_str]; by rewrite H. Qed.
Lemma prefix_cons a b p s :
  String.prefix (String a p) (String b s)
  = if decide (a = b) then String.prefix p s else false.
Proof. cbn [String.prefix]. by destruct (Ascii.ascii_dec a b), (decide (a = b)). Qed.
Lemma prefix_app p s : String.prefix p (p +:+ s) = true.
Proof.
  induction p as [|a p IH]; [by destruct s|].
  by rewrite app_cons, prefix_cons, decide_True.
Qed.

Lemma prefix_length p s : String.prefix p s = true → (String.length p ≤ String.length s)%nat.
Proof.
  revert s. induction p as [|a p IH]; intros [|b s]; simpl; try done; [lia|].
  change (String.prefix (String a p) (String b s) = true → (S (String.length p) ≤ S (String.length s))%nat).
  rewrite prefix_cons. case_decide; [|done]. intros Hp%IH. lia.
Qed.
Lemma prefix_app_long p s t :
  (String.length p ≤ String.length s)%nat → String.prefix p (s +:+ t) = String.prefix p s.
Proof.
  revert s. induction p as [|a p IH]; intros [|b s] Hl; simpl in Hl; try lia.
  - by destruct t.
  - done.
  - rewrite app_cons, !prefix_cons, IH by lia. done.
Qed.
Lemma find_str_length p s n :
  find_str p s = Some n → (n + String.length p ≤ String.length s)%nat.
Proof.
  revert n. induction s as [|a s IH]; intros n; cbn [find_str].
  - destruct (String.prefix p "") eqn:E; [|done]. intros [= <-]. by apply prefix_length.
  - destruct (String.prefix p (String a s)) eqn:E.
    { intros [= <-]. by apply prefix_length. }
    intros (m & Hm%IH & ->)%fmap_Some. simpl. lia.
Qed.
Lemma find_str_app p s t n : find_str p s = Some n → find_str p (s +:+ t) = Some n.
Proof.
  revert n. induction s as [|a s IH]; intros n Hn.
  - pose proof (find_str_length _ _ _ Hn) as Hl. simpl in Hl.
    destruct p; [|simpl in Hl; lia]. assert (n = 0%nat) as -> by (simpl in Hl; lia).
    by apply find_str_hit; destruct t.
  - pose proof (find_str_length _ _ _ Hn) as Hl.
    destruct (String.prefix p (String a s)) eqn:E.
    + rewrite find_str_hit in Hn by done. rewrite find_str_hit; [done|].
      rewrite prefix_app_long; [done|lia].
    + rewrite find_str_miss in Hn by done. apply fmap_Some in Hn as (m & Hm & ->).
      rewrite app_cons, find_str_miss, (IH m) by
        (done || by rewrite <-app_cons, prefix_app_long by lia). done.
Qed.

Lemma split_at_last c s1 s2 t1 t2 :
  lacks c t1 = true → lacks c t2 = true →
  s1 +:+ String c t1 = s2 +:+ String c t2 → s1 = s2 ∧ t1 = t2.
Proof.
  intros H1 H2 Heq.
  pose proof (find_last_char_app c s1 t1 H1) as E1.
  rewrite Heq, find_last_char_app in E1 by done. injection E1 as E1.
  split.
  - apply (f_equal (take (String.length s1))) in Heq.
    rewrite take_length_app, <-E1, take_length_app in Heq. done.
  - apply (f_equal (drop (S (String.length s1)))) in Heq.
    rewrite drop_S_app, <-E1, drop_S_app in Heq. done.
Qed.

Lemma c_str_lacks s : lacks NUL s = true → c_str s = s.
Proof.
  induction s as [|a s IH]; [done|]. rewrite lacks_cons. intros [Ha Hs]. simpl.
  by rewrite decide_False, IH.
Qed.
Lemma c_str_idemp s : c_str (c_str s) = c_str s.
Proof.
  induction s as [|a s IH]; [done|]. simpl. destruct (decide (a = NUL)) eqn:E; [done|].
  simpl. by rewrite E, IH.
Qed.

(** ** Lines *)

Lemma getlines_nonempty c s : getlines (String c s) ≠ [].
Proof. simpl. repeat case_match; done. Qed.

Lemma getlines_line l s :
  lacks LF l = true → getlines (l +:+ String LF s) = l :: getlines s.
Proof.
  induction l as [|a l IH]; intros Hl; rewrite ?app_cons; simpl.
  - done.
  - apply lacks_cons in Hl as [Ha Hl]. by rewrite decide_False, IH.
Qed.
Lemma getlines_last l : lacks LF l = true → l ≠ "" → getlines l = [l].
Proof.
  induction l as [|a l IH]; intros Hl Hne; [done|].
  apply lacks_cons in Hl as [Ha Hl]. simpl. rewrite decide_False by done.
  destruct l as [|b l]; [done|]. by rewrite IH.
Qed.

(** ** Digits *)

Lemma pretty_N_char_digit x : (x < 10)%N → digit (pretty_N_char x) = Some (Z.of_N x).
Proof.
  intros. assert (x = 0 ∨ x = 1 ∨ x = 2 ∨ x = 3 ∨ x = 4 ∨ x = 5 ∨ x = 6 ∨ x = 7
    ∨ x = 8 ∨ x = 9)%N as Hx by lia.
  by destruct_or!; subst.
Qed.

Lemma digit_is_digit c d : digit c = Some d → is_digit c = true.
Proof. intros H. unfold is_digit. rewrite bool_decide_eq_true. eauto. Qed.

Lemma digit_range c d : digit c = Some d → 0 ≤ d ≤ 9.
Proof.
  unfold digit. destruct c as [[] [] [] [] [] [] [] []]; simpl; intros [=]; lia.
Qed.

(** Accumulates like [digits_value] and keeps the rest of the string. *)
Lemma digits_value_pretty_go x s acc :
  (0 < x)%N →
  ∃ k, digits_value acc (pretty_N_go x s) = digits_value (acc * 10 ^ k + Z.of_N x) s ∧ 0 ≤ k.
Proof.
  revert s acc. induction (N.lt_wf_0 x) as [x _ IH]; intros s acc Hx.
  rewrite pretty_N_go_step by done.
  assert (x `mod` 10 < 10)%N as Hm by (by apply N.mod_lt).
  pose proof (N.Div0.div_mod x 10) as Hdm.
  destruct (decide (x `div` 10 = 0)%N) as [Hz|Hnz].
  - rewrite Hz, pretty_N_go_0. simpl. rewrite pretty_N_char_digit by done.
    rewrite Hz, N.mul_0_r, N.add_0_l in Hdm. rewrite <- Hdm.
    exists 1. split; [f_equal|]; lia.
  - destruct (IH (x `div` 10)%N) with (s := String (pretty_N_char (x `mod` 10)) s) (acc := acc)
      as (k & -> & Hk); [apply N.div_lt; lia|lia|].
    simpl. rewrite pretty_N_char_digit by done.
    apply (f_equal Z.of_N) in Hdm. rewrite N2Z.inj_add, N2Z.inj_mul in Hdm.
    exists (k + 1). split; [|lia]. f_equal. rewrite Z.pow_add_r by lia. lia.
Qed.

Lemma pretty_go_digits x s :
  str_forall is_digit s = true → str_forall is_digit (pretty_N_go x s) = true.
Proof.
  revert s. induction (N.lt_wf_0 x) as [x _ IH]; intros s Hs.
  destruct (decide (x = 0)%N) as [->|]; [done|].
  rewrite pretty_N_go_step by lia. apply IH; [apply N.div_lt; lia|].
  simpl. rewrite Hs, andb_true_r.
  eapply digit_is_digit, pretty_N_char_digit. by apply N.mod_lt.
Qed.

Lemma pretty_go_starts x s :
  (0 < x)%N → starts_with_digit (pretty_N_go x s) = true.
Proof.
  revert s. induction (N.lt_wf_0 x) as [x _ IH]; intros s Hx.
  rewrite pretty_N_go_step by done.
  destruct (decide (x `div` 10 = 0)%N) as [Hz|Hnz].
  - rewrite Hz, pretty_N_go_0. simpl.
    eapply digit_is_digit, pretty_N_char_digit. by apply N.mod_lt.
  - apply IH; [apply N.div_lt; lia|]. by apply N.neq_0_lt_0, Hnz.
Qed.

Lemma pretty_N_parse (x : N) :
  starts_with_digit (pretty x) = true ∧ digits_value 0 (pretty x) = Z.of_N x.
Proof.
  unfold pretty, pretty_N. case_decide as Hx; [by subst|].
  split; [apply pretty_go_starts; lia|].
  destruct (digits_value_pretty_go x "" 0) as (k & -> & _); [lia|]. simpl. lia.
Qed.

Lemma to_string_nonneg_digits z : 0 ≤ z → str_forall is_digit (to_string z) = true.
Proof.
  intros Hz. unfold to_string, pretty, pretty_Z. destruct z as [|p|p]; [done| |lia].
  unfold pretty, pretty_positive, pretty, pretty_N.
  case_decide; [done|]. by apply pretty_go_digits.
Qed.
Lemma to_string_nonneg_starts z : 0 ≤ z → starts_with_digit (to_string z) = true.
Proof.
  intros Hz. unfold to_string, pretty, pretty_Z. destruct z as [|p|p]; [done| |lia].
  apply (pretty_N_parse (Npos p)).
Qed.

Lemma digit_chars c :
  is_digit c = true →
  Ascii.is_space c = false ∧ c ≠ "-"%char ∧ c ≠ "+"%char ∧ c ≠ CR ∧ c ≠ LF ∧ c ≠ " "%char
  ∧ isalnum c = true.
Proof. by destruct c as [[] [] [] [] [] [] [] []]. Qed.

Lemma to_string_lacks c z : is_digit c = false → c ≠ "-"%char → lacks c (to_string z) = true.
Proof.
  intros Hc Hd.
  assert (∀ z, 0 ≤ z → lacks c (to_string z) = true) as Hnn.
  { intros z' Hz. eapply str_forall_impl; [|by apply to_string_nonneg_digits].
    intros a Ha. rewrite bool_decide_eq_true. intros ->. congruence. }
  destruct (decide (0 ≤ z)) as [Hz|Hz]; [auto|].
  destruct z as [|p|p]; [done|lia|]. change (lacks c ("-" +:+ to_string (Zpos p)) = true).
  apply lacks_app. split; [|apply Hnn; lia]. apply lacks_cons. done.
Qed.

Lemma to_string_ne z : to_string z ≠ "".
Proof.
  destruct (decide (0 ≤ z)) as [Hz|Hz].
  - apply to_string_nonneg_starts in Hz. by destruct (to_string z).
  - destruct z as [|p|p]; [lia|lia|].
    by change (String "-"%char (to_string (Zpos p)) ≠ "").
Qed.

(** ** The printer and [strto] are inverse *)

Lemma strto_to_string z :
  strto (to_string z) = Some (bool_decide (z < 0), Z.abs z).
Proof.
  unfold strto.
  assert (∀ x : N, split_sign (drop_spaces (pretty x)) = (false, pretty x)) as Hpos.
  { intros x. destruct (pretty_N_parse x) as [Hs _].
    destruct (pretty x) as [|c s]; [done|]. simpl in *.
    destruct (digit_chars c Hs) as (-> & ? & ? & _). simpl.
    by rewrite !decide_False. }
  assert (∀ p : positive, to_string (Zpos p) = pretty (Npos p)) as Hpp by done.
  destruct z as [|p|p].
  - done.
  - rewrite Hpp, Hpos. destruct (pretty_N_parse (Npos p)) as [-> ->]. done.
  - change (to_string (Zneg p)) with (String "-"%char (pretty (Npos p))). simpl.
    destruct (pretty_N_parse (Npos p)) as [-> ->]. done.
Qed.

Lemma signed_parse z : signed (bool_decide (z < 0), Z.abs z) = z.
Proof. unfold signed. simpl. case_bool_decide; lia. Qed.

Lemma stol_to_string z : in_long z → stol (to_string z) = Ok z.
Proof.
  intros Hz. unfold stol. rewrite strto_to_string, signed_parse. by rewrite decide_True.
Qed.
Lemma stoi_to_string z : in_int z → stoi (to_string z) = Ok z.
Proof.
  intros Hz. unfold stoi. rewrite strto_to_string, signed_parse. by rewrite decide_True.
Qed.
Lemma stoul_to_string z : 0 ≤ z ≤ ulong_max → stoul (to_string z) = Ok z.
Proof.
  intros Hz. unfold stoul. rewrite strto_to_string, signed_parse. simpl.
  unfold ulong_max in *. rewrite decide_True by lia. by rewrite Z.mod_small by lia.
Qed.
Lemma read_int_to_string z : in_int z → read_int (to_string z) = z.
Proof.
  intros Hz. unfold read_int. rewrite strto_to_string, signed_parse.
  unfold in_int, int_min, int_max in *. lia.
Qed.
