(* ===== verification/ShellExec.v ===== *)
(** * Shell-command helpers ([control-plane/src/shell_exec.cpp])

    [exec_capture] over an abstract [popen], the string helpers [trim] and
    [first_line], and the token filter [is_safe_token] that guards every value
    interpolated into a command. *)

From S2P Require Import Prelude CppStd StringFacts.

(** ** The operating system's side

    [sh_popen cmd] starts [cmd] under [sh -c]: [None] when [popen] fails,
    otherwise the blocks [fread] delivers and the status [pclose] reports. *)
Class Shell (E : Type) : Type := {
  sh_popen : string → St E (option (list string * Z));
}.

(** ** The helpers *)

Record ExecResult : Type := { exit_code : Z; output : string }.

Definition wifexited (status : Z) : bool := bool_decide (Z.land status 127 = 0).
Definition wexitstatus (status : Z) : Z := Z.land (Z.shiftr status 8) 255.

(** The [fread] loop: appends blocks until an empty one. *)
Fixpoint read_blocks (acc : string) (blocks : list string) : string :=
  match blocks with
  | [] | "" :: _ => acc
  | b :: bs => read_blocks (acc +:+ b) bs
  end.

Definition exec_capture {E} `{Shell E} (command : string) : St E ExecResult :=
  pipe ← sh_popen (command +:+ " 2>&1");
  match pipe with
  | None => mret {| exit_code := -1; output := "failed to start command: " +:+ command |}
  | Some (blocks, status) =>
      mret {| exit_code := if wifexited status then wexitstatus status else -1;
              output := read_blocks "" blocks |}
  end.

Definition is_ws (c : ascii) : bool :=
  bool_decide (c = " "%char ∨ c = "009"%char ∨ c = CR ∨ c = LF).

Definition trim (s : string) : string :=
  match find_first_if (negb ∘ is_ws) s with
  | None => ""
  | Some start =>
      match find_last_if (negb ∘ is_ws) s with
      | None => ""
      | Some end_ => take (end_ - start + 1) (drop start s)
      end
  end.

Definition first_line (s : string) : string :=
  match find_char LF s with
  | None => s
  | Some pos => take pos s
  end.

Definition safe_char (c : ascii) : bool :=
  isalnum c || bool_decide (c = "-"%char ∨ c = "_"%char ∨ c = "."%char ∨ c = ":"%char
                            ∨ c = "/"%char).

Definition is_safe_token (token : string) : bool :=
  if decide (token = "") then false else str_forall safe_char token.

(** ** How [sh] reads a command

    A command without control characters - those that chain commands, redirect,
    substitute, quote or comment - is split into words at blanks and run as one
    command with those words. *)
Definition sh_control (c : ascii) : bool :=
  bool_decide (c ∈ ["|"; "&"; ";"; "<"; ">"; "("; ")"; "$"; "`"; "\"; DQ; "'"; "#"; "*";
                    "?"; "~"; "!"; LF; CR; NUL]%char).
Definition sh_argv (cmd : string) : option (list string) :=
  if str_forall (negb ∘ sh_control) cmd then Some (String.words cmd) else None.

(** A world that also records every command handed to [popen]. *)
Record Audited (E : Type) : Type := { commands : list string; audited_world : E }.
Arguments commands {_} _.
Arguments audited_world {_} _.

#[export] Instance audited_shell {E} `{Shell E} : Shell (Audited E) := {
  sh_popen cmd := λ w,
    let '(r, e) := sh_popen cmd (audited_world w) in
    (r, {| commands := commands w ++ [cmd]; audited_world := e |});
}.

(** ** Facts about the helpers *)

Lemma safe_char_inert c :
  safe_char c = true → sh_control c = false ∧ Ascii.is_space c = false.
Proof. by destruct c as [[] [] [] [] [] [] [] []]. Qed.

Lemma safe_token_chars t :
  is_safe_token t = true ↔ t ≠ "" ∧ str_forall safe_char t = true.
Proof. unfold is_safe_token. case_decide; naive_solver. Qed.

Lemma digit_safe c : is_digit c = true → safe_char c = true.
Proof.
  intros Hc. destruct (digit_chars c Hc) as (_ & _ & _ & _ & _ & _ & Ha).
  unfold safe_char. by rewrite Ha.
Qed.

Lemma to_string_safe z : is_safe_token (to_string z) = true.
Proof.
  apply safe_token_chars. split; [apply to_string_ne|].
  assert (∀ z, 0 ≤ z → str_forall safe_char (to_string z) = true) as Hnn.
  { intros z' Hz. eapply str_forall_impl; [apply digit_safe|].
    by apply to_string_nonneg_digits. }
  destruct (decide (0 ≤ z)) as [Hz|Hz]; [auto|].
  destruct z as [|p|p]; [lia|lia|].
  change (str_forall safe_char ("-" +:+ to_string (Zpos p)) = true).
  rewrite str_forall_app, Hnn by lia. done.
Qed.

Lemma safe_token_app s t :
  is_safe_token s = true → is_safe_token t = true → is_safe_token (s +:+ t) = true.
Proof.
  rewrite !safe_token_chars, str_forall_app. intros [Hs ->] [Ht ->].
  split; [|done]. by destruct s.
Qed.

(** A block of words separated by single blanks is read back word by word. *)
Definition word_ok (w : string) : Prop :=
  w ≠ "" ∧ str_forall (λ c, negb (sh_control c) && negb (Ascii.is_space c)) w = true.

Lemma safe_token_word t : is_safe_token t = true → word_ok t.
Proof.
  rewrite safe_token_chars. intros [Hne Ht]. split; [done|].
  eapply str_forall_impl; [|done]. by intros c [-> ->]%safe_char_inert.
Qed.

Fixpoint unwords (ws : list string) : string :=
  match ws with
  | [] => ""
  | [w] => w
  | w :: ws => w +:+ " " +:+ unwords ws
  end.
Lemma unwords_cons w v ws : unwords (w :: v :: ws) = w +:+ " " +:+ unwords (v :: ws).
Proof. done. Qed.

Lemma rev_app_spec s t : String.rev_app s t = String.rev s +:+ t.
Proof.
  unfold String.rev. revert t.
  assert (∀ s t u, String.rev_app s (t +:+ u) = String.rev_app s t +:+ u) as Hgen.
  { clear. induction s as [|c s IH]; intros t u; simpl; [done|].
    by rewrite <-IH, app_cons. }
  intros t. by rewrite <-Hgen.
Qed.
Lemma rev_rev_app s t : String.rev (String.rev_app s t) = String.rev t +:+ s.
Proof.
  revert t. induction s as [|c s IH]; intros t; simpl; [by rewrite app_empty_r|].
  rewrite IH. unfold String.rev at 1. simpl. rewrite rev_app_spec.
  by rewrite app_assoc_str, app_cons.
Qed.

Lemma words_go_word cur w s :
  str_forall (λ c, negb (sh_control c) && negb (Ascii.is_space c)) w = true → w ≠ "" →
  String.words_go cur (w +:+ s) = String.words_go (Some (String.rev_app w (default "" cur))) s.
Proof.
  revert cur. induction w as [|c w IH]; intros cur Hw Hne; [done|].
  rewrite app_cons. simpl in *. rewrite !andb_true_iff, !negb_true_iff in Hw.
  destruct Hw as [[_ ->] Hw].
  replace (from_option (String c) (String c "") cur) with (String c (default "" cur))
    by by destruct cur.
  destruct w as [|d w]; [done|]. by rewrite IH.
Qed.

Lemma words_go_blank cur s :
  String.words_go cur (" " +:+ s) = option_list (String.rev <$> cur) ++ String.words_go None s.
Proof. done. Qed.

Lemma words_unwords ws : Forall word_ok ws → String.words (unwords ws) = ws.
Proof.
  unfold String.words. induction 1 as [|w ws [Hne Hw] Hws IH]; [done|].
  destruct ws as [|v ws].
  - simpl. rewrite <-(app_empty_r w) at 1. rewrite words_go_word by done. simpl.
    rewrite rev_rev_app. done.
  - rewrite unwords_cons, words_go_word, words_go_blank, IH by done.
    simpl. by rewrite rev_rev_app.
Qed.

Lemma unwords_inert ws : Forall word_ok ws → str_forall (negb ∘ sh_control) (unwords ws) = true.
Proof.
  assert (∀ w, word_ok w → str_forall (negb ∘ sh_control) w = true) as Hw.
  { intros w [_ Hw]. eapply str_forall_impl; [|done]. intros c. by rewrite andb_true_iff; intros []. }
  induction 1 as [|w ws Hok Hws IH]; [done|]. destruct ws as [|v ws]; [by apply Hw|].
  rewrite unwords_cons, !str_forall_app, Hw, IH by done. done.
Qed.

Lemma sh_argv_unwords ws : Forall word_ok ws → sh_argv (unwords ws) = Some ws.
Proof. intros H. unfold sh_argv. by rewrite unwords_inert, words_unwords. Qed.

(** Rewrites with an equation on [sh_popen] whose command is only convertible to
    the one in the goal. *)
Ltac rewrite_popen H :=
  lazymatch type of H with
  | sh_popen _ ?e = ?r =>
      lazymatch goal with
      | |- context [sh_popen ?c e] =>
          replace (sh_popen c e) with r by (symmetry; exact H)
      end
  end.

(** ** [trim] *)

Lemma find_first_if_spec P s n :
  find_first_if P s = Some n →
  str_forall (negb ∘ P) (take n s) = true ∧
  ∃ c t, drop n s = String c t ∧ P c = true.
Proof.
  revert n. induction s as [|a s IH]; intros n; simpl; [done|].
  destruct (P a) eqn:E; [intros [= <-]; naive_solver|].
  intros (m & (Ht & c & t & Hd & Hc)%IH & ->)%fmap_Some. simpl. rewrite E. eauto.
Qed.
Lemma find_if_None P s :
  (find_first_if P s = None ↔ str_forall (negb ∘ P) s = true) ∧
  (find_last_if P s = None ↔ str_forall (negb ∘ P) s = true).
Proof.
  induction s as [|a s [IH1 IH2]]; [done|]. simpl.
  destruct (P a), (find_first_if P s), (find_last_if P s); naive_solver.
Qed.
Lemma find_last_if_spec P s n :
  find_last_if P s = Some n →
  str_forall (negb ∘ P) (drop (S n) s) = true ∧
  ∃ c, last_char (take (S n) s) = Some c ∧ P c = true.
Proof.
  revert n. induction s as [|a s IH]; intros n; [done|].
  simpl. destruct (find_last_if P s) as [m|] eqn:E.
  - intros [= <-]. destruct (IH m eq_refl) as (Hd & c & Hl & Hc). split; [done|].
    exists c. split; [|done]. destruct s as [|b s]; [done|]. exact Hl.
  - destruct (P a) eqn:Ea; [|done]. intros [= <-].
    split; [by apply (find_if_None P s)|]. exists a. by destruct s.
Qed.
Lemma find_first_le_last P s n m :
  find_first_if P s = Some n → find_last_if P s = Some m → (n ≤ m)%nat.
Proof.
  revert n m. induction s as [|a s IH]; intros n m; [done|]. simpl.
  destruct (P a) eqn:Ea; [intros [= <-]; lia|].
  intros (n' & Hn & ->)%fmap_Some. destruct (find_last_if P s) eqn:E; [|done].
  intros [= <-]. apply le_n_S. eauto.
Qed.

Lemma take_drop_split n k s :
  s = take n s +:+ take k (drop n s) +:+ drop (n + k) s.
Proof.
  revert s. induction n as [|n IH]; intros s; simpl.
  - destruct s; simpl; by rewrite ?app_empty_l, take_drop.
  - destruct s as [|c s]; [by destruct k|]. rewrite app_cons. f_equal. apply IH.
Qed.

(** [trim] cuts exactly the maximal blank prefix and suffix. *)
Definition trimmed (t : string) : Prop :=
  t = "" ∨ ∃ c t' d, t = String c t' ∧ is_ws c = false ∧ last_char t = Some d ∧ is_ws d = false.

Lemma trim_split s :
  ∃ l r, s = l +:+ trim s +:+ r ∧ str_forall is_ws l = true ∧ str_forall is_ws r = true ∧
         trimmed (trim s).
Proof.
  assert (∀ s, str_forall (negb ∘ (negb ∘ is_ws)) s = true → str_forall is_ws s = true) as Hnn.
  { intros s'. apply str_forall_impl. intros c. simpl. by rewrite negb_involutive. }
  unfold trim. destruct (find_first_if _ s) as [n|] eqn:En.
  2:{ exists s, "". rewrite app_empty_l, app_empty_r. apply find_if_None in En.
      unfold trimmed. naive_solver. }
  destruct (find_last_if _ s) as [m|] eqn:Em.
  2:{ apply find_if_None, (proj1 (find_if_None _ _)) in Em. congruence. }
  pose proof (find_first_le_last _ _ _ _ En Em) as Hle.
  apply find_first_if_spec in En as (Hl & c & t & Hd & Hc).
  apply find_last_if_spec in Em as (Hr & d & Hd' & Hdw).
  exists (take n s), (drop (n + (m - n + 1)) s).
  split_and!; [by apply take_drop_split|by apply Hnn| |].
  { replace (n + (m - n + 1))%nat with (S m) by lia. by apply Hnn. }
  right. replace (S m) with (n + (m - n + 1))%nat in Hd' by lia.
  rewrite take_add, Nat.add_1_r, Hd in Hd'. rewrite Nat.add_1_r, Hd.
  rewrite last_char_app in Hd' by done. simpl in *. rewrite negb_true_iff in *.
  eexists _, _, _. eauto.
Qed.

Lemma first_line_spec s :
  lacks LF (first_line s) = true ∧
  (first_line s = s ∨ ∃ rest, s = first_line s +:+ String LF rest).
Proof.
  unfold first_line. destruct (find_char LF s) as [n|] eqn:E.
  2:{ apply find_char_None in E. auto. }
  revert n E. induction s as [|a s IH]; intros n; [done|]. simpl.
  destruct (decide (a = LF)) as [->|Ha].
  - intros [= <-]. split; [done|]. right. by exists s.
  - intros (m & Hm & ->)%fmap_Some. destruct (IH m Hm) as [Hl [He|[r He]]].
    + rewrite He in Hl. apply find_char_None in Hl. congruence.
    + split; [by apply lacks_cons|]. right. exists r. simpl.
      rewrite app_cons. by f_equal.
Qed.

Lemma ws_and_not s :
  str_forall is_ws s = true → str_forall (negb ∘ is_ws) s = true → s = "".
Proof.
  destruct s as [|c s]; [done|]. simpl. rewrite !andb_true_iff, negb_true_iff.
  intros [? _] [? _]. congruence.
Qed.
Lemma trim_id s : str_forall (negb ∘ is_ws) s = true → trim s = s.
Proof.
  intros Hs. destruct (trim_split s) as (l & r & He & Hl & Hr & _).
  rewrite He, !str_forall_app, !andb_true_iff in Hs. destruct Hs as (Hl' & _ & Hr').
  rewrite (ws_and_not l), (ws_and_not r), app_empty_l, app_empty_r in He by done. done.
Qed.

Lemma first_line_line s t : lacks LF s = true → first_line (s +:+ String LF t) = s.
Proof. intros Hs. unfold first_line. by rewrite find_char_app, take_length_app. Qed.

Lemma safe_char_plain c :
  safe_char c = true → is_ws c = false ∧ c ≠ LF ∧ c ≠ NUL.
Proof. by destruct c as [[] [] [] [] [] [] [] []]. Qed.

Lemma safe_token_trim t : is_safe_token t = true → trim (first_line (line t)) = t.
Proof.
  rewrite safe_token_chars. intros [_ Ht]. unfold line. rewrite first_line_line.
  - apply trim_id. eapply str_forall_impl; [|done].
    intros c (Hc & _)%safe_char_plain. simpl. by rewrite Hc.
  - eapply str_forall_impl; [|done]. intros c (_ & Hc & _)%safe_char_plain.
    by rewrite bool_decide_eq_true.
Qed.
