(* ===== verification/ContainerBackend.v ===== *)
(** * The container-backend interface ([container_backend.hpp])

    The three operations the runtime manager relies on, and the promises their
    comments make, stated over a ghost history of creations and removals: a
    successful [run_container] creates a runtime under an id never used before,
    [remove_container] on the id of a runtime still live removes that runtime or
    returns [false], and nothing else creates or removes ([BackendContract]). The
    runtime manager ignores what [remove_container] returns, so its theorems also need
    that it succeeds ([RemovalsSucceed]); [failed_removal_leaks_container] is what
    happens if it does not. *)

From S2P Require Import Prelude CppStd.

Record RunResult : Type := { ok : bool; id : string; error : string }.

Class ContainerBackend (E : Type) : Type := {
  run_container : string → Z → St E RunResult;
  get_host_port : string → Z → St E Z;
  remove_container : string → St E bool;
}.

(** [std::chrono::steady_clock::now()], in nanoseconds since its epoch, and
    [std::this_thread::sleep_for] in milliseconds. *)
Class Clock (E : Type) : Type := {
  steady_now : St E Z;
  sleep_for_ms : Z → St E unit;
}.

(** ** The contract *)

Inductive backend_event : Type :=
  | Created (id : string)
  | Removed (id : string).

#[export] Instance backend_event_eq_dec : EqDecision backend_event.
Proof. solve_decision. Defined.

(** The containers created and not removed. *)
Definition live_step (s : gset string) (ev : backend_event) : gset string :=
  match ev with Created i => {[i]} ∪ s | Removed i => s ∖ {[i]} end.
Definition live (h : list backend_event) : gset string := foldl live_step ∅ h.

Lemma live_snoc h ev : live (h ++ [ev]) = live_step (live h) ev.
Proof. unfold live. by rewrite foldl_app. Qed.
Lemma live_Created h i : i ∈ live h → Created i ∈ h.
Proof.
  induction h as [|ev h IH] using rev_ind; [set_solver|].
  rewrite live_snoc. destruct ev; simpl; set_solver.
Qed.

Class BackendHistory (E : Type) : Type := history : E → list backend_event.

Class BackendContract (E : Type) `{ContainerBackend E, BackendHistory E} : Prop := {
  run_container_spec image port e :
    let '(r, e') := run_container image port e in
    history e' = (if ok r then history e ++ [Created (id r)] else history e) ∧
    (ok r = true → Created (id r) ∉ history e ∧ Removed (id r) ∉ history e);
  get_host_port_spec i port e : history (get_host_port i port e).2 = history e;
  remove_container_attempt i e :
    i ∈ live (history e) →
    let '(removed, e') := remove_container i e in
    history e' = history e ++ [Removed i] ∨ (removed = false ∧ history e' = history e);
}.

(** No removal of a live runtime fails. *)
Class RemovalsSucceed (E : Type) `{ContainerBackend E, BackendHistory E} : Prop :=
  removal_succeeds i e : i ∈ live (history e) → (remove_container i e).1 = true.

Class BackendSpec (E : Type) `{ContainerBackend E, BackendHistory E} : Prop := {
  spec_contract :: BackendContract E;
  spec_removals :: RemovalsSucceed E;
}.

Lemma remove_container_spec {E} `{BackendSpec E} i (e : E) :
  i ∈ live (history e) → history (remove_container i e).2 = history e ++ [Removed i].
Proof.
  intros Hi. pose proof (remove_container_attempt i e Hi) as Ha.
  pose proof (removal_succeeds i e Hi) as Hs.
  destruct (remove_container i e) as [removed e']. simpl in *. by destruct Ha as [?|[-> _]].
Qed.

(** Operations of the world that create and remove nothing. *)
Definition keeps_history {E A} `{BackendHistory E} (m : St E A) : Prop :=
  ∀ e, history (m e).2 = history e.

Lemma keeps_history_ret {E A} `{BackendHistory E} (a : A) : keeps_history (mret a : St E A).
Proof. done. Qed.
Lemma keeps_history_bind {E A B} `{BackendHistory E} (m : St E A) (f : A → St E B) :
  keeps_history m → (∀ a, keeps_history (f a)) → keeps_history (m ≫= f).
Proof.
  intros Hm Hf e. rewrite st_bind_run, Hf. apply Hm.
Qed.
#[export] Hint Resolve keeps_history_ret keeps_history_bind : faas.
