(* ===== verification/DockerClient.v ===== *)
(** * The Docker backend ([control-plane/src/docker_client.cpp])

    [DockerClient] as an implementation of [ContainerBackend] over the shell,
    the exact argument vectors of the commands it issues, and its behaviour on
    every result of those commands. *)

From S2P Require Import Prelude CppStd StringFacts ShellExec ContainerBackend.

Module DockerClient.

Section docker.
  Context {E : Type} `{Shell E}.

Definition run_container (image : string) (container_port : Z) : St E RunResult :=
  if negb (is_safe_token image) then
    mret {| ok := false; id := ""; error := "invalid image name: " +:+ image |}
  else
    exec ← exec_capture ("docker run -d -p " +:+ to_string container_port +:+ " " +:+ image);
    if decide (exit_code exec ≠ 0) then
      mret {| ok := false; id := ""; error := trim (output exec) |}
    else
      mret {| ok := true; id := trim (first_line (output exec)); error := "" |}.

Definition get_host_port (container_id : string) (container_port : Z) : St E Z :=
  if negb (is_safe_token container_id) then mret (-1)
  else
    exec ← exec_capture ("docker port " +:+ container_id +:+ " " +:+ to_string container_port);
    if decide (exit_code exec ≠ 0) then mret (-1)
    else
      let line := trim (first_line (output exec)) in
      match find_last_char ":" line with
      | None => mret (-1)
      | Some colon =>
          match stoi (drop (colon + 1) line) with
          | Ok port => mret port
          | _ => mret (-1)
          end
      end.

Definition remove_container (container_id : string) : St E bool :=
  if negb (is_safe_token container_id) then mret false
  else
    exec ← exec_capture ("docker rm -f " +:+ container_id);
    mret (bool_decide (exit_code exec = 0)).

Definition backend : ContainerBackend E := {|
  ContainerBackend.run_container := run_container;
  ContainerBackend.get_host_port := get_host_port;
  ContainerBackend.remove_container := remove_container;
|}.
End docker.

(** ** The commands issued *)

Inductive call : Type :=
  | CallRun (image : string) (port : Z)
  | CallPort (id : string) (port : Z)
  | CallRemove (id : string).

Definition perform {E} `{Shell E} (c : call) : St E unit :=
  match c with
  | CallRun image port => _ ← run_container image port; mret tt
  | CallPort i port => _ ← get_host_port i port; mret tt
  | CallRemove i => _ ← remove_container i; mret tt
  end.

(** The argument vector each call is meant to run, if its token is accepted. *)
Definition intended (c : call) : option (list string) :=
  match c with
  | CallRun image port =>
      if is_safe_token image
      then Some ["docker"; "run"; "-d"; "-p"; to_string port; image] else None
  | CallPort i port =>
      if is_safe_token i then Some ["docker"; "port"; i; to_string port] else None
  | CallRemove i =>
      if is_safe_token i then Some ["docker"; "rm"; "-f"; i] else None
  end.

Lemma intended_ok c argv : intended c = Some argv → Forall word_ok argv.
Proof.
  destruct c; simpl; case_match; intros [= <-]; repeat constructor; try done;
    by apply safe_token_word; rewrite ?to_string_safe.
Qed.

(** One [exec_capture] appends one entry to the audit log. *)
Lemma exec_capture_audited {E} `{Shell E} cmd (w : Audited E) :
  commands (exec_capture cmd w).2 = commands w ++ [cmd +:+ " 2>&1"].
Proof.
  unfold exec_capture. rewrite st_bind_run. simpl.
  destruct (sh_popen _ (audited_world w)) as [[[bs st]|] e]; done.
Qed.

(** The daemon behind the CLI, for an image that is present locally: [docker run
    -d] prints the fresh container id on a line of its own, [docker port] changes
    nothing and [docker rm -f] that exits with 0 has removed the container; one that
    fails may have removed it or not. *)
Definition succeeded (status : Z) : Prop := wifexited status = true ∧ wexitstatus status = 0.

Class DockerDaemon (E : Type) `{Shell E, BackendHistory E} : Prop := {
  docker_ids_safe e cid : Created cid ∈ history e → is_safe_token cid = true;
  docker_run_law image port e :
    is_safe_token image = true →
    let '(r, e') :=
      sh_popen (unwords ["docker"; "run"; "-d"; "-p"; to_string port; image] +:+ " 2>&1") e in
    (∃ blocks status cid,
       r = Some (blocks, status) ∧ succeeded status ∧
       read_blocks "" blocks = line cid ∧
       Created cid ∉ history e ∧ Removed cid ∉ history e ∧
       history e' = history e ++ [Created cid]) ∨
    (history e' = history e ∧
     ∀ blocks status, r = Some (blocks, status) → ¬ succeeded status);
  docker_port_law i port e :
    history (sh_popen (unwords ["docker"; "port"; i; to_string port] +:+ " 2>&1") e).2
    = history e;
  docker_rm_law i e :
    i ∈ live (history e) →
    let '(r, e') := sh_popen (unwords ["docker"; "rm"; "-f"; i] +:+ " 2>&1") e in
    history e' = history e ++ [Removed i] ∨
    (history e' = history e ∧
     ∀ blocks status, r = Some (blocks, status) → ¬ succeeded status);
}.

(** A daemon that never refuses to remove a container. *)
Class DockerRemovals (E : Type) `{Shell E, BackendHistory E} : Prop :=
  docker_rm_succeeds i e :
    i ∈ live (history e) →
    ∃ blocks status,
      (sh_popen (unwords ["docker"; "rm"; "-f"; i] +:+ " 2>&1") e).1 = Some (blocks, status) ∧
      succeeded status.

Lemma perform_audited {E} `{Shell E} c (w : Audited E) :
  commands (perform c w).2 =
  commands w ++ option_list ((λ argv, unwords argv +:+ " 2>&1") <$> intended c).
Proof.
  destruct c as [image port|i port|i]; simpl;
    [unfold run_container|unfold get_host_port|unfold remove_container];
    destruct (is_safe_token _); simpl; rewrite ?app_nil_r; try done;
    rewrite !st_bind_run; simpl;
    erewrite <-exec_capture_audited; repeat case_match; done.
Qed.

(** ** Refinement of the backend contract *)

Lemma exit_code_succeeded status :
  (if wifexited status then wexitstatus status else -1) = 0 ↔ succeeded status.
Proof. unfold succeeded. destruct (wifexited status); naive_solver lia. Qed.

Section refinement.
  Context {E : Type} `{DockerDaemon E}.

Lemma run_container_contract image port e :
  let '(r, e') := run_container image port e in
  history e' = (if ok r then history e ++ [Created (id r)] else history e) ∧
  (ok r = true → Created (id r) ∉ history e ∧ Removed (id r) ∉ history e).
Proof.
  unfold run_container. destruct (is_safe_token image) eqn:Hsafe; [|done]. simpl.
  rewrite st_bind_run. unfold exec_capture. rewrite st_bind_run.
  pose proof (docker_run_law image port e Hsafe) as Hlaw. simpl in Hlaw |- *.
  destruct (sh_popen _ e) as [r e']. destruct Hlaw as [Hok|[Hh Hfail]].
  - destruct Hok as (blocks & status & cid & -> & Hst & Hout & HnC & HnR & Hh). simpl.
    apply exit_code_succeeded in Hst. rewrite decide_False by lia. simpl.
    rewrite Hout, safe_token_trim; [done|]. apply (docker_ids_safe e').
    rewrite Hh. apply elem_of_app. right. by apply list_elem_of_singleton.
  - destruct r as [[blocks status]|]; simpl; [|done].
    rewrite decide_True; [done|]. intros Hst%exit_code_succeeded. naive_solver.
Qed.

Lemma get_host_port_contract i port e : history (get_host_port i port e).2 = history e.
Proof.
  unfold get_host_port. destruct (is_safe_token i); [|done]. simpl.
  pose proof (docker_port_law i port e) as Hlaw.
  rewrite st_bind_run. unfold exec_capture. rewrite st_bind_run. simpl in Hlaw |- *.
  destruct (sh_popen _ e) as [[[blocks status]|] e']; simpl in *; repeat case_match; done.
Qed.

Lemma remove_container_contract i e :
  i ∈ live (history e) →
  let '(removed, e') := remove_container i e in
  history e' = history e ++ [Removed i] ∨ (removed = false ∧ history e' = history e).
Proof.
  intros Hi. unfold remove_container. rewrite (docker_ids_safe e i) by (by apply live_Created). simpl.
  pose proof (docker_rm_law i e Hi) as Hlaw.
  rewrite st_bind_run. unfold exec_capture. rewrite st_bind_run. simpl in Hlaw |- *.
  destruct (sh_popen _ e) as [[[blocks status]|] e']; simpl; destruct Hlaw as [Hh|[Hh Hno]]; auto.
  right. split; [|done]. apply bool_decide_eq_false. intros Hst%exit_code_succeeded. by eapply Hno.
Qed.

Lemma removals_succeed `{!DockerRemovals E} : @RemovalsSucceed E backend _.
Proof.
  intros i e Hi. simpl. unfold remove_container.
  rewrite (docker_ids_safe e i) by (by apply live_Created). simpl.
  destruct (docker_rm_succeeds i e Hi) as (blocks & status & Hr & Hst).
  rewrite st_bind_run. unfold exec_capture. rewrite st_bind_run. simpl in Hr |- *.
  destruct (sh_popen _ e) as [r e']. simpl in Hr. subst r. simpl.
  apply bool_decide_eq_true. by apply exit_code_succeeded.
Qed.
End refinement.

(** ** Properties *)

(** C37: Every call on the Docker backend, whatever image name or container id it is
    given, hands the shell at most one command; the shell reads that command as
    exactly the intended argument vector, with the image or id as one word, and a
    rejected token reaches no shell at all. *)
Theorem docker_commands_are_intended E `(Shell E) (c : call) (w : Audited E) :
  ∃ cmds,
    commands (perform c w).2 = commands w ++ ((λ cmd, cmd +:+ " 2>&1") <$> cmds) ∧
    sh_argv <$> cmds = Some <$> option_list (intended c).
Proof.
  exists (unwords <$> option_list (intended c)). split.
  - rewrite perform_audited. by destruct (intended c).
  - destruct (intended c) as [argv|] eqn:Hi; [|done]. simpl.
    by rewrite sh_argv_unwords by (by eapply intended_ok).
Qed.

(** C35: On a daemon that behaves as documented for local images, the Docker backend
    keeps the contract of its interface: ids are fresh, every successful
    [run_container] is one creation, [remove_container] of a container still live removes
    it or returns [false], and nothing else creates or removes. If the daemon never fails
    a [docker rm -f], removals succeed too, which is what the runtime manager relies on. *)
Theorem docker_refines_backend E `(DockerDaemon E) :
  @BackendContract E backend _ ∧ (DockerRemovals E → @BackendSpec E backend _).
Proof.
  assert (@BackendContract E backend _) as Hc.
  { split; [exact run_container_contract|exact get_host_port_contract
           |exact remove_container_contract]. }
  split; [exact Hc|]. intros Hr. split; [exact Hc|exact removals_succeed].
Qed.

(** The published port is read off [docker port]'s first line, after its last
    colon. *)
Lemma get_host_port_reads {E} `{Shell E} i port e blocks e' addr p rest :
  is_safe_token i = true →
  sh_popen (unwords ["docker"; "port"; i; to_string port] +:+ " 2>&1") e
    = (Some (blocks, 0), e') →
  read_blocks "" blocks = (addr +:+ ":" +:+ to_string p) +:+ String LF rest →
  str_forall (negb ∘ is_ws) addr = true → in_int p →
  get_host_port i port e = (p, e').
Proof.
  intros Hi Hp Hout Haddr Hint. unfold get_host_port. rewrite Hi. simpl.
  rewrite st_bind_run. unfold exec_capture. rewrite st_bind_run. simpl.
  rewrite_popen Hp. simpl. rewrite Hout.
  assert (str_forall (negb ∘ is_ws) (addr +:+ ":" +:+ to_string p) = true) as Hws.
  { rewrite !str_forall_app, Haddr. simpl.
    pose proof (to_string_safe p) as [_ Hs]%safe_token_chars.
    eapply str_forall_impl; [|done]. intros c (Hc & _)%safe_char_plain. simpl. by rewrite Hc. }
  rewrite first_line_line.
  2:{ eapply str_forall_impl; [|done]. intros c Hc.
      rewrite bool_decide_eq_true. by intros ->. }
  rewrite trim_id by done.
  change (":" +:+ to_string p) with (String ":" (to_string p)).
  rewrite find_last_char_app by (by apply to_string_lacks). rewrite Nat.add_1_r.
  rewrite drop_S_app, stoi_to_string by done. done.
Qed.

(** When [docker run] has to pull the image it first prints that it cannot find it
    locally, and the captured output mixes both streams: the id is then that
    message, its port is never found, and its removal is refused without a
    command. The container stays, forgotten. *)
Theorem pulled_image_container_is_lost E `(Shell E) (image first rest : string) (port : Z)
    (blocks : list string) (e e' : E) :
  is_safe_token image = true →
  sh_popen (unwords ["docker"; "run"; "-d"; "-p"; to_string port; image] +:+ " 2>&1") e
  = (Some (blocks, 0), e') →
  read_blocks "" blocks = first +:+ String LF rest → lacks LF first = true →
  is_safe_token (trim first) = false →
  run_container image port e = ({| ok := true; id := trim first; error := "" |}, e') ∧
  (∀ p w, get_host_port (trim first) p w = (-1, w)) ∧
  (∀ w, remove_container (trim first) w = (false, w)).
Proof.
  intros Hi Hp Hout Hlf Hunsafe. split_and!.
  - unfold run_container. rewrite Hi. simpl. rewrite st_bind_run. unfold exec_capture.
    rewrite st_bind_run. simpl. rewrite_popen Hp. simpl. rewrite Hout.
    by rewrite first_line_line.
  - intros p w. unfold get_host_port. by rewrite Hunsafe.
  - intros w. unfold remove_container. by rewrite Hunsafe.
Qed.

Definition pulling_shell : Shell unit := {| sh_popen command := λ w,
  (Some ([line "Unable to find image 'hello:v1' locally"; line "4f1c"], 0), w) |}.

Lemma pulled_image_container_is_lost_witness :
  (remove_container (H:=pulling_shell) "Unable to find image 'hello:v1' locally" tt).1 = false.
Proof.
  destruct (pulled_image_container_is_lost unit pulling_shell "hello:v1"
    "Unable to find image 'hello:v1' locally" (line "4f1c") 8080
    [line "Unable to find image 'hello:v1' locally"; line "4f1c"] tt tt
    eq_refl eq_refl eq_refl eq_refl ltac:(vm_compute; reflexivity)) as (_ & _ & Hr).
  change "Unable to find image 'hello:v1' locally"
    with (trim "Unable to find image 'hello:v1' locally").
  by rewrite Hr.
Defined.
End DockerClient.
