(* ===== verification/KubernetesClient.v ===== *)
(** * The Kubernetes backend ([control-plane/src/kubernetes_client.cpp])

    [KubernetesClient] as an implementation of [ContainerBackend] over the shell
    and the clock. The function-local static counter of [generate_pod_name] is
    part of the process state ([KubeProc]), next to the world. *)

From S2P Require Import Prelude CppStd StringFacts ShellExec ContainerBackend.

Record KubeProc (E : Type) : Type := { pod_counter : Z; kube_world : E }.
Arguments pod_counter {_} _.
Arguments kube_world {_} _.

Definition on_world {E A} (m : St E A) : St (KubeProc E) A :=
  zoom kube_world (λ e s, {| pod_counter := pod_counter s; kube_world := e |}) m.

Module KubernetesClient.

Section kubernetes.
  Context {E : Type} `{Shell E, Clock E}.

Definition pod_name (now_ns counter : Z) : string :=
  "faas-" +:+ to_string (Z.rem (Z.quot now_ns 1000000) 10000000) +:+ "-" +:+ to_string counter.

Definition generate_pod_name : St (KubeProc E) string :=
  now ← on_world steady_now;
  _ ← st_modify (λ s, {| pod_counter := pod_counter s + 1; kube_world := kube_world s |});
  s ← st_get;
  mret (pod_name now (pod_counter s)).

Definition exec (cmd : string) : St (KubeProc E) ExecResult := on_world (exec_capture cmd).

Definition delete_pod_cmd (name : string) : string :=
  "kubectl delete pod " +:+ name +:+ " --ignore-not-found --wait=false".

Definition run_container (image : string) (container_port : Z) : St (KubeProc E) RunResult :=
  if negb (is_safe_token image) then
    mret {| ok := false; id := ""; error := "invalid image name: " +:+ image |}
  else
    name ← generate_pod_name;
    run_exec ← exec ("kubectl run " +:+ name +:+ " --image=" +:+ image +:+ " --port="
                     +:+ to_string container_port
                     +:+ " --image-pull-policy=IfNotPresent --restart=Never");
    if decide (exit_code run_exec ≠ 0) then
      mret {| ok := false; id := "";
              error := "failed to create pod: " +:+ trim (output run_exec) |}
    else
    wait_exec ← exec ("kubectl wait --for=condition=Ready pod/" +:+ name +:+ " --timeout=60s");
    if decide (exit_code wait_exec ≠ 0) then
      _ ← exec (delete_pod_cmd name);
      mret {| ok := false; id := "";
              error := "pod did not become ready: " +:+ trim (output wait_exec) |}
    else
    expose_exec ← exec ("kubectl expose pod " +:+ name +:+ " --port="
                        +:+ to_string container_port +:+ " --name=" +:+ name
                        +:+ " --type=NodePort");
    if decide (exit_code expose_exec ≠ 0) then
      _ ← exec (delete_pod_cmd name);
      mret {| ok := false; id := "";
              error := "failed to expose pod: " +:+ trim (output expose_exec) |}
    else mret {| ok := true; id := name; error := "" |}.

Definition get_host_port (i : string) (container_port : Z) : St (KubeProc E) Z :=
  if negb (is_safe_token i) then mret (-1)
  else
    r ← exec ("kubectl get svc " +:+ i +:+ " -o jsonpath={.spec.ports[0].nodePort}");
    if decide (exit_code r ≠ 0) then mret (-1)
    else
      match stoi (trim (output r)) with
      | Ok port => mret port
      | _ => mret (-1)
      end.

Definition remove_container (i : string) : St (KubeProc E) bool :=
  if negb (is_safe_token i) then mret false
  else
    _ ← exec ("kubectl delete svc " +:+ i +:+ " --ignore-not-found --wait=false");
    r ← exec (delete_pod_cmd i);
    mret (bool_decide (exit_code r = 0)).

Definition backend : ContainerBackend (KubeProc E) := {|
  ContainerBackend.run_container := run_container;
  ContainerBackend.get_host_port := get_host_port;
  ContainerBackend.remove_container := remove_container;
|}.

(** [n] successive names. *)
Fixpoint generate_pod_names (n : nat) : St (KubeProc E) (list string) :=
  match n with
  | O => mret []
  | S n =>
      name ← generate_pod_name;
      names ← generate_pod_names n;
      mret (name :: names)
  end.
End kubernetes.

(** ** Pod names *)

Lemma pod_name_counter n1 n2 c1 c2 :
  0 ≤ c1 → 0 ≤ c2 → pod_name n1 c1 = pod_name n2 c2 → c1 = c2.
Proof.
  unfold pod_name. intros Hc1 Hc2 Heq.
  assert (∀ c, 0 ≤ c → lacks "-" (to_string c) = true) as Hlacks.
  { intros c Hc. eapply str_forall_impl; [|by apply to_string_nonneg_digits].
    intros a (_ & Ha & _)%digit_chars. by rewrite bool_decide_eq_true. }
  rewrite <-!(app_assoc_str "faas-") in Heq.
  apply (split_at_last "-") in Heq as [_ Heq]; [|auto..]. by apply (inj pretty).
Qed.

Lemma pod_name_safe n c : is_safe_token (pod_name n c) = true.
Proof.
  unfold pod_name. repeat apply safe_token_app; try done; apply to_string_safe.
Qed.

Lemma generate_pod_names_counters {E} `{Clock E} n (s : KubeProc E) name :
  name ∈ (generate_pod_names n s).1 →
  ∃ t c, name = pod_name t c ∧ pod_counter s < c.
Proof.
  revert s. induction n as [|n IH]; intros s; simpl.
  { by intros Hin%elem_of_nil. }
  rewrite st_bind_run. unfold generate_pod_name at 1 2.
  unfold on_world, zoom, mbind, st_bind, st_modify, st_get, mret, st_ret.
  destruct (steady_now (kube_world s)) as [t e']. simpl.
  destruct (generate_pod_names n _) as [names s''] eqn:En. simpl.
  intros [->|Hin]%elem_of_cons.
  - eexists _, _. split; [done|]. lia.
  - eapply (f_equal fst) in En. simpl in En. rewrite <-En in Hin.
    apply IH in Hin as (t' & c & -> & Hc). simpl in Hc. exists t', c. split; [done|lia].
Qed.

(** ** The commands issued *)

#[export] Instance audited_clock {E} `{Clock E} : Clock (Audited E) := {
  steady_now := zoom audited_world (λ e w, {| commands := commands w; audited_world := e |})
                  steady_now;
  sleep_for_ms ms := zoom audited_world
                  (λ e w, {| commands := commands w; audited_world := e |}) (sleep_for_ms ms);
}.

Definition run_argv (name image : string) (port : Z) : list string :=
  ["kubectl"; "run"; name; "--image=" +:+ image; "--port=" +:+ to_string port;
   "--image-pull-policy=IfNotPresent"; "--restart=Never"].
Definition wait_argv (name : string) : list string :=
  ["kubectl"; "wait"; "--for=condition=Ready"; "pod/" +:+ name; "--timeout=60s"].
Definition expose_argv (name : string) (port : Z) : list string :=
  ["kubectl"; "expose"; "pod"; name; "--port=" +:+ to_string port; "--name=" +:+ name;
   "--type=NodePort"].
Definition delete_argv (kind name : string) : list string :=
  ["kubectl"; "delete"; kind; name; "--ignore-not-found"; "--wait=false"].

Definition get_argv (name : string) : list string :=
  ["kubectl"; "get"; "svc"; name; "-o"; "jsonpath={.spec.ports[0].nodePort}"].

(** A command of the client is one of these argument vectors. *)
Ltac command_eq :=
  cbv [run_argv wait_argv expose_argv delete_argv get_argv delete_pod_cmd unwords];
  rewrite ?app_cons, ?app_empty_l, ?app_assoc_str; reflexivity.

(** The log after running a list of commands. *)
Definition logged (log : list string) (argvs : list (list string)) : list string :=
  log ++ ((λ argv, unwords argv +:+ " 2>&1") <$> argvs).

Lemma logged_snoc log argvs argv :
  logged log (argvs ++ [argv]) = logged log argvs ++ [unwords argv +:+ " 2>&1"].
Proof. unfold logged. by rewrite fmap_app, app_assoc. Qed.

Lemma word_ok_app s t :
  str_forall (λ c, negb (sh_control c) && negb (Ascii.is_space c)) s = true → s ≠ "" →
  is_safe_token t = true → word_ok (s +:+ t).
Proof.
  intros Hs Hne [_ Ht]%safe_token_word. split; [by destruct s|].
  by rewrite str_forall_app, Hs, Ht.
Qed.

Lemma kube_argvs_ok name image port :
  is_safe_token name = true → is_safe_token image = true →
  Forall (Forall word_ok)
    [run_argv name image port; wait_argv name; expose_argv name port;
     delete_argv "pod" name; delete_argv "svc" name].
Proof.
  intros Hn Hi. pose proof (to_string_safe port).
  repeat apply Forall_cons_2; try apply Forall_nil_2;
    first [by split | by apply safe_token_word | by apply word_ok_app].
Qed.

Section audit.
  Context {E : Type} `{Shell E, Clock E}.
Implicit Type s : KubeProc (Audited E).

Lemma exec_logs cmd s :
  commands (kube_world (exec cmd s).2) = commands (kube_world s) ++ [cmd +:+ " 2>&1"].
Proof.
  unfold exec, on_world, zoom, exec_capture. rewrite st_bind_run. simpl.
  destruct (sh_popen _ (audited_world _)) as [[[bs st]|] e]; done.
Qed.

Lemma generate_pod_name_logs s :
  let '(name, s') := generate_pod_name s in
  is_safe_token name = true ∧ commands (kube_world s') = commands (kube_world s).
Proof.
  unfold generate_pod_name, on_world, zoom, mbind, st_bind, st_modify, st_get, mret, st_ret.
  simpl. unfold zoom. destruct (steady_now _) as [t e]. simpl.
  split; [apply pod_name_safe|done].
Qed.

(** One step of a proof that follows the commands of a method. *)
Lemma exec_logged cmd argv s r s' log argvs :
  exec cmd s = (r, s') → cmd = unwords argv →
  commands (kube_world s) = logged log argvs →
  commands (kube_world s') = logged log (argvs ++ [argv]).
Proof.
  intros He -> Hs. pose proof (exec_logs (unwords argv) s) as Hl. rewrite He in Hl. simpl in Hl.
  by rewrite Hl, Hs, logged_snoc.
Qed.

Lemma run_container_commands image port s :
  is_safe_token image = true →
  let '(r, s') := run_container image port s in
  ∃ name argvs,
    is_safe_token name = true ∧
    commands (kube_world s') = logged (commands (kube_world s)) argvs ∧
    if ok r then
      id r = name ∧ argvs = [run_argv name image port; wait_argv name; expose_argv name port]
    else
      argvs = [run_argv name image port] ∨
      argvs = [run_argv name image port; wait_argv name; delete_argv "pod" name] ∨
      argvs = [run_argv name image port; wait_argv name; expose_argv name port;
               delete_argv "pod" name].
Proof.
  intros Hsafe. unfold run_container. rewrite Hsafe. simpl. rewrite st_bind_run.
  pose proof (generate_pod_name_logs s) as Hg.
  destruct (generate_pod_name s) as [name s0]. destruct Hg as [Hname Hlog]. simpl.
  assert (commands (kube_world s0) = logged (commands (kube_world s)) []) as L0.
  { unfold logged. by rewrite app_nil_r. }
  rewrite st_bind_run. destruct (exec _ s0) as [r1 s1] eqn:E1.
  pose proof (exec_logged _ (run_argv name image port) _ _ _ _ _ E1 ltac:(command_eq) L0) as L1. simpl.
  destruct (decide (exit_code r1 ≠ 0)).
  { eexists name, _. split_and!; [done|exact L1|by left]. }
  rewrite st_bind_run. destruct (exec _ s1) as [r2 s2] eqn:E2.
  pose proof (exec_logged _ (wait_argv name) _ _ _ _ _ E2 ltac:(command_eq) L1) as L2. simpl.
  destruct (decide (exit_code r2 ≠ 0)).
  { rewrite st_bind_run. destruct (exec _ s2) as [r3 s3] eqn:E3.
    pose proof (exec_logged _ (delete_argv "pod" name) _ _ _ _ _ E3 ltac:(command_eq) L2) as L3.
    eexists name, _. split_and!; [done|exact L3|by right; left]. }
  rewrite st_bind_run. destruct (exec _ s2) as [r3 s3] eqn:E3.
  pose proof (exec_logged _ (expose_argv name port) _ _ _ _ _ E3 ltac:(command_eq) L2) as L3. simpl.
  destruct (decide (exit_code r3 ≠ 0)).
  2:{ eexists name, _. split_and!; [done|exact L3|done..]. }
  rewrite st_bind_run. destruct (exec _ s3) as [r4 s4] eqn:E4.
  pose proof (exec_logged _ (delete_argv "pod" name) _ _ _ _ _ E4 ltac:(command_eq) L3) as L4.
  eexists name, _. split_and!; [done|exact L4|by right; right].
Qed.
End audit.

(** ** Properties *)

(** Starting a pod issues, whatever the outcome, exactly one of four command
    sequences, each command read by the shell as its intended argument vector;
    when the pod was created but could not be waited for or exposed, the last
    command deletes that same pod, and on success the returned id is the name of
    the pod that was created, awaited and exposed. *)
Theorem kube_run_container_commands E `(Shell E) `(Clock E) image port (s : KubeProc (Audited E)) :
  let '(r, s') := run_container image port s in
  if is_safe_token image then
    ∃ name argvs,
      is_safe_token name = true ∧
      commands (kube_world s') = logged (commands (kube_world s)) argvs ∧
      Forall (λ argv, sh_argv (unwords argv) = Some argv) argvs ∧
      if ok r then
        id r = name ∧ argvs = [run_argv name image port; wait_argv name; expose_argv name port]
      else
        argvs = [run_argv name image port] ∨
        argvs = [run_argv name image port; wait_argv name; delete_argv "pod" name] ∨
        argvs = [run_argv name image port; wait_argv name; expose_argv name port;
                 delete_argv "pod" name]
  else ok r = false ∧ commands (kube_world s') = commands (kube_world s).
Proof.
  destruct (is_safe_token image) eqn:Hsafe.
  - pose proof (run_container_commands image port s Hsafe) as Hr.
    destruct (run_container image port s) as [r s'].
    destruct Hr as (name & argvs & Hname & Hlog & Hc). exists name, argvs.
    split_and!; [done..| |done].
    pose proof (kube_argvs_ok name image port Hname Hsafe) as Hok.
    rewrite !Forall_cons in Hok. destruct Hok as (? & ? & ? & ? & _ & _).
    assert (Forall (Forall word_ok) argvs) as Hall.
    { destruct (ok r); [|destruct Hc as [Hc|[Hc|Hc]]]; destruct_and?; subst;
        repeat (apply Forall_cons_2; [assumption|]); apply Forall_nil_2. }
    eapply Forall_impl; [done|]. apply sh_argv_unwords.
  - unfold run_container. by rewrite Hsafe.
Qed.

(** The names given to pods by one process are pairwise distinct, however its
    clock behaves, and safe to interpolate. *)
Theorem pod_names_distinct E `(Clock E) n (e : E) :
  NoDup (generate_pod_names n {| pod_counter := 0; kube_world := e |}).1 ∧
  Forall (λ name, is_safe_token name = true)
    (generate_pod_names n {| pod_counter := 0; kube_world := e |}).1.
Proof.
  assert (∀ s, 0 ≤ pod_counter s → NoDup (generate_pod_names n s).1) as Hnd.
  { induction n as [|n IH]; intros s Hs; [constructor|]. simpl. rewrite st_bind_run.
    unfold generate_pod_name at 1 2.
    unfold on_world, zoom, mbind, st_bind, st_modify, st_get, mret, st_ret.
    destruct (steady_now (kube_world s)) as [t e']. simpl.
    set (s1 := {| pod_counter := _ |}).
    destruct (generate_pod_names n s1) as [names s2] eqn:En. simpl.
    apply (f_equal fst) in En. simpl in En. subst names.
    constructor; [|apply IH; simpl; lia].
    intros (t' & c & Heq & Hc)%generate_pod_names_counters. simpl in Hc.
    apply pod_name_counter in Heq; lia. }
  split; [by apply Hnd|]. apply Forall_forall.
  intros name (t & c & -> & _)%generate_pod_names_counters. apply pod_name_safe.
Qed.
End KubernetesClient.
