(* ===== verification/FunctionModel.v ===== *)
(** * The function model ([function.hpp], [runtime_state.hpp]) *)

From S2P Require Import Prelude CppStd.
From Stdlib Require Export PrimFloat.

Inductive FunctionStatus : Type := STATUS_READY.

Definition function_status_to_string (status : FunctionStatus) : string :=
  match status with STATUS_READY => "READY" end.

Record FunctionSpec : Type := {
  name : string;
  version : Z;             (* int *)
  image : string;
  timeout_ms : Z;          (* int *)
  memory_mb : Z;           (* int *)
  cpu : float;             (* double *)
  max_concurrency : Z;     (* int *)
  idle_timeout_ms : Z;     (* long *)
}.

(** The member initialisers of [FunctionSpec]. *)
Definition default_spec : FunctionSpec := {|
  name := ""; version := 1; image := ""; timeout_ms := 5000; memory_mb := 256;
  cpu := 0.5%float; max_concurrency := 1; idle_timeout_ms := 60000;
|}.

(** The widths of the integer members. *)
Definition spec_in_range (s : FunctionSpec) : Prop :=
  in_int (version s) ∧ in_int (timeout_ms s) ∧ in_int (memory_mb s) ∧
  in_int (max_concurrency s) ∧ in_long (idle_timeout_ms s).

(** A registered function; [created_at] in seconds since the Unix epoch. *)
Record Function : Type := {
  spec : FunctionSpec;
  status : FunctionStatus;
  created_at : Z;
}.

Inductive RuntimeState : Type := STARTING | READY | BUSY | IDLE | FAILED | TERMINATED.

#[export] Instance RuntimeState_eq_dec : EqDecision RuntimeState.
Proof. solve_decision. Defined.

Definition runtime_state_to_string (state : RuntimeState) : string :=
  match state with
  | STARTING => "STARTING"
  | READY => "READY"
  | BUSY => "BUSY"
  | IDLE => "IDLE"
  | FAILED => "FAILED"
  | TERMINATED => "TERMINATED"
  end.

#[export] Instance runtime_state_to_string_inj : Inj (=) (=) runtime_state_to_string.
Proof. by intros [] []. Qed.
