(* ===== verification/Metrics.v ===== *)
(** * The metrics registry ([metrics.hpp], [metrics.cpp])

    The counters and histograms, their three recording operations, the text
    rendering, and their meaning: every series equals what a count over the
    history of recorded events gives. Durations are the integer-valued doubles
    [static_cast<double>(long)] produces ([double_add] rounds to 53 bits). Counters are
    integers: that a [long] would overflow after 2^63 events is not modelled. *)

From S2P Require Import Prelude CppStd StringFacts.

Definition kBucketsMs : list Z := [1; 5; 10; 25; 50; 100; 250; 500; 1000; 2500; 5000; 10000].

Definition bool_str (value : bool) : string := if value then "true" else "false".

Record Histogram : Type := {
  bucket_counts : list Z;
  count : Z;
  sum_ms : Z;
}.

Record Metrics : Type := {
  invocation_counts_ : gmap (string * bool) Z;   (* (status, cold_start) -> count *)
  duration_histograms_ : gmap bool Histogram;    (* cold_start -> histogram *)
  runtimes_created_ : Z;
  runtimes_terminated_ : gmap string Z;          (* reason -> count *)
}.

Definition new_metrics : Metrics := {|
  invocation_counts_ := ∅; duration_histograms_ := ∅;
  runtimes_created_ := 0; runtimes_terminated_ := ∅;
|}.
Definition new_histogram : Histogram := {| bucket_counts := []; count := 0; sum_ms := 0 |}.

(** [++m[k]] on a [std::map] to [long]. *)
Definition increment {K} `{Countable K} (k : K) (m : gmap K Z) : gmap K Z :=
  <[k := default 0 (m !! k) + 1]> m.

(** The loop over the bucket bounds, from index [i] on. The index is in range in
    every reachable histogram ([histogram_buckets_cumulative]), where [alter] is [++]. *)
Fixpoint bump_buckets (i : nat) (bounds : list Z) (duration_ms : Z) (counts : list Z) : list Z :=
  match bounds with
  | [] => counts
  | b :: bounds =>
      bump_buckets (S i) bounds duration_ms
        (if decide (duration_ms ≤ b) then alter (Z.add 1) i counts else counts)
  end.

Definition observe (duration_ms : Z) (hist : Histogram) : Histogram :=
  let counts := if decide (bucket_counts hist = []) then replicate (length kBucketsMs) 0
                else bucket_counts hist in
  {| bucket_counts := bump_buckets 0 kBucketsMs duration_ms counts;
     count := count hist + 1;
     sum_ms := double_add (sum_ms hist) duration_ms |}.

Definition record_invocation (status : string) (cold_start : bool) (duration_ms : Z)
    (m : Metrics) : Metrics := {|
  invocation_counts_ := increment (status, cold_start) (invocation_counts_ m);
  duration_histograms_ :=
    <[cold_start := observe duration_ms
                      (default new_histogram (duration_histograms_ m !! cold_start))]>
      (duration_histograms_ m);
  runtimes_created_ := runtimes_created_ m;
  runtimes_terminated_ := runtimes_terminated_ m;
|}.

Definition record_runtime_created (m : Metrics) : Metrics := {|
  invocation_counts_ := invocation_counts_ m;
  duration_histograms_ := duration_histograms_ m;
  runtimes_created_ := runtimes_created_ m + 1;
  runtimes_terminated_ := runtimes_terminated_ m;
|}.

Definition record_runtime_terminated (reason : string) (m : Metrics) : Metrics := {|
  invocation_counts_ := invocation_counts_ m;
  duration_histograms_ := duration_histograms_ m;
  runtimes_created_ := runtimes_created_ m;
  runtimes_terminated_ := increment reason (runtimes_terminated_ m);
|}.

(** ** Rendering *)

Definition invocation_sample (status : string) (cold_start : bool) (n : Z) : string :=
  "faas_invocations_total{status=" +:+ quoted status +:+ ",cold_start="
  +:+ quoted (bool_str cold_start) +:+ "} " +:+ to_string n.
Definition bucket_sample (cold_start : bool) (le : string) (n : Z) : string :=
  "faas_invocation_duration_ms_bucket{cold_start=" +:+ quoted (bool_str cold_start)
  +:+ ",le=" +:+ quoted le +:+ "} " +:+ to_string n.
Definition sum_sample (cold_start : bool) (sum : Z) : string :=
  "faas_invocation_duration_ms_sum{cold_start=" +:+ quoted (bool_str cold_start) +:+ "} "
  +:+ os_double sum.
Definition count_sample (cold_start : bool) (n : Z) : string :=
  "faas_invocation_duration_ms_count{cold_start=" +:+ quoted (bool_str cold_start) +:+ "} "
  +:+ to_string n.
Definition terminated_sample (reason : string) (n : Z) : string :=
  "faas_runtimes_terminated_total{reason=" +:+ quoted reason +:+ "} " +:+ to_string n.

(** [hist.bucket_counts[i]] *)
Definition vector_at (v : list Z) (i : nat) : outcome Z :=
  match v !! i with Some x => Ok x | None => Undefined IndexOutOfRange end.

Definition histogram_lines (cold_start : bool) (hist : Histogram) : outcome (list string) :=
  buckets ← mapM (λ '(i, b), n ← vector_at (bucket_counts hist) i;
                             mret (bucket_sample cold_start (os_double b) n))
              (imap pair kBucketsMs);
  mret (buckets ++
        [bucket_sample cold_start "+Inf" (count hist);
         sum_sample cold_start (sum_ms hist);
         count_sample cold_start (count hist)]).

Definition render_lines (active_runtimes : Z) (m : Metrics) : outcome (list string) :=
  histograms ← mapM (λ '(cold_start, hist), histogram_lines cold_start hist)
                 (map_entries (duration_histograms_ m));
  mret (
    ["# HELP faas_active_runtimes Number of runtimes currently active.";
     "# TYPE faas_active_runtimes gauge";
     "faas_active_runtimes " +:+ to_string active_runtimes;
     "# HELP faas_invocations_total Total invocations by outcome and cold/warm.";
     "# TYPE faas_invocations_total counter"]
    ++ ((λ '((status, cold_start), n), invocation_sample status cold_start n)
          <$> map_entries (invocation_counts_ m))
    ++ ["# HELP faas_invocation_duration_ms Invocation duration in milliseconds.";
        "# TYPE faas_invocation_duration_ms histogram"]
    ++ mjoin histograms
    ++ ["# HELP faas_runtimes_created_total Total runtimes created (cold starts).";
        "# TYPE faas_runtimes_created_total counter";
        "faas_runtimes_created_total " +:+ to_string (runtimes_created_ m);
        "# HELP faas_runtimes_terminated_total Total runtimes stopped, by reason.";
        "# TYPE faas_runtimes_terminated_total counter"]
    ++ ((λ '(reason, n), terminated_sample reason n) <$> map_entries (runtimes_terminated_ m))).

Definition unlines (ls : list string) : string := foldr (λ l acc, line l +:+ acc) "" ls.

Definition render (active_runtimes : Z) (m : Metrics) : outcome string :=
  unlines <$> render_lines active_runtimes m.

(** ** The history the series count *)

Inductive metric_event : Type :=
  | Invoked (status : string) (cold_start : bool) (duration_ms : Z)
  | RuntimeCreated
  | RuntimeTerminated (reason : string).

#[export] Instance metric_event_eq_dec : EqDecision metric_event.
Proof. solve_decision. Defined.

Definition apply_event (m : Metrics) (ev : metric_event) : Metrics :=
  match ev with
  | Invoked status cold_start d => record_invocation status cold_start d m
  | RuntimeCreated => record_runtime_created m
  | RuntimeTerminated reason => record_runtime_terminated reason m
  end.
Definition replay (evs : list metric_event) : Metrics := foldl apply_event new_metrics evs.

Definition tally (P : metric_event → Prop) `{∀ ev, Decision (P ev)} (evs : list metric_event) : Z :=
  Z.of_nat (length (filter P evs)).

Definition is_invoked (st : string) (cold : bool) (ev : metric_event) : Prop :=
  match ev with Invoked st' cold' _ => st' = st ∧ cold' = cold | _ => False end.
#[export] Instance is_invoked_dec st cold ev : Decision (is_invoked st cold ev).
Proof. destruct ev; simpl; apply _. Defined.

Definition duration_of (cold : bool) (ev : metric_event) : option Z :=
  match ev with
  | Invoked _ cold' d => if decide (cold' = cold) then Some d else None
  | _ => None
  end.
Definition durations (cold : bool) (evs : list metric_event) : list Z := omap (duration_of cold) evs.
Definition at_most (b : Z) (ds : list Z) : Z := Z.of_nat (length (filter (λ d, d ≤ b) ds)).

(** What the histogram of a list of durations should hold. *)
Definition histogram_of (ds : list Z) : Histogram := {|
  bucket_counts := (λ b, at_most b ds) <$> kBucketsMs;
  count := Z.of_nat (length ds);
  sum_ms := foldl double_add 0 ds;
|}.

Lemma replay_snoc evs ev : replay (evs ++ [ev]) = apply_event (replay evs) ev.
Proof. unfold replay. by rewrite foldl_app. Qed.

Lemma tally_snoc P `{∀ ev, Decision (P ev)} evs ev :
  tally P (evs ++ [ev]) = tally P evs + (if decide (P ev) then 1 else 0).
Proof.
  unfold tally. rewrite filter_app, length_app, filter_cons. case_decide; simpl; lia.
Qed.

Lemma at_most_snoc b ds d : at_most b (ds ++ [d]) = at_most b ds + (if decide (d ≤ b) then 1 else 0).
Proof.
  unfold at_most. rewrite filter_app, length_app, filter_cons. case_decide; simpl; lia.
Qed.

Lemma increment_lookup {K} `{Countable K} (k k' : K) (m : gmap K Z) :
  default 0 (increment k m !! k') = default 0 (m !! k') + (if decide (k = k') then 1 else 0).
Proof.
  unfold increment. destruct (decide (k = k')) as [->|Hne].
  - by rewrite lookup_insert_eq.
  - rewrite lookup_insert_ne by done. lia.
Qed.

(** The sum of a series over all its labels. *)
Definition total {K} `{Countable K} (m : gmap K Z) : Z := map_fold (λ _ n acc, n + acc) 0 m.

Lemma total_insert {K} `{Countable K} (k : K) n (m : gmap K Z) :
  m !! k = None → total (<[k := n]> m) = n + total m.
Proof. intros Hk. apply map_fold_insert_L; [|done]. intros. lia. Qed.

Lemma total_increment {K} `{Countable K} (k : K) (m : gmap K Z) :
  total (increment k m) = total m + 1.
Proof.
  unfold increment. destruct (m !! k) as [n|] eqn:Hk; simpl.
  - rewrite <-(insert_id m k n Hk) at 2. rewrite <-(insert_delete_eq m k n).
    rewrite <-(insert_delete_eq m k (n + 1)).
    rewrite !total_insert by apply lookup_delete_eq. lia.
  - rewrite total_insert by done. lia.
Qed.

(** ** Histograms *)

Lemma bump_buckets_spec pre bounds d counts :
  length counts = length bounds →
  bump_buckets (length pre) bounds d (pre ++ counts)
  = pre ++ zip_with (λ b n, n + (if decide (d ≤ b) then 1 else 0)) bounds counts.
Proof.
  revert pre counts. induction bounds as [|b bounds IH]; intros pre [|n counts] Hlen;
    simplify_eq/=; [done|].
  set (n' := n + (if decide (d ≤ b) then 1 else 0)).
  replace (if decide (d ≤ b) then alter (Z.add 1) (length pre) (pre ++ n :: counts)
           else pre ++ n :: counts) with ((pre ++ [n']) ++ counts).
  - replace (S (length pre)) with (length (pre ++ [n'])) by (rewrite length_app; simpl; lia).
    rewrite IH by done. by rewrite <-app_assoc.
  - rewrite <-app_assoc. unfold n'. simpl. case_decide.
    + rewrite list.alter_app_r_alt, Nat.sub_diag by done. simpl. do 2 f_equal. lia.
    + do 2 f_equal. lia.
Qed.

Lemma bump_histogram ds d :
  bump_buckets 0 kBucketsMs d ((λ b, at_most b ds) <$> kBucketsMs)
  = (λ b, at_most b (ds ++ [d])) <$> kBucketsMs.
Proof.
  etrans; [by apply (bump_buckets_spec [] kBucketsMs)|].
  unfold kBucketsMs. simpl. by rewrite !at_most_snoc.
Qed.

Lemma observe_histogram_of ds d :
  observe d (if decide (ds = []) then new_histogram else histogram_of ds)
  = histogram_of (ds ++ [d]).
Proof.
  assert (histogram_of (ds ++ [d]) = {|
    bucket_counts := bump_buckets 0 kBucketsMs d ((λ b, at_most b ds) <$> kBucketsMs);
    count := Z.of_nat (length ds) + 1;
    sum_ms := double_add (foldl double_add 0 ds) d |}) as ->.
  { unfold histogram_of. rewrite bump_histogram, length_app, foldl_app. f_equal. simpl. lia. }
  by destruct (decide (ds = [])) as [->|Hne].
Qed.

Lemma durations_snoc cold evs ev :
  durations cold (evs ++ [ev]) = durations cold evs ++ option_list (duration_of cold ev).
Proof. unfold durations. rewrite omap_app. simpl. by destruct (duration_of cold ev). Qed.

Lemma replay_histogram evs cold :
  duration_histograms_ (replay evs) !! cold =
  let ds := durations cold evs in if decide (ds = []) then None else Some (histogram_of ds).
Proof.
  induction evs as [|ev evs IH] using rev_ind; [done|].
  rewrite replay_snoc, durations_snoc. simpl in *.
  destruct ev as [st c d| |r]; simpl; rewrite ?app_nil_r; try exact IH.
  destruct (decide (c = cold)) as [->|Hne]; simpl.
  - rewrite lookup_insert_eq, IH.
    destruct (decide (_ ++ [d] = [])) as [[_ [=]]%app_eq_nil|_].
    rewrite <-observe_histogram_of. by case_decide.
  - by rewrite lookup_insert_ne, app_nil_r.
Qed.

Lemma replay_counters evs :
  (∀ st cold, default 0 (invocation_counts_ (replay evs) !! (st, cold))
              = tally (is_invoked st cold) evs) ∧
  runtimes_created_ (replay evs) = tally (eq RuntimeCreated) evs ∧
  (∀ reason, default 0 (runtimes_terminated_ (replay evs) !! reason)
             = tally (eq (RuntimeTerminated reason)) evs).
Proof.
  induction evs as [|ev evs (IHi & IHc & IHt)] using rev_ind; [done|].
  rewrite replay_snoc. setoid_rewrite tally_snoc.
  destruct ev as [s c d| |r]; simpl; split_and!; intros;
    rewrite ?increment_lookup, ?IHi, ?IHc, ?IHt; repeat case_decide; naive_solver lia.
Qed.

Lemma at_most_mono b b' ds : b ≤ b' → at_most b ds ≤ at_most b' ds.
Proof.
  intros Hb. unfold at_most. induction ds as [|d ds IH]; [done|].
  rewrite !filter_cons. repeat case_decide; simpl; lia.
Qed.
Lemma at_most_bound b ds : 0 ≤ at_most b ds ≤ Z.of_nat (length ds).
Proof.
  unfold at_most. pose proof (length_filter (λ d, d ≤ b) ds). lia.
Qed.

(** ** Rendering *)

Definition histogram_text (cold : bool) (h : Histogram) : list string :=
  ((λ '(b, n), bucket_sample cold (os_double b) n) <$> zip kBucketsMs (bucket_counts h))
  ++ [bucket_sample cold "+Inf" (count h); sum_sample cold (sum_ms h);
      count_sample cold (count h)].

Lemma histogram_lines_text cold h :
  length (bucket_counts h) = length kBucketsMs →
  histogram_lines cold h = Ok (histogram_text cold h).
Proof.
  destruct h as [l c s]. intros Hlen. unfold kBucketsMs in Hlen. simpl in Hlen.
  do 12 (destruct l as [|? l]; [done|]). by destruct l.
Qed.

Lemma replay_histogram_Some evs cold h :
  duration_histograms_ (replay evs) !! cold = Some h →
  durations cold evs ≠ [] ∧ h = histogram_of (durations cold evs).
Proof. rewrite replay_histogram. simpl. case_decide; naive_solver. Qed.

(** The rendering of a history, with every histogram read in range. *)
Definition exposition (active : Z) (m : Metrics) : list string :=
  ["# HELP faas_active_runtimes Number of runtimes currently active.";
   "# TYPE faas_active_runtimes gauge";
   "faas_active_runtimes " +:+ to_string active;
   "# HELP faas_invocations_total Total invocations by outcome and cold/warm.";
   "# TYPE faas_invocations_total counter"]
  ++ ((λ '((status, cold_start), n), invocation_sample status cold_start n)
        <$> map_entries (invocation_counts_ m))
  ++ ["# HELP faas_invocation_duration_ms Invocation duration in milliseconds.";
      "# TYPE faas_invocation_duration_ms histogram"]
  ++ mjoin ((λ '(cold, h), histogram_text cold h) <$> map_entries (duration_histograms_ m))
  ++ ["# HELP faas_runtimes_created_total Total runtimes created (cold starts).";
      "# TYPE faas_runtimes_created_total counter";
      "faas_runtimes_created_total " +:+ to_string (runtimes_created_ m);
      "# HELP faas_runtimes_terminated_total Total runtimes stopped, by reason.";
      "# TYPE faas_runtimes_terminated_total counter"]
  ++ ((λ '(reason, n), terminated_sample reason n) <$> map_entries (runtimes_terminated_ m)).

Lemma render_lines_replay active evs :
  render_lines active (replay evs) = Ok (exposition active (replay evs)).
Proof.
  unfold render_lines. rewrite (mapM_Ok _ (λ '(cold, h), histogram_text cold h)); [done|].
  intros [cold h] Hin%elem_of_map_entries.
  apply replay_histogram_Some in Hin as [_ ->].
  by apply histogram_lines_text.
Qed.

Lemma replay_invoked_present evs st cold d :
  Invoked st cold d ∈ evs →
  invocation_counts_ (replay evs) !! (st, cold) = Some (tally (is_invoked st cold) evs).
Proof.
  intros Hin. destruct (replay_counters evs) as (Hi & _ & _). rewrite <-Hi.
  assert (0 < tally (is_invoked st cold) evs) as Hpos.
  { unfold tally. assert (Invoked st cold d ∈ filter (is_invoked st cold) evs) as Hf.
    { by apply list_elem_of_filter. }
    destruct (filter _ evs); [by apply elem_of_nil in Hf|]. simpl. lia. }
  rewrite <-Hi in Hpos. by destruct (invocation_counts_ (replay evs) !! _).
Qed.

Lemma replay_terminated_present evs reason :
  RuntimeTerminated reason ∈ evs →
  runtimes_terminated_ (replay evs) !! reason = Some (tally (eq (RuntimeTerminated reason)) evs).
Proof.
  intros Hin. destruct (replay_counters evs) as (_ & _ & Ht). rewrite <-Ht.
  assert (0 < tally (eq (RuntimeTerminated reason)) evs) as Hpos.
  { unfold tally. assert (RuntimeTerminated reason ∈ filter (eq (RuntimeTerminated reason)) evs)
      as Hf by (by apply list_elem_of_filter).
    destruct (filter _ evs); [by apply elem_of_nil in Hf|]. simpl. lia. }
  rewrite <-Ht in Hpos. by destruct (runtimes_terminated_ (replay evs) !! _).
Qed.

(** ** Properties *)

(** C38: Whatever was recorded and in whatever order, every series is the count its
    name promises: invocations by (status, cold_start), histogram buckets, count
    and sum by cold_start, runtimes created, and terminations by reason. *)
Theorem metrics_count_history (evs : list metric_event) :
  (∀ st cold, default 0 (invocation_counts_ (replay evs) !! (st, cold))
              = tally (is_invoked st cold) evs) ∧
  (∀ cold, duration_histograms_ (replay evs) !! cold
           = let ds := durations cold evs in
             if decide (ds = []) then None else Some (histogram_of ds)) ∧
  runtimes_created_ (replay evs) = tally (eq RuntimeCreated) evs ∧
  (∀ reason, default 0 (runtimes_terminated_ (replay evs) !! reason)
             = tally (eq (RuntimeTerminated reason)) evs).
Proof.
  destruct (replay_counters evs) as (Hi & Hc & Ht). split_and!; [done| |done..].
  apply replay_histogram.
Qed.

(** In every reachable registry a histogram has one count per bound, in range for
    both the recording and the rendering loop; the counts are cumulative and
    never exceed the histogram's total. *)
Theorem histogram_buckets_cumulative (evs : list metric_event) (cold : bool) :
  match duration_histograms_ (replay evs) !! cold with
  | None => durations cold evs = []
  | Some h =>
      length (bucket_counts h) = length kBucketsMs ∧
      Sorted Z.le (bucket_counts h) ∧
      Forall (λ n, 0 ≤ n ≤ count h) (bucket_counts h) ∧ 0 < count h
  end.
Proof.
  rewrite replay_histogram. simpl. set (ds := durations cold evs).
  destruct (decide (ds = [])) as [|Hne]; [done|].
  unfold histogram_of. simpl. split_and!; [done| | |].
  - repeat constructor; apply at_most_mono; lia.
  - repeat constructor; apply at_most_bound.
  - destruct ds; simpl; [done|lia].
Qed.

(** Rendering any reachable registry is defined, and the text holds a sample for
    every status, histogram and reason that occurred, each with the exact count. *)
Theorem scrape_reports_history (active : Z) (evs : list metric_event) :
  ∃ ls,
    render active (replay evs) = Ok (unlines ls) ∧
    "faas_active_runtimes " +:+ to_string active ∈ ls ∧
    "faas_runtimes_created_total " +:+ to_string (tally (eq RuntimeCreated) evs) ∈ ls ∧
    (∀ st cold d, Invoked st cold d ∈ evs →
       invocation_sample st cold (tally (is_invoked st cold) evs) ∈ ls ∧
       bucket_sample cold "+Inf" (Z.of_nat (length (durations cold evs))) ∈ ls ∧
       ∀ b, b ∈ kBucketsMs →
         bucket_sample cold (os_double b) (at_most b (durations cold evs)) ∈ ls) ∧
    (∀ reason, RuntimeTerminated reason ∈ evs →
       terminated_sample reason (tally (eq (RuntimeTerminated reason)) evs) ∈ ls).
Proof.
  exists (exposition active (replay evs)).
  unfold render. rewrite render_lines_replay.
  destruct (replay_counters evs) as (_ & <- & _). unfold exposition.
  setoid_rewrite elem_of_app. setoid_rewrite elem_of_app. setoid_rewrite elem_of_app.
  setoid_rewrite elem_of_app. setoid_rewrite elem_of_app.
  split_and!; [done|left; set_solver|do 4 right; left; set_solver| |].
  - intros st cold d Hin. split.
    { right; left. apply list_elem_of_fmap.
      exists ((st, cold), tally (is_invoked st cold) evs).
      by rewrite elem_of_map_entries, (replay_invoked_present _ _ _ d). }
    assert (∀ l, l ∈ histogram_text cold (histogram_of (durations cold evs)) →
            l ∈ mjoin ((λ '(cold, h), histogram_text cold h)
                          <$> map_entries (duration_histograms_ (replay evs)))) as Hconcat.
    { intros l Hl. apply list_elem_of_join. eexists. split; [exact Hl|].
      apply list_elem_of_fmap. exists (cold, histogram_of (durations cold evs)).
      split; [done|]. rewrite elem_of_map_entries, replay_histogram. simpl.
      rewrite decide_False; [done|]. intros Hnil.
      apply (not_elem_of_nil d). rewrite <-Hnil. apply list_elem_of_omap.
      eexists. split; [done|]. simpl. by rewrite decide_True. }
    split; [do 3 right; left; apply Hconcat; set_solver|].
    intros b Hb. do 3 right; left. apply Hconcat. unfold histogram_text.
    apply elem_of_app. left. apply list_elem_of_fmap.
    exists (b, at_most b (durations cold evs)). split; [done|].
    unfold histogram_of, bucket_counts.
    apply list_elem_of_lookup in Hb as [i Hi]. apply list_elem_of_lookup. exists i.
    by rewrite lookup_zip_with, list_lookup_fmap, Hi.
  - intros reason Hin. do 5 right. apply list_elem_of_fmap.
    exists (reason, tally (eq (RuntimeTerminated reason)) evs).
    by rewrite elem_of_map_entries, replay_terminated_present.
Qed.

(** The [_sum] sample is exact below one million milliseconds, and only there: from
    then on six significant digits are printed, so different totals render alike. *)
Theorem sum_sample_precision (cold : bool) :
  (∀ sum, 0 ≤ sum < 1000000 →
     sum_sample cold sum = "faas_invocation_duration_ms_sum{cold_start="
                             +:+ quoted (bool_str cold) +:+ "} " +:+ to_string sum) ∧
  sum_sample cold 1234567 = sum_sample cold 1234574.
Proof.
  split; [|by destruct cold; vm_compute].
  intros sum Hs. unfold sum_sample, os_double, os_double_abs.
  by rewrite decide_False, decide_True by lia.
Qed.
