(* ===== verification/Http.v ===== *)
(** * HTTP/1.1 text shared by the client and the server of [common/]

    Header-line parsing and the lemmas on header blocks: where the blank line
    that ends a block is found, and which lines [std::getline] yields. *)

From S2P Require Import Prelude CppStd StringFacts.

Definition CRLF : string := String CR (String LF "").
Definition CRLFCRLF : string := CRLF +:+ CRLF.

(** [if (!line.empty() && line.back() == '\r') line.pop_back();] *)
Definition strip_cr (line : string) : string :=
  if decide (last_char line = Some CR) then pop_back line else line.

(** One header line: the text before the first colon and the text after it
    without leading blanks; a line without a colon is skipped. *)
Definition parse_header (header_line : string) : option (string * string) :=
  match find_char ":" header_line with
  | None => None
  | Some colon => Some (take colon header_line, drop_blanks (drop (colon + 1) header_line))
  end.

(** The loop over the remaining lines: [headers[key] = value], last one wins. *)
Definition add_header (headers : gmap string string) (line : string) : gmap string string :=
  match parse_header (strip_cr line) with
  | None => headers
  | Some (key, value) => <[key := value]> headers
  end.
Definition parse_headers (lines : list string) : gmap string string :=
  foldl add_header ∅ lines.

(** ** Header blocks *)

Fixpoint crlf_join (ls : list string) : string :=
  match ls with
  | [] => ""
  | [l] => l
  | l :: ls => l +:+ CRLF +:+ crlf_join ls
  end.

Definition plain (s : string) : Prop := lacks CR s = true ∧ lacks LF s = true.
Definition header_line_ok (l : string) : Prop := plain l ∧ l ≠ "".

Lemma crlf_join_cons l l' ls : crlf_join (l :: l' :: ls) = l +:+ CRLF +:+ crlf_join (l' :: ls).
Proof. done. Qed.

Lemma find_end_skip l s :
  lacks CR l = true →
  find_str CRLFCRLF (l +:+ s) = Nat.add (String.length l) <$> find_str CRLFCRLF s.
Proof.
  induction l as [|a l IH]; intros Hl.
  - rewrite app_empty_l. by destruct (find_str CRLFCRLF s).
  - apply lacks_cons in Hl as [Ha Hl]. rewrite app_cons, find_str_miss, IH by
      (done || by unfold CRLFCRLF, CRLF; rewrite !app_cons, prefix_cons, decide_False).
    by destruct (find_str CRLFCRLF s).
Qed.

Lemma find_end_line c s :
  c ≠ CR →
  find_str CRLFCRLF (CRLF +:+ String c s) = Nat.add 2 <$> find_str CRLFCRLF (String c s).
Proof.
  intros Hc. change (CRLF +:+ String c s) with (String CR (String LF (String c s))).
  rewrite (find_str_miss _ CR), (find_str_miss _ LF) by
    (unfold CRLFCRLF, CRLF; rewrite !app_cons, !app_empty_l, !prefix_cons;
     repeat case_decide; first [done|congruence]).
  by destruct (find_str CRLFCRLF (String c s)).
Qed.

(** The end of a header block is the blank line after its last line. *)
Lemma find_end_block ls body :
  Forall header_line_ok ls → ls ≠ [] →
  find_str CRLFCRLF (crlf_join ls +:+ CRLFCRLF +:+ body)
  = Some (String.length (crlf_join ls)).
Proof.
  induction 1 as [|l ls [[HCR HLF] Hne] Hls IH]; [done|]. intros _.
  destruct ls as [|l' ls].
  - simpl. rewrite find_end_skip by done.
    rewrite find_str_hit by apply prefix_app. simpl. f_equal. lia.
  - rewrite crlf_join_cons, !app_assoc_str, find_end_skip by done.
    inversion Hls as [|? ? [[HCR' HLF'] Hne'] Hls']; subst.
    assert (∃ c t, crlf_join (l' :: ls) +:+ CRLFCRLF +:+ body = String c t ∧ c ≠ CR)
      as (c & t & Ht & Hc).
    { destruct l' as [|c l']; [done|]. apply lacks_cons in HCR' as [Hc _].
      exists c. destruct ls; [|rewrite crlf_join_cons]; eexists; simpl;
        rewrite ?app_assoc_str, app_cons; done. }
    rewrite Ht, find_end_line by done. rewrite <-Ht, IH by done. simpl.
    rewrite !length_app_str. done.
Qed.

Lemma strip_cr_snoc l : strip_cr (l +:+ String CR "") = l.
Proof. unfold strip_cr. by rewrite last_char_snoc, decide_True, pop_back_snoc. Qed.
Lemma strip_cr_plain l : lacks CR l = true → strip_cr l = l.
Proof.
  intros Hl. unfold strip_cr. rewrite decide_False; [done|]. revert Hl.
  induction l as [|a l IH]; [done|]. rewrite lacks_cons. intros [Ha Hl].
  destruct l as [|b l]; [simpl; congruence|]. exact (IH Hl).
Qed.

(** [getline] over a block yields its lines, all but the last with their CR. *)
Lemma getlines_block ls :
  Forall header_line_ok ls → strip_cr <$> getlines (crlf_join ls) = ls.
Proof.
  induction 1 as [|l ls [[HCR HLF] Hne] Hls IH]; [done|].
  destruct ls as [|l' ls].
  - simpl. rewrite getlines_last by done. simpl. by rewrite strip_cr_plain.
  - rewrite crlf_join_cons.
    replace (l +:+ CRLF +:+ crlf_join (l' :: ls))
      with ((l +:+ String CR "") +:+ String LF (crlf_join (l' :: ls)))
      by (by rewrite app_assoc_str).
    rewrite getlines_line by (by apply lacks_app).
    rewrite fmap_cons, IH. by rewrite strip_cr_snoc.
Qed.

(** ** Header fields *)

Definition field_line (f : string * string) : string := f.1 +:+ ": " +:+ f.2.
Definition value_ok (v : string) : Prop :=
  plain v ∧ match v with String c _ => c ≠ " "%char | "" => True end.
Definition field_ok (f : string * string) : Prop :=
  plain f.1 ∧ lacks ":" f.1 = true ∧ value_ok f.2.

Lemma field_line_ok f : field_ok f → header_line_ok (field_line f).
Proof.
  destruct f as [k v]. intros ((Hk1 & Hk2) & _ & (Hv1 & Hv2) & _).
  unfold field_line, header_line_ok, plain. simpl in *. rewrite !lacks_app.
  split_and!; try done. by destruct k.
Qed.

Lemma parse_header_field f : field_ok f → parse_header (field_line f) = Some f.
Proof.
  destruct f as [k v]. intros (_ & Hk & _ & Hv). unfold parse_header, field_line. simpl in *.
  change (": " +:+ v) with (String ":" (" " +:+ v)).
  rewrite find_char_app, take_length_app, Nat.add_1_r, drop_S_app by done.
  change (" " +:+ v) with (String " " v). simpl. by destruct v as [|c v]; simpl; rewrite ?decide_False.
Qed.

Lemma parse_headers_snoc ls l : parse_headers (ls ++ [l]) = add_header (parse_headers ls) l.
Proof. unfold parse_headers. by rewrite foldl_app. Qed.

Lemma parse_headers_fields lines fs :
  strip_cr <$> lines = field_line <$> fs → Forall field_ok fs →
  parse_headers lines = foldl (λ m f, <[f.1 := f.2]> m) ∅ fs.
Proof.
  unfold parse_headers. generalize (∅ : gmap string string) as m.
  revert fs. induction lines as [|l lines IH]; intros [|f fs] m Heq Hfs; try done.
  apply Forall_cons in Hfs as [Hf Hfs].
  injection Heq as Hl Heq. simpl. unfold add_header at 2. rewrite Hl, parse_header_field by done.
  destruct f as [k v]. by apply IH.
Qed.
