(* ===== verification/HttpClient.v ===== *)
(** * The HTTP client ([common/src/http_client.cpp])

    [Client::request] over the socket calls of the operating system: the request
    text, the receive loop and its timeout, and the parsing of the reply. *)

From S2P Require Import Prelude CppStd StringFacts Http.

(** ** The operating system's side *)

(** Why a receive loop ended: the peer closed, [EAGAIN]/[EWOULDBLOCK] after the
    socket timeout, or another error. *)
Inductive recv_end : Type := RecvClosed | RecvTimedOut | RecvError.

(** The socket API on file descriptors. [so_recv_all] is what the successive
    [recv] calls of one loop deliver: the blocks read and how the loop ended (a
    peer that never stops sending has no such value). *)
Class Sockets (E : Type) : Type := {
  so_addr : Type;
  so_socket : St E Z;
  so_set_timeouts : Z → Z → Z → St E unit;        (* fd, tv_sec, tv_usec *)
  so_inet_pton : string → option so_addr;
  so_gethostbyname : string → St E (option so_addr);
  so_connect : Z → so_addr → Z → St E bool;       (* fd, address, port *)
  so_send : Z → string → St E bool;
  so_recv_all : Z → St E (list string * recv_end);
  so_close : Z → St E unit;
}.

Record ClientResponse : Type := {
  cr_status : Z;
  cr_headers : gmap string string;
  cr_body : string;
  cr_ok : bool;
  cr_timed_out : bool;
  cr_error : string;
}.

Definition client_failure (error : string) : ClientResponse := {|
  cr_status := 0; cr_headers := ∅; cr_body := ""; cr_ok := false; cr_timed_out := false;
  cr_error := error |}.
Definition client_timeout (error : string) : ClientResponse := {|
  cr_status := 0; cr_headers := ∅; cr_body := ""; cr_ok := false; cr_timed_out := true;
  cr_error := error |}.

Record Client : Type := { host_ : string; port_ : Z }.

(** ** Text *)

Definition request_text (method path host body content_type : string) : string :=
  method +:+ " " +:+ path +:+ " HTTP/1.1" +:+ CRLF +:+
  "Host: " +:+ host +:+ CRLF +:+
  "Connection: close" +:+ CRLF +:+
  (if decide (body = "") then ""
   else "Content-Type: " +:+ content_type +:+ CRLF +:+
        "Content-Length: " +:+ to_string (Z.of_nat (String.length body)) +:+ CRLF) +:+
  CRLF +:+ body.

Definition parse_response (data : string) : ClientResponse :=
  if decide (data = "") then client_failure "empty response from server" else
  match find_str CRLFCRLF data with
  | None => client_failure "malformed response"
  | Some header_end =>
      let lines := getlines (take header_end data) in
      let status_line := default "" (head lines) in
      let '(version, rest) := read_word status_line in
      {| cr_status := read_int rest;
         cr_headers := parse_headers (tail lines);
         cr_body := drop (header_end + 4) data;
         cr_ok := true; cr_timed_out := false; cr_error := "" |}
  end.

(** ** The call *)

Section client.
  Context {E : Type} `{Sockets E}.

Definition resolve (host : string) : St E (option so_addr) :=
  match so_inet_pton host with
  | Some addr => mret (Some addr)
  | None => so_gethostbyname host
  end.

Definition request (c : Client) (method path body content_type : string) (timeout_ms : Z) :
    St E ClientResponse :=
  sock ← so_socket;
  if decide (sock < 0) then mret (client_failure "failed to create socket") else
  _ ← (if decide (timeout_ms > 0)
       then so_set_timeouts sock (Z.quot timeout_ms 1000) (Z.rem timeout_ms 1000 * 1000)
       else mret tt);
  resolved ← resolve (host_ c);
  match resolved with
  | None =>
      _ ← so_close sock;
      mret (client_failure ("could not resolve host: " +:+ host_ c))
  | Some addr =>
      connected ← so_connect sock addr (to_uint16 (port_ c));
      if negb connected then
        _ ← so_close sock;
        mret (client_failure ("connection refused at " +:+ host_ c +:+ ":"
                              +:+ to_string (port_ c)))
      else
      sent ← so_send sock (request_text method path (host_ c) body content_type);
      if negb sent then
        _ ← so_close sock;
        mret (client_failure "failed to send request")
      else
      received ← so_recv_all sock;
      _ ← so_close sock;
      match received with
      | (_, RecvTimedOut) =>
          mret (client_timeout ("request timed out after " +:+ to_string timeout_ms +:+ "ms"))
      | (blocks, _) => mret (parse_response (foldl String.append "" blocks))
      end
  end.

Definition get (c : Client) (path : string) (timeout_ms : Z) : St E ClientResponse :=
  request c "GET" path "" "" timeout_ms.
Definition post (c : Client) (path body content_type : string) (timeout_ms : Z) :
    St E ClientResponse :=
  request c "POST" path body content_type timeout_ms.
Definition del (c : Client) (path : string) (timeout_ms : Z) : St E ClientResponse :=
  request c "DELETE" path "" "" timeout_ms.
End client.

(** ** Descriptors

    The descriptors a process holds, as the socket calls change them. *)
Class OpenFds (E : Type) : Type := open_fds : E → gset Z.

Class SocketsSpec (E : Type) `{Sockets E, OpenFds E} : Prop := {
  socket_spec e : let '(fd, e') := so_socket e in
    if decide (fd < 0) then open_fds e' = open_fds e
    else fd ∉ open_fds e ∧ open_fds e' = {[fd]} ∪ open_fds e;
  close_spec fd e : open_fds (so_close fd e).2 = open_fds e ∖ {[fd]};
  set_timeouts_spec fd s us e : open_fds (so_set_timeouts fd s us e).2 = open_fds e;
  gethostbyname_spec h e : open_fds (so_gethostbyname h e).2 = open_fds e;
  connect_spec fd a p e : open_fds (so_connect fd a p e).2 = open_fds e;
  send_spec fd s e : open_fds (so_send fd s e).2 = open_fds e;
  recv_all_spec fd e : open_fds (so_recv_all fd e).2 = open_fds e;
}.

Section descriptors.
  Context {E : Type} `{SocketsSpec E}.

Definition keeps_fds {A} (m : St E A) : Prop := ∀ e, open_fds (m e).2 = open_fds e.

Lemma resolve_keeps_fds h : keeps_fds (resolve h).
Proof.
  intros e. unfold resolve. destruct (so_inet_pton h); [done|]. apply gethostbyname_spec.
Qed.

(** The rest of a call after the socket was opened closes exactly it. *)
Definition closes {A} (fd : Z) (m : St E A) : Prop :=
  ∀ e, open_fds (m e).2 = open_fds e ∖ {[fd]}.

Lemma closes_keep_bind {A B} fd (m : St E A) (f : A → St E B) :
  keeps_fds m → (∀ a, closes fd (f a)) → closes fd (m ≫= f).
Proof. intros Hm Hf e. by rewrite st_bind_run, Hf, Hm. Qed.
Lemma closes_close {A} fd (a : A) : closes fd (_ ← so_close fd; mret a).
Proof. intros e. rewrite st_bind_run. apply close_spec. Qed.
Lemma closes_close_bind {A} fd (m : St E A) : keeps_fds m → closes fd (_ ← so_close fd; m).
Proof. intros Hm e. rewrite st_bind_run, Hm. apply close_spec. Qed.
End descriptors.

(** Every path of a request that opened a socket closes it again - whatever fails
    on the way - and touches no other descriptor. *)
Theorem request_releases_socket E `(SocketsSpec E) (c : Client)
    (method path body content_type : string) (timeout_ms : Z) (e : E) :
  open_fds (request c method path body content_type timeout_ms e).2 = open_fds e.
Proof.
  unfold request. rewrite st_bind_run. pose proof (socket_spec e) as Hs.
  destruct (so_socket e) as [fd e']. simpl. case_decide; [done|].
  destruct Hs as [Hfresh He'].
  match goal with |- open_fds (?m e').2 = _ => assert (closes fd m) as Hc end.
  { apply closes_keep_bind.
    { intros e2. case_decide; [apply set_timeouts_spec|done]. }
    intros _. apply closes_keep_bind; [apply resolve_keeps_fds|].
    intros [addr|]; [|apply closes_close].
    apply closes_keep_bind; [intros e2; apply connect_spec|].
    intros []; simpl; [|apply closes_close].
    apply closes_keep_bind; [intros e2; apply send_spec|].
    intros []; simpl; [|apply closes_close].
    apply closes_keep_bind; [intros e2; apply recv_all_spec|].
    intros [bs r]. apply closes_close_bind. intros e2. by destruct r. }
  rewrite Hc, He'. set_solver.
Qed.

(** A reply counts as complete ([ok]) as soon as its header block was read: the
    body is whatever had arrived when the connection ended, the [Content-Length]
    the peer announced notwithstanding. *)
Theorem truncated_reply_is_ok (headers body rest : string) :
  lacks CR headers = true → headers ≠ "" →
  cr_ok (parse_response (headers +:+ CRLFCRLF +:+ body)) = true ∧
  cr_body (parse_response (headers +:+ CRLFCRLF +:+ body)) = body ∧
  cr_status (parse_response (headers +:+ CRLFCRLF +:+ body))
  = cr_status (parse_response (headers +:+ CRLFCRLF +:+ body +:+ rest)).
Proof.
  intros Hcr Hne.
  assert (∀ b, find_str CRLFCRLF (headers +:+ CRLFCRLF +:+ b) = Some (String.length headers))
    as Hf.
  { intros b. rewrite find_end_skip, find_str_hit by (done || apply prefix_app).
    simpl. f_equal. lia. }
  assert (∀ b, headers +:+ CRLFCRLF +:+ b ≠ "") as Hnil by (by intros b; destruct headers).
  unfold parse_response. rewrite !decide_False, !Hf by apply Hnil.
  rewrite !take_length_app.
  destruct (read_word _) as [v r]. simpl. split_and!; try done.
  clear -headers. induction headers as [|c s IH]; [done|]. by rewrite app_cons.
Qed.

Lemma truncated_reply_is_ok_witness :
  cr_body (parse_response ("HTTP/1.1 200 OK" +:+ CRLFCRLF +:+ "hel")) = "hel" ∧
  cr_ok (parse_response ("HTTP/1.1 200 OK" +:+ CRLFCRLF +:+ "hel")) = true.
Proof.
  assert (lacks CR "HTTP/1.1 200 OK" = true) as Hcr by done.
  destruct (truncated_reply_is_ok "HTTP/1.1 200 OK" "hel" "lo" Hcr ltac:(done)) as (Hok & Hb & _).
  by rewrite Hok, Hb.
Defined.
