(* ===== verification/HttpServer.v ===== *)
(** * The HTTP server ([common/src/http_server.cpp])

    Path splitting, route matching, reading and parsing a request, dispatch to the
    routes and the reply text: [handle_connection] from the bytes a connection
    delivers to the bytes sent back. Handlers are computations over the server's
    state that may throw; an exception leaving [handle_connection] leaves its
    thread. *)

From S2P Require Import Prelude CppStd StringFacts Http.

Record Request : Type := {
  req_method : string;
  req_path : string;
  req_headers : gmap string string;
  req_body : string;
}.

Record Response : Type := {
  resp_status : Z;
  resp_headers : gmap string string;
  resp_body : string;
}.

Definition response_json (status : Z) (body : string) : Response :=
  {| resp_status := status; resp_headers := {["Content-Type" := "application/json"]};
     resp_body := body |}.
Definition response_text (status : Z) (body : string) : Response :=
  {| resp_status := status; resp_headers := {["Content-Type" := "text/plain"]};
     resp_body := body |}.
Definition response_empty (status : Z) : Response :=
  {| resp_status := status; resp_headers := ∅; resp_body := "" |}.

(** ** Paths and routes *)

Fixpoint split_path_loop (path current : string) : list string :=
  match path with
  | "" => if decide (current = "") then [] else [current]
  | String c path =>
      if decide (c = "?"%char) then (if decide (current = "") then [] else [current])
      else if decide (c = "/"%char) then
        (if decide (current = "") then split_path_loop path ""
         else current :: split_path_loop path "")
      else split_path_loop path (current +:+ String c "")
  end.
Definition split_path (path : string) : list string := split_path_loop path "".

Definition reason_phrase (status : Z) : string :=
  if decide (status = 200) then "OK"
  else if decide (status = 201) then "Created"
  else if decide (status = 204) then "No Content"
  else if decide (status = 400) then "Bad Request"
  else if decide (status = 404) then "Not Found"
  else if decide (status = 405) then "Method Not Allowed"
  else if decide (status = 409) then "Conflict"
  else if decide (status = 500) then "Internal Server Error"
  else if decide (status = 501) then "Not Implemented"
  else "".

Definition is_capture (expected : string) : bool :=
  match expected with
  | String c _ => bool_decide (c = "{"%char) && bool_decide (last_char expected = Some "}"%char)
  | "" => false
  end.

(** [Server::match]: the captured parameters, or no match. *)
Fixpoint match_segments (pattern segments : list string) : option (list string) :=
  match pattern, segments with
  | [], [] => Some []
  | expected :: pattern, seg :: segments =>
      if is_capture expected then cons seg <$> match_segments pattern segments
      else if decide (expected = seg) then match_segments pattern segments else None
  | _, _ => None
  end.

Section server.
  Context {S : Type}.

Definition Handler : Type := Request → list string → St S (outcome Response).

Record Route : Type := { method : string; segments : list string; handler : Handler }.

Definition route (m pattern : string) (h : Handler) (routes_ : list Route) : list Route :=
  routes_ ++ [{| method := m; segments := split_path pattern; handler := h |}].

(** ** Reading a request *)

(** [read_headers]: [recv] blocks are appended until the blank line is seen; an
    empty block is a [recv] that returned 0 or an error. *)
Fixpoint read_headers (data : string) (incoming : list string) :
    option (string * string * list string) :=
  match find_str CRLFCRLF data with
  | Some pos => Some (take pos data, drop (pos + 4) data, incoming)
  | None =>
      match incoming with
      | [] => None
      | b :: incoming =>
          if decide (b = "") then None
          else if decide (Z.of_nat (String.length (data +:+ b)) > 2 ^ 20) then None
          else read_headers (data +:+ b) incoming
      end
  end.

Fixpoint read_body (body : string) (content_length : Z) (incoming : list string) : string :=
  match incoming with
  | [] => body
  | b :: incoming =>
      if decide (Z.of_nat (String.length body) < content_length ∧ b ≠ "")
      then read_body (body +:+ b) content_length incoming
      else body
  end.

(** [std::stoul] on a malformed [Content-Length] throws. *)
Definition content_length (headers : gmap string string) : outcome Z :=
  match headers !! "Content-Length" with
  | None => Ok 0
  | Some v => stoul v
  end.

Definition parse_request (incoming : list string) : outcome (option Request) :=
  match read_headers "" incoming with
  | None => Ok None
  | Some (header_block, leftover, incoming) =>
      let lines := getlines header_block in
      let request_line := strip_cr (default "" (head lines)) in
      let '(method, rest) := read_word request_line in
      let '(path, rest) := read_word rest in
      let headers := parse_headers (tail lines) in
      len ← content_length headers;
      let body := read_body leftover len incoming in
      mret (Some {| req_method := method; req_path := path; req_headers := headers;
                    req_body := take (Z.to_nat (Z.min (Z.of_nat (String.length body)) len)) body
                 |})
  end.

(** ** Dispatch *)

(** The route loop, with [path_matched_any_method]. *)
Fixpoint dispatch (routes_ : list Route) (req : Request) (segs : list string)
    (path_matched_any_method : bool) : St S (outcome Response) :=
  match routes_ with
  | [] =>
      mret (Ok (if path_matched_any_method
                then response_json 405 ("{" +:+ quoted "error" +:+ ":"
                                        +:+ quoted "method not allowed" +:+ "}")
                else response_json 404 ("{" +:+ quoted "error" +:+ ":"
                                        +:+ quoted "not found" +:+ "}")))
  | r :: routes_ =>
      match match_segments (segments r) segs with
      | None => dispatch routes_ req segs path_matched_any_method
      | Some params =>
          if decide (method r = req_method req) then handler r req params
          else dispatch routes_ req segs true
      end
  end.

Definition with_length_headers (resp : Response) : Response := {|
  resp_status := resp_status resp;
  resp_headers :=
    <["Connection" := "close"]>
      (<["Content-Length" := to_string (Z.of_nat (String.length (resp_body resp)))]>
         (resp_headers resp));
  resp_body := resp_body resp |}.

Definition response_text_of (resp : Response) : string :=
  "HTTP/1.1 " +:+ to_string (resp_status resp) +:+ " " +:+ reason_phrase (resp_status resp)
  +:+ CRLF +:+
  foldr (λ '(key, value) acc, key +:+ ": " +:+ value +:+ CRLF +:+ acc) ""
    (map_entries (resp_headers resp)) +:+
  CRLF +:+ resp_body resp.

(** The whole of [handle_connection]: [None] when the connection is closed
    without a reply, else the bytes sent. *)
Definition handle_connection (routes_ : list Route) (incoming : list string) :
    St S (outcome (option string)) :=
  match parse_request incoming with
  | Throw e => mret (Throw e)
  | Undefined u => mret (Undefined u)
  | Ok None => mret (Ok None)
  | Ok (Some req) =>
      resp ← dispatch routes_ req (split_path (req_path req)) false;
      mret ((λ resp, Some (response_text_of (with_length_headers resp))) <$> resp)
  end.
End server.
Arguments Handler : clear implicits.
Arguments Route : clear implicits.

(** ** Paths *)

Definition segment_ok (s : string) : Prop :=
  s ≠ "" ∧ lacks "/" s = true ∧ lacks "?" s = true.
Definition join_path (segs : list string) : string := foldr (λ s acc, "/" +:+ s +:+ acc) "" segs.

Lemma split_path_loop_segment s rest current :
  lacks "/" s = true → lacks "?" s = true →
  split_path_loop (s +:+ rest) current = split_path_loop rest (current +:+ s).
Proof.
  revert current. induction s as [|c s IH]; intros current Hs Hq; [by rewrite app_empty_r|].
  apply lacks_cons in Hs as [? ?], Hq as [? ?]. rewrite app_cons. simpl.
  rewrite !decide_False, IH by done. by rewrite app_assoc_str.
Qed.

Lemma split_path_loop_slash rest current :
  current ≠ "" → split_path_loop ("/" +:+ rest) current = current :: split_path_loop rest "".
Proof.
  intros Hc. change ("/" +:+ rest) with (String "/" rest). simpl.
  by rewrite decide_False.
Qed.
Lemma split_path_loop_query rest current :
  split_path_loop ("?" +:+ rest) current = if decide (current = "") then [] else [current].
Proof. done. Qed.

(** ** Reading in blocks *)

Definition bytes (incoming : list string) : string := foldr String.append "" incoming.

Lemma take_app_le n s t : (n ≤ String.length s)%nat → take n (s +:+ t) = take n s.
Proof.
  revert s. induction n as [|n IH]; intros s Hn; [done|].
  destruct s as [|c s]; simpl in Hn; [lia|]. rewrite app_cons. simpl. f_equal. apply IH. lia.
Qed.
Lemma drop_app_le n s t : (n ≤ String.length s)%nat → drop n (s +:+ t) = drop n s +:+ t.
Proof.
  revert s. induction n as [|n IH]; intros s Hn; [done|].
  destruct s as [|c s]; simpl in Hn; [lia|]. rewrite app_cons. simpl. apply IH. lia.
Qed.

Lemma read_headers_blocks data incoming pos :
  find_str CRLFCRLF (data +:+ bytes incoming) = Some pos →
  Z.of_nat (String.length (data +:+ bytes incoming)) ≤ 2 ^ 20 →
  Forall (λ b, b ≠ "") incoming →
  ∃ leftover rest,
    read_headers data incoming = Some (take pos (data +:+ bytes incoming), leftover, rest) ∧
    leftover +:+ bytes rest = drop (pos + 4) (data +:+ bytes incoming) ∧
    Forall (λ b, b ≠ "") rest.
Proof.
  revert data. induction incoming as [|b incoming IH]; intros data Hf Hlen Hne.
  - unfold bytes in *. simpl in *. rewrite app_empty_r in *. rewrite Hf.
    eexists _, _. split; [done|]. by rewrite app_empty_r.
  - cbn [read_headers]. destruct (find_str CRLFCRLF data) as [n|] eqn:En.
    + pose proof (find_str_app _ _ (bytes (b :: incoming)) _ En) as Hf'.
      rewrite Hf in Hf'. injection Hf' as ->.
      apply find_str_length in En. change (String.length CRLFCRLF) with 4%nat in En.
      eexists _, _. rewrite take_app_le, drop_app_le by lia. done.
    + apply Forall_cons in Hne as [Hb Hne]. rewrite decide_False by done.
      change (bytes (b :: incoming)) with (b +:+ bytes incoming) in *.
      rewrite <-app_assoc_str in *.
      rewrite decide_False by (rewrite length_app_str in Hlen; lia).
      by apply IH.
Qed.

Lemma read_body_blocks body len incoming :
  Forall (λ b, b ≠ "") incoming →
  Z.of_nat (String.length (body +:+ bytes incoming)) = len →
  read_body body len incoming = body +:+ bytes incoming.
Proof.
  revert body. induction incoming as [|b incoming IH]; intros body Hne Hlen.
  - unfold bytes. simpl. by rewrite app_empty_r.
  - apply Forall_cons in Hne as [Hb Hne].
    change (bytes (b :: incoming)) with (b +:+ bytes incoming) in *. simpl.
    rewrite decide_True.
    + rewrite IH; rewrite ?app_assoc_str; done.
    + split; [|done]. rewrite !length_app_str in Hlen.
      destruct b; [done|]. simpl in Hlen. lia.
Qed.

Lemma read_body_zero body incoming : read_body body 0 incoming = body.
Proof. destruct incoming as [|b bs]; [done|]. simpl. by rewrite decide_False by lia. Qed.

Lemma split_path_loop_join segs rest current tl :
  (∀ cur, split_path_loop rest cur = (if decide (cur = "") then [] else [cur]) ++ tl) →
  Forall segment_ok segs →
  split_path_loop (join_path segs +:+ rest) current
  = (if decide (current = "") then [] else [current]) ++ segs ++ tl.
Proof.
  intros Hrest Hsegs. revert current.
  induction Hsegs as [|s segs (Hne & Hs & Hq) _ IH]; intros current; [apply Hrest|].
  change (join_path (s :: segs)) with ("/" +:+ s +:+ join_path segs).
  rewrite !app_assoc_str. case_decide as Hcur.
  - subst. change ("/" +:+ s +:+ join_path segs +:+ rest)
      with (String "/" (s +:+ join_path segs +:+ rest)). simpl.
    rewrite split_path_loop_segment, app_empty_l, IH by done. by rewrite decide_False.
  - rewrite split_path_loop_slash, split_path_loop_segment, app_empty_l, IH by done.
    by rewrite (decide_False (P := s = "")).
Qed.

Lemma split_path_segments segs : Forall segment_ok segs → split_path (join_path segs) = segs.
Proof.
  intros Hsegs. unfold split_path.
  rewrite <-(app_empty_r (join_path segs)), (split_path_loop_join segs "" "" []);
    [by rewrite app_nil_r|by intros cur; rewrite app_nil_r|done].
Qed.

(** ** Properties *)

(** Splitting undoes joining: the segments of a path are recovered in order, and a
    query string, whatever it contains, does not take part in routing. *)
Theorem split_path_join (segs : list string) (query : string) :
  Forall segment_ok segs →
  split_path (join_path segs) = segs ∧
  split_path (join_path segs +:+ "/") = segs ∧
  split_path (join_path segs +:+ "?" +:+ query) = segs.
Proof.
  intros Hsegs. split_and!; [by apply split_path_segments|unfold split_path..].
  - rewrite (split_path_loop_join segs "/" "" []); [by rewrite app_nil_r| |done].
    intros cur. simpl. by case_decide.
  - rewrite (split_path_loop_join segs ("?" +:+ query) "" []); [by rewrite app_nil_r| |done].
    intros cur. rewrite split_path_loop_query. by rewrite app_nil_r.
Qed.

(** The first registered route that fits the request's path and method. *)
Fixpoint find_route {S} (routes_ : list (Route S)) (m : string) (segs : list string) :
    option (Route S * list string) :=
  match routes_ with
  | [] => None
  | r :: routes_ =>
      match match_segments (segments r) segs with
      | Some params => if decide (method r = m) then Some (r, params)
                       else find_route routes_ m segs
      | None => find_route routes_ m segs
      end
  end.
Definition path_known {S} (routes_ : list (Route S)) (segs : list string) : Prop :=
  ∃ r, r ∈ routes_ ∧ is_Some (match_segments (segments r) segs).

(** Dispatch runs the handler of the first route that matches path and method
    with the captured segments; without one it answers 405 exactly when some
    route knows the path, else 404, and runs nothing. *)
Theorem dispatch_first_match S (routes_ : list (Route S)) (req : Request) (segs : list string)
    (s : S) :
  match find_route routes_ (req_method req) segs with
  | Some (r, params) =>
      r ∈ routes_ ∧ method r = req_method req ∧
      match_segments (segments r) segs = Some params ∧
      dispatch routes_ req segs false s = handler r req params s
  | None =>
      ∃ resp, dispatch routes_ req segs false s = (Ok resp, s) ∧
        (path_known routes_ segs → resp_status resp = 405) ∧
        (¬ path_known routes_ segs → resp_status resp = 404)
  end.
Proof.
  assert (∀ known, match find_route routes_ (req_method req) segs with
    | Some (r, params) => r ∈ routes_ ∧ method r = req_method req ∧
        match_segments (segments r) segs = Some params ∧
        dispatch routes_ req segs known s = handler r req params s
    | None => ∃ resp, dispatch routes_ req segs known s = (Ok resp, s) ∧
        ((known = true ∨ path_known routes_ segs) → resp_status resp = 405) ∧
        (known = false → ¬ path_known routes_ segs → resp_status resp = 404)
    end) as Hgen; [|specialize (Hgen false); repeat case_match; naive_solver].
  unfold path_known. induction routes_ as [|r routes_ IH]; intros known; simpl.
  { destruct known; eexists; (split; [done|]); simpl; split; try done.
    intros [|(r & []%elem_of_nil & _)]; done. }
  destruct (match_segments (segments r) segs) as [params|] eqn:Em.
  - case_decide as Hm; [split_and!; [by left|done..]|].
    specialize (IH true). destruct (find_route _ _ _) as [[r' params']|].
    + destruct IH as (? & ? & ? & ?). split_and!; [by right|done..].
    + destruct IH as (resp & -> & H405 & _). exists resp. split_and!; [done|auto|].
      intros _ []. exists r. split; [by left|]. by rewrite Em.
  - specialize (IH known). destruct (find_route _ _ _) as [[r' params']|].
    + destruct IH as (? & ? & ? & ?). split_and!; [by right|done..].
    + destruct IH as (resp & -> & H405 & H404). exists resp. split_and!; [done| |].
      * intros [Hk|(r' & [->|Hin]%elem_of_cons & Hs)]; [auto| |eauto].
        rewrite Em in Hs. by destruct Hs.
      * intros Hk Hno. apply H404; [done|]. intros (r' & Hin & Hs). apply Hno.
        exists r'. split; [by right|done].
Qed.

(** A request whose [Content-Length] is not a number is not answered with an error
    status: the exception of [std::stoul] leaves the connection's thread, for any
    routes and state. *)
Theorem malformed_content_length_escapes S (routes_ : list (Route S)) (s : S)
    (method path v : string) (fields : list (string * string)) :
  plain method → plain path → method ≠ "" → Forall field_ok fields →
  field_ok ("Content-Length", v) → strto v = None →
  let block := crlf_join ((method +:+ " " +:+ path) :: (field_line <$> fields)
                          ++ [field_line ("Content-Length", v)]) +:+ CRLFCRLF in
  Z.of_nat (String.length block) ≤ 2 ^ 20 →
  handle_connection routes_ [block] s = (Throw InvalidArgument, s).
Proof.
  intros Hm Hp Hne Hf Hcl Hv. cbv zeta.
  set (ls := (method +:+ " " +:+ path) :: (field_line <$> fields)
             ++ [field_line ("Content-Length", v)]).
  intros Hlen.
  assert (Forall header_line_ok ls) as Hls.
  { constructor.
    - unfold header_line_ok, plain in *. rewrite !lacks_app. split; [naive_solver|].
      by destruct method.
    - apply Forall_app_2; [|by constructor; [apply field_line_ok|]].
      apply Forall_fmap. eapply Forall_impl; [done|]. intros f. apply field_line_ok. }
  unfold handle_connection, parse_request.
  pose proof (find_end_block ls "" Hls ltac:(done)) as Hfind. rewrite app_empty_r in Hfind.
  assert (bytes [crlf_join ls +:+ CRLFCRLF] = crlf_join ls +:+ CRLFCRLF) as Hb
    by apply app_empty_r.
  destruct (read_headers_blocks "" [crlf_join ls +:+ CRLFCRLF] (String.length (crlf_join ls)))
    as (leftover & rest & -> & _); [by rewrite Hb..| |].
  { constructor; [|done]. by destruct (crlf_join ls). }
  rewrite Hb, app_empty_l, take_length_app. cbn iota beta.
  destruct (read_word _) as [w1 r1]. destruct (read_word r1) as [w2 r2].
  pose proof (getlines_block ls Hls) as Hgl.
  destruct (getlines (crlf_join ls)) as [|l0 lines]; [done|].
  simpl in Hgl. injection Hgl as _ Htl. simpl.
  rewrite (parse_headers_fields lines (fields ++ [("Content-Length", v)])).
  - rewrite foldl_app. simpl. unfold content_length. rewrite lookup_insert_eq.
    unfold stoul. by rewrite Hv.
  - rewrite fmap_app. exact Htl.
  - apply Forall_app_2; [done|by constructor].
Qed.

Lemma split_path_join_witness : split_path "/functions/hello?verbose=1" = ["functions"; "hello"].
Proof.
  assert (Forall segment_ok ["functions"; "hello"]) as Hs by (by repeat apply Forall_cons_2).
  apply (split_path_join ["functions"; "hello"] "verbose=1" Hs).
Defined.

Lemma malformed_content_length_escapes_witness :
  handle_connection (S:=unit) []
    [crlf_join ["POST /functions"; "Content-Length: many"] +:+ CRLFCRLF] tt
  = (Throw InvalidArgument, tt).
Proof.
  apply (malformed_content_length_escapes unit [] tt "POST" "/functions" "many" []);
    [done|done|done|constructor|done|done|].
  by vm_compute.
Defined.
