(* ===== verification/HttpRoundtrip.v ===== *)
(** * The client and the server understand each other

    What [Client::request] writes, the server's parser reads back; what the
    server's [handle_connection] writes, the client's parser reads back. *)

From S2P Require Import Prelude CppStd StringFacts Http HttpClient HttpServer.

(** ** Words and numbers in a line *)

Definition token_ok (w : string) : Prop :=
  w ≠ "" ∧ str_forall (λ c, negb (Ascii.is_space c)) w = true.

Lemma space_chars c : Ascii.is_space c = false → c ≠ CR ∧ c ≠ LF.
Proof. by destruct c as [[] [] [] [] [] [] [] []]. Qed.

Lemma token_plain w : token_ok w → plain w.
Proof.
  intros [_ Hw]. split; (eapply str_forall_impl; [|done]); intros c;
    rewrite negb_true_iff, bool_decide_eq_true; apply space_chars.
Qed.

Lemma read_word_token w r :
  token_ok w → read_word (w +:+ " " +:+ r) = (w, " " +:+ r).
Proof.
  intros [Hne Hw].
  assert (drop_spaces (w +:+ " " +:+ r) = w +:+ " " +:+ r) as Hd.
  { destruct w as [|c w]; [done|]. rewrite app_cons. simpl in *.
    by destruct (Ascii.is_space c). }
  unfold read_word. rewrite Hd. clear Hne Hd. f_equal.
  - induction w as [|c w IH]; [done|]. rewrite app_cons. simpl in *.
    destruct (Ascii.is_space c); [done|]. f_equal. auto.
  - induction w as [|c w IH]; [done|]. rewrite app_cons. simpl in *.
    destruct (Ascii.is_space c); [done|]. auto.
Qed.
Lemma read_word_blank r : read_word (" " +:+ r) = read_word r.
Proof. done. Qed.

Lemma digits_value_app acc s c t :
  str_forall is_digit s = true → digit c = None →
  digits_value acc (s +:+ String c t) = digits_value acc s.
Proof.
  intros Hs Hc. revert acc. induction s as [|a s IH]; intros acc.
  - rewrite app_empty_l. simpl. by rewrite Hc.
  - simpl in Hs. apply andb_true_iff in Hs as [Ha Hs]. rewrite app_cons. simpl.
    unfold is_digit in Ha. rewrite bool_decide_eq_true in Ha. destruct Ha as [d ->]. auto.
Qed.

Lemma read_int_prefix z c t :
  0 ≤ z ≤ int_max → digit c = None → read_int (to_string z +:+ String c t) = z.
Proof.
  intros Hz Hc. rewrite <-(read_int_to_string z) at 2 by (unfold in_int, int_min; lia).
  pose proof (to_string_nonneg_digits z ltac:(lia)) as Hd.
  pose proof (to_string_nonneg_starts z ltac:(lia)) as Hst.
  unfold read_int. enough (strto (to_string z +:+ String c t) = strto (to_string z)) as ->; [done|].
  unfold strto. destruct (to_string z) as [|a s] eqn:E; [done|]. rewrite app_cons. simpl in *.
  destruct (digit_chars a Hst) as (Hsp & Hm & Hp & _). rewrite Hsp. simpl.
  rewrite !decide_False by done. simpl. rewrite Hst.
  apply andb_true_iff in Hd as [_ Hd]. destruct (digit a); [|done].
  by rewrite digits_value_app.
Qed.

(** ** Requests *)

Definition request_fields (host body content_type : string) : list (string * string) :=
  [("Host", host); ("Connection", "close")] ++
  (if decide (body = "") then []
   else [("Content-Type", content_type);
         ("Content-Length", to_string (Z.of_nat (String.length body)))]).

Definition request_headers (host body content_type : string) : gmap string string :=
  foldl (λ m f, <[f.1 := f.2]> m) ∅ (request_fields host body content_type).

Definition request_line (method path : string) : string :=
  method +:+ " " +:+ path +:+ " HTTP/1.1".

Lemma request_text_block method path host body content_type :
  request_text method path host body content_type
  = crlf_join (request_line method path
               :: (field_line <$> request_fields host body content_type))
    +:+ CRLFCRLF +:+ body.
Proof.
  unfold request_text, request_fields, request_line, CRLFCRLF.
  case_decide as Hb; simpl; unfold field_line; simpl;
    by rewrite ?app_assoc_str, ?app_cons, ?app_assoc_str, ?app_empty_l.
Qed.

Lemma to_string_value_ok z : 0 ≤ z → value_ok (to_string z).
Proof.
  intros Hz. split; [split; by apply to_string_lacks|].
  pose proof (to_string_nonneg_starts z Hz) as Hs. destruct (to_string z); [done|].
  by apply digit_chars.
Qed.

Lemma request_fields_ok host body content_type :
  value_ok host → value_ok content_type →
  Forall field_ok (request_fields host body content_type).
Proof.
  intros Hh Hc. unfold request_fields.
  assert (value_ok (to_string (Z.of_nat (String.length body)))) by (apply to_string_value_ok; lia).
  apply Forall_app_2; [|case_decide]; repeat apply Forall_cons_2; try apply Forall_nil_2;
    by split_and!.
Qed.

Lemma request_content_length host body content_type :
  Z.of_nat (String.length body) ≤ ulong_max →
  content_length (request_headers host body content_type)
  = Ok (Z.of_nat (String.length body)).
Proof.
  intros Hlen. unfold content_length, request_headers, request_fields.
  case_decide as Hb; simpl.
  - subst. by rewrite !lookup_insert_ne.
  - rewrite lookup_insert_eq. apply stoul_to_string. lia.
Qed.

(** ** Properties *)

(** A request written by the client is read back by the server with the same
    method, path, headers and body, in whatever blocks the network delivers it. *)
Theorem request_roundtrip (method path host body content_type : string)
    (incoming : list string) :
  token_ok method → token_ok path → value_ok host → value_ok content_type →
  bytes incoming = request_text method path host body content_type →
  Forall (λ b, b ≠ "") incoming →
  Z.of_nat (String.length (bytes incoming)) ≤ 2 ^ 20 →
  parse_request incoming = Ok (Some {|
    req_method := method; req_path := path;
    req_headers := request_headers host body content_type;
    req_body := body |}).
Proof.
  intros Hm Hp Hh Hc Hbytes Hne Hlen.
  set (ls := request_line method path :: (field_line <$> request_fields host body content_type)).
  pose proof (request_fields_ok host body content_type Hh Hc) as Hfs.
  assert (Forall header_line_ok ls) as Hls.
  { constructor.
    - destruct (token_plain _ Hm), (token_plain _ Hp), Hm as [Hm _].
      unfold request_line, header_line_ok, plain. rewrite !lacks_app. split; [naive_solver|].
      by destruct method.
    - apply Forall_fmap. eapply Forall_impl; [done|]. intros f. apply field_line_ok. }
  rewrite request_text_block in Hbytes. fold ls in Hbytes.
  pose proof (find_end_block ls body Hls ltac:(done)) as Hfind. rewrite <-Hbytes in Hfind.
  destruct (read_headers_blocks "" incoming _ Hfind Hlen Hne)
    as (leftover & rest & Hread & Hrest & Hner).
  rewrite app_empty_l, Hbytes, take_length_app in Hread.
  rewrite app_empty_l, Hbytes in Hrest.
  rewrite <-(app_assoc_str (crlf_join ls)) in Hrest.
  replace (String.length (crlf_join ls) + 4)%nat
    with (String.length (crlf_join ls +:+ CRLFCRLF)) in Hrest by (by rewrite length_app_str).
  rewrite drop_length_app in Hrest.
  unfold parse_request. rewrite Hread.
  pose proof (getlines_block ls Hls) as Hgl.
  destruct (getlines (crlf_join ls)) as [|l0 lines]; [done|].
  assert (strip_cr <$> lines = field_line <$> request_fields host body content_type) as Htl
    by by injection Hgl.
  assert (strip_cr l0 = request_line method path) as Hl0 by by injection Hgl.
  change (default "" (head (l0 :: lines))) with l0. change (tail (l0 :: lines)) with lines.
  rewrite Hl0. unfold request_line.
  rewrite read_word_token, read_word_blank by done.
  change (path +:+ " HTTP/1.1") with (path +:+ " " +:+ "HTTP/1.1").
  rewrite read_word_token by done.
  rewrite (parse_headers_fields lines _ Htl Hfs). fold (request_headers host body content_type).
  rewrite Hbytes, !length_app_str in Hlen.
  rewrite request_content_length by (unfold ulong_max; lia). simpl.
  rewrite read_body_blocks by (done || by rewrite Hrest). rewrite Hrest.
  rewrite take_ge by lia. done.
Qed.

(** ** Responses *)

Lemma crlf_join_fields l fs tail_ :
  crlf_join (l :: (field_line <$> fs)) +:+ CRLFCRLF +:+ tail_
  = l +:+ CRLF +:+ foldr (λ '(key, value) acc, key +:+ ": " +:+ value +:+ CRLF +:+ acc) "" fs
    +:+ CRLF +:+ tail_.
Proof.
  revert l. induction fs as [|[k v] fs IH]; intros l.
  - simpl. unfold CRLFCRLF. by rewrite app_assoc_str, app_empty_l.
  - rewrite fmap_cons, crlf_join_cons, !app_assoc_str, IH. unfold field_line. simpl.
    by rewrite !app_assoc_str.
Qed.

Lemma foldl_insert_entries (m : gmap string string) :
  foldl (λ m f, <[f.1 := f.2]> m) ∅ (map_entries m) = m.
Proof.
  assert (∀ l (m0 : gmap string string), foldl (λ m f, <[f.1 := f.2]> m) m0 l
          = foldr (λ f m, <[f.1 := f.2]> m) m0 (reverse l)) as Hfold.
  { induction l as [|f l IH]; intros m0; [done|]. simpl.
    by rewrite IH, reverse_cons, foldr_app. }
  rewrite Hfold. change (list_to_map (reverse (map_entries m)) = m).
  rewrite <-(list_to_map_to_list m) at 2. apply list_to_map_proper.
  - rewrite reverse_Permutation, map_entries_Permutation. apply NoDup_fst_map_to_list.
  - by rewrite reverse_Permutation, map_entries_Permutation.
Qed.

Lemma last_char_inv l c : last_char l = Some c → ∃ s, l = s +:+ String c "".
Proof.
  induction l as [|a l IH]; [done|]. simpl. destruct l as [|b l].
  - intros [= ->]. by exists "".
  - intros [s ->]%IH. by exists (String a s).
Qed.

Lemma strip_cr_inv l : ∃ r, l = strip_cr l +:+ r.
Proof.
  unfold strip_cr. case_decide as Hl; [|exists ""; by rewrite app_empty_r].
  apply last_char_inv in Hl as [s ->]. exists (String CR ""). by rewrite pop_back_snoc.
Qed.

(** The status line the server writes, whatever follows the number. *)
Lemma read_status_line z phrase r :
  0 ≤ z ≤ int_max →
  let l := "HTTP/1.1 " +:+ to_string z +:+ " " +:+ phrase +:+ r in
  read_int (read_word l).2 = z.
Proof.
  intros Hz. cbv zeta.
  change ("HTTP/1.1 " +:+ ?x) with ("HTTP/1.1" +:+ " " +:+ x).
  rewrite read_word_token by done. cbn [snd].
  transitivity (read_int (to_string z +:+ " " +:+ phrase +:+ r)); [done|].
  by apply read_int_prefix.
Qed.

Lemma reason_phrase_plain z : plain (reason_phrase z).
Proof. unfold reason_phrase. repeat case_decide; done. Qed.

(** A reply written by the server is read back by the client: complete, with the
    same status, headers - [Content-Length] and [Connection] included - and body. *)
Theorem response_roundtrip (resp : Response) :
  0 ≤ resp_status resp ≤ int_max →
  map_Forall (λ k v, field_ok (k, v)) (resp_headers resp) →
  parse_response (response_text_of (with_length_headers resp)) = {|
    cr_status := resp_status resp;
    cr_headers := resp_headers (with_length_headers resp);
    cr_body := resp_body resp;
    cr_ok := true; cr_timed_out := false; cr_error := "" |}.
Proof.
  intros Hst Hok.
  assert (Forall field_ok (map_entries (resp_headers (with_length_headers resp)))) as Hfs.
  { apply Forall_forall. intros [k v] Hin%elem_of_map_entries. revert k v Hin.
    apply map_Forall_insert_2; [by split_and!|]. apply map_Forall_insert_2; [|done].
    split_and!; try done; by apply to_string_value_ok; lia. }
  set (fs := map_entries _) in Hfs.
  set (status_line := "HTTP/1.1 " +:+ to_string (resp_status resp) +:+ " "
                      +:+ reason_phrase (resp_status resp)).
  assert (response_text_of (with_length_headers resp)
    = crlf_join (status_line :: (field_line <$> fs)) +:+ CRLFCRLF +:+ resp_body resp) as ->.
  { rewrite crlf_join_fields. unfold response_text_of, status_line.
    by rewrite !app_assoc_str. }
  set (ls := status_line :: (field_line <$> fs)).
  assert (Forall header_line_ok ls) as Hls.
  { constructor.
    - destruct (reason_phrase_plain (resp_status resp)).
      unfold header_line_ok, plain, status_line. rewrite !lacks_app.
      rewrite !to_string_lacks by done. by split_and!.
    - apply Forall_fmap. eapply Forall_impl; [done|]. intros f. apply field_line_ok. }
  unfold parse_response. rewrite decide_False by (by destruct fs).
  rewrite find_end_block by done. rewrite take_length_app.
  pose proof (getlines_block ls Hls) as Hgl.
  destruct (getlines (crlf_join ls)) as [|l0 lines]; [done|].
  assert (strip_cr <$> lines = field_line <$> fs) as Htl by by injection Hgl.
  assert (strip_cr l0 = status_line) as Hl0 by by injection Hgl.
  change (default "" (head (l0 :: lines))) with l0. change (tail (l0 :: lines)) with lines.
  rewrite (parse_headers_fields lines fs Htl Hfs). 
  destruct (strip_cr_inv l0) as (r & Hr). rewrite Hl0 in Hr.
  pose proof (read_status_line (resp_status resp) (reason_phrase (resp_status resp)) r Hst) as Hrd.
  cbv zeta in Hrd. unfold status_line in Hr. rewrite !app_assoc_str in Hr. rewrite <-Hr in Hrd.
  destruct (read_word l0) as [version rest]. cbn [snd] in Hrd. rewrite Hrd.
  unfold fs. rewrite foldl_insert_entries. f_equal.
  rewrite <-app_assoc_str.
  replace (String.length (crlf_join ls) + 4)%nat
    with (String.length (crlf_join ls +:+ CRLFCRLF)) by (by rewrite length_app_str).
  apply drop_length_app.
Qed.

(** ** The hypotheses can be met *)

Lemma request_roundtrip_witness :
  parse_request [take 20 (request_text "POST" "/invoke" "127.0.0.1" "{}" "application/json");
                 drop 20 (request_text "POST" "/invoke" "127.0.0.1" "{}" "application/json")]
  = Ok (Some {| req_method := "POST"; req_path := "/invoke";
                req_headers := request_headers "127.0.0.1" "{}" "application/json";
                req_body := "{}" |}).
Proof.
  assert (token_ok "POST" ∧ token_ok "/invoke") as [Hm Hp] by done.
  assert (value_ok "127.0.0.1" ∧ value_ok "application/json") as [Hh Hc] by done.
  apply request_roundtrip; [done|done|done|done|by vm_compute| |by vm_compute].
  by repeat apply Forall_cons_2.
Defined.

Lemma response_roundtrip_witness :
  cr_status (parse_response (response_text_of (with_length_headers (response_json 201 "{}")))) = 201.
Proof.
  rewrite (response_roundtrip (response_json 201 "{}")); [done|by vm_compute|].
  apply map_Forall_singleton. done.
Defined.
