(* ===== verification/ServerLoop.v ===== *)
(** * Accepting connections: [Server::listen] and [Server::stop] ([http_server.cpp])

    The thread that listens, the threads it starts, one per connection, and a thread
    that calls [stop], over the fields they share without a lock. Each phase below is
    one access to a shared field or one call of the operating system, so the steps of
    the three kinds of threads interleave as finely as the code allows. A connection
    thread runs [handle_connection] as one step. *)

From S2P Require Import Prelude CppStd StringFacts Http HttpClient HttpServer.

(** The rest of the socket API. [so_accept] blocks when it gives [None]. *)
Class Acceptor (E : Type) `{Sockets E} : Type := {
  so_inaddr_any : so_addr (E:=E);
  so_inet_addr : string → so_addr (E:=E);
  so_reuse_addr : Z → St E unit;
  so_bind : Z → so_addr (E:=E) → Z → St E bool;   (* fd, address, port *)
  so_listen : Z → Z → St E bool;                  (* fd, backlog *)
  so_accept : Z → St E (option Z);
  so_shutdown : Z → St E unit;
}.

(** Where the listening thread stands: about to ... *)
Inductive Phase : Type :=
  | AtSocket
  | AtSetsockopt
  | AtBind
  | AtListen
  | AtSetRunning                    (* running_ = true *)
  | AtWhile                         (* while (running_) *)
  | AtAccept
  | InAccept (fd : Z)               (* inside accept, called with this descriptor *)
  | AtTest (client_fd : Z)          (* accept returned this *)
  | Returned
  | Threw (x : exn).

(** Where the thread that calls [stop] stands. *)
Inductive StopPhase : Type :=
  | StopIdle                        (* stop was not called yet *)
  | StopAtTest                      (* running_ is false; if (listen_fd_ >= 0) *)
  | StopAtShutdown
  | StopAtClose
  | StopAtClear                     (* listen_fd_ = -1 *)
  | StopDone.

Record Server (S E : Type) : Type := {
  listen_fd_ : Z;
  running_ : bool;
  listener : Phase;
  stopper : StopPhase;
  connections : gmap nat Z;         (* connection thread -> its client_fd *)
  app : S;                          (* what the handlers work on *)
  net : E;
  terminated : bool;                (* std::terminate was called *)
}.
Arguments listen_fd_ {_ _} _.
Arguments running_ {_ _} _.
Arguments listener {_ _} _.
Arguments stopper {_ _} _.
Arguments connections {_ _} _.
Arguments app {_ _} _.
Arguments net {_ _} _.
Arguments terminated {_ _} _.

Section server.
  Context {S E : Type} `{Acceptor E}.
  Context (routes_ : list (Route S)) (host : string) (port : Z).

(** A server before [listen] is called. *)
Definition new_server (a : S) (e : E) : Server S E := {|
  listen_fd_ := -1; running_ := false; listener := AtSocket; stopper := StopIdle;
  connections := ∅; app := a; net := e; terminated := false |}.

Definition listener_to (ph : Phase) (s : Server S E) : Server S E := {|
  listen_fd_ := listen_fd_ s; running_ := running_ s; listener := ph; stopper := stopper s;
  connections := connections s; app := app s; net := net s; terminated := terminated s |}.
Definition stopper_to (ph : StopPhase) (s : Server S E) : Server S E := {|
  listen_fd_ := listen_fd_ s; running_ := running_ s; listener := listener s; stopper := ph;
  connections := connections s; app := app s; net := net s; terminated := terminated s |}.
Definition set_listen_fd (fd : Z) (s : Server S E) : Server S E := {|
  listen_fd_ := fd; running_ := running_ s; listener := listener s; stopper := stopper s;
  connections := connections s; app := app s; net := net s; terminated := terminated s |}.
Definition set_running (b : bool) (s : Server S E) : Server S E := {|
  listen_fd_ := listen_fd_ s; running_ := b; listener := listener s; stopper := stopper s;
  connections := connections s; app := app s; net := net s; terminated := terminated s |}.
Definition set_net (e : E) (s : Server S E) : Server S E := {|
  listen_fd_ := listen_fd_ s; running_ := running_ s; listener := listener s;
  stopper := stopper s; connections := connections s; app := app s; net := e;
  terminated := terminated s |}.
Definition set_connections (cs : gmap nat Z) (s : Server S E) : Server S E := {|
  listen_fd_ := listen_fd_ s; running_ := running_ s; listener := listener s;
  stopper := stopper s; connections := cs; app := app s; net := net s;
  terminated := terminated s |}.
Definition set_app (a : S) (s : Server S E) : Server S E := {|
  listen_fd_ := listen_fd_ s; running_ := running_ s; listener := listener s;
  stopper := stopper s; connections := connections s; app := a; net := net s;
  terminated := terminated s |}.
Definition terminate (s : Server S E) : Server S E := {|
  listen_fd_ := listen_fd_ s; running_ := running_ s; listener := listener s;
  stopper := stopper s; connections := connections s; app := app s; net := net s;
  terminated := true |}.

Definition listen_address : so_addr (E:=E) :=
  if decide (host = "0.0.0.0") then so_inaddr_any else so_inet_addr host.
Definition endpoint : string := host +:+ ":" +:+ to_string port.

(** The next step of [Server::listen]; [t] names the thread it may start. [None]:
    the call has ended, or [accept] blocks. *)
Definition listen_step (t : nat) (s : Server S E) : option (Server S E) :=
  match listener s with
  | AtSocket =>
      let '(fd, e) := so_socket (net s) in
      let s := set_listen_fd fd (set_net e s) in
      Some (listener_to (if decide (fd < 0)
                         then Threw (RuntimeError "failed to create listening socket")
                         else AtSetsockopt) s)
  | AtSetsockopt =>
      let '(_, e) := so_reuse_addr (listen_fd_ s) (net s) in
      Some (listener_to AtBind (set_net e s))
  | AtBind =>
      let '(bound, e) := so_bind (listen_fd_ s) listen_address (to_uint16 port) (net s) in
      Some (listener_to (if (bound : bool) then AtListen
                         else Threw (RuntimeError ("failed to bind to " +:+ endpoint)))
              (set_net e s))
  | AtListen =>
      let '(listens, e) := so_listen (listen_fd_ s) 64 (net s) in
      Some (listener_to (if (listens : bool) then AtSetRunning
                         else Threw (RuntimeError ("failed to listen on " +:+ endpoint)))
              (set_net e s))
  | AtSetRunning => Some (listener_to AtWhile (set_running true s))
  | AtWhile => Some (listener_to (if running_ s then AtAccept else Returned) s)
  | AtAccept => Some (listener_to (InAccept (listen_fd_ s)) s)
  | InAccept fd =>
      match so_accept fd (net s) with
      | (Some client_fd, e) => Some (listener_to (AtTest client_fd) (set_net e s))
      | (None, _) => None
      end
  | AtTest client_fd =>
      if decide (client_fd < 0) then
        Some (listener_to (if running_ s then AtWhile else Returned) s)
      else
        match connections s !! t with
        | None =>
            Some (listener_to AtWhile (set_connections (<[t := client_fd]> (connections s)) s))
        | Some _ => None
        end
  | Returned | Threw _ => None
  end.

(** The next step of [Server::stop]. *)
Definition stop_step (s : Server S E) : option (Server S E) :=
  match stopper s with
  | StopIdle => Some (stopper_to StopAtTest (set_running false s))
  | StopAtTest =>
      Some (stopper_to (if decide (0 ≤ listen_fd_ s) then StopAtShutdown else StopDone) s)
  | StopAtShutdown =>
      let '(_, e) := so_shutdown (listen_fd_ s) (net s) in
      Some (stopper_to StopAtClose (set_net e s))
  | StopAtClose =>
      let '(_, e) := so_close (listen_fd_ s) (net s) in
      Some (stopper_to StopAtClear (set_net e s))
  | StopAtClear => Some (stopper_to StopDone (set_listen_fd (-1) s))
  | StopDone => None
  end.

(** Connection thread [t] reads [incoming], answers and closes. An exception that
    leaves the handler leaves the thread: [std::terminate]. *)
Definition serve_step (t : nat) (incoming : list string) (s : Server S E) : option (Server S E) :=
  client_fd ← connections s !! t;
  let '(r, a) := handle_connection routes_ incoming (app s) in
  match r with
  | Ok reply =>
      let e := match reply with
               | Some text => (so_send client_fd text (net s)).2
               | None => net s
               end in
      Some (set_connections (delete t (connections s))
              (set_net (so_close client_fd e).2 (set_app a s)))
  | _ => Some (terminate (set_app a s))
  end.
End server.

(** ** What the operating system promises

    Besides the descriptors a process holds ([SocketsSpec]): which of them accept
    connections. [accept] fails at once on any other, and hands out a descriptor not
    in use. *)
Class ListeningFds (E : Type) : Type := listening : E → gset Z.

Class AcceptorSpec (E : Type) `{SocketsSpec E, !Acceptor E, ListeningFds E} : Prop := {
  listening_nonneg fd e : fd ∈ listening e → 0 ≤ fd;
  socket_listening e : listening (so_socket e).2 = listening e;
  close_listening fd e : listening (so_close fd e).2 = listening e ∖ {[fd]};
  send_listening fd s e : listening (so_send fd s e).2 = listening e;
  reuse_spec fd e : open_fds (so_reuse_addr fd e).2 = open_fds e ∧
                    listening (so_reuse_addr fd e).2 = listening e;
  bind_spec fd a p e : open_fds (so_bind fd a p e).2 = open_fds e ∧
                       listening (so_bind fd a p e).2 = listening e;
  listen_spec fd n e : open_fds (so_listen fd n e).2 = open_fds e ∧
                       listening (so_listen fd n e).2 ⊆ {[fd]} ∪ listening e;
  accept_spec fd e : let '(r, e') := so_accept fd e in
    listening e' = listening e ∧
    match r with
    | Some c => if decide (c < 0) then open_fds e' = open_fds e
                else fd ∈ listening e ∧ c ∉ open_fds e ∧ open_fds e' = {[c]} ∪ open_fds e
    | None => fd ∈ listening e ∧ e' = e
    end;
  shutdown_spec fd e : open_fds (so_shutdown fd e).2 = open_fds e ∧
                       listening (so_shutdown fd e).2 = listening e ∖ {[fd]};
}.

(** ** The system *)

Inductive label : Type :=
  | Listener
  | Stopper
  | Connection (t : nat)
  | World.

#[export] Instance label_eq_dec : EqDecision label.
Proof. solve_decision. Defined.

(** The descriptors the server holds. *)
Definition owns {S E} (s : Server S E) (fd : Z) : Prop :=
  (∃ t, connections s !! t = Some fd) ∨
  listener s = AtTest fd ∨
  (listen_fd_ s = fd ∧ stopper s ≠ StopAtClear).

Section system.
  Context {S E : Type} `{AcceptorSpec E}.
  Context (routes_ : list (Route S)) (host : string) (port : Z).
  Implicit Types s : Server S E.

(** The rest of the process opens and closes other descriptors and listens on none. *)
Definition elsewhere (s : Server S E) (e : E) : Prop :=
  listening e ⊆ listening (net s) ∧ ∀ fd, owns s fd → fd ∈ open_fds (net s) → fd ∈ open_fds e.

Inductive step (s : Server S E) : label → Server S E → Prop :=
  | step_listener t s' :
      terminated s = false → listen_step host port t s = Some s' → step s Listener s'
  | step_stopper s' :
      terminated s = false → stop_step s = Some s' → step s Stopper s'
  | step_connection t incoming s' :
      terminated s = false → serve_step routes_ t incoming s = Some s' →
      step s (Connection t) s'
  | step_world e :
      terminated s = false → elsewhere s e → step s World (set_net e s).

Inductive run (s : Server S E) : list label → Server S E → Prop :=
  | run_nil : run s [] s
  | run_snoc tr l s1 s2 : run s tr s1 → step s1 l s2 → run s (tr ++ [l]) s2.

(** The listening thread and [stop] leave what the handlers work on alone. *)
Lemma listen_app t s s' :
  listen_step host port t s = Some s' → app s' = app s ∧ terminated s' = terminated s.
Proof. unfold listen_step. intros Hs. repeat case_match; by simplify_eq/=. Qed.
Lemma stop_app s s' : stop_step s = Some s' → app s' = app s ∧ terminated s' = terminated s.
Proof. unfold stop_step. intros Hs. repeat case_match; by simplify_eq/=. Qed.

Lemma listen_connections t s s' :
  listen_step host port t s = Some s' →
  connections s' = connections s ∨
  ∃ fd, connections s !! t = None ∧ connections s' = <[t := fd]> (connections s).
Proof. unfold listen_step. intros Hs. repeat case_match; simplify_eq/=; eauto. Qed.
Lemma stop_connections s s' : stop_step s = Some s' → connections s' = connections s.
Proof. unfold stop_step. intros Hs. repeat case_match; by simplify_eq/=. Qed.

(** *** Stopping *)

Definition in_loop (ph : Phase) : bool :=
  match ph with AtWhile | AtAccept | InAccept _ | AtTest _ => true | _ => false end.
Definition before_loop (ph : Phase) : bool :=
  match ph with AtSocket | AtSetsockopt | AtBind | AtListen | AtSetRunning => true | _ => false end.

(** A closed door: accepting on the server's descriptor fails. *)
Definition door_closed s : Prop :=
  listen_fd_ s ∉ listening (net s) ∧
  ∀ fd, listener s = InAccept fd → fd ∉ listening (net s).

Record stop_inv s : Prop := {
  (* until stop clears it, listen_fd_ is the socket listen opened *)
  stop_fd : listener s ≠ AtSocket → (∀ x, listener s ≠ Threw x) →
            stopper s ∈ [StopIdle; StopAtTest; StopAtShutdown] →
            0 ≤ listen_fd_ s ∧ ∀ fd, listener s = InAccept fd → fd = listen_fd_ s;
  stop_shutdown : stopper s = StopAtShutdown → 0 ≤ listen_fd_ s;
  (* once stop has cleared the flag under a running loop *)
  stop_flag : in_loop (listener s) = true → running_ s = false →
              stopper s ≠ StopIdle ∧
              (stopper s ∈ [StopAtClose; StopAtClear; StopDone] → door_closed s);
  stop_fresh : listener s = AtSocket → listen_fd_ s < 0;
  stop_early : before_loop (listener s) = true → running_ s = false;
}.

Lemma stop_inv_new (a : S) (e : E) : stop_inv (new_server a e).
Proof. by split. Qed.

Lemma listening_less s s' :
  stop_inv s → listen_fd_ s' = listen_fd_ s → running_ s' = running_ s →
  listener s' = listener s → stopper s' = stopper s →
  listening (net s') ⊆ listening (net s) → stop_inv s'.
Proof.
  intros [Hf Hsh Hg Hfr Hb] Hfd Hr Hl Hst Hls.
  split; rewrite ?Hfd, ?Hr, ?Hl, ?Hst; auto.
  intros Hi Hrun. destruct (Hg Hi Hrun) as [Hne Hd]. split; [done|].
  intros Hin. destruct (Hd Hin) as [Hc Ha]. unfold door_closed. rewrite Hfd, Hl. set_solver.
Qed.

Lemma stop_inv_stop s s' : stop_inv s → stop_step s = Some s' → stop_inv s'.
Proof.
  intros [Hf Hsh Hg Hfr Hb] Hs. unfold stop_step in Hs.
  destruct (stopper s) eqn:Est; simplify_eq/=.
  - split; simpl; try done; [|set_solver]. intros Hn1 Hn2 _. apply Hf; try done. set_solver.
  - case_decide as Hfd.
    + split; simpl; try done.
      * intros Hn1 Hn2 _. apply Hf; try done. set_solver.
      * intros Hi Hr. split; [done|]. set_solver.
    + split; simpl; try done; [set_solver|].
      intros Hi Hr. exfalso. apply Hfd, Hf; [| |set_solver]; destruct (listener s); done.
  - destruct (so_shutdown _ _) as [u e] eqn:Hsd. simplify_eq/=.
    pose proof (shutdown_spec (listen_fd_ s) (net s)) as [_ Hl]. rewrite Hsd in Hl. simpl in Hl.
    split; simpl; try done; [set_solver|]. intros Hi Hr. split; [done|]. intros _.
    unfold door_closed. simpl. rewrite Hl. split; [set_solver|].
    intros fd Hfd. destruct Hf as [_ Ha]; [by rewrite Hfd|by rewrite Hfd|set_solver|].
    rewrite (Ha fd Hfd). set_solver.
  - destruct (so_close _ _) as [u e] eqn:Hcl. simplify_eq/=.
    pose proof (close_listening (listen_fd_ s) (net s)) as Hl. rewrite Hcl in Hl. simpl in Hl.
    split; simpl; try done; [set_solver|]. intros Hi Hr. split; [done|]. intros _.
    destruct (Hg Hi Hr) as [_ Hd]. destruct Hd as [Hc Ha]; [set_solver|].
    unfold door_closed. simpl. rewrite Hl. set_solver.
  - split; simpl; try done; [set_solver|]. intros Hi Hr. split; [done|]. intros _.
    destruct (Hg Hi Hr) as [_ Hd]. destruct Hd as [Hc Ha]; [set_solver|].
    split; simpl; [|done]. intros Hin%listening_nonneg. lia.
Qed.

(** The listener moves on without touching the shared fields. *)
Lemma stop_inv_phase s ph e :
  stop_inv s → listener s ≠ AtSocket → (∀ x, listener s ≠ Threw x) →
  listening e ⊆ listening (net s) →
  (in_loop ph = true → in_loop (listener s) = true) →
  (before_loop ph = true → before_loop (listener s) = true) →
  (∀ fd, ph = InAccept fd → listener s = InAccept fd ∨ fd = listen_fd_ s) →
  ph ≠ AtSocket →
  stop_inv (listener_to ph (set_net e s)).
Proof.
  intros [Hf Hsh Hg Hfr Hb] Hns Hnt Hle Hloop Hbefore Hacc Hph. split; simpl; auto; [| |done].
  - intros _ _ Hin. destruct (Hf Hns Hnt Hin) as [Hge Ha]. split; [done|].
    intros fd [?|?]%Hacc; auto.
  - intros Hi Hr. destruct (Hg (Hloop Hi) Hr) as [Hne Hd]. split; [done|].
    intros Hin. destruct (Hd Hin) as [Hc Ha]. split; simpl; [set_solver|].
    intros fd [Hl| ->]%Hacc; [|set_solver]. apply Ha in Hl. set_solver.
Qed.

(** It moves on towards the loop. *)
Lemma stop_inv_setup s ph e :
  stop_inv s → before_loop (listener s) = true → listener s ≠ AtSocket →
  before_loop ph = true → ph ≠ AtSocket → stop_inv (listener_to ph (set_net e s)).
Proof.
  intros [Hf Hsh Hg Hfr Hb] Hbs Hns Hph Hne. split; simpl; auto; [| |done].
  - intros _ _ Hin. destruct Hf as [Hge _]; [done|by destruct (listener s)|done|].
    split; [done|]. by intros fd ->.
  - by destruct ph.
Qed.

Lemma stop_inv_ended s ph e :
  stop_inv s → in_loop ph = false → before_loop ph = false →
  (ph = Returned → listener s ≠ AtSocket ∧ ∀ x, listener s ≠ Threw x) →
  stop_inv (listener_to ph (set_net e s)).
Proof.
  intros [Hf Hsh Hg Hfr Hb] Hi Hbf Hr. split; simpl; try congruence; [|done|by intros ->].
  intros _ Hnt Hin. destruct ph; try done; [|by destruct (Hnt x)].
  destruct Hf; [naive_solver..|]. split; [done|]. by intros.
Qed.

Lemma stop_inv_listen t s s' : stop_inv s → listen_step host port t s = Some s' → stop_inv s'.
Proof.
  intros Hs Hstep. unfold listen_step in Hstep.
  assert (∀ ph, listener_to ph s = listener_to ph (set_net (net s) s)) as Hnet by (by destruct s).
  destruct (listener s) eqn:El; simplify_eq/=.
  - destruct (so_socket (net s)) as [fd e] eqn:Hso. simplify_eq/=.
    destruct Hs as [Hf Hsh Hg Hfr Hb]. specialize (Hfr El).
    assert (stopper s ≠ StopAtShutdown) as Hst by (intros Hst; specialize (Hsh Hst); lia).
    assert (running_ s = false) as Hr by (apply Hb; by rewrite El).
    case_decide; split; simpl; try done.
    + intros _ Hnt. by destruct (Hnt (RuntimeError "failed to create listening socket")).
    + intros _ _ _. split; [lia|done].
  - destruct (so_reuse_addr _ _) as [u e]. simplify_eq/=. apply stop_inv_setup; by rewrite ?El.
  - destruct (so_bind _ _ _ _) as [[] e]; simplify_eq/=; [|by apply stop_inv_ended].
    apply stop_inv_setup; by rewrite ?El.
  - destruct (so_listen _ _ _) as [[] e]; simplify_eq/=; [|by apply stop_inv_ended].
    apply stop_inv_setup; by rewrite ?El.
  - destruct Hs as [Hf Hsh Hg Hfr Hb]. split; simpl; try done.
    intros _ _ Hin. destruct Hf as [Hge _]; [by rewrite El|by rewrite El|done|done].
  - rewrite Hnet. destruct (running_ s).
    + apply stop_inv_phase; rewrite ?El; done.
    + apply stop_inv_ended; rewrite ?El; done.
  - rewrite Hnet. apply stop_inv_phase; rewrite ?El; try done. naive_solver.
  - pose proof (accept_spec fd (net s)) as Ha.
    destruct (so_accept fd (net s)) as [[c|] e]; simplify_eq/=.
    apply stop_inv_phase; rewrite ?El; try done. by destruct Ha as [-> _].
  - assert (stop_inv (listener_to AtWhile (set_net (net s) s))) as Hw
      by (apply stop_inv_phase; rewrite ?El; done).
    case_decide; simplify_eq/=.
    + rewrite Hnet. destruct (running_ s); [done|]. apply stop_inv_ended; rewrite ?El; done.
    + destruct (connections s !! t); simplify_eq/=.
      eapply listening_less; [exact Hw|done..].
Qed.

Lemma stop_inv_serve t incoming s s' :
  stop_inv s → serve_step routes_ t incoming s = Some s' → stop_inv s'.
Proof.
  unfold serve_step. intros Hs. destruct (connections s !! t) as [fd|]; simpl; [|done].
  destruct (handle_connection routes_ incoming (app s)) as [[reply| |] a]; intros [= <-];
    eapply listening_less; try exact Hs; try done.
  simpl. rewrite close_listening. destruct reply; rewrite ?send_listening; set_solver.
Qed.

Lemma step_stop_inv s l s' : stop_inv s → step s l s' → stop_inv s'.
Proof.
  intros Hs [t s1 _ Hl|s1 _ Hl|t incoming s1 _ Hl|e _ [Hl _]].
  - by eapply stop_inv_listen.
  - by eapply stop_inv_stop.
  - by eapply stop_inv_serve.
  - by eapply listening_less.
Qed.

Lemma run_stop_inv s tr s' : stop_inv s → run s tr s' → stop_inv s'.
Proof. intros Hs. induction 1; [done|]. by eapply step_stop_inv. Qed.

(** *** After stop *)

(** Steps the listening thread still takes once the door is closed. *)
Definition remaining (ph : Phase) : Z :=
  match ph with AtAccept => 4 | InAccept _ => 3 | AtTest _ => 2 | AtWhile => 1 | _ => 0 end.

Definition stopping s : Prop :=
  stopper s = StopDone ∧ running_ s = false ∧
  (in_loop (listener s) = true ∨ listener s = Returned).

Definition listener_steps (tr : list label) : Z :=
  Z.of_nat (length (filter (λ l, bool_decide (l = Listener)) tr)).

Lemma listener_steps_snoc tr l :
  listener_steps (tr ++ [l]) = listener_steps tr + if decide (l = Listener) then 1 else 0.
Proof.
  unfold listener_steps. rewrite filter_app, length_app, filter_cons, filter_nil.
  case_decide as Hd; rewrite bool_decide_spec in Hd; [rewrite decide_True|rewrite decide_False];
    simpl; try done; lia.
Qed.

Lemma stopping_listen s t s' :
  stop_inv s → stopping s → listen_step host port t s = Some s' →
  stopping s' ∧ remaining (listener s') + 1 ≤ remaining (listener s).
Proof.
  intros Hs (Hst & Hr & Hph) Hstep.
  assert (∀ fd, listener s = InAccept fd → fd ∉ listening (net s)) as Ha.
  { intros fd Hfd. destruct (stop_flag s Hs) as [_ Hd]; [by rewrite Hfd|done|].
    destruct Hd as [_ Hd]; [rewrite Hst; set_solver|]. auto. }
  unfold listen_step in Hstep. unfold stopping.
  destruct (listener s) eqn:El; simplify_eq/=; try by (destruct Hph).
  - rewrite Hr. simpl. split; [naive_solver|lia].
  - rewrite Hst, Hr. split; [naive_solver|lia].
  - pose proof (accept_spec fd (net s)) as Hacc.
    destruct (so_accept fd (net s)) as [[c|] e]; simplify_eq/=. split; [naive_solver|lia].
  - case_decide; simplify_eq/=.
    + rewrite Hr. simpl. split; [naive_solver|lia].
    + destruct (connections s !! t); simplify_eq/=. split; [naive_solver|lia].
Qed.

Lemma stopping_step s l s' :
  stop_inv s → stopping s → step s l s' →
  stopping s' ∧
  remaining (listener s') + (if decide (l = Listener) then 1 else 0) ≤ remaining (listener s).
Proof.
  intros Hs Hst [t s1 _ Hl|s1 _ Hl|t incoming s1 _ Hl|e _ _].
  - by eapply stopping_listen.
  - destruct Hst as (Hd & _). unfold stop_step in Hl. by rewrite Hd in Hl.
  - unfold serve_step in Hl. destruct (connections s !! t) as [fd|]; simplify_eq/=.
    destruct (handle_connection routes_ incoming (app s)) as [[reply| |] a]; simplify_eq/=;
      (split; [done|lia]).
  - split; [done|]. simpl. lia.
Qed.

(** The listening thread can move whenever it has not ended. *)
Lemma stopping_progress s :
  stop_inv s → stopping s → terminated s = false → listener s ≠ Returned →
  ∃ s', step s Listener s'.
Proof.
  intros Hs (Hst & Hr & Hph) Hal Hnr.
  assert (is_Some (listen_step host port (fresh (dom (connections s))) s)) as [s' Hs'].
  { unfold listen_step. destruct (listener s) eqn:El; try done.
    - by destruct (so_socket _).
    - by destruct (so_reuse_addr _ _).
    - by destruct (so_bind _ _ _ _).
    - by destruct (so_listen _ _ _).
    - pose proof (accept_spec fd (net s)) as Ha.
      destruct (so_accept fd (net s)) as [[c|] e]; [done|]. destruct Ha as (_ & Hin & _).
      destruct (stop_flag s Hs) as [_ Hd]; [by rewrite El|done|].
      destruct Hd as [_ Hd]; [rewrite Hst; set_solver|]. by destruct (Hd fd El).
    - case_decide; [done|].
      destruct (connections s !! fresh (dom (connections s))) eqn:Hf; [|by eexists].
      apply elem_of_dom_2 in Hf. by apply is_fresh in Hf.
    - by destruct Hph. }
  exists s'. by apply (step_listener _ (fresh (dom (connections s)))).
Qed.

(** *** A stop that came too early *)

Definition stop_lost s : Prop :=
  stopper s ≠ StopIdle ∧ listener s ≠ Returned ∧ (in_loop (listener s) = true → running_ s = true).

Lemma stop_lost_step s l s' : stop_lost s → step s l s' → stop_lost s'.
Proof.
  intros (Hst & Hnr & Hr) [t s1 _ Hl|s1 _ Hl|t incoming s1 _ Hl|e _ _]; unfold stop_lost.
  - unfold listen_step in Hl. destruct (listener s) eqn:El; simplify_eq/=.
    + destruct (so_socket _) as [fd e]. simplify_eq/=. by case_decide.
    + destruct (so_reuse_addr _ _) as [u e]. by simplify_eq/=.
    + destruct (so_bind _ _ _ _) as [[] e]; by simplify_eq/=.
    + destruct (so_listen _ _ _) as [[] e]; by simplify_eq/=.
    + done.
    + assert (running_ s = true) as Hrun by auto. by rewrite Hrun.
    + split_and!; auto.
    + destruct (so_accept _ _) as [[c|] e]; simplify_eq/=. split_and!; auto.
    + assert (running_ s = true) as Hrun by auto.
      case_decide; simplify_eq/=; [by rewrite Hrun|].
      destruct (connections s !! t); simplify_eq/=. split_and!; auto.
  - unfold stop_step in Hl.
    destruct (stopper s); simplify_eq/=; try done; repeat case_match; simplify_eq/=; done.
  - unfold serve_step in Hl. destruct (connections s !! t) as [fd|]; simplify_eq/=.
    destruct (handle_connection routes_ incoming (app s)) as [[reply| |] a]; by simplify_eq/=.
  - done.
Qed.

(** *** Descriptors *)

(** The descriptors of the server's own sockets are in use, each for one purpose. *)
Definition held s (fd : Z) : Prop :=
  0 ≤ listen_fd_ s ∧ stopper s ≠ StopAtClear ∧ fd = listen_fd_ s.

Record conn_inv s : Prop := {
  conn_open t fd : connections s !! t = Some fd → 0 ≤ fd ∧ fd ∈ open_fds (net s);
  conn_inj t t' fd : connections s !! t = Some fd → connections s !! t' = Some fd → t = t';
  conn_pending fd : listener s = AtTest fd → 0 ≤ fd →
                    fd ∈ open_fds (net s) ∧ ∀ t, connections s !! t ≠ Some fd;
  conn_listen fd : held s fd →
                   fd ∈ open_fds (net s) ∧ (∀ t, connections s !! t ≠ Some fd) ∧
                   listener s ≠ AtTest fd;
  conn_fresh : listener s = AtSocket → listen_fd_ s < 0;
}.

Lemma conn_inv_new (a : S) (e : E) : conn_inv (new_server a e).
Proof. split; simpl; try done. intros fd (? & _). simpl in *. lia. Qed.

(** A step that only moves phases and descriptors other than the server's. *)
Lemma conn_inv_move s s' :
  conn_inv s → connections s' = connections s →
  (∀ fd, owns s fd → fd ∈ open_fds (net s) → fd ∈ open_fds (net s')) →
  (∀ fd, listener s' = AtTest fd → 0 ≤ fd → listener s = AtTest fd) →
  (∀ fd, held s' fd → held s fd) → (listener s' = AtSocket → listen_fd_ s' < 0) → conn_inv s'.
Proof.
  intros [Ho Hi Hp Hl Hf] Hc Hopen Ht Hh Hs. split; rewrite ?Hc; auto.
  - intros t fd Hfd. destruct (Ho t fd Hfd) as [? ?]. split; [done|]. apply Hopen; [|done].
    left. by exists t.
  - intros fd Hfd Hge. specialize (Ht fd Hfd Hge). destruct (Hp fd Ht Hge) as [? ?].
    split; [|done]. apply Hopen; [|done]. right. by left.
  - intros fd Hfd. pose proof (Hh fd Hfd) as (Hge & Hsc & ->). destruct (Hl _ (Hh _ Hfd)) as (? & ? & ?).
    split_and!; [|done|].
    + apply Hopen; [|done]. right. by right.
    + intros Ha. apply Ht in Ha; [|done]. done.
Qed.

(** Connection thread [t] closes its descriptor and ends. *)
Lemma conn_inv_closed t fd s e :
  conn_inv s → connections s !! t = Some fd → open_fds e = open_fds (net s) ∖ {[fd]} →
  conn_inv (set_connections (delete t (connections s)) (set_net e s)).
Proof.
  intros [Ho Hi Hp Hl Hf] Et He. split; simpl; rewrite ?He; auto.
  - intros t' fd' [Hne Ht']%lookup_delete_Some. destruct (Ho t' fd' Ht') as [? ?].
    split; [done|]. apply elem_of_difference. split; [done|].
    intros ->%elem_of_singleton. by apply Hne, (Hi t t' fd).
  - intros t1 t2 fd' [_ Ht1]%lookup_delete_Some [_ Ht2]%lookup_delete_Some. by eapply Hi.
  - intros fd' Hfd Hge. destruct (Hp fd' Hfd Hge) as [? Hn]. split.
    + apply elem_of_difference. split; [done|]. intros ->%elem_of_singleton. by apply (Hn t).
    + intros t' [_ Ht']%lookup_delete_Some. by apply (Hn t').
  - intros fd' Hfd. destruct (Hl fd' Hfd) as (? & Hn & ?). split_and!; [| |done].
    + apply elem_of_difference. split; [done|]. intros ->%elem_of_singleton. by apply (Hn t).
    + intros t' [_ Ht']%lookup_delete_Some. by apply (Hn t').
Qed.

(** What the handlers work on has no descriptors of the server. *)
Lemma conn_inv_app a s : conn_inv s → conn_inv (set_app a s).
Proof. by intros []. Qed.

Lemma conn_inv_serve t incoming s s' :
  conn_inv s → serve_step routes_ t incoming s = Some s' →
  conn_inv s' ∧ ∃ fd, connections s !! t = Some fd ∧
    (terminated s' = true ∨
     terminated s' = terminated s ∧ connections s' = delete t (connections s) ∧
     open_fds (net s') = open_fds (net s) ∖ {[fd]}).
Proof.
  intros Hs. unfold serve_step. destruct (connections s !! t) as [fd|] eqn:Et; simpl; [|done].
  destruct (handle_connection routes_ incoming (app s)) as [[reply| |] a]; intros [= <-].
  2-3: split; [by destruct Hs|]; exists fd; by auto.
  match goal with |- context [so_close fd ?e] =>
    assert (open_fds (so_close fd e).2 = open_fds (net s) ∖ {[fd]}) as He
      by (rewrite close_spec; destruct reply; by rewrite ?send_spec);
    generalize dependent (so_close fd e).2 end.
  intros e He. split; [|exists fd; by auto].
  apply (conn_inv_closed t fd (set_app a s)); [by apply conn_inv_app|done|done].
Qed.

Lemma conn_inv_stop s s' : conn_inv s → stop_step s = Some s' → conn_inv s'.
Proof.
  intros Hs Hstep. unfold stop_step in Hstep. destruct (stopper s) eqn:Est; simplify_eq/=.
  - eapply conn_inv_move; try exact Hs; try done; [|apply Hs].
    intros fd (? & _ & ?). split_and!; simpl in *; by rewrite ?Est.
  - eapply conn_inv_move; try exact Hs; try done; [|apply Hs].
    intros fd (? & _ & ?). split_and!; simpl in *; by rewrite ?Est.
  - pose proof (shutdown_spec (listen_fd_ s) (net s)) as [Ho _].
    destruct (so_shutdown _ _) as [u e]. simplify_eq/=.
    eapply conn_inv_move; try exact Hs; try done; simpl; rewrite ?Ho; try done; [|apply Hs].
    intros fd (? & _ & ?). split_and!; simpl in *; by rewrite ?Est.
  - pose proof (close_spec (listen_fd_ s) (net s)) as Ho.
    destruct (so_close _ _) as [u e]. simplify_eq/=.
    assert (∀ fd, 0 ≤ fd → fd = listen_fd_ s → held s fd) as Hheld.
    { intros fd Hge Hfd. split_and!; [lia|by rewrite Est|done]. }
    destruct Hs as [Hop Hi Hp Hl Hf]. split; simpl; rewrite ?Ho; auto.
    + intros t fd Ht. destruct (Hop t fd Ht) as [Hge ?]. split; [done|].
      apply elem_of_difference. split; [done|]. intros Hfd%elem_of_singleton.
      destruct (Hl fd (Hheld fd Hge Hfd)) as (_ & Hn & _). by apply (Hn t).
    + intros fd Hfd Hge. destruct (Hp fd Hfd Hge) as [? ?]. split; [|done].
      apply elem_of_difference. split; [done|]. intros Heq%elem_of_singleton.
      by destruct (Hl fd (Hheld fd Hge Heq)) as (_ & _ & ?).
    + by intros fd (_ & ? & _).
  - eapply conn_inv_move; try exact Hs; try done.
    intros fd (Hge & _). simpl in Hge. lia.
Qed.

Lemma conn_inv_phase s ph e :
  conn_inv s → open_fds e = open_fds (net s) →
  (∀ fd, ph = AtTest fd → 0 ≤ fd → listener s = AtTest fd) → ph ≠ AtSocket →
  conn_inv (listener_to ph (set_net e s)).
Proof.
  intros Hs Ho Ht Hne. eapply conn_inv_move; try exact Hs; try done.
  intros fd _. simpl. by rewrite Ho.
Qed.

(** A new descriptor of the process joins the server's. *)
Lemma conn_inv_socket s fd e :
  conn_inv s → listener s = AtSocket →
  (if decide (fd < 0) then open_fds e = open_fds (net s)
   else fd ∉ open_fds (net s) ∧ open_fds e = {[fd]} ∪ open_fds (net s)) →
  ∀ ph, before_loop ph = true ∨ (∃ x, ph = Threw x) → ph ≠ AtSocket →
  conn_inv (listener_to ph (set_listen_fd fd (set_net e s))).
Proof.
  intros Hs El Ho ph Hph Hne.
  assert (∀ x, ph ≠ AtTest x) as Hnt by (intros x ->; naive_solver).
  case_decide as Hfd.
  - eapply conn_inv_move; try exact Hs; try done; simpl.
    + intros x _. by rewrite Ho.
    + intros x Hx. by destruct (Hnt x).
    + intros x (Hge & _). simpl in Hge. lia.
  - destruct Hs as [Hop Hi Hp Hl Hf], Ho as [Hnew Ho]. split; simpl; rewrite ?Ho; auto.
    + intros t x Ht. destruct (Hop t x Ht). set_solver.
    + intros x Hx. by destruct (Hnt x).
    + intros x (_ & _ & ->). split_and!; [set_solver| |by intros ?%Hnt].
      intros t Ht. by destruct (Hop t _ Ht).
    + done.
Qed.

Lemma conn_inv_accepted s fd c e :
  conn_inv s → listener s = InAccept fd →
  (if decide (c < 0) then open_fds e = open_fds (net s)
   else fd ∈ listening (net s) ∧ c ∉ open_fds (net s) ∧ open_fds e = {[c]} ∪ open_fds (net s)) →
  conn_inv (listener_to (AtTest c) (set_net e s)).
Proof.
  intros [Hop Hi Hp Hl Hf] El Ho.
  assert (open_fds (net s) ⊆ open_fds e) as Hsub by (case_decide; set_solver).
  split; simpl; auto; [| | |done].
  - intros t x Ht. destruct (Hop t x Ht). set_solver.
  - intros x [= ->] Hge. rewrite decide_False in Ho by lia. destruct Ho as (_ & Hnew & ->).
    split; [set_solver|]. intros t Ht. by destruct (Hop t _ Ht).
  - intros x Hx. pose proof Hx as (Hge & _ & Hfd). simpl in Hge, Hfd.
    destruct (Hl x Hx) as (? & ? & ?). split_and!; [set_solver|done|].
    intros [= ->]. rewrite decide_False in Ho by lia. naive_solver.
Qed.

Lemma conn_inv_spawned s t c :
  conn_inv s → listener s = AtTest c → 0 ≤ c → connections s !! t = None →
  conn_inv (listener_to AtWhile (set_connections (<[t := c]> (connections s)) s)).
Proof.
  intros [Hop Hi Hp Hl Hf] El Hge Ht. destruct (Hp c El Hge) as [Hc Hn].
  split; simpl; try done.
  - intros t' x [[-> ->]|[_ ?]]%lookup_insert_Some; [done|by eapply Hop].
  - intros t1 t2 x [[<- <-]|[Hne1 H1']]%lookup_insert_Some [[<- Hx]|[Hne2 H2']]%lookup_insert_Some;
      subst; try done; [by destruct (Hn t2)|by destruct (Hn t1)|by eapply Hi].
  - intros x Hx. destruct (Hl x Hx) as (? & Hnx & Hne). split_and!; [done| |done].
    intros t' [[-> ->]|[_ ?]]%lookup_insert_Some; [done|by apply (Hnx t')].
Qed.

Lemma conn_inv_listen t s s' : conn_inv s → listen_step host port t s = Some s' → conn_inv s'.
Proof.
  intros Hs Hstep. unfold listen_step in Hstep.
  assert (∀ ph, listener_to ph s = listener_to ph (set_net (net s) s)) as Hnet by (by destruct s).
  destruct (listener s) eqn:El; simplify_eq/=.
  - pose proof (socket_spec (net s)) as Ho. destruct (so_socket (net s)) as [fd e].
    simplify_eq/=. apply conn_inv_socket; [done|done|done| |by case_decide].
    case_decide; [right; by eexists|by left].
  - pose proof (reuse_spec (listen_fd_ s) (net s)) as [Ho _].
    destruct (so_reuse_addr _ _) as [u e]. simplify_eq/=. by apply conn_inv_phase.
  - pose proof (bind_spec (listen_fd_ s) (listen_address host) (to_uint16 port) (net s)) as [Ho _].
    destruct (so_bind _ _ _ _) as [[] e]; simplify_eq/=; by apply conn_inv_phase.
  - pose proof (listen_spec (listen_fd_ s) 64 (net s)) as [Ho _].
    destruct (so_listen _ _ _) as [[] e]; simplify_eq/=; by apply conn_inv_phase.
  - eapply conn_inv_move; try exact Hs; done.
  - rewrite Hnet. destruct (running_ s); by apply conn_inv_phase.
  - rewrite Hnet. by apply conn_inv_phase.
  - pose proof (accept_spec fd (net s)) as Ha.
    destruct (so_accept fd (net s)) as [[c|] e]; simplify_eq/=.
    eapply conn_inv_accepted; [done|done|apply Ha].
  - case_decide; simplify_eq/=.
    + rewrite Hnet. destruct (running_ s); by apply conn_inv_phase.
    + destruct (connections s !! t) eqn:Et; simplify_eq/=. apply conn_inv_spawned; try done. lia.
Qed.

Lemma step_conn_inv s l s' : conn_inv s → step s l s' → conn_inv s'.
Proof.
  intros Hs [t s1 _ Hl|s1 _ Hl|t incoming s1 _ Hl|e _ [_ Ho]].
  - by eapply conn_inv_listen.
  - by eapply conn_inv_stop.
  - by eapply conn_inv_serve.
  - eapply conn_inv_move; try exact Hs; try done. apply Hs.
Qed.
End system.

(** ** Properties *)

Section properties.
  Context {S E : Type} `{AcceptorSpec E}.
  Context (routes_ : list (Route S)) (host : string) (port : Z).
  Implicit Types s : Server S E.

Notation step := (step routes_ host port).
Notation run := (run routes_ host port).

Lemma run_invariant (P : Server S E → Prop) s tr s' :
  (∀ s1 l s2, P s1 → step s1 l s2 → P s2) → P s → run s tr s' → P s'.
Proof. intros HP Hs. induction 1; [done|]. by eapply HP. Qed.

(** Whatever the interleaving of the listening thread, the connection threads and
    [stop], every connection accepted has a thread of its own, which holds a
    descriptor that is open and used by no other thread nor for listening; a
    connection thread can always go on, and when it ends it has closed exactly that
    descriptor - unless its handler threw, which ends the process. *)
Theorem connections_own_their_sockets (a : S) (e : E) (tr : list label) s :
  run (new_server a e) tr s →
  (∀ t fd, connections s !! t = Some fd →
     fd ∈ open_fds (net s) ∧
     (∀ t', connections s !! t' = Some fd → t' = t) ∧
     listener s ≠ AtTest fd ∧ ¬ held s fd) ∧
  (∀ t incoming, terminated s = false → t ∈ dom (connections s) →
     ∃ s', serve_step routes_ t incoming s = Some s' ∧ step s (Connection t) s') ∧
  (∀ t s', step s (Connection t) s' → ∃ fd,
     connections s !! t = Some fd ∧
     (terminated s' = true ∨
      connections s' = delete t (connections s) ∧
      open_fds (net s') = open_fds (net s) ∖ {[fd]})).
Proof.
  intros Hrun. assert (conn_inv s) as Hs.
  { eapply run_invariant; [|apply conn_inv_new|exact Hrun]. intros. by eapply step_conn_inv. }
  split_and!.
  - intros t fd Ht. destruct (conn_open s Hs t fd Ht) as [Hge Hfd]. split_and!; [done| | |].
    + intros t' Ht'. by eapply (conn_inj s Hs).
    + intros El. by destruct (conn_pending s Hs fd El Hge) as [_ Hn], (Hn t).
    + intros Hh. by destruct (conn_listen s Hs fd Hh) as (_ & Hn & _), (Hn t).
  - intros t incoming Hal [fd Ht]%elem_of_dom.
    assert (is_Some (serve_step routes_ t incoming s)) as [s' Hs'].
    { unfold serve_step. rewrite Ht. simpl.
      destruct (handle_connection routes_ incoming (app s)) as [[reply| |] a']; done. }
    exists s'. split; [done|]. by eapply step_connection.
  - intros t s' Hstep. inversion Hstep as [| |t' incoming s1 _ Hl|]; subst.
    destruct (conn_inv_serve routes_ t incoming s s' Hs Hl) as (_ & fd & Ht & Hcase).
    exists fd. naive_solver.
Qed.

(** C34: [stop] ends [listen]: once it was called under a running loop and has
    returned, the listening thread takes at most four more steps, none of them
    blocks - not even an [accept] under way - and the last one returns from
    [listen]. *)
Theorem stop_ends_listen (a : S) (e : E) (tr : list label) s :
  run (new_server a e) tr s →
  stopper s = StopDone → in_loop (listener s) = true → running_ s = false →
  ∀ tr' s', run s tr' s' →
    listener_steps tr' ≤ 4 ∧
    (terminated s' = true ∨ listener s' = Returned ∨ ∃ s'', step s' Listener s'').
Proof.
  intros Hrun Hst Hph Hr tr' s' Hrun'.
  assert (stop_inv s) as Hs
    by (eapply run_invariant; [|apply stop_inv_new|exact Hrun]; intros; by eapply step_stop_inv).
  assert (stop_inv s' ∧ stopping s' ∧
          listener_steps tr' + remaining (listener s') ≤ remaining (listener s)) as (Hi & Hs' & Hn).
  { induction Hrun' as [|tr' l s1 s2 _ IH Hstep].
    - split_and!; [done|by repeat split; auto|]. unfold listener_steps. simpl. lia.
    - destruct IH as (Hi & Hs1 & Hn). split; [by eapply step_stop_inv|].
      destruct (stopping_step _ _ _ _ _ _ Hi Hs1 Hstep) as [Hs2 Hle]. split; [done|].
      rewrite listener_steps_snoc. lia. }
  split.
  - enough (0 ≤ remaining (listener s') ∧ remaining (listener s) ≤ 4) by lia.
    split; [destruct (listener s')|destruct (listener s)]; simpl; lia.
  - destruct (terminated s') eqn:Hal; [by left|]. right.
    destruct Hs' as (? & ? & [Hl|Hl]); [|by left]. right.
    apply stopping_progress; try done; [by split; auto|]. by intros Hret; rewrite Hret in Hl.
Qed.

(** A [stop] that is called before the listening thread has set [running_] is
    lost: [listen] overwrites the flag and never returns, whatever happens next. *)
Theorem stop_before_loop_is_lost (a : S) (e : E) (tr : list label) s :
  run (new_server a e) tr s →
  before_loop (listener s) = true → stopper s ≠ StopIdle →
  ∀ tr' s', run s tr' s' → listener s' ≠ Returned.
Proof.
  intros _ Hb Hst tr' s' Hrun'.
  assert (stop_lost s') as (_ & ? & _); [|done].
  eapply run_invariant; [intros; by eapply stop_lost_step| |exact Hrun'].
  split_and!; [done| |]; by destruct (listener s).
Qed.

(** C40: A single request whose [Content-Length] is not a number ends the process: the
    exception of [std::stoul] leaves the connection's thread, whatever the routes,
    and no thread of the server, nor any other connection, takes another step. *)
Theorem malformed_request_ends_server s (t : nat) (method path v : string)
    (fields : list (string * string)) :
  terminated s = false → t ∈ dom (connections s) →
  plain method → plain path → method ≠ "" → Forall field_ok fields →
  field_ok ("Content-Length", v) → strto v = None →
  let block := crlf_join ((method +:+ " " +:+ path) :: (field_line <$> fields)
                          ++ [field_line ("Content-Length", v)]) +:+ CRLFCRLF in
  Z.of_nat (String.length block) ≤ 2 ^ 20 →
  serve_step routes_ t [block] s = Some (terminate (set_app (app s) s)) ∧
  step s (Connection t) (terminate (set_app (app s) s)) ∧
  ∀ l s', ¬ step (terminate (set_app (app s) s)) l s'.
Proof.
  intros Hal [fd Ht]%elem_of_dom Hm Hp Hne Hf Hcl Hv block Hlen.
  assert (serve_step routes_ t [block] s = Some (terminate (set_app (app s) s))) as Hs.
  { unfold serve_step. rewrite Ht. simpl.
    pose proof (malformed_content_length_escapes S routes_ (app s) method path v fields
      Hm Hp Hne Hf Hcl Hv Hlen) as Hh.
    fold block in Hh. by rewrite Hh. }
  split_and!; [done|by eapply step_connection|]. intros l s'. by inversion 1.
Qed.
End properties.

(** ** A small network *)

Record Net : Type := {
  n_open : list Z;
  n_listening : list Z;
  n_waiting : nat;              (* clients in the accept queue *)
}.
Definition next_fd (fds : list Z) : Z := foldr (λ x n, Z.max (x + 1) n) 3 fds.
Definition n_set (o l : list Z) (w : nat) : Net :=
  {| n_open := o; n_listening := l; n_waiting := w |}.

#[export] Instance net_open_fds : OpenFds Net := λ n, list_to_set (n_open n).
#[export] Instance net_listening : ListeningFds Net := λ n,
  list_to_set (filter (λ fd, 0 ≤ fd) (n_listening n)).
#[export] Instance net_sockets : Sockets Net := {|
  so_addr := unit;
  so_socket := λ n, let fd := next_fd (n_open n) in
                    (fd, n_set (fd :: n_open n) (n_listening n) (n_waiting n));
  so_set_timeouts _ _ _ := mret tt; so_inet_pton _ := Some tt;
  so_gethostbyname _ := mret None; so_connect _ _ _ := mret true; so_send _ _ := mret true;
  so_recv_all _ := mret ([], RecvClosed);
  so_close fd := λ n, (tt, n_set (filter (λ x, x ≠ fd) (n_open n))
                             (filter (λ x, x ≠ fd) (n_listening n)) (n_waiting n));
|}.
#[export] Instance net_acceptor : Acceptor Net := {|
  so_inaddr_any := tt; so_inet_addr _ := tt; so_reuse_addr _ := mret tt;
  so_bind _ _ _ := mret true;
  so_listen fd _ := λ n, (true, n_set (n_open n) (fd :: n_listening n) (n_waiting n));
  so_accept fd := λ n,
    if decide (fd ∈ filter (λ fd, 0 ≤ fd) (n_listening n)) then
      match n_waiting n with
      | O => (None, n)
      | Datatypes.S w => let c := next_fd (n_open n) in
               (Some c, n_set (c :: n_open n) (n_listening n) w)
      end
    else (Some (-1), n);
  so_shutdown fd := λ n, (tt, n_set (n_open n) (filter (λ x, x ≠ fd) (n_listening n)) (n_waiting n));
|}.

Lemma next_fd_fresh fds : 3 ≤ next_fd fds ∧ next_fd fds ∉ fds.
Proof.
  assert (3 ≤ next_fd fds ∧ ∀ x, x ∈ fds → x < next_fd fds) as [? Hlt].
  { unfold next_fd. induction fds as [|x l [IH1 IH2]]; simpl; [split; [lia|set_solver]|].
    split; [lia|]. intros y [-> |Hy]%elem_of_cons; [lia|]. specialize (IH2 y Hy). lia. }
  split; [done|]. intros Hin%Hlt. lia.
Qed.

#[export] Instance net_sockets_spec : SocketsSpec Net.
Proof.
  split; try done.
  - intros n. simpl. destruct (next_fd_fresh (n_open n)). rewrite decide_False by lia.
    unfold open_fds, net_open_fds. simpl. split; [set_solver|done].
  - intros fd n. apply set_eq. intros x. unfold open_fds, net_open_fds. simpl.
    rewrite elem_of_list_to_set, list_elem_of_filter. set_solver.
Qed.

#[export] Instance net_acceptor_spec : AcceptorSpec Net.
Proof.
  assert (∀ (fd : Z) (l : list Z), list_to_set (filter (λ x, 0 ≤ x) (filter (λ x, x ≠ fd) l))
            =@{gset Z} list_to_set (filter (λ x, 0 ≤ x) l) ∖ {[fd]}) as Hf.
  { intros fd l. apply set_eq. intros x.
    rewrite elem_of_difference, !elem_of_list_to_set, !list_elem_of_filter. set_solver. }
  split; try done; unfold open_fds, net_open_fds, listening, net_listening; simpl.
  - intros fd n. rewrite elem_of_list_to_set, list_elem_of_filter. naive_solver.
  - intros fd n. apply Hf.
  - intros fd k n. split; [done|]. intros x.
    rewrite elem_of_union, !elem_of_list_to_set, !list_elem_of_filter. set_solver.
  - intros fd n. destruct (next_fd_fresh (n_open n)).
    case_decide as Hin; [|done]. destruct (n_waiting n) as [|w]; simpl.
    + split; [done|]. by rewrite elem_of_list_to_set.
    + split; [done|]. rewrite decide_False by lia. rewrite !elem_of_list_to_set. done.
  - intros fd n. split; [done|]. apply Hf.
Qed.

(** ** Runs on it *)

Inductive move : Type := MoveListener | MoveStopper | MoveConnection (t : nat) (incoming : list string).

Section play.
  Context {S E : Type} `{AcceptorSpec E}.
  Context (routes_ : list (Route S)) (host : string) (port : Z).

(** One step, a new connection going to the thread [0]. *)
Definition play_step (mv : move) (s : Server S E) : option (Server S E) :=
  if terminated s then None else
  match mv with
  | MoveListener => listen_step host port 0 s
  | MoveStopper => stop_step s
  | MoveConnection t incoming => serve_step routes_ t incoming s
  end.
Definition move_label (mv : move) : label :=
  match mv with
  | MoveListener => Listener
  | MoveStopper => Stopper
  | MoveConnection t _ => Connection t
  end.

Lemma server_play_run mvs (s s' : Server S E) :
  foldl (λ s mv, s ≫= play_step mv) (Some s) mvs = Some s' →
  run routes_ host port s (move_label <$> mvs) s'.
Proof.
  revert s'. induction mvs as [|mv mvs IH] using rev_ind; intros s'.
  - intros [= <-]. constructor.
  - rewrite foldl_app, fmap_app. simpl. intros (s1 & Hs1 & Hs)%bind_Some.
    eapply run_snoc; [by apply IH|]. unfold play_step in Hs.
    destruct (terminated s1) eqn:Hal; [done|].
    destruct mv; [by eapply step_listener|by eapply step_stopper|by eapply step_connection].
Qed.
End play.

Definition demo_net : Net := n_set [] [] 1.
Definition demo_server (mvs : list move) : option (Server unit Net) :=
  foldl (λ s mv, s ≫= play_step [] "0.0.0.0" 8080 mv) (Some (new_server tt demo_net)) mvs.

Lemma demo_run mvs s :
  demo_server mvs = Some s →
  run [] "0.0.0.0" 8080 (new_server tt demo_net) (move_label <$> mvs) s.
Proof. apply server_play_run. Qed.

(** A client is accepted, then [stop] runs while the listener waits for another. *)
Definition accepting : list move := replicate 9 MoveListener.
Definition stopped : list move := accepting ++ replicate 2 MoveListener ++ replicate 5 MoveStopper.

Definition overview (s : Server unit Net) : (bool * Phase * StopPhase) * (bool * option Z) :=
  ((running_ s, listener s, stopper s), (terminated s, connections s !! 0%nat)).

Lemma demo_accepting :
  overview <$> demo_server accepting = Some ((true, AtWhile, StopIdle), (false, Some 4)).
Proof. vm_compute. reflexivity. Qed.
Lemma demo_stopped :
  overview <$> demo_server stopped = Some ((false, InAccept 3, StopDone), (false, Some 4)).
Proof. vm_compute. reflexivity. Qed.
Lemma demo_early :
  overview <$> demo_server (replicate 4 MoveListener ++ replicate 5 MoveStopper)
  = Some ((false, AtSetRunning, StopDone), (false, None)).
Proof. vm_compute. reflexivity. Qed.

Lemma connections_own_their_sockets_witness :
  ∃ s, demo_server accepting = Some s ∧ connections s !! 0%nat = Some 4 ∧ 4 ∈ open_fds (net s).
Proof.
  destruct (proj1 (fmap_Some _ _ _) demo_accepting) as (s & Hs & [= _ _ _ _ Ht]).
  exists s. split; [done|]. split; [done|]. apply demo_run in Hs.
  by destruct (connections_own_their_sockets [] "0.0.0.0" 8080 tt demo_net _ s Hs) as [Ho _],
    (Ho 0%nat 4 (eq_sym Ht)).
Defined.

Lemma stop_ends_listen_witness :
  ∃ s, demo_server stopped = Some s ∧ ∃ s', step [] "0.0.0.0" 8080 s Listener s'.
Proof.
  destruct (proj1 (fmap_Some _ _ _) demo_stopped) as (s & Hs & [= Hr Hl Hst Hal _]).
  exists s. split; [done|]. apply demo_run in Hs.
  assert (in_loop (listener s) = true) as Hloop by (by rewrite <-Hl).
  destruct (stop_ends_listen [] "0.0.0.0" 8080 tt demo_net _ s Hs (eq_sym Hst) Hloop (eq_sym Hr)
              [] s (run_nil _ _ _ s)) as [_ [?|[?|?]]]; [congruence|congruence|done].
Defined.

Lemma stop_before_loop_is_lost_witness :
  ∃ s, demo_server (replicate 4 MoveListener ++ replicate 5 MoveStopper) = Some s ∧
       listener s ≠ Returned.
Proof.
  destruct (proj1 (fmap_Some _ _ _) demo_early) as (s & Hs & [= _ Hl Hst _ _]).
  exists s. split; [done|]. apply demo_run in Hs.
  apply (stop_before_loop_is_lost [] "0.0.0.0" 8080 tt demo_net _ s Hs)
    with (tr' := []); [by rewrite <-Hl|by rewrite <-Hst|constructor].
Defined.

Lemma malformed_request_ends_server_witness :
  ∃ s, demo_server accepting = Some s ∧
       serve_step [] 0 [crlf_join ["POST /functions"; "Content-Length: many"] +:+ CRLFCRLF] s
       = Some (terminate (set_app (app s) s)).
Proof.
  destruct (proj1 (fmap_Some _ _ _) demo_accepting) as (s & Hs & [= _ _ _ Hal Ht]).
  exists s. split; [done|].
  apply (malformed_request_ends_server [] "0.0.0.0" 8080 s 0 "POST" "/functions" "many" []);
    [done|by apply elem_of_dom; rewrite <-Ht|done|done|done|constructor|done|done|].
  by vm_compute.
Defined.
