(* ===== verification/RuntimeManager.v ===== *)
(** * The runtime manager ([runtime_manager.hpp], [runtime_manager.cpp])

    The map from function name to the one runtime that serves it. Every operation
    is a state computation over the map, the metrics registry and the world the
    manager talks to: a [ContainerBackend], a [Clock] and the [Sockets] of the
    HTTP client. [try_invoke] is split where the code releases its mutex:
    [acquire] before the call to the container, [settle] after it. *)

From S2P Require Import Prelude CppStd StringFacts ContainerBackend FunctionModel Metrics Http.
From S2P Require Import HttpClient.

Definition kContainerPort : Z := 8080.
Definition kReadinessAttempts : nat := 50.
Definition kReadinessIntervalMs : Z := 100.
Definition kHealthCheckTimeoutMs : Z := 2000.
Definition kReaperIntervalMs : Z := 500.

Record InvocationResult : Type := {
  inv_status : string;
  inv_output : string;
  inv_duration_ms : Z;
  inv_cold_start : bool;
}.

Record RuntimeStatus : Type := {
  rs_state : RuntimeState;
  rs_container_id : string;
  rs_host_port : Z;
  rs_idle_ms : Z;
}.

Record RuntimeListEntry : Type := {
  re_function_name : string;
  re_state : RuntimeState;
  re_container_id : string;
  re_host_port : Z;
  re_idle_ms : Z;
}.

(** [last_used_at] is in nanoseconds of the steady clock. *)
Record Runtime : Type := {
  rt_container_id : string;
  rt_host_port : Z;
  rt_state : RuntimeState;
  rt_last_used_at : Z;
  rt_idle_timeout_ms : Z;
}.

Definition set_used (st : RuntimeState) (now : Z) (rt : Runtime) : Runtime := {|
  rt_container_id := rt_container_id rt; rt_host_port := rt_host_port rt;
  rt_state := st; rt_last_used_at := now; rt_idle_timeout_ms := rt_idle_timeout_ms rt;
|}.

(** [duration_cast<milliseconds>] of a nanosecond count. *)
Definition to_ms (ns : Z) : Z := Z.quot ns 1000000.

Record Manager (E : Type) : Type := {
  runtimes_ : gmap string Runtime;
  metrics_ : Metrics;
  world : E;
}.
Arguments runtimes_ {_} _.
Arguments metrics_ {_} _.
Arguments world {_} _.

(** The state the constructor sets up. *)
Definition new_manager {E} (e : E) : Manager E :=
  {| runtimes_ := ∅; metrics_ := new_metrics; world := e |}.

Section state.
  Context {E : Type}.

Definition set_runtimes (f : gmap string Runtime → gmap string Runtime) (m : Manager E) :
    Manager E :=
  {| runtimes_ := f (runtimes_ m); metrics_ := metrics_ m; world := world m |}.
Definition set_metrics (f : Metrics → Metrics) (m : Manager E) : Manager E :=
  {| runtimes_ := runtimes_ m; metrics_ := f (metrics_ m); world := world m |}.
Definition set_world (e : E) (m : Manager E) : Manager E :=
  {| runtimes_ := runtimes_ m; metrics_ := metrics_ m; world := e |}.

(** A call that leaves the manager's own state alone. *)
Definition outside {A} (m : St E A) : St (Manager E) A := zoom world set_world m.

(** [runtimes_.find(function_name)] *)
Definition find_runtime (function_name : string) : St (Manager E) (option Runtime) :=
  λ m, (runtimes_ m !! function_name, m).
Definition put_runtime (function_name : string) (rt : Runtime) : St (Manager E) unit :=
  st_modify (set_runtimes <[function_name := rt]>).
Definition erase_runtime (function_name : string) : St (Manager E) unit :=
  st_modify (set_runtimes (delete function_name)).
Definition record (f : Metrics → Metrics) : St (Manager E) unit := st_modify (set_metrics f).
End state.

(** [result.output] of a timeout. *)
Definition timeout_message (spec : FunctionSpec) : string :=
  "function exceeded timeout of " +:+ to_string (timeout_ms spec) +:+ "ms".

Definition client_to (host_port : Z) : Client := {| host_ := "127.0.0.1"; port_ := host_port |}.

Definition in_2xx (status : Z) : bool := bool_decide (200 ≤ status) && bool_decide (status < 300).

(** What [try_invoke] holds when it releases the mutex for the first time. *)
Inductive attempt : Type :=
  | StartFailed (error : string)
  | Acquired (cold_start : bool) (host_port : Z) (container_id : string).

Section operations.
  Context {E : Type} `{Clock E, ContainerBackend E, Sockets E}.

Definition elapsed_ms (start : Z) : St E Z :=
  now ← steady_now;
  mret (to_ms (now - start)).

Definition is_healthy (host_port : Z) : St E bool :=
  resp ← get (client_to host_port) "/health" kHealthCheckTimeoutMs;
  mret (cr_ok resp && in_2xx (cr_status resp)).

(** The readiness loop: [true] as soon as one check succeeds. *)
Fixpoint await_healthy (attempts : nat) (port : Z) : St E bool :=
  match attempts with
  | O => mret false
  | S attempts =>
      healthy ← is_healthy port;
      if (healthy : bool) then mret true
      else _ ← sleep_for_ms kReadinessIntervalMs; await_healthy attempts port
  end.

(** The new runtime or the error text. *)
Definition start_runtime (spec : FunctionSpec) : St E (Runtime + string) :=
  run ← run_container (image spec) kContainerPort;
  if negb (ok run) then mret (inr ("failed to start container: " +:+ error run)) else
  port ← get_host_port (id run) kContainerPort;
  if decide (port ≤ 0) then
    _ ← remove_container (id run);
    mret (inr ("failed to determine host port for container " +:+ id run))
  else
  healthy ← await_healthy kReadinessAttempts port;
  if (healthy : bool) then
    mret (inl {| rt_container_id := id run; rt_host_port := port; rt_state := STARTING;
                 rt_last_used_at := 0; rt_idle_timeout_ms := idle_timeout_ms spec |})
  else
    _ ← remove_container (id run);
    mret (inr "container did not become healthy within the startup window").

(** Marks the runtime of [spec] busy and copies what the call needs. *)
Definition claim (spec : FunctionSpec) (cold_start : bool) (rt : Runtime) :
    St (Manager E) attempt :=
  now ← outside steady_now;
  _ ← put_runtime (name spec) (set_used BUSY now rt);
  mret (Acquired cold_start (rt_host_port rt) (rt_container_id rt)).

(** [try_invoke] up to its first [lock.unlock()]. *)
Definition acquire (spec : FunctionSpec) : St (Manager E) attempt :=
  it ← find_runtime (name spec);
  match it with
  | Some rt => claim spec false rt
  | None =>
      started ← outside (start_runtime spec);
      match started with
      | inr error => mret (StartFailed error)
      | inl rt =>
          _ ← put_runtime (name spec) rt;
          _ ← record record_runtime_created;
          claim spec true rt
      end
  end.

(** Stops and forgets a runtime that is in the map. *)
Definition retire (function_name container_id reason : string) : St (Manager E) unit :=
  _ ← outside (remove_container container_id);
  _ ← erase_runtime function_name;
  record (record_runtime_terminated reason).

Definition release (function_name : string) (rt : Runtime) : St (Manager E) unit :=
  now ← outside steady_now;
  put_runtime function_name (set_used IDLE now rt).

(** [try_invoke] from its second [lock.lock()] on: the result, and whether the
    connection failed. *)
Definition settle (spec : FunctionSpec) (cold_start : bool) (container_id : string)
    (duration_ms : Z) (resp : ClientResponse) : St (Manager E) (InvocationResult * bool) :=
  it ← find_runtime (name spec);
  let tracked :=
    match it with
    | Some rt => if decide (rt_container_id rt = container_id) then Some rt else None
    | None => None
    end in
  let result status output :=
    {| inv_status := status; inv_output := output; inv_duration_ms := duration_ms;
       inv_cold_start := cold_start |} in
  if cr_timed_out resp then
    _ ← (if tracked is Some _ then retire (name spec) container_id "timeout" else mret tt);
    mret (result "timeout" (timeout_message spec), false)
  else if negb (cr_ok resp) then
    _ ← (if tracked is Some _ then retire (name spec) container_id "dead" else mret tt);
    mret (result "infra_error" (cr_error resp), true)
  else
    _ ← (if tracked is Some rt then release (name spec) rt else mret tt);
    mret (result (if in_2xx (cr_status resp) then "success" else "error") (cr_body resp), false).

Definition try_invoke (spec : FunctionSpec) (input_json : string) (start : Z) :
    St (Manager E) (InvocationResult * bool) :=
  a ← acquire spec;
  match a with
  | StartFailed error =>
      duration ← outside (elapsed_ms start);
      mret ({| inv_status := "infra_error"; inv_output := error;
               inv_duration_ms := duration; inv_cold_start := false |}, false)
  | Acquired cold_start host_port container_id =>
      resp ← outside (post (client_to host_port) "/invoke" input_json "application/json"
                        (timeout_ms spec));
      duration ← outside (elapsed_ms start);
      settle spec cold_start container_id duration resp
  end.

Definition record_result (result : InvocationResult) : St (Manager E) unit :=
  record (record_invocation (inv_status result) (inv_cold_start result)
            (to_double (inv_duration_ms result))).

Definition invoke (spec : FunctionSpec) (input_json : string) :
    St (Manager E) InvocationResult :=
  start ← outside steady_now;
  first ← try_invoke spec input_json start;
  result ← (if snd first && negb (inv_cold_start (fst first))
            then retried ← try_invoke spec input_json start; mret (fst retried)
            else mret (fst first));
  _ ← record_result result;
  mret result.

Definition expired (now : Z) (rt : Runtime) : bool :=
  bool_decide (rt_state rt = IDLE) &&
  bool_decide (rt_idle_timeout_ms rt ≤ to_ms (now - rt_last_used_at rt)).

(** The loop of the reaper over the map, in key order. *)
Fixpoint reap_entries (now : Z) (entries : list (string * Runtime)) : St (Manager E) unit :=
  match entries with
  | [] => mret tt
  | (function_name, rt) :: entries =>
      _ ← (if expired now rt
           then retire function_name (rt_container_id rt) "idle_timeout" else mret tt);
      reap_entries now entries
  end.

(** What one iteration of [reap_idle_runtimes] does under the lock. *)
Definition reap_pass : St (Manager E) unit :=
  now ← outside steady_now;
  m ← st_get;
  reap_entries now (map_entries (runtimes_ m)).

Definition reap_iteration : St (Manager E) unit :=
  _ ← outside (sleep_for_ms kReaperIntervalMs);
  reap_pass.

Definition status (function_name : string) : St (Manager E) (option RuntimeStatus) :=
  it ← find_runtime function_name;
  match it with
  | None => mret None
  | Some rt =>
      now ← outside steady_now;
      mret (Some {| rs_state := rt_state rt; rs_container_id := rt_container_id rt;
                    rs_host_port := rt_host_port rt;
                    rs_idle_ms := to_ms (now - rt_last_used_at rt) |})
  end.

Definition list_entry (now : Z) (p : string * Runtime) : RuntimeListEntry := {|
  re_function_name := fst p; re_state := rt_state (snd p);
  re_container_id := rt_container_id (snd p); re_host_port := rt_host_port (snd p);
  re_idle_ms := to_ms (now - rt_last_used_at (snd p));
|}.

Definition list_runtimes : St (Manager E) (list RuntimeListEntry) :=
  now ← outside steady_now;
  m ← st_get;
  mret (list_entry now <$> map_entries (runtimes_ m)).

Definition terminate (function_name : string) : St (Manager E) unit :=
  it ← find_runtime function_name;
  match it with
  | None => mret tt
  | Some rt => retire function_name (rt_container_id rt) "deleted"
  end.
End operations.
