(* ===== verification/RuntimeInvariant.v ===== *)
(** * What one operation of the runtime manager does

    The effect of each operation on the map, the metrics and the backend's
    history, the invariant that holds whenever the manager's mutex is free, and
    the properties of whole operations run without interference. *)

From S2P Require Import Prelude CppStd StringFacts ContainerBackend FunctionModel Metrics Http.
From S2P Require Import HttpClient RuntimeManager.

(** The clock and the sockets create and remove no runtime. *)
Class QuietWorld (E : Type) `{Clock E, Sockets E, BackendHistory E} : Prop := {
  quiet_now : keeps_history (E:=E) steady_now;
  quiet_sleep ms : keeps_history (E:=E) (sleep_for_ms ms);
  quiet_socket : keeps_history (E:=E) so_socket;
  quiet_set_timeouts fd s us : keeps_history (E:=E) (so_set_timeouts fd s us);
  quiet_gethostbyname h : keeps_history (E:=E) (so_gethostbyname h);
  quiet_connect fd a p : keeps_history (E:=E) (so_connect fd a p);
  quiet_send fd s : keeps_history (E:=E) (so_send fd s);
  quiet_recv_all fd : keeps_history (E:=E) (so_recv_all fd);
  quiet_close fd : keeps_history (E:=E) (so_close fd);
}.

(** Walks through a computation made of quiet calls. *)
Ltac quiet :=
  lazymatch goal with
  | |- keeps_history (mret _) => apply keeps_history_ret
  | |- keeps_history (_ ≫= _) => apply keeps_history_bind; [quiet | intros ?; quiet]
  | |- keeps_history (if ?b then _ else _) => destruct b; quiet
  | |- keeps_history (match ?x with _ => _ end) => destruct x; quiet
  | |- _ => first
      [ apply quiet_now | apply quiet_sleep | apply quiet_socket | apply quiet_set_timeouts
      | apply quiet_gethostbyname | apply quiet_connect | apply quiet_send
      | apply quiet_recv_all | apply quiet_close | idtac ]
  end.

(** ** Ledger: what a history of the backend amounts to *)

Definition is_created (ev : backend_event) : Prop := ∃ i, ev = Created i.
#[export] Instance is_created_dec ev : Decision (is_created ev).
Proof. destruct ev; [left; by eexists|right; by intros [? ?]]. Defined.
Definition creations (h : list backend_event) : nat := length (filter is_created h).

Lemma creations_app h h' : creations (h ++ h') = (creations h + creations h')%nat.
Proof. unfold creations. by rewrite filter_app, length_app. Qed.

Lemma creations_one i : creations [Created i] = 1%nat.
Proof. reflexivity. Qed.
Lemma creations_removed i : creations [Removed i] = 0%nat.
Proof. reflexivity. Qed.
Lemma creations_discarded i : creations [Created i; Removed i] = 1%nat.
Proof. reflexivity. Qed.

(** Every container is created once, and removed at most once and after that. *)
Definition ledger_ok (h : list backend_event) : Prop :=
  NoDup h ∧ ∀ i, Removed i ∈ h → Created i ∈ h ∧ i ∉ live h.

Lemma live_not_Removed h i : ledger_ok h → i ∈ live h → Removed i ∉ h.
Proof. intros [_ Hr] Hl Hin. by apply Hr in Hin as [_ ?]. Qed.

Lemma ledger_created h i :
  ledger_ok h → Created i ∉ h → Removed i ∉ h → ledger_ok (h ++ [Created i]).
Proof.
  intros [Hnd Hr] HC HR. split.
  - apply NoDup_app. split_and!; [done| |apply NoDup_singleton]. set_solver.
  - intros j [Hj|?]%elem_of_app; [|set_solver]. destruct (Hr j Hj) as [? ?].
    split; [set_solver|]. rewrite live_snoc. simpl. set_solver.
Qed.
Lemma ledger_removed h i :
  ledger_ok h → i ∈ live h → ledger_ok (h ++ [Removed i]).
Proof.
  intros Hok Hl. pose proof (live_not_Removed h i Hok Hl) as HnR.
  destruct Hok as [Hnd Hr]. split.
  - apply NoDup_app. split_and!; [done| |apply NoDup_singleton]. set_solver.
  - intros j [Hj|Hj]%elem_of_app; rewrite live_snoc; simpl.
    + destruct (Hr j Hj). set_solver.
    + apply list_elem_of_singleton in Hj as [= ->].
      split; [|set_solver]. apply elem_of_app. left. by apply live_Created.
Qed.

(** The history of the backend when the manager was constructed: what earlier
    processes did, and the containers they left running. *)
Class Before : Type := before : list backend_event.

(** ** Effects *)

Section effects.
  Context {E : Type} `{Clock E, ContainerBackend E, Sockets E, BackendHistory E}.
  Context `{!BackendSpec E, !QuietWorld E} {past : Before}.
  Implicit Types (m : Manager E) (e : E).

Lemma keeps_request c method path body ct t : keeps_history (request c method path body ct t).
Proof. unfold request, resolve. quiet. Qed.
Lemma keeps_elapsed_ms start : keeps_history (elapsed_ms start).
Proof. unfold elapsed_ms. quiet. Qed.
Lemma keeps_is_healthy port : keeps_history (is_healthy port).
Proof. unfold is_healthy, get. quiet. apply keeps_request. Qed.
Lemma keeps_await_healthy n port : keeps_history (await_healthy n port).
Proof. induction n as [|n IH]; simpl; quiet; [apply keeps_is_healthy|apply IH]. Qed.

(** [start_runtime] adds one creation when it succeeds; when it fails, either
    nothing or one creation and the removal of the same container. *)
Definition started_ok (spec : FunctionSpec) (h : list backend_event)
    (r : Runtime + string) (h' : list backend_event) : Prop :=
  match r with
  | inl rt =>
      Created (rt_container_id rt) ∉ h ∧ Removed (rt_container_id rt) ∉ h ∧
      h' = h ++ [Created (rt_container_id rt)] ∧
      0 < rt_host_port rt ∧ rt_idle_timeout_ms rt = idle_timeout_ms spec
  | inr _ =>
      h' = h ∨
      ∃ i, Created i ∉ h ∧ Removed i ∉ h ∧ h' = h ++ [Created i; Removed i]
  end.

Lemma start_runtime_effect spec e :
  started_ok spec (history e) (start_runtime spec e).1 (history (start_runtime spec e).2).
Proof.
  unfold start_runtime. generalize kReadinessAttempts as n. intros n. rewrite st_bind_run.
  pose proof (run_container_spec (image spec) kContainerPort e) as Hrun.
  destruct (run_container _ _ e) as [run e1]. destruct Hrun as [Hh Hfresh]. simpl.
  destruct (ok run); simpl; [|by left]. destruct Hfresh as [HC HR]; [done|].
  assert (∀ e', history e' = history e1 →
            history (remove_container (id run) e').2
            = history e ++ [Created (id run); Removed (id run)]) as Hrm.
  { intros e' He'. rewrite remove_container_spec; rewrite He', Hh; [by rewrite <-app_assoc|].
    rewrite live_snoc. set_solver. }
  rewrite st_bind_run. pose proof (get_host_port_spec (id run) kContainerPort e1) as Hp.
  destruct (get_host_port _ _ e1) as [port e2]. simpl in *.
  case_decide as Hport.
  - rewrite st_bind_run. simpl. right. exists (id run). eauto.
  - rewrite st_bind_run. pose proof (keeps_await_healthy n port e2) as Hk.
    destruct (await_healthy _ port e2) as [[] e3]; simpl in Hk |- *.
    + split_and!; try done; [by rewrite Hk, Hp|lia].
    + rewrite st_bind_run. simpl. right. exists (id run). split_and!; try done.
      apply Hrm. by rewrite Hk.
Qed.

Lemma outside_run {A} (c : St E A) m :
  outside c m = ((c (world m)).1, set_world (c (world m)).2 m).
Proof. unfold outside, zoom. by destruct (c (world m)). Qed.

(** ** The invariant of the mutex *)

Record lock_inv (m : Manager E) : Prop := {
  inv_ledger : ledger_ok (history (world m));
  inv_live i : i ∈ live (history (world m)) ↔
               i ∈ live before ∨ ∃ f rt, runtimes_ m !! f = Some rt ∧ rt_container_id rt = i;
  inv_distinct f g rt rt' :
    runtimes_ m !! f = Some rt → runtimes_ m !! g = Some rt' →
    rt_container_id rt = rt_container_id rt' → f = g;
  inv_state f rt : runtimes_ m !! f = Some rt →
    (rt_state rt = BUSY ∨ rt_state rt = IDLE) ∧ 0 < rt_host_port rt;
  inv_balance : runtimes_created_ (metrics_ m)
                = Z.of_nat (size (runtimes_ m)) + total (runtimes_terminated_ (metrics_ m));
  inv_before : before `prefix_of` history (world m);
  inv_new f rt : runtimes_ m !! f = Some rt → Created (rt_container_id rt) ∉ before;
  inv_metrics : ∃ evs, metrics_ m = replay evs;
}.

Lemma lock_inv_new e : history e = before → ledger_ok before → lock_inv (new_manager e).
Proof.
  intros He Hok. split; simpl; rewrite ?He; try done.
  - intros i. split; [by left|]. by intros [?|(f & rt & Hf & _)].
  - by exists [].
Qed.

(** A replayed registry after one more event. *)
Lemma replayed_event met met' ev :
  (∃ evs, met = replay evs) → met' = apply_event met ev → ∃ evs, met' = replay evs.
Proof. intros [evs ->] ->. exists (evs ++ [ev]). by rewrite replay_snoc. Qed.

(** A step of the clock or the network changes nothing the invariant is about. *)
Lemma lock_inv_world e m :
  history e = history (world m) → lock_inv m → lock_inv (set_world e m).
Proof. intros He []. by split; simpl; rewrite ?He. Qed.

Lemma lock_inv_outside {A} (c : St E A) m :
  keeps_history c → lock_inv m → lock_inv (outside c m).2.
Proof. rewrite outside_run. intros Hc. by apply lock_inv_world. Qed.

Lemma lock_inv_tracked_live m f rt :
  lock_inv m → runtimes_ m !! f = Some rt → rt_container_id rt ∈ live (history (world m)).
Proof. intros Hm Hf. apply (inv_live m Hm). eauto. Qed.

(** Recording an invocation touches no counter of the invariant. *)
Lemma lock_inv_record_result r m : lock_inv m → lock_inv (record_result r m).2.
Proof.
  intros [Hl Hlive Hd Hs Hb Hbf Hnew Hmet]. split; try done.
  by eapply (replayed_event _ _ (Invoked _ _ _)).
Qed.

(** *** A new state for a tracked runtime *)
Lemma lock_inv_set_used m f rt st now :
  lock_inv m → runtimes_ m !! f = Some rt → st = BUSY ∨ st = IDLE →
  lock_inv (set_runtimes <[f := set_used st now rt]> m).
Proof.
  intros [Hl Hlive Hd Hs Hb Hbf Hnew Hmet] Hf Hst.
  assert (∀ g r, <[f := set_used st now rt]> (runtimes_ m) !! g = Some r →
    ∃ r', runtimes_ m !! g = Some r' ∧ rt_container_id r = rt_container_id r' ∧
          rt_host_port r = rt_host_port r' ∧
          (rt_state r = BUSY ∨ rt_state r = IDLE)) as Hback.
  { intros g r. rewrite lookup_insert_Some. intros [[<- <-]|[Hne Hg]]; [by exists rt|].
    exists r. split_and!; try done. by apply (Hs g). }
  split; simpl; [done| | | | |done| |done].
  - intros i. rewrite Hlive. apply or_iff_compat_l. split; intros (g & r & Hg & Hi).
    + destruct (decide (f = g)) as [-> |Hne].
      * exists g, (set_used st now rt). rewrite lookup_insert_eq. simplify_eq. done.
      * exists g, r. by rewrite lookup_insert_ne.
    + destruct (Hback g r Hg) as (r' & Hg' & Hi' & _). exists g, r'. by rewrite <-Hi'.
  - intros g g' r r' Hg Hg' Heq. destruct (Hback g r Hg) as (s & ? & ? & _).
    destruct (Hback g' r' Hg') as (s' & ? & ? & _). eapply (Hd g g' s s'); congruence.
  - intros g r Hg. destruct (Hback g r Hg) as (s & Hgs & _ & Hp & ?).
    split; [done|]. rewrite Hp. by apply (Hs g).
  - by rewrite map_size_insert_Some by (by rewrite Hf).
  - intros g r Hg. destruct (Hback g r Hg) as (s & Hgs & -> & _). by eapply Hnew.
Qed.

(** *** A runtime leaves *)
Lemma retire_run f i reason m :
  i ∈ live (history (world m)) →
  let m' := (retire f i reason m).2 in
  runtimes_ m' = delete f (runtimes_ m) ∧
  metrics_ m' = record_runtime_terminated reason (metrics_ m) ∧
  history (world m') = history (world m) ++ [Removed i].
Proof.
  intros Hi. unfold retire. rewrite st_bind_run, outside_run. simpl.
  by rewrite remove_container_spec.
Qed.

Lemma lock_inv_retire m f rt reason :
  lock_inv m → runtimes_ m !! f = Some rt →
  lock_inv (retire f (rt_container_id rt) reason m).2.
Proof.
  intros Hm Hf. pose proof (lock_inv_tracked_live m f rt Hm Hf) as Hlv.
  destruct (retire_run f (rt_container_id rt) reason m Hlv) as (Hr & Hmt & Hh).
  destruct Hm as [Hl Hlive Hd Hs Hb Hbf Hnew Hmet]. split; rewrite ?Hr, ?Hmt, ?Hh.
  - by apply ledger_removed.
  - intros i. rewrite live_snoc. simpl. rewrite elem_of_difference, elem_of_singleton, Hlive.
    split.
    + intros [[?|(g & r & Hg & Hi)] Hne]; [by left|right]. exists g, r.
      rewrite lookup_delete_ne; [done|]. intros ->. simplify_eq.
    + intros [Ho|(g & r & [Hne Hg]%lookup_delete_Some & Hi)].
      * split; [by left|]. intros ->. by apply (Hnew f rt Hf), live_Created.
      * split; [by eauto|]. intros ->. apply Hne. by eapply Hd.
  - intros g g' r r' [_ Hg]%lookup_delete_Some [_ Hg']%lookup_delete_Some. by eapply Hd.
  - intros g r [_ Hg]%lookup_delete_Some. by eapply Hs.
  - simpl. rewrite total_increment. rewrite Hb.
    rewrite map_size_delete_Some by (by rewrite Hf).
    enough (0 < size (runtimes_ m))%nat by lia.
    assert (size (runtimes_ m) ≠ 0%nat); [|lia]. apply (map_size_ne_0_lookup_2 _ f). by rewrite Hf.
  - by apply prefix_app_r.
  - intros g r [_ Hg]%lookup_delete_Some. by eapply Hnew.
  - by eapply (replayed_event _ _ (RuntimeTerminated reason)).
Qed.

(** *** A runtime joins *)
Lemma lock_inv_join m m' f rt now :
  lock_inv m → runtimes_ m !! f = None →
  Created (rt_container_id rt) ∉ history (world m) →
  Removed (rt_container_id rt) ∉ history (world m) →
  0 < rt_host_port rt →
  runtimes_ m' = <[f := set_used BUSY now rt]> (runtimes_ m) →
  metrics_ m' = record_runtime_created (metrics_ m) →
  history (world m') = history (world m) ++ [Created (rt_container_id rt)] →
  lock_inv m'.
Proof.
  intros [Hl Hlive Hd Hs Hb Hbf Hnew Hmet] Hf HC HR Hp Hr Hmt Hh.
  assert (∀ g r, runtimes_ m !! g = Some r → rt_container_id r ≠ rt_container_id rt) as Hfresh.
  { intros g r Hg Heq. apply HC. apply live_Created. apply Hlive. eauto. }
  split; rewrite ?Hr, ?Hmt, ?Hh.
  - by apply ledger_created.
  - intros i. rewrite live_snoc. simpl. rewrite elem_of_union, elem_of_singleton, Hlive.
    split.
    + intros [-> |[?|(g & r & Hg & Hi)]]; [right|by left|right].
      * exists f, (set_used BUSY now rt). by rewrite lookup_insert_eq.
      * exists g, r. rewrite lookup_insert_ne; [done|]. intros ->. congruence.
    + intros [?|(g & r & [[<- <-]|[Hne Hg]]%lookup_insert_Some & Hi)]; [by auto|by left|].
      right. eauto.
  - intros g g' r r' [[<- <-]|[Hne Hg]]%lookup_insert_Some
      [[<- <-]|[Hne' Hg']]%lookup_insert_Some Heq; simpl in *; try done.
    + by destruct (Hfresh g' r' Hg').
    + by destruct (Hfresh g r Hg).
    + by eapply Hd.
  - intros g r [[<- <-]|[Hne Hg]]%lookup_insert_Some; simpl; [auto|]. by eapply Hs.
  - rewrite map_size_insert_None by done. simpl. lia.
  - by apply prefix_app_r.
  - intros g r [[<- <-]|[Hne Hg]]%lookup_insert_Some; simpl; [|by eapply Hnew].
    intros Hin. apply HC. by eapply elem_of_prefix.
  - by eapply (replayed_event _ _ RuntimeCreated).
Qed.

(** ** [acquire] *)

Definition acquired (spec : FunctionSpec) (m m' : Manager E) (a : attempt) : Prop :=
  match a with
  | StartFailed _ =>
      runtimes_ m !! name spec = None ∧
      runtimes_ m' = runtimes_ m ∧ metrics_ m' = metrics_ m ∧
      (history (world m') = history (world m) ∨
       ∃ i, (Created i ∉ history (world m)) ∧ (Removed i ∉ history (world m)) ∧
            history (world m') = history (world m) ++ [Created i; Removed i])
  | Acquired cold_start host_port container_id =>
      ∃ rt now,
        rt_container_id rt = container_id ∧ rt_host_port rt = host_port ∧
        runtimes_ m' = <[name spec := set_used BUSY now rt]> (runtimes_ m) ∧
        if cold_start then
          runtimes_ m !! name spec = None ∧
          (Created container_id ∉ history (world m)) ∧
          (Removed container_id ∉ history (world m)) ∧
          0 < host_port ∧ rt_idle_timeout_ms rt = idle_timeout_ms spec ∧
          metrics_ m' = record_runtime_created (metrics_ m) ∧
          history (world m') = history (world m) ++ [Created container_id]
        else
          runtimes_ m !! name spec = Some rt ∧
          metrics_ m' = metrics_ m ∧ history (world m') = history (world m)
  end.

Lemma acquire_effect spec m : acquired spec m (acquire spec m).2 (acquire spec m).1.
Proof.
  unfold acquire, find_runtime. rewrite st_bind_run. cbn [fst snd].
  assert (∀ cold rt m1, (claim spec cold rt m1) =
    (Acquired cold (rt_host_port rt) (rt_container_id rt),
     let e := world m1 in
     set_runtimes <[name spec := set_used BUSY (steady_now e).1 rt]>
       (set_world (steady_now e).2 m1))) as Hclaim.
  { intros. unfold claim. rewrite st_bind_run, outside_run. done. }
  destruct (runtimes_ m !! name spec) as [rt|] eqn:Hf.
  - rewrite Hclaim. simpl. exists rt, (steady_now (world m)).1. rewrite quiet_now. done.
  - rewrite st_bind_run, outside_run. cbn [fst snd].
    pose proof (start_runtime_effect spec (world m)) as Hst.
    destruct (start_runtime spec (world m)) as [[rt|err] e]; simpl in Hst.
    + destruct Hst as (HC & HR & Hh & Hp & Hi).
      cbn [fst snd]. rewrite !st_bind_run, Hclaim. simpl. eexists rt, _. split_and!; try done.
      * by rewrite insert_insert_eq.
      * by rewrite quiet_now.
    + simpl. done.
Qed.

Lemma lock_inv_acquire spec m : lock_inv m → lock_inv (acquire spec m).2.
Proof.
  intros Hm. pose proof (acquire_effect spec m) as Heff.
  destruct (acquire spec m) as [[err|[] port cid] m']; simpl in *.
  - destruct Heff as (Hf & Hr & Hmt & Hh). destruct Hm as [Hl Hlive Hd Hs Hb Hbf Hnew Hmet].
    destruct Hh as [Hh|(i & HC & HR & Hh)].
    + split; rewrite ?Hr, ?Hmt, ?Hh; done.
    + change [Created i; Removed i] with ([Created i] ++ [Removed i]) in Hh.
      rewrite app_assoc in Hh.
      assert (i ∉ live (history (world m))) as Hni by (by intros ?%live_Created).
      split; rewrite ?Hr, ?Hmt, ?Hh; try done.
      * apply ledger_removed; [by apply ledger_created|]. rewrite live_snoc. simpl. set_solver.
      * intros j. rewrite <-Hlive, !live_snoc. simpl. set_solver.
      * by do 2 apply prefix_app_r.
  - destruct Heff as (rt & now & <- & <- & Hr & Hf & HC & HR & Hp & Hi & Hmt & Hh).
    by apply (lock_inv_join m m' (name spec) rt now).
  - destruct Heff as (rt & now & <- & <- & Hr & Hf & Hmt & Hh).
    pose proof (lock_inv_set_used m (name spec) rt BUSY now Hm Hf) as Hi.
    destruct Hi as [Hl Hlive Hd Hs Hb Hbf Hnew Hmet]; [by left|]. simpl in *.
    split; rewrite ?Hr, ?Hmt, ?Hh; done.
Qed.

(** ** [settle] *)

(** The runtime a finished call still owns: the entry of its function, if that is
    the container the call went to. *)
Definition tracked (f cid : string) (m : Manager E) : option Runtime :=
  match runtimes_ m !! f with
  | Some rt => if decide (rt_container_id rt = cid) then Some rt else None
  | None => None
  end.

(** Why a reply makes the manager tear the runtime down, if it does. *)
Definition verdict (resp : ClientResponse) : option string :=
  if cr_timed_out resp then Some "timeout"
  else if cr_ok resp then None else Some "dead".

Definition result_of (spec : FunctionSpec) (cold_start : bool) (duration_ms : Z)
    (resp : ClientResponse) : InvocationResult := {|
  inv_status :=
    if cr_timed_out resp then "timeout"
    else if negb (cr_ok resp) then "infra_error"
    else if in_2xx (cr_status resp) then "success" else "error";
  inv_output :=
    if cr_timed_out resp then timeout_message spec
    else if negb (cr_ok resp) then cr_error resp else cr_body resp;
  inv_duration_ms := duration_ms;
  inv_cold_start := cold_start;
|}.

Definition settled_state (f cid : string) (resp : ClientResponse) (m : Manager E) : Manager E :=
  match tracked f cid m, verdict resp with
  | None, _ => m
  | Some _, Some reason => (retire f cid reason m).2
  | Some rt, None => (release f rt m).2
  end.

Lemma settle_run spec cold cid d resp m :
  settle spec cold cid d resp m
  = ((result_of spec cold d resp, bool_decide (verdict resp = Some "dead")),
     settled_state (name spec) cid resp m).
Proof.
  unfold settle, find_runtime, settled_state, tracked, verdict, result_of.
  rewrite st_bind_run. cbn [fst snd].
  destruct (cr_timed_out resp), (cr_ok resp), (runtimes_ m !! name spec) as [rt|];
    simpl; try case_decide; rewrite ?st_bind_run; done.
Qed.

Lemma release_run f rt m :
  let m' := (release f rt m).2 in
  runtimes_ m' = <[f := set_used IDLE (steady_now (world m)).1 rt]> (runtimes_ m) ∧
  metrics_ m' = metrics_ m ∧ history (world m') = history (world m).
Proof.
  unfold release. rewrite st_bind_run, outside_run. simpl. by rewrite quiet_now.
Qed.

Lemma tracked_Some f cid m rt :
  tracked f cid m = Some rt → runtimes_ m !! f = Some rt ∧ rt_container_id rt = cid.
Proof. unfold tracked. case_match; [|done]. case_decide; naive_solver. Qed.

Lemma lock_inv_release m f rt :
  lock_inv m → runtimes_ m !! f = Some rt → lock_inv (release f rt m).2.
Proof.
  intros Hm Hf. destruct (release_run f rt m) as (Hr & Hmt & Hh).
  destruct (lock_inv_set_used m f rt IDLE (steady_now (world m)).1 Hm Hf) as [Hl Hlive Hd Hs Hb Hbf Hnew Hmet];
    [by right|]. simpl in *. split; rewrite ?Hr, ?Hmt, ?Hh; done.
Qed.

Lemma lock_inv_settle spec cold cid d resp m :
  lock_inv m → lock_inv (settle spec cold cid d resp m).2.
Proof.
  intros Hm. rewrite settle_run. simpl. unfold settled_state.
  destruct (tracked _ _ m) as [rt|] eqn:Ht; [|done].
  apply tracked_Some in Ht as [Hf <-].
  destruct (verdict resp); [by apply lock_inv_retire|by apply lock_inv_release].
Qed.

(** ** [reap_pass], [terminate] *)

Lemma reap_entries_inv now entries m :
  NoDup entries.*1 →
  Forall (λ p, runtimes_ m !! p.1 = Some p.2) entries →
  lock_inv m → lock_inv (reap_entries now entries m).2.
Proof.
  revert m. induction entries as [|[f rt] entries IH]; intros m; [done|].
  rewrite fmap_cons, NoDup_cons, Forall_cons. intros [Hnf Hnd] [Hf Hes] Hm. simpl in *.
  rewrite st_bind_run. destruct (expired now rt); [|by apply IH].
  apply IH; [done| |by apply lock_inv_retire].
  destruct (retire_run f (rt_container_id rt) "idle_timeout" m) as [Hr _];
    [by eapply lock_inv_tracked_live|].
  rewrite Hr. apply Forall_forall. intros [g r] Hg. rewrite Forall_forall in Hes.
  simpl. rewrite lookup_delete_ne; [by apply (Hes (g, r))|]. intros ->.
  apply Hnf. apply list_elem_of_fmap. by exists (g, r).
Qed.

Lemma map_entries_valid {A} (rs : gmap string A) :
  NoDup (map_entries rs).*1 ∧ Forall (λ p, rs !! p.1 = Some p.2) (map_entries rs).
Proof.
  split.
  - rewrite map_entries_Permutation. apply NoDup_fst_map_to_list.
  - apply Forall_forall. intros [f rt]. by rewrite elem_of_map_entries.
Qed.

Lemma lock_inv_reap_pass m : lock_inv m → lock_inv (reap_pass m).2.
Proof.
  intros Hm. unfold reap_pass. rewrite st_bind_run, outside_run, st_bind_run. simpl.
  destruct (map_entries_valid (runtimes_ m)) as [Hnd Hes].
  apply reap_entries_inv; [done|done|]. apply lock_inv_world; [apply quiet_now|done].
Qed.

Lemma lock_inv_terminate f m : lock_inv m → lock_inv (terminate f m).2.
Proof.
  intros Hm. unfold terminate, find_runtime. rewrite st_bind_run. cbn [fst snd].
  destruct (runtimes_ m !! f) as [rt|] eqn:Hf; [|done]. by apply lock_inv_retire.
Qed.
End effects.
