(* ===== verification/Worlds.v ===== *)
(** * Worlds seen through an invariant

    What a process knows of the world it runs in: views that its clock and its
    sockets leave alone, and the states of the world that satisfy an invariant every
    operation preserves, as a world of their own. A contract that holds only of such
    states is then a contract of that world. *)

From S2P Require Import Prelude CppStd StringFacts ContainerBackend Http HttpClient.
From S2P Require Import RuntimeManager RuntimeInvariant.

(** ** Views that clock and sockets leave alone *)

Class Quiet {E B : Type} `{Clock E, Sockets E} (view : E → B) : Prop := {
  quiet_view_now e : view (steady_now e).2 = view e;
  quiet_view_sleep ms e : view (sleep_for_ms ms e).2 = view e;
  quiet_view_socket e : view (so_socket e).2 = view e;
  quiet_view_set_timeouts fd s us e : view (so_set_timeouts fd s us e).2 = view e;
  quiet_view_gethostbyname h e : view (so_gethostbyname h e).2 = view e;
  quiet_view_connect fd a p e : view (so_connect fd a p e).2 = view e;
  quiet_view_send fd s e : view (so_send fd s e).2 = view e;
  quiet_view_recv_all fd e : view (so_recv_all fd e).2 = view e;
  quiet_view_close fd e : view (so_close fd e).2 = view e;
}.

Lemma quiet_history {E} `{Clock E, Sockets E, BackendHistory E} :
  Quiet (history (E:=E)) → QuietWorld E.
Proof. intros []. by split. Qed.

Lemma quiet_of_history {E} `{QuietWorld E} : Quiet (history (E:=E)).
Proof. by split; intros; apply quiet_now || apply quiet_sleep || apply quiet_socket
  || apply quiet_set_timeouts || apply quiet_gethostbyname || apply quiet_connect
  || apply quiet_send || apply quiet_recv_all || apply quiet_close. Qed.

(** ** Computations that preserve an invariant *)

Section restrict.
  Context {S : Type} (P : S → Prop).

Definition preserves {A} (m : St S A) : Prop := ∀ s, P s → P (m s).2.

Definition restrict {A} (m : St S A) (Hm : preserves m) : St (sig P) A := λ s,
  ((m (`s)).1, exist P (m (`s)).2 (Hm (`s) (proj2_sig s))).

Lemma restrict_result {A} (m : St S A) Hm s : (restrict m Hm s).1 = (m (`s)).1.
Proof. done. Qed.
Lemma restrict_state {A} (m : St S A) Hm s : proj1_sig (restrict m Hm s).2 = (m (proj1_sig s)).2.
Proof. done. Qed.
End restrict.

(** A backend, a clock and sockets that preserve an invariant of the world. *)
Class WorldInvariant {E : Type} `{Clock E, ContainerBackend E, Sockets E} (P : E → Prop) : Prop := {
  invariant_run image port : preserves P (run_container image port);
  invariant_port i port : preserves P (get_host_port i port);
  invariant_remove i : preserves P (remove_container i);
  invariant_now : preserves P steady_now;
  invariant_sleep ms : preserves P (sleep_for_ms ms);
  invariant_socket : preserves P so_socket;
  invariant_set_timeouts fd s us : preserves P (so_set_timeouts fd s us);
  invariant_gethostbyname h : preserves P (so_gethostbyname h);
  invariant_connect fd a p : preserves P (so_connect fd a p);
  invariant_send fd s : preserves P (so_send fd s);
  invariant_recv_all fd : preserves P (so_recv_all fd);
  invariant_close fd : preserves P (so_close fd);
}.

Section within.
  Context {E : Type} `{Clock E, ContainerBackend E, Sockets E}.
  Context (P : E → Prop) `{!WorldInvariant P}.

(** The states of the world that satisfy [P], with the same operations. *)
Definition Within : Type := sig P.

#[export] Instance within_clock : Clock Within := {|
  steady_now := restrict P steady_now invariant_now;
  sleep_for_ms ms := restrict P (sleep_for_ms ms) (invariant_sleep ms);
|}.
#[export] Instance within_backend : ContainerBackend Within := {|
  run_container image port := restrict P (run_container image port) (invariant_run image port);
  get_host_port i port := restrict P (get_host_port i port) (invariant_port i port);
  remove_container i := restrict P (remove_container i) (invariant_remove i);
|}.
#[export] Instance within_sockets : Sockets Within := {|
  so_addr := so_addr (E:=E);
  so_socket := restrict P so_socket invariant_socket;
  so_set_timeouts fd s us := restrict P (so_set_timeouts fd s us) (invariant_set_timeouts fd s us);
  so_inet_pton := so_inet_pton;
  so_gethostbyname h := restrict P (so_gethostbyname h) (invariant_gethostbyname h);
  so_connect fd a p := restrict P (so_connect fd a p) (invariant_connect fd a p);
  so_send fd s := restrict P (so_send fd s) (invariant_send fd s);
  so_recv_all fd := restrict P (so_recv_all fd) (invariant_recv_all fd);
  so_close fd := restrict P (so_close fd) (invariant_close fd);
|}.

(** A quiet view of the world is a quiet view of these states. *)
Lemma within_quiet {B C} (view : E → B) (f : B → C) :
  Quiet view → Quiet (λ s : Within, f (view (`s))).
Proof. by intros []; split; intros; simpl; f_equal. Qed.
End within.

(** An invariant that depends on a quiet view only is left to the backend. *)
Lemma quiet_invariant {E B} `{Clock E, ContainerBackend E, Sockets E} (view : E → B)
    (P : E → Prop) :
  Quiet view → (∀ e e', view e' = view e → P e → P e') →
  (∀ image port, preserves P (run_container image port)) →
  (∀ i port, preserves P (get_host_port i port)) →
  (∀ i, preserves P (remove_container i)) →
  WorldInvariant P.
Proof. intros [] HP ? ? ?. split; try done; intros ** e; apply HP; auto. Qed.
