(* ===== verification/KubernetesContract.v ===== *)
(** * The Kubernetes backend keeps the backend contract

    On a cluster whose [kubectl] behaves as documented, the runtimes a process
    starts and stops through [KubernetesClient] obey the contract of the interface, and
    a pod it created is left behind only if [kubectl delete pod] failed. A
    runtime is a pod with its service: it exists from the moment [kubectl expose]
    succeeds. The contract's fresh ids come from the process's pod-name counter, so
    it holds of the states of the process in which the counter is ahead of every
    name in use ([kube_inv]). *)

From S2P Require Import Prelude CppStd StringFacts ShellExec ContainerBackend KubernetesClient.
From S2P Require Import DockerClient FunctionModel Http HttpClient RuntimeManager.
From S2P Require Import RuntimeInvariant Worlds.
Import KubernetesClient.

(** ** The process's clock and sockets are the world's *)

#[export] Instance kube_clock {E} `{Clock E} : Clock (KubeProc E) := {|
  steady_now := on_world steady_now;
  sleep_for_ms ms := on_world (sleep_for_ms ms);
|}.
#[export] Instance kube_sockets {E} `{Sockets E} : Sockets (KubeProc E) := {|
  so_addr := so_addr (E:=E);
  so_socket := on_world so_socket;
  so_set_timeouts fd s us := on_world (so_set_timeouts fd s us);
  so_inet_pton := so_inet_pton;
  so_gethostbyname h := on_world (so_gethostbyname h);
  so_connect fd a p := on_world (so_connect fd a p);
  so_send fd s := on_world (so_send fd s);
  so_recv_all fd := on_world (so_recv_all fd);
  so_close fd := on_world (so_close fd);
|}.
#[export] Instance kube_backend {E} `{Shell E, Clock E} : ContainerBackend (KubeProc E) :=
  KubernetesClient.backend.

Lemma on_world_run {E A} (m : St E A) (s : KubeProc E) :
  on_world m s = ((m (kube_world s)).1,
                  {| pod_counter := pod_counter s; kube_world := (m (kube_world s)).2 |}).
Proof. unfold on_world, zoom. by destruct (m _). Qed.

(** ** The cluster *)

(** What the process did to the cluster. *)
Inductive pod_event : Type :=
  | PodCreated (name : string)
  | PodDeleted (name : string)
  | DeleteFailed (name : string)       (* [kubectl delete pod] failed, and the pod stayed *)
  | ServiceCreated (name : string)
  | ServiceDeleted (name : string).

#[export] Instance pod_event_eq_dec : EqDecision pod_event.
Proof. solve_decision. Defined.

Class PodLog (E : Type) : Type := pod_log : E → list pod_event.

Definition live_pod_step (s : gset string) (ev : pod_event) : gset string :=
  match ev with
  | PodCreated n => {[n]} ∪ s
  | PodDeleted n => s ∖ {[n]}
  | _ => s
  end.
(** The pods the process created and did not delete. *)
Definition live_pods (log : list pod_event) : gset string := foldl live_pod_step ∅ log.

(** The runtimes in that log: a pod becomes one when its service is created. *)
Definition runtime_step (h : list backend_event) (ev : pod_event) : list backend_event :=
  match ev with
  | ServiceCreated n => h ++ [Created n]
  | PodDeleted n => if decide (Created n ∈ h) then h ++ [Removed n] else h
  | _ => h
  end.
Definition runtime_events (log : list pod_event) : list backend_event := foldl runtime_step [] log.

Lemma live_pods_snoc log ev : live_pods (log ++ [ev]) = live_pod_step (live_pods log) ev.
Proof. unfold live_pods. by rewrite foldl_app. Qed.
Lemma runtime_events_snoc log ev :
  runtime_events (log ++ [ev]) = runtime_step (runtime_events log) ev.
Proof. unfold runtime_events. by rewrite foldl_app. Qed.

(** [kubectl], called with the arguments [KubernetesClient] gives it: [run] creates
    the pod or fails, [wait] and [get] change nothing, [expose] creates the service
    or fails, [delete pod] that exits with 0 has deleted the pod, if it existed - by
    [--ignore-not-found] that is no error - and one that fails may have deleted it or
    not, and [delete svc] touches no pod. *)
Definition popen {E} `{Shell E} (argv : list string) : St E (option (list string * Z)) :=
  sh_popen (unwords argv +:+ " 2>&1").
Definition exited_0 (r : option (list string * Z)) : Prop :=
  match r with Some (_, status) => DockerClient.succeeded status | None => False end.

Class KubeCluster (E : Type) `{Shell E, PodLog E} : Prop := {
  kubectl_run_law name image port e :
    is_safe_token name = true → is_safe_token image = true →
    let '(r, e') := popen (run_argv name image port) e in
    (exited_0 r ∧ pod_log e' = pod_log e ++ [PodCreated name]) ∨
    (¬ exited_0 r ∧ pod_log e' = pod_log e);
  kubectl_wait_law name e :
    is_safe_token name = true → pod_log (popen (wait_argv name) e).2 = pod_log e;
  kubectl_expose_law name port e :
    is_safe_token name = true →
    let '(r, e') := popen (expose_argv name port) e in
    (exited_0 r ∧ pod_log e' = pod_log e ++ [ServiceCreated name]) ∨
    (¬ exited_0 r ∧ pod_log e' = pod_log e);
  kubectl_get_law i e :
    is_safe_token i = true → pod_log (popen (get_argv i) e).2 = pod_log e;
  kubectl_delete_pod_law name e :
    is_safe_token name = true →
    let '(r, e') := popen (delete_argv "pod" name) e in
    pod_log e' = (if decide (name ∈ live_pods (pod_log e)) then pod_log e ++ [PodDeleted name]
                  else pod_log e) ∨
    (¬ exited_0 r ∧ pod_log e' = pod_log e ++ [DeleteFailed name]);
  kubectl_delete_svc_law name e :
    is_safe_token name = true →
    pod_log (popen (delete_argv "svc" name) e).2 = pod_log e ∨
    pod_log (popen (delete_argv "svc" name) e).2 = pod_log e ++ [ServiceDeleted name];
}.

(** A cluster that never refuses to delete a pod. *)
Class KubeDeletes (E : Type) `{Shell E} : Prop :=
  kubectl_delete_succeeds name e :
    is_safe_token name = true → exited_0 (popen (delete_argv "pod" name) e).1.

(** ** The process *)

Definition proc_log {E} `{PodLog E} (s : KubeProc E) : list pod_event := pod_log (kube_world s).

#[export] Instance kube_history {E} `{PodLog E} : BackendHistory (KubeProc E) :=
  λ s, runtime_events (proc_log s).

Record kube_inv {E} `{PodLog E} (s : KubeProc E) : Prop := {
  kube_counter : 0 ≤ pod_counter s;
  kube_names n : PodCreated n ∈ proc_log s →
                 ∃ t c, n = pod_name t c ∧ 0 < c ≤ pod_counter s;
  kube_created n : Created n ∈ history s → PodCreated n ∈ proc_log s;
  kube_removed n : Removed n ∈ history s → Created n ∈ history s;
  kube_alive n : n ∈ live (history s) → n ∈ live_pods (proc_log s);
  (* a pod of no runtime is left of a start whose clean-up failed *)
  kube_leaks n : n ∈ live_pods (proc_log s) →
                 n ∈ live (history s) ∨ (DeleteFailed n ∈ proc_log s ∧ Created n ∉ history s);
}.

Section contract.
  Context {E : Type} `{KubeCluster E, Clock E, Sockets E}.
  Context `{!Quiet (pod_log (E:=E))}.
  Implicit Types s : KubeProc E.

Lemma kube_inv_same s s' :
  proc_log s' = proc_log s → pod_counter s ≤ pod_counter s' → kube_inv s → kube_inv s'.
Proof.
  intros Hlog Hc [Hge Hn Hcr Hr Hl Hk]. unfold history, kube_history in *.
  split; unfold history, kube_history; rewrite ?Hlog; auto; [lia|].
  intros n (t & c & -> & ?)%Hn. exists t, c. split; [done|lia].
Qed.

Lemma exec_run cmd argv s :
  cmd = unwords argv →
  let '(r, e') := popen argv (kube_world s) in
  exec cmd s = ((exec cmd s).1, {| pod_counter := pod_counter s; kube_world := e' |}) ∧
  (exit_code (exec cmd s).1 = 0 ↔ exited_0 r).
Proof.
  intros ->. unfold exec, popen. rewrite on_world_run. unfold exec_capture. rewrite st_bind_run.
  destruct (sh_popen _ (kube_world s)) as [[[blocks status]|] e']; simpl; [|done].
  by rewrite DockerClient.exit_code_succeeded.
Qed.

(** One command that may add one event to the log. *)
Lemma exec_effect cmd argv ev s :
  cmd = unwords argv →
  (let '(r, e') := popen argv (kube_world s) in
   (exited_0 r ∧ pod_log e' = proc_log s ++ [ev]) ∨ (¬ exited_0 r ∧ pod_log e' = proc_log s)) →
  let '(r, s') := exec cmd s in
  pod_counter s' = pod_counter s ∧
  proc_log s' = (if decide (exit_code r ≠ 0) then proc_log s else proc_log s ++ [ev]).
Proof.
  intros Hcmd Hlaw. pose proof (exec_run cmd argv s Hcmd) as Hrun.
  destruct (popen argv (kube_world s)) as [r e']. destruct Hrun as [-> Hx].
  split; [done|]. unfold proc_log at 1. simpl.
  destruct Hlaw as [[Hok ->]|[Hno ->]]; [rewrite decide_False|rewrite decide_True]; tauto.
Qed.

(** One command whose effect on the log is known. *)
Lemma exec_log cmd argv log s :
  cmd = unwords argv → pod_log (popen argv (kube_world s)).2 = log →
  pod_counter (exec cmd s).2 = pod_counter s ∧ proc_log (exec cmd s).2 = log.
Proof.
  intros Hcmd Hlog. pose proof (exec_run cmd argv s Hcmd) as Hrun.
  destruct (popen argv (kube_world s)) as [r e']. by destruct Hrun as [-> _].
Qed.

Lemma generate_pod_name_run s :
  let '(name, s') := generate_pod_name s in
  pod_counter s' = pod_counter s + 1 ∧ proc_log s' = proc_log s ∧
  ∃ t, name = pod_name t (pod_counter s').
Proof.
  unfold generate_pod_name. rewrite st_bind_run, on_world_run. simpl.
  split; [done|]. split; [apply (quiet_view_now (view:=pod_log))|]. by eexists.
Qed.

(** A pod that was just created is deleted again, or deleting it fails. *)
Lemma delete_created name log s :
  is_safe_token name = true → proc_log s = log ++ [PodCreated name] →
  pod_counter (exec (delete_pod_cmd name) s).2 = pod_counter s ∧
  ∃ ev, (ev = PodDeleted name ∨ ev = DeleteFailed name) ∧
        proc_log (exec (delete_pod_cmd name) s).2 = log ++ [PodCreated name; ev].
Proof.
  intros Hsn Hlog.
  destruct (exec_log (delete_pod_cmd name) (delete_argv "pod" name) _ s ltac:(command_eq) eq_refl) as [Hc Hl].
  split; [done|]. rewrite Hl. pose proof (kubectl_delete_pod_law name (kube_world s) Hsn) as Hlaw.
  destruct (popen (delete_argv "pod" name) (kube_world s)) as [r e'].
  change (pod_log (kube_world s)) with (proc_log s) in Hlaw. rewrite Hlog in Hlaw. simpl.
  rewrite decide_True in Hlaw by (rewrite live_pods_snoc; set_solver).
  destruct Hlaw as [-> |[_ ->]]; eexists; (split; [by (left + right)|by rewrite <-app_assoc]).
Qed.

Lemma run_container_effect image port s :
  let '(r, s') := run_container image port s in
  pod_counter s ≤ pod_counter s' ∧
  ((ok r = false ∧ proc_log s' = proc_log s) ∨
   ∃ t, let name := pod_name t (pod_counter s + 1) in
     pod_counter s' = pod_counter s + 1 ∧
     ((ok r = true ∧ id r = name ∧
       proc_log s' = proc_log s ++ [PodCreated name; ServiceCreated name]) ∨
      (ok r = false ∧ ∃ ev, (ev = PodDeleted name ∨ ev = DeleteFailed name) ∧
         proc_log s' = proc_log s ++ [PodCreated name; ev]))).
Proof.
  unfold run_container. destruct (is_safe_token image) eqn:Hsafe; [|by split; [|left]]. simpl.
  rewrite st_bind_run. pose proof (generate_pod_name_run s) as Hg.
  destruct (generate_pod_name s) as [name s0]. destruct Hg as (Hc0 & Hl0 & t & Hname). simpl.
  rewrite Hc0 in Hname. pose proof (pod_name_safe t (pod_counter s + 1)) as Hsn.
  rewrite <-Hname in Hsn. rewrite st_bind_run.
  match goal with |- context [exec ?c s0] =>
    pose proof (exec_effect c (run_argv name image port) (PodCreated name) s0
      ltac:(command_eq) (kubectl_run_law name image port _ Hsn Hsafe)) as Hr1;
    destruct (exec c s0) as [r1 s1] end.
  destruct Hr1 as [Hc1 Hl1]. simpl. destruct (decide (exit_code r1 ≠ 0)).
  { rewrite Hl0 in Hl1. split; [lia|by left]. }
  rewrite Hl0 in Hl1. rewrite st_bind_run.
  match goal with |- context [exec ?c s1] =>
    pose proof (exec_log c (wait_argv name) _ s1 ltac:(command_eq) (kubectl_wait_law _ _ Hsn)) as Hr2;
    destruct (exec c s1) as [r2 s2] end.
  cbn [snd] in Hr2. destruct Hr2 as [Hc2 Hl2]. change (pod_log (kube_world s1)) with (proc_log s1) in Hl2.
  rewrite Hl1 in Hl2. simpl.
  destruct (decide (exit_code r2 ≠ 0)).
  { rewrite st_bind_run. destruct (delete_created _ _ _ Hsn Hl2) as (Hc3 & ev & Hev & Hl3).
    split; [simpl; lia|]. right. exists t. rewrite <-Hname. split; [simpl; lia|]. right.
    split; [done|]. by exists ev. }
  rewrite st_bind_run.
  match goal with |- context [exec ?c s2] =>
    pose proof (exec_effect c (expose_argv name port) (ServiceCreated name) s2
      ltac:(command_eq) (kubectl_expose_law name port _ Hsn)) as Hr3;
    destruct (exec c s2) as [r3 s3] end.
  destruct Hr3 as [Hc3 Hl3]. simpl. rewrite Hl2 in Hl3.
  destruct (decide (exit_code r3 ≠ 0)).
  { rewrite st_bind_run. destruct (delete_created _ _ _ Hsn Hl3) as (Hc4 & ev & Hev & Hl4).
    split; [simpl; lia|]. right. exists t. rewrite <-Hname. split; [simpl; lia|]. right.
    split; [done|]. by exists ev. }
  split; [simpl; lia|]. right. exists t. rewrite <-Hname. split; [simpl; lia|]. left.
  split_and!; [done|done|]. simpl. by rewrite Hl3, <-app_assoc.
Qed.

Lemma fresh_name s t :
  kube_inv s → let name := pod_name t (pod_counter s + 1) in
  PodCreated name ∉ proc_log s ∧ Created name ∉ history s ∧ Removed name ∉ history s.
Proof.
  intros [Hge Hn Hcr Hr _ _]. cbv zeta.
  assert (PodCreated (pod_name t (pod_counter s + 1)) ∉ proc_log s) as Hp.
  { intros (t' & c & Heq & Hc)%Hn. apply pod_name_counter in Heq; lia. }
  naive_solver.
Qed.

(** What a successful and an abandoned start add to the log. *)
Lemma history_started log name :
  runtime_events (log ++ [PodCreated name; ServiceCreated name])
  = runtime_events log ++ [Created name].
Proof.
  change [PodCreated name; ServiceCreated name]
    with ([PodCreated name] ++ [ServiceCreated name]).
  by rewrite app_assoc, !runtime_events_snoc.
Qed.
Lemma history_abandoned log name ev :
  ev = PodDeleted name ∨ ev = DeleteFailed name →
  Created name ∉ runtime_events log →
  runtime_events (log ++ [PodCreated name; ev]) = runtime_events log.
Proof.
  intros Hev Hn. change [PodCreated name; ev] with ([PodCreated name] ++ [ev]).
  rewrite app_assoc, !runtime_events_snoc. destruct Hev as [-> | ->]; simpl; [by rewrite decide_False|done].
Qed.

(** A start that succeeded. *)
Lemma kube_inv_started s s' t :
  let name := pod_name t (pod_counter s + 1) in
  kube_inv s → pod_counter s' = pod_counter s + 1 →
  proc_log s' = proc_log s ++ [PodCreated name; ServiceCreated name] →
  kube_inv s' ∧ history s' = history s ++ [Created name].
Proof.
  intros name Hi Hc Hlog. pose proof (fresh_name s t Hi) as (HnP & HnC & HnR). fold name in HnP, HnC, HnR.
  assert (history s' = history s ++ [Created name]) as Hh.
  { unfold history, kube_history. rewrite Hlog. apply history_started. }
  assert (live_pods (proc_log s') = {[name]} ∪ live_pods (proc_log s)) as HL.
  { rewrite Hlog. change [PodCreated name; ServiceCreated name] with ([PodCreated name] ++ [ServiceCreated name]).
    by rewrite app_assoc, !live_pods_snoc. }
  split; [|done]. destruct Hi as [Hge Hn Hcr Hr Hl Hk]. split; rewrite ?Hh, ?HL, ?live_snoc; simpl.
  - lia.
  - intros x. rewrite Hlog. intros [(u & c & -> & ?)%Hn|Hx]%elem_of_app; [exists u, c; split; [done|lia]|].
    assert (x = name) as -> by set_solver. exists t, (pod_counter s + 1). split; [done|lia].
  - intros x. rewrite Hlog. set_solver.
  - set_solver.
  - set_solver.
  - intros x. rewrite Hlog, elem_of_union, elem_of_singleton. intros [-> |Hx]; [set_solver|].
    destruct (decide (x = name)) as [-> |Hne]; [set_solver|].
    destruct (Hk x Hx) as [?|[? ?]]; [set_solver|right]. split; [set_solver|].
    rewrite elem_of_app, list_elem_of_singleton. intros [?|[= ->]]; done.
Qed.

(** A start that failed: its pod is deleted again, or stays. *)
Lemma kube_inv_abandoned s s' t ev :
  let name := pod_name t (pod_counter s + 1) in
  kube_inv s → pod_counter s' = pod_counter s + 1 → ev = PodDeleted name ∨ ev = DeleteFailed name →
  proc_log s' = proc_log s ++ [PodCreated name; ev] →
  kube_inv s' ∧ history s' = history s.
Proof.
  intros name Hi Hc Hev Hlog. pose proof (fresh_name s t Hi) as (HnP & HnC & HnR). fold name in HnP, HnC, HnR.
  assert (history s' = history s) as Hh.
  { unfold history, kube_history. rewrite Hlog. by apply history_abandoned. }
  assert (∀ x, x ∈ live_pods (proc_log s') → x ∈ live_pods (proc_log s) ∨ (x = name ∧ ev = DeleteFailed name)) as HL.
  { intros x. rewrite Hlog. change [PodCreated name; ev] with ([PodCreated name] ++ [ev]).
    rewrite app_assoc, !live_pods_snoc. destruct Hev as [-> | ->]; simpl; set_solver. }
  assert (∀ x, x ∈ live_pods (proc_log s) → x ≠ name → x ∈ live_pods (proc_log s')) as HL'.
  { intros x. rewrite Hlog. change [PodCreated name; ev] with ([PodCreated name] ++ [ev]).
    rewrite app_assoc, !live_pods_snoc. destruct Hev as [-> | ->]; simpl; set_solver. }
  split; [|done]. destruct Hi as [Hge Hn Hcr Hr Hl Hk]. split; rewrite ?Hh.
  - lia.
  - intros x. rewrite Hlog. intros [(u & c & -> & ?)%Hn|Hx]%elem_of_app; [exists u, c; split; [done|lia]|].
    assert (x = name) as -> by (destruct Hev as [-> | ->]; set_solver).
    exists t, (pod_counter s + 1). split; [done|lia].
  - intros x Hx. rewrite Hlog. apply elem_of_app. left. by apply Hcr.
  - done.
  - intros x Hx. apply HL'; [by apply Hl|]. intros ->. by apply HnC, live_Created.
  - intros x [Hx|[-> ->]]%HL.
    + destruct (Hk x Hx) as [?|[? ?]]; [by left|right]. split; [|done]. rewrite Hlog. apply elem_of_app. by left.
    + right. split; [|done]. rewrite Hlog. set_solver.
Qed.

Lemma run_container_kept image port s :
  kube_inv s →
  let '(r, s') := run_container image port s in
  kube_inv s' ∧
  history s' = (if ok r then history s ++ [Created (id r)] else history s) ∧
  (ok r = true → Created (id r) ∉ history s ∧ Removed (id r) ∉ history s).
Proof.
  intros Hi. pose proof (run_container_effect image port s) as He.
  destruct (run_container image port s) as [r s'].
  destruct He as [Hle [[-> Hlog]|(t & Hc & Hcase)]].
  - split_and!; [by eapply kube_inv_same| |done].
    unfold history, kube_history. by rewrite Hlog.
  - pose proof (fresh_name s t Hi) as (_ & HnC & HnR).
    destruct Hcase as [(-> & -> & Hlog)|(-> & ev & Hev & Hlog)].
    + destruct (kube_inv_started s s' t Hi Hc Hlog) as [Hi' Hh]. done.
    + destruct (kube_inv_abandoned s s' t ev Hi Hc Hev Hlog) as [Hi' Hh]. done.
Qed.

Lemma get_host_port_kept i port s :
  pod_counter (get_host_port i port s).2 = pod_counter s ∧
  proc_log (get_host_port i port s).2 = proc_log s.
Proof.
  unfold get_host_port. destruct (is_safe_token i) eqn:Hsafe; [|done]. simpl. rewrite st_bind_run.
  match goal with |- context [exec ?c s] =>
    pose proof (exec_log c (get_argv i) _ s ltac:(command_eq) (kubectl_get_law i _ Hsafe)) as Hr;
    destruct (exec c s) as [r s'] end.
  simpl in *. by repeat case_match.
Qed.

Lemma live_pods_created log n : n ∈ live_pods log → PodCreated n ∈ log.
Proof.
  induction log as [|ev log IH] using rev_ind; [set_solver|].
  rewrite live_pods_snoc. destruct ev; simpl; set_solver.
Qed.

(** A log that lost the live pod [i], or did not. *)
Lemma kube_inv_deleted s s' i :
  kube_inv s → i ∈ live_pods (proc_log s) → pod_counter s' = pod_counter s →
  proc_log s' = proc_log s ++ [PodDeleted i] →
  kube_inv s' ∧
  history s' = (if decide (i ∈ live (history s)) then history s ++ [Removed i] else history s).
Proof.
  intros Hi Hip Hc Hlog.
  assert (history s' = if decide (i ∈ live (history s)) then history s ++ [Removed i] else history s) as Hh.
  { unfold history at 1, kube_history. rewrite Hlog, runtime_events_snoc. simpl.
    change (runtime_events (proc_log s)) with (history s).
    destruct (decide (i ∈ live (history s))) as [Hl|Hl].
    - by rewrite decide_True by (by apply live_Created).
    - rewrite decide_False; [done|]. by destruct (kube_leaks s Hi i Hip) as [?|[_ ?]]. }
  split; [|done]. destruct Hi as [Hge Hn Hcr Hr Hl Hk].
  split; rewrite ?Hh, ?Hc; [done| | | | |].
  - intros n. rewrite Hlog. set_solver.
  - intros n. rewrite Hlog. case_decide; set_solver.
  - intros n. case_decide as Hd; [|apply Hr]. pose proof (live_Created _ _ Hd). set_solver.
  - intros n. rewrite Hlog, live_pods_snoc. case_decide as Hd; [rewrite live_snoc|]; simpl.
    + rewrite !elem_of_difference. intros [? ?]. split; [by apply Hl|done].
    + intros Hx. apply elem_of_difference. split; [by apply Hl|]. by intros ->%elem_of_singleton.
  - intros n. rewrite Hlog, live_pods_snoc. simpl. intros [Hx Hne]%elem_of_difference.
    assert (n ≠ i) as Hni by set_solver. destruct (Hk n Hx) as [Hln|[Hf Hcn]].
    + left. case_decide; [rewrite live_snoc; simpl; by apply elem_of_difference|done].
    + right. split; [apply elem_of_app; by left|]. case_decide; [|done].
      rewrite elem_of_app, list_elem_of_singleton. by intros [?|?].
Qed.

Lemma kube_inv_refused s s' i :
  kube_inv s → pod_counter s' = pod_counter s → proc_log s' = proc_log s ++ [DeleteFailed i] →
  kube_inv s' ∧ history s' = history s.
Proof.
  intros [Hge Hn Hcr Hr Hl Hk] Hc Hlog.
  assert (live_pods (proc_log s') = live_pods (proc_log s)) as HL by (by rewrite Hlog, live_pods_snoc).
  assert (history s' = history s) as Hh
    by (unfold history, kube_history; by rewrite Hlog, runtime_events_snoc).
  split; [|done]. split; rewrite ?Hh, ?HL, ?Hc; [done| | |done|done|].
  - intros n. rewrite Hlog. set_solver.
  - intros n Hx. rewrite Hlog. apply elem_of_app. left. by apply Hcr.
  - intros n [?|[? ?]]%Hk; [by left|right]. split; [|done]. rewrite Hlog. apply elem_of_app. by left.
Qed.

Lemma delete_svc_kept i s :
  let cmd := "kubectl delete svc " +:+ i +:+ " --ignore-not-found --wait=false" in
  let s' := (exec cmd s).2 in
  is_safe_token i = true → kube_inv s →
  kube_inv s' ∧ history s' = history s ∧ pod_counter s' = pod_counter s ∧
  live_pods (proc_log s') = live_pods (proc_log s).
Proof.
  intros cmd s' Hsafe Hi. destruct (kubectl_delete_svc_law i (kube_world s) Hsafe) as [Hr|Hr];
    destruct (exec_log cmd (delete_argv "svc" i) _ s ltac:(command_eq) Hr) as [Hc Hl];
    change (pod_log (kube_world s)) with (proc_log s) in Hl; fold s' in Hc, Hl.
  - split_and!; [eapply kube_inv_same; [exact Hl|lia|done]| |done|by rewrite Hl].
    unfold history, kube_history. by rewrite Hl.
  - assert (live_pods (proc_log s') = live_pods (proc_log s)) as Hlive
      by (by rewrite Hl, live_pods_snoc).
    assert (history s' = history s) as Hh
      by (unfold history, kube_history; by rewrite Hl, runtime_events_snoc).
    split_and!; [|done..]. destruct Hi as [Hge Hn Hcr Hrm Hal Hle].
    split; rewrite ?Hc, ?Hh, ?Hlive; try done; [intros n; rewrite Hl; set_solver..|].
    intros n [?|[? ?]]%Hle; [by left|right]. split; [|done]. rewrite Hl. apply elem_of_app. by left.
Qed.

Lemma remove_container_kept i s :
  kube_inv s →
  let '(removed, s') := remove_container i s in
  kube_inv s' ∧
  (history s' = (if decide (i ∈ live (history s)) then history s ++ [Removed i] else history s) ∨
   (removed = false ∧ history s' = history s)).
Proof.
  intros Hi. unfold remove_container. destruct (is_safe_token i) eqn:Hsafe; simpl; [|split; [done|by right]].
  rewrite st_bind_run. destruct (delete_svc_kept i s Hsafe Hi) as (Hi1 & Hh1 & Hc1 & Hl1).
  destruct (exec _ s) as [r1 s1]. cbn [fst snd] in *. rewrite st_bind_run.
  pose proof (exec_run (delete_pod_cmd i) (delete_argv "pod" i) s1 ltac:(command_eq)) as Hrun.
  pose proof (kubectl_delete_pod_law i (kube_world s1) Hsafe) as Hlaw.
  destruct (popen (delete_argv "pod" i) (kube_world s1)) as [r e']. destruct Hrun as [Hrun Hexit].
  destruct (exec (delete_pod_cmd i) s1) as [r2 s2]. cbn [fst snd] in *. injection Hrun as ->.
  change (pod_log (kube_world s1)) with (proc_log s1) in Hlaw. simpl. rewrite <-Hh1.
  set (s2 := {| pod_counter := pod_counter s1; kube_world := e' |}).
  destruct Hlaw as [Hlog|[Hno Hlog]]; change (pod_log e') with (proc_log s2) in Hlog.
  - destruct (decide (i ∈ live_pods (proc_log s1))) as [Hlive|Hdead].
    + destruct (kube_inv_deleted s1 s2 i Hi1 Hlive eq_refl Hlog) as [Hi2 Hh2]. split; [done|by left].
    + split; [by eapply kube_inv_same|]. left.
      rewrite decide_False by (intros Hx; by apply Hdead, (kube_alive s1 Hi1)).
      unfold history, kube_history. by rewrite Hlog.
  - destruct (kube_inv_refused s1 s2 i Hi1 eq_refl Hlog) as [Hi2 Hh2]. split; [done|right]. split; [|done].
    apply bool_decide_eq_false. by rewrite Hexit.
Qed.

Lemma remove_container_succeeds `{!KubeDeletes E} i s :
  kube_inv s → i ∈ live (history s) → (remove_container i s).1 = true.
Proof.
  intros Hi Hlive. unfold remove_container.
  assert (is_safe_token i = true) as Hsafe.
  { destruct (kube_names s Hi i) as (t & c & -> & _); [|apply pod_name_safe].
    by apply (kube_created s Hi), live_Created. }
  rewrite Hsafe. simpl. rewrite st_bind_run. destruct (exec _ s) as [r1 s1]. cbn [fst snd]. rewrite st_bind_run.
  pose proof (exec_run (delete_pod_cmd i) (delete_argv "pod" i) s1 ltac:(command_eq)) as Hrun.
  pose proof (kubectl_delete_succeeds i (kube_world s1) Hsafe) as Hok.
  destruct (popen (delete_argv "pod" i) (kube_world s1)) as [r e']. destruct Hrun as [_ Hexit].
  destruct (exec (delete_pod_cmd i) s1) as [r2 s2]. simpl in *. apply bool_decide_eq_true. by apply Hexit.
Qed.

(** ** The contract *)

#[export] Instance kube_quiet : Quiet (λ s : KubeProc E, (pod_counter s, proc_log s)).
Proof.
  split; intros; simpl; rewrite on_world_run; unfold proc_log; simpl; f_equal;
    first [ apply (quiet_view_now (view:=pod_log)) | apply (quiet_view_sleep (view:=pod_log))
          | apply (quiet_view_socket (view:=pod_log))
          | apply (quiet_view_set_timeouts (view:=pod_log))
          | apply (quiet_view_gethostbyname (view:=pod_log))
          | apply (quiet_view_connect (view:=pod_log)) | apply (quiet_view_send (view:=pod_log))
          | apply (quiet_view_recv_all (view:=pod_log)) | apply (quiet_view_close (view:=pod_log)) ].
Qed.

#[export] Instance kube_world_invariant : WorldInvariant (kube_inv (E:=E)).
Proof.
  apply (quiet_invariant (λ s : KubeProc E, (pod_counter s, proc_log s))); [apply _|..].
  - intros s s' [= Hc Hl]. apply kube_inv_same; [done|lia].
  - intros image port s Hs. pose proof (run_container_kept image port s Hs) as Hr. simpl.
    by destruct (run_container image port s) as [r s'], Hr as [? _].
  - intros i port s Hs. destruct (get_host_port_kept i port s) as [Hc Hl].
    eapply kube_inv_same; [exact Hl| |exact Hs]. simpl. lia.
  - intros i s Hs. pose proof (remove_container_kept i s Hs) as Hr. simpl.
    by destruct (remove_container i s) as [r s'], Hr as [? _].
Qed.

(** The states of the process whose counter is ahead of every pod name in use, and
    the runtimes of such a state. *)
Definition KubeRun : Type := Within (kube_inv (E:=E)).
#[export] Instance kube_run_history : BackendHistory KubeRun :=
  λ w, history (proj1_sig w).
End contract.

(** C36: On a cluster whose [kubectl] behaves as documented, the Kubernetes backend
    keeps the contract of its interface, in every state a process can reach from its
    start: [run_container] creates a runtime under a fresh id or none,
    [remove_container] removes a live one or returns [false], and nothing else creates or
    removes. Every live runtime has its pod; any other pod the process created and did not
    delete is left of a start that was abandoned, and its [kubectl delete pod] failed. If
    no [kubectl delete pod] fails, removals succeed too, which is what the runtime manager
    relies on. *)
Theorem kubernetes_refines_backend E `(KubeCluster E) `(Clock E) `(Sockets E)
    `(!Quiet (pod_log (E:=E))) :
  (∀ e, pod_log e = [] → kube_inv {| pod_counter := 0; kube_world := e |}) ∧
  BackendContract (KubeRun (E:=E)) ∧ QuietWorld (KubeRun (E:=E)) ∧
  (KubeDeletes E → BackendSpec (KubeRun (E:=E))) ∧
  (∀ image port (w : KubeRun (E:=E)),
     let '(r, w') := ContainerBackend.run_container image port w in
     KubernetesClient.run_container image port (proj1_sig w) = (r, proj1_sig w')) ∧
  ∀ w : KubeRun (E:=E),
    live (history w) ⊆ live_pods (proc_log (proj1_sig w)) ∧
    ∀ n, n ∈ live_pods (proc_log (proj1_sig w)) ∖ live (history w) →
         DeleteFailed n ∈ proc_log (proj1_sig w) ∧ Created n ∉ history w.
Proof.
  assert (BackendContract (KubeRun (E:=E))) as Hcontract.
  { split.
    + intros image port [s Hs]. pose proof (run_container_kept image port s Hs) as Hr.
      unfold history, kube_run_history. simpl.
      by destruct (run_container image port s) as [r s'], Hr as [_ ?].
    + intros i port [s Hs]. destruct (get_host_port_kept i port s) as [_ Hl].
      exact (f_equal runtime_events Hl).
    + intros i [s Hs]. pose proof (remove_container_kept i s Hs) as Hr.
      unfold history, kube_run_history. simpl. intros Hi.
      destruct (remove_container i s) as [r s'], Hr as [_ Hh]. by rewrite decide_True in Hh. }
  split_and!.
  - intros e He. split; unfold history, kube_history, proc_log; simpl; rewrite ?He; set_solver.
  - exact Hcontract.
  - apply quiet_history.
    exact (within_quiet kube_inv (λ s, (pod_counter s, proc_log s))
             (λ v, runtime_events v.2) kube_quiet).
  - intros Hd. split; [exact Hcontract|]. intros i [s Hs] Hi.
    pose proof (remove_container_succeeds i s Hs Hi) as Hr. simpl. by destruct (remove_container i s).
  - intros image port [s Hs]. simpl. by destruct (run_container image port s).
  - intros [s Hs]. split; [intros n; apply kube_alive, Hs|].
    intros n [Hn Hnl]%elem_of_difference. by destruct (kube_leaks s Hs n Hn) as [?|?].
Qed.

(** ** A simulated cluster *)

Record Cluster : Type := { cl_log : list pod_event; cl_clock : Z }.
#[export] Instance cluster_pod_log : PodLog Cluster := cl_log.
Definition cl_record (ev : pod_event) (c : Cluster) : Cluster :=
  {| cl_log := cl_log c ++ [ev]; cl_clock := cl_clock c |}.

(** The command without its [ 2>&1], in words. *)
Definition cl_popen (command : string) : St Cluster (option (list string * Z)) := λ c,
  match String.words (take (String.length command - 5) command) with
  | _ :: verb :: a :: b :: _ =>
      if decide (verb = "run") then (Some ([line "created"], 0), cl_record (PodCreated a) c)
      else if decide (verb = "expose") then (Some ([line "exposed"], 0), cl_record (ServiceCreated b) c)
      else if decide (verb = "delete" ∧ a = "pod" ∧ b ∈ live_pods (cl_log c)) then
        (Some ([line "deleted"], 0), cl_record (PodDeleted b) c)
      else (Some (["30080"], 0), c)
  | _ => (Some ([], 256), c)
  end.

#[export] Instance cluster_shell : Shell Cluster := {| sh_popen := cl_popen |}.
#[export] Instance cluster_clock : Clock Cluster := {|
  steady_now := λ c, (cl_clock c, {| cl_log := cl_log c; cl_clock := cl_clock c + 1000000 |});
  sleep_for_ms ms := λ c, (tt, {| cl_log := cl_log c; cl_clock := cl_clock c + ms * 1000000 |});
|}.
#[export] Instance cluster_sockets : Sockets Cluster := {|
  so_addr := unit; so_socket := mret 3; so_set_timeouts _ _ _ := mret tt;
  so_inet_pton _ := Some tt; so_gethostbyname _ := mret None; so_connect _ _ _ := mret true;
  so_send _ _ := mret true;
  so_recv_all _ := mret (["HTTP/1.1 200 OK" +:+ CRLFCRLF], RecvClosed);
  so_close _ := mret tt;
|}.
#[export] Instance cluster_quiet : Quiet (pod_log (E:=Cluster)).
Proof. by split. Qed.

Lemma cl_popen_argv argv c :
  Forall word_ok argv →
  popen argv c =
  match argv with
  | _ :: verb :: a :: b :: _ =>
      if decide (verb = "run") then (Some ([line "created"], 0), cl_record (PodCreated a) c)
      else if decide (verb = "expose") then (Some ([line "exposed"], 0), cl_record (ServiceCreated b) c)
      else if decide (verb = "delete" ∧ a = "pod" ∧ b ∈ live_pods (cl_log c)) then
        (Some ([line "deleted"], 0), cl_record (PodDeleted b) c)
      else (Some (["30080"], 0), c)
  | _ => (Some ([], 256), c)
  end.
Proof.
  intros Hok. unfold popen. simpl. unfold cl_popen.
  replace (String.length (unwords argv +:+ " 2>&1") - 5)%nat with (String.length (unwords argv))
    by (rewrite length_app_str; simpl; lia).
  by rewrite take_length_app, words_unwords.
Qed.

#[export] Instance cluster_spec : KubeCluster Cluster.
Proof.
  assert (∀ n, is_safe_token n = true → Forall (Forall word_ok) [run_argv n "x" 0; wait_argv n;
    expose_argv n 0; delete_argv "pod" n; delete_argv "svc" n; get_argv n]) as Hok.
  { intros n Hn. pose proof (kube_argvs_ok n "x" 0 Hn eq_refl) as Hk.
    rewrite !Forall_cons in *. destruct Hk as (?&?&?&?&?&_). split_and!; try done.
    repeat apply Forall_cons_2; try apply Forall_nil_2; first [by split|by apply safe_token_word]. }
  split.
  - intros n image port c Hn Hi. rewrite cl_popen_argv; [by left|].
    pose proof (kube_argvs_ok n image port Hn Hi) as Hk. by apply Forall_cons in Hk as [? _].
  - intros n c Hn. rewrite cl_popen_argv; [done|]. specialize (Hok n Hn). by decompose_Forall.
  - intros n port c Hn. rewrite cl_popen_argv; [by left|].
    pose proof (kube_argvs_ok n n port Hn Hn) as Hk. by decompose_Forall.
  - intros n c Hn. rewrite cl_popen_argv; [done|]. specialize (Hok n Hn). by decompose_Forall.
  - intros n c Hn. rewrite cl_popen_argv; [|specialize (Hok n Hn); by decompose_Forall].
    simpl. unfold pod_log, cluster_pod_log. case_decide as Hd; simpl; left; case_decide; naive_solver.
  - intros n c Hn. left. rewrite cl_popen_argv; [|specialize (Hok n Hn); by decompose_Forall].
    reflexivity.
Qed.

#[export] Instance cluster_deletes : KubeDeletes Cluster.
Proof.
  intros n c Hn. pose proof (kube_argvs_ok n n 0 Hn Hn) as Hk. rewrite cl_popen_argv by (by decompose_Forall).
  simpl. by case_decide.
Qed.

Lemma kubernetes_refines_backend_witness :
  BackendSpec (KubeRun (E:=Cluster)).
Proof.
  destruct (kubernetes_refines_backend Cluster cluster_spec cluster_clock cluster_sockets cluster_quiet)
    as (_ & _ & _ & Hspec & _). exact (Hspec cluster_deletes).
Defined.
