(* ===== verification/SimWorld.v ===== *)
(** * A simulated world

    A concrete container backend, clock and network on which the operations of the
    model run, and which meets every contract the theorems ask of a world: the
    examples and the witnesses evaluate on it. *)

From S2P Require Import Prelude CppStd StringFacts ShellExec ContainerBackend Http HttpClient.
From S2P Require Import DockerClient FunctionModel RuntimeManager RuntimeInvariant.

(** Containers are numbered; [(true, n)] is the creation of container [n]. *)
Record Sim : Type := {
  sim_events : list (bool * N);
  sim_clock : Z;                                (* nanoseconds *)
  sim_fds : list Z;
  sim_replies : list (list string * recv_end);  (* what the next calls will read *)
}.

Definition new_sim (replies : list (list string * recv_end)) : Sim :=
  {| sim_events := []; sim_clock := 0; sim_fds := []; sim_replies := replies |}.

Definition sim_id (n : N) : string := "c" +:+ pretty n.
Definition sim_event (ev : bool * N) : backend_event :=
  if ev.1 then Created (sim_id ev.2) else Removed (sim_id ev.2).
Definition next_number (evs : list (bool * N)) : N := foldr (λ ev n, N.max (ev.2 + 1) n) 0%N evs.

Definition log_event (ev : bool * N) (w : Sim) : Sim := {|
  sim_events := sim_events w ++ [ev]; sim_clock := sim_clock w; sim_fds := sim_fds w;
  sim_replies := sim_replies w |}.
Definition advance (ns : Z) (w : Sim) : Sim := {|
  sim_events := sim_events w; sim_clock := sim_clock w + ns; sim_fds := sim_fds w;
  sim_replies := sim_replies w |}.
Definition set_fds (f : list Z → list Z) (w : Sim) : Sim := {|
  sim_events := sim_events w; sim_clock := sim_clock w; sim_fds := f (sim_fds w);
  sim_replies := sim_replies w |}.
Definition drop_reply (w : Sim) : Sim := {|
  sim_events := sim_events w; sim_clock := sim_clock w; sim_fds := sim_fds w;
  sim_replies := tail (sim_replies w) |}.

#[export] Instance sim_history : BackendHistory Sim := λ w, sim_event <$> sim_events w.
#[export] Instance sim_open_fds : OpenFds Sim := λ w, list_to_set (sim_fds w).

(** The created container with a given id. *)
Definition sim_find (i : string) (evs : list (bool * N)) : option N :=
  snd <$> head (filter (λ ev, sim_event ev = Created i) evs).

#[export] Instance sim_backend : ContainerBackend Sim := {|
  run_container image port := λ w,
    let n := next_number (sim_events w) in
    ({| ok := true; id := sim_id n; error := "" |}, log_event (true, n) w);
  get_host_port i port := mret 30000;
  remove_container i := λ w,
    match sim_find i (sim_events w) with
    | Some n => (true, log_event (false, n) w)
    | None => (false, w)
    end;
|}.

(** Every reading of the clock takes a millisecond. *)
#[export] Instance sim_clock_ops : Clock Sim := {|
  steady_now := λ w, (sim_clock w, advance 1000000 w);
  sleep_for_ms ms := λ w, (tt, advance (ms * 1000000) w);
|}.

#[export] Instance sim_sockets : Sockets Sim := {|
  so_addr := unit;
  so_socket := λ w, let fd := foldr (λ x n, Z.max (x + 1) n) 3 (sim_fds w) in
                    (fd, set_fds (cons fd) w);
  so_set_timeouts _ _ _ := mret tt;
  so_inet_pton _ := Some tt;
  so_gethostbyname _ := mret None;
  so_connect _ _ _ := mret true;
  so_send _ _ := mret true;
  so_recv_all _ := λ w, (default ([], RecvClosed) (head (sim_replies w)), drop_reply w);
  so_close fd := λ w, (tt, set_fds (filter (λ x, x ≠ fd)) w);
|}.

(** ** It meets the contracts *)

#[export] Instance sim_id_inj : Inj (=) (=) sim_id.
Proof.
  intros m n Heq. change (String "c" (pretty m) = String "c" (pretty n)) in Heq.
  injection Heq as Heq. by apply (inj pretty).
Qed.

Lemma sim_event_number n b b' : sim_event (b, n) = sim_event b' → n = b'.2.
Proof.
  destruct b' as [[] n']; destruct b; cbn [sim_event fst snd]; intros Heq; try done;
    apply (inj sim_id); congruence.
Qed.

Lemma next_number_fresh evs b n : (b, n) ∈ evs → (n < next_number evs)%N.
Proof.
  induction evs as [|ev evs IH]; [by intros ?%elem_of_nil|].
  rewrite elem_of_cons. simpl. intros [<-|Hin]; simpl; [lia|]. specialize (IH Hin). lia.
Qed.

Lemma sim_find_Created i evs :
  Created i ∈ sim_event <$> evs → ∃ n, sim_find i evs = Some n ∧ sim_id n = i.
Proof.
  intros ([b n] & Heq & Hin)%list_elem_of_fmap. unfold sim_find.
  assert ((b, n) ∈ filter (λ ev, sim_event ev = Created i) evs) as Hf
    by (by apply list_elem_of_filter).
  destruct (filter (λ ev, sim_event ev = Created i) evs) as [|[b' n'] l] eqn:Hl;
    [by apply elem_of_nil in Hf|].
  exists n'. split; [done|].
  assert ((b', n') ∈ filter (λ ev, sim_event ev = Created i) evs) as Hf'
    by (rewrite Hl; apply elem_of_cons; by left).
  apply list_elem_of_filter in Hf' as [Hc _]. destruct b'; [by injection Hc|done].
Qed.

#[export] Instance sim_backend_contract : BackendContract Sim.
Proof.
  split.
  - intros image port w. simpl. unfold history, sim_history. simpl. rewrite fmap_app.
    split; [done|]. intros _. set (N := next_number _).
    change (Created (sim_id N)) with (sim_event (true, N)).
    change (Removed (sim_id N)) with (sim_event (false, N)).
    split; intros ([[] n] & Heq & Hin%next_number_fresh)%list_elem_of_fmap; try done;
      apply sim_event_number in Heq; simpl in Heq; lia.
  - done.
  - intros i w (n & Hn & <-)%live_Created%sim_find_Created. unfold history, sim_history. simpl.
    rewrite Hn. simpl. left. by rewrite fmap_app.
Qed.
#[export] Instance sim_backend_spec : BackendSpec Sim.
Proof.
  split; [apply _|]. intros i w (n & Hn & _)%live_Created%sim_find_Created. simpl. by rewrite Hn.
Qed.

#[export] Instance sim_quiet : QuietWorld Sim.
Proof. split; done. Qed.

#[export] Instance sim_sockets_spec : SocketsSpec Sim.
Proof.
  split; try done.
  - intros w. simpl. unfold open_fds, sim_open_fds.
    assert (∀ l, 3 ≤ foldr (λ x n, Z.max (x + 1) n) 3 l ∧
                 ∀ x, x ∈ l → x < foldr (λ x n, Z.max (x + 1) n) 3 l) as Hmax.
    { induction l as [|x l [IH1 IH2]]; simpl; [split; [lia|set_solver]|].
      split; [lia|]. intros y [->|Hy]%elem_of_cons; [lia|]. specialize (IH2 y Hy). lia. }
    destruct (Hmax (sim_fds w)) as [Hge Hlt]. rewrite decide_False by lia. simpl. split.
    + rewrite elem_of_list_to_set. intros Hin%Hlt. lia.
    + done.
  - intros fd w. unfold open_fds, sim_open_fds. simpl.
    apply set_eq. intros x. rewrite elem_of_list_to_set, list_elem_of_filter. set_solver.
Qed.

(** ** A function and its replies *)

Definition demo_spec : FunctionSpec := {|
  name := "hello"; version := 1; image := "hello:latest"; timeout_ms := 5000; memory_mb := 256;
  cpu := 0.5%float; max_concurrency := 1; idle_timeout_ms := 60000;
|}.

Definition reply (status_line body : string) : list string * recv_end :=
  ([status_line +:+ CRLF +:+ CRLF +:+ body], RecvClosed).
Definition reply_ok : list string * recv_end := reply "HTTP/1.1 200 OK" "{}".
Definition reply_dead : list string * recv_end := ([], RecvClosed).
Definition reply_late : list string * recv_end := ([], RecvTimedOut).

Definition new_platform (replies : list (list string * recv_end)) : Manager Sim :=
  new_manager (new_sim replies).

(** The platform with one warm runtime for [demo_spec]. *)
Definition warm_platform (replies : list (list string * recv_end)) : Manager Sim :=
  (acquire demo_spec (new_platform (reply_ok :: replies))).2.
Definition idle_platform (replies : list (list string * recv_end)) : Manager Sim :=
  let m := warm_platform replies in
  (settle demo_spec true "c0" 0 (parse_response (foldl String.append "" reply_ok.1)) m).2.

(** Nothing ran before. *)
Definition sim_before : Before := [].
#[local] Existing Instance sim_before.
Lemma ledger_ok_nil : ledger_ok [].
Proof. split; [constructor|]. by intros i ?%elem_of_nil. Qed.

Lemma warm_platform_inv replies : lock_inv (warm_platform replies).
Proof. by apply lock_inv_acquire, lock_inv_new, ledger_ok_nil. Qed.
Lemma idle_platform_inv replies : lock_inv (idle_platform replies).
Proof. by apply lock_inv_settle, warm_platform_inv. Qed.

(** ** A simulated Docker daemon behind the shell *)

Definition sim_popen (command : string) : St Sim (option (list string * Z)) := λ w,
  if String.prefix "docker run " command then
    let n := next_number (sim_events w) in
    (Some ([line (sim_id n)], 0), log_event (true, n) w)
  else if String.prefix "docker rm -f " command then
    let i := take (String.length command - 18) (drop 13 command) in
    match sim_find i (sim_events w) with
    | Some n => (Some ([line i], 0), log_event (false, n) w)
    | None => (Some ([line "Error: No such container"], 256), w)
    end
  else (Some ([line "0.0.0.0:30000"], 0), w).
#[export] Instance sim_shell : Shell Sim := {| sh_popen := sim_popen |}.

Lemma sim_id_safe n : is_safe_token (sim_id n) = true.
Proof.
  apply safe_token_app; [done|].
  rewrite <-(N2Z.id n). pose proof (to_string_safe (Z.of_N n)) as Hs.
  unfold to_string in Hs. by destruct n.
Qed.

Lemma sim_rm_run n w :
  sim_find (sim_id n) (sim_events w) = Some n →
  sh_popen (unwords ["docker"; "rm"; "-f"; sim_id n] +:+ " 2>&1") w
  = (Some ([line (sim_id n)], 0), log_event (false, n) w).
Proof.
  intros Hn. set (command := unwords _ +:+ _).
  assert (take (String.length command - 18) (drop 13 command) = sim_id n) as Htake.
  { assert (drop 13 command = sim_id n +:+ " 2>&1") as -> by done.
    assert (String.length command = 13 + String.length (sim_id n) + 5)%nat as ->.
    { change command with ("docker rm -f " +:+ (sim_id n +:+ " 2>&1")).
      rewrite !length_app_str. simpl. lia. }
    replace (13 + String.length (sim_id n) + 5 - 18)%nat with (String.length (sim_id n)) by lia.
    apply take_length_app. }
  change (sh_popen command w) with (sim_popen command w). unfold sim_popen.
  change (String.prefix "docker run " command) with false.
  change (String.prefix "docker rm -f " command) with true. cbn iota zeta.
  by rewrite Htake, Hn.
Qed.

#[export] Instance sim_docker : DockerClient.DockerDaemon Sim.
Proof.
  split.
  - intros w cid (n & Hn & <-)%sim_find_Created. apply sim_id_safe.
  - intros image port w _. left.
    pose proof (run_container_spec image port w) as Hspec. simpl in Hspec.
    destruct Hspec as [Hh [HC HR]]; [done|].
    eexists _, _, (sim_id (next_number (sim_events w))). split_and!; try done.
  - done.
  - intros i w Hi. destruct (sim_find_Created _ _ (live_Created _ _ Hi)) as (n & Hn & <-).
    rewrite sim_rm_run by done. left. unfold history, sim_history. simpl. by rewrite fmap_app.
Qed.
#[export] Instance sim_docker_removals : DockerClient.DockerRemovals Sim.
Proof.
  intros i w Hi. destruct (sim_find_Created _ _ (live_Created _ _ Hi)) as (n & Hn & <-).
  rewrite sim_rm_run by done. by eexists _, _.
Qed.

Lemma docker_refines_backend_witness : @BackendSpec Sim DockerClient.backend _.
Proof. exact (proj2 (DockerClient.docker_refines_backend Sim sim_docker) sim_docker_removals). Defined.

Lemma request_releases_socket_witness :
  open_fds (request {| host_ := "localhost"; port_ := 80 |} "GET" "/" "" "" 0
              (new_sim [reply_ok])).2 = ∅.
Proof.
  rewrite (request_releases_socket Sim sim_sockets_spec). done.
Defined.
