(* ===== verification/RuntimeCalls.v ===== *)
(** * Whole operations of the runtime manager

    What [start_runtime], [invoke], [reap_pass], [status] and [list_runtimes]
    guarantee when nothing interferes, from the effects of [RuntimeInvariant]; and what
    becomes of a container whose removal fails. *)

From S2P Require Import Prelude CppStd StringFacts ContainerBackend FunctionModel Metrics Http.
From S2P Require Import HttpClient RuntimeManager RuntimeInvariant SimWorld.

Section calls.
  Context {E : Type} `{Clock E, ContainerBackend E, Sockets E, BackendHistory E}.
  Context `{!BackendSpec E, !QuietWorld E} {past : Before}.
  Implicit Types (m : Manager E) (e : E).

(** ** Starting *)

(** The world before check number [i] of the readiness loop, all earlier checks
    having failed. *)
Fixpoint probe_world (i : nat) (port : Z) (e : E) : E :=
  match i with
  | O => e
  | S i => probe_world i port (sleep_for_ms kReadinessIntervalMs (is_healthy port e).2).2
  end.
Definition probe (i : nat) (port : Z) (e : E) : bool := (is_healthy port (probe_world i port e)).1.

Lemma await_healthy_probe n port e :
  (await_healthy n port e).1 = true ↔ ∃ i, (i < n)%nat ∧ probe i port e = true.
Proof.
  revert e. induction n as [|n IH]; intros e.
  - split; [done|]. intros (i & ? & _). lia.
  - cbn [await_healthy]. rewrite st_bind_run. destruct (is_healthy port e) as [[] e1] eqn:Hh; simpl.
    + split; [|done]. intros _. exists 0%nat. split; [lia|]. unfold probe. simpl. by rewrite Hh.
    + rewrite st_bind_run, IH. split.
      * intros (i & Hi & Hp). exists (S i). split; [lia|]. unfold probe in *. simpl. by rewrite Hh.
      * intros ([|i] & Hi & Hp); unfold probe in Hp; simpl in Hp; rewrite Hh in Hp; [done|].
        exists i. split; [lia|]. done.
Qed.

(** ** One attempt *)

Definition settled_result (r : InvocationResult) (rt : option Runtime) : Prop :=
  match rt with
  | Some rt => rt_state rt = IDLE ∧ (inv_status r = "success" ∨ inv_status r = "error")
  | None => inv_status r = "timeout" ∨ inv_status r = "infra_error"
  end.

Definition attempt_post (f : string) (m : Manager E) (r : InvocationResult) (failed : bool)
    (m' : Manager E) : Prop :=
  lock_inv m' ∧
  settled_result r (runtimes_ m' !! f) ∧
  (failed = true → runtimes_ m' !! f = None) ∧
  (∀ g, g ≠ f → runtimes_ m' !! g = runtimes_ m !! g) ∧
  (creations (history (world m')) ≤
     creations (history (world m)) + (if runtimes_ m !! f is Some _ then 0 else 1))%nat ∧
  (inv_cold_start r = false → failed = true → is_Some (runtimes_ m !! f)).

(** Between the two critical sections only the clock and the network move. *)
Definition same_books (m m' : Manager E) : Prop :=
  runtimes_ m' = runtimes_ m ∧ metrics_ m' = metrics_ m ∧
  history (world m') = history (world m).

Lemma same_books_outside {A} (c : St E A) m :
  keeps_history c → same_books m (outside c m).2.
Proof. rewrite outside_run. intros Hc. split_and!; [done|done|apply Hc]. Qed.

Lemma settle_post spec cold cid d resp m rt :
  lock_inv m → runtimes_ m !! name spec = Some rt → rt_container_id rt = cid →
  let '((r, failed), m') := settle spec cold cid d resp m in
  lock_inv m' ∧ settled_result r (runtimes_ m' !! name spec) ∧
  (failed = true → runtimes_ m' !! name spec = None) ∧
  (∀ g, g ≠ name spec → runtimes_ m' !! g = runtimes_ m !! g) ∧
  creations (history (world m')) = creations (history (world m)) ∧
  inv_cold_start r = cold.
Proof.
  intros Hm Hf <-. pose proof (lock_inv_settle spec cold (rt_container_id rt) d resp m Hm) as Hm'.
  rewrite settle_run in *. cbn [fst snd] in Hm'. split; [done|].
  unfold settled_state, tracked. rewrite Hf, decide_True by done.
  unfold result_of, verdict, settled_result. simpl.
  destruct (verdict resp) as [reason|] eqn:Hv; unfold verdict in Hv.
  - destruct (retire_run (name spec) (rt_container_id rt) reason m) as (Hr & _ & Hh);
      [by eapply lock_inv_tracked_live|].
    destruct (cr_timed_out resp), (cr_ok resp); simplify_eq;
      simpl; rewrite Hr, Hh, lookup_delete_eq, creations_app, creations_removed, Nat.add_0_r;
      split_and!; try done; auto; intros g Hg; by rewrite lookup_delete_ne.
  - destruct (release_run (name spec) rt m) as (Hr & _ & Hh).
    destruct (cr_timed_out resp), (cr_ok resp); simplify_eq; simpl.
    rewrite Hr, Hh, lookup_insert_eq. simpl.
    split_and!; try done; [by destruct (in_2xx _); auto|].
    intros g Hg. by rewrite lookup_insert_ne.
Qed.

Lemma try_invoke_post spec input start m :
  lock_inv m →
  let '((r, failed), m') := try_invoke spec input start m in
  attempt_post (name spec) m r failed m'.
Proof.
  intros Hm. unfold try_invoke. rewrite st_bind_run.
  pose proof (lock_inv_acquire spec m Hm) as Hm1.
  pose proof (acquire_effect spec m) as Ha.
  destruct (acquire spec m) as [a m1]. cbn [fst snd] in *.
  destruct a as [err|cold port cid].
  - destruct Ha as (Hf & Hr & Hmt & Hh). rewrite st_bind_run.
    destruct (same_books_outside (elapsed_ms start) m1) as (Hr2 & _ & Hh2);
      [apply keeps_elapsed_ms|].
    pose proof (lock_inv_outside (elapsed_ms start) m1 (keeps_elapsed_ms _) Hm1) as Hm2.
    destruct (outside (elapsed_ms start) m1) as [d m2]. simpl in *.
    unfold attempt_post. rewrite Hr2, Hr, Hf, Hh2. simpl. split_and!; try done; [by right|].
    destruct Hh as [-> |(i & _ & _ & ->)]; [lia|]. rewrite creations_app, ?creations_one, ?creations_discarded. lia.
  - rewrite st_bind_run.
    set (call := post _ _ _ _ _).
    assert (keeps_history call) as Hk by apply keeps_request.
    destruct (same_books_outside call m1 Hk) as (Hr2 & _ & Hh2).
    pose proof (lock_inv_outside call m1 Hk Hm1) as Hm2.
    destruct (outside call m1) as [resp m2]. cbn [fst snd] in *. clear Hk.
    destruct (same_books_outside (elapsed_ms start) m2) as (Hr3 & _ & Hh3);
      [apply keeps_elapsed_ms|].
    pose proof (lock_inv_outside (elapsed_ms start) m2 (keeps_elapsed_ms _) Hm2) as Hm3.
    rewrite st_bind_run.
    destruct (outside (elapsed_ms start) m2) as [d m3]. cbn [fst snd] in *.
    destruct Ha as (rt & now & Hcid & Hport & Hr1 & Ha).
    assert (runtimes_ m3 !! name spec = Some (set_used BUSY now rt)) as Hf3
      by (by rewrite Hr3, Hr2, Hr1, lookup_insert_eq).
    pose proof (settle_post spec cold cid d resp m3 _ Hm3 Hf3 Hcid) as Hs.
    destruct (settle spec cold cid d resp m3) as [[r failed] m4].
    destruct Hs as (Hm4 & Hsr & Hfail & Hframe & Hcr & Hcold).
    split_and!; try done.
    + intros g Hg. by rewrite Hframe, Hr3, Hr2, Hr1, lookup_insert_ne.
    + rewrite Hcr, Hh3, Hh2. destruct cold; destruct Ha as (-> & Ha).
      * destruct Ha as (_ & _ & _ & _ & _ & ->). rewrite creations_app, ?creations_one, ?creations_discarded. lia.
      * destruct Ha as (_ & ->). lia.
    + rewrite Hcold. intros ->. destruct Ha as (-> & _). eauto.
Qed.

Lemma try_invoke_cold spec input start m :
  lock_inv m → runtimes_ m !! name spec = None →
  inv_cold_start (try_invoke spec input start m).1.1 = false →
  (try_invoke spec input start m).1.2 = false.
Proof.
  intros Hm Hf. pose proof (try_invoke_post spec input start m Hm) as Hp.
  destruct (try_invoke spec input start m) as [[r []] m']; [|done]. simpl.
  intros Hc. destruct Hp as (_ & _ & _ & _ & _ & Hp). rewrite Hf in Hp.
  by destruct (Hp Hc eq_refl).
Qed.

Definition status_of_entry (x : RuntimeListEntry) : RuntimeStatus := {|
  rs_state := re_state x; rs_container_id := re_container_id x;
  rs_host_port := re_host_port x; rs_idle_ms := re_idle_ms x |}.

(** ** [invoke] *)

Lemma invoke_run spec input m :
  invoke spec input m =
  let '(start, m0) := outside steady_now m in
  let '((first, failed), m1) := try_invoke spec input start m0 in
  let '(result, m2) :=
    if failed && negb (inv_cold_start first)
    then let '((retried, _), m2) := try_invoke spec input start m1 in (retried, m2)
    else (first, m1) in
  (result, (record_result result m2).2).
Proof.
  unfold invoke, mbind, st_bind, mret, st_ret.
  destruct (outside steady_now m) as [start m0].
  destruct (try_invoke spec input start m0) as [[first failed] m1]. cbn [fst snd].
  destruct (failed && negb (inv_cold_start first)); [|done].
  by destruct (try_invoke spec input start m1) as [[retried failed'] m2].
Qed.

(** Recording adds one to the series of the result and leaves the books alone. *)
Lemma record_result_run r m :
  (record_result r m).2
  = set_metrics (record_invocation (inv_status r) (inv_cold_start r)
                   (to_double (inv_duration_ms r))) m.
Proof. done. Qed.

(** An attempt on a warm runtime, in full. *)
Lemma try_invoke_warm spec input start m rt :
  runtimes_ m !! name spec = Some rt →
  try_invoke spec input start m =
  let '(now, e1) := steady_now (world m) in
  let '(resp, e2) := post (client_to (rt_host_port rt)) "/invoke" input "application/json"
                       (timeout_ms spec) e1 in
  let '(d, e3) := elapsed_ms start e2 in
  settle spec false (rt_container_id rt) d resp
    (set_world e3 (set_runtimes <[name spec := set_used BUSY now rt]> m)).
Proof.
  intros Hf. unfold try_invoke, acquire, claim, find_runtime, outside, zoom.
  unfold mbind, st_bind, mret, st_ret. rewrite Hf.
  destruct (steady_now (world m)) as [now e1]. simpl.
  destruct (post _ _ _ _ _ e1) as [resp e2]. simpl.
  by destruct (elapsed_ms start e2) as [d e3].
Qed.

(** An attempt on a function without a runtime: it is cold or fails to start, and a
    runtime it leaves is a new container with the spec's idle timeout. *)
Lemma try_invoke_fresh spec input start m :
  lock_inv m → runtimes_ m !! name spec = None →
  let '((r, _), m') := try_invoke spec input start m in
  (∃ h, history (world m') = history (world m) ++ h) ∧
  (inv_cold_start r = true ∨ inv_status r = "infra_error") ∧
  ∀ rt, runtimes_ m' !! name spec = Some rt →
        Created (rt_container_id rt) ∉ history (world m) ∧
        rt_idle_timeout_ms rt = idle_timeout_ms spec.
Proof.
  intros Hm Hf. unfold try_invoke. rewrite st_bind_run.
  pose proof (lock_inv_acquire spec m Hm) as Hm1.
  pose proof (acquire_effect spec m) as Ha.
  destruct (acquire spec m) as [[err|cold port cid] m1]; cbn [fst snd] in *.
  - destruct Ha as (_ & Hr & _ & Hh). rewrite st_bind_run, outside_run.
    cbn [fst snd mret st_ret set_world runtimes_ world]. rewrite keeps_elapsed_ms, Hr, Hf.
    split_and!; [|by right|done].
    destruct Hh as [-> |(i & _ & _ & ->)]; [exists []; by rewrite app_nil_r|by eexists].
  - destruct Ha as (rt & now & <- & <- & Hr & Ha).
    destruct cold; [|by destruct Ha as (Hsome & _); congruence].
    destruct Ha as (_ & HC & _ & _ & Hi & _ & Hh).
    rewrite st_bind_run, outside_run. cbn [fst snd].
    set (call := post _ _ _ _ _). assert (keeps_history call) as Hk by apply keeps_request.
    set (m2 := set_world _ m1). assert (history (world m2) = history (world m1)) as Hh2 by apply Hk.
    rewrite st_bind_run, outside_run. cbn [fst snd]. set (m3 := set_world _ m2).
    assert (history (world m3) = history (world m1)) as Hh3
      by (rewrite <-Hh2; apply keeps_elapsed_ms).
    assert (runtimes_ m3 = runtimes_ m1) as Hr3 by done.
    assert (lock_inv m3) as Hm3.
    { apply lock_inv_world; [apply keeps_elapsed_ms|]. by apply lock_inv_world; [apply Hk|]. }
    clearbody m3. rewrite settle_run. unfold settled_state, tracked.
    rewrite Hr3, Hr, lookup_insert_eq, decide_True by done.
    destruct (verdict _) as [reason|].
    + destruct (retire_run (name spec) (rt_container_id rt) reason m3) as (Hr4 & _ & Hh4).
      { apply (inv_live m3 Hm3). right. exists (name spec), (set_used BUSY now rt).
        by rewrite Hr3, Hr, lookup_insert_eq. }
      rewrite Hr4, Hh4, Hh3, Hh, lookup_delete_eq, <-!app_assoc.
      split_and!; [by eexists|by left|done].
    + destruct (release_run (name spec) (set_used BUSY now rt) m3) as (Hr4 & _ & Hh4).
      rewrite Hr4, Hh4, Hh3, Hh, lookup_insert_eq.
      split_and!; [by eexists|by left|]. by intros ? [= <-].
Qed.

(** ** [reap_pass] *)

Definition expired_entries (now : Z) (entries : list (string * Runtime)) :
    list (string * Runtime) := filter (λ p, expired now p.2 = true) entries.

Lemma reap_entries_run now entries m :
  Forall (λ p, rt_container_id p.2 ∈ live (history (world m))) entries →
  NoDup (rt_container_id ∘ snd <$> entries) →
  let m' := (reap_entries now entries m).2 in
  let dead := expired_entries now entries in
  runtimes_ m' = foldl (λ rs p, delete p.1 rs) (runtimes_ m) dead ∧
  metrics_ m' = Nat.iter (length dead) (record_runtime_terminated "idle_timeout") (metrics_ m) ∧
  history (world m') = history (world m) ++ ((λ p, Removed (rt_container_id p.2)) <$> dead).
Proof.
  revert m. induction entries as [|[f rt] entries IH]; intros m.
  { simpl. by rewrite app_nil_r. }
  rewrite Forall_cons, fmap_cons, NoDup_cons. intros [Hl Hls] [Hnin Hnd]. simpl in Hl, Hnin.
  cbn [reap_entries]. rewrite st_bind_run. unfold expired_entries.
  rewrite filter_cons. simpl. destruct (expired now rt) eqn:Hx; simpl; [|by apply IH].
  destruct (retire_run f (rt_container_id rt) "idle_timeout" m Hl) as (Hr & Hmt & Hh).
  destruct (IH (retire f (rt_container_id rt) "idle_timeout" m).2) as (Hr' & Hmt' & Hh'); [|done|].
  - rewrite Hh, live_snoc. simpl. apply Forall_forall. intros p Hp.
    rewrite Forall_forall in Hls. apply elem_of_difference. split; [by apply Hls|].
    intros Heq%elem_of_singleton. apply Hnin. apply list_elem_of_fmap. by exists p.
  - rewrite Hr', Hmt', Hh', Hr, Hmt, Hh, <-app_assoc.
    split_and!; try done. by rewrite <-Nat.iter_swap.
Qed.

Lemma foldl_delete_lookup {A} (dead : list (string * A)) (rs : gmap string A) f :
  foldl (λ rs p, delete p.1 rs) rs dead !! f
  = if decide (f ∈ dead.*1) then None else rs !! f.
Proof.
  revert rs. induction dead as [|[g r] dead IH]; intros rs; simpl.
  - done.
  - rewrite IH. destruct (decide (f ∈ dead.*1)) as [Hin|Hin].
    + rewrite decide_True; [done|]. set_solver.
    + destruct (decide (g = f)) as [-> |Hne].
      * rewrite lookup_delete_eq, decide_True; [done|set_solver].
      * rewrite lookup_delete_ne, decide_False by set_solver. done.
Qed.

Lemma foldl_delete_expired now (rs : gmap string Runtime) :
  foldl (λ rs p, delete p.1 rs) rs (expired_entries now (map_entries rs))
  = filter (λ p, expired now p.2 = false) rs.
Proof.
  apply map_eq. intros f. rewrite foldl_delete_lookup.
  destruct (map_entries_valid rs) as [_ Hv]. rewrite Forall_forall in Hv.
  unfold expired_entries. case_decide as Hin.
  - apply list_elem_of_fmap in Hin as ([g r] & -> & [Hx Hg%Hv]%list_elem_of_filter).
    simpl in *. symmetry. apply map_lookup_filter_None. right. intros r' Hr'. simpl. congruence.
  - destruct (rs !! f) as [r|] eqn:Hf.
    + symmetry. apply map_lookup_filter_Some. split; [done|]. simpl.
      destruct (expired now r) eqn:Hx; [|done]. destruct Hin. apply list_elem_of_fmap.
      exists (f, r). split; [done|]. apply list_elem_of_filter. by rewrite elem_of_map_entries.
    + symmetry. apply map_lookup_filter_None. by left.
Qed.

Lemma map_entries_distinct m :
  lock_inv m → NoDup (rt_container_id ∘ snd <$> map_entries (runtimes_ m)).
Proof.
  intros Hm. destruct (map_entries_valid (runtimes_ m)) as [Hnd Hv].
  revert Hnd Hv. generalize (map_entries (runtimes_ m)) as es.
  induction es as [|[f r] es IH]; intros Hnd Hv; [constructor|].
  rewrite fmap_cons in *. apply NoDup_cons in Hnd as [Hnin Hnd].
  apply Forall_cons in Hv as [Hf Hv]. constructor; [|by apply IH].
  rewrite list_elem_of_fmap. intros ([g r'] & Heq & Hg). apply Hnin.
  rewrite Forall_forall in Hv. specialize (Hv _ Hg). simpl in *.
  rewrite (inv_distinct m Hm f g r r'); [|done..]. apply list_elem_of_fmap. by exists (g, r').
Qed.
End calls.

Section properties.
  Context {E : Type} `{Clock E, ContainerBackend E, Sockets E, BackendHistory E}.
  Context `{!BackendSpec E, !QuietWorld E} {past : Before}.
  Implicit Types (m : Manager E) (e : E).

(** *** Properties *)

(** C17: A start succeeds exactly when the container was created, has a positive host
    port and answers one of the first fifty health checks with a 2xx; it then
    leaves one new container alive. A start that fails leaves none behind. *)
Theorem start_runtime_outcome (spec : FunctionSpec) (e : E) :
  let '(run, e1) := run_container (image spec) kContainerPort e in
  let '(port, e2) := get_host_port (id run) kContainerPort e1 in
  let '(r, e') := start_runtime spec e in
  ((∃ rt, r = inl rt) ↔
     ok run = true ∧ 0 < port ∧ ∃ i, (i < 50)%nat ∧ probe i port e2 = true) ∧
  match r with
  | inl rt =>
      rt_container_id rt = id run ∧ rt_host_port rt = port ∧
      rt_idle_timeout_ms rt = idle_timeout_ms spec ∧
      (rt_container_id rt ∉ live (history e)) ∧
      live (history e') = {[rt_container_id rt]} ∪ live (history e)
  | inr _ => live (history e') = live (history e)
  end.
Proof.
  pose proof (start_runtime_effect spec e) as Heff. unfold start_runtime in *.
  rewrite st_bind_run in *.
  destruct (run_container _ _ e) as [run e1]. cbn [fst snd] in *.
  assert (∀ err : string, (∃ rt, (inr err : Runtime + string) = inl rt) ↔ False) as Hno
    by (intros; split; [by intros [? ?]|done]).
  assert (∀ h (err : string) h', started_ok spec h (inr err) h' → live h' = live h) as Hfail.
  { intros h err h' [-> |(i & HC & HR & ->)]; [done|].
    change [Created i; Removed i] with ([Created i] ++ [Removed i]).
    rewrite app_assoc, !live_snoc. simpl.
    assert (i ∉ live h) as Hni by (by intros ?%live_Created).
    clear -Hni. set_solver. }
  destruct (ok run) eqn:Hok; cbn [negb] in *.
  2:{ destruct (get_host_port _ _ e1). cbn [mret st_ret fst snd] in *. rewrite Hno.
      split; [split; [done|by intros [? _]]|by eapply Hfail]. }
  rewrite st_bind_run in *. destruct (get_host_port _ _ e1) as [port e2]. cbn [fst snd] in *.
  case_decide as Hport.
  { rewrite st_bind_run in *. cbn [mret st_ret fst snd] in *. rewrite Hno.
    split; [split; [done|intros (_ & ? & _); lia]|by eapply Hfail]. }
  pose proof (await_healthy_probe kReadinessAttempts port e2) as Hprobe.
  rewrite st_bind_run in *.
  destruct (await_healthy kReadinessAttempts port e2) as [[] e3]; cbn [fst snd] in *.
  - simpl in *. destruct Heff as (HC & HR & -> & Hp & Hi). split.
    + split; [|eauto]. intros _. split_and!; [done|lia|by apply Hprobe].
    + split_and!; try done; [by intros ?%live_Created|]. by rewrite live_snoc.
  - rewrite st_bind_run in *. cbn [mret st_ret fst snd] in *. rewrite Hno.
    split; [|by eapply Hfail].
    split; [done|]. intros (_ & _ & Hex). by apply Hprobe in Hex.
Qed.

(** C16: Undisturbed, [invoke] ends with the function's runtime idle and a result of
    [success] or [error], or with no runtime and [timeout] or [infra_error]; it
    creates at most one container, retries included, leaves every other
    function's runtime alone and keeps the manager's invariant. *)
Theorem invoke_postcondition (spec : FunctionSpec) (input : string) (m : Manager E) :
  lock_inv m →
  let '(r, m') := invoke spec input m in
  lock_inv m' ∧
  settled_result r (runtimes_ m' !! name spec) ∧
  (creations (history (world m')) ≤ S (creations (history (world m))))%nat ∧
  (∀ g, g ≠ name spec → runtimes_ m' !! g = runtimes_ m !! g).
Proof.
  intros Hm. rewrite invoke_run.
  destruct (same_books_outside steady_now m quiet_now) as (Hr0 & _ & Hh0).
  pose proof (lock_inv_outside steady_now m quiet_now Hm) as Hm0.
  destruct (outside steady_now m) as [start m0]. cbn [fst snd] in *.
  pose proof (try_invoke_post spec input start m0 Hm0) as Hp.
  destruct (try_invoke spec input start m0) as [[first failed] m1].
  destruct Hp as (Hm1 & Hs1 & Hf1 & Hfr1 & Hc1 & Hcold).
  rewrite Hr0, Hh0 in Hc1. rewrite Hr0 in Hcold. rewrite Hr0 in Hfr1.
  destruct (failed && negb (inv_cold_start first)) eqn:Hretry.
  - apply andb_true_iff in Hretry as [-> Hnc%negb_true_iff].
    pose proof (try_invoke_post spec input start m1 Hm1) as Hp.
    destruct (try_invoke spec input start m1) as [[second failed'] m2].
    destruct Hp as (Hm2 & Hs2 & _ & Hfr2 & Hc2 & _).
    rewrite record_result_run. split_and!; [by apply lock_inv_record_result|done| |].
    + simpl. destruct (Hcold Hnc eq_refl) as [rt Hrt]. rewrite Hrt in Hc1.
      destruct (runtimes_ m1 !! name spec); lia.
    + intros g Hg. simpl. by rewrite Hfr2, Hfr1.
  - rewrite record_result_run. split_and!; [by apply lock_inv_record_result|done| |done].
    simpl. destruct (runtimes_ m !! name spec); lia.
Qed.

(** A function with a warm runtime is served by it, whatever image or idle timeout
    the function is registered with by then: if the container answers, no
    container is created or removed, and the runtime is idle again with its old
    identity and its old idle timeout. *)
Theorem warm_call_keeps_runtime (spec : FunctionSpec) (input : string) (m : Manager E)
    (rt : Runtime) :
  lock_inv m → runtimes_ m !! name spec = Some rt →
  let e1 := (steady_now (steady_now (world m)).2).2 in
  let resp := (post (client_to (rt_host_port rt)) "/invoke" input "application/json"
                 (timeout_ms spec) e1).1 in
  verdict resp = None →
  let '(r, m') := invoke spec input m in
  r = result_of spec false (inv_duration_ms r) resp ∧
  history (world m') = history (world m) ∧
  ∃ now, runtimes_ m' = <[name spec := set_used IDLE now rt]> (runtimes_ m).
Proof.
  intros Hm Hf e1 resp Hv. rewrite invoke_run, outside_run.
  rewrite (try_invoke_warm _ _ _ _ rt) by done. unfold e1 in *. clear e1. cbn [world set_world].
  pose proof (quiet_now (world m)) as Hq1. destruct (steady_now (world m)) as [start e0].
  cbn [fst snd] in *. pose proof (quiet_now e0) as Hq2.
  destruct (steady_now e0) as [now e1]. cbn [fst snd] in *.
  pose proof (keeps_request (client_to (rt_host_port rt)) "POST" "/invoke" input
                "application/json" (timeout_ms spec) e1) as Hq3.
  change (request _ _ _ _ _ _) with
    (post (client_to (rt_host_port rt)) "/invoke" input "application/json" (timeout_ms spec))
    in Hq3.
  unfold resp in *. clear resp. destruct (post _ _ _ _ _ e1) as [resp e2]. cbn [fst snd] in *.
  pose proof (keeps_elapsed_ms start e2) as Hq4.
  destruct (elapsed_ms start e2) as [d e3]. cbn [fst snd] in *.
  rewrite settle_run, Hv, bool_decide_eq_false_2 by done. cbn [andb].
  rewrite record_result_run. split; [done|].
  unfold settled_state, tracked. cbn [set_world set_runtimes runtimes_].
  rewrite lookup_insert_eq, decide_True, Hv by done.
  match goal with |- context [release ?f ?r ?s] => destruct (release_run f r s) as (Hr & _ & Hh) end.
  cbn [set_metrics runtimes_ world]. rewrite Hr, Hh. cbn [world set_world runtimes_]. split.
  - congruence.
  - eexists. cbn [set_runtimes runtimes_]. by rewrite insert_insert_eq.
Qed.

(** If the warm container turns out to be dead, it is removed, and the call is made
    once more on a new container: the caller sees a cold start or, if that cannot
    be started either, [infra_error]; whatever runtime remains is the new one, with
    the idle timeout registered by then. *)
Theorem dead_runtime_is_replaced (spec : FunctionSpec) (input : string) (m : Manager E)
    (rt : Runtime) :
  lock_inv m → runtimes_ m !! name spec = Some rt →
  let e1 := (steady_now (steady_now (world m)).2).2 in
  let resp := (post (client_to (rt_host_port rt)) "/invoke" input "application/json"
                 (timeout_ms spec) e1).1 in
  verdict resp = Some "dead" →
  let '(r, m') := invoke spec input m in
  (∃ h, history (world m') = history (world m) ++ Removed (rt_container_id rt) :: h) ∧
  (rt_container_id rt ∉ live (history (world m'))) ∧
  (inv_cold_start r = true ∨ inv_status r = "infra_error") ∧
  ∀ rt', runtimes_ m' !! name spec = Some rt' →
         rt_container_id rt' ≠ rt_container_id rt ∧ rt_idle_timeout_ms rt' = idle_timeout_ms spec.
Proof.
  intros Hm Hf e1 resp Hv. rewrite invoke_run, outside_run.
  rewrite (try_invoke_warm _ _ _ _ rt) by done. unfold e1 in *. clear e1. cbn [world set_world].
  pose proof (quiet_now (world m)) as Hq1. destruct (steady_now (world m)) as [start e0].
  cbn [fst snd] in *. pose proof (quiet_now e0) as Hq2.
  destruct (steady_now e0) as [now e1]. cbn [fst snd] in *.
  pose proof (keeps_request (client_to (rt_host_port rt)) "POST" "/invoke" input
                "application/json" (timeout_ms spec) e1) as Hq3.
  change (request _ _ _ _ _ _) with
    (post (client_to (rt_host_port rt)) "/invoke" input "application/json" (timeout_ms spec))
    in Hq3.
  unfold resp in *. clear resp. destruct (post _ _ _ _ _ e1) as [resp e2]. cbn [fst snd] in *.
  pose proof (keeps_elapsed_ms start e2) as Hq4.
  destruct (elapsed_ms start e2) as [d e3]. cbn [fst snd] in *.
  set (m1 := set_world e3 _).
  assert (lock_inv m1) as Hm1.
  { unfold m1. apply lock_inv_world; [simpl; congruence|].
    apply (lock_inv_set_used (set_world e0 m) (name spec) rt BUSY now);
      [by apply lock_inv_world|done|by left]. }
  assert (runtimes_ m1 !! name spec = Some (set_used BUSY now rt)) as Hf1 by apply lookup_insert_eq.
  rewrite settle_run, Hv, bool_decide_eq_true_2 by done. cbn [andb negb inv_cold_start result_of].
  unfold settled_state, tracked. rewrite Hf1, decide_True, Hv by done.
  pose proof (lock_inv_retire m1 _ _ "dead" Hm1 Hf1) as Hm2.
  change (rt_container_id (set_used BUSY now rt)) with (rt_container_id rt) in Hm2.
  destruct (retire_run (name spec) (rt_container_id rt) "dead" m1) as (Hr2 & _ & Hh2);
    [by apply (lock_inv_tracked_live m1 _ _ Hm1 Hf1)|].
  set (m2 := (retire _ _ _ m1).2) in *.
  assert (runtimes_ m2 !! name spec = None) as Hf2 by (rewrite Hr2; apply lookup_delete_eq).
  pose proof (try_invoke_fresh spec input start m2 Hm2 Hf2) as Hfresh.
  pose proof (try_invoke_post spec input start m2 Hm2) as Hpost.
  destruct (try_invoke spec input start m2) as [[r failed] m3].
  destruct Hpost as (Hm3 & _). destruct Hfresh as ((h & Hh3) & Hcold & Hnew).
  rewrite record_result_run. cbn [set_metrics world runtimes_].
  assert (history (world m1) = history (world m)) as Hh1 by (simpl; congruence).
  rewrite Hh2, Hh1, <-app_assoc in Hh3. split_and!; [by exists h| |done|].
  - intros Hl. apply (live_not_Removed _ _ (inv_ledger m3 Hm3) Hl). rewrite Hh3. set_solver.
  - intros rt' Hrt'. destruct (Hnew rt' Hrt') as [HC Hi]. split; [|done]. intros Heq.
    apply HC. rewrite Heq, Hh2. apply elem_of_app. left.
    apply live_Created, (lock_inv_tracked_live m1 _ _ Hm1 Hf1).
Qed.

(** C20: One pass of the reaper removes exactly the idle runtimes whose idle time has
    reached their timeout, one container each in name order, counts each under
    [idle_timeout], and leaves every other runtime untouched. *)
Theorem reap_pass_removes_expired (m : Manager E) :
  lock_inv m →
  let now := (steady_now (world m)).1 in
  let dead := expired_entries now (map_entries (runtimes_ m)) in
  let m' := (reap_pass m).2 in
  runtimes_ m' = filter (λ p, expired now p.2 = false) (runtimes_ m) ∧
  history (world m') = history (world m) ++ ((λ p, Removed (rt_container_id p.2)) <$> dead) ∧
  metrics_ m' = Nat.iter (length dead) (record_runtime_terminated "idle_timeout") (metrics_ m) ∧
  lock_inv m'.
Proof.
  intros Hm now dead m'. unfold m'. clear m'.
  set (m1 := set_world (steady_now (world m)).2 m).
  assert (reap_pass m = reap_entries now (map_entries (runtimes_ m)) m1) as ->.
  { unfold reap_pass. by rewrite st_bind_run, outside_run. }
  destruct (reap_entries_run now (map_entries (runtimes_ m)) m1) as (Hr & Hmt & Hh).
  - apply Forall_forall. intros [f rt] Hin%elem_of_map_entries. simpl. rewrite quiet_now.
    by eapply lock_inv_tracked_live.
  - by apply map_entries_distinct.
  - change (runtimes_ m1) with (runtimes_ m) in *. rewrite Hr, Hmt, Hh. split_and!; try done.
    + apply foldl_delete_expired.
    + simpl. by rewrite quiet_now.
    + destruct (map_entries_valid (runtimes_ m)) as [Hnd Hes].
      apply reap_entries_inv; [done|done|]. apply lock_inv_world; [apply quiet_now|done].
Qed.

(** [list_runtimes] reports every tracked runtime once, ordered by function name,
    and for each name says what [status] says; neither changes the books. *)
Theorem list_runtimes_agrees_with_status (m : Manager E) :
  let entries := (list_runtimes m).1 in
  StronglySorted key_le (re_function_name <$> entries) ∧
  NoDup (re_function_name <$> entries) ∧
  (∀ f, (status f m).1 = status_of_entry <$> head (filter (λ x, re_function_name x = f) entries)) ∧
  same_books m (list_runtimes m).2 ∧ (∀ f, same_books m (status f m).2).
Proof.
  intros entries. destruct (map_entries_valid (runtimes_ m)) as [Hnd Hv].
  set (now := (steady_now (world m)).1).
  assert (entries = list_entry now <$> map_entries (runtimes_ m)) as ->.
  { unfold entries, list_runtimes. by rewrite !st_bind_run, outside_run. }
  rewrite <-list_fmap_compose. change (re_function_name ∘ list_entry now) with (@fst string Runtime).
  split_and!; [apply map_entries_sorted|done| | |].
  - intros f. rewrite filter_fmap_list.
    rewrite (list_filter_iff _ (λ p, p.1 = f)) by done. rewrite map_entries_filter.
    unfold status, find_runtime. rewrite st_bind_run. cbn [fst snd].
    destruct (runtimes_ m !! f) as [rt|]; [|done].
    by rewrite st_bind_run, outside_run.
  - unfold list_runtimes. rewrite !st_bind_run. apply same_books_outside, quiet_now.
  - intros f. unfold status, find_runtime. rewrite st_bind_run. cbn [fst snd].
    destruct (runtimes_ m !! f); [|done]. rewrite st_bind_run.
    apply same_books_outside, quiet_now.
Qed.
End properties.

(** ** The hypotheses can be met *)

#[local] Existing Instance sim_before.

Lemma start_runtime_outcome_witness :
  (start_runtime demo_spec (new_sim [reply_dead; reply_ok])).1
  = inl {| rt_container_id := "c0"; rt_host_port := 30000; rt_state := STARTING;
           rt_last_used_at := 0; rt_idle_timeout_ms := 60000 |} ∧
  live (history (start_runtime demo_spec (new_sim [reply_dead; reply_ok])).2) = {["c0"]} ∪ ∅.
Proof.
  split; [by vm_compute|].
  pose proof (start_runtime_outcome demo_spec (new_sim [reply_dead; reply_ok])) as Hs.
  cbv zeta beta in Hs.
  destruct (start_runtime demo_spec _) as [r e'] eqn:Hr. 
  assert (r = inl {| rt_container_id := "c0"; rt_host_port := 30000; rt_state := STARTING;
                     rt_last_used_at := 0; rt_idle_timeout_ms := 60000 |}) as ->
    by (apply (f_equal fst) in Hr; vm_compute in Hr; by rewrite <-Hr).
  apply Hs.
Defined.

Lemma invoke_postcondition_witness :
  inv_status (invoke demo_spec "{}" (warm_platform [reply_dead; reply_ok; reply_ok])).1 = "success" ∧
  settled_result (invoke demo_spec "{}" (warm_platform [reply_dead; reply_ok; reply_ok])).1
    (runtimes_ (invoke demo_spec "{}" (warm_platform [reply_dead; reply_ok; reply_ok])).2 !! "hello").
Proof.
  split; [by vm_compute|].
  pose proof (invoke_postcondition demo_spec "{}" (warm_platform [reply_dead; reply_ok; reply_ok])
                (warm_platform_inv _)) as Hp.
  destruct (invoke _ _ _) as [r m']. apply Hp.
Defined.

Lemma warm_call_keeps_runtime_witness :
  history (world (invoke demo_spec "{}" (warm_platform [reply_ok])).2) = [Created "c0"].
Proof.
  assert (∃ rt, runtimes_ (warm_platform [reply_ok]) !! name demo_spec = Some rt ∧
            rt_host_port rt = 30000) as (rt & Hf & Hp) by (eexists; split; by vm_compute).
  pose proof (warm_call_keeps_runtime demo_spec "{}" (warm_platform [reply_ok]) rt
                (warm_platform_inv _) Hf) as Hw.
  rewrite Hp in Hw. cbv zeta in Hw.
  specialize (Hw ltac:(vm_compute; reflexivity)).
  destruct (invoke _ _ _) as [r m']. destruct Hw as (_ & Hh & _). cbn [snd].
  rewrite Hh. by vm_compute.
Defined.

Lemma reap_pass_removes_expired_witness :
  lock_inv (reap_pass (set_world (advance 60000000000 (world (idle_platform [])))
                         (idle_platform []))).2 ∧
  runtimes_ (reap_pass (set_world (advance 60000000000 (world (idle_platform [])))
                         (idle_platform []))).2 = ∅.
Proof.
  set (m := set_world _ _).
  assert (lock_inv m) as Hm by (apply lock_inv_world; [done|apply idle_platform_inv]).
  destruct (reap_pass_removes_expired m Hm) as (_ & _ & _ & Hinv).
  split; [done|]. by vm_compute.
Defined.

Lemma list_runtimes_agrees_with_status_witness :
  (re_function_name <$> (list_runtimes (warm_platform [])).1) = ["hello"] ∧
  NoDup (re_function_name <$> (list_runtimes (warm_platform [])).1).
Proof.
  split; [by vm_compute|]. apply (list_runtimes_agrees_with_status (warm_platform [])).
Defined.

Lemma dead_runtime_is_replaced_witness :
  rt_container_id <$> (runtimes_ (invoke demo_spec "{}" (warm_platform [reply_dead; reply_ok; reply_ok])).2
                         !! "hello") = Some "c1" ∧
  ("c0" ∉ live (history (world (invoke demo_spec "{}"
                                   (warm_platform [reply_dead; reply_ok; reply_ok])).2))).
Proof.
  split; [by vm_compute|].
  set (m := warm_platform _).
  assert (∃ rt, runtimes_ m !! name demo_spec = Some rt ∧ rt_host_port rt = 30000 ∧
            rt_container_id rt = "c0") as (rt & Hf & Hp & Hc)
    by (eexists; split_and!; by vm_compute).
  pose proof (dead_runtime_is_replaced demo_spec "{}" m rt (warm_platform_inv _) Hf) as Hw.
  rewrite Hp, Hc in Hw. cbv zeta in Hw. specialize (Hw ltac:(vm_compute; reflexivity)).
  destruct (invoke demo_spec "{}" m) as [r m']. by destruct Hw as (_ & Hl & _).
Defined.

(** A container that was reached and died while answering is treated like one that
    could not be reached: the call is made again, so the function may run twice. *)
Theorem half_written_reply_is_retried :
  let m := warm_platform [(["HTTP/1.1 200 OK" +:+ CRLF +:+ "Content-Le"], RecvClosed);
                          reply_ok; reply_ok] in
  let '(r, m') := invoke demo_spec "{}" m in
  inv_status r = "success" ∧ inv_cold_start r = true ∧
  history (world m') = [Created "c0"; Removed "c0"; Created "c1"] ∧
  sim_replies (world m') = [].
Proof. by vm_compute. Qed.

(** ** A removal that fails

    The contract lets [remove_container] return [false] and leave the container; the
    manager looks at the result nowhere. *)

Section failed_removal.
  Context {E : Type} `{Clock E, ContainerBackend E, Sockets E, BackendHistory E}.
  Context `{!BackendContract E}.

(** Whoever lets a runtime go - a deletion, the reaper, a call that found it late or dead -
    forgets it and counts it as terminated whether its container was removed or not. *)
Theorem failed_removal_leaks_container (fname reason : string) (m : Manager E) (rt : Runtime) :
  runtimes_ m !! fname = Some rt → rt_container_id rt ∈ live (history (world m)) →
  let '(removed, e') := remove_container (rt_container_id rt) (world m) in
  let m' := (retire fname (rt_container_id rt) reason m).2 in
  runtimes_ m' !! fname = None ∧ metrics_ m' = record_runtime_terminated reason (metrics_ m) ∧
  (removed = true → rt_container_id rt ∉ live (history (world m'))) ∧
  (removed = false → history (world m') = history (world m) ++ [Removed (rt_container_id rt)] ∨
                     rt_container_id rt ∈ live (history (world m'))).
Proof.
  intros Hf Hlive. pose proof (remove_container_attempt _ _ Hlive) as Ha.
  unfold retire. rewrite st_bind_run, outside_run. simpl.
  destruct (remove_container (rt_container_id rt) (world m)) as [removed e']. simpl.
  rewrite lookup_delete_eq. split_and!; [done|done|..].
  - intros ->. destruct Ha as [-> |[? _]]; [|done]. rewrite live_snoc. simpl. set_solver.
  - intros _. destruct Ha as [-> |[_ ->]]; [by left|by right].
Qed.
End failed_removal.

(** A daemon that refuses every removal. *)
Definition stubborn_backend : ContainerBackend Sim := {|
  run_container := @run_container Sim sim_backend;
  get_host_port := @get_host_port Sim sim_backend;
  remove_container i := mret false;
|}.
Lemma stubborn_contract : @BackendContract Sim stubborn_backend _.
Proof.
  split; [exact (@run_container_spec Sim sim_backend _ _)|done|]. intros i e _. by right.
Qed.

(** The function is deleted, its runtime is counted as terminated, and its container runs
    on, known to nobody. *)
Theorem deleted_runtime_keeps_running :
  let m := (@terminate Sim stubborn_backend "hello" (warm_platform [])).2 in
  runtimes_ m = ∅ ∧ total (runtimes_terminated_ (metrics_ m)) = 1 ∧ "c0" ∈ live (history (world m)).
Proof.
  split; [by vm_compute|]. split; [by vm_compute|]. by vm_compute.
Qed.
