(* ===== verification/RuntimeConcurrency.v ===== *)
(** * The runtime manager under concurrency

    Request threads, the reaper thread and delete requests interleave at the
    granularity of the manager's mutex: every step below is one critical section
    of [runtime_manager.cpp], or the answer of a container to an unlocked call, or the
    rest of the world moving on. That a container answers is not assumed: a thread in
    [client.post] may stay there in every later state, and [Timeouts] says when the call
    gives up on a silent container and when it never does. *)

From S2P Require Import Prelude CppStd StringFacts ContainerBackend FunctionModel Metrics Http.
From S2P Require Import HttpClient RuntimeManager RuntimeInvariant RuntimeCalls.

(** Where a thread stands in [invoke]. *)
Inductive Call : Type :=
  | Ready (spec : FunctionSpec) (retried : bool)
      (* about to lock the mutex for an attempt *)
  | Calling (spec : FunctionSpec) (retried cold_start : bool) (host_port : Z) (container_id : string)
      (* the mutex is free, the POST is under way *)
  | Replied (spec : FunctionSpec) (retried cold_start : bool) (container_id : string)
      (duration_ms : Z) (resp : ClientResponse)
      (* about to lock the mutex again *)
  | Finished (result : InvocationResult)
      (* about to record the invocation *).

Record Sys (E : Type) : Type := {
  mgr : Manager E;
  calls : gmap nat Call;
}.
Arguments mgr {_} _.
Arguments calls {_} _.

Inductive label : Type :=
  | Arrive (t : nat)
  | Own (t : nat)
  | Reap
  | Delete (function_name : string)
  | World.

Definition after_acquire (spec : FunctionSpec) (retried : bool) (duration_ms : Z) (a : attempt) :
    Call :=
  match a with
  | StartFailed error =>
      Finished {| inv_status := "infra_error"; inv_output := error;
                  inv_duration_ms := duration_ms; inv_cold_start := false |}
  | Acquired cold_start host_port container_id =>
      Calling spec retried cold_start host_port container_id
  end.

(** [connection_failed && !result.cold_start], once. *)
Definition after_settle (spec : FunctionSpec) (retried : bool) (p : InvocationResult * bool) : Call :=
  if p.2 && negb (inv_cold_start p.1) && negb retried then Ready spec true else Finished p.1.

Section system.
  Context {E : Type} `{Clock E, ContainerBackend E, Sockets E, BackendHistory E}.
  Implicit Types (m : Manager E) (s : Sys E).

Definition start_of (e : E) : Sys E := {| mgr := new_manager e; calls := ∅ |}.

Definition with_mgr m s : Sys E := {| mgr := m; calls := calls s |}.
Definition with_call (t : nat) (c : Call) s : Sys E :=
  {| mgr := mgr s; calls := <[t := c]> (calls s) |}.
Definition without_call (t : nat) s : Sys E :=
  {| mgr := mgr s; calls := delete t (calls s) |}.

(** [step_reply] is the return of [client.post], with whatever response after whatever
    time; nothing says when, or that it comes. *)
Inductive step : Sys E → label → Sys E → Prop :=
  | step_arrive t spec s :
      calls s !! t = None →
      step s (Arrive t) (with_call t (Ready spec false) s)
  | step_acquire t spec retried duration_ms s :
      calls s !! t = Some (Ready spec retried) →
      step s (Own t)
        (with_call t (after_acquire spec retried duration_ms (acquire spec (mgr s)).1)
           (with_mgr (acquire spec (mgr s)).2 s))
  | step_reply t spec retried cold_start host_port container_id duration_ms resp s :
      calls s !! t = Some (Calling spec retried cold_start host_port container_id) →
      step s (Own t)
        (with_call t (Replied spec retried cold_start container_id duration_ms resp) s)
  | step_settle t spec retried cold_start container_id duration_ms resp s :
      calls s !! t = Some (Replied spec retried cold_start container_id duration_ms resp) →
      step s (Own t)
        (with_call t
           (after_settle spec retried
              (settle spec cold_start container_id duration_ms resp (mgr s)).1)
           (with_mgr (settle spec cold_start container_id duration_ms resp (mgr s)).2 s))
  | step_record t result s :
      calls s !! t = Some (Finished result) →
      step s (Own t) (without_call t (with_mgr (record_result result (mgr s)).2 s))
  | step_reap s :
      step s Reap (with_mgr (reap_pass (mgr s)).2 s)
  | step_delete function_name s :
      step s (Delete function_name) (with_mgr (terminate function_name (mgr s)).2 s)
  | step_world e s :
      history e = history (world (mgr s)) →
      step s World (with_mgr (set_world e (mgr s)) s).

Inductive run (s : Sys E) : list label → Sys E → Prop :=
  | run_nil : run s [] s
  | run_snoc tr l s1 s2 : run s tr s1 → step s1 l s2 → run s (tr ++ [l]) s2.

Lemma run_one s l s' : step s l s' → run s [l] s'.
Proof. intros Hs. apply (run_snoc s [] l s s'); [constructor|done]. Qed.
Lemma run_app s tr s1 tr' s2 : run s tr s1 → run s1 tr' s2 → run s (tr ++ tr') s2.
Proof.
  intros Hr1 Hr2. induction Hr2 as [|tr' l s2 s3 _ IH Hs]; [by rewrite app_nil_r|].
  rewrite app_assoc. by eapply run_snoc.
Qed.
End system.

(** ** Counting over the calls in flight *)

Section weigh.
  Context {A : Type}.
  Implicit Types (w : A → Z) (cs : gmap nat A).

Definition weigh w cs : Z := map_fold (λ _ c acc, w c + acc) 0 cs.

Lemma weigh_new w t c cs : cs !! t = None → weigh w (<[t := c]> cs) = w c + weigh w cs.
Proof.
  intros Ht. apply (map_fold_insert_L (λ _ c acc, w c + acc)); [|done]. intros. lia.
Qed.
Lemma weigh_delete w t c cs : cs !! t = Some c → weigh w (delete t cs) = weigh w cs - w c.
Proof.
  intros Ht. rewrite <-(insert_id cs t c Ht) at 2. rewrite <-insert_delete_eq, weigh_new by
    apply lookup_delete_eq. lia.
Qed.
Lemma weigh_update w t c c' cs :
  cs !! t = Some c → weigh w (<[t := c']> cs) = weigh w cs - w c + w c'.
Proof.
  intros Ht. rewrite <-insert_delete_eq, weigh_new by apply lookup_delete_eq.
  rewrite (weigh_delete _ _ c) by done. lia.
Qed.
Lemma weigh_nonneg w cs : (∀ c, 0 ≤ w c) → 0 ≤ weigh w cs.
Proof.
  intros Hw. apply (map_fold_weak_ind (λ x _, 0 ≤ x)); [done|].
  intros t c cs' x _ Hx. specialize (Hw c). lia.
Qed.

Lemma weigh_size cs : weigh (λ _, 1) cs = Z.of_nat (size cs).
Proof.
  induction cs as [|t c cs Ht IH] using map_ind; [done|].
  rewrite weigh_new, map_size_insert_None by done. lia.
Qed.

End weigh.

(** A call that has created no container. *)
Definition uncreated (c : Call) : Z :=
  match c with
  | Ready _ _ => 1
  | Calling _ _ cold_start _ _ | Replied _ _ cold_start _ _ _ => if cold_start then 0 else 1
  | Finished _ => 0
  end.

(** The steps a call has left to take at most. *)
Definition rank (c : Call) : Z :=
  match c with
  | Ready _ retried => if retried then 4 else 7
  | Calling _ retried _ _ _ => if retried then 3 else 6
  | Replied _ retried _ _ _ _ => if retried then 2 else 5
  | Finished _ => 1
  end.

Definition is_arrival (l : label) : Prop := match l with Arrive _ => True | _ => False end.
#[export] Instance is_arrival_dec l : Decision (is_arrival l).
Proof. destruct l; simpl; apply _. Defined.
Definition is_own (l : label) : Prop := match l with Own _ => True | _ => False end.
#[export] Instance is_own_dec l : Decision (is_own l).
Proof. destruct l; simpl; apply _. Defined.

Definition arrivals (tr : list label) : Z := Z.of_nat (length (filter is_arrival tr)).
Definition own_steps (tr : list label) : Z := Z.of_nat (length (filter is_own tr)).

Lemma arrivals_snoc tr l :
  arrivals (tr ++ [l]) = arrivals tr + match l with Arrive _ => 1 | _ => 0 end.
Proof. unfold arrivals. rewrite filter_app, length_app. destruct l; simpl; lia. Qed.
Lemma own_steps_snoc tr l :
  own_steps (tr ++ [l]) = own_steps tr + match l with Own _ => 1 | _ => 0 end.
Proof. unfold own_steps. rewrite filter_app, length_app. destruct l; simpl; lia. Qed.

(** The function and container a call is using. *)
Definition serving (c : Call) : option (string * string) :=
  match c with
  | Calling spec _ _ _ container_id | Replied spec _ _ container_id _ _ =>
      Some (name spec, container_id)
  | _ => None
  end.

Section invariants.
  Context {E : Type} `{Clock E, ContainerBackend E, Sockets E, BackendHistory E}.
  Context `{!BackendSpec E, !QuietWorld E} {past : Before}.
  Implicit Types (m : Manager E) (s : Sys E).

(** ** The mutex invariant holds between any two steps *)

Lemma step_lock_inv s l s' : step s l s' → lock_inv (mgr s) → lock_inv (mgr s').
Proof.
  destruct 1; simpl; intros Hm; try done.
  - by apply lock_inv_acquire.
  - by apply lock_inv_settle.
  - by apply lock_inv_record_result.
  - by apply lock_inv_reap_pass.
  - by apply lock_inv_terminate.
  - by apply lock_inv_world.
Qed.

Lemma run_lock_inv s tr s' : run s tr s' → lock_inv (mgr s) → lock_inv (mgr s').
Proof. induction 1; [done|]. intros Hs. eapply step_lock_inv; [done|auto]. Qed.

(** An invariant of the steps that may use [lock_inv]. *)
Lemma run_induction (P : list label → Sys E → Prop) s0 :
  lock_inv (mgr s0) → P [] s0 →
  (∀ tr s l s', lock_inv (mgr s) → P tr s → step s l s' → P (tr ++ [l]) s') →
  ∀ tr s, run s0 tr s → P tr s.
Proof.
  intros Hm0 Hnil Hstep tr s Hrun. induction Hrun; [done|].
  eapply Hstep; [|done|done]. by eapply run_lock_inv.
Qed.

(** ** What the background operations do *)

Lemma reap_pass_run m :
  lock_inv m →
  let now := (steady_now (world m)).1 in
  let dead := expired_entries now (map_entries (runtimes_ m)) in
  let m' := (reap_pass m).2 in
  runtimes_ m' = foldl (λ rs p, delete p.1 rs) (runtimes_ m) dead ∧
  metrics_ m' = Nat.iter (length dead) (record_runtime_terminated "idle_timeout") (metrics_ m) ∧
  history (world m') = history (world m) ++ ((λ p, Removed (rt_container_id p.2)) <$> dead).
Proof.
  intros Hm now dead m'. unfold m'. clear m'.
  set (m1 := set_world (steady_now (world m)).2 m).
  assert (reap_pass m = reap_entries now (map_entries (runtimes_ m)) m1) as ->.
  { unfold reap_pass. by rewrite st_bind_run, outside_run. }
  assert (history (world m1) = history (world m)) as Hh by apply quiet_now.
  rewrite <-Hh. apply (reap_entries_run now (map_entries (runtimes_ m)) m1).
  - apply Forall_forall. intros [f rt] Hin%elem_of_map_entries. cbn [snd]. rewrite Hh.
    by eapply lock_inv_tracked_live.
  - by apply map_entries_distinct.
Qed.

Lemma creations_removals {A} (f : A → string) (l : list A) :
  creations ((λ x, Removed (f x)) <$> l) = 0%nat.
Proof. by induction l. Qed.

Lemma iter_terminated n reason mt :
  let mt' := Nat.iter n (record_runtime_terminated reason) mt in
  invocation_counts_ mt' = invocation_counts_ mt ∧
  (∀ r, is_Some (runtimes_terminated_ mt' !! r) → r = reason ∨ is_Some (runtimes_terminated_ mt !! r)).
Proof.
  induction n as [|n [IHi IHr]]; [by auto|]. simpl. split; [done|]. intros r.
  unfold increment. rewrite lookup_insert_is_Some'. intros [?|Hr]; [by left|by apply IHr].
Qed.

Lemma terminate_run f m :
  lock_inv m →
  let m' := (terminate f m).2 in
  match runtimes_ m !! f with
  | None => m' = m
  | Some rt =>
      runtimes_ m' = delete f (runtimes_ m) ∧
      metrics_ m' = record_runtime_terminated "deleted" (metrics_ m) ∧
      history (world m') = history (world m) ++ [Removed (rt_container_id rt)]
  end.
Proof.
  intros Hm. unfold terminate, find_runtime. rewrite st_bind_run. cbn [fst snd].
  destruct (runtimes_ m !! f) as [rt|] eqn:Hf; [|done].
  apply retire_run. by eapply lock_inv_tracked_live.
Qed.

Lemma settle_effect spec cold cid d resp m :
  lock_inv m →
  let m' := (settle spec cold cid d resp m).2 in
  match tracked (name spec) cid m, verdict resp with
  | None, _ => m' = m
  | Some rt, None =>
      (∃ now, runtimes_ m' = <[name spec := set_used IDLE now rt]> (runtimes_ m)) ∧
      metrics_ m' = metrics_ m ∧ history (world m') = history (world m)
  | Some rt, Some reason =>
      runtimes_ m' = delete (name spec) (runtimes_ m) ∧
      metrics_ m' = record_runtime_terminated reason (metrics_ m) ∧
      history (world m') = history (world m) ++ [Removed cid]
  end.
Proof.
  intros Hm. rewrite settle_run. cbn [snd]. unfold settled_state.
  destruct (tracked _ _ m) as [rt|] eqn:Ht; [|done].
  apply tracked_Some in Ht as [Hf <-].
  destruct (verdict resp).
  - apply retire_run. by eapply lock_inv_tracked_live.
  - destruct (release_run (name spec) rt m) as (Hr & Hmt & Hh). eauto.
Qed.

(** ** Counting invariants *)

Record counts_inv (tr : list label) (s : Sys E) : Prop := {
  ci_creations : Z.of_nat (creations (history (world (mgr s)))) + weigh uncreated (calls s)
                 ≤ arrivals tr + Z.of_nat (creations before);
  ci_recorded : total (invocation_counts_ (metrics_ (mgr s))) + weigh (λ _, 1) (calls s)
                = arrivals tr;
  ci_rank : own_steps tr + weigh rank (calls s) ≤ 7 * arrivals tr;
}.

Lemma acquire_counts spec retried d m :
  Z.of_nat (creations (history (world (acquire spec m).2)))
    + uncreated (after_acquire spec retried d (acquire spec m).1)
  ≤ Z.of_nat (creations (history (world m))) + 1 ∧
  invocation_counts_ (metrics_ (acquire spec m).2) = invocation_counts_ (metrics_ m) ∧
  rank (after_acquire spec retried d (acquire spec m).1) ≤ rank (Ready spec retried) - 1.
Proof.
  pose proof (acquire_effect spec m) as Ha.
  destruct (acquire spec m) as [[err|[] port cid] m']; cbn [fst snd] in *.
  - destruct Ha as (_ & _ & -> & Hh). cbn [after_acquire uncreated rank].
    split_and!; [|done|by destruct retried].
    destruct Hh as [-> |(i & _ & _ & ->)];
      rewrite ?creations_app, ?creations_discarded; lia.
  - destruct Ha as (rt & now & _ & _ & _ & _ & _ & _ & _ & _ & -> & ->).
    rewrite creations_app, creations_one. cbn [after_acquire uncreated rank].
    split_and!; [lia|done|by destruct retried].
  - destruct Ha as (rt & now & _ & _ & _ & _ & -> & ->).
    cbn [after_acquire uncreated rank]. split_and!; [lia|done|by destruct retried].
Qed.

Lemma settle_counts spec retried cold cid d resp m :
  lock_inv m →
  let '(p, m') := settle spec cold cid d resp m in
  creations (history (world m')) = creations (history (world m)) ∧
  uncreated (after_settle spec retried p) ≤ (if cold then 0 else 1) ∧
  invocation_counts_ (metrics_ m') = invocation_counts_ (metrics_ m) ∧
  rank (after_settle spec retried p) ≤ rank (Replied spec retried cold cid d resp) - 1.
Proof.
  intros Hm. pose proof (settle_effect spec cold cid d resp m Hm) as He.
  rewrite settle_run in *. cbn [snd] in He. unfold after_settle. cbn [fst snd inv_cold_start result_of].
  assert (creations (history (world (settled_state (name spec) cid resp m)))
          = creations (history (world m)) ∧
          invocation_counts_ (metrics_ (settled_state (name spec) cid resp m))
          = invocation_counts_ (metrics_ m)) as [Hc Hi].
  { destruct (tracked _ _ m), (verdict resp); [| |by rewrite He..].
    - destruct He as (_ & -> & ->). by rewrite creations_app, creations_removed, Nat.add_0_r.
    - by destruct He as (_ & -> & ->). }
  split_and!; [done| |done|].
  - destruct (bool_decide _), cold, retried; simpl; lia.
  - destruct (bool_decide _), cold, retried; simpl; lia.
Qed.

Lemma record_result_total r m :
  total (invocation_counts_ (metrics_ (record_result r m).2))
  = total (invocation_counts_ (metrics_ m)) + 1.
Proof. rewrite record_result_run. simpl. apply total_increment. Qed.

Lemma background_counts s l s' :
  step s l s' → lock_inv (mgr s) → ¬ is_own l → ¬ is_arrival l →
  calls s' = calls s ∧
  creations (history (world (mgr s'))) = creations (history (world (mgr s))) ∧
  invocation_counts_ (metrics_ (mgr s')) = invocation_counts_ (metrics_ (mgr s)).
Proof.
  destruct 1; cbn [is_own is_arrival mgr with_mgr calls]; intros Hm Hno Hna; try done; split; try done.
  - destruct (reap_pass_run (mgr s) Hm) as (_ & Hmt & Hh). rewrite Hmt, Hh.
    rewrite creations_app, creations_removals, Nat.add_0_r. split; [done|].
    by apply iter_terminated.
  - pose proof (terminate_run function_name (mgr s) Hm) as Ht.
    destruct (runtimes_ (mgr s) !! function_name); [|by rewrite Ht].
    destruct Ht as (_ & -> & ->). by rewrite creations_app, creations_removed, Nat.add_0_r.
  - simpl. split; [congruence|done].
Qed.

Lemma counts_inv_step tr s l s' :
  lock_inv (mgr s) → counts_inv tr s → step s l s' → counts_inv (tr ++ [l]) s'.
Proof.
  intros Hm [Hc Hr Hk] Hs.
  assert (¬ is_own l → ¬ is_arrival l → counts_inv (tr ++ [l]) s') as Hbg.
  { intros Hno Hna. destruct (background_counts s l s' Hs Hm Hno Hna) as (Hcs & Hcr & Hi).
    destruct l; simpl in Hno, Hna; try tauto;
      split; rewrite ?arrivals_snoc, ?own_steps_snoc, ?Hcs, ?Hcr, ?Hi; lia. }
  destruct Hs as [t spec s Ht|t spec retried d s Ht|t spec retried cold port cid d resp s Ht
                 |t spec retried cold cid d resp s Ht|t r s Ht| | |]; try solve [apply Hbg; intros []]; clear Hbg;
    split; rewrite ?arrivals_snoc, ?own_steps_snoc; cbn [with_call with_mgr without_call mgr calls];
    rewrite ?(weigh_new _ _ _ _ Ht), ?(weigh_update _ _ _ _ _ Ht), ?(weigh_delete _ _ _ _ Ht);
    cbn [uncreated rank]; try lia.
  all: try (destruct (acquire_counts spec retried d (mgr s)) as (Ha1 & Ha2 & Ha3);
            cbn [rank] in Ha3; rewrite ?Ha2; lia).
  all: try (pose proof (settle_counts spec retried cold cid d resp (mgr s) Hm) as Hst;
            destruct (settle spec cold cid d resp (mgr s)) as [p m'];
            destruct Hst as (Hs1 & Hs2 & Hs3 & Hs4); cbn [fst snd rank] in *;
            rewrite ?Hs1, ?Hs3; lia).
  - destruct retried; lia.
  - rewrite record_result_run. simpl. lia.
  - rewrite record_result_total. lia.
Qed.

(** ** Calls and the containers they use *)

Record calls_inv (s : Sys E) : Prop := {
  cv_busy f rt : runtimes_ (mgr s) !! f = Some rt → rt_state rt = BUSY →
    ∃ t c, calls s !! t = Some c ∧ serving c = Some (f, rt_container_id rt);
  cv_known t c f i : calls s !! t = Some c → serving c = Some (f, i) →
    Created i ∈ history (world (mgr s));
  cv_home t c f i g rt : calls s !! t = Some c → serving c = Some (f, i) →
    runtimes_ (mgr s) !! g = Some rt → rt_container_id rt = i → g = f;
}.

(** A change that only removes runtimes or takes them out of [BUSY], under calls
    that serve no less. *)
Lemma calls_inv_shrink s s' :
  calls_inv s →
  (∀ f rt', runtimes_ (mgr s') !! f = Some rt' → ∃ rt,
     runtimes_ (mgr s) !! f = Some rt ∧ rt_container_id rt = rt_container_id rt' ∧
     (rt_state rt' = BUSY → rt_state rt = BUSY)) →
  (∀ ev, ev ∈ history (world (mgr s)) → ev ∈ history (world (mgr s'))) →
  (∀ t c x, calls s' !! t = Some c → serving c = Some x →
     ∃ c0, calls s !! t = Some c0 ∧ serving c0 = Some x) →
  (∀ t c f i, calls s !! t = Some c → serving c = Some (f, i) →
     (∃ rt, runtimes_ (mgr s') !! f = Some rt ∧ rt_container_id rt = i ∧ rt_state rt = BUSY) →
     ∃ c', calls s' !! t = Some c' ∧ serving c' = Some (f, i)) →
  calls_inv s'.
Proof.
  intros [Hb Hk Hh] Hrt Hhist Hback Hfwd. split.
  - intros f rt' Hf Hst. destruct (Hrt f rt' Hf) as (rt & Hf0 & Hi & Hbusy).
    destruct (Hb f rt Hf0 (Hbusy Hst)) as (t & c & Ht & Hs).
    rewrite Hi in Hs.
    destruct (Hfwd t c f (rt_container_id rt') Ht Hs) as (c' & Ht' & Hs'); [by eauto|].
    by exists t, c'.
  - intros t c f i Ht Hs. destruct (Hback t c (f, i) Ht Hs) as (c0 & Ht0 & Hs0).
    by eapply Hhist, Hk.
  - intros t c f i g rt' Ht Hs Hg Hi. destruct (Hback t c (f, i) Ht Hs) as (c0 & Ht0 & Hs0).
    destruct (Hrt g rt' Hg) as (rt & Hg0 & Hi0 & _). eapply Hh; [done|done|done|congruence].
Qed.

Lemma calls_inv_background s m' :
  calls_inv s →
  (∀ f rt, runtimes_ m' !! f = Some rt → runtimes_ (mgr s) !! f = Some rt) →
  (∀ ev, ev ∈ history (world (mgr s)) → ev ∈ history (world m')) →
  calls_inv (with_mgr m' s).
Proof.
  intros Hi Hrt Hh. apply (calls_inv_shrink s); [done| |done|by eauto|by eauto].
  intros f rt' Hf. exists rt'. by eauto.
Qed.

Lemma calls_inv_settle t spec retried cold cid d resp s :
  lock_inv (mgr s) → calls_inv s →
  calls s !! t = Some (Replied spec retried cold cid d resp) →
  calls_inv (with_call t (after_settle spec retried (settle spec cold cid d resp (mgr s)).1)
               (with_mgr (settle spec cold cid d resp (mgr s)).2 s)).
Proof.
  intros Hm Hi Ht. pose proof (settle_effect spec cold cid d resp (mgr s) Hm) as He.
  destruct (settle spec cold cid d resp (mgr s)) as [p m']. cbn [fst snd] in *.
  assert (serving (after_settle spec retried p) = None) as Hno
    by (unfold after_settle; by destruct (_ && negb retried)).
  assert ((∀ f rt', runtimes_ m' !! f = Some rt' → ∃ rt,
             runtimes_ (mgr s) !! f = Some rt ∧ rt_container_id rt = rt_container_id rt' ∧
             (rt_state rt' = BUSY → rt_state rt = BUSY)) ∧
          (∀ ev, ev ∈ history (world (mgr s)) → ev ∈ history (world m')) ∧
          (∀ rt, runtimes_ m' !! name spec = Some rt → rt_container_id rt = cid →
                 rt_state rt ≠ BUSY)) as (Hrt & Hh & Hidle).
  { destruct (tracked (name spec) cid (mgr s)) as [rt|] eqn:Htr.
    - pose proof (tracked_Some _ _ _ _ Htr) as [Hf Hc]. destruct (verdict resp).
      + destruct He as (-> & _ & ->). split_and!; [|set_solver|].
        * intros f rt' [_ ?]%lookup_delete_Some. by exists rt'.
        * intros rt'. by rewrite lookup_delete_eq.
      + destruct He as ([now ->] & _ & ->). split_and!; [|done|].
        * intros f rt' [[<- <-]|[_ ?]]%lookup_insert_Some; [by exists rt|by exists rt'].
        * intros rt'. rewrite lookup_insert_eq. by intros [= <-].
    - rewrite He. split_and!; [by eauto|done|]. intros rt Hf Hc.
      unfold tracked in Htr. rewrite Hf, decide_True in Htr; done. }
  apply (calls_inv_shrink s); [done|done|done| |].
  - intros t' c x. cbn [with_call calls with_mgr].
    rewrite lookup_insert_Some. intros [[<- <-]|[Hne Ht']] Hs; [congruence|by eauto].
  - intros t' c f i Ht' Hs (rt & Hf & Hc & Hst). cbn [with_call calls with_mgr mgr] in *.
    rewrite lookup_insert_ne; [by eauto|]. intros <-. simplify_eq. simpl in Hs. simplify_eq.
    exfalso. apply (Hidle rt); congruence.
Qed.

Lemma calls_inv_acquire t spec retried d s :
  lock_inv (mgr s) → calls_inv s →
  calls s !! t = Some (Ready spec retried) →
  calls_inv (with_call t (after_acquire spec retried d (acquire spec (mgr s)).1)
               (with_mgr (acquire spec (mgr s)).2 s)).
Proof.
  intros Hm Hi Ht. pose proof (acquire_effect spec (mgr s)) as Ha.
  pose proof (lock_inv_acquire spec (mgr s) Hm) as Hm'.
  destruct (acquire spec (mgr s)) as [a m']. cbn [fst snd] in *.
  destruct a as [err|cold port cid]; cbn [after_acquire].
  - destruct Ha as (_ & Hr & _ & Hh). apply (calls_inv_shrink s); [done| | | |];
      cbn [with_call with_mgr mgr calls].
    + rewrite Hr. by eauto.
    + destruct Hh as [-> |(i & _ & _ & ->)]; set_solver.
    + intros t' c x. rewrite lookup_insert_Some. intros [[<- <-]|[Hne Ht']] Hs; [done|by eauto].
    + intros t' c f i Ht' Hs _. rewrite lookup_insert_ne; [by eauto|]. intros <-. by simplify_eq.
  - destruct Ha as (rt & now & <- & <- & Hr & Ha). destruct Hi as [Hb Hk Hhm].
    assert (runtimes_ m' !! name spec = Some (set_used BUSY now rt)) as Hf
      by (by rewrite Hr, lookup_insert_eq).
    assert (∀ ev, ev ∈ history (world (mgr s)) → ev ∈ history (world m')) as Hh.
    { destruct cold; [destruct Ha as (_ & _ & _ & _ & _ & _ & ->); set_solver
                     |by destruct Ha as (_ & _ & ->)]. }
    split; cbn [with_call with_mgr mgr calls].
    + intros f r Hfr Hst. rewrite Hr in Hfr.
      apply lookup_insert_Some in Hfr as [[<- <-]|[Hne Hfr]].
      * eexists t, _. rewrite lookup_insert_eq. done.
      * destruct (Hb f r Hfr Hst) as (t' & c & Ht' & Hs). exists t', c.
        rewrite lookup_insert_ne; [done|]. intros <-. by simplify_eq.
    + intros t' c f i. rewrite lookup_insert_Some. intros [[<- <-]|[Hne Ht']] Hs; [|by eauto].
      simpl in Hs. simplify_eq. eapply live_Created, (lock_inv_tracked_live m' _ _ Hm' Hf).
    + intros t' c f i g r. rewrite lookup_insert_Some. intros [[<- <-]|[Hne Ht']] Hs Hg Hi.
      * simpl in Hs. simplify_eq. symmetry. by eapply (inv_distinct m' Hm').
      * rewrite Hr in Hg. apply lookup_insert_Some in Hg as [[<- <-]|[Hng Hg]]; [|by eauto].
        simpl in Hi. pose proof (Hk _ _ _ _ Ht' Hs) as HC. destruct cold.
        -- destruct Ha as (_ & HnC & _). congruence.
        -- destruct Ha as (Hold & _). by eauto.
Qed.

Lemma calls_inv_step s l s' :
  lock_inv (mgr s) → calls_inv s → step s l s' → calls_inv s'.
Proof.
  intros Hm Hi Hs.
  destruct Hs as [t spec s Ht|t spec retried d s Ht|t spec retried cold port cid d resp s Ht
                 |t spec retried cold cid d resp s Ht|t r s Ht|s|f s|e s He].
  - apply (calls_inv_shrink s); [done|by eauto|done| |]; cbn [with_call calls].
    + intros t' c x. rewrite lookup_insert_Some. intros [[<- <-]|[Hne Ht']] Hs; [done|by eauto].
    + intros t' c f i Ht' Hs _. rewrite lookup_insert_ne; [by eauto|]. intros <-. congruence.
  - by apply calls_inv_acquire.
  - apply (calls_inv_shrink s); [done|by eauto|done| |]; cbn [with_call calls].
    + intros t' c x. rewrite lookup_insert_Some. intros [[<- <-]|[Hne Ht']] Hs; by eauto.
    + intros t' c f i Ht' Hs _. destruct (decide (t = t')) as [<-|Hne].
      * rewrite lookup_insert_eq. simplify_eq. by eauto.
      * rewrite lookup_insert_ne by done. by eauto.
  - by apply calls_inv_settle.
  - apply (calls_inv_shrink s); [done|by eauto|done| |]; cbn [without_call with_mgr calls].
    + intros t' c x [_ ?]%lookup_delete_Some. by eauto.
    + intros t' c f i Ht' Hs _. rewrite lookup_delete_ne; [by eauto|]. intros <-. by simplify_eq.
  - destruct (reap_pass_run (mgr s) Hm) as (Hr & _ & Hh). apply calls_inv_background; [done| |].
    + rewrite Hr. intros f rt. rewrite foldl_delete_lookup. by case_decide.
    + rewrite Hh. set_solver.
  - pose proof (terminate_run f (mgr s) Hm) as Ht. apply calls_inv_background; [done| |];
      destruct (runtimes_ (mgr s) !! f) eqn:Hf; [|by rewrite Ht| |by rewrite Ht];
      destruct Ht as (Hr & _ & Hh).
    + rewrite Hr. by intros g rt [_ ?]%lookup_delete_Some.
    + rewrite Hh. set_solver.
  - apply calls_inv_background; [done|done|]. simpl. by rewrite He.
Qed.

(** ** What the runtimes were started for *)

Definition call_spec (c : Call) : option FunctionSpec :=
  match c with
  | Ready spec _ | Calling spec _ _ _ _ | Replied spec _ _ _ _ _ => Some spec
  | Finished _ => None
  end.

(** Calls and runtimes are for specs in [P]. *)
Record serves (P : FunctionSpec → Prop) (s : Sys E) : Prop := {
  sv_calls t c spec : calls s !! t = Some c → call_spec c = Some spec → P spec;
  sv_runtimes f rt : runtimes_ (mgr s) !! f = Some rt →
    ∃ spec, P spec ∧ name spec = f ∧ rt_idle_timeout_ms rt = idle_timeout_ms spec;
}.

Lemma serves_mono (P Q : FunctionSpec → Prop) s :
  (∀ spec, P spec → Q spec) → serves P s → serves Q s.
Proof.
  intros HPQ [Hc Hr]. split; [eauto|]. intros f rt Hf.
  destruct (Hr f rt Hf) as (spec & ? & ?). eauto.
Qed.

(** Fewer runtimes, or the same with another state. *)
Definition no_new_runtime m m' : Prop :=
  ∀ f rt', runtimes_ m' !! f = Some rt' →
    ∃ rt, runtimes_ m !! f = Some rt ∧ rt_idle_timeout_ms rt' = rt_idle_timeout_ms rt.

Lemma serves_fewer P s s' :
  serves P s → no_new_runtime (mgr s) (mgr s') →
  (∀ t c spec, calls s' !! t = Some c → call_spec c = Some spec →
     (∃ c', calls s !! t = Some c' ∧ call_spec c' = Some spec) ∨ P spec) →
  serves P s'.
Proof.
  intros [Hc Hr] Hrs Hcs. split.
  - intros t c spec Ht Hsp. destruct (Hcs t c spec Ht Hsp) as [(c' & ? & ?)|?]; eauto.
  - intros f rt' Hf. destruct (Hrs f rt' Hf) as (rt & Hf0 & ->). eauto.
Qed.

Lemma no_new_runtime_delete f m m' :
  runtimes_ m' = delete f (runtimes_ m) → no_new_runtime m m'.
Proof. intros Hr g rt. rewrite Hr. intros [_ ?]%lookup_delete_Some. eauto. Qed.
Lemma no_new_runtime_used f rt st now m m' :
  runtimes_ m !! f = Some rt → runtimes_ m' = <[f := set_used st now rt]> (runtimes_ m) →
  no_new_runtime m m'.
Proof. intros Hf Hr g rt'. rewrite Hr. intros [[<- <-]|[_ ?]]%lookup_insert_Some; eauto. Qed.

Lemma settle_no_new spec cold cid d resp m :
  lock_inv m → no_new_runtime m (settle spec cold cid d resp m).2.
Proof.
  intros Hm. pose proof (settle_effect spec cold cid d resp m Hm) as He. cbv zeta in He.
  destruct (tracked (name spec) cid m) as [rt|] eqn:Ht; [|rewrite He; intros ???; eauto].
  apply tracked_Some in Ht as [Hf _]. destruct (verdict resp).
  - by eapply no_new_runtime_delete, He.
  - destruct He as ([now Hr] & _). by eapply no_new_runtime_used.
Qed.

(** A step of a call leaves the others' specs and keeps its own. *)
Lemma own_call_spec t c c' s m t' c1 spec :
  calls s !! t = Some c → (∀ sp, call_spec c' = Some sp → call_spec c = Some sp) →
  calls (with_call t c' (with_mgr m s)) !! t' = Some c1 → call_spec c1 = Some spec →
  ∃ c0, calls s !! t' = Some c0 ∧ call_spec c0 = Some spec.
Proof.
  intros Ht Hsp. simpl. intros [[<- <-]|[_ ?]]%lookup_insert_Some; eauto.
Qed.

Lemma serves_acquire P t spec retried d s :
  serves P s → calls s !! t = Some (Ready spec retried) →
  serves P (with_call t (after_acquire spec retried d (acquire spec (mgr s)).1)
              (with_mgr (acquire spec (mgr s)).2 s)).
Proof.
  intros Hs Ht. pose proof (acquire_effect spec (mgr s)) as Ha.
  assert (P spec) as HP by (by eapply (sv_calls P s Hs)).
  destruct (acquire spec (mgr s)) as [[err|cold port cid] m']; cbn [fst snd] in *.
  - apply (serves_fewer P s); [done| |].
    + destruct Ha as (_ & Hr & _). intros f rt. simpl. rewrite Hr. eauto.
    + intros t' c sp Ht' Hsp. left.
      by eapply (own_call_spec t _ _ s m'); [exact Ht| |exact Ht'|].
  - destruct Ha as (rt & now & _ & _ & Hr & Ha). split.
    + intros t' c sp. simpl. intros [[<- <-]|[_ ?]]%lookup_insert_Some; simpl.
      * by intros [= <-].
      * by apply (sv_calls P s Hs t').
    + intros f rt'. simpl. rewrite Hr. intros [[<- <-]|[_ ?]]%lookup_insert_Some; simpl.
      * destruct cold; [by exists spec; destruct Ha as (_ & _ & _ & _ & ? & _)|].
        destruct Ha as [Hf _]. by apply (sv_runtimes P s Hs).
      * by apply (sv_runtimes P s Hs).
Qed.

Lemma serves_step P s l s' :
  lock_inv (mgr s) → step s l s' → serves P s →
  (∀ t spec, l = Arrive t → calls s' !! t = Some (Ready spec false) → P spec) →
  serves P s'.
Proof.
  intros Hm Hst Hs Harr.
  assert (∀ m' : Manager E, runtimes_ m' = runtimes_ (mgr s) → no_new_runtime (mgr s) m') as Hsame.
  { intros m' Hr f rt. rewrite Hr. eauto. }
  destruct Hst as [t spec s Ht|t spec retried d s Ht|t spec retried cold port cid d resp s Ht
                  |t spec retried cold cid d resp s Ht|t r s Ht|s|f s|e s He].
  - apply (serves_fewer P s); [done|by apply Hsame|]. intros t' c sp Ht' Hsp.
    simpl in Ht'. apply lookup_insert_Some in Ht' as [[<- <-]|[_ ?]]; [|left; eauto].
    right. simpl in Hsp. injection Hsp as <-. eapply Harr; [done|]. simpl. apply lookup_insert_eq.
  - by apply serves_acquire.
  - apply (serves_fewer P s); [done|by apply Hsame|]. intros t' c sp Ht' Hsp. left.
    by eapply (own_call_spec t _ _ s (mgr s)); [exact Ht| |exact Ht'|].
  - apply (serves_fewer P s); [done|by apply settle_no_new|]. intros t' c sp Ht' Hsp. left.
    eapply own_call_spec; [exact Ht| |exact Ht'|exact Hsp].
    unfold after_settle. intros sp'. by case_match.
  - apply (serves_fewer P s); [done|by apply Hsame|]. intros t' c sp. simpl.
    intros [_ ?]%lookup_delete_Some. eauto.
  - apply (serves_fewer P s); [done| |eauto]. destruct (reap_pass_run (mgr s) Hm) as (Hr & _ & _).
    rewrite foldl_delete_expired in Hr. intros f rt. simpl. rewrite Hr.
    intros [? _]%map_lookup_filter_Some. eauto.
  - apply (serves_fewer P s); [done| |eauto]. pose proof (terminate_run f (mgr s) Hm) as Ht.
    cbv zeta in Ht. destruct (runtimes_ (mgr s) !! f).
    + eapply no_new_runtime_delete, Ht.
    + by apply Hsame; simpl; rewrite Ht.
  - apply (serves_fewer P s); [done|by apply Hsame|eauto].
Qed.
End invariants.
