(* ===== verification/RuntimePool.v ===== *)
(** * What the runtime manager promises: the pool of runtimes

    The abstract specification - a pool that holds at most one container per
    function, each idle or busy, each identity used once - with the proof that the
    concurrent manager implements it, and the guarantees and limits that every
    interleaving has. *)

From S2P Require Import Prelude CppStd StringFacts ContainerBackend FunctionModel Metrics Http.
From S2P Require Import HttpClient RuntimeManager RuntimeInvariant SimWorld RuntimeCalls.
From S2P Require Import RuntimeConcurrency.

(** ** The specification *)

Record Pool : Type := {
  pool : gmap string (string * RuntimeState);  (* function -> container, state *)
  used : gset string;                          (* every container ever created *)
}.

Inductive pool_label : Type :=
  | PCold (f i : string)      (* a new container, busy with its first call *)
  | PDiscard (i : string)     (* a container that never became ready *)
  | PReuse (f : string)       (* a call on the warm runtime *)
  | PDone (f : string)        (* a call answered *)
  | PStop (f : string)        (* the container removed: timeout, dead or deleted *)
  | PExpire (f : string).     (* the container removed: idle too long *)

Definition pool_apply (l : pool_label) (p : Pool) : option Pool :=
  match l with
  | PCold f i =>
      if decide (pool p !! f = None ∧ i ∉ used p)
      then Some {| pool := <[f := (i, BUSY)]> (pool p); used := {[i]} ∪ used p |} else None
  | PDiscard i =>
      if decide (i ∉ used p) then Some {| pool := pool p; used := {[i]} ∪ used p |} else None
  | PReuse f =>
      '(i, _) ← pool p !! f;
      Some {| pool := <[f := (i, BUSY)]> (pool p); used := used p |}
  | PDone f =>
      '(i, _) ← pool p !! f;
      Some {| pool := <[f := (i, IDLE)]> (pool p); used := used p |}
  | PStop f =>
      _ ← pool p !! f;
      Some {| pool := delete f (pool p); used := used p |}
  | PExpire f =>
      '(_, st) ← pool p !! f;
      if decide (st = IDLE) then Some {| pool := delete f (pool p); used := used p |} else None
  end.

Fixpoint pool_run (ls : list pool_label) (p : Pool) : option Pool :=
  match ls with
  | [] => Some p
  | l :: ls => p' ← pool_apply l p; pool_run ls p'
  end.

Definition is_expire (l : pool_label) : Prop := match l with PExpire _ => True | _ => False end.

(** Which pool moves each kind of step may make. *)
Definition permitted (l : label) (ls : list pool_label) : Prop :=
  match l with
  | Arrive _ | World => ls = []
  | Own _ => ls = [] ∨ ∃ x, ls = [x] ∧ ¬ is_expire x
  | Delete f => ls = [] ∨ ls = [PStop f]
  | Reap => Forall is_expire ls
  end.

(** ** The abstraction *)

Definition created_id (ev : backend_event) : option string :=
  match ev with Created i => Some i | Removed _ => None end.
Definition created_ids (h : list backend_event) : gset string := list_to_set (omap created_id h).

Definition entry_view (rt : Runtime) : string * RuntimeState := (rt_container_id rt, rt_state rt).

Definition abstract {E} `{BackendHistory E} (m : Manager E) : Pool := {|
  pool := entry_view <$> runtimes_ m;
  used := created_ids (history (world m));
|}.

Lemma elem_of_created_ids i h : i ∈ created_ids h ↔ Created i ∈ h.
Proof.
  unfold created_ids. rewrite elem_of_list_to_set, list_elem_of_omap. split.
  - by intros ([] & ? & [= ->]).
  - intros Hi. by exists (Created i).
Qed.
Lemma created_ids_app h h' : created_ids (h ++ h') = created_ids h ∪ created_ids h'.
Proof. unfold created_ids. by rewrite omap_app, list_to_set_app_L. Qed.
Lemma created_ids_removals {A} (f : A → string) (l : list A) :
  created_ids ((λ x, Removed (f x)) <$> l) = ∅.
Proof. by induction l. Qed.

Lemma pool_eq p q : pool p = pool q → used p = used q → p = q.
Proof. destruct p, q; simpl. by intros -> ->. Qed.

Lemma pool_expire_all names p :
  NoDup names →
  Forall (λ f, ∃ i, pool p !! f = Some (i, IDLE)) names →
  pool_run (PExpire <$> names) p
  = Some {| pool := foldl (λ m f, delete f m) (pool p) names; used := used p |}.
Proof.
  revert p. induction names as [|f names IH]; intros p; [by destruct p|].
  rewrite NoDup_cons, Forall_cons. intros [Hnin Hnd] [[i Hf] Hall].
  rewrite fmap_cons. cbn [pool_run pool_apply]. rewrite Hf. simpl.
  rewrite IH; [done|done|]. apply Forall_forall. intros g Hg. rewrite Forall_forall in Hall.
  destruct (Hall g Hg) as [j Hj]. exists j. simpl. rewrite lookup_delete_ne; [done|].
  by intros ->.
Qed.

Section refinement.
  Context {E : Type} `{Clock E, ContainerBackend E, Sockets E, BackendHistory E}.
  Context `{!BackendSpec E, !QuietWorld E} {past : Before}.
  Implicit Types (m : Manager E) (s : Sys E).

Lemma abstract_books m m' :
  runtimes_ m' = runtimes_ m → history (world m') = history (world m) →
  abstract m' = abstract m.
Proof. unfold abstract. by intros -> ->. Qed.

Lemma acquire_refines spec m :
  ∃ ls, (ls = [] ∨ ∃ x, ls = [x] ∧ ¬ is_expire x) ∧
        pool_run ls (abstract m) = Some (abstract (acquire spec m).2).
Proof.
  pose proof (acquire_effect spec m) as Ha.
  destruct (acquire spec m) as [[err|[] port cid] m']; cbn [fst snd] in *.
  - destruct Ha as (_ & Hr & _ & [Hh|(i & HC & _ & Hh)]).
    + exists []. split; [by left|]. simpl. f_equal. symmetry. by apply abstract_books.
    + exists [PDiscard i]. split; [right; eexists; split; [done|intros []]|].
      cbn [pool_run pool_apply]. rewrite decide_True by (simpl; by rewrite elem_of_created_ids).
      simpl. f_equal. apply pool_eq; simpl; rewrite ?Hr, ?Hh; [done|].
      rewrite created_ids_app. change (created_ids _) with ({[i]} ∪ ∅ : gset string) at 3.
      set_solver.
  - destruct Ha as (rt & now & <- & _ & Hr & Hf & HC & _ & _ & _ & _ & Hh).
    exists [PCold (name spec) (rt_container_id rt)].
    split; [right; eexists; split; [done|intros []]|].
    cbn [pool_run pool_apply].
    rewrite decide_True by (simpl; by rewrite elem_of_created_ids, lookup_fmap, Hf).
    simpl. f_equal. apply pool_eq; simpl; rewrite ?Hr, ?Hh; [by rewrite fmap_insert|].
    rewrite created_ids_app.
    change (created_ids [_]) with ({[rt_container_id rt]} ∪ ∅ : gset string). set_solver.
  - destruct Ha as (rt & now & <- & _ & Hr & Hf & _ & Hh).
    exists [PReuse (name spec)]. split; [right; eexists; split; [done|intros []]|].
    cbn [pool_run pool_apply abstract pool]. rewrite lookup_fmap, Hf. simpl.
    f_equal. apply pool_eq; simpl; rewrite ?Hr, ?Hh; [by rewrite fmap_insert|done].
Qed.

Lemma pool_stop_ok m m' f rt :
  runtimes_ m !! f = Some rt → runtimes_ m' = delete f (runtimes_ m) →
  history (world m') = history (world m) ++ [Removed (rt_container_id rt)] →
  pool_run [PStop f] (abstract m) = Some (abstract m').
Proof.
  intros Hf Hr Hh. cbn [pool_run pool_apply abstract pool]. rewrite lookup_fmap, Hf. simpl.
  f_equal. apply pool_eq; simpl; rewrite ?Hr, ?Hh; [by rewrite fmap_delete|].
  rewrite created_ids_app. change (created_ids [_]) with (∅ : gset string). set_solver.
Qed.

Lemma settle_refines spec cold cid d resp m :
  lock_inv m →
  ∃ ls, (ls = [] ∨ ∃ x, ls = [x] ∧ ¬ is_expire x) ∧
        pool_run ls (abstract m) = Some (abstract (settle spec cold cid d resp m).2).
Proof.
  intros Hm. pose proof (settle_effect spec cold cid d resp m Hm) as He. simpl in He.
  destruct (settle spec cold cid d resp m) as [p m']. cbn [snd] in *.
  destruct (tracked (name spec) cid m) as [rt|] eqn:Ht; [|exists []; subst; split; [by left|done]].
  apply tracked_Some in Ht as [Hf <-]. destruct (verdict resp).
  - destruct He as (Hr & _ & Hh). exists [PStop (name spec)].
    split; [right; eexists; split; [done|intros []]|]. by eapply pool_stop_ok.
  - destruct He as ([now Hr] & _ & Hh). exists [PDone (name spec)].
    split; [right; eexists; split; [done|intros []]|].
    cbn [pool_run pool_apply abstract pool]. rewrite lookup_fmap, Hf. simpl.
    f_equal. apply pool_eq; simpl; rewrite ?Hr, ?Hh; [by rewrite fmap_insert|done].
Qed.

Lemma foldl_delete_view dead (rs : gmap string Runtime) :
  entry_view <$> foldl (λ rs (p : string * Runtime), delete p.1 rs) rs dead
  = foldl (λ (p : gmap string (string * RuntimeState)) f, delete f p) (entry_view <$> rs) dead.*1.
Proof.
  revert rs. induction dead as [|p dead IH]; intros rs; simpl; [done|].
  by rewrite IH, fmap_delete.
Qed.

Lemma expired_idle now rt : expired now rt = true → rt_state rt = IDLE.
Proof. unfold expired. rewrite andb_true_iff, bool_decide_eq_true. by intros [? _]. Qed.

Lemma reap_refines m :
  lock_inv m →
  ∃ ls, Forall is_expire ls ∧ pool_run ls (abstract m) = Some (abstract (reap_pass m).2).
Proof.
  intros Hm. destruct (reap_pass_run m Hm) as (Hr & _ & Hh).
  set (dead := expired_entries _ _) in *. exists (PExpire <$> dead.*1).
  destruct (map_entries_valid (runtimes_ m)) as [Hnd Hv]. split.
  - by apply Forall_fmap, Forall_true.
  - rewrite pool_expire_all.
    + f_equal. apply pool_eq; simpl; rewrite ?Hr, ?Hh; [by rewrite foldl_delete_view|].
      rewrite created_ids_app, created_ids_removals. set_solver.
    + unfold dead, expired_entries. eapply sublist_NoDup; [exact Hnd|].
      apply fmap_sublist, sublist_filter.
    + apply Forall_fmap, Forall_forall. intros [f rt] [Hx Hin]%list_elem_of_filter.
      rewrite Forall_forall in Hv. specialize (Hv _ Hin). simpl in *.
      exists (rt_container_id rt). rewrite lookup_fmap, Hv. simpl. unfold entry_view.
      by rewrite (expired_idle _ _ Hx).
Qed.

Lemma step_refines s l s' :
  lock_inv (mgr s) → step s l s' →
  ∃ ls, permitted l ls ∧ pool_run ls (abstract (mgr s)) = Some (abstract (mgr s')).
Proof.
  intros Hm Hs.
  destruct Hs as [t spec s Ht|t spec retried d s Ht|t spec retried cold port cid d resp s Ht
                 |t spec retried cold cid d resp s Ht|t r s Ht|s|f s|e s He];
    cbn [mgr with_call with_mgr without_call permitted].
  - by exists [].
  - apply acquire_refines.
  - exists []. split; [by left|done].
  - by apply settle_refines.
  - exists []. split; [by left|done].
  - by apply reap_refines.
  - pose proof (terminate_run f (mgr s) Hm) as Ht. simpl in Ht.
    destruct (runtimes_ (mgr s) !! f) as [rt|] eqn:Hf.
    + exists [PStop f]. split; [by right|]. destruct Ht as (Hr & _ & Hh). by eapply pool_stop_ok.
    + exists []. split; [by left|]. by rewrite Ht.
  - exists []. split; [done|]. simpl. f_equal. symmetry. by apply abstract_books.
Qed.
End refinement.

(** ** The sequential operations are runs of the system *)

(** The steps a call takes with nothing interleaved: its own, and time passing. *)
Definition alone (t : nat) (l : label) : Prop := l = World ∨ l = Arrive t ∨ l = Own t.
Definition working (t : nat) (l : label) : Prop := l = World ∨ l = Own t.
Lemma working_alone t tr : Forall (working t) tr → Forall (alone t) tr.
Proof. intros Hw. eapply Forall_impl; [done|]. unfold working, alone. tauto. Qed.
Ltac alone := simpl; rewrite ?Forall_cons, ?Forall_nil; unfold alone, working; tauto.

Section embedding.
  Context {E : Type} `{Clock E, ContainerBackend E, Sockets E, BackendHistory E}.
  Context `{!BackendSpec E, !QuietWorld E} {past : Before}.
  Implicit Types (m : Manager E) (s : Sys E).

Lemma run_world {A} (c : St E A) s :
  keeps_history c → run s [World] (with_mgr (outside c (mgr s)).2 s).
Proof. intros Hc. apply run_one. rewrite outside_run. apply step_world, Hc. Qed.

Lemma with_call_twice t c c' m s :
  with_call t c' (with_mgr m (with_call t c s)) = with_call t c' (with_mgr m s).
Proof. unfold with_call, with_mgr. simpl. by rewrite insert_insert_eq. Qed.

Lemma attempt_is_a_run t spec retried input start s :
  calls s !! t = Some (Ready spec retried) →
  let p := try_invoke spec input start (mgr s) in
  ∃ tr, Forall (working t) tr ∧
        run s tr (with_call t (after_settle spec retried p.1) (with_mgr p.2 s)).
Proof.
  intros Ht. unfold try_invoke. rewrite st_bind_run.
  pose proof (λ d, step_acquire t spec retried d s Ht) as Hacq.
  destruct (acquire spec (mgr s)) as [a m1]. cbn [fst snd] in *.
  destruct a as [err|cold port cid].
  - rewrite st_bind_run. destruct (outside (elapsed_ms start) m1) as [d m2] eqn:Ho.
    exists ([Own t] ++ [World]). split; [alone|].
    eapply run_app; [apply run_one, (Hacq d)|].
    pose proof (run_world (elapsed_ms start) _ (keeps_elapsed_ms start)
      : run (with_call t (after_acquire spec retried d (StartFailed err)) (with_mgr m1 s)) _ _) as Hw.
    cbn [with_call with_mgr mgr] in Hw. rewrite Ho in Hw. exact Hw.
  - rewrite st_bind_run. set (call := post _ _ _ _ _).
    assert (keeps_history call) as Hk by apply keeps_request.
    destruct (outside call m1) as [resp m2] eqn:Hc. cbn [fst snd].
    rewrite st_bind_run. destruct (outside (elapsed_ms start) m2) as [d m3] eqn:Ho. cbn [fst snd].
    set (busy := Calling spec retried cold port cid).
    assert (run s ([Own t] ++ [World] ++ [World]) (with_call t busy (with_mgr m3 s))) as Hr1.
    { eapply run_app; [apply run_one, (Hacq 0)|]. cbn [after_acquire]. fold busy. eapply run_app.
      - pose proof (run_world call (with_call t busy (with_mgr m1 s)) Hk) as Hw.
        cbn [with_call with_mgr mgr] in Hw. rewrite Hc in Hw. exact Hw.
      - pose proof (run_world (elapsed_ms start) (with_call t busy (with_mgr m2 s))
                      (keeps_elapsed_ms start)) as Hw.
        cbn [with_call with_mgr mgr] in Hw. rewrite Ho in Hw. exact Hw. }
    set (s2 := with_call t (Replied spec retried cold cid d resp) (with_mgr m3 s)).
    assert (step (with_call t busy (with_mgr m3 s)) (Own t) s2) as Hs2.
    { replace s2 with (with_call t (Replied spec retried cold cid d resp)
                         (with_call t busy (with_mgr m3 s))).
      - eapply step_reply. simpl. apply lookup_insert_eq.
      - unfold s2, with_call. simpl. by rewrite insert_insert_eq. }
    assert (calls s2 !! t = Some (Replied spec retried cold cid d resp)) as Ht2
      by apply lookup_insert_eq.
    pose proof (step_settle t spec retried cold cid d resp s2 Ht2) as Hs3.
    unfold s2 in Hs3. rewrite with_call_twice in Hs3.
    exists (([Own t] ++ [World] ++ [World]) ++ [Own t] ++ [Own t]).
    split; [alone|]. eapply run_app; [exact Hr1|].
    eapply run_app; [apply run_one, Hs2|]. apply run_one. exact Hs3.
Qed.

Lemma record_step t r m s :
  calls s !! t = None →
  step (with_call t (Finished r) (with_mgr m s)) (Own t) (with_mgr (record_result r m).2 s).
Proof.
  intros Ht. replace (with_mgr (record_result r m).2 s) with
    (without_call t (with_mgr (record_result r m).2 (with_call t (Finished r) (with_mgr m s)))).
  - apply (step_record t r (with_call t (Finished r) (with_mgr m s))). apply lookup_insert_eq.
  - unfold without_call, with_mgr. simpl. by rewrite delete_insert_id.
Qed.

(** [invoke] run without interference, as steps of its own call. *)
Lemma invoke_alone (t : nat) (spec : FunctionSpec) (input : string) (s : Sys E) :
  let m0 := (outside steady_now (mgr s)).2 in
  let '(result, m') := invoke spec input (mgr s) in
  ∃ tr m1, Forall (working t) tr ∧
    run (with_call t (Ready spec false) (with_mgr m0 s)) tr
      (with_call t (Finished result) (with_mgr m1 s)) ∧
    m' = (record_result result m1).2.
Proof.
  cbv zeta. rewrite invoke_run.
  destruct (outside steady_now (mgr s)) as [start m0]. cbn [snd].
  set (s0 := with_call t (Ready spec false) (with_mgr m0 s)).
  destruct (attempt_is_a_run t spec false input start s0) as (tr1 & Ha2 & Hr2);
    [apply lookup_insert_eq|].
  cbn [mgr with_call with_mgr s0] in Hr2.
  destruct (try_invoke spec input start m0) as [[first failed] m1]. cbn [fst snd] in Hr2.
  unfold s0 in Hr2. rewrite with_call_twice in Hr2.
  unfold after_settle in Hr2. cbn [fst snd] in Hr2. rewrite andb_true_r in Hr2.
  destruct (failed && negb (inv_cold_start first)).
  - set (s1 := with_call t (Ready spec true) (with_mgr m1 s)).
    destruct (attempt_is_a_run t spec true input start s1) as (tr2 & Ha3 & Hr3);
      [apply lookup_insert_eq|].
    cbn [mgr with_call with_mgr s1] in Hr3.
    destruct (try_invoke spec input start m1) as [[second failed2] m2]. cbn [fst snd] in Hr3.
    unfold s1 in Hr3. rewrite with_call_twice in Hr3.
    unfold after_settle in Hr3. cbn [fst snd] in Hr3. rewrite andb_false_r in Hr3.
    exists (tr1 ++ tr2), m2. split; [by apply Forall_app_2|].
    split; [by eapply run_app|done].
  - by exists tr1, m1.
Qed.

(** The moment of arrival. *)
Lemma arrive_alone t spec s :
  calls s !! t = None →
  run s [World; Arrive t] (with_call t (Ready spec false) (with_mgr (outside steady_now (mgr s)).2 s)).
Proof.
  intros Ht. change [World; Arrive t] with ([World] ++ [Arrive t]).
  eapply run_app; [apply (run_world steady_now s quiet_now)|].
  apply run_one. by apply step_arrive.
Qed.
End embedding.

(** ** Properties *)

Section properties.
  Context {E : Type} `{Clock E, ContainerBackend E, Sockets E, BackendHistory E}.
  Context `{!BackendSpec E, !QuietWorld E}.
  Implicit Types (m : Manager E) (s : Sys E).

(** The manager may start on a world in which earlier processes created and removed
    containers: that is what came [before]. *)
Lemma start_inv e :
  ledger_ok (history e) → lock_inv (past:=history e) (mgr (start_of e)).
Proof. by apply lock_inv_new. Qed.

Lemma run_counts e tr s :
  ledger_ok (history e) → run (start_of e) tr s → counts_inv (past:=history e) tr s.
Proof.
  intros He Hrun. revert tr s Hrun.
  refine (run_induction (past:=history e) _ _ (start_inv e He) _ _).
  - split; [|done..]. unfold before. simpl. rewrite Z.add_0_r. apply Z.le_refl.
  - intros. by eapply counts_inv_step.
Qed.

(** A call can go on: at once, or - in [client.post] - when its container has answered. *)
Lemma call_can_step s t c : calls s !! t = Some c → ∃ s', step s (Own t) s'.
Proof.
  intros Ht. destruct c; eexists;
    [eapply (step_acquire _ _ _ 0)|eapply (step_reply _ _ _ _ _ _ 0 (client_failure ""))
    |eapply step_settle|eapply step_record]; done.
Qed.

Lemma run_calls_inv e tr s :
  ledger_ok (history e) → run (start_of e) tr s → calls_inv s.
Proof.
  intros He Hrun. revert tr s Hrun.
  refine (run_induction (past:=history e) (λ _ s, calls_inv s) _ (start_inv e He) _ _).
  - split; [by intros f rt|by intros t c f i|by intros t c f i g rt].
  - intros tr s l s' Hm Hi Hs. by eapply calls_inv_step.
Qed.

(** C1: Every step of every interleaving is a move of the abstract pool: at most one
    container per function, identities never reused, a runtime reaped only while
    idle, at most one move per critical section of a call, and none at all by
    arrivals or the outside world. *)
Theorem manager_refines_pool (e : E) (tr : list label) (s : Sys E) (l : label) (s' : Sys E) :
  ledger_ok (history e) → run (start_of e) tr s → step s l s' →
  abstract (mgr (start_of e)) = {| pool := ∅; used := created_ids (history e) |} ∧
  ∃ ls, permitted l ls ∧ pool_run ls (abstract (mgr s)) = Some (abstract (mgr s')).
Proof.
  intros He Hrun Hs. split.
  - apply pool_eq; simpl; [by rewrite fmap_empty|done].
  - eapply (step_refines (past:=history e)); [|done]. by eapply run_lock_inv, start_inv.
Qed.

(** C2: Whatever the interleaving of calls, reaper and deletions, the containers alive
    are exactly those of the tracked runtimes and those that ran before the process
    started, which no runtime of this process uses: each container is created once
    and removed at most once, none is leaked, none is forgotten while listed, no two
    functions share one, and the metrics balance. *)
Theorem containers_accounted_for (e : E) (tr : list label) (s : Sys E) :
  ledger_ok (history e) → run (start_of e) tr s →
  let m := mgr s in
  ledger_ok (history (world m)) ∧
  (∀ i, i ∈ live (history (world m)) ↔
        i ∈ live (history e) ∨
        ∃ f rt, runtimes_ m !! f = Some rt ∧ rt_container_id rt = i) ∧
  (∀ f rt, runtimes_ m !! f = Some rt → rt_container_id rt ∉ live (history e)) ∧
  (∀ f g rt rt', runtimes_ m !! f = Some rt → runtimes_ m !! g = Some rt' →
                 rt_container_id rt = rt_container_id rt' → f = g) ∧
  runtimes_created_ (metrics_ m)
  = Z.of_nat (size (runtimes_ m)) + total (runtimes_terminated_ (metrics_ m)).
Proof.
  intros He Hrun m. destruct (run_lock_inv (past:=history e) _ _ _ Hrun (start_inv e He)).
  split_and!; [done|done| |done|done]. intros f rt Hf ?%live_Created. by eapply inv_new.
Qed.

(** C3: A tracked runtime is busy or idle, never in another state; a busy one has a
    call under way to its container; and a call's container belongs to no other
    function. *)
Theorem busy_runtimes_have_a_call (e : E) (tr : list label) (s : Sys E) :
  ledger_ok (history e) → run (start_of e) tr s →
  (∀ f rt, runtimes_ (mgr s) !! f = Some rt →
     rt_state rt = IDLE ∨
     (rt_state rt = BUSY ∧
      ∃ t c, calls s !! t = Some c ∧ serving c = Some (f, rt_container_id rt))) ∧
  (∀ t c f i g rt, calls s !! t = Some c → serving c = Some (f, i) →
     runtimes_ (mgr s) !! g = Some rt → rt_container_id rt = i → g = f).
Proof.
  intros He Hrun. pose proof (run_lock_inv (past:=history e) _ _ _ Hrun (start_inv e He)) as Hm.
  destruct (run_calls_inv e tr s He Hrun) as [Hb _ Hh]. split; [|done]. intros f rt Hf.
  destruct (inv_state _ Hm f rt Hf) as [[Hst|Hst] _]; [right|by left]. eauto.
Qed.

(** C4: Every invocation that arrived is either still under way or recorded in the
    metrics, exactly once; and since the process started no more containers were
    created than invocations arrived, retries included. *)
Theorem invocations_recorded_once (e : E) (tr : list label) (s : Sys E) :
  ledger_ok (history e) → run (start_of e) tr s →
  total (invocation_counts_ (metrics_ (mgr s))) + Z.of_nat (size (calls s)) = arrivals tr ∧
  Z.of_nat (creations (history (world (mgr s)))) ≤ arrivals tr + Z.of_nat (creations (history e)).
Proof.
  intros He Hrun.
  assert (counts_inv (past:=history e) tr s) as [Hc Hr _] by by apply run_counts.
  pose proof (weigh_nonneg uncreated (calls s)) as Hw.
  unfold before in Hc. rewrite weigh_size in Hr. split; [done|].
  enough (0 ≤ weigh uncreated (calls s)) by lia. apply Hw. intros []; simpl; repeat case_match; lia.
Qed.

(** The calls take at most seven steps each on the whole, their one retry included, and
    none waits for another: what it waits for in [client.post] is its container's
    answer, which the model lets come at any time. *)
Theorem calls_complete (e : E) (tr : list label) (s : Sys E) :
  ledger_ok (history e) → run (start_of e) tr s →
  own_steps tr ≤ 7 * arrivals tr ∧
  ∀ t c, calls s !! t = Some c → ∃ s', step s (Own t) s'.
Proof.
  intros He Hrun.
  assert (counts_inv (past:=history e) tr s) as [_ _ Hk] by by apply run_counts.
  split.
  - enough (0 ≤ weigh rank (calls s)) by lia. apply weigh_nonneg.
    intros []; simpl; repeat case_match; lia.
  - intros t c Ht. by eapply call_can_step.
Qed.

(** [invoke] run without interference is one of these interleavings: steps of its
    own call alone lead to its result, and recording that to its final state. *)
Theorem invoke_is_a_run (t : nat) (spec : FunctionSpec) (input : string) (s : Sys E) :
  calls s !! t = None →
  let '(result, m') := invoke spec input (mgr s) in
  ∃ tr s', Forall (alone t) tr ∧ run s tr s' ∧
    calls s' = <[t := Finished result]> (calls s) ∧
    step s' (Own t) (with_mgr m' s).
Proof.
  intros Ht. pose proof (invoke_alone t spec input s) as Hi. cbv zeta in Hi.
  destruct (invoke spec input (mgr s)) as [result m']. destruct Hi as (tr & m1 & Hw & Hrun & ->).
  exists ([World; Arrive t] ++ tr). eexists.
  split; [apply Forall_app_2; [alone|by apply working_alone]|].
  split; [eapply run_app; [by apply arrive_alone|exact Hrun]|].
  split; [done|by apply record_step].
Qed.
End properties.

(** ** A run *)

Section demo.
Definition acquire_step (t : nat) (s : Sys Sim) : Sys Sim :=
  with_call t (after_acquire demo_spec false 0 (acquire demo_spec (mgr s)).1)
    (with_mgr (acquire demo_spec (mgr s)).2 s).
Definition ok_response : ClientResponse := parse_response (foldl String.append "" reply_ok.1).
Definition settle_step (t : nat) (cold_start : bool) (s : Sys Sim) : Sys Sim :=
  let p := settle demo_spec cold_start "c0" 0 ok_response (mgr s) in
  with_call t (after_settle demo_spec false p.1) (with_mgr p.2 s).

(** Two calls share the warm runtime of [demo_spec]. *)
Definition both_calling : Sys Sim :=
  acquire_step 1 (with_call 1 (Ready demo_spec false)
    (acquire_step 0 (with_call 0 (Ready demo_spec false)
      (start_of (new_sim [reply_ok]))))).
(** The first is answered; a minute passes; the reaper runs. *)
Definition first_answered : Sys Sim :=
  settle_step 0 true (with_call 0 (Replied demo_spec false true "c0" 0 ok_response) both_calling).
Definition after_a_minute : Sys Sim :=
  with_mgr (set_world (advance 60000000000 (world (mgr first_answered))) (mgr first_answered))
    first_answered.
Definition after_reaping : Sys Sim := with_mgr (reap_pass (mgr after_a_minute)).2 after_a_minute.

Lemma both_calling_run :
  run (start_of (new_sim [reply_ok])) [Arrive 0; Own 0; Arrive 1; Own 1] both_calling.
Proof.
  change [Arrive 0; Own 0; Arrive 1; Own 1]
    with (((([] ++ [Arrive 0]) ++ [Own 0]) ++ [Arrive 1]) ++ [Own 1]).
  repeat eapply run_snoc; [apply run_nil| | | |].
  - by apply (step_arrive 0 demo_spec).
  - by apply (step_acquire 0 demo_spec false 0).
  - by apply (step_arrive 1 demo_spec).
  - by apply (step_acquire 1 demo_spec false 0).
Qed.

(** One call, from its arrival to its record. *)
Definition one_answered : Sys Sim :=
  settle_step 0 true (with_call 0 (Replied demo_spec false true "c0" 0 ok_response)
    (acquire_step 0 (with_call 0 (Ready demo_spec false) (start_of (new_sim [reply_ok]))))).
Definition one_done : Sys Sim :=
  without_call 0 (with_mgr (record_result
    {| inv_status := "success"; inv_output := cr_body ok_response; inv_duration_ms := 0;
       inv_cold_start := true |} (mgr one_answered)).2 one_answered).

Lemma one_done_run :
  run (start_of (new_sim [reply_ok])) [Arrive 0; Own 0; Own 0; Own 0; Own 0] one_done.
Proof.
  change [Arrive 0; Own 0; Own 0; Own 0; Own 0]
    with ((((([] ++ [Arrive 0]) ++ [Own 0]) ++ [Own 0]) ++ [Own 0]) ++ [Own 0]).
  repeat eapply run_snoc; [apply run_nil| | | | |].
  - by apply (step_arrive 0 demo_spec).
  - by apply (step_acquire 0 demo_spec false 0).
  - by apply (step_reply 0 demo_spec false true 30000 "c0" 0 ok_response).
  - by apply (step_settle 0 demo_spec false true "c0" 0 ok_response).
  - by apply (step_record 0).
Qed.

Lemma after_reaping_run :
  run both_calling [Own 0; Own 0; World; Reap] after_reaping.
Proof.
  change [Own 0; Own 0; World; Reap] with (((([] ++ [Own 0]) ++ [Own 0]) ++ [World]) ++ [Reap]).
  repeat eapply run_snoc; [apply run_nil| | | |].
  - by apply (step_reply 0 demo_spec false true 30000 "c0" 0 ok_response).
  - by apply (step_settle 0 demo_spec false true "c0" 0 ok_response).
  - by apply (step_world (advance 60000000000 (world (mgr first_answered))) first_answered).
  - by apply (step_reap after_a_minute).
Qed.
End demo.

(** The idle mark does not mean that nothing is running: when two calls share a
    runtime the first to be answered marks it idle, and once the idle timeout has
    passed the reaper removes the container under the other call. *)
Theorem reaper_removes_container_in_use :
  ∃ tr s,
    run (start_of (new_sim [reply_ok])) tr s ∧
    calls s !! 1%nat = Some (Calling demo_spec false false 30000 "c0") ∧
    Removed "c0" ∈ history (world (mgr s)) ∧
    runtimes_terminated_ (metrics_ (mgr s)) !! "idle_timeout" = Some 1 ∧
    runtimes_ (mgr s) !! name demo_spec = None.
Proof.
  eexists _, after_reaping. split; [eapply run_app; [apply both_calling_run|apply after_reaping_run]|].
  split_and!; [by vm_compute| |by vm_compute|by vm_compute].
  apply (list_elem_of_lookup_2 _ 1%nat). by vm_compute.
Qed.

(** ** The hypotheses can be met *)

Lemma manager_refines_pool_witness :
  ∃ ls, permitted Reap ls ∧
    pool_run ls (abstract (mgr both_calling))
    = Some (abstract (mgr (with_mgr (reap_pass (mgr both_calling)).2 both_calling))).
Proof.
  apply (manager_refines_pool (new_sim [reply_ok]) _ both_calling Reap _
           ledger_ok_nil both_calling_run (step_reap _)).
Defined.

Lemma containers_accounted_for_witness :
  runtimes_created_ (metrics_ (mgr both_calling)) = 1 ∧
  runtimes_created_ (metrics_ (mgr both_calling))
  = Z.of_nat (size (runtimes_ (mgr both_calling)))
    + total (runtimes_terminated_ (metrics_ (mgr both_calling))).
Proof.
  split; [by vm_compute|].
  apply (containers_accounted_for (new_sim [reply_ok]) _ both_calling ledger_ok_nil both_calling_run).
Defined.

Lemma busy_runtimes_have_a_call_witness :
  ∃ rt, runtimes_ (mgr both_calling) !! "hello" = Some rt ∧ rt_state rt = BUSY ∧
  ∃ t c, calls both_calling !! t = Some c ∧ serving c = Some ("hello", rt_container_id rt).
Proof.
  destruct (busy_runtimes_have_a_call (new_sim [reply_ok]) _ both_calling ledger_ok_nil
              both_calling_run) as [Hb _].
  eexists. split; [by vm_compute|]. split; [done|].
  destruct (Hb "hello" _ eq_refl) as [Hi|[_ Hc]]; [done|exact Hc].
Defined.

Lemma invocations_recorded_once_witness :
  arrivals [Arrive 0; Own 0; Arrive 1; Own 1] = 2 ∧
  Z.of_nat (creations (history (world (mgr both_calling)))) ≤ 2 + 0.
Proof.
  split; [done|].
  apply (invocations_recorded_once (new_sim [reply_ok]) _ both_calling ledger_ok_nil both_calling_run).
Defined.

Lemma calls_complete_witness :
  ∃ s', step both_calling (Own 1) s'.
Proof.
  destruct (calls_complete (new_sim [reply_ok]) _ both_calling ledger_ok_nil both_calling_run)
    as [_ Hn].
  by apply (Hn 1%nat (Calling demo_spec false false 30000 "c0")).
Defined.

Lemma invoke_is_a_run_witness :
  let '(result, m') := invoke demo_spec "{}" (mgr both_calling) in
  ∃ tr s', Forall (alone 2) tr ∧ run both_calling tr s' ∧
    calls s' = <[2%nat := Finished result]> (calls both_calling) ∧
    step s' (Own 2) (with_mgr m' both_calling).
Proof. by apply (invoke_is_a_run 2 demo_spec "{}" both_calling). Defined.

