(* ===== verification/ScaleToZero.v ===== *)
(** * Scale to zero: the reaper thread ([runtime_manager.cpp])

    [reap_idle_runtimes] as the loop it is, on a clock that does not run backwards:
    once no call is under way, the reaper removes every runtime within its idle
    timeout, rounded up to the reaper's interval. *)

From S2P Require Import Prelude CppStd StringFacts ContainerBackend FunctionModel Metrics Http.
From S2P Require Import HttpClient RuntimeManager RuntimeInvariant SimWorld RuntimeCalls.
From S2P Require Import RuntimeConcurrency RuntimePool.

(** What the steady clock would read now, in nanoseconds. *)
Class ClockReads (E : Type) : Type := clock_reads : E → Z.

Class SteadyClock (E : Type) `{Clock E, ContainerBackend E, ClockReads E} : Prop := {
  now_reads e : clock_reads e ≤ (steady_now e).1 ≤ clock_reads (steady_now e).2;
  sleep_advances ms e : clock_reads e + ms * 1000000 ≤ clock_reads (sleep_for_ms ms e).2;
  remove_keeps_time i e : clock_reads e ≤ clock_reads (remove_container i e).2;
}.

Section loop.
  Context {E : Type} `{Clock E, ContainerBackend E, Sockets E}.

(** The thread: [iterations] times [running_] reads true. *)
Fixpoint reap_idle_runtimes (iterations : nat) : St (Manager E) unit :=
  match iterations with
  | O => mret tt
  | S iterations => _ ← reap_iteration; reap_idle_runtimes iterations
  end.
End loop.

Section scaling.
  Context {E : Type} `{SteadyClock E, !Sockets E, !BackendHistory E}.
  Context `{!BackendSpec E, !QuietWorld E} {past : Before}.
  Implicit Types (m : Manager E).

Lemma reap_entries_time now entries m :
  clock_reads (world m) ≤ clock_reads (world (reap_entries now entries m).2).
Proof.
  revert m. induction entries as [|[f rt] entries IH]; intros m; [done|].
  cbn [reap_entries]. rewrite st_bind_run. etrans; [|apply IH].
  destruct (expired now rt); [|done]. unfold retire. rewrite st_bind_run, outside_run.
  apply remove_keeps_time.
Qed.

(** Idle for at least [a] nanoseconds, all of them. *)
Definition idle_since (a : Z) m : Prop :=
  ∀ f rt, runtimes_ m !! f = Some rt →
    rt_state rt = IDLE ∧ rt_last_used_at rt + a ≤ clock_reads (world m).

Lemma still_tracked now rt a :
  expired now rt = false → rt_state rt = IDLE → 0 ≤ a → rt_last_used_at rt + a ≤ now →
  a < rt_idle_timeout_ms rt * 1000000.
Proof.
  unfold expired, to_ms. intros Hx Hst Ha Hlt.
  rewrite bool_decide_eq_true_2, andb_true_l, bool_decide_eq_false in Hx by done.
  pose proof (Z.quot_le_mono a (now - rt_last_used_at rt) 1000000) as Hmono.
  pose proof (Z.quot_rem' a 1000000). pose proof (Z.rem_bound_pos a 1000000). lia.
Qed.

Lemma reap_iteration_idle a m :
  lock_inv m → 0 ≤ a → idle_since a m →
  let b := a + kReaperIntervalMs * 1000000 in
  let m' := (reap_iteration m).2 in
  lock_inv m' ∧ idle_since b m' ∧
  ∀ f rt, runtimes_ m' !! f = Some rt →
    runtimes_ m !! f = Some rt ∧ b < rt_idle_timeout_ms rt * 1000000.
Proof.
  intros Hm Ha Hidle b m'. unfold m', reap_iteration. rewrite st_bind_run, outside_run.
  set (m1 := set_world (sleep_for_ms kReaperIntervalMs (world m)).2 m). cbn [snd].
  assert (lock_inv m1) as Hm1 by (by apply lock_inv_world; [apply quiet_sleep|]).
  pose proof (sleep_advances kReaperIntervalMs (world m)) as Hsleep.
  pose proof (now_reads (world m1)) as Hnow.
  destruct (reap_pass_run m1 Hm1) as (Hr & _ & _). rewrite foldl_delete_expired in Hr.
  assert (clock_reads (world m1) ≤ clock_reads (world (reap_pass m1).2)) as Ht.
  { unfold reap_pass. rewrite st_bind_run, outside_run. cbn [fst snd].
    etrans; [|apply reap_entries_time]. simpl in *. lia. }
  assert (∀ f rt, runtimes_ (reap_pass m1).2 !! f = Some rt →
            runtimes_ m !! f = Some rt ∧ expired (steady_now (world m1)).1 rt = false) as Hsub.
  { intros f rt. rewrite Hr. by intros [? ?]%map_lookup_filter_Some. }
  change (world m1) with (sleep_for_ms kReaperIntervalMs (world m)).2 in *.
  split; [by apply lock_inv_reap_pass|]. split.
  - intros f rt [Hf _]%Hsub. destruct (Hidle f rt Hf). split; [done|]. lia.
  - intros f rt [Hf Hx]%Hsub. destruct (Hidle f rt Hf). split; [done|].
    eapply still_tracked; [exact Hx|done|..]; unfold b, kReaperIntervalMs in *; lia.
Qed.

(** What survives [n] iterations has a timeout beyond them. *)
Lemma reap_idle_runtimes_idle n a m :
  lock_inv m → 0 ≤ a → idle_since a m →
  let b := a + Z.of_nat n * (kReaperIntervalMs * 1000000) in
  let m' := (reap_idle_runtimes n m).2 in
  lock_inv m' ∧
  ∀ f rt, runtimes_ m' !! f = Some rt →
    runtimes_ m !! f = Some rt ∧ (n ≠ 0%nat → b < rt_idle_timeout_ms rt * 1000000).
Proof.
  revert a m. induction n as [|n IH]; intros a m Hm Ha Hidle; simpl; [done|].
  rewrite st_bind_run.
  destruct (reap_iteration_idle a m Hm Ha Hidle) as (Hm1 & Hidle1 & Hsub1).
  destruct (IH (a + kReaperIntervalMs * 1000000) _ Hm1 ltac:(unfold kReaperIntervalMs; lia) Hidle1) as [Hm2 Hsub2].
  split; [done|]. intros f rt [Hf Hb]%Hsub2. destruct (Hsub1 f rt Hf) as [Hf1 Hb1].
  split; [done|]. intros _. destruct n; [lia|]. specialize (Hb ltac:(done)). lia.
Qed.
End scaling.

(** ** Property *)

(** C21: Whatever happened before, once no call is under way the reaper scales to zero
    in bounded time: after as many half seconds as the longest idle timeout has, no
    runtime is tracked and every container of this process is gone. *)
Theorem reaper_scales_to_zero (E : Type) `(SteadyClock E, !Sockets E, !BackendHistory E,
    !BackendSpec E, !QuietWorld E) (e : E) (tr : list label) (s : Sys E) (n : nat) :
  ledger_ok (history e) → run (start_of e) tr s → calls s = ∅ →
  (∀ f rt, runtimes_ (mgr s) !! f = Some rt →
     rt_last_used_at rt ≤ clock_reads (world (mgr s)) ∧
     rt_idle_timeout_ms rt ≤ kReaperIntervalMs * Z.of_nat (Datatypes.S n)) →
  let m' := (reap_idle_runtimes (Datatypes.S n) (mgr s)).2 in
  runtimes_ m' = ∅ ∧ ∀ i, i ∈ live (history (world m')) ↔ i ∈ live (history e).
Proof.
  intros He Hrun Hcalls Hbound m'.
  pose proof (run_lock_inv (past:=history e) _ _ _ Hrun (start_inv e He)) as Hm.
  assert (idle_since 0 (mgr s)) as Hidle.
  { intros f rt Hf. split; [|destruct (Hbound f rt Hf); lia].
    destruct (inv_state _ Hm f rt Hf) as [[Hst|Hst] _]; [|done].
    destruct (run_calls_inv e tr s He Hrun) as [Hb _ _].
    destruct (Hb f rt Hf Hst) as (t & c & Hc & _). by rewrite Hcalls in Hc. }
  destruct (reap_idle_runtimes_idle (past:=history e) (Datatypes.S n) 0 (mgr s) Hm ltac:(done) Hidle)
    as [Hm' Hsub]. fold m' in Hm', Hsub.
  assert (runtimes_ m' = ∅) as Hempty.
  { apply map_empty. intros f. destruct (runtimes_ m' !! f) as [rt|] eqn:Hf; [|done].
    destruct (Hsub f rt Hf) as [Hf0 Hb]. specialize (Hb ltac:(done)).
    destruct (Hbound f rt Hf0). lia. }
  split; [done|]. intros i. rewrite (inv_live _ Hm' i). unfold before. split; [|by left].
  intros [?|(f & rt & Hf & _)]; [done|]. by rewrite Hempty, lookup_empty in Hf.
Qed.

(** ** The hypotheses can be met *)

#[export] Instance sim_clock_reads : ClockReads Sim := sim_clock.
#[export] Instance sim_steady : SteadyClock Sim.
Proof.
  split; intros; unfold clock_reads, sim_clock_reads; simpl; [lia|lia|].
  by destruct (sim_find _ _).
Qed.

Lemma reaper_scales_to_zero_witness :
  size (runtimes_ (mgr one_done)) = 1%nat ∧
  runtimes_ (reap_idle_runtimes 120 (mgr one_done)).2 = ∅.
Proof.
  split; [by vm_compute|].
  refine (proj1 (reaper_scales_to_zero Sim _ _ _ _ _ _ _ one_done 119 ledger_ok_nil one_done_run
                   eq_refl _)).
  intros f rt Hf. assert (runtimes_ (mgr one_done) = {["hello" := default rt (runtimes_ (mgr one_done) !! "hello")]})
    as Hone by (by vm_compute).
  rewrite Hone in Hf. apply lookup_singleton_Some in Hf as [<- <-].
  by vm_compute.
Defined.
