(* ===== verification/ReaperThread.v ===== *)
(** * The life of the reaper thread ([runtime_manager.cpp])

    [RuntimeManager]'s constructor starts the thread, [reap_idle_runtimes] is what it
    runs, and the destructor clears [running_] and joins it, while request threads use
    the manager: three kinds of threads over the atomic flag and the mutex. The
    destructor ends, and no pass of the reaper comes after it. *)

From S2P Require Import Prelude CppStd StringFacts ContainerBackend FunctionModel Metrics Http.
From S2P Require Import HttpClient RuntimeManager RuntimeInvariant SimWorld RuntimeCalls.

(** Where the reaper stands: about to ... *)
Inductive ReaperPhase : Type :=
  | AtWhile                  (* while (running_) *)
  | AtSleep
  | AtPass                   (* lock the mutex and reap *)
  | Returned.

(** Where the thread that owns the manager stands. *)
Inductive OwnerPhase : Type :=
  | Constructed              (* the manager is in use *)
  | AtJoin                   (* in the destructor, running_ is false *)
  | Destroyed.

Record Life (E : Type) : Type := {
  manager : Manager E;
  running_ : bool;
  reaper : ReaperPhase;
  owner : OwnerPhase;
}.
Arguments manager {_} _.
Arguments running_ {_} _.
Arguments reaper {_} _.
Arguments owner {_} _.

Inductive life_label : Type := Reaper | Owner | Requests.

Section life.
  Context {E : Type} `{Clock E, ContainerBackend E, Sockets E}.
  Implicit Types (s : Life E) (m : Manager E).

(** [RuntimeManager::RuntimeManager]: [running_] is initialised before the thread. *)
Definition construct (e : E) : Life E := {|
  manager := new_manager e; running_ := true; reaper := AtWhile; owner := Constructed |}.

Definition reaper_to (ph : ReaperPhase) m s : Life E := {|
  manager := m; running_ := running_ s; reaper := ph; owner := owner s |}.

(** The next step of [reap_idle_runtimes]. *)
Definition reaper_step s : option (Life E) :=
  match reaper s with
  | AtWhile => Some (reaper_to (if running_ s then AtSleep else Returned) (manager s) s)
  | AtSleep => Some (reaper_to AtPass (outside (sleep_for_ms kReaperIntervalMs) (manager s)).2 s)
  | AtPass => Some (reaper_to AtWhile (reap_pass (manager s)).2 s)
  | Returned => None
  end.

(** The next step of [~RuntimeManager]; [join] waits for the thread's end. *)
Definition destructor_step s : option (Life E) :=
  match owner s with
  | Constructed => Some {| manager := manager s; running_ := false; reaper := reaper s; owner := AtJoin |}
  | AtJoin =>
      match reaper s with
      | Returned => Some {| manager := manager s; running_ := running_ s; reaper := Returned;
                            owner := Destroyed |}
      | _ => None
      end
  | Destroyed => None
  end.

Inductive life_step s : life_label → Life E → Prop :=
  | l_reaper s' : reaper_step s = Some s' → life_step s Reaper s'
  | l_owner s' : destructor_step s = Some s' → life_step s Owner s'
  | l_requests m :
      (* a critical section of another thread, while the manager lives *)
      owner s = Constructed → life_step s Requests (reaper_to (reaper s) m s).

Inductive life_run s : list life_label → Life E → Prop :=
  | life_nil : life_run s [] s
  | life_snoc tr l s1 s2 : life_run s tr s1 → life_step s1 l s2 → life_run s (tr ++ [l]) s2.

(** The reaper's steps to its end, once [running_] is false. *)
Definition to_return (ph : ReaperPhase) : Z :=
  match ph with AtWhile => 1 | AtSleep => 3 | AtPass => 2 | Returned => 0 end.

Record life_inv s : Prop := {
  lf_running : running_ s = true ↔ owner s = Constructed;
  lf_returned : reaper s = Returned → running_ s = false;
  lf_joined : owner s = Destroyed → reaper s = Returned;
}.

Lemma life_step_inv s l s' : life_inv s → life_step s l s' → life_inv s'.
Proof.
  intros [Hr Ht Hj] [s1 Hs|s1 Hs|m Ho].
  - unfold reaper_step in Hs. destruct (reaper s) eqn:Hp; simplify_eq/=; split; simpl; try done;
      try (by intros ?%Hj). by destruct (running_ s).
  - unfold destructor_step in Hs. destruct (owner s) eqn:Hp; simplify_eq/=; [by split|].
    destruct (reaper s) eqn:Hq; simplify_eq/=. split; simpl; [|by auto|done].
    split; [|done]. intros Hx. by apply Hr in Hx.
  - split; simpl; try done.
Qed.

Lemma life_run_inv (e : E) tr s : life_run (construct e) tr s → life_inv s.
Proof. induction 1; [by split|]. by eapply life_step_inv. Qed.

Definition reaper_steps (tr : list life_label) : Z :=
  foldr (λ l n, match l with Reaper => 1 | _ => 0 end + n) 0 tr.
Lemma reaper_steps_snoc tr l :
  reaper_steps (tr ++ [l]) = reaper_steps tr + match l with Reaper => 1 | _ => 0 end.
Proof. unfold reaper_steps. induction tr; simpl; lia. Qed.

(** After the destructor began, the manager is touched by one pass of the reaper at
    most. *)
Lemma stopping_run s tr s' :
  owner s ≠ Constructed → running_ s = false → life_run s tr s' →
  owner s' ≠ Constructed ∧ running_ s' = false ∧
  reaper_steps tr + to_return (reaper s') = to_return (reaper s).
Proof.
  intros Ho Hr Hrun. induction Hrun as [|tr l s1 s2 _ (Ho1 & Hr1 & IH) Hs]; [done|].
  rewrite reaper_steps_snoc. destruct Hs as [s2 Hs|s2 Hs|m Hm]; [| |done].
  - unfold reaper_step in Hs. rewrite Hr1 in Hs. destruct (reaper s1); simplify_eq/=;
      split_and!; try done; lia.
  - unfold destructor_step in Hs. destruct (owner s1); [done| |done].
    destruct (reaper s1); simplify_eq/=. split_and!; done || lia.
Qed.
End life.

(** C22: [~RuntimeManager] ends, and it ends the reaper: once it has cleared [running_]
    the reaper takes at most three more steps - one pass at most - none of which
    waits for anything but its sleep, [join] returns after the last one, and once it
    has returned the reaper never runs again. *)
Theorem destructor_stops_reaper (E : Type) `(Clock E, ContainerBackend E, Sockets E)
    (e : E) (tr : list life_label) (s : Life E) :
  life_run (construct e) tr s → owner s ≠ Constructed →
  ∀ tr' s', life_run s tr' s' →
    reaper_steps tr' ≤ 3 ∧
    match owner s' with
    | Destroyed => ∀ tr2 s2, life_run s' tr2 s2 → reaper_steps tr2 = 0 ∧ manager s2 = manager s'
    | _ => (∃ s2, life_step s' Reaper s2) ∨ (∃ s2, life_step s' Owner s2 ∧ owner s2 = Destroyed)
    end.
Proof.
  intros Hrun Ho tr' s' Hrun'.
  pose proof (life_run_inv e tr s Hrun) as Hi.
  assert (running_ s = false) as Hr.
  { destruct (running_ s) eqn:Hx; [|done]. by apply Hi in Hx. }
  assert (life_inv s') as Hi'.
  { clear -Hi Hrun'. induction Hrun' as [|tr l s1 s2 _ IH Hs]; [done|]. by eapply life_step_inv. }
  destruct (stopping_run s tr' s' Ho Hr Hrun') as (Ho' & Hr' & Hn). split.
  { destruct (reaper s), (reaper s'); simpl in Hn; lia. }
  destruct (owner s') eqn:Hos; [done| |].
  - destruct (reaper s') eqn:Hph;
      [left; eexists; apply l_reaper; unfold reaper_step; by rewrite Hph..|].
    right. eexists. split; [apply l_owner; unfold destructor_step; by rewrite Hos, Hph|done].
  - pose proof (lf_joined _ Hi' Hos) as Hret. intros tr2 s2 Hrun2.
    assert (reaper_steps tr2 = 0 ∧ manager s2 = manager s' ∧ owner s2 = Destroyed ∧ reaper s2 = Returned)
      as (? & ? & _); [|done].
    induction Hrun2 as [|tr2 l s1 s2 _ (Hn1 & Hm1 & Ho1 & Hp1) Hs]; [done|].
    destruct Hs as [s2 Hs|s2 Hs|m Hm]; [| |congruence].
    + unfold reaper_step in Hs. by rewrite Hp1 in Hs.
    + unfold destructor_step in Hs. by rewrite Ho1 in Hs.
Qed.

(** ** The hypotheses can be met *)

(** The destructor runs when the reaper has slept. *)
Definition slept : Manager Sim :=
  (outside (sleep_for_ms kReaperIntervalMs) (new_manager (new_sim []))).2.
Definition destroyed_late : Life Sim :=
  {| manager := slept; running_ := false; reaper := AtPass; owner := AtJoin |}.

Lemma destroyed_late_run : life_run (construct (new_sim [])) [Reaper; Reaper; Owner] destroyed_late.
Proof.
  apply (life_snoc _ [Reaper; Reaper] Owner (reaper_to AtPass slept (construct (new_sim []))));
    [|by apply l_owner].
  apply (life_snoc _ [Reaper] Reaper (reaper_to AtSleep (new_manager (new_sim [])) (construct (new_sim []))));
    [|by apply l_reaper].
  apply (life_snoc _ [] Reaper (construct (new_sim []))); [apply life_nil|by apply l_reaper].
Qed.

Lemma destructor_stops_reaper_witness : ∃ s2, life_step destroyed_late Reaper s2.
Proof.
  destruct (destructor_stops_reaper Sim _ _ _ (new_sim []) _ _ destroyed_late_run ltac:(discriminate)
              [] _ (life_nil _)) as [_ [Hs|(s2 & Hs & _)]];
    [exact Hs|inversion Hs as [|? Hd|]; discriminate Hd].
Defined.
