(* ===== verification/Database.v ===== *)
(** * The SQLite wrapper ([database.hpp], [database.cpp])

    [Database] and [Statement] over the SQLite engine, which is a parameter: the
    class [Sqlite] is its interface, [SqliteSpec] what its documentation says of
    the five kinds of statement the stores issue, [SqliteSchema] what it says of
    [CREATE TABLE IF NOT EXISTS]. A [Statement] holds the
    database's mutex from prepare to its destruction, so each use of one - bind,
    step, read the columns - is a single step of the world. *)

From S2P Require Import Prelude CppStd.
From Stdlib Require Import PrimFloat.

(** ** SQL *)

Inductive sql_value : Type :=
  | SqlNull
  | SqlInt (z : Z)
  | SqlReal (r : float)
  | SqlText (s : string).

(** A value in [VALUES (...)]: the next [?], or [strftime('%s', 'now')]. *)
Inductive sql_expr : Type := Param | NowSeconds.

(** The statements of the two stores. [autokey] is the table's [INTEGER PRIMARY KEY
    AUTOINCREMENT] column, which the statement does not mention. In [Upsert] the conflict clause sets every
    column but the key: to [excluded]'s value, or to the time of the update. *)
Inductive sql_stmt : Type :=
  | Insert (table autokey : string) (columns : list (string * sql_expr))
  | Upsert (table : string) (columns : list (string * sql_expr)) (key : string)
  | SelectWhere (columns : list string) (table key : string)
  | SelectAll (columns : list string) (table : string)
  | DeleteWhere (table key : string).

(** How the successive calls of [sqlite3_step] end. *)
Inductive step_end : Type :=
  | StepDone
  | StepError (errmsg : string)
  | PrepareError (errmsg : string).

(** The engine on one connection: a prepared statement with its bound values, run
    to its end or to its first row only ([LIMIT] of the caller's reading), and the
    conversions of the column readers. *)
Class Sqlite (E : Type) : Type := {
  sqlite_open : string → St E (option string);
  sqlite_exec : string → St E (option string);
  sqlite_run : sql_stmt → list sql_value → St E (list (list sql_value) * step_end);
  sqlite_changes : E → Z;
  sqlite_last_insert_rowid : E → Z;
  sqlite_text_of : sql_value → string;
  sqlite_int64_of : sql_value → Z;
  sqlite_double_of : sql_value → float;
}.

(** ** [Database] *)

Section database.
  Context {E : Type} `{Sqlite E}.

(** The constructor. *)
Definition open_database (path : string) : Io E unit :=
  error ⇐ io_lift (sqlite_open path);
  match error with
  | Some errmsg =>
      io_throw (RuntimeError ("failed to open database at " +:+ path +:+ ": " +:+ errmsg))
  | None => io_ret tt
  end.

Definition exec (sql : string) : Io E unit :=
  error ⇐ io_lift (sqlite_exec sql);
  match error with
  | Some errmsg => io_throw (RuntimeError ("sqlite exec failed: " +:+ errmsg))
  | None => io_ret tt
  end.

(** Read while the statement is alive, with the mutex held. *)
Definition changes : Io E Z := λ e, (Ok (sqlite_changes e), e).
Definition last_insert_id : Io E Z := λ e, (Ok (sqlite_last_insert_rowid e), e).

(** ** [Statement] *)

(** [bind] of a [std::string] passes [c_str()] and length -1: the value ends at
    the first NUL. *)
Definition bind_text (value : string) : sql_value := SqlText (c_str value).
Definition bind_int64 (value : Z) : sql_value := SqlInt value.
Definition bind_double (value : float) : sql_value := SqlReal value.

(** Prepare, bind and step: the rows read before the statement ended. *)
Definition step_rows (stmt : sql_stmt) (params : list sql_value) :
    Io E (list (list sql_value) * option exn) :=
  result ⇐ io_lift (sqlite_run stmt params);
  match result with
  | (_, PrepareError errmsg) =>
      io_throw (RuntimeError ("failed to prepare statement: " +:+ errmsg))
  | (rows, StepError errmsg) =>
      io_ret (rows, Some (RuntimeError ("sqlite step failed: " +:+ errmsg)))
  | (rows, StepDone) => io_ret (rows, None)
  end.

(** One [step()]: a row, or the end, or the exception. *)
Definition step_once (stmt : sql_stmt) (params : list sql_value) : Io E (option (list sql_value)) :=
  result ⇐ step_rows stmt params;
  match result with
  | (row :: _, _) => io_ret (Some row)
  | ([], None) => io_ret None
  | ([], Some x) => io_throw x
  end.

(** [while (stmt.step())] *)
Definition step_all (stmt : sql_stmt) (params : list sql_value) : Io E (list (list sql_value)) :=
  result ⇐ step_rows stmt params;
  match result with
  | (rows, None) => io_ret rows
  | (_, Some x) => io_throw x
  end.

Definition column (row : list sql_value) (index : nat) : sql_value := default SqlNull (row !! index).
(** A NULL pointer gives the empty string, any other a C string. *)
Definition column_text (row : list sql_value) (index : nat) : string :=
  match column row index with
  | SqlNull => ""
  | v => c_str (sqlite_text_of v)
  end.
Definition column_int64 (row : list sql_value) (index : nat) : Z :=
  sqlite_int64_of (column row index).
Definition column_double (row : list sql_value) (index : nat) : float :=
  sqlite_double_of (column row index).
End database.

(** ** What the engine's documentation says

    A table is a list of rows, a row maps columns to values. *)
Notation row := (gmap string sql_value).

Fixpoint eval_columns (columns : list (string * sql_expr)) (params : list sql_value) (now : Z) : row :=
  match columns, params with
  | [], _ => ∅
  | (c, NowSeconds) :: columns, _ => <[c := SqlInt now]> (eval_columns columns params now)
  | (c, Param) :: columns, v :: params => <[c := v]> (eval_columns columns params now)
  | (c, Param) :: columns, [] => <[c := SqlNull]> (eval_columns columns [] now)
  end.

Definition project (columns : list string) (r : row) : list sql_value :=
  (λ c, default SqlNull (r !! c)) <$> columns.

(** [=] between a key and a bound value of the key's type. *)
Definition sql_eqb (v w : sql_value) : bool :=
  match v, w with
  | SqlText s, SqlText t => bool_decide (s = t)
  | SqlInt x, SqlInt y => bool_decide (x = y)
  | _, _ => false
  end.
Definition matches (key : string) (v : sql_value) (r : row) : Prop :=
  sql_eqb v (default SqlNull (r !! key)) = true.
#[export] Instance matches_dec key v r : Decision (matches key v r).
Proof. unfold matches. apply _. Defined.

(** [ON CONFLICT(key) DO UPDATE SET column = excluded.column, ...] *)
Definition upsert_row (key : string) (new : row) (rows : list row) : list row :=
  let v := default SqlNull (new !! key) in
  if decide (filter (matches key v) rows = []) then rows ++ [new]
  else (λ r, if decide (matches key v r) then new ∪ r else r) <$> rows.

Class SqliteView (E : Type) : Type := {
  db_rows : E → string → list row;
  db_top : E → string → Z;     (* the largest rowid a table ever held *)
  db_now : E → Z;              (* what strftime('%s', 'now') reads *)
}.

Definition same_tables {E} `{SqliteView E} (e e' : E) : Prop :=
  ∀ t, db_rows e' t = db_rows e t ∧ db_top e' t = db_top e t.
Definition same_tables_but {E} `{SqliteView E} (table : string) (e e' : E) : Prop :=
  ∀ t, t ≠ table → db_rows e' t = db_rows e t ∧ db_top e' t = db_top e t.

(** Statements run one at a time, all or nothing; [INTEGER PRIMARY KEY
    AUTOINCREMENT] gives every row an id above all earlier ones; rows come in no
    promised order. A column stores a value of the type it declares as it is; that the
    stores use no other kind of value, and no table or column but their own, is [fits],
    which [boot_outcome] shows of every statement. *)
Class SqliteSpec (E : Type) `{Sqlite E, SqliteView E} : Prop := {
  sqlite_insert_law table key columns params e :
    let '((rows, fin), e') := sqlite_run (Insert table key columns) params e in
    let rowid := sqlite_last_insert_rowid e' in
    rows = [] ∧
    if fin is StepDone then
      0 ≤ db_top e table < rowid ∧ in_long rowid ∧ db_top e' table = rowid ∧
      db_rows e' table
      = db_rows e table ++ [<[key := SqlInt rowid]> (eval_columns columns params (db_now e))] ∧
      same_tables_but table e e'
    else same_tables e e';
  sqlite_upsert_law table columns key params e :
    let '((rows, fin), e') := sqlite_run (Upsert table columns key) params e in
    rows = [] ∧
    if fin is StepDone then
      db_rows e' table
      = upsert_row key (eval_columns columns params (db_now e)) (db_rows e table) ∧
      same_tables_but table e e'
    else same_tables e e';
  sqlite_select_where_law columns table key v e :
    let '((rows, fin), e') := sqlite_run (SelectWhere columns table key) [v] e in
    let expected := project columns <$> filter (matches key v) (db_rows e table) in
    same_tables e e' ∧ rows ⊆+ expected ∧ (fin = StepDone → rows ≡ₚ expected);
  sqlite_select_all_law columns table e :
    let '((rows, fin), e') := sqlite_run (SelectAll columns table) [] e in
    let expected := project columns <$> db_rows e table in
    same_tables e e' ∧ rows ⊆+ expected ∧ (fin = StepDone → rows ≡ₚ expected);
  sqlite_delete_law table key v e :
    let '((rows, fin), e') := sqlite_run (DeleteWhere table key) [v] e in
    rows = [] ∧
    if fin is StepDone then
      db_rows e' table = filter (λ r, ¬ matches key v r) (db_rows e table) ∧
      sqlite_changes e' = Z.of_nat (length (filter (matches key v) (db_rows e table))) ∧
      same_tables_but table e e'
    else same_tables e e';
  sqlite_text_law s : sqlite_text_of (SqlText s) = s;
  sqlite_int64_law z : sqlite_int64_of (SqlInt z) = z;
  sqlite_double_law r : sqlite_double_of (SqlReal r) = r;
}.

(** ** Opening a database *)

(** A table's definition, and the statement that creates it as the stores write it. *)
Record Schema : Type := {
  sc_table : string;
  sc_columns : list (string * string);   (* name, type and constraints *)
}.

Definition newline : string := String LF "".
Definition column_text_sql (c : string * string) : string := "    " +:+ c.1 +:+ " " +:+ c.2.
Fixpoint columns_sql (cs : list (string * string)) : string :=
  match cs with
  | [] => ""
  | [c] => column_text_sql c +:+ newline
  | c :: cs => column_text_sql c +:+ "," +:+ newline +:+ columns_sql cs
  end.
Definition create_table_sql (sc : Schema) : string :=
  newline +:+ "CREATE TABLE IF NOT EXISTS " +:+ sc_table sc +:+ " (" +:+ newline
  +:+ columns_sql (sc_columns sc) +:+ ");" +:+ newline.

(** The identifiers and the column definitions that the stores use. *)
Definition identifier (s : string) : bool :=
  negb (bool_decide (s = "")) && str_forall (λ c, isalnum c || bool_decide (c = "_"%char)) s.
Definition column_definitions : list string :=
  ["TEXT PRIMARY KEY"; "TEXT NOT NULL"; "INTEGER NOT NULL"; "REAL NOT NULL";
   "INTEGER PRIMARY KEY AUTOINCREMENT"].
Definition schema_ok (sc : Schema) : bool :=
  identifier (sc_table sc) && negb (bool_decide (sc_columns sc = [])) &&
  forallb (λ c, identifier c.1 && bool_decide (c.2 ∈ column_definitions)) (sc_columns sc) &&
  bool_decide (NoDup (sc_columns sc).*1).

(** The tables there are, each as its [CREATE TABLE] defined it. A table that is not there
    counts as empty. [CREATE TABLE IF NOT EXISTS] makes an absent table, empty, and leaves
    a present one as it is, whatever its columns; an error leaves everything. *)
Class SqliteSchema (E : Type) `{Sqlite E, SqliteView E} : Type := {
  db_schema : E → string → option Schema;
  schema_absent_law e t : db_schema e t = None → db_rows e t = [] ∧ db_top e t = 0;
  schema_create_law sc e : schema_ok sc = true →
    let '(error, e') := sqlite_exec (create_table_sql sc) e in
    match error, db_schema e (sc_table sc) with
    | None, None =>
        (∀ t, db_schema e' t = if decide (t = sc_table sc) then Some sc else db_schema e t) ∧
        db_rows e' (sc_table sc) = [] ∧ db_top e' (sc_table sc) = 0 ∧
        same_tables_but (sc_table sc) e e'
    | _, _ => (∀ t, db_schema e' t = db_schema e t) ∧ same_tables e e'
    end;
}.

(** The engine's states are those of connections to one file. [sqlite3_open] of that
    file shows what it holds, whoever wrote it. *)
Class SqliteFile (E : Type) `{SqliteSchema E} : Type := {
  db_file : string;
  file_open_law e :
    let e' := (sqlite_open db_file e).2 in
    (∀ t, db_schema e' t = db_schema e t) ∧ same_tables e e';
}.
Arguments db_file E {_ _ _ _}.

(** Does a statement with these values suit a table? Its columns are the table's; what it
    stores has the type that each column declares - so the column's affinity does not
    convert it - and leaves none out; its key is the table's own kind of key. *)
Definition accepts (definition : string) (v : sql_value) : bool :=
  match v with
  | SqlNull => false
  | SqlInt _ => String.prefix "INTEGER" definition
  | SqlReal _ => String.prefix "REAL" definition
  | SqlText _ => String.prefix "TEXT" definition
  end.
Definition column_definition (sc : Schema) (c : string) : string :=
  default "" ((list_to_map (sc_columns sc) : gmap string string) !! c).
Definition known (sc : Schema) (columns : list string) : bool :=
  forallb (λ c, bool_decide (c ∈ (sc_columns sc).*1)) columns.
Definition fills (columns : list (string * string)) (r : row) : bool :=
  forallb (λ c, match r !! c.1 with Some v => accepts c.2 v | None => false end) columns.
Definition keyed (sc : Schema) (key : string) (params : list sql_value) : bool :=
  match params with [v] => accepts (column_definition sc key) v | _ => false end.

Definition stmt_table (stmt : sql_stmt) : string :=
  match stmt with
  | Insert table _ _ | Upsert table _ _ | SelectWhere _ table _ | SelectAll _ table
  | DeleteWhere table _ => table
  end.
Definition fits (sc : Schema) (stmt : sql_stmt) (params : list sql_value) : bool :=
  bool_decide (stmt_table stmt = sc_table sc) &&
  match stmt with
  | Insert _ autokey columns =>
      bool_decide (column_definition sc autokey = "INTEGER PRIMARY KEY AUTOINCREMENT") &&
      known sc columns.*1 &&
      fills (filter (λ c, c.1 ≠ autokey) (sc_columns sc)) (eval_columns columns params 0)
  | Upsert _ columns key =>
      bool_decide (column_definition sc key = "TEXT PRIMARY KEY") &&
      known sc columns.*1 && fills (sc_columns sc) (eval_columns columns params 0)
  | SelectWhere columns _ key => known sc columns && keyed sc key params
  | SelectAll columns _ => known sc columns && bool_decide (length params = 0%nat)
  | DeleteWhere _ key => keyed sc key params
  end.

Section tables.
  Context {E : Type} `{SqliteSchema E}.

Lemma same_tables_trans (e1 e2 e3 : E) : same_tables e1 e2 → same_tables e2 e3 → same_tables e1 e3.
Proof. intros H12 H23 t. destruct (H12 t), (H23 t). split; congruence. Qed.

(** Creating a table keeps what the tables hold and leaves a table of that name. *)
Lemma exec_create_table sc (e : E) :
  schema_ok sc = true →
  let '(r, e') := exec (create_table_sql sc) e in
  same_tables e e' ∧
  match r with
  | Ok _ => ∀ t, db_schema e' t
                 = if decide (t = sc_table sc) then Some (default sc (db_schema e t)) else db_schema e t
  | Throw _ => ∀ t, db_schema e' t = db_schema e t
  | Undefined _ => False
  end.
Proof.
  intros Hok. unfold exec, io_bind, io_lift, io_ret, io_throw.
  pose proof (schema_create_law sc e Hok) as Hl.
  destruct (sqlite_exec (create_table_sql sc) e) as [[msg|] e']; [by destruct Hl|].
  destruct (db_schema e (sc_table sc)) as [sc0|] eqn:Hsc.
  - destruct Hl as [Hs Ht]. split; [done|]. intros t. rewrite Hs.
    case_decide as Heq; [subst; by rewrite Hsc|done].
  - destruct Hl as (Hs & Hr & Htop & Hbut). split.
    + intros t. destruct (decide (t = sc_table sc)) as [-> |Hne]; [|by apply Hbut].
      destruct (schema_absent_law e _ Hsc). split; congruence.
    + intros t. rewrite Hs. case_decide as Heq; [subst; by rewrite Hsc|done].
Qed.
End tables.

(** ** Facts on statements *)

Section statements.
  Context {E : Type} `{SqliteSpec E}.

Lemma step_once_inv stmt params e r e' :
  step_once stmt params e = (Ok r, e') →
  ∃ rows fin, sqlite_run stmt params e = ((rows, fin), e') ∧ r = head rows ∧
              (rows = [] → fin = StepDone).
Proof.
  unfold step_once, step_rows, io_bind, io_lift, io_ret, io_throw.
  destruct (sqlite_run stmt params e) as [[rows fin] e1].
  destruct fin, rows; intros [= <- <-]; eexists _, _; naive_solver.
Qed.

(** Whatever happens, the world is the one the engine left, and a throw means the
    statement did not complete. *)
Lemma step_once_cases stmt params e :
  let '((rows, fin), e1) := sqlite_run stmt params e in
  (step_once stmt params e).2 = e1 ∧
  match (step_once stmt params e).1 with
  | Ok _ => True
  | Throw _ => fin ≠ StepDone
  | Undefined _ => False
  end.
Proof.
  unfold step_once, step_rows, io_bind, io_lift, io_ret, io_throw.
  by destruct (sqlite_run stmt params e) as [[[|r rows] []] e1].
Qed.

Lemma step_all_cases stmt params e :
  let '((rows, fin), e1) := sqlite_run stmt params e in
  (step_all stmt params e).2 = e1 ∧ (∀ u, (step_all stmt params e).1 ≠ Undefined u).
Proof.
  unfold step_all, step_rows, io_bind, io_lift, io_ret, io_throw.
  by destruct (sqlite_run stmt params e) as [[rows []] e1].
Qed.

Lemma step_all_inv stmt params e rows e' :
  step_all stmt params e = (Ok rows, e') →
  sqlite_run stmt params e = ((rows, StepDone), e').
Proof.
  unfold step_all, step_rows, io_bind, io_lift, io_ret, io_throw.
  destruct (sqlite_run stmt params e) as [[rows' fin] e1].
  destruct fin; intros [= <- <-]; done.
Qed.

Lemma column_text_Text row i s : row !! i = Some (SqlText s) → column_text row i = c_str s.
Proof. intros Hi. unfold column_text, column. rewrite Hi. simpl. by rewrite sqlite_text_law. Qed.
Lemma column_int64_Int row i z : row !! i = Some (SqlInt z) → column_int64 row i = z.
Proof. intros Hi. unfold column_int64, column. rewrite Hi. apply sqlite_int64_law. Qed.
Lemma column_double_Real row i r : row !! i = Some (SqlReal r) → column_double row i = r.
Proof. intros Hi. unfold column_double, column. rewrite Hi. apply sqlite_double_law. Qed.

(** What a statement can touch, whether it succeeds or not. *)
Definition touches (stmt : sql_stmt) (e e' : E) : Prop :=
  match stmt with
  | Insert table _ _ | Upsert table _ _ | DeleteWhere table _ => same_tables_but table e e'
  | SelectWhere _ _ _ | SelectAll _ _ => same_tables e e'
  end.

Lemma same_tables_all_but table e e' : same_tables e e' → same_tables_but table e e'.
Proof. intros Hs t _. apply Hs. Qed.

Lemma step_once_touches stmt params e :
  match stmt with
  | SelectWhere _ _ _ | DeleteWhere _ _ => ∃ v, params = [v]
  | SelectAll _ _ => params = []
  | _ => True
  end →
  touches stmt e (step_once stmt params e).2.
Proof.
  intros Hp. pose proof (step_once_cases stmt params e) as Hc.
  destruct (sqlite_run stmt params e) as [[rows fin] e1] eqn:Hrun. destruct Hc as [-> _].
  destruct stmt as [t k cs|t cs k|cs t k|cs t|t k]; simpl.
  - pose proof (sqlite_insert_law t k cs params e) as Hl. rewrite Hrun in Hl.
    destruct Hl as [_ Hl]. destruct fin; [apply Hl|by apply same_tables_all_but..].
  - pose proof (sqlite_upsert_law t cs k params e) as Hl. rewrite Hrun in Hl.
    destruct Hl as [_ Hl]. destruct fin; [apply Hl|by apply same_tables_all_but..].
  - destruct Hp as [v ->]. pose proof (sqlite_select_where_law cs t k v e) as Hl.
    rewrite Hrun in Hl. apply Hl.
  - subst. pose proof (sqlite_select_all_law cs t e) as Hl. rewrite Hrun in Hl. apply Hl.
  - destruct Hp as [v ->]. pose proof (sqlite_delete_law t k v e) as Hl.
    rewrite Hrun in Hl. destruct Hl as [_ Hl].
    destruct fin; [apply Hl|by apply same_tables_all_but..].
Qed.

(** A select by key returns the one row that matches, if at most one does. *)
Lemma select_one columns table key v e r e' :
  step_once (SelectWhere columns table key) [v] e = (Ok r, e') →
  (length (filter (matches key v) (db_rows e table)) ≤ 1)%nat →
  same_tables e e' ∧
  r = head (project columns <$> filter (matches key v) (db_rows e table)).
Proof.
  intros (rows & fin & Hrun & -> & Hfin)%step_once_inv Hlen.
  pose proof (sqlite_select_where_law columns table key v e) as Hlaw. rewrite Hrun in Hlaw.
  destruct Hlaw as (Hs & Hsub & Hperm). split; [done|].
  destruct (filter _ _) as [|x [|y l]]; simpl in *; [| |lia].
  - apply submseteq_nil_r in Hsub as ->. done.
  - destruct rows as [|r0 rows]; [by apply Permutation_nil_cons in Hperm; auto|].
    pose proof (submseteq_length _ _ Hsub). destruct rows; simpl in *; [|lia].
    apply singleton_submseteq_l, list_elem_of_singleton in Hsub. by subst.
Qed.
End statements.

(** *** Upserts *)

#[export] Instance upsert_row_perm key new : Proper ((≡ₚ) ==> (≡ₚ)) (upsert_row key new).
Proof.
  intros rows rows' Hp. unfold upsert_row. set (v := default SqlNull (new !! key)).
  assert (filter (matches key v) rows = [] ↔ filter (matches key v) rows' = []) as Hiff.
  { split; intros Hn; apply Permutation_nil; by rewrite <-Hn, Hp. }
  destruct (decide (filter (matches key v) rows = [])) as [Hn|Hn].
  - rewrite decide_True by (by apply Hiff). by rewrite Hp.
  - rewrite decide_False by (by rewrite <-Hiff). by rewrite Hp.
Qed.

Lemma upsert_row_new key new rows :
  filter (matches key (default SqlNull (new !! key))) rows = [] →
  upsert_row key new rows = rows ++ [new].
Proof. intros Hn. unfold upsert_row. by rewrite decide_True. Qed.

Lemma upsert_row_replace key new r rows :
  matches key (default SqlNull (new !! key)) r →
  filter (matches key (default SqlNull (new !! key))) rows = [] →
  upsert_row key new (r :: rows) = (new ∪ r) :: rows.
Proof.
  intros Hm Hn. unfold upsert_row. rewrite filter_cons_True, decide_False by done.
  rewrite fmap_cons, decide_True by done. f_equal.
  induction rows as [|r' rows IH]; [done|]. rewrite filter_cons in Hn.
  case_decide; [done|]. rewrite fmap_cons, decide_False, IH by done. done.
Qed.

(** Overwriting every selected column selects the new values. *)
Lemma project_union columns (new old : row) :
  Forall (λ c, is_Some (new !! c)) columns →
  project columns (new ∪ old) = project columns new.
Proof.
  intros Hall. unfold project. apply list_fmap_ext. intros i c Hc.
  eapply Forall_lookup_1 in Hall as [v Hv]; [|done]. 
  by rewrite (lookup_union_Some_l _ _ _ _ Hv), Hv.
Qed.
