(* ===== verification/MemDatabase.v ===== *)
(** * A small engine in memory

    A concrete instance of the database interface that meets [SqliteSpec] and
    [SqliteSchema], to run the stores on; it reads [CREATE TABLE] statements. *)

From S2P Require Import Prelude CppStd StringFacts Database.

Record Mem : Type := {
  mem_schema : gmap string Schema;
  mem_rows : gmap string (list row);
  mem_top : gmap string Z;
  mem_changes : Z;
  mem_last : Z;
  mem_now : Z;
}.

Definition new_mem (now : Z) : Mem :=
  {| mem_schema := ∅; mem_rows := ∅; mem_top := ∅; mem_changes := 0; mem_last := 0; mem_now := now |}.

#[export] Instance mem_view : SqliteView Mem := {|
  db_rows m t := if mem_schema m !! t is Some _ then default [] (mem_rows m !! t) else [];
  db_top m t := if mem_schema m !! t is Some _ then default 0 (mem_top m !! t) else 0;
  db_now := mem_now;
|}.

Definition set_rows (t : string) (rows : list row) (changes : Z) (m : Mem) : Mem := {|
  mem_schema := mem_schema m; mem_rows := <[t := rows]> (mem_rows m); mem_top := mem_top m; mem_changes := changes;
  mem_last := mem_last m; mem_now := mem_now m |}.
Definition set_top (t : string) (rowid : Z) (m : Mem) : Mem := {|
  mem_schema := mem_schema m; mem_rows := mem_rows m; mem_top := <[t := rowid]> (mem_top m); mem_changes := mem_changes m;
  mem_last := rowid; mem_now := mem_now m |}.

(** A full table: AUTOINCREMENT then fails with SQLITE_FULL. *)
Definition mem_insert (t key : string) (columns : list (string * sql_expr))
    (params : list sql_value) (m : Mem) : (list (list sql_value) * step_end) * Mem :=
  let rowid := Z.max 0 (db_top m t) + 1 in
  if decide (in_long rowid ∧ 0 ≤ db_top m t) then
    (([], StepDone),
     set_rows t (db_rows m t ++ [<[key := SqlInt rowid]> (eval_columns columns params (db_now m))])
       1 (set_top t rowid m))
  else (([], StepError "database or disk is full"), m).

Definition mem_run (stmt : sql_stmt) (params : list sql_value) :
    St Mem (list (list sql_value) * step_end) := λ m,
  if mem_schema m !! stmt_table stmt is None
  then (([], PrepareError ("no such table: " +:+ stmt_table stmt)), m) else
  match stmt with
  | Insert t key columns => mem_insert t key columns params m
  | Upsert t columns key =>
      (([], StepDone),
       set_rows t (upsert_row key (eval_columns columns params (db_now m)) (db_rows m t)) 1 m)
  | SelectWhere columns t key =>
      ((project columns <$> filter (matches key (default SqlNull (head params))) (db_rows m t),
        StepDone), m)
  | SelectAll columns t => ((project columns <$> db_rows m t, StepDone), m)
  | DeleteWhere t key =>
      let v := default SqlNull (head params) in
      (([], StepDone),
       set_rows t (filter (λ r, ¬ matches key v r) (db_rows m t))
         (Z.of_nat (length (filter (matches key v) (db_rows m t)))) m)
  end.

(** *** [CREATE TABLE]

    The text of a [CREATE TABLE] is read line by line. *)
Definition space : ascii := " "%char.
Definition parse_column (text : string) : option (string * string) :=
  let text := drop 4 text in
  let text := if decide (last_char text = Some ","%char) then pop_back text else text in
  n ← find_char space text;
  Some (take n text, drop (S n) text).
Fixpoint parse_columns (lines : list string) : option (list (string * string)) :=
  match lines with
  | [] => None
  | [last_line] => if decide (last_line = ");") then Some [] else None
  | l :: lines => c ← parse_column l; cs ← parse_columns lines; Some (c :: cs)
  end.
Definition create_prefix : string := "CREATE TABLE IF NOT EXISTS ".
Definition parse_schema (sql : string) : option Schema :=
  match getlines sql with
  | "" :: header :: lines =>
      if String.prefix create_prefix header then
        n ← find_char space (drop (String.length create_prefix) header);
        cs ← parse_columns lines;
        Some {| sc_table := take n (drop (String.length create_prefix) header); sc_columns := cs |}
      else None
  | _ => None
  end.

Definition mem_exec (sql : string) : St Mem (option string) := λ m,
  match parse_schema sql with
  | None => (Some "syntax error", m)
  | Some sc =>
      if mem_schema m !! sc_table sc is Some _ then (None, m) else
      (None, {| mem_schema := <[sc_table sc := sc]> (mem_schema m);
                mem_rows := <[sc_table sc := []]> (mem_rows m);
                mem_top := <[sc_table sc := 0]> (mem_top m); mem_changes := mem_changes m;
                mem_last := mem_last m; mem_now := mem_now m |})
  end.

Lemma identifier_lacks c s :
  identifier s = true → isalnum c || bool_decide (c = "_"%char) = false → lacks c s = true.
Proof.
  intros [_ Hs]%andb_true_iff Hc. eapply str_forall_impl, Hs. intros a Ha.
  apply bool_decide_eq_true. intros ->. by rewrite Hc in Ha.
Qed.

Lemma parse_column_text c (suffix : string) :
  identifier c.1 && bool_decide (c.2 ∈ column_definitions) = true → suffix = "" ∨ suffix = "," →
  lacks LF (column_text_sql c +:+ suffix) = true ∧ parse_column (column_text_sql c +:+ suffix) = Some c.
Proof.
  intros [Hn Hd%bool_decide_eq_true]%andb_true_iff Hsuf. destruct c as [n d]. simpl in *.
  pose proof (identifier_lacks LF n Hn eq_refl) as Hlf.
  pose proof (identifier_lacks space n Hn eq_refl) as Hsp.
  assert (parse_column ("    " +:+ n +:+ " " +:+ d) = Some (n, d) ∧
          parse_column (("    " +:+ n +:+ " " +:+ d) +:+ ",") = Some (n, d) ∧ lacks LF d = true) as (H1 & H2 & Hld).
  { assert (last_char d ≠ Some ","%char ∧ d ≠ "" ∧ lacks LF d = true) as (Hl & Hne & Hld).
    { clear -Hd. unfold column_definitions in Hd.
      repeat (apply elem_of_cons in Hd as [-> |Hd]; [by vm_compute|]). by apply elem_of_nil in Hd. }
    assert (parse_column ("    " +:+ n +:+ " " +:+ d) = Some (n, d)) as H1.
    { unfold parse_column. change (drop 4 ("    " +:+ n +:+ " " +:+ d)) with (n +:+ String space d).
      rewrite decide_False by (rewrite last_char_app by done; simpl; by destruct d).
      rewrite find_char_app by done. cbn [mbind option_bind]. by rewrite take_length_app, drop_S_app. }
    split; [done|]. split; [|done]. unfold parse_column in *.
    change (drop 4 (("    " +:+ n +:+ " " +:+ d) +:+ ",")) with ((n +:+ String space d) +:+ ",").
    rewrite decide_True by apply last_char_snoc. rewrite pop_back_snoc.
    rewrite find_char_app by done. cbn [mbind option_bind]. by rewrite take_length_app, drop_S_app. }
  destruct Hsuf as [-> | ->]; rewrite ?app_empty_r; unfold column_text_sql; simpl fst; simpl snd;
    (split; [|done]); rewrite ?lacks_app; by rewrite Hlf, Hld.
Qed.

#[export] Instance mem_sqlite : Sqlite Mem := {|
  sqlite_open path := λ m, (None, if decide (path = ":memory:") then new_mem (mem_now m) else m);
  sqlite_exec := mem_exec;
  sqlite_run := mem_run;
  sqlite_changes := mem_changes;
  sqlite_last_insert_rowid := mem_last;
  sqlite_text_of v := match v with SqlText s => s | _ => "" end;
  sqlite_int64_of v := match v with SqlInt z => z | _ => 0 end;
  sqlite_double_of v := match v with SqlReal r => r | _ => PrimFloat.zero end;
|}.

Lemma set_rows_same t rows n m :
  is_Some (mem_schema m !! t) → db_rows (set_rows t rows n m) t = rows.
Proof. intros [sc Hsc]. simpl. by rewrite Hsc, lookup_insert_eq. Qed.
Lemma set_rows_but t rows n m : same_tables_but t m (set_rows t rows n m).
Proof. intros t' Ht. simpl. by rewrite lookup_insert_ne. Qed.

#[export] Instance mem_spec : SqliteSpec Mem.
Proof.
  split; try done; cbn [sqlite_run mem_sqlite]; unfold mem_run; cbn [stmt_table].
  - intros t key columns params m. destruct (mem_schema m !! t) as [sc|] eqn:Hsc; [|done].
    unfold mem_insert. case_decide as Hd; [|done]. destruct Hd as [Hr Htop]. split; [done|].
    cbn [sqlite_last_insert_rowid mem_sqlite mem_last set_rows set_top db_top db_rows db_now mem_view mem_schema mem_top] in *.
    rewrite Hsc in *. split_and!; [lia|lia|done| | |].
    + simpl. by rewrite ?Hsc, !lookup_insert_eq.
    + simpl. by rewrite ?Hsc, !lookup_insert_eq.
    + intros t' Ht. simpl. by rewrite !lookup_insert_ne.
  - intros t columns key params m. destruct (mem_schema m !! t) as [sc|] eqn:Hsc; [|done]. split; [done|].
    split; [by apply set_rows_same|apply set_rows_but].
  - intros columns t key v m. destruct (mem_schema m !! t) as [sc|] eqn:Hsc.
    + split; [done|]. simpl. by rewrite Hsc.
    + split; [done|]. simpl. rewrite Hsc. split; [apply submseteq_nil_l|done].
  - intros columns t m. destruct (mem_schema m !! t) as [sc|] eqn:Hsc.
    + split; [done|]. simpl. by rewrite Hsc.
    + split; [done|]. simpl. rewrite Hsc. split; [apply submseteq_nil_l|done].
  - intros t key v m. destruct (mem_schema m !! t) as [sc|] eqn:Hsc; [|done]. split; [done|].
    split_and!; [by apply set_rows_same|done|apply set_rows_but].
Qed.

Lemma parse_columns_cons l lines c cs :
  parse_column l = Some c → parse_columns lines = Some cs → parse_columns (l :: lines) = Some (c :: cs).
Proof. intros Hc Hcs. destruct lines as [|l' lines]; [done|]. cbn [parse_columns] in *. rewrite Hc. simpl. by rewrite Hcs. Qed.

Lemma parse_columns_text cs :
  forallb (λ c, identifier c.1 && bool_decide (c.2 ∈ column_definitions)) cs = true →
  parse_columns (getlines (columns_sql cs +:+ ");" +:+ newline)) = Some cs.
Proof.
  induction cs as [|c cs IH]; intros Hcs; [by vm_compute|].
  cbn [forallb] in Hcs. apply andb_true_iff in Hcs as [Hc Hcs]. specialize (IH Hcs).
  assert (∃ suffix, (suffix = "" ∨ suffix = ",") ∧
    columns_sql (c :: cs) +:+ ");" +:+ newline
    = (column_text_sql c +:+ suffix) +:+ String LF (columns_sql cs +:+ ");" +:+ newline))
    as (suffix & Hsuf & ->).
  { destruct cs as [|c' cs].
    - exists "". split; [by left|]. rewrite app_empty_r. cbn [columns_sql]. by rewrite app_assoc_str.
    - exists ",". split; [by right|]. change (columns_sql (c :: c' :: cs))
        with (column_text_sql c +:+ "," +:+ newline +:+ columns_sql (c' :: cs)).
      by rewrite !app_assoc_str. }
  destruct (parse_column_text c suffix Hc Hsuf) as [Hl Hp].
  rewrite getlines_line by done. by apply parse_columns_cons.
Qed.

Lemma parse_create_table sc : schema_ok sc = true → parse_schema (create_table_sql sc) = Some sc.
Proof.
  unfold schema_ok. rewrite !andb_true_iff. intros [[[Ht _] Hcs] _].
  pose proof (identifier_lacks LF _ Ht eq_refl) as Hlf.
  pose proof (identifier_lacks space _ Ht eq_refl) as Hsp.
  assert (create_table_sql sc = "" +:+ String LF
            ((create_prefix +:+ sc_table sc +:+ " (") +:+ String LF (columns_sql (sc_columns sc) +:+ ");" +:+ newline)))
    as -> by (unfold create_table_sql, create_prefix; by rewrite !app_assoc_str).
  unfold parse_schema. rewrite getlines_line by done. rewrite getlines_line.
  2:{ rewrite !lacks_app, Hlf. done. }
  rewrite prefix_app, drop_length_app.
  change (sc_table sc +:+ " (") with (sc_table sc +:+ String space "(").
  rewrite find_char_app by done. cbn [mbind option_bind]. rewrite parse_columns_text by done. cbn [mbind option_bind].
  rewrite take_length_app. by destruct sc.
Qed.

#[export] Instance mem_schemas : SqliteSchema Mem.
Proof.
  exists (λ m t, mem_schema m !! t).
  - intros m t Ht. simpl. by rewrite Ht.
  - intros sc m Hok. simpl. unfold mem_exec. rewrite (parse_create_table sc Hok).
    destruct (mem_schema m !! sc_table sc) as [sc0|] eqn:Hsc; [done|]. simpl.
    rewrite !lookup_insert_eq. split_and!; [|done|done|].
    + intros t. case_decide as Ht; [subst; apply lookup_insert_eq|by apply lookup_insert_ne].
    + intros t Ht. simpl. by rewrite !lookup_insert_ne.
Defined.

(** Its file. *)
#[export] Instance mem_file : SqliteFile Mem.
Proof. by exists "faas.db". Defined.
