(* ===== verification/FunctionRegistry.v ===== *)
(** * The function registry ([function_registry.hpp], [function_registry.cpp])

    The four operations on the [functions] table, and the abstract registry they
    implement: a map from name to function. *)

From S2P Require Import Prelude CppStd StringFacts FunctionModel Database MemDatabase.

Definition kSelectColumns : list string :=
  ["name"; "version"; "image"; "timeout_ms"; "memory_mb"; "cpu"; "max_concurrency";
   "idle_timeout_ms"; "status"; "created_at"].

Definition kInsertColumns : list (string * sql_expr) :=
  [("name", Param); ("version", Param); ("image", Param); ("timeout_ms", Param);
   ("memory_mb", Param); ("cpu", Param); ("max_concurrency", Param);
   ("idle_timeout_ms", Param); ("status", Param); ("created_at", NowSeconds)].

Definition kRegister : sql_stmt := Upsert "functions" kInsertColumns "name".
Definition kGet : sql_stmt := SelectWhere kSelectColumns "functions" "name".
Definition kRemove : sql_stmt := DeleteWhere "functions" "name".
Definition kList : sql_stmt := SelectAll kSelectColumns "functions".

Module FunctionRegistry.

(** [kCreateTableSql] *)
Definition functions_schema : Schema := {|
  sc_table := "functions";
  sc_columns :=
    [("name", "TEXT PRIMARY KEY"); ("version", "INTEGER NOT NULL"); ("image", "TEXT NOT NULL");
     ("timeout_ms", "INTEGER NOT NULL"); ("memory_mb", "INTEGER NOT NULL");
     ("cpu", "REAL NOT NULL"); ("max_concurrency", "INTEGER NOT NULL");
     ("idle_timeout_ms", "INTEGER NOT NULL"); ("status", "TEXT NOT NULL");
     ("created_at", "INTEGER NOT NULL")] |}.

Section registry.
  Context {E : Type} `{Sqlite E}.

(** The constructor. *)
Definition open_registry : Io E unit := exec (create_table_sql functions_schema).

Definition row_to_function (row : list sql_value) : Function := {|
  spec := {|
    name := column_text row 0;
    version := to_int (column_int64 row 1);
    image := column_text row 2;
    timeout_ms := to_int (column_int64 row 3);
    memory_mb := to_int (column_int64 row 4);
    cpu := column_double row 5;
    max_concurrency := to_int (column_int64 row 6);
    idle_timeout_ms := column_int64 row 7;
  |};
  status := STATUS_READY;
  created_at := column_int64 row 9;
|}.

Definition get (name : string) : Io E (option Function) :=
  row ⇐ step_once kGet [bind_text name];
  io_ret (row_to_function <$> row).

Definition bound_values (spec : FunctionSpec) : list sql_value :=
  [bind_text (name spec); bind_int64 (version spec); bind_text (image spec);
   bind_int64 (timeout_ms spec); bind_int64 (memory_mb spec); bind_double (cpu spec);
   bind_int64 (max_concurrency spec); bind_int64 (idle_timeout_ms spec);
   bind_text (function_status_to_string STATUS_READY)].

(** [*optional] *)
Definition deref {A} (o : option A) : Io E A :=
  match o with Some a => io_ret a | None => io_of (Undefined EmptyOptional) end.

(** The insertion, which releases the lock at the end of its block. *)
Definition upsert_function (spec : FunctionSpec) : Io E unit :=
  _ ⇐ step_once kRegister (bound_values spec);
  io_ret tt.

(** The insertion; what other threads do once its lock is released; the read back. *)
Definition register_function_among (others : St E unit) (spec : FunctionSpec) : Io E Function :=
  _ ⇐ step_once kRegister (bound_values spec);
  _ ⇐ io_lift others;
  stored ⇐ get (name spec);
  deref stored.

(** [return *get(spec.name)] *)
Definition read_back (spec : FunctionSpec) : Io E Function :=
  stored ⇐ get (name spec);
  deref stored.

Definition register_function (spec : FunctionSpec) : Io E Function :=
  register_function_among (mret tt) spec.

Definition remove (name : string) : Io E bool :=
  _ ⇐ step_once kRemove [bind_text name];
  n ⇐ changes;
  io_ret (bool_decide (n > 0)).

Definition list_functions : Io E (list Function) :=
  rows ⇐ step_all kList [];
  io_ret (row_to_function <$> rows).
End registry.

(** ** The abstract registry *)

(** What a stored spec reads back as: strings end at their first NUL. *)
Definition stored_spec (s : FunctionSpec) : FunctionSpec := {|
  name := c_str (name s); version := version s; image := c_str (image s);
  timeout_ms := timeout_ms s; memory_mb := memory_mb s; cpu := cpu s;
  max_concurrency := max_concurrency s; idle_timeout_ms := idle_timeout_ms s;
|}.

Definition function_values (f : Function) : list sql_value :=
  let s := spec f in
  [SqlText (name s); SqlInt (version s); SqlText (image s); SqlInt (timeout_ms s);
   SqlInt (memory_mb s); SqlReal (cpu s); SqlInt (max_concurrency s);
   SqlInt (idle_timeout_ms s); SqlText (function_status_to_string (status f));
   SqlInt (created_at f)].

Definition function_ok (f : Function) : Prop :=
  spec_in_range (spec f) ∧ c_str (name (spec f)) = name (spec f) ∧
  c_str (image (spec f)) = image (spec f).

Definition functions_of (m : gmap string Function) : list Function := (map_to_list m).*2.

(** The table holds one row per entry of the map, and nothing else. *)
Record represents {E} `{SqliteView E} (e : E) (m : gmap string Function) : Prop := {
  rep_rows : project kSelectColumns <$> db_rows e "functions" ≡ₚ function_values <$> functions_of m;
  rep_ok n f : m !! n = Some f → name (spec f) = n ∧ function_ok f;
}.

Definition named (n : string) (vs : list sql_value) : Prop :=
  sql_eqb (SqlText n) (default SqlNull (head vs)) = true.
#[export] Instance named_dec n vs : Decision (named n vs).
Proof. unfold named. apply _. Defined.

Lemma named_values n f : named n (function_values f) ↔ name (spec f) = n.
Proof. unfold named. simpl. rewrite bool_decide_eq_true. naive_solver. Qed.

Lemma filter_named n (rows : list row) :
  project kSelectColumns <$> filter (matches "name" (SqlText n)) rows
  = filter (named n) (project kSelectColumns <$> rows).
Proof. rewrite filter_fmap_list. done. Qed.

Lemma row_to_function_values {E} `{SqliteSpec E} f :
  function_ok f → row_to_function (function_values f) = f.
Proof.
  intros ((Hv & Ht & Hm & Hc & Hi) & Hn & Him). destruct f as [s st ct]. destruct s, st. simpl in *.
  unfold row_to_function.
  repeat (erewrite column_text_Text by done). repeat (erewrite column_int64_Int by done).
  erewrite column_double_Real by done. simpl. by rewrite Hn, Him, !to_int_id.
Qed.

(** The rows of one name. *)
Lemma filter_functions_of n (m : gmap string Function) :
  (∀ n f, m !! n = Some f → name (spec f) = n) →
  filter (λ f, name (spec f) = n) (functions_of m) = option_list (m !! n).
Proof.
  intros Hok. unfold functions_of. rewrite filter_fmap_list.
  assert (∀ l : list (string * Function), (∀ p, p ∈ l → m !! p.1 = Some p.2) →
            filter (λ p, name (spec p.2) = n) l = filter (λ p, p.1 = n) l) as Hf.
  { induction l as [|[k f] l IH]; intros Hl; [done|]. rewrite !filter_cons, IH by set_solver.
    specialize (Hl (k, f) ltac:(by left)). simpl in *. apply Hok in Hl as ->. done. }
  rewrite Hf by (intros [k f] Hin; by apply elem_of_map_to_list).
  destruct (m !! n) as [f|] eqn:Hn; simpl.
  - rewrite (filter_fst_unique _ n f); [done|apply NoDup_fst_map_to_list|].
    by apply elem_of_map_to_list.
  - rewrite filter_none; [done|]. intros [k f] Hin%elem_of_map_to_list. simpl. congruence.
Qed.

Section refinement.
  Context {E : Type} `{SqliteSpec E}.

Lemma represents_rows_of e m n :
  represents e m →
  project kSelectColumns <$> filter (matches "name" (SqlText n)) (db_rows e "functions")
  ≡ₚ function_values <$> option_list (m !! n).
Proof.
  intros [Hr Hok]. rewrite filter_named, Hr, filter_fmap_list.
  rewrite <-(filter_functions_of n m) by naive_solver.
  erewrite list_filter_iff; [done|]. intros f. apply named_values.
Qed.

Lemma represents_same_tables e e' m : same_tables e e' → represents e m → represents e' m.
Proof. intros Hs [Hr Hok]. split; [|done]. by rewrite (proj1 (Hs "functions")). Qed.

Lemma represents_unique e m m' : represents e m → represents e m' → m = m'.
Proof.
  intros Hm Hm'. apply map_eq. intros n.
  pose proof (represents_rows_of e m n Hm) as Hp. rewrite (represents_rows_of e m' n Hm') in Hp.
  destruct (m !! n) as [f|] eqn:Hf, (m' !! n) as [f'|] eqn:Hf'; try done; simpl in Hp.
  - apply Permutation_singleton_inj in Hp. apply (f_equal row_to_function) in Hp.
    rewrite !row_to_function_values in Hp; [by subst|by eapply (rep_ok e m Hm)|by eapply (rep_ok e m' Hm')].
  - by apply Permutation_nil_cons in Hp.
  - by symmetry in Hp; apply Permutation_nil_cons in Hp.
Qed.

Lemma represents_rows_cases e m n :
  represents e m →
  match m !! n with
  | None => filter (matches "name" (SqlText n)) (db_rows e "functions") = []
  | Some f => ∃ r, filter (matches "name" (SqlText n)) (db_rows e "functions") = [r] ∧
                   project kSelectColumns r = function_values f
  end.
Proof.
  intros Hrep. pose proof (represents_rows_of e m n Hrep) as Hp.
  destruct (m !! n) as [f|]; cbn [option_list fmap list_fmap] in Hp.
  - apply Permutation_singleton_r in Hp.
    destruct (filter _ _) as [|r [|]]; try done. exists r.
    split; [done|]. by apply (f_equal head), Some_inj in Hp.
  - apply Permutation_nil_r in Hp. by apply fmap_nil_inv in Hp.
Qed.

Lemma get_spec n m e r e' :
  represents e m → get n e = (Ok r, e') → r = m !! c_str n ∧ represents e' m.
Proof.
  intros Hrep Hget. unfold get in Hget. apply io_bind_inv in Hget as (row & e1 & Hs & Hr).
  injection Hr as <- <-. unfold bind_text in Hs.
  pose proof (represents_rows_cases e m (c_str n) Hrep) as Hc.
  apply select_one in Hs as [Hsame ->].
  - split; [|by eapply represents_same_tables].
    destruct (m !! c_str n) as [f|] eqn:Hn.
    + destruct Hc as (r & -> & Hp). cbn [fmap list_fmap option_fmap head]. rewrite Hp.
      simpl. f_equal. apply row_to_function_values. by eapply (rep_ok e m Hrep).
    + by rewrite Hc.
  - destruct (m !! c_str n); [destruct Hc as (r & -> & _); simpl; lia|rewrite Hc; simpl; lia].
Qed.

(** *** Registering *)

Definition new_row (spec : FunctionSpec) (now : Z) : row :=
  eval_columns kInsertColumns (bound_values spec) now.
Definition new_function (spec : FunctionSpec) (now : Z) : Function :=
  {| spec := stored_spec spec; status := STATUS_READY; created_at := now |}.

Lemma new_row_name spec now :
  new_row spec now !! "name" = Some (SqlText (c_str (name spec))).
Proof. reflexivity. Qed.
Lemma new_row_values spec now :
  project kSelectColumns (new_row spec now) = function_values (new_function spec now).
Proof. reflexivity. Qed.
Lemma new_row_full spec now : Forall (λ c, is_Some (new_row spec now !! c)) kSelectColumns.
Proof. repeat constructor; eexists; reflexivity. Qed.

Lemma new_function_ok s now : spec_in_range s → function_ok (new_function s now).
Proof. intros Hs. split_and!; [exact Hs|apply c_str_idemp|apply c_str_idemp]. Qed.

Lemma functions_of_insert n f (m : gmap string Function) :
  functions_of (<[n := f]> m) ≡ₚ f :: functions_of (delete n m).
Proof.
  unfold functions_of. rewrite <-insert_delete_eq.
  by rewrite map_to_list_insert by apply lookup_delete_eq.
Qed.
Lemma functions_of_delete n f (m : gmap string Function) :
  m !! n = Some f → functions_of m ≡ₚ f :: functions_of (delete n m).
Proof. intros Hn. rewrite <-functions_of_insert. by rewrite insert_id. Qed.

Lemma represents_insert e e' m s :
  represents e m → spec_in_range s →
  db_rows e' "functions" = upsert_row "name" (new_row s (db_now e)) (db_rows e "functions") →
  represents e' (<[c_str (name s) := new_function s (db_now e)]> m).
Proof.
  intros Hrep Hs He'. set (n := c_str (name s)). set (new := new_row s (db_now e)) in *.
  pose proof (represents_rows_cases e m n Hrep) as Hc. destruct Hrep as [Hr Hok].
  assert (default SqlNull (new !! "name") = SqlText n) as Hkey by done.
  split.
  - rewrite He', functions_of_insert. rewrite fmap_cons.
    change (function_values _) with (project kSelectColumns new).
    destruct (m !! n) as [f|] eqn:Hn.
    + destruct Hc as (r & Hf & Hp).
      assert (r ∈ filter (matches "name" (SqlText n)) (db_rows e "functions")) as Hin
        by (rewrite Hf; by left).
      apply list_elem_of_filter in Hin as [Hmr [rest Hrest]%elem_of_Permutation].
      assert (filter (matches "name" (SqlText n)) rest = []) as Hnone.
      { apply Permutation_nil_r. apply (Permutation_cons_inv (a:=r)).
        rewrite <-filter_cons_True by done. by rewrite <-Hrest, Hf. }
      rewrite Hrest in Hr |- *. rewrite upsert_row_replace by (by rewrite Hkey).
      rewrite fmap_cons in Hr |- *.
      rewrite project_union by apply new_row_full. constructor.
      rewrite (functions_of_delete n f m Hn), fmap_cons, Hp in Hr.
      by apply Permutation_cons_inv in Hr.
    + rewrite upsert_row_new by (by rewrite Hkey).
      rewrite fmap_app, delete_id, <-Hr by done. by rewrite Permutation_app_comm.
  - intros k f. rewrite lookup_insert_Some. intros [[<- <-]|[_ Hk]]; [|by apply Hok].
    split; [done|by apply new_function_ok].
Qed.

Lemma register_among_spec others s m m' e f e' :
  represents e m → spec_in_range s →
  (∀ e1, represents e1 (<[c_str (name s) := new_function s (db_now e)]> m) →
         represents (others e1).2 m') →
  register_function_among others s e = (Ok f, e') →
  m' !! c_str (name s) = Some f ∧ represents e' m'.
Proof.
  intros Hrep Hs Hoth Hreg. unfold register_function_among in Hreg.
  apply io_bind_inv in Hreg as (r1 & e1 & Hins & Hreg).
  apply step_once_inv in Hins as (rows & fin & Hrun & -> & Hfin).
  pose proof (sqlite_upsert_law "functions" kInsertColumns "name" (bound_values s) e) as Hlaw.
  unfold kRegister in Hrun. rewrite Hrun in Hlaw. destruct Hlaw as [-> Hlaw].
  rewrite Hfin in Hlaw by done. destruct Hlaw as [Hrows _].
  pose proof (represents_insert e e1 m s Hrep Hs Hrows) as Hrep1.
  apply io_bind_inv in Hreg as (r2 & e2 & Hot & Hreg).
  assert (e2 = (others e1).2) as -> by (unfold io_lift in Hot; destruct (others e1); by injection Hot).
  apply io_bind_inv in Hreg as (stored & e3 & Hget & Hd).
  apply (get_spec _ m') in Hget as [-> Hrep3]; [|by apply Hoth].
  unfold deref in Hd. destruct (m' !! c_str (name s)); [|done].
  injection Hd as -> ->. done.
Qed.

(** *** Removing *)

Lemma represents_delete e e' m n :
  represents e m →
  db_rows e' "functions"
  = filter (λ r, ¬ matches "name" (SqlText n) r) (db_rows e "functions") →
  represents e' (delete n m).
Proof.
  intros [Hr Hok] He'. split.
  - rewrite He'.
    assert (∀ rows : list row, project kSelectColumns <$> filter (λ r, ¬ matches "name" (SqlText n) r) rows
            = filter (λ vs, ¬ named n vs) (project kSelectColumns <$> rows)) as ->
      by (intros; by rewrite filter_fmap_list).
    rewrite Hr, filter_fmap_list.
    rewrite (list_filter_iff _ (λ f, name (spec f) ≠ n)) by (intros; by rewrite named_values).
    assert (∀ f, f ∈ functions_of (delete n m) → name (spec f) ≠ n) as Hne.
    { intros f ([k f'] & -> & Hin)%list_elem_of_fmap.
      apply elem_of_map_to_list, lookup_delete_Some in Hin as [Hk Hin].
      apply Hok in Hin as [<- _]. done. }
    destruct (m !! n) as [f|] eqn:Hn.
    + rewrite (functions_of_delete n f m Hn).
      rewrite filter_cons, decide_False, filter_all; [done|done|].
      destruct (Hok n f Hn) as [-> _]. by intros [].
    + rewrite delete_id in * by done. by rewrite filter_all.
  - intros k f [_ Hk]%lookup_delete_Some. by apply Hok.
Qed.

Lemma remove_spec n m e b e' :
  represents e m → remove n e = (Ok b, e') →
  b = bool_decide (is_Some (m !! c_str n)) ∧ represents e' (delete (c_str n) m).
Proof.
  intros Hrep Hrem. unfold remove in Hrem.
  apply io_bind_inv in Hrem as (r1 & e1 & Hdel & Hrem).
  apply step_once_inv in Hdel as (rows & fin & Hrun & -> & Hfin).
  pose proof (sqlite_delete_law "functions" "name" (bind_text n) e) as Hlaw.
  unfold kRemove in Hrun. rewrite Hrun in Hlaw. destruct Hlaw as [-> Hlaw].
  rewrite Hfin in Hlaw by done. destruct Hlaw as (Hrows & Hch & _).
  unfold io_bind, changes, io_ret in Hrem. injection Hrem as <- <-.
  split; [|by apply (represents_delete e)].
  rewrite Hch. apply bool_decide_ext.
  pose proof (represents_rows_cases e m (c_str n) Hrep) as Hc. unfold bind_text.
  destruct (m !! c_str n).
  - destruct Hc as (r & -> & _). simpl. split; [by eauto|lia].
  - rewrite Hc. simpl. split; [lia|by intros [? ?]].
Qed.

(** *** Listing *)

Lemma list_spec m e fs e' :
  represents e m → list_functions e = (Ok fs, e') →
  fs ≡ₚ functions_of m ∧ represents e' m.
Proof.
  intros Hrep Hlist. unfold list_functions in Hlist.
  apply io_bind_inv in Hlist as (rows & e1 & Hrun%step_all_inv & Hr). injection Hr as <- <-.
  pose proof (sqlite_select_all_law kSelectColumns "functions" e) as Hlaw.
  unfold kList in Hrun. rewrite Hrun in Hlaw. destruct Hlaw as (Hsame & _ & Hperm).
  split; [|by eapply represents_same_tables].
  rewrite Hperm, (rep_rows e m Hrep) by done. rewrite <-list_fmap_compose.
  rewrite (list_fmap_ext _ id); [by rewrite list_fmap_id|].
  intros i f Hf%list_elem_of_lookup_2. simpl.
  apply list_elem_of_fmap in Hf as ([k f'] & -> & Hin%elem_of_map_to_list).
  apply row_to_function_values. by eapply (rep_ok e m Hrep).
Qed.

(** *** Failures *)

Lemma get_outcome n m e :
  represents e m →
  match get n e with
  | (Ok r, e') => r = m !! c_str n ∧ represents e' m
  | (Throw _, e') => represents e' m
  | (Undefined _, _) => False
  end.
Proof.
  intros Hrep. destruct (get n e) as [r e'] eqn:Hget. destruct r as [r|x|u].
  - by eapply get_spec.
  - unfold get, io_bind in Hget. pose proof (step_once_cases kGet [bind_text n] e) as Hc.
    pose proof (sqlite_select_where_law kSelectColumns "functions" "name" (bind_text n) e) as Hlaw.
    unfold kGet in *. destruct (sqlite_run _ _ e) as [[rows fin] e1]. destruct Hlaw as [Hs _].
    destruct (step_once _ _ e) as [[] e2]; destruct Hc as [Hc1 Hc2]; simpl in *; simplify_eq.
    by eapply represents_same_tables.
  - unfold get, io_bind in Hget. pose proof (step_once_cases kGet [bind_text n] e) as Hc.
    destruct (sqlite_run _ _ e) as [[rows fin] e1].
    destruct (step_once _ _ e) as [[] e2]; destruct Hc as [Hc1 Hc2]; done.
Qed.

Lemma remove_outcome n m e :
  represents e m →
  match remove n e with
  | (Ok b, e') => b = bool_decide (is_Some (m !! c_str n)) ∧ represents e' (delete (c_str n) m)
  | (Throw _, e') => represents e' m
  | (Undefined _, _) => False
  end.
Proof.
  intros Hrep. destruct (remove n e) as [r e'] eqn:Hrem. destruct r as [r|x|u];
    [by eapply remove_spec|..];
    unfold remove, io_bind in Hrem; pose proof (step_once_cases kRemove [bind_text n] e) as Hc;
    pose proof (sqlite_delete_law "functions" "name" (bind_text n) e) as Hlaw;
    unfold kRemove in *; destruct (sqlite_run _ _ e) as [[rows fin] e1];
    destruct (step_once _ _ e) as [[] e2]; destruct Hc as [Hc1 Hc2]; simpl in *; simplify_eq; try done.
  destruct Hlaw as [_ Hlaw]. destruct fin; [done|..]; by eapply represents_same_tables.
Qed.

Lemma list_outcome m e :
  represents e m →
  match list_functions e with
  | (Ok fs, e') => fs ≡ₚ functions_of m ∧ represents e' m
  | (Throw _, e') => represents e' m
  | (Undefined _, _) => False
  end.
Proof.
  intros Hrep. destruct (list_functions e) as [r e'] eqn:Hl. destruct r as [r|x|u];
    [by eapply list_spec|..];
    unfold list_functions, io_bind in Hl; pose proof (step_all_cases kList [] e) as Hc;
    pose proof (sqlite_select_all_law kSelectColumns "functions" e) as Hlaw;
    unfold kList in *; destruct (sqlite_run _ _ e) as [[rows fin] e1];
    destruct (step_all _ _ e) as [[] e2]; destruct Hc as [Hc1 Hc2]; simpl in *; simplify_eq; try done.
  - by eapply represents_same_tables; [apply Hlaw|].
  - by destruct (Hc2 u).
Qed.

Lemma register_outcome s m e :
  represents e m → spec_in_range s →
  let m' := <[c_str (name s) := new_function s (db_now e)]> m in
  match register_function s e with
  | (Ok f, e') => f = new_function s (db_now e) ∧ represents e' m'
  | (Throw _, e') => represents e' m ∨ represents e' m'
  | (Undefined _, _) => False
  end.
Proof.
  intros Hrep Hs m'. destruct (register_function s e) as [r e'] eqn:Hreg.
  destruct r as [f|x|u].
  { destruct (register_among_spec (mret tt : St E unit) s m m' e f e') as [Hf Hrep']; try done.
    unfold m' in Hf. rewrite lookup_insert_eq in Hf. by injection Hf. }
  all: unfold register_function, register_function_among, io_bind in Hreg;
    pose proof (step_once_cases kRegister (bound_values s) e) as Hc;
    pose proof (sqlite_upsert_law "functions" kInsertColumns "name" (bound_values s) e) as Hlaw;
    destruct (step_once kRegister (bound_values s) e) as [r1 e1] eqn:Hs1;
    unfold kRegister in *; destruct (sqlite_run _ _ e) as [[rows fin] e2] eqn:Hrun;
    destruct Hc as [Hc1 Hc2], Hlaw as [-> Hlaw]; simpl in Hc1; subst e2;
    destruct r1 as [r1|x1|]; simpl in Hc2; try done.
  2: injection Hreg as <- <-; left; destruct fin; [done|..]; by eapply represents_same_tables.
  all: apply step_once_inv in Hs1 as (rows & fin' & Hrun' & -> & Hfin);
    rewrite Hrun in Hrun'; injection Hrun' as <- <-; rewrite Hfin in Hlaw by done;
    pose proof (represents_insert e e1 m s Hrep Hs (proj1 Hlaw)) as Hrep1;
    pose proof (get_outcome (name s) m' e1 Hrep1) as Hg; simpl in Hreg;
    destruct (get (name s) e1) as [[g|x2|] e3]; try done.
  all: try (injection Hreg as <- <-; by right).
  all: destruct Hg as [-> _]; unfold m' in Hreg; rewrite lookup_insert_eq in Hreg; done.
Qed.

(** *** The two halves of a registration *)

Lemma upsert_outcome s m e :
  represents e m → spec_in_range s →
  match upsert_function s e with
  | (Ok _, e') => represents e' (<[c_str (name s) := new_function s (db_now e)]> m)
  | (Throw _, e') => represents e' m
  | (Undefined _, _) => False
  end.
Proof.
  intros Hrep Hs. unfold upsert_function, io_bind, io_ret.
  pose proof (step_once_cases kRegister (bound_values s) e) as Hc.
  pose proof (sqlite_upsert_law "functions" kInsertColumns "name" (bound_values s) e) as Hlaw.
  destruct (step_once kRegister (bound_values s) e) as [[r| |] e1] eqn:Hs1;
    unfold kRegister in *; destruct (sqlite_run _ _ e) as [[rows fin] e2] eqn:Hrun;
    destruct Hc as [Hc1 Hc2], Hlaw as [-> Hlaw]; simpl in Hc1, Hc2; subst e2; [| |done].
  - apply step_once_inv in Hs1 as (rows & fin' & Hrun' & -> & Hfin).
    rewrite Hrun in Hrun'. injection Hrun' as <- <-. rewrite Hfin in Hlaw by done.
    apply (represents_insert e e1 m s Hrep Hs (proj1 Hlaw)).
  - destruct fin; [done|..]; by eapply represents_same_tables.
Qed.

Lemma read_back_outcome s m e :
  represents e m →
  (∃ x, (read_back s e).1 = Throw x) ∨
  (read_back s e).1 = match m !! c_str (name s) with
                      | Some f => Ok f
                      | None => Undefined EmptyOptional
                      end.
Proof.
  intros Hrep. unfold read_back, io_bind. pose proof (get_outcome (name s) m e Hrep) as Hg.
  destruct (get (name s) e) as [[r|x|] e1]; [|left; by exists x|done].
  destruct Hg as [-> _]. right. by destruct (m !! c_str (name s)).
Qed.

(** *** The other table *)

Lemma represents_tables e e' m :
  db_rows e' "functions" = db_rows e "functions" → represents e m → represents e' m.
Proof. intros Hr [Hrows Hok]. split; [by rewrite Hr|done]. Qed.

Lemma get_touches n e : same_tables e (get n e).2.
Proof.
  unfold get, io_bind.
  pose proof (step_once_touches kGet [bind_text n] e (ex_intro _ _ eq_refl)) as Ht.
  by destruct (step_once _ _ e) as [[] e1].
Qed.

Lemma read_back_touches s e : same_tables e (read_back s e).2.
Proof.
  unfold read_back, io_bind. pose proof (get_touches (name s) e) as Hg.
  by destruct (get (name s) e) as [[[f|]| |] e1].
Qed.

Lemma upsert_touches s e : same_tables_but "functions" e (upsert_function s e).2.
Proof.
  unfold upsert_function, io_bind.
  pose proof (step_once_touches kRegister (bound_values s) e I) as Ht.
  by destruct (step_once _ _ e) as [[] e1].
Qed.

Lemma remove_touches n e : same_tables_but "functions" e (remove n e).2.
Proof.
  unfold remove, io_bind.
  pose proof (step_once_touches kRemove [bind_text n] e (ex_intro _ _ eq_refl)) as Ht.
  by destruct (step_once _ _ e) as [[] e1].
Qed.

Lemma register_touches s e : same_tables_but "functions" e (register_function s e).2.
Proof.
  unfold register_function, register_function_among, io_bind.
  pose proof (step_once_touches kRegister (bound_values s) e I) as Ht.
  destruct (step_once _ _ e) as [[] e1]; try done. simpl in *.
  pose proof (get_touches (name s) e1) as Hg.
  assert (same_tables_but "functions" e (get (name s) e1).2) as Hb.
  { intros t Hne. destruct (Ht t Hne), (Hg t). split; congruence. }
  destruct (get (name s) e1) as [[[f|]| |] e2]; done.
Qed.
End refinement.

(** ** Properties *)

(** C23: The registry implements a map from name to function: registering inserts the
    spec with the time of day, [get] looks up, [remove] deletes and says whether
    something was there, [list] enumerates every entry once. A call that throws
    changes nothing, except that a registration may have happened; none runs into
    undefined behaviour. *)
Theorem registry_refines_map (E : Type) `(SqliteSpec E) (m : gmap string Function) (e : E) :
  represents e m →
  (∀ s, spec_in_range s →
     let m' := <[c_str (name s) := new_function s (db_now e)]> m in
     match register_function s e with
     | (Ok f, e') => f = new_function s (db_now e) ∧ represents e' m'
     | (Throw _, e') => represents e' m ∨ represents e' m'
     | (Undefined _, _) => False
     end) ∧
  (∀ n, match get n e with
        | (Ok r, e') => r = m !! c_str n ∧ represents e' m
        | (Throw _, e') => represents e' m
        | (Undefined _, _) => False
        end) ∧
  (∀ n, match remove n e with
        | (Ok b, e') =>
            b = bool_decide (is_Some (m !! c_str n)) ∧ represents e' (delete (c_str n) m)
        | (Throw _, e') => represents e' m
        | (Undefined _, _) => False
        end) ∧
  match list_functions e with
  | (Ok fs, e') => fs ≡ₚ functions_of m ∧ represents e' m
  | (Throw _, e') => represents e' m
  | (Undefined _, _) => False
  end.
Proof.
  intros Hrep. split_and!.
  - intros s Hs. by apply register_outcome.
  - intros n. by apply get_outcome.
  - intros n. by apply remove_outcome.
  - by apply list_outcome.
Qed.

(** A function deployed with a NUL-free name and image comes back unchanged under
    its name, and redeploying a name replaces it and nothing else. *)
Theorem register_get_roundtrip (E : Type) `(SqliteSpec E) (m : gmap string Function)
    (s : FunctionSpec) (f : Function) (r : option Function) (e e1 e2 : E) :
  represents e m → spec_in_range s → lacks NUL (name s) = true → lacks NUL (image s) = true →
  register_function s e = (Ok f, e1) →
  (get (name s) e1 = (Ok r, e2) →
   r = Some {| spec := s; status := STATUS_READY; created_at := db_now e |}) ∧
  (∀ n, c_str n ≠ name s → get n e1 = (Ok r, e2) → r = m !! c_str n).
Proof.
  intros Hrep Hs Hn Hi Hreg. pose proof (register_outcome s m e Hrep Hs) as Ho.
  cbv zeta in Ho. rewrite Hreg in Ho. destruct Ho as [_ Hrep1].
  split.
  - intros Hget. apply (get_spec _ _ _ _ _ Hrep1) in Hget as [-> _].
    rewrite lookup_insert_eq. unfold new_function, stored_spec.
    rewrite !c_str_lacks by done. by destruct s.
  - intros n Hne Hget. apply (get_spec _ _ _ _ _ Hrep1) in Hget as [-> _].
    rewrite lookup_insert_ne; [done|]. rewrite (c_str_lacks (name s)) by done. congruence.
Qed.

(** [register_function] releases its lock before it reads the function back: a
    deletion of the same name in between makes it dereference an empty optional. *)
Theorem register_races_with_remove (E : Type) `(SqliteSpec E) (m : gmap string Function)
    (s : FunctionSpec) (e e1 e2 e3 : E) (b : bool) (r : option Function) :
  represents e m → spec_in_range s →
  step_once kRegister (bound_values s) e = (Ok None, e1) →
  remove (name s) e1 = (Ok b, e2) → get (name s) e2 = (Ok r, e3) →
  register_function_among (λ e, (tt, (remove (name s) e).2)) s e = (Undefined EmptyOptional, e3).
Proof.
  intros Hrep Hs Hins Hrem Hget.
  assert (represents e1 (<[c_str (name s) := new_function s (db_now e)]> m)) as Hrep1.
  { apply (represents_insert e); [done|done|].
    apply step_once_inv in Hins as (rows & fin & Hrun & Hrows & Hfin).
    pose proof (sqlite_upsert_law "functions" kInsertColumns "name" (bound_values s) e) as Hlaw.
    unfold kRegister in Hrun. rewrite Hrun in Hlaw. destruct Hlaw as [-> Hlaw].
    rewrite Hfin in Hlaw by done. apply Hlaw. }
  apply (remove_spec _ _ _ _ _ Hrep1) in Hrem as Hrem'. destruct Hrem' as [_ Hrep2].
  apply (get_spec _ _ _ _ _ Hrep2) in Hget as Hget'. destruct Hget' as [Hr _].
  rewrite lookup_delete_eq in Hr. subst r.
  unfold register_function_among. rewrite (io_bind_Ok _ _ _ _ _ Hins).
  unfold io_bind, io_lift. rewrite Hrem. simpl. by rewrite Hget.
Qed.

(** ** The hypotheses can be met *)

Definition hello_spec : FunctionSpec := {|
  name := "hello"; version := 2; image := "hello:2"; timeout_ms := 5000; memory_mb := 256;
  cpu := 0.5%float; max_concurrency := 1; idle_timeout_ms := 60000;
|}.
Lemma hello_in_range : spec_in_range hello_spec.
Proof. by split_and!. Qed.
Definition demo_db : Mem := (open_registry (new_mem 7)).2.
Lemma demo_db_represents : represents demo_db ∅.
Proof. split; [by vm_compute|]. by intros n f. Qed.

Lemma registry_refines_map_witness :
  (register_function hello_spec demo_db).1
  = Ok {| spec := hello_spec; status := STATUS_READY; created_at := 7 |} ∧
  represents (register_function hello_spec demo_db).2
    {["hello" := {| spec := hello_spec; status := STATUS_READY; created_at := 7 |}]}.
Proof.
  destruct (registry_refines_map Mem _ ∅ demo_db demo_db_represents) as [Hreg _].
  specialize (Hreg hello_spec hello_in_range). cbv zeta in Hreg.
  destruct (register_function hello_spec demo_db) as [r e'] eqn:Hr.
  assert (r = Ok {| spec := hello_spec; status := STATUS_READY; created_at := 7 |}) as ->
    by (apply (f_equal fst) in Hr; vm_compute in Hr; by rewrite <-Hr).
  split; [done|]. apply Hreg.
Defined.

Lemma register_get_roundtrip_witness :
  (get "hello" (register_function hello_spec demo_db).2).1
  = Ok (Some {| spec := hello_spec; status := STATUS_READY; created_at := 7 |}).
Proof.
  destruct (register_function hello_spec demo_db) as [r e1] eqn:Hr.
  assert (∃ f, r = Ok f) as [f ->]
    by (apply (f_equal fst) in Hr; vm_compute in Hr; rewrite <-Hr; by eexists).
  destruct (get "hello" e1) as [o e2] eqn:Hg.
  assert (∃ g, o = Ok g) as [g ->].
  { apply (f_equal snd) in Hr. cbn [snd] in Hr. subst e1. apply (f_equal fst) in Hg.
    vm_compute in Hg. rewrite <-Hg. by eexists. }
  cbn [fst snd]. rewrite Hg. cbn [fst]. f_equal.
  apply (register_get_roundtrip Mem _ ∅ hello_spec f g demo_db e1 e2
           demo_db_represents hello_in_range eq_refl eq_refl Hr). exact Hg.
Defined.

Lemma register_races_with_remove_witness :
  ∃ e3, register_function_among (λ e, (tt, (remove "hello" e).2)) hello_spec demo_db
        = (Undefined EmptyOptional, e3).
Proof.
  eexists. eapply (register_races_with_remove Mem _ ∅ hello_spec demo_db _ _ _ true None
                     demo_db_represents hello_in_range); reflexivity.
Defined.
End FunctionRegistry.
