(* ===== verification/InvocationStore.v ===== *)
(** * The invocation history ([invocation_store.hpp], [invocation_store.cpp])

    [record] and [get] on the [invocations] table; the ids handed out and what can
    be read back under them. *)

From S2P Require Import Prelude CppStd StringFacts Database MemDatabase.

Definition kInvocationInsert : sql_stmt :=
  Insert "invocations" "id"
    [("function_name", Param); ("input", Param); ("output", Param); ("status", Param);
     ("duration_ms", Param); ("cold_start", Param); ("created_at", NowSeconds)].
Definition kInvocationColumns : list string :=
  ["id"; "function_name"; "input"; "output"; "status"; "duration_ms"; "cold_start"; "created_at"].
Definition kInvocationSelect : sql_stmt := SelectWhere kInvocationColumns "invocations" "id".

Record InvocationRecord : Type := {
  ir_id : string;
  ir_function_name : string;
  ir_input : string;
  ir_output : string;
  ir_status : string;
  ir_duration_ms : Z;
  ir_cold_start : bool;
  ir_created_at : Z;
}.

Module InvocationStore.

(** [kCreateTableSql] *)
Definition invocations_schema : Schema := {|
  sc_table := "invocations";
  sc_columns :=
    [("id", "INTEGER PRIMARY KEY AUTOINCREMENT"); ("function_name", "TEXT NOT NULL");
     ("input", "TEXT NOT NULL"); ("output", "TEXT NOT NULL"); ("status", "TEXT NOT NULL");
     ("duration_ms", "INTEGER NOT NULL"); ("cold_start", "INTEGER NOT NULL");
     ("created_at", "INTEGER NOT NULL")] |}.

Section store.
  Context {E : Type} `{Sqlite E}.

(** The constructor. *)
Definition open_store : Io E unit := exec (create_table_sql invocations_schema).

Definition record (function_name input status output : string) (duration_ms : Z)
    (cold_start : bool) : Io E string :=
  _ ⇐ step_once kInvocationInsert
        [bind_text function_name; bind_text input; bind_text output; bind_text status;
         bind_int64 duration_ms; bind_int64 (if cold_start then 1 else 0)];
  rowid ⇐ last_insert_id;
  io_ret (to_string rowid).

Definition row_to_record (row : list sql_value) : InvocationRecord := {|
  ir_id := to_string (column_int64 row 0);
  ir_function_name := column_text row 1;
  ir_input := column_text row 2;
  ir_output := column_text row 3;
  ir_status := column_text row 4;
  ir_duration_ms := column_int64 row 5;
  ir_cold_start := negb (bool_decide (column_int64 row 6 = 0));
  ir_created_at := column_int64 row 7;
|}.

Definition get (id : string) : Io E (option InvocationRecord) :=
  match stol id with
  | Ok numeric_id =>
      row ⇐ step_once kInvocationSelect [bind_int64 numeric_id];
      io_ret (row_to_record <$> row)
  | _ => io_ret None
  end.
End store.

(** ** The history *)

Definition record_values (rowid : Z) (r : InvocationRecord) : list sql_value :=
  [SqlInt rowid; SqlText (ir_function_name r); SqlText (ir_input r); SqlText (ir_output r);
   SqlText (ir_status r); SqlInt (ir_duration_ms r); SqlInt (if ir_cold_start r then 1 else 0);
   SqlInt (ir_created_at r)].

Definition record_ok (rowid : Z) (r : InvocationRecord) : Prop :=
  ir_id r = to_string rowid ∧
  c_str (ir_function_name r) = ir_function_name r ∧ c_str (ir_input r) = ir_input r ∧
  c_str (ir_output r) = ir_output r ∧ c_str (ir_status r) = ir_status r.

(** The table holds one row per entry; ids are positive and at most [db_top]. *)
Record holds {E} `{SqliteView E} (e : E) (h : gmap Z InvocationRecord) : Prop := {
  holds_rows z :
    project kInvocationColumns <$> filter (matches "id" (SqlInt z)) (db_rows e "invocations")
    = option_list (record_values z <$> h !! z);
  holds_ids z r : h !! z = Some r → 0 < z ≤ db_top e "invocations" ∧ record_ok z r;
}.

Lemma row_to_record_values {E} `{SqliteSpec E} z r :
  record_ok z r → row_to_record (record_values z r) = r.
Proof.
  intros (Hid & Hf & Hi & Ho & Hs). destruct r. simpl in *. unfold row_to_record.
  repeat (erewrite column_text_Text by done). repeat (erewrite column_int64_Int by done).
  simpl. rewrite Hf, Hi, Ho, Hs, Hid. f_equal. by destruct ir_cold_start0.
Qed.

Definition new_record (rowid : Z) (function_name input status output : string) (duration_ms : Z)
    (cold_start : bool) (now : Z) : InvocationRecord := {|
  ir_id := to_string rowid; ir_function_name := c_str function_name; ir_input := c_str input;
  ir_output := c_str output; ir_status := c_str status; ir_duration_ms := duration_ms;
  ir_cold_start := cold_start; ir_created_at := now |}.

Section history.
  Context {E : Type} `{SqliteSpec E}.

Lemma record_spec fn input st output d cold h e id e' :
  holds e h → record fn input st output d cold e = (Ok id, e') →
  ∃ rowid,
    id = to_string rowid ∧ in_long rowid ∧ db_top e "invocations" < rowid ∧
    db_top e' "invocations" = rowid ∧ h !! rowid = None ∧
    holds e' (<[rowid := new_record rowid fn input st output d cold (db_now e)]> h).
Proof.
  intros [Hrows Hids] Hrec. unfold record in Hrec.
  apply io_bind_inv in Hrec as (r1 & e1 & Hins & Hrec).
  unfold io_bind, last_insert_id, io_ret in Hrec. injection Hrec as <- <-.
  apply step_once_inv in Hins as (rows & fin & Hrun & -> & Hfin).
  set (params := [_; _; _; _; _; _]) in Hrun.
  set (columns := [("function_name", Param); ("input", Param); ("output", Param); ("status", Param);
     ("duration_ms", Param); ("cold_start", Param); ("created_at", NowSeconds)]).
  pose proof (sqlite_insert_law "invocations" "id" columns params e) as Hlaw.
  unfold kInvocationInsert in Hrun. fold columns in Hrun. rewrite Hrun in Hlaw.
  destruct Hlaw as [-> Hlaw]. rewrite Hfin in Hlaw by done.
  destruct Hlaw as ([Hpos Htop] & Hlong & Htop' & Hrows' & _).
  set (rowid := sqlite_last_insert_rowid e1) in *.
  assert (h !! rowid = None) as Hnew.
  { destruct (h !! rowid) as [r|] eqn:Hr; [|done]. apply Hids in Hr as [? _]. lia. }
  exists rowid. split_and!; try done. split.
  - intros z. rewrite Hrows', filter_app, fmap_app, Hrows.
    destruct (decide (rowid = z)) as [<-|Hne].
    + rewrite Hnew, lookup_insert_eq. rewrite filter_cons_True; [done|].
      unfold matches. rewrite lookup_insert_eq. simpl. by apply bool_decide_eq_true.
    + rewrite lookup_insert_ne by done. rewrite filter_cons_False; [by rewrite app_nil_r|].
      unfold matches. rewrite lookup_insert_eq. simpl. rewrite bool_decide_eq_true. congruence.
  - intros z r. rewrite lookup_insert_Some. intros [[<- <-]|[_ Hz]].
    + split; [lia|]. split_and!; [done|..]; apply c_str_idemp.
    + apply Hids in Hz as [? ?]. split; [lia|done].
Qed.

Lemma get_record_spec id h e r e' :
  holds e h → get id e = (Ok r, e') →
  holds e' h ∧ r = match stol id with Ok z => h !! z | _ => None end.
Proof.
  intros Hh Hget. unfold get in Hget.
  destruct (stol id) as [z|x|u]; [|by injection Hget as <- <-..].
  apply io_bind_inv in Hget as (row & e1 & Hs & Hr). injection Hr as <- <-.
  pose proof (holds_rows e h Hh z) as Hz.
  apply select_one in Hs as [Hsame ->].
  - unfold bind_int64. rewrite Hz. split.
    + destruct Hh as [Hrows Hids]. destruct (Hsame "invocations") as [Heq Htop].
      split; [intros z'; by rewrite Heq|]. rewrite Htop. done.
    + destruct (h !! z) as [r|] eqn:Hr; [|done]. simpl. f_equal.
      apply row_to_record_values. by eapply (holds_ids e h Hh).
  - apply (f_equal length) in Hz. rewrite length_fmap in Hz. unfold bind_int64. rewrite Hz.
    destruct (h !! z); simpl; lia.
Qed.
Lemma holds_unique e h h' : holds e h → holds e h' → h = h'.
Proof.
  intros Hh Hh'. apply map_eq. intros z.
  pose proof (holds_rows e h Hh z) as Hz. rewrite (holds_rows e h' Hh' z) in Hz.
  destruct (h !! z) as [r|] eqn:Hr, (h' !! z) as [r'|] eqn:Hr'; try done.
  apply (f_equal head), Some_inj, (f_equal row_to_record) in Hz.
  rewrite !row_to_record_values in Hz; [by subst|by eapply (holds_ids e h Hh)|by eapply (holds_ids e h' Hh')].
Qed.

Lemma holds_tables e e' h :
  db_rows e' "invocations" = db_rows e "invocations" →
  db_top e' "invocations" = db_top e "invocations" → holds e h → holds e' h.
Proof. intros Hr Ht [Hrows Hids]. split; [intros z; by rewrite Hr|by rewrite Ht]. Qed.
Lemma holds_same_tables e e' h : same_tables e e' → holds e h → holds e' h.
Proof. intros Hs. apply holds_tables; apply Hs. Qed.

(** The record an id names, if it names one. *)
Definition named_record (h : gmap Z InvocationRecord) (id : string) : option InvocationRecord :=
  match stol id with Ok z => h !! z | _ => None end.

Lemma get_record_touches id e : same_tables e (get id e).2.
Proof.
  unfold get. destruct (stol id) as [z| |]; [|by split..]. unfold io_bind.
  pose proof (step_once_touches kInvocationSelect [bind_int64 z] e (ex_intro _ _ eq_refl)) as Ht.
  by destruct (step_once _ _ e) as [[] e1].
Qed.

Lemma get_record_outcome id h e :
  holds e h →
  match (get id e).1 with
  | Ok r => r = named_record h id
  | Throw _ => True
  | Undefined _ => False
  end.
Proof.
  intros Hh. destruct (get id e) as [r e'] eqn:Hget. destruct r as [r|x|u]; [|done|].
  - by apply (get_record_spec _ _ _ _ _ Hh) in Hget as [_ ->].
  - unfold get in Hget. destruct (stol id) as [z| |]; [|done..]. unfold io_bind in Hget.
    pose proof (step_once_cases kInvocationSelect [bind_int64 z] e) as Hc.
    destruct (sqlite_run _ _ e) as [[rows fin] e1].
    destruct (step_once _ _ e) as [[] e2]; destruct Hc as [Hc1 Hc2]; done.
Qed.

Lemma record_touches fn input st output d cold e :
  same_tables_but "invocations" e (record fn input st output d cold e).2.
Proof.
  unfold record, io_bind.
  pose proof (step_once_touches kInvocationInsert
    [bind_text fn; bind_text input; bind_text output; bind_text st; bind_int64 d;
     bind_int64 (if cold then 1 else 0)] e I) as Ht.
  by destruct (step_once _ _ e) as [[] e1].
Qed.

Lemma record_outcome fn input st output d cold h e :
  holds e h →
  match record fn input st output d cold e with
  | (Ok id, e') => ∃ rowid, id = to_string rowid ∧ in_long rowid ∧ h !! rowid = None ∧
      map_Forall (λ z _, z < rowid) h ∧
      holds e' (<[rowid := new_record rowid fn input st output d cold (db_now e)]> h)
  | (Throw _, e') => holds e' h
  | (Undefined _, _) => False
  end.
Proof.
  intros Hh. destruct (record fn input st output d cold e) as [r e'] eqn:Hrec.
  destruct r as [id|x|u].
  - destruct (record_spec _ _ _ _ _ _ _ _ _ _ Hh Hrec) as (rowid & -> & Hl & Hlt & _ & Hn & Hh').
    exists rowid. do 3 (split; [done|]). split; [|done]. intros z r' Hz.
    destruct (holds_ids e h Hh z r' Hz) as [? _]. simpl. lia.
  - unfold record, io_bind in Hrec.
    set (params := [bind_text fn; bind_text input; bind_text output; bind_text st; bind_int64 d;
                    bind_int64 (if cold then 1 else 0)]) in *.
    pose proof (step_once_cases kInvocationInsert params e) as Hc. unfold kInvocationInsert in *.
    match type of Hc with context [sqlite_run (Insert ?t ?k ?cs) ?ps ?e] =>
      pose proof (sqlite_insert_law t k cs ps e) as Hlaw end.
    destruct (sqlite_run _ _ e) as [[rows fin] e1].
    destruct (step_once _ _ e) as [[] e2]; destruct Hc as [Hc1 Hc2]; simpl in *; simplify_eq.
    destruct Hlaw as [_ Hlaw]. destruct fin; [done|..]; by eapply holds_same_tables.
  - unfold record, io_bind in Hrec.
    set (params := [bind_text fn; bind_text input; bind_text output; bind_text st; bind_int64 d;
                    bind_int64 (if cold then 1 else 0)]) in *.
    pose proof (step_once_cases kInvocationInsert params e) as Hc.
    destruct (sqlite_run _ _ e) as [[rows fin] e1].
    destruct (step_once _ _ e) as [[] e2]; destruct Hc as [Hc1 Hc2]; done.
Qed.
End history.

(** ** Properties *)

(** C24: A recorded invocation is read back under the id [record] returned, field by
    field (strings up to their first NUL); the id is new and above all earlier
    ones, and every earlier invocation reads as before. *)
Theorem record_get_roundtrip (E : Type) `(SqliteSpec E) (fn input st output : string) (d : Z)
    (cold : bool) (h : gmap Z InvocationRecord) (e e1 e2 : E) (i j : string)
    (r : option InvocationRecord) :
  holds e h → record fn input st output d cold e = (Ok i, e1) → get j e1 = (Ok r, e2) →
  ∃ rowid,
    i = to_string rowid ∧ db_top e "invocations" < rowid ∧ h !! rowid = None ∧
    (j = i → r = Some (new_record rowid fn input st output d cold (db_now e))) ∧
    (∀ z, stol j = Ok z → z ≠ rowid → r = h !! z).
Proof.
  intros Hh Hrec Hget.
  destruct (record_spec _ _ _ _ _ _ _ _ _ _ Hh Hrec) as (rowid & -> & Hl & Hlt & _ & Hnew & Hh1).
  apply (get_record_spec _ _ _ _ _ Hh1) in Hget as [_ ->].
  exists rowid. split_and!; try done.
  - intros ->. by rewrite stol_to_string, lookup_insert_eq.
  - intros z -> Hne. by rewrite lookup_insert_ne.
Qed.

(** [get] accepts more than the ids it hands out: leading blanks, a sign and
    anything after the digits name the same record. *)
Theorem get_accepts_foreign_ids (E : Type) `(Sqlite E) (e : E) (rest : string) :
  get ("1" +:+ String "x" rest) e = get "1" e ∧ get " +1" e = get "1" e ∧
  (∀ id, stol id = Throw InvalidArgument → get id e = (Ok None, e)).
Proof.
  split_and!; [done|done|]. intros id Hid. unfold get. by rewrite Hid.
Qed.

(** ** The hypotheses can be met *)

Definition demo_history : Mem := (open_store (new_mem 7)).2.

Lemma record_get_roundtrip_witness :
  (record "hello" "{}" "success" "hi" 12 true demo_history).1 = Ok "1" ∧
  (get "1" (record "hello" "{}" "success" "hi" 12 true demo_history).2).1
  = Ok (Some (new_record 1 "hello" "{}" "success" "hi" 12 true 7)).
Proof.
  assert (holds demo_history ∅) as Hh by (split; [intros z; by vm_compute|done]).
  set (m1 := (record "hello" "{}" "success" "hi" 12 true demo_history).2).
  assert (record "hello" "{}" "success" "hi" 12 true demo_history = (Ok "1", m1)) as Hrec
    by (by vm_compute).
  destruct (get "1" m1) as [o m2] eqn:Hget.
  assert (∃ r, o = Ok r) as [r ->]
    by (apply (f_equal fst) in Hget; vm_compute in Hget; rewrite <-Hget; by eexists).
  destruct (record_get_roundtrip Mem _ "hello" "{}" "success" "hi" 12 true ∅ demo_history m1 m2
              "1" "1" r Hh Hrec Hget) as (rowid & Hi & _ & _ & Hr & _).
  split; [by vm_compute|]. rewrite Hr by done. cbn [fst]. do 2 f_equal.
  assert (rowid = 1) as ->; [|done]. by apply (inj to_string).
Defined.

Lemma get_accepts_foreign_ids_witness :
  get "abc" demo_history = (Ok None, demo_history).
Proof. by apply (get_accepts_foreign_ids Mem _ demo_history ""). Defined.
End InvocationStore.
