(* ===== verification/UnitTests.v ===== *)
(** * The repository's unit tests ([tests/])

    The test framework and the test cases of the registry, the invocation store and the
    metrics, as programs of the model. They are stated for any database engine that does
    what its documentation says; on such an engine no [CHECK] fails. *)

From S2P Require Import Prelude CppStd StringFacts FunctionModel Metrics Database MemDatabase.
From S2P Require Import FunctionRegistry InvocationStore.

(** ** test_framework.hpp *)

Section framework.
  Context {D : Type} (what : exn → string).   (* e.what() *)

Record TestCase : Type := { test_name : string; fn : Io D unit }.

(** [CHECK] and [CHECK_EQ]; [site] is the text of the condition and where it stands. *)
Definition CHECK (cond : bool) (site : string) : Io D unit :=
  if cond then io_ret tt else io_throw (RuntimeError ("CHECK failed: " +:+ site)).
Definition CHECK_EQ {A} `{EqDecision A} (a b : A) (site : string) : Io D unit :=
  if decide (a = b) then io_ret tt else io_throw (RuntimeError ("CHECK_EQ failed: " +:+ site)).

(** What [run_all] has printed, and how many tests passed and failed. *)
Record Tally : Type := { printed : string; passed : Z; failed : Z }.

Definition run_test (test : TestCase) (t : Tally) : Io D Tally :=
  io_catch
    (_ ⇐ fn test;
     io_ret {| printed := printed t +:+ line ("[PASS] " +:+ test_name test);
               passed := passed t + 1; failed := failed t |})
    (λ x, io_ret {| printed := printed t +:+ line ("[FAIL] " +:+ test_name test +:+ ": " +:+ what x);
                    passed := passed t; failed := failed t + 1 |}).
Fixpoint run_tests (tests : list TestCase) (t : Tally) : Io D Tally :=
  match tests with
  | [] => io_ret t
  | test :: tests => t' ⇐ run_test test t; run_tests tests t'
  end.

(** The result and the output. *)
Definition run_all (registry : list TestCase) : Io D (Z * string) :=
  t ⇐ run_tests registry {| printed := ""; passed := 0; failed := 0 |};
  io_ret (if decide (failed t = 0) then 0 else 1,
          printed t +:+ line (to_string (passed t) +:+ "/" +:+ to_string (Z.of_nat (length registry)) +:+ " tests passed")).
End framework.
Arguments TestCase : clear implicits.

(** ** The test cases *)

Section cases.
  Context {D : Type} `{Sqlite D} (remove_file : string → St D unit).
Import FunctionRegistry.

Definition memory : string := ":memory:".
(** [Database db(path); FunctionRegistry registry(db);] *)
Definition registry_on (path : string) : Io D unit := _ ⇐ open_database path; open_registry.
Definition store_on (path : string) : Io D unit := _ ⇐ open_database path; InvocationStore.open_store.

(** [FunctionSpec spec; spec.name = name; spec.image = image;] *)
Definition spec_named (name image : string) : FunctionSpec := {|
  FunctionModel.name := name; version := version default_spec; FunctionModel.image := image;
  timeout_ms := timeout_ms default_spec; memory_mb := memory_mb default_spec; cpu := cpu default_spec;
  max_concurrency := max_concurrency default_spec; idle_timeout_ms := idle_timeout_ms default_spec |}.

Definition register_and_get_function : Io D unit :=
  _ ⇐ registry_on memory;
  _ ⇐ register_function (spec_named "hello" "hello:v1");
  fn ⇐ get "hello";
  _ ⇐ CHECK (bool_decide (is_Some fn)) "fn.has_value()";
  f ⇐ deref fn;
  _ ⇐ CHECK_EQ (image (spec f)) "hello:v1" "fn->spec.image";
  CHECK_EQ (name (spec f)) "hello" "fn->spec.name".

Definition get_missing_function_returns_nullopt : Io D unit :=
  _ ⇐ registry_on memory;
  fn ⇐ get "does-not-exist";
  CHECK (negb (bool_decide (is_Some fn))) "!registry.get(does-not-exist).has_value()".

Definition remove_function : Io D unit :=
  _ ⇐ registry_on memory;
  _ ⇐ register_function (spec_named "hello" "hello:v1");
  removed ⇐ remove "hello";
  _ ⇐ CHECK removed "registry.remove(hello)";
  fn ⇐ get "hello";
  _ ⇐ CHECK (negb (bool_decide (is_Some fn))) "!registry.get(hello).has_value()";
  again ⇐ remove "hello";
  CHECK (negb again) "!registry.remove(hello)".

Definition list_returns_all_registered_functions : Io D unit :=
  _ ⇐ registry_on memory;
  _ ⇐ register_function (spec_named "a" "a:v1");
  _ ⇐ register_function (spec_named "b" "b:v1");
  all ⇐ list_functions;
  CHECK_EQ (length all) 2%nat "registry.list().size()".

Definition re_registering_overwrites_existing_function : Io D unit :=
  _ ⇐ registry_on memory;
  _ ⇐ register_function (spec_named "hello" "hello:v1");
  _ ⇐ register_function (spec_named "hello" "hello:v2");
  fn ⇐ get "hello";
  f ⇐ deref fn;
  CHECK_EQ (image (spec f)) "hello:v2" "fn->spec.image".

Definition default_spec_values_are_applied : Io D unit :=
  _ ⇐ registry_on memory;
  f ⇐ register_function (spec_named "defaults" "defaults:v1");
  _ ⇐ CHECK_EQ (version (spec f)) 1 "fn.spec.version";
  _ ⇐ CHECK_EQ (timeout_ms (spec f)) 5000 "fn.spec.timeout_ms";
  _ ⇐ CHECK_EQ (memory_mb (spec f)) 256 "fn.spec.memory_mb";
  _ ⇐ CHECK_EQ (max_concurrency (spec f)) 1 "fn.spec.max_concurrency";
  CHECK_EQ (idle_timeout_ms (spec f)) 60000 "fn.spec.idle_timeout_ms".

Definition test_file : string := "/tmp/faas_test_function_registry.db".

Definition function_metadata_survives_reopening_the_database_file : Io D unit :=
  _ ⇐ io_lift (remove_file test_file);
  _ ⇐ registry_on test_file;
  _ ⇐ register_function (spec_named "hello" "hello:v1");
  _ ⇐ registry_on test_file;
  fn ⇐ get "hello";
  _ ⇐ CHECK (bool_decide (is_Some fn)) "fn.has_value()";
  f ⇐ deref fn;
  _ ⇐ CHECK_EQ (image (spec f)) "hello:v1" "fn->spec.image";
  io_lift (remove_file test_file).

Definition record_and_get_invocation : Io D unit :=
  _ ⇐ store_on memory;
  id ⇐ InvocationStore.record "hello" ("{" +:+ quoted "name" +:+ ":" +:+ quoted "Adi" +:+ "}") "success"
         (quoted "Hello, Adi!") 18 false;
  record ⇐ InvocationStore.get id;
  _ ⇐ CHECK (bool_decide (is_Some record)) "record.has_value()";
  r ⇐ deref record;
  _ ⇐ CHECK_EQ (ir_function_name r) "hello" "record->function_name";
  _ ⇐ CHECK_EQ (ir_status r) "success" "record->status";
  _ ⇐ CHECK_EQ (ir_output r) (quoted "Hello, Adi!") "record->output";
  _ ⇐ CHECK_EQ (ir_duration_ms r) 18 "record->duration_ms";
  CHECK (negb (ir_cold_start r)) "!record->cold_start".

Definition get_missing_invocation_returns_nullopt : Io D unit :=
  _ ⇐ store_on memory;
  record ⇐ InvocationStore.get "999";
  CHECK (negb (bool_decide (is_Some record))) "!store.get(999).has_value()".

Definition get_non_numeric_id_returns_nullopt : Io D unit :=
  _ ⇐ store_on memory;
  record ⇐ InvocationStore.get "not-an-id";
  CHECK (negb (bool_decide (is_Some record))) "!store.get(not-an-id).has_value()".

Definition successive_records_get_distinct_ids : Io D unit :=
  _ ⇐ store_on memory;
  first ⇐ InvocationStore.record "hello" "{}" "success" (quoted "a") 5 true;
  second ⇐ InvocationStore.record "hello" "{}" "success" (quoted "b") 5 false;
  _ ⇐ CHECK (bool_decide (first ≠ second)) "first != second";
  r1 ⇐ InvocationStore.get first;
  _ ⇐ CHECK (bool_decide (is_Some r1)) "store.get(first).has_value()";
  r2 ⇐ InvocationStore.get second;
  CHECK (bool_decide (is_Some r2)) "store.get(second).has_value()".

Definition cold_start_flag_round_trips : Io D unit :=
  _ ⇐ store_on memory;
  id ⇐ InvocationStore.record "hello" "{}" "success" (quoted "a") 5 true;
  record ⇐ InvocationStore.get id;
  _ ⇐ CHECK (bool_decide (is_Some record)) "record.has_value()";
  r ⇐ deref record;
  CHECK (ir_cold_start r) "record->cold_start".

(** [output.find(text) != std::string::npos] *)
Definition found (text output : string) : bool := bool_decide (is_Some (String.index 0 text output)).

Definition render_includes_recorded_invocation_counts : Io D unit :=
  let metrics := record_invocation "timeout" false 1000
                   (record_invocation "success" false 3 (record_invocation "success" true 42 new_metrics)) in
  output ⇐ io_of (render 2 metrics);
  _ ⇐ CHECK (found ("faas_invocations_total{status=" +:+ quoted "success" +:+ ",cold_start=" +:+ quoted "true" +:+ "} 1") output) "success, cold";
  _ ⇐ CHECK (found ("faas_invocations_total{status=" +:+ quoted "success" +:+ ",cold_start=" +:+ quoted "false" +:+ "} 1") output) "success, warm";
  _ ⇐ CHECK (found ("faas_invocations_total{status=" +:+ quoted "timeout" +:+ ",cold_start=" +:+ quoted "false" +:+ "} 1") output) "timeout, warm";
  CHECK (found "faas_active_runtimes 2" output) "active runtimes".

Definition histogram_buckets_are_cumulative : Io D unit :=
  output ⇐ io_of (render 0 (record_invocation "success" false 3 new_metrics));
  _ ⇐ CHECK (found ("faas_invocation_duration_ms_bucket{cold_start=" +:+ quoted "false" +:+ ",le=" +:+ quoted "1" +:+ "} 0") output) "le=1";
  _ ⇐ CHECK (found ("faas_invocation_duration_ms_bucket{cold_start=" +:+ quoted "false" +:+ ",le=" +:+ quoted "5" +:+ "} 1") output) "le=5";
  _ ⇐ CHECK (found ("faas_invocation_duration_ms_bucket{cold_start=" +:+ quoted "false" +:+ ",le=" +:+ quoted "+Inf" +:+ "} 1") output) "le=+Inf";
  CHECK (found ("faas_invocation_duration_ms_count{cold_start=" +:+ quoted "false" +:+ "} 1") output) "count".

Definition runtime_creation_and_termination_are_counted : Io D unit :=
  output ⇐ io_of (render 0 (record_runtime_terminated "idle_timeout"
                              (record_runtime_created (record_runtime_created new_metrics))));
  _ ⇐ CHECK (found "faas_runtimes_created_total 2" output) "created";
  CHECK (found ("faas_runtimes_terminated_total{reason=" +:+ quoted "idle_timeout" +:+ "} 1") output) "terminated".

Definition render_with_no_data_still_produces_valid_output : Io D unit :=
  output ⇐ io_of (render 0 new_metrics);
  _ ⇐ CHECK (found "faas_active_runtimes 0" output) "active runtimes";
  CHECK (found "# TYPE faas_invocations_total counter" output) "type".

(** The test cases of each source file, in the order they register themselves. *)
Definition registry_tests : list (TestCase D) :=
  [{| test_name := "register_and_get_function"; fn := register_and_get_function |};
   {| test_name := "get_missing_function_returns_nullopt"; fn := get_missing_function_returns_nullopt |};
   {| test_name := "remove_function"; fn := remove_function |};
   {| test_name := "list_returns_all_registered_functions"; fn := list_returns_all_registered_functions |};
   {| test_name := "re_registering_overwrites_existing_function"; fn := re_registering_overwrites_existing_function |};
   {| test_name := "default_spec_values_are_applied"; fn := default_spec_values_are_applied |};
   {| test_name := "function_metadata_survives_reopening_the_database_file";
      fn := function_metadata_survives_reopening_the_database_file |}].
Definition store_tests : list (TestCase D) :=
  [{| test_name := "record_and_get_invocation"; fn := record_and_get_invocation |};
   {| test_name := "get_missing_invocation_returns_nullopt"; fn := get_missing_invocation_returns_nullopt |};
   {| test_name := "get_non_numeric_id_returns_nullopt"; fn := get_non_numeric_id_returns_nullopt |};
   {| test_name := "successive_records_get_distinct_ids"; fn := successive_records_get_distinct_ids |};
   {| test_name := "cold_start_flag_round_trips"; fn := cold_start_flag_round_trips |}].
Definition metrics_tests : list (TestCase D) :=
  [{| test_name := "render_includes_recorded_invocation_counts"; fn := render_includes_recorded_invocation_counts |};
   {| test_name := "histogram_buckets_are_cumulative"; fn := histogram_buckets_are_cumulative |};
   {| test_name := "runtime_creation_and_termination_are_counted"; fn := runtime_creation_and_termination_are_counted |};
   {| test_name := "render_with_no_data_still_produces_valid_output"; fn := render_with_no_data_still_produces_valid_output |}].
Definition all_tests : list (TestCase D) := registry_tests ++ store_tests ++ metrics_tests.
End cases.

(** ** What a test may assume *)

(** A database in memory is private and empty; a file that was removed is empty when it is
    opened next, and as it was left when it is opened again. *)
Class TestFiles (D : Type) `{Sqlite D, SqliteView D} : Type := {
  remove_file : string → St D unit;
  memory_law e e' : sqlite_open memory e = (None, e') → ∀ t, db_rows e' t = [] ∧ db_top e' t = 0;
  new_file_law e e' : sqlite_open test_file (remove_file test_file e).2 = (None, e') →
    ∀ t, db_rows e' t = [] ∧ db_top e' t = 0;
  old_file_law e e' : sqlite_open test_file e = (None, e') → same_tables e e';
}.

(** The exceptions of [database.cpp]. *)
Definition database_error (x : exn) : Prop :=
  ∃ prefix msg, x = RuntimeError (prefix +:+ msg) ∧
    prefix ∈ ["failed to open database at "; "sqlite exec failed: "; "failed to prepare statement: ";
              "sqlite step failed: "].

Lemma check_is_no_database_error site :
  ¬ database_error (RuntimeError ("CHECK failed: " +:+ site)) ∧
  ¬ database_error (RuntimeError ("CHECK_EQ failed: " +:+ site)).
Proof.
  split; intros (prefix & msg & [= Hx] & Hp);
    repeat (apply elem_of_cons in Hp as [-> |Hp]; [done|]); by apply elem_of_nil in Hp.
Qed.

(** From a state that satisfies [P] the computation gives a result and a state that satisfy
    [Q], or an exception of the database. *)
Definition triple {D A} (P : D → Prop) (c : Io D A) (Q : A → D → Prop) : Prop :=
  ∀ e, P e → match c e with
             | (Ok a, e') => Q a e'
             | (Throw x, _) => database_error x
             | (Undefined _, _) => False
             end.

Section triples.
  Context {D : Type}.
  Implicit Types (P : D → Prop).

Lemma t_bind {A B} P (c : Io D A) Q (f : A → Io D B) R :
  triple P c Q → (∀ a, triple (Q a) (f a) R) → triple P (x ⇐ c; f x) R.
Proof.
  intros Hc Hf e He. specialize (Hc e He). unfold io_bind.
  destruct (c e) as [[a|x|u] e']; [by apply Hf|done..].
Qed.
Lemma t_pure {A} (φ : Prop) P (c : Io D A) Q : (φ → triple P c Q) → triple (λ e, φ ∧ P e) c Q.
Proof. intros Hc e [Hφ He]. by apply Hc. Qed.
Lemma t_ex {A X} (P : X → D → Prop) (c : Io D A) Q : (∀ x, triple (P x) c Q) → triple (λ e, ∃ x, P x e) c Q.
Proof. intros Hc e [x He]. by apply (Hc x). Qed.
Lemma t_check P cond site : cond = true → triple P (CHECK cond site) (λ _ e, True ∧ P e).
Proof. by intros -> e He. Qed.
Lemma t_check_eq {A} `{EqDecision A} P (a b : A) site : a = b → triple P (CHECK_EQ a b site) (λ _ e, True ∧ P e).
Proof. intros -> e He. unfold CHECK_EQ. by rewrite decide_True. Qed.
Lemma t_io_of {A} P (a : A) : triple P (io_of (Ok a)) (λ b e, b = a ∧ P e).
Proof. by intros e He. Qed.
Lemma t_end {A} P (c : Io D A) Q : triple P c (λ a e, Q a ∧ P e) → triple P c (λ _ _, True).
Proof. intros Hc e He. specialize (Hc e He). by destruct (c e) as [[]]. Qed.
End triples.

(** ** What the operations throw *)

Section raises.
  Context {D : Type} `{Sqlite D}.

Definition raises {A} (c : Io D A) : Prop := ∀ e x, (c e).1 = Throw x → database_error x.

Lemma raises_bind {A B} (c : Io D A) (f : A → Io D B) : raises c → (∀ a, raises (f a)) → raises (x ⇐ c; f x).
Proof.
  intros Hc Hf e x. unfold io_bind. specialize (Hc e).
  destruct (c e) as [[a|x'|u] e']; [apply Hf|intros [= <-]; by apply Hc|done].
Qed.
Lemma raises_ret {A} (a : A) : raises (io_ret a).
Proof. done. Qed.
Lemma raises_lift {A} (m : St D A) : raises (io_lift m).
Proof. intros e x. unfold io_lift. by destruct (m e). Qed.

Lemma error_of prefix msg :
  prefix ∈ ["failed to open database at "; "sqlite exec failed: "; "failed to prepare statement: ";
            "sqlite step failed: "] → database_error (RuntimeError (prefix +:+ msg)).
Proof. intros Hp. by exists prefix, msg. Qed.

Lemma raises_step_rows stmt params :
  raises (step_rows stmt params) ∧
  ∀ e rows x, (step_rows stmt params e).1 = Ok (rows, Some x) → database_error x.
Proof.
  unfold step_rows, io_bind, io_lift, io_ret, io_throw. split.
  - intros e x. destruct (sqlite_run stmt params e) as [[rows [|m|m]] e1]; simpl; [done|done|].
    intros [= <-]. apply error_of. set_solver.
  - intros e rows x. destruct (sqlite_run stmt params e) as [[rows' [|m|m]] e1]; simpl; [done| |done].
    intros [= _ <-]. apply error_of. set_solver.
Qed.

Lemma raises_step_once stmt params : raises (step_once stmt params).
Proof.
  intros e x. destruct (raises_step_rows stmt params) as [Hr Hx]. specialize (Hr e). specialize (Hx e).
  unfold step_once, io_bind. destruct (step_rows stmt params e) as [[[[|row rows] [x'|]]|x'|u] e1]; simpl in *;
    try done; intros [= <-]; [by eapply Hx|by apply Hr].
Qed.
Lemma raises_step_all stmt params : raises (step_all stmt params).
Proof.
  intros e x. destruct (raises_step_rows stmt params) as [Hr Hx]. specialize (Hr e). specialize (Hx e).
  unfold step_all, io_bind. destruct (step_rows stmt params e) as [[[rows [x'|]]|x'|u] e1]; simpl in *;
    try done; intros [= <-]; [by eapply Hx|by apply Hr].
Qed.
Lemma raises_exec sql : raises (exec sql).
Proof.
  apply raises_bind; [apply raises_lift|]. intros [msg|]; [|done]. intros e x [= <-]. apply error_of. set_solver.
Qed.
Lemma raises_open path : raises (open_database path).
Proof.
  apply raises_bind; [apply raises_lift|]. intros [msg|]; [|done]. intros e x [= <-]. apply error_of. set_solver.
Qed.

#[local] Hint Resolve raises_bind raises_ret raises_lift raises_step_once raises_step_all raises_exec raises_open : faas.

Lemma raises_registry n s :
  raises (FunctionRegistry.get n) ∧ raises (FunctionRegistry.remove n) ∧ raises FunctionRegistry.list_functions ∧
  raises (FunctionRegistry.register_function s).
Proof.
  assert (∀ n, raises (FunctionRegistry.get n)) as Hget by (intros; apply raises_bind; auto with faas).
  split_and!; [done| | |].
  - repeat (apply raises_bind; [auto with faas|intros]); done.
  - repeat (apply raises_bind; [auto with faas|intros]); done.
  - apply raises_bind; [auto with faas|intros _]. apply raises_bind; [apply raises_lift|intros _].
    apply raises_bind; [apply Hget|]. by intros [].
Qed.
Lemma raises_store fn i st o d cold id :
  raises (InvocationStore.record fn i st o d cold) ∧ raises (InvocationStore.get id).
Proof.
  split; [repeat (apply raises_bind; [auto with faas|intros]); done|].
  unfold InvocationStore.get. destruct (stol id); [|done..]. apply raises_bind; auto with faas.
Qed.
End raises.

(** ** The operations *)

Section operations.
  Context {D : Type} `{SqliteSpec D, !SqliteSchema D, !TestFiles D}.
Import FunctionRegistry.

Lemma t_outcome {A} P (c : Io D A) (Q : A → D → Prop) :
  raises c →
  (∀ e, P e → match c e with (Ok a, e') => Q a e' | (Throw _, _) => True | (Undefined _, _) => False end) →
  triple P c Q.
Proof. intros Hr Hc e He. specialize (Hc e He). specialize (Hr e). destruct (c e) as [[a|x|u] e']; [done|by apply Hr|done]. Qed.

Lemma open_database_cases path (e : D) :
  match open_database path e with
  | (Ok _, e') => sqlite_open path e = (None, e')
  | (Throw _, _) => True
  | (Undefined _, _) => False
  end.
Proof.
  unfold open_database, io_bind, io_lift, io_ret, io_throw. by destruct (sqlite_open path e) as [[msg|] e1].
Qed.

(** Opening a database and creating the table of a store. *)
Lemma t_open (P Q : D → Prop) path sc :
  schema_ok sc = true →
  (∀ e e', P e → sqlite_open path e = (None, e') → Q e') →
  (∀ e e', same_tables e e' → Q e → Q e') →
  triple P (_ ⇐ open_database path; exec (create_table_sql sc)) (λ _ e, True ∧ Q e).
Proof.
  intros Hok HP HQ. apply t_outcome; [apply raises_bind; [apply raises_open|intros _; apply raises_exec]|].
  intros e He. unfold io_bind. pose proof (open_database_cases path e) as Ho.
  destruct (open_database path e) as [[u|x|u] e1]; [|done..]. pose proof (exec_create_table sc e1 Hok) as Hc.
  destruct (exec (create_table_sql sc) e1) as [[u'|x|u'] e2]; [|done|by destruct Hc]. split; [done|].
  eapply HQ; [apply Hc|]. by eapply HP.
Qed.

Lemma empty_represents (e : D) : db_rows e "functions" = [] → represents e ∅.
Proof. intros Hr. split; [by rewrite Hr|done]. Qed.
Lemma empty_holds (e : D) : db_rows e "invocations" = [] → InvocationStore.holds e ∅.
Proof. intros Hr. split; [by intros z; rewrite Hr|done]. Qed.

Lemma t_registry_on_memory P : triple P (registry_on memory) (λ _ e, True ∧ represents e ∅).
Proof.
  apply (t_open P (λ e, represents e ∅)); [done| |by intros ? ? ?; apply represents_same_tables].
  intros e e' _ Ho. by apply empty_represents, (memory_law e e').
Qed.
Lemma t_registry_on_file m : triple (λ e, represents e m) (registry_on test_file) (λ _ e, True ∧ represents e m).
Proof.
  apply (t_open _ (λ e, represents e m)); [done| |by intros ? ? ?; apply represents_same_tables].
  intros e e' Hm Ho. eapply represents_same_tables, Hm. by apply old_file_law.
Qed.
Lemma t_registry_on_new_file P :
  triple P (_ ⇐ io_lift (remove_file test_file); registry_on test_file) (λ _ e, True ∧ represents e ∅).
Proof.
  eapply t_bind with (Q := λ _ e1, ∃ e, e1 = (remove_file test_file e).2).
  - intros e _. unfold io_lift. destruct (remove_file test_file e) as [a e1] eqn:Hr. exists e. by rewrite Hr.
  - intros _. apply (t_open _ (λ e, represents e ∅)); [done| |by intros ? ? ?; apply represents_same_tables].
    intros e e' [e0 ->] Ho. by apply empty_represents, (new_file_law e0 e').
Qed.
Lemma t_store_on_memory P : triple P (store_on memory) (λ _ e, True ∧ InvocationStore.holds e ∅).
Proof.
  apply (t_open P (λ e, InvocationStore.holds e ∅)); [done| |by intros ? ? ?; apply InvocationStore.holds_same_tables].
  intros e e' _ Ho. by apply empty_holds, (memory_law e e').
Qed.

Lemma t_register s m :
  spec_in_range s →
  triple (λ e, represents e m) (register_function s)
    (λ f e, ∃ now, f = new_function s now ∧ represents e (<[c_str (name s) := new_function s now]> m)).
Proof.
  intros Hs. apply t_outcome; [apply raises_registry; exact ""|]. intros e Hm.
  pose proof (register_outcome s m e Hm Hs) as Ho. cbv zeta in Ho.
  destruct (register_function s e) as [[f|x|u] e']; [|done..]. by exists (db_now e).
Qed.
Lemma t_get n m : triple (λ e, represents e m) (get n) (λ r e, r = m !! c_str n ∧ represents e m).
Proof.
  apply t_outcome; [apply raises_registry; exact default_spec|]. intros e Hm.
  pose proof (get_outcome n m e Hm) as Ho. by destruct (get n e) as [[] ?].
Qed.
Lemma t_remove n m :
  triple (λ e, represents e m) (remove n)
    (λ b e, b = bool_decide (is_Some (m !! c_str n)) ∧ represents e (delete (c_str n) m)).
Proof.
  apply t_outcome; [apply raises_registry; exact default_spec|]. intros e Hm.
  pose proof (remove_outcome n m e Hm) as Ho. by destruct (remove n e) as [[] ?].
Qed.
Lemma t_list m :
  triple (λ e, represents e m) list_functions (λ fs e, length fs = size m ∧ represents e m).
Proof.
  apply t_outcome; [apply raises_registry; [exact ""|exact default_spec]|]. intros e Hm.
  pose proof (list_outcome m e Hm) as Ho. destruct (list_functions e) as [[fs|x|u] e']; [|done..].
  destruct Ho as [Hfs Hm']. split; [|done]. rewrite Hfs. unfold functions_of. by rewrite length_fmap, length_map_to_list.
Qed.

Lemma t_record fn i st o d cold h :
  triple (λ e, InvocationStore.holds e h) (InvocationStore.record fn i st o d cold)
    (λ id e, ∃ rowid now, (id = to_string rowid ∧ in_long rowid ∧ h !! rowid = None) ∧
       InvocationStore.holds e (<[rowid := InvocationStore.new_record rowid fn i st o d cold now]> h)).
Proof.
  apply t_outcome; [apply raises_store; exact ""|]. intros e Hh.
  pose proof (InvocationStore.record_outcome fn i st o d cold h e Hh) as Ho.
  destruct (InvocationStore.record fn i st o d cold e) as [[id|x|u] e']; [|done..].
  destruct Ho as (rowid & ? & ? & ? & _ & ?). by exists rowid, (db_now e).
Qed.
Lemma t_read id h :
  triple (λ e, InvocationStore.holds e h) (InvocationStore.get id)
    (λ r e, r = InvocationStore.named_record h id ∧ InvocationStore.holds e h).
Proof.
  apply t_outcome; [apply (raises_store "" "" "" "" 0 false)|]. intros e Hh.
  pose proof (InvocationStore.get_record_outcome id h e Hh) as Ho.
  pose proof (InvocationStore.get_record_touches id e) as Ht.
  destruct (InvocationStore.get id e) as [[r|x|u] e']; [|done..]. split; [done|].
  by eapply InvocationStore.holds_same_tables.
Qed.
End operations.

(** ** Every test *)

Section tests.
  Context {D : Type} `{SqliteSpec D, !SqliteSchema D, !TestFiles D} (what : exn → string).
Import FunctionRegistry.

Lemma t_deref {A} P (a : A) : triple P (deref (E:=D) (Some a)) (λ b e, b = a ∧ P e).
Proof. by intros e He. Qed.
Lemma t_assoc {A B X} P (a : Io D A) (b : Io D B) (c : B → Io D X) Q :
  triple P (x ⇐ (_ ⇐ a; b); c x) Q → triple P (_ ⇐ a; x ⇐ b; c x) Q.
Proof.
  intros Ht e He. specialize (Ht e He). revert Ht. unfold io_bind.
  destruct (a e) as [[|x|u] e1]; [|done..]. by destruct (b e1) as [[|x|u] e2].
Qed.

Lemma spec_named_range name image : spec_in_range (spec_named name image).
Proof. by repeat split. Qed.

(** The next operation of a test, and what it tells. *)
Ltac t_next lem :=
  eapply t_bind; [eapply lem|intros ?; repeat (apply t_ex; intros ?); apply t_pure; intros ?];
  destruct_and?; subst; rewrite ?lookup_insert_eq.
Ltac t_register :=
  eapply t_bind; [apply t_register, spec_named_range|intros ?; apply t_ex; intros ?; apply t_pure; intros ->];
  cbn [name spec_named].
Ltac t_last lem := eapply t_end, lem.

Lemma registry_tests_pass test : test ∈ registry_tests (D:=D) remove_file → triple (λ _, True) (fn test) (λ _ _, True).
Proof.
  unfold registry_tests. rewrite !elem_of_cons, elem_of_nil.
  intros [-> |[-> |[-> |[-> |[-> |[-> |[-> |[]]]]]]]]; cbn [fn].
  - t_next t_registry_on_memory. t_register. t_next t_get. t_next @t_check; [done|].
    t_next @t_deref. t_next @t_check_eq; [done|]. by t_last @t_check_eq.
  - t_next t_registry_on_memory. t_next t_get. by t_last @t_check.
  - t_next t_registry_on_memory. t_register. t_next t_remove. t_next @t_check; [done|].
    t_next t_get. rewrite lookup_delete_eq. t_next @t_check; [done|].
    t_next t_remove. t_last @t_check. by rewrite lookup_delete_eq.
  - t_next t_registry_on_memory. t_register. t_register. t_next t_list. t_last @t_check_eq. done.
  - t_next t_registry_on_memory. t_register. t_register. t_next t_get.
    t_next @t_deref. by t_last @t_check_eq.
  - t_next t_registry_on_memory. t_register. do 4 (t_next @t_check_eq; [done|]). by t_last @t_check_eq.
  - apply t_assoc. t_next t_registry_on_new_file. t_register. t_next t_registry_on_file. t_next t_get.
    t_next @t_check; [done|]. t_next @t_deref. t_next @t_check_eq; [done|].
    intros e _. unfold io_lift. by destruct (remove_file _ e).
Qed.

Lemma named_new rowid r (h : gmap Z InvocationRecord) :
  in_long rowid → InvocationStore.named_record (<[rowid := r]> h) (to_string rowid) = Some r.
Proof. intros Hl. unfold InvocationStore.named_record. by rewrite stol_to_string, lookup_insert_eq. Qed.

Lemma store_tests_pass test : test ∈ store_tests (D:=D) → triple (λ _, True) (fn test) (λ _ _, True).
Proof.
  unfold store_tests. rewrite !elem_of_cons, elem_of_nil.
  intros [-> |[-> |[-> |[-> |[-> |[]]]]]]; cbn [fn].
  - t_next t_store_on_memory. t_next t_record. t_next t_read. rewrite named_new by done.
    t_next @t_check; [done|]. t_next @t_deref. do 4 (t_next @t_check_eq; [done|]). by t_last @t_check.
  - t_next t_store_on_memory. t_next t_read. by t_last @t_check.
  - t_next t_store_on_memory. t_next t_read. by t_last @t_check.
  - t_next t_store_on_memory. t_next t_record. t_next t_record.
    match goal with Hn : <[?x := _]> ∅ !! ?y = None |- _ =>
      assert (x ≠ y) as Hne by (intros ->; by rewrite lookup_insert_eq in Hn) end.
    t_next @t_check; [by apply bool_decide_eq_true; intros Heq%(inj to_string)|].
    t_next t_read. unfold InvocationStore.named_record. rewrite stol_to_string by done.
    rewrite lookup_insert_ne, lookup_insert_eq by done. t_next @t_check; [done|].
    t_next t_read. unfold InvocationStore.named_record. rewrite stol_to_string, lookup_insert_eq by done.
    by t_last @t_check.
  - t_next t_store_on_memory. t_next t_record. t_next t_read. rewrite named_new by done.
    t_next @t_check; [done|]. t_next @t_deref. by t_last @t_check.
Qed.

Lemma metrics_tests_pass test : test ∈ metrics_tests (D:=D) → triple (λ _, True) (fn test) (λ _ _, True).
Proof.
  unfold metrics_tests. rewrite !elem_of_cons, elem_of_nil.
  intros [-> |[-> |[-> |[-> |[]]]]]; intros e _; vm_compute; exact I.
Qed.

Lemma run_test_tally (test : TestCase D) (t : Tally) (e : D) :
  triple (λ _, True) (fn test) (λ _ _, True) →
  ∃ t' e', run_test what test t e = (Ok t', e') ∧ passed t' + failed t' = passed t + failed t + 1 ∧
    ((passed t' = passed t + 1 ∧ failed t' = failed t) ∨
     (failed t' = failed t + 1 ∧ ∃ x, (fn test e).1 = Throw x ∧ database_error x)).
Proof.
  intros Ht. specialize (Ht e I). unfold run_test, io_catch, io_bind, io_ret.
  destruct (fn test e) as [[[]|x|u] e1]; [| |done]; eexists _, _; (split; [done|]); simpl.
  - split; [lia|]. by left.
  - split; [lia|]. right. split; [done|]. by exists x.
Qed.

Lemma run_tests_tally (tests : list (TestCase D)) : ∀ (t : Tally) (e : D),
  Forall (λ test, triple (λ _, True) (fn test) (λ _ _, True)) tests → 0 ≤ failed t →
  ∃ t' e', run_tests what tests t e = (Ok t', e') ∧ failed t ≤ failed t' ∧
    passed t' + failed t' = passed t + failed t + Z.of_nat (length tests) ∧
    (failed t < failed t' → ∃ (test : TestCase D) (e1 : D) x, test ∈ tests ∧ (fn test e1).1 = Throw x ∧ database_error x).
Proof.
  induction tests as [|test tests IH]; intros t e Hall Hf; [exists t, e; simpl; split_and!; [done|lia..]|].
  apply Forall_cons in Hall as [Ht Hall].
  destruct (run_test_tally test t e Ht) as (t1 & e1 & Hrun & Hsum & Hone).
  destruct (IH t1 e1 Hall) as (t2 & e2 & Hrun2 & Hle & Hsum2 & Hfail); [destruct Hone as [[_ ->]|[-> _]]; lia|].
  exists t2, e2. simpl. unfold io_bind. rewrite Hrun. split; [done|].
  split; [destruct Hone as [[_ Hs]|[Hs _]]; lia|]. split; [lia|]. intros Hlt.
  destruct Hone as [[_ Hs]|[_ (x & Hx & Hdb)]].
  - destruct Hfail as (test' & e' & x & Hin & ?); [lia|]. exists test', e', x. split; [by right|done].
  - exists test, e, x. split; [by left|done].
Qed.

(** C39: the repository's unit tests pass on any engine that keeps the promises of SQLite's
    documentation, in whatever order they register themselves: [run_all] runs them all
    and ends with 0, unless the database threw an exception of its own - no [CHECK] fails
    and no test does what is undefined. *)
Theorem unit_tests_pass (tests : list (TestCase D)) (e : D) :
  tests ≡ₚ all_tests remove_file →
  ∃ code output e', run_all what tests e = (Ok (code, output), e') ∧
    (code = 0 ∨ code = 1 ∧ ∃ (test : TestCase D) (e1 : D) x, test ∈ tests ∧ (fn test e1).1 = Throw x ∧ database_error x) ∧
    ∀ (test : TestCase D) (e1 : D), test ∈ tests →
      (fn test e1).1 = Ok tt ∨ ∃ x, (fn test e1).1 = Throw x ∧ database_error x.
Proof.
  intros Hp.
  assert (∀ test, test ∈ tests → triple (λ _, True) (fn test) (λ _ _, True)) as Hall.
  { intros test Hin. rewrite Hp in Hin. unfold all_tests in Hin. rewrite !elem_of_app in Hin.
    destruct Hin as [?|[?|?]]; [by apply registry_tests_pass|by apply store_tests_pass|by apply metrics_tests_pass]. }
  destruct (run_tests_tally tests {| printed := ""; passed := 0; failed := 0 |} e) as (t & e' & Hrun & Hle & _ & Hfail);
    [by apply Forall_forall|done|]. simpl in *.
  unfold run_all, io_bind. rewrite Hrun. eexists _, _, e'. split; [done|]. split.
  - case_decide; [by left|right]. split; [done|]. apply Hfail. lia.
  - intros test e1 Hin. specialize (Hall test Hin e1 I). destruct (fn test e1) as [[[]|x|u] e2]; [by left| |done].
    right. by exists x.
Qed.
End tests.

(** ** On the engine in memory *)

#[export] Instance mem_test_files : TestFiles Mem.
Proof.
  refine {| remove_file := λ path m, (tt, if decide (path = test_file) then new_mem (mem_now m) else m) |}.
  - by intros e e' [= <-] t.
  - by intros e e' [= <-] t.
  - by intros e e' [= <-].
Defined.

Lemma unit_tests_pass_witness :
  (∃ code output e',
     run_all (λ _, "what") (all_tests (D:=Mem) remove_file) (new_mem 7) = (Ok (code, output), e') ∧ code = 0) ∧
  ∀ (test : TestCase Mem) (e1 : Mem), test ∈ all_tests (D:=Mem) remove_file →
    (fn test e1).1 = Ok tt ∨ ∃ x, (fn test e1).1 = Throw x ∧ database_error x.
Proof.
  split; [|destruct (unit_tests_pass (D:=Mem) (λ _, "what") (all_tests (D:=Mem) remove_file) (new_mem 7) (Permutation_refl _))
             as (code & output & e' & _ & _ & Hall); exact Hall].
  eexists 0, _, _. split; [vm_compute; reflexivity|reflexivity].
Defined.
