(* ===== verification/Json.v ===== *)
(** * The JSON library's interface

    [nlohmann::json] is not part of the repository: its members are parameters of
    the model, and the classes of laws say what its documentation does: when its
    accessors throw, and what a printed text reads back as. A concrete stand-in serves
    the examples. *)

From S2P Require Import Prelude CppStd.
From Stdlib Require Import PrimFloat SpecFloat FloatOps.

(** [nlohmann::json]: parsing and printing, the accessors that throw on a value of
    the wrong type, and the constructors, as the control plane and the command line
    client use them. *)
Class Json (J : Type) : Type := {
  json_parse : string → outcome J;
  json_dump : J → outcome string;
  json_contains : J → string → bool;
  json_at_string : J → string → outcome string;          (* at(key).get<std::string>() *)
  json_value_int : J → string → Z → outcome Z;           (* value(key, int) *)
  json_value_long : J → string → Z → outcome Z;          (* value(key, long) *)
  json_value_double : J → string → float → outcome float;
  json_value_string : J → string → string → outcome string;
  json_value_bool : J → string → bool → outcome bool;
  json_index : J → string → J;                           (* operator[] *)
  json_empty : J → bool;
  json_elements : J → list J;                            (* range-based for *)
  json_string : string → J;
  json_integer : Z → J;
  json_double : float → J;
  json_bool : bool → J;
  json_object : list (string * J) → J;
  json_array : list J → J;
}.

(** [get<int>] and [get<long>] give values of their types. *)
Class JsonNumbers (J : Type) `{Json J} : Prop := {
  json_int_law j key d z : in_int d → json_value_int j key d = Ok z → in_int z;
  json_long_law j key d z : in_long d → json_value_long j key d = Ok z → in_long z;
}.

(** What a value is, as far as the accessors care. *)
Inductive json_kind : Type := KString | KInteger | KDouble | KBoolean | KOther.
#[export] Instance json_kind_eq_dec : EqDecision json_kind.
Proof. solve_decision. Defined.

(** The accessors, by the kind of the value that an object has for a key: [at(key)] and
    [value(key, default)] throw [type_error] for a value that the wanted type is not read
    from; a default is given for an absent key only. [get<int>] reads any number and a
    boolean, [get<long>] and [get<double>] any number; a floating value that does not fit
    an integer is cast all the same, which is undefined. *)
Class JsonKinds (J : Type) `{Json J} : Type := {
  json_kind_of : J → string → option json_kind;
  json_is_object : J → bool;
  json_contains_kind j key :
    json_contains j key = bool_decide (is_Some (json_kind_of j key));
  json_contains_object j key : json_contains j key = true → json_is_object j = true;
  json_at_kind j key :
    match json_kind_of j key with
    | Some KString => ∃ s, json_at_string j key = Ok s
    | _ => ∃ x, json_at_string j key = Throw x
    end;
  json_int_kind j key : json_is_object j = true →
    match json_kind_of j key with
    | None => ∀ d, json_value_int j key d = Ok d
    | Some (KInteger | KBoolean) => ∃ z, ∀ d, json_value_int j key d = Ok z
    | Some KDouble =>
        (∃ z, ∀ d, json_value_int j key d = Ok z) ∨ ∃ u, ∀ d, json_value_int j key d = Undefined u
    | Some _ => ∀ d, ∃ x, json_value_int j key d = Throw x
    end;
  json_long_kind j key : json_is_object j = true →
    match json_kind_of j key with
    | None => ∀ d, json_value_long j key d = Ok d
    | Some KInteger => ∃ z, ∀ d, json_value_long j key d = Ok z
    | Some KDouble =>
        (∃ z, ∀ d, json_value_long j key d = Ok z) ∨ ∃ u, ∀ d, json_value_long j key d = Undefined u
    | Some _ => ∀ d, ∃ x, json_value_long j key d = Throw x
    end;
  json_double_kind j key : json_is_object j = true →
    match json_kind_of j key with
    | None => ∀ d, json_value_double j key d = Ok d
    | Some (KInteger | KDouble) => ∃ r, ∀ d, json_value_double j key d = Ok r
    | Some _ => ∀ d, ∃ x, json_value_double j key d = Throw x
    end;
}.

(** An object of strings and numbers that was printed and parsed again reads as what it
    was built from, a double as [reread] says. (Printing fails on a string that is not
    UTF-8.) *)
Inductive field : Type := FString (s : string) | FInt (z : Z) | FReal (r : float).
Definition field_json {J} `{Json J} (f : field) : J :=
  match f with FString s => json_string s | FInt z => json_integer z | FReal r => json_double r end.
Definition field_pair {J} `{Json J} (p : string * field) : string * J := (p.1, field_json p.2).
Definition object_of {J} `{Json J} (fields : list (string * field)) : J :=
  json_object (field_pair <$> fields).

Definition reads_as {J} `{Json J} (reread : float → outcome float) (j : J) (key : string)
    (f : option field) : Prop :=
  json_contains j key = bool_decide (is_Some f) ∧
  match f with
  | Some (FString s) => json_at_string j key = Ok s
  | Some (FInt z) =>
      (in_int z → ∀ d, json_value_int j key d = Ok z) ∧
      (in_long z → ∀ d, json_value_long j key d = Ok z)
  | Some (FReal r) => ∀ d, json_value_double j key d = reread r
  | None =>
      (∀ d, json_value_int j key d = Ok d) ∧ (∀ d, json_value_long j key d = Ok d) ∧
      ∀ d, json_value_double j key d = Ok d
  end.

(** For an object of any values: [j] reads as the fields it was printed from.
    [get<int>] of an integer is a [static_cast]; what a double reads as after it was
    printed is [reread]. *)
Record reads_fields {J} `{Json J} (reread : float → outcome float) (j : J) (fields : list (string * J)) : Prop := {
  rf_at key s : (key, json_string s) ∈ fields → json_at_string j key = Ok s;
  rf_string key s d : (key, json_string s) ∈ fields → json_value_string j key d = Ok s;
  rf_int key z d : (key, json_integer z) ∈ fields → in_long z → json_value_int j key d = Ok (to_int z);
  rf_long key z d : (key, json_integer z) ∈ fields → in_long z → json_value_long j key d = Ok z;
  rf_double key r d : (key, json_double r) ∈ fields → json_value_double j key d = reread r;
  rf_bool key b d : (key, json_bool b) ∈ fields → json_value_bool j key d = Ok b;
  rf_dump key v : (key, v) ∈ fields → json_dump (json_index j key) = json_dump v;
  rf_contains key : json_contains j key = bool_decide (key ∈ fields.*1);
  rf_absent key : key ∉ fields.*1 →
    (∀ d, json_value_int j key d = Ok d) ∧ (∀ d, json_value_long j key d = Ok d) ∧
    (∀ d, json_value_double j key d = Ok d);
}.

Class JsonObjects (J : Type) `{Json J} : Type := {
  json_reread : float → outcome float;
  json_object_law (fields : list (string * J)) text :
    NoDup fields.*1 → json_dump (json_object fields) = Ok text →
    ∃ j, json_parse text = Ok j ∧ reads_fields json_reread j fields;
  json_array_law (objects : list (list (string * J))) text :
    Forall (λ fields, NoDup fields.*1) objects →
    json_dump (json_array (json_object <$> objects)) = Ok text →
    ∃ j, json_parse text = Ok j ∧ json_empty j = bool_decide (objects = []) ∧
         Forall2 (reads_fields json_reread) (json_elements j) objects;
}.

Lemma in_int_long z : in_int z → in_long z.
Proof. unfold in_int, in_long, int_min, int_max, long_min, long_max. lia. Qed.

Lemma elem_of_field_pair {J} `{Json J} (fields : list (string * field)) key f :
  list_to_map (M:=gmap string field) fields !! key = Some f → (key, field_json f) ∈ field_pair (J:=J) <$> fields.
Proof. intros Hf%elem_of_list_to_map_2. apply list_elem_of_fmap. by exists (key, f). Qed.

Lemma object_reads {J} `{Json J, !JsonObjects J} (fields : list (string * field)) text :
  NoDup fields.*1 → json_dump (object_of (J:=J) fields) = Ok text →
  ∃ j, json_parse text = Ok j ∧
       ∀ key, reads_as json_reread j key (list_to_map (M:=gmap string field) fields !! key).
Proof.
  intros Hnd Hdump.
  assert ((field_pair (J:=J) <$> fields).*1 = fields.*1) as Hkeys.
  { rewrite <-list_fmap_compose. by apply list_fmap_ext. }
  apply json_object_law in Hdump as (j & Hp & Hr); [|by rewrite Hkeys].
  exists j. split; [done|]. intros key. split.
  - rewrite (rf_contains _ _ _ Hr), Hkeys. apply bool_decide_ext.
    destruct (list_to_map fields !! key) as [f|] eqn:Hf.
    + apply elem_of_list_to_map_2 in Hf. split; [done|]. intros _. apply list_elem_of_fmap. by exists (key, f).
    + apply not_elem_of_list_to_map in Hf. split; [done|by intros []].
  - destruct (list_to_map fields !! key) as [f|] eqn:Hf.
    + apply (elem_of_field_pair (J:=J)) in Hf. destruct f as [s|z|r]; simpl in Hf.
      * by eapply rf_at.
      * split; intros Hz d; [rewrite <-(to_int_id z) by done; eapply rf_int; [done..|by apply in_int_long]|by eapply rf_long].
      * intros d. by eapply rf_double.
    + apply not_elem_of_list_to_map in Hf. apply (rf_absent _ _ _ Hr). by rewrite Hkeys.
Qed.

(** A stand-in for the JSON library: values are trees, every text but ["bad"]
    parses to one fixed deploy request, everything prints alike. *)
Inductive Tree : Type :=
  | TString (s : string)
  | TInteger (z : Z)
  | TDouble (f : float)
  | TBool (b : bool)
  | TObject (fields : list (string * Tree))
  | TArray (items : list Tree).

Definition tree_field (t : Tree) (key : string) : option Tree :=
  match t with
  | TObject fields => snd <$> head (filter (λ p, p.1 = key) fields)
  | _ => None
  end.
Definition demo_body : Tree :=
  TObject [("name", TString "hello"); ("image", TString "hello:2"); ("version", TInteger 2)].
Definition type_error {A} : outcome A := Throw (JsonError "type_error").

(** [static_cast] between [double] and the integers. *)
Definition truncated (r : float) : option Z :=
  match FloatOps.Prim2SF r with
  | S754_zero _ => Some 0
  | S754_finite sign m e => Some ((if sign then -1 else 1) * (Z.shiftl (Zpos m) e))
  | _ => None
  end.
Definition cast_integer (fits : Z → Prop) `{∀ z, Decision (fits z)} (r : float) : outcome Z :=
  match truncated r with
  | Some z => if decide (fits z) then Ok z else Undefined CastOutOfRange
  | None => Undefined CastOutOfRange
  end.
Definition float_of_integer (z : Z) : float :=
  FloatOps.SF2Prim (SpecFloat.binary_normalize FloatOps.prec FloatOps.emax z 0 false).
Definition tree_kind (t : Tree) : json_kind :=
  match t with
  | TString _ => KString
  | TInteger _ => KInteger
  | TDouble _ => KDouble
  | TBool _ => KBoolean
  | TObject _ | TArray _ => KOther
  end.

#[export] Instance tree_json : Json Tree := {|
  json_parse text := if decide (text = "bad") then Throw (JsonError "parse_error") else Ok demo_body;
  json_dump _ := Ok "{}";
  json_contains t key := bool_decide (is_Some (tree_field t key));
  json_at_string t key := match tree_field t key with Some (TString s) => Ok s | _ => type_error end;
  json_value_int t key d :=
    match tree_field t key with
    | None => Ok d
    | Some (TInteger z) => Ok (to_int z)
    | Some (TDouble r) => cast_integer in_int r
    | Some (TBool b) => Ok (if b then 1 else 0)
    | _ => type_error
    end;
  json_value_long t key d :=
    match tree_field t key with
    | None => Ok d
    | Some (TInteger z) => Ok (to_long z)
    | Some (TDouble r) => cast_integer in_long r
    | _ => type_error
    end;
  json_value_double t key d :=
    match tree_field t key with
    | None => Ok d
    | Some (TInteger z) => Ok (float_of_integer z)
    | Some (TDouble r) => Ok r
    | _ => type_error
    end;
  json_value_string t key d :=
    match tree_field t key with None => Ok d | Some (TString s) => Ok s | _ => type_error end;
  json_value_bool t key d :=
    match tree_field t key with None => Ok d | Some (TBool b) => Ok b | _ => type_error end;
  json_index t key := default (TObject []) (tree_field t key);
  json_empty t := match t with TObject [] | TArray [] => true | _ => false end;
  json_elements t := match t with TArray items => items | _ => [] end;
  json_string := TString; json_integer := TInteger; json_double := TDouble; json_bool := TBool;
  json_object := TObject; json_array := TArray;
|}.

Lemma cast_integer_fits (fits : Z → Prop) `{∀ z, Decision (fits z)} r z :
  cast_integer fits r = Ok z → fits z.
Proof. unfold cast_integer. destruct (truncated r); [|done]. case_decide; [by intros [= <-]|done]. Qed.
Lemma cast_integer_cases (fits : Z → Prop) `{∀ z, Decision (fits z)} r :
  (∃ z, cast_integer fits r = Ok z) ∨ ∃ u, cast_integer fits r = Undefined u.
Proof. unfold cast_integer. destruct (truncated r); [case_decide|]; eauto. Qed.

#[export] Instance tree_numbers : JsonNumbers Tree.
Proof.
  split; intros j key d z Hd; simpl; destruct (tree_field j key) as [[| |r|[]| |]|]; try done;
    try (by intros [= <-]); try (by apply cast_integer_fits).
  - intros [= <-]. apply to_int_range.
  - intros [= <-]. apply to_long_range.
Qed.

#[export] Instance tree_kinds : JsonKinds Tree.
Proof.
  exists (λ t key, tree_kind <$> tree_field t key)
         (λ t, match t with TObject _ => true | _ => false end); intros j key; simpl.
  - apply bool_decide_ext. by rewrite fmap_is_Some.
  - by destruct j.
  - destruct (tree_field j key) as [[]|]; simpl; by eexists.
  - intros _. destruct (tree_field j key) as [[| |r|[]| |]|]; simpl; eauto.
    destruct (cast_integer_cases in_int r) as [[x ->]|[u ->]]; eauto.
  - intros _. destruct (tree_field j key) as [[| |r|[]| |]|]; simpl; eauto.
    destruct (cast_integer_cases in_long r) as [[x ->]|[u ->]]; eauto.
  - intros _. destruct (tree_field j key) as [[]|]; simpl; eauto.
Defined.
