(* ===== verification/JsonPage.v ===== *)
(** * A JSON library of trees

    An implementation of [Json] that meets [JsonObjects], for the examples: every value
    is printed as the number that encodes it, and read back. All doubles are 0.5. *)

From S2P Require Import Prelude CppStd StringFacts Json.
From Stdlib Require Import PrimFloat.

Definition Page : Type := gen_tree (string + (Z + bool)).
#[global] Typeclasses Opaque Page.

Definition page_code (t : Page) : positive := encode (A:=gen_tree (string + (Z + bool))) t.
Definition page_of_code (p : positive) : option Page := decode (A:=gen_tree (string + (Z + bool))) p.
Lemma page_of_code_of t : page_of_code (page_code t) = Some t.
Proof. apply (decode_encode (A:=gen_tree (string + (Z + bool)))). Qed.

Definition page_string (s : string) : Page := GenLeaf (inl s).
Definition page_object (fields : list (string * Page)) : Page :=
  GenNode 1 ((λ p, GenNode 2 [page_string p.1; p.2]) <$> fields).
Definition page_member (x : Page) : option (string * Page) :=
  match x with GenNode 2 [GenLeaf (inl key); v] => Some (key, v) | _ => None end.
Fixpoint page_members (l : list Page) : list (string * Page) :=
  match l with
  | [] => []
  | x :: l => match page_member x with Some p => p :: page_members l | None => page_members l end
  end.
Definition page_fields (t : Page) : list (string * Page) :=
  match t with GenNode 1 l => page_members l | _ => [] end.
Definition page_field (t : Page) (key : string) : option Page :=
  snd <$> head (filter (λ p, p.1 = key) (page_fields t)).

Definition page_parse (text : string) : outcome Page :=
  match strto text with
  | Some (false, Zpos p) =>
      match page_of_code p with
      | Some t => Ok t
      | None => Throw (JsonError "parse_error")
      end
  | _ => Throw (JsonError "parse_error")
  end.
Definition page_value {A} (read : Page → outcome A) (t : Page) (key : string) (d : A) : outcome A :=
  match page_field t key with None => Ok d | Some v => read v end.
Definition page_text (v : Page) : outcome string :=
  match v with GenLeaf (inl s) => Ok s | _ => type_error end.
Definition page_integer (v : Page) : outcome Z :=
  match v with GenLeaf (inr (inl z)) => Ok z | _ => type_error end.

Definition page_double (v : Page) : outcome float :=
  match v with GenNode 3 [] => Ok 0.5%float | _ => type_error end.
Definition page_bool (v : Page) : outcome bool :=
  match v with GenLeaf (inr (inr b)) => Ok b | _ => type_error end.

#[export] Instance page_json : Json Page := {|
  json_parse := page_parse;
  json_dump t := Ok (to_string (Zpos (page_code t)));
  json_contains t key := bool_decide (key ∈ (page_fields t).*1);
  json_at_string t key := match page_field t key with Some v => page_text v | None => type_error end;
  json_value_int := page_value (λ v, to_int <$> page_integer v);
  json_value_long := page_value page_integer;
  json_value_double := page_value page_double;
  json_value_string := page_value page_text;
  json_value_bool := page_value page_bool;
  json_index t key := default (GenNode 3 []) (page_field t key);
  json_empty t := match t with GenNode _ [] => true | _ => false end;
  json_elements t := match t with GenNode 0 l => l | _ => [] end;
  json_string := page_string; json_integer z := GenLeaf (inr (inl z));
  json_double _ := GenNode 3 []; json_bool b := GenLeaf (inr (inr b));
  json_object := page_object; json_array l := GenNode 0 l;
|}.

Lemma page_fields_object fields : page_fields (page_object fields) = fields.
Proof. simpl. induction fields as [|[k v] fields IH]; [done|]. rewrite fmap_cons. simpl. by rewrite IH. Qed.

Lemma page_field_object fields key v :
  NoDup fields.*1 → (key, v) ∈ fields → page_field (page_object fields) key = Some v.
Proof.
  unfold page_field. rewrite page_fields_object.
  induction fields as [|[k w] fields IH]; [by intros _ ?%elem_of_nil|]. rewrite fmap_cons, filter_cons.
  intros [Hk Hnd]%NoDup_cons. rewrite elem_of_cons. simpl. intros [[= -> ->]|Hin].
  - by rewrite decide_True.
  - rewrite decide_False; [by apply IH|]. intros ->. apply Hk. apply list_elem_of_fmap. by exists (key, v).
Qed.

Lemma page_parse_dump (t : Page) : page_parse (to_string (Zpos (page_code t))) = Ok t.
Proof.
  unfold page_parse. rewrite strto_to_string.
  rewrite bool_decide_eq_false_2 by lia. cbv iota beta delta [Z.abs]. by rewrite page_of_code_of.
Qed.

Lemma page_field_absent fields key : key ∉ fields.*1 → page_field (page_object fields) key = None.
Proof.
  unfold page_field. rewrite page_fields_object.
  induction fields as [|[k w] fields IH]; [done|]. rewrite fmap_cons, filter_cons. simpl.
  intros [Hk Hn]%not_elem_of_cons. rewrite decide_False by done. by apply IH.
Qed.

Lemma page_reads fields : NoDup fields.*1 → reads_fields (λ _, Ok 0.5%float) (page_object fields) fields.
Proof.
  intros Hnd. split; cbn -[page_fields page_object]; unfold page_value; try (intros key v d Hin); try (intros key v Hin);
    try (by rewrite (page_field_object _ _ _ Hnd Hin)).
  - intros key. by rewrite page_fields_object.
  - intros key Hk. by rewrite (page_field_absent _ _ Hk).
Qed.

Lemma page_object_empty objects :
  bool_decide (objects = []) = match page_object <$> objects with [] => true | _ => false end.
Proof. by destruct objects. Qed.

#[export] Instance page_objects : JsonObjects Page.
Proof.
  exists (λ _, Ok 0.5%float).
  - intros fields text Hnd [= <-]. exists (page_object fields). split; [apply page_parse_dump|by apply page_reads].
  - intros objects text Hnd [= <-]. eexists. split; [apply page_parse_dump|]. split.
    + by destruct objects.
    + simpl. induction Hnd; [constructor|]. constructor; [by apply page_reads|done].
Defined.
