(* ===== verification/ControlPlane.v ===== *)
(** * The control plane's routes ([control-plane/src/main.cpp])

    The handlers of the HTTP API over the registry, the invocation history, the
    runtime manager and the metrics, and the route table that [main] installs. The
    JSON library is a parameter ([Json]). *)

From S2P Require Import Prelude CppStd StringFacts ContainerBackend FunctionModel Metrics Http.
From S2P Require Import HttpClient HttpServer RuntimeManager Database FunctionRegistry.
From S2P Require Import InvocationStore Json.
From Stdlib Require Import PrimFloat.

Section json.
  Context {J : Type} `{Json J}.

Definition function_to_json (fn : Function) : J :=
  json_object
    [("name", json_string (name (spec fn)));
     ("version", json_integer (version (spec fn)));
     ("image", json_string (image (spec fn)));
     ("timeout_ms", json_integer (timeout_ms (spec fn)));
     ("memory_mb", json_integer (memory_mb (spec fn)));
     ("cpu", json_double (cpu (spec fn)));
     ("max_concurrency", json_integer (max_concurrency (spec fn)));
     ("idle_timeout_ms", json_integer (idle_timeout_ms (spec fn)));
     ("status", json_string (function_status_to_string (FunctionModel.status fn)))].

(** [Response::json(status, body.dump())] *)
Definition json_response (code : Z) (body : J) : outcome Response :=
  text ← json_dump body;
  mret (response_json code text).

Definition error_response (code : Z) (message : string) : outcome Response :=
  json_response code (json_object [("error", json_string message)]).

(** [try { json::parse(text) } catch { text }] *)
Definition parse_or_text (text : string) : outcome J :=
  catch (json_parse text) (Ok (json_string text)).

(** The fields of a deploy request, in the order they are read. *)
Definition spec_of_body (platform_default_idle_timeout_ms : Z) (body : J) : outcome FunctionSpec :=
  name ← json_at_string body "name";
  image ← json_at_string body "image";
  version ← json_value_int body "version" 1;
  timeout_ms ← json_value_int body "timeout_ms" 5000;
  memory_mb ← json_value_int body "memory_mb" 256;
  cpu ← json_value_double body "cpu" 0.5%float;
  max_concurrency ← json_value_int body "max_concurrency" 1;
  idle_timeout_ms ← json_value_long body "idle_timeout_ms" platform_default_idle_timeout_ms;
  mret {| name := name; version := version; image := image; timeout_ms := timeout_ms;
          memory_mb := memory_mb; cpu := cpu; max_concurrency := max_concurrency;
          idle_timeout_ms := idle_timeout_ms |}.

(** The body of an invocation's reply, by the status of its result. *)
Definition invocation_reply (invocation_id : string) (result : InvocationResult) : outcome Response :=
  let timing := [("duration_ms", json_integer (inv_duration_ms result));
                 ("cold_start", json_bool (inv_cold_start result))] in
  if decide (inv_status result = "infra_error") then
    json_response 502 (json_object
      ([("invocation_id", json_string invocation_id); ("status", json_string "error");
        ("error", json_string (inv_output result))] ++ timing))
  else if decide (inv_status result = "timeout") then
    json_response 200 (json_object
      ([("invocation_id", json_string invocation_id); ("status", json_string "timeout");
        ("error", json_string (inv_output result))] ++ timing))
  else
    function_result ← parse_or_text (inv_output result);
    json_response 200 (json_object
      ([("invocation_id", json_string invocation_id); ("status", json_string (inv_status result));
        ("result", function_result)] ++ timing)).

Definition runtime_reply (function_name : string) (rt : option RuntimeStatus) : outcome Response :=
  match rt with
  | None => error_response 404 ("no runtime currently running for " +:+ function_name)
  | Some rt => json_response 200 (json_object
      [("state", json_string (runtime_state_to_string (rs_state rt)));
       ("container_id", json_string (rs_container_id rt));
       ("host_port", json_integer (rs_host_port rt));
       ("idle_ms", json_integer (rs_idle_ms rt))])
  end.

Definition runtimes_reply (entries : list RuntimeListEntry) : outcome Response :=
  json_response 200 (json_array ((λ rt, json_object
    [("function", json_string (re_function_name rt));
     ("state", json_string (runtime_state_to_string (re_state rt)));
     ("container_id", json_string (re_container_id rt));
     ("host_port", json_integer (re_host_port rt));
     ("idle_ms", json_integer (re_idle_ms rt))]) <$> entries)).

Definition record_reply (id : string) (record : option InvocationRecord) : outcome Response :=
  match record with
  | None => error_response 404 ("invocation not found: " +:+ id)
  | Some record =>
      output ← parse_or_text (ir_output record);
      json_response 200 (json_object
        [("id", json_string (ir_id record));
         ("function", json_string (ir_function_name record));
         ("status", json_string (ir_status record));
         ("result", output);
         ("duration_ms", json_integer (ir_duration_ms record));
         ("cold_start", json_bool (ir_cold_start record))])
  end.
End json.

Definition metrics_reply (text : string) : Response := {|
  resp_status := 200;
  resp_headers := <["Content-Type" := "text/plain; version=0.0.4"]>
                    (resp_headers (response_text 200 text));
  resp_body := text;
|}.

(** ** Environment variables *)

Definition default_idle_timeout_ms (env : option string) : Z :=
  match env with
  | None => 60000
  | Some v => match stol v with Ok ms => ms | _ => 60000 end
  end.

Inductive backend_kind : Type := KindDocker | KindKubernetes.
Definition make_runtime_backend (env : option string) : backend_kind :=
  let kind := default "docker" env in
  if decide (kind = "kubernetes" ∨ kind = "k8s") then KindKubernetes else KindDocker.

Definition listen_port (env : option string) : Z :=
  match env with Some v => atoi v | None => 8080 end.

(** ** The platform's state *)

Record Platform (D E : Type) : Type := {
  db : D;
  manager : Manager E;
  platform_default_idle_timeout_ms : Z;
}.
Arguments db {_ _} _.
Arguments manager {_ _} _.
Arguments platform_default_idle_timeout_ms {_ _} _.

Section handlers.
  Context {J : Type} `{Json J} {D : Type} `{Sqlite D}.
  Context {E : Type} `{Clock E, ContainerBackend E, Sockets E}.

Definition set_db (d : D) (p : Platform D E) : Platform D E :=
  {| db := d; manager := manager p;
     platform_default_idle_timeout_ms := platform_default_idle_timeout_ms p |}.
Definition set_manager (m : Manager E) (p : Platform D E) : Platform D E :=
  {| db := db p; manager := m;
     platform_default_idle_timeout_ms := platform_default_idle_timeout_ms p |}.

Definition on_db {A} (m : Io D A) : Io (Platform D E) A := zoom db set_db m.
Definition on_manager {A} (m : St (Manager E) A) : Io (Platform D E) A :=
  io_lift (zoom manager set_manager m).

Definition get_health (req : Request) (params : list string) : Io (Platform D E) Response :=
  io_of (json_response 200 (json_object [("status", json_string "ok")])).

Definition post_functions (req : Request) (params : list string) : Io (Platform D E) Response := λ p,
  match json_parse (req_body req) with
  | Throw _ => (error_response 400 "invalid JSON body", p)
  | Undefined u => (Undefined u, p)
  | Ok body =>
      if negb (json_contains body "name") || negb (json_contains body "image") then
        (error_response 400 "'name' and 'image' are required", p)
      else
        (spec ⇐ io_of (spec_of_body (platform_default_idle_timeout_ms p) body);
         fn ⇐ on_db (FunctionRegistry.register_function spec);
         io_of (json_response 201 (function_to_json fn))) p
  end.

Definition param (params : list string) (i : nat) : string := default "" (params !! i).

Definition not_found (params : list string) : Io (Platform D E) Response :=
  io_of (error_response 404 ("function not found: " +:+ param params 0)).

Definition get_function (req : Request) (params : list string) : Io (Platform D E) Response :=
  fn ⇐ on_db (FunctionRegistry.get (param params 0));
  match fn with
  | None => not_found params
  | Some fn => io_of (json_response 200 (function_to_json fn))
  end.

Definition delete_function (req : Request) (params : list string) : Io (Platform D E) Response :=
  removed ⇐ on_db (FunctionRegistry.remove (param params 0));
  if negb removed then not_found params
  else
    _ ⇐ on_manager (terminate (param params 0));
    io_ret (response_empty 204).

Definition post_invoke (req : Request) (params : list string) : Io (Platform D E) Response :=
  fn ⇐ on_db (FunctionRegistry.get (param params 0));
  match fn with
  | None => not_found params
  | Some fn =>
      let input := if decide (req_body req = "") then "{}" else req_body req in
      result ⇐ on_manager (invoke (spec fn) input);
      invocation_id ⇐ on_db (InvocationStore.record (param params 0) input (inv_status result)
                         (inv_output result) (inv_duration_ms result) (inv_cold_start result));
      io_of (invocation_reply invocation_id result)
  end.

Definition get_runtime (req : Request) (params : list string) : Io (Platform D E) Response :=
  fn ⇐ on_db (FunctionRegistry.get (param params 0));
  match fn with
  | None => not_found params
  | Some _ =>
      rt ⇐ on_manager (status (param params 0));
      io_of (runtime_reply (param params 0) rt)
  end.

Definition get_runtimes (req : Request) (params : list string) : Io (Platform D E) Response :=
  entries ⇐ on_manager list_runtimes;
  io_of (runtimes_reply entries).

Definition get_metrics (req : Request) (params : list string) : Io (Platform D E) Response :=
  entries ⇐ on_manager list_runtimes;
  text ⇐ on_manager (λ m, (render (Z.of_nat (length entries)) (metrics_ m), m));
  body ⇐ io_of text;
  io_ret (metrics_reply body).

Definition get_invocation (req : Request) (params : list string) : Io (Platform D E) Response :=
  record ⇐ on_db (InvocationStore.get (param params 0));
  io_of (record_reply (param params 0) record).

(** The calls of [server.route], in order. *)
Definition api_routes : list (Route (Platform D E)) :=
  route "GET" "/invocations/{id}" get_invocation (
  route "GET" "/metrics" get_metrics (
  route "GET" "/runtimes" get_runtimes (
  route "GET" "/functions/{name}/runtime" get_runtime (
  route "POST" "/functions/{name}/invoke" post_invoke (
  route "DELETE" "/functions/{name}" delete_function (
  route "GET" "/functions/{name}" get_function (
  route "POST" "/functions" post_functions (
  route "GET" "/health" get_health [])))))))).
End handlers.
