(* ===== verification/ControlPlaneFacts.v ===== *)
(** * What the API promises

    The route table as documented, and the outcome of the handlers that change
    state, on every branch. *)

From S2P Require Import Prelude CppStd StringFacts ContainerBackend FunctionModel Metrics Http.
From S2P Require Import HttpClient HttpServer RuntimeManager RuntimeInvariant SimWorld.
From S2P Require Import RuntimeCalls Database MemDatabase FunctionRegistry InvocationStore Json.
From S2P Require Import ControlPlane.
Import FunctionRegistry InvocationStore.

Section outcomes.
  Context {J : Type} `{Json J} {D : Type} `{SqliteSpec D}.
  Context {E : Type} `{Clock E, ContainerBackend E, Sockets E, BackendHistory E}.
  Implicit Types (p : Platform D E).

Lemma on_db_run {A} (c : Io D A) p : on_db c p = ((c (db p)).1, set_db (c (db p)).2 p).
Proof. unfold on_db, zoom. by destruct (c (db p)). Qed.
Lemma on_manager_run {A} (c : St (Manager E) A) p :
  on_manager c p = (Ok (c (manager p)).1, set_manager (c (manager p)).2 p).
Proof. unfold on_manager, io_lift, zoom. by destruct (c (manager p)). Qed.

Lemma json_response_status code (body : J) resp :
  json_response code body = Ok resp → resp_status resp = code.
Proof.
  unfold json_response. destruct (json_dump body); try done. by intros [= <-].
Qed.

(** The database as the stores see it. *)
Definition stored (d : D) (m : gmap string Function) (h : gmap Z InvocationRecord) : Prop :=
  represents d m ∧ holds d h.

Lemma stored_same d d' m h : same_tables d d' → stored d m h → stored d' m h.
Proof.
  intros Hs [Hm Hh]. split; [by eapply represents_same_tables|by eapply holds_same_tables].
Qed.

Lemma stored_unique d m m' h h' : stored d m h → stored d m' h' → m = m' ∧ h = h'.
Proof.
  intros [Hm Hh] [Hm' Hh']. split; [by eapply represents_unique|by eapply holds_unique].
Qed.

Lemma not_found_status params p r :
  (not_found (J:=J) params p) = (Ok r, p) → resp_status r = 404.
Proof. unfold not_found, io_of, error_response. intros [= Hr]. by eapply json_response_status. Qed.

Definition invoke_input (req : Request) : string :=
  if decide (req_body req = "") then "{}" else req_body req.

(** The database fails a handler: the statement that looks a function up, or the one after
    it that inserts the record of an invocation, throws. *)
Definition lookup_fails p (fname : string) (x : exn) : Prop :=
  (FunctionRegistry.get fname (db p)).1 = Throw x.
Definition recording_fails p (fname input : string) (result : InvocationResult) (x : exn) : Prop :=
  (InvocationStore.record fname input (inv_status result) (inv_output result) (inv_duration_ms result)
     (inv_cold_start result) (FunctionRegistry.get fname (db p)).2).1 = Throw x.

(** What an invocation request does, by the function it names. *)
Lemma post_invoke_outcome (p : Platform D E) (req : Request) (params : list string)
    (m : gmap string Function) (h : gmap Z InvocationRecord) :
  stored (db p) m h →
  let fname := param params 0 in
  let '(r, p') := post_invoke (J:=J) req params p in
  match m !! c_str fname with
  | None => manager p' = manager p ∧ stored (db p') m h ∧
            (r = error_response (J:=J) 404 ("function not found: " +:+ fname) ∨ ∃ x, r = Throw x)
  | Some f =>
      (manager p' = manager p ∧ stored (db p') m h ∧ ∃ x, r = Throw x ∧ lookup_fails p fname x) ∨
      let '(result, mgr') := invoke (spec f) (invoke_input req) (manager p) in
      manager p' = mgr' ∧
      ((stored (db p') m h ∧
        ∃ x, r = Throw x ∧ recording_fails p fname (invoke_input req) result x) ∨
       ∃ rowid now,
         in_long rowid ∧ h !! rowid = None ∧
         stored (db p') m
           (<[rowid := new_record rowid fname (invoke_input req) (inv_status result)
                         (inv_output result) (inv_duration_ms result) (inv_cold_start result) now]> h) ∧
         r = invocation_reply (to_string rowid) result)
  end.
Proof.
  intros [Hm Hh]. cbv zeta. unfold post_invoke, io_bind. rewrite on_db_run.
  pose proof (get_outcome (param params 0) m (db p) Hm) as Hg.
  pose proof (get_touches (param params 0) (db p)) as Ht.
  unfold lookup_fails, recording_fails.
  destruct (FunctionRegistry.get (param params 0) (db p)) as [[fn|x|u] d1] eqn:Hget; cbn [fst snd] in *;
    [| |done].
  - destruct Hg as [-> Hm1]. pose proof (holds_same_tables _ _ _ Ht Hh) as Hh1.
    destruct (m !! c_str (param params 0)) as [f|].
    + rewrite on_manager_run. cbn [manager set_db]. fold (invoke_input req).
      destruct (invoke (spec f) (invoke_input req) (manager p)) as [result mgr'].
      cbn [fst snd]. rewrite on_db_run. cbn [db set_manager set_db].
      match goal with |- context [record ?a ?b ?c ?d ?e ?g ?w] =>
        pose proof (record_outcome a b c d e g h w Hh1) as Hr;
        pose proof (record_touches a b c d e g w) as Hrt;
        change w with d1; destruct (record a b c d e g d1) as [[i|x|u] d2] end; cbn [fst snd] in *; [| |done];
        assert (represents d2 m) as Hm2
          by (by eapply represents_tables; [apply Hrt|]).
      * destruct Hr as (rowid & -> & Hl & Hn & _ & Hh2). right. split; [done|]. right.
        by exists rowid, (db_now d1).
      * right. split; [done|]. left. split; [done|by exists x].
    + unfold not_found, io_of. split_and!; [done|done|]. by left.
  - assert (stored d1 m h) by (by eapply stored_same).
    destruct (m !! c_str (param params 0)); [left|]; split_and!; try done;
      [by exists x|right; by exists x].
Qed.

(** [POST /functions/{name}/invoke]: an unknown function is answered 404 and
    nothing else happens; a known one is invoked with its registered spec, the
    result is recorded under a fresh id, and that id and result are the reply. If
    the database fails, the exception escapes and nothing is recorded. *)
Theorem invoke_handler_outcome (p : Platform D E) (req : Request) (params : list string)
    (m : gmap string Function) (h : gmap Z InvocationRecord) :
  stored (db p) m h →
  let fname := param params 0 in
  let '(r, p') := post_invoke (J:=J) req params p in
  match m !! c_str fname with
  | None => manager p' = manager p ∧ stored (db p') m h ∧
            ∀ resp, r = Ok resp → resp_status resp = 404
  | Some f =>
      (manager p' = manager p ∧ stored (db p') m h ∧ ∃ x, r = Throw x ∧ lookup_fails p fname x) ∨
      let '(result, mgr') := invoke (spec f) (invoke_input req) (manager p) in
      manager p' = mgr' ∧
      ((stored (db p') m h ∧
        ∃ x, r = Throw x ∧ recording_fails p fname (invoke_input req) result x) ∨
       ∃ rowid now,
         in_long rowid ∧ h !! rowid = None ∧
         stored (db p') m
           (<[rowid := new_record rowid fname (invoke_input req) (inv_status result)
                         (inv_output result) (inv_duration_ms result) (inv_cold_start result) now]> h) ∧
         r = invocation_reply (to_string rowid) result)
  end.
Proof.
  intros Hst. pose proof (post_invoke_outcome p req params m h Hst) as Ho. revert Ho. cbv zeta.
  destruct (post_invoke req params p) as [r p']. destruct (m !! c_str _); [done|].
  intros (? & ? & Hr). split_and!; [done..|]. intros resp ->.
  destruct Hr as [Hr|[x Hr]]; [|done]. symmetry in Hr. by eapply json_response_status.
Qed.

(** What [DELETE /functions/{name}] does to the two stores and the runtime manager. *)
Lemma delete_function_outcome (p : Platform D E) (req : Request) (params : list string)
    (m : gmap string Function) (h : gmap Z InvocationRecord) :
  stored (db p) m h →
  let fname := param params 0 in
  let '(r, q) := delete_function (J:=J) req params p in
  (r = Ok (response_empty 204) ∧ is_Some (m !! c_str fname) ∧
   stored (db q) (delete (c_str fname) m) h ∧ manager q = (terminate fname (manager p)).2) ∨
  (stored (db q) m h ∧ manager q = manager p ∧
   ((∃ x, r = Throw x) ∨
    m !! c_str fname = None ∧ r = error_response (J:=J) 404 ("function not found: " +:+ fname))).
Proof.
  intros [Hm Hh]. cbv zeta. unfold delete_function, io_bind. rewrite on_db_run.
  pose proof (remove_outcome (param params 0) m (db p) Hm) as Hr.
  pose proof (remove_touches (param params 0) (db p)) as Ht.
  destruct (FunctionRegistry.remove (param params 0) (db p)) as [[b|x|u] d1];
    cbn [fst snd] in *; [| |done];
    assert (holds d1 h) as Hh1 by (by eapply holds_tables; [apply Ht|apply Ht|]).
  - destruct Hr as [-> Hm1]. case_bool_decide as Hsome; cbn [negb].
    + rewrite on_manager_run. left. by split_and!.
    + assert (m !! c_str (param params 0) = None) as Hn by (by apply eq_None_not_Some).
      rewrite delete_id in Hm1 by done. right. split; [done|]. split; [done|]. right. by split.
  - right. split; [done|]. split; [done|]. left. by exists x.
Qed.

(** What it does to the containers. *)
Lemma terminate_outcome `{!BackendSpec E, !QuietWorld E} {past : Before} (fname : string) (m : Manager E) :
  lock_inv m →
  let m' := (terminate fname m).2 in
  lock_inv m' ∧ runtimes_ m' = delete fname (runtimes_ m) ∧
  ∀ rt, runtimes_ m !! fname = Some rt → rt_container_id rt ∉ live (history (world m')).
Proof.
  intros Hinv. cbv zeta. split; [by apply lock_inv_terminate|].
  unfold terminate, find_runtime. rewrite st_bind_run. cbn [fst snd].
  destruct (runtimes_ m !! fname) as [rt|] eqn:Hf; [|by split; [rewrite delete_id|]].
  pose proof (lock_inv_tracked_live _ _ _ Hinv Hf) as Hl.
  destruct (retire_run fname (rt_container_id rt) "deleted" m Hl) as (? & Hr & Hhist).
  split; [by apply retire_run|]. intros rt' [= <-]. rewrite Hhist, live_snoc. simpl. set_solver.
Qed.

(** [DELETE /functions/{name}]: 204 exactly when the function was registered, and
    then neither the registry nor the runtime manager knows it any more and its
    container is gone; otherwise 404, and nothing changes. *)
Theorem delete_handler_outcome `{!BackendSpec E, !QuietWorld E} {past : Before} (p : Platform D E) (req : Request)
    (params : list string) (m : gmap string Function) (h : gmap Z InvocationRecord) :
  stored (db p) m h → lock_inv (manager p) →
  let fname := param params 0 in
  let '(r, p') := delete_function (J:=J) req params p in
  lock_inv (manager p') ∧
  ((stored (db p') (delete (c_str fname) m) h ∧ is_Some (m !! c_str fname) ∧
    (∃ resp, r = Ok resp ∧ resp_status resp = 204) ∧
    runtimes_ (manager p') = delete fname (runtimes_ (manager p)) ∧
    (∀ rt, runtimes_ (manager p) !! fname = Some rt →
           rt_container_id rt ∉ live (history (world (manager p')))))
   ∨
   (stored (db p') m h ∧ manager p' = manager p ∧
    (m !! c_str fname = None ∨ ∃ x, r = Throw x) ∧
    ∀ resp, r = Ok resp → resp_status resp = 404)).
Proof.
  intros Hst Hinv. pose proof (delete_function_outcome p req params m h Hst) as Ho. cbv zeta in *.
  destruct (delete_function req params p) as [r q]. destruct Ho as [(-> & Hs & Hd & ->)|(Hd & -> & Hr)].
  - destruct (terminate_outcome (param params 0) (manager p) Hinv) as (Hl & Hm & Hc).
    split; [done|]. left. split_and!; [done|done|by eexists|done|done].
  - split; [done|]. right. destruct Hr as [[x ->]|[Hn ->]]; split_and!; eauto; [done|].
    intros resp Hresp. by eapply json_response_status.
Qed.

(** The reading handlers. *)
Lemma get_function_outcome (p : Platform D E) (req : Request) (params : list string)
    (m : gmap string Function) (h : gmap Z InvocationRecord) :
  stored (db p) m h →
  let fname := param params 0 in
  let '(r, q) := get_function (J:=J) req params p in
  stored (db q) m h ∧ manager q = manager p ∧
  ((∃ x, r = Throw x) ∨
   r = match m !! c_str fname with
       | Some f => json_response 200 (function_to_json (J:=J) f)
       | None => error_response (J:=J) 404 ("function not found: " +:+ fname)
       end).
Proof.
  intros [Hm Hh]. cbv zeta. unfold get_function, io_bind. rewrite on_db_run.
  pose proof (get_outcome (param params 0) m (db p) Hm) as Hg.
  pose proof (get_touches (param params 0) (db p)) as Ht.
  destruct (FunctionRegistry.get (param params 0) (db p)) as [[fn|x|u] d1]; cbn [fst snd] in *; [| |done];
    pose proof (holds_same_tables _ _ _ Ht Hh) as Hh1.
  - destruct Hg as [-> Hm1].
    destruct (m !! c_str (param params 0)); (split; [done|]; split; [done|]; by right).
  - split; [done|]. split; [done|]. left. by exists x.
Qed.

Lemma get_invocation_outcome (p : Platform D E) (req : Request) (params : list string)
    (m : gmap string Function) (h : gmap Z InvocationRecord) :
  stored (db p) m h →
  let id := param params 0 in
  let '(r, q) := get_invocation (J:=J) req params p in
  stored (db q) m h ∧ manager q = manager p ∧
  ((∃ x, r = Throw x) ∨ r = record_reply (J:=J) id (named_record h id)).
Proof.
  intros Hst. cbv zeta. unfold get_invocation, io_bind. rewrite on_db_run.
  pose proof (get_record_outcome (param params 0) h (db p) (proj2 Hst)) as Hg.
  pose proof (stored_same _ _ m h (get_record_touches (param params 0) (db p)) Hst) as Ht.
  destruct (InvocationStore.get (param params 0) (db p)) as [[r|x|u] d1]; cbn [fst snd] in *; [| |done].
  - subst r. split; [done|]. split; [done|]. by right.
  - split; [done|]. split; [done|]. left. by exists x.
Qed.

(** *** The body of a deploy request *)

(** The fields are strings, numbers or - where [get<int>] reads them - booleans. *)
Definition int_read (k : option json_kind) : Prop :=
  k ∈ [None; Some KInteger; Some KDouble; Some KBoolean].
Definition number_read (k : option json_kind) : Prop := k ∈ [None; Some KInteger; Some KDouble].

Section bodies.
  Context `{!JsonKinds J, !JsonNumbers J}.

Definition well_typed (body : J) : Prop :=
  json_kind_of body "name" = Some KString ∧ json_kind_of body "image" = Some KString ∧
  int_read (json_kind_of body "version") ∧ int_read (json_kind_of body "timeout_ms") ∧
  int_read (json_kind_of body "memory_mb") ∧ number_read (json_kind_of body "cpu") ∧
  int_read (json_kind_of body "max_concurrency") ∧ number_read (json_kind_of body "idle_timeout_ms").

(** A floating value where an integer is read, which need not fit. *)
Definition coarse (body : J) : Prop :=
  ∃ key, key ∈ ["version"; "timeout_ms"; "memory_mb"; "max_concurrency"; "idle_timeout_ms"] ∧
         json_kind_of body key = Some KDouble.

(** What is read of a field: its value, or the default if it is absent. *)
Definition reads_or {A} (read : J → string → A → outcome A) (body : J) (key : string) (default_value x : A) : Prop :=
  if json_contains body key then ∀ d, read body key d = Ok x else x = default_value.

(** The spec that a body describes, with the documented defaults. *)
Record described (default_idle_ms : Z) (body : J) (s : FunctionSpec) : Prop := {
  de_name : json_at_string body "name" = Ok (name s);
  de_image : json_at_string body "image" = Ok (image s);
  de_version : reads_or json_value_int body "version" 1 (version s);
  de_timeout : reads_or json_value_int body "timeout_ms" 5000 (timeout_ms s);
  de_memory : reads_or json_value_int body "memory_mb" 256 (memory_mb s);
  de_cpu : reads_or json_value_double body "cpu" 0.5%float (cpu s);
  de_concurrency : reads_or json_value_int body "max_concurrency" 1 (max_concurrency s);
  de_idle : reads_or json_value_long body "idle_timeout_ms" default_idle_ms (idle_timeout_ms s);
}.

Lemma at_string_read body key :
  match json_at_string body key with
  | Ok _ => json_kind_of body key = Some KString
  | Throw _ => json_kind_of body key ≠ Some KString
  | Undefined _ => False
  end.
Proof.
  pose proof (json_at_kind body key) as Hk.
  destruct (json_kind_of body key) as [[]|]; destruct Hk as [x ->]; done.
Qed.

Lemma int_field_typed body key d :
  json_is_object body = true →
  match json_value_int body key d with
  | Ok z => int_read (json_kind_of body key) ∧ reads_or json_value_int body key d z
  | Throw _ => ¬ int_read (json_kind_of body key)
  | Undefined _ => json_kind_of body key = Some KDouble
  end.
Proof.
  intros Hobj. pose proof (json_int_kind body key Hobj) as Hk. unfold reads_or, int_read.
  rewrite json_contains_kind. destruct (json_kind_of body key) as [[]|]; simpl.
  - destruct (Hk d) as [x ->]. set_solver.
  - destruct Hk as [z Hz]. rewrite Hz. split; [set_solver|done].
  - destruct Hk as [[z Hz]|[u Hu]]; [rewrite Hz; split; [set_solver|done]|by rewrite Hu].
  - destruct Hk as [z Hz]. rewrite Hz. split; [set_solver|done].
  - destruct (Hk d) as [x ->]. set_solver.
  - rewrite Hk. split; [set_solver|done].
Qed.

Lemma long_field_typed body key d :
  json_is_object body = true →
  match json_value_long body key d with
  | Ok z => number_read (json_kind_of body key) ∧ reads_or json_value_long body key d z
  | Throw _ => ¬ number_read (json_kind_of body key)
  | Undefined _ => json_kind_of body key = Some KDouble
  end.
Proof.
  intros Hobj. pose proof (json_long_kind body key Hobj) as Hk. unfold reads_or, number_read.
  rewrite json_contains_kind. destruct (json_kind_of body key) as [[]|]; simpl.
  - destruct (Hk d) as [x ->]. set_solver.
  - destruct Hk as [z Hz]. rewrite Hz. split; [set_solver|done].
  - destruct Hk as [[z Hz]|[u Hu]]; [rewrite Hz; split; [set_solver|done]|by rewrite Hu].
  - destruct (Hk d) as [x ->]. set_solver.
  - destruct (Hk d) as [x ->]. set_solver.
  - rewrite Hk. split; [set_solver|done].
Qed.

Lemma double_field_typed body key d :
  json_is_object body = true →
  match json_value_double body key d with
  | Ok r => number_read (json_kind_of body key) ∧ reads_or json_value_double body key d r
  | Throw _ => ¬ number_read (json_kind_of body key)
  | Undefined _ => False
  end.
Proof.
  intros Hobj. pose proof (json_double_kind body key Hobj) as Hk. unfold reads_or, number_read.
  rewrite json_contains_kind. destruct (json_kind_of body key) as [[]|]; simpl.
  - destruct (Hk d) as [x ->]. set_solver.
  - destruct Hk as [r Hr]. rewrite Hr. split; [set_solver|done].
  - destruct Hk as [r Hr]. rewrite Hr. split; [set_solver|done].
  - destruct (Hk d) as [x ->]. set_solver.
  - destruct (Hk d) as [x ->]. set_solver.
  - rewrite Hk. split; [set_solver|done].
Qed.

Lemma coarse_at key body :
  key ∈ ["version"; "timeout_ms"; "memory_mb"; "max_concurrency"; "idle_timeout_ms"] →
  json_kind_of body key = Some KDouble → coarse body.
Proof. intros Hkey Hk. by exists key. Qed.
Ltac one_of_the_fields := apply (bool_decide_unpack _); vm_compute; exact I.

(** Reading the fields succeeds for a well-typed body only, and then gives the spec it
    describes; otherwise it throws, unless a cast came first that is undefined. *)
Lemma spec_of_body_typed default_idle_ms body :
  json_contains body "name" = true →
  match spec_of_body default_idle_ms body with
  | Ok s => well_typed body ∧ described default_idle_ms body s
  | Throw _ => ¬ well_typed body
  | Undefined _ => coarse body
  end.
Proof.
  intros Hobj%json_contains_object. unfold spec_of_body, well_typed.
  pose proof (at_string_read body "name") as Hn.
  destruct (json_at_string body "name") eqn:En; simpl; [|tauto|done].
  pose proof (at_string_read body "image") as Hi.
  destruct (json_at_string body "image") eqn:Ei; simpl; [|tauto|done].
  pose proof (int_field_typed body "version" 1 Hobj) as Hv.
  destruct (json_value_int body "version" 1); simpl; [|tauto|by apply (coarse_at "version"); [one_of_the_fields|]].
  pose proof (int_field_typed body "timeout_ms" 5000 Hobj) as Ht.
  destruct (json_value_int body "timeout_ms" 5000); simpl; [|tauto|by apply (coarse_at "timeout_ms"); [one_of_the_fields|]].
  pose proof (int_field_typed body "memory_mb" 256 Hobj) as Hm.
  destruct (json_value_int body "memory_mb" 256); simpl; [|tauto|by apply (coarse_at "memory_mb"); [one_of_the_fields|]].
  pose proof (double_field_typed body "cpu" 0.5%float Hobj) as Hc.
  destruct (json_value_double body "cpu" 0.5%float); simpl; [|tauto|done].
  pose proof (int_field_typed body "max_concurrency" 1 Hobj) as Hx.
  destruct (json_value_int body "max_concurrency" 1); simpl; [|tauto|by apply (coarse_at "max_concurrency"); [one_of_the_fields|]].
  pose proof (long_field_typed body "idle_timeout_ms" default_idle_ms Hobj) as Hd.
  destruct (json_value_long body "idle_timeout_ms" default_idle_ms); simpl;
    [|tauto|by apply (coarse_at "idle_timeout_ms"); [one_of_the_fields|]].
  split; [tauto|]. by split; simpl; try tauto.
Qed.

Lemma spec_of_body_range default_idle_ms body s :
  in_long default_idle_ms → spec_of_body default_idle_ms body = Ok s → spec_in_range s.
Proof.
  intros Hd. unfold spec_of_body.
  destruct (json_at_string body "name"), (json_at_string body "image"); try done. simpl.
  destruct (json_value_int body "version" 1) eqn:?; try done. simpl.
  destruct (json_value_int body "timeout_ms" 5000) eqn:?; try done. simpl.
  destruct (json_value_int body "memory_mb" 256) eqn:?; try done. simpl.
  destruct (json_value_double body "cpu" _); try done. simpl.
  destruct (json_value_int body "max_concurrency" 1) eqn:?; try done. simpl.
  destruct (json_value_long body "idle_timeout_ms" _) eqn:?; try done. simpl.
  intros [= <-]. split_and!; simpl;
    first [eapply json_int_law; [|done]; by vm_compute|by eapply json_long_law].
Qed.

(** C25: [POST /functions]: a body that does not parse or lacks a required field is a
    400 and changes nothing. A field of the wrong type is an exception that escapes, with
    nothing changed (unless a floating value was cast to an integer before it was
    reached, which is undefined if it does not fit). Otherwise the spec is registered
    under its name, replacing what was there, and the reply is the stored function: each
    field as the body has it or, where it has none, version 1, timeout 5000 ms, memory
    256 MB, CPU 0.5, concurrency 1 and the platform's idle timeout; it fails only as the
    database does, or if the stored function cannot be printed. *)
Theorem deploy_handler_outcome (p : Platform D E) (req : Request) (params : list string)
    (m : gmap string Function) (h : gmap Z InvocationRecord) :
  stored (db p) m h → in_long (platform_default_idle_timeout_ms p) →
  let '(r, p') := post_functions (J:=J) req params p in
  manager p' = manager p ∧
  match json_parse (req_body req) with
  | Throw _ => r = error_response (J:=J) 400 "invalid JSON body" ∧ p' = p
  | Undefined u => r = Undefined u ∧ p' = p
  | Ok body =>
      if json_contains body "name" && json_contains body "image" then
        (¬ well_typed body ∧ p' = p ∧ ∃ x, r = Throw x) ∨
        (coarse body ∧ p' = p ∧ ∃ u, r = Undefined u) ∨
        (well_typed body ∧ ∃ s, described (platform_default_idle_timeout_ms p) body s ∧
           let fn := new_function s (db_now (db p)) in
           let m' := <[c_str (name s) := fn]> m in
           (stored (db p') m' h ∧ r = json_response 201 (function_to_json (J:=J) fn)) ∨
           (∃ x, (FunctionRegistry.register_function s (db p)).1 = Throw x ∧ r = Throw x ∧
                 (stored (db p') m h ∨ stored (db p') m' h)))
      else r = error_response (J:=J) 400 "'name' and 'image' are required" ∧ p' = p
  end.
Proof.
  intros [Hm Hh] Hdef. unfold post_functions.
  destruct (json_parse (req_body req)) as [body|x|u]; [|done..].
  destruct (json_contains body "name") eqn:Hn, (json_contains body "image"); try done. cbn [negb orb andb].
  pose proof (spec_of_body_typed (platform_default_idle_timeout_ms p) body Hn) as Hb.
  unfold io_bind, io_of.
  destruct (spec_of_body (platform_default_idle_timeout_ms p) body) as [s|x|u] eqn:Hs.
  - rewrite on_db_run. destruct Hb as [Hwt Hd].
    pose proof (register_outcome s m (db p) Hm) as Hr. cbv zeta in Hr.
    pose proof (register_touches s (db p)) as Ht.
    specialize (Hr (spec_of_body_range _ _ _ Hdef Hs)).
    destruct (FunctionRegistry.register_function s (db p)) as [[fn|x|u] d1] eqn:Hreg; cbn [fst snd] in *;
      (split; [done|]); right; right; (split; [done|]); exists s; (split; [done|]); [| |done].
    + destruct Hr as [-> Hm']. left. split; [|done].
      split; [done|]. by eapply holds_tables; [apply Ht|apply Ht|].
    + assert (holds d1 h) as Hh1 by (by eapply holds_tables; [apply Ht|apply Ht|]).
      right. exists x. split; [by rewrite Hreg|].
      split; [done|]. destruct Hr as [Hm'|Hm']; [left|right]; by split.
  - split; [done|]. left. split_and!; [done..|by exists x].
  - split; [done|]. right. left. split_and!; [done..|by exists u].
Qed.
End bodies.

(** The route table is the documented one: each endpoint's method and path reach
    its handler, with the path's free segment as the parameter. *)
Theorem api_routes_dispatch (x body : string) (headers : gmap string string) :
  segment_ok x →
  let req method path :=
    {| req_method := method; req_path := path; req_headers := headers; req_body := body |} in
  let go method path : Io (Platform D E) Response :=
    dispatch (api_routes (J:=J)) (req method path) (split_path path) false in
  go "GET" "/health" = get_health (J:=J) (req "GET" "/health") [] ∧
  go "POST" "/functions" = post_functions (J:=J) (req "POST" "/functions") [] ∧
  go "GET" ("/functions/" +:+ x) = get_function (J:=J) (req "GET" ("/functions/" +:+ x)) [x] ∧
  go "DELETE" ("/functions/" +:+ x)
  = delete_function (J:=J) (req "DELETE" ("/functions/" +:+ x)) [x] ∧
  go "POST" ("/functions/" +:+ x +:+ "/invoke")
  = post_invoke (J:=J) (req "POST" ("/functions/" +:+ x +:+ "/invoke")) [x] ∧
  go "GET" ("/functions/" +:+ x +:+ "/runtime")
  = get_runtime (J:=J) (req "GET" ("/functions/" +:+ x +:+ "/runtime")) [x] ∧
  go "GET" "/runtimes" = get_runtimes (J:=J) (req "GET" "/runtimes") [] ∧
  go "GET" "/metrics" = get_metrics (req "GET" "/metrics") [] ∧
  go "GET" ("/invocations/" +:+ x)
  = get_invocation (J:=J) (req "GET" ("/invocations/" +:+ x)) [x].
Proof.
  intros Hx req go.
  assert (∀ pre, segment_ok pre → split_path ("/" +:+ pre +:+ "/" +:+ x) = [pre; x]) as Htwo.
  { intros pre Hpre. rewrite <-(split_path_segments [pre; x]) by (by repeat apply Forall_cons_2).
    f_equal. unfold join_path. simpl. by rewrite app_empty_r. }
  assert (∀ post, segment_ok post →
            split_path ("/functions/" +:+ x +:+ "/" +:+ post) = ["functions"; x; post]) as Hthree.
  { intros post Hpost. rewrite <-(split_path_segments ["functions"; x; post])
      by (by repeat apply Forall_cons_2).
    f_equal. unfold join_path. simpl. by rewrite app_empty_r. }
  assert (split_path ("/functions/" +:+ x) = ["functions"; x]) as Hf by (by apply (Htwo "functions")).
  assert (split_path ("/invocations/" +:+ x) = ["invocations"; x]) as Hi
    by (by apply (Htwo "invocations")).
  assert (split_path ("/functions/" +:+ x +:+ "/invoke") = ["functions"; x; "invoke"]) as Hv
    by (by apply (Hthree "invoke")).
  assert (split_path ("/functions/" +:+ x +:+ "/runtime") = ["functions"; x; "runtime"]) as Hr
    by (by apply (Hthree "runtime")).
  unfold go. rewrite Hf, Hi, Hv, Hr. by split_and!.
Qed.
End outcomes.

(** ** The hypotheses can be met *)

Definition demo_tables : Mem := (open_store demo_db).2.
Definition demo_platform : Platform Mem Sim := {|
  db := (register_function hello_spec demo_tables).2;
  manager := new_platform [reply_ok; reply_ok];
  platform_default_idle_timeout_ms := 60000;
|}.
Definition demo_request (body : string) : Request :=
  {| req_method := ""; req_path := ""; req_headers := ∅; req_body := body |}.
Definition demo_registry : gmap string Function := {["hello" := new_function hello_spec 7]}.

#[local] Existing Instance sim_before.
Lemma demo_stored : stored (db demo_platform) demo_registry ∅.
Proof.
  assert (represents demo_tables ∅) as Hempty by (split; [by vm_compute|by intros n f]).
  split; [|split; [intros z; by vm_compute|done]].
  pose proof (register_outcome hello_spec ∅ demo_tables Hempty hello_in_range) as Hr. cbv zeta in Hr.
  unfold demo_platform. cbn [db].
  destruct (register_function hello_spec demo_tables) as [[f|x|u] d] eqn:He; [apply Hr| |done].
  apply (f_equal fst) in He. vm_compute in He. discriminate.
Qed.

Lemma invoke_handler_outcome_witness :
  let '(r, p') := post_invoke (J:=Tree) (demo_request "") ["hello"] demo_platform in
  resp_status <$> r = Ok 200 ∧
  ∃ h, stored (db p') demo_registry h.
Proof.
  pose proof (invoke_handler_outcome (J:=Tree) demo_platform (demo_request "") ["hello"]
                demo_registry ∅ demo_stored) as Ho. cbv zeta in Ho.
  destruct (post_invoke (demo_request "") ["hello"] demo_platform) as [r p'] eqn:Hr.
  assert (resp_status <$> r = Ok 200) as Hst
    by (apply (f_equal fst) in Hr; vm_compute in Hr; by rewrite <-Hr).
  split; [done|]. change (demo_registry !! c_str (param ["hello"] 0))
    with (Some (new_function hello_spec 7)) in Ho.
  destruct Ho as [(_ & Hs & _)|Ho]; [by exists ∅|].
  destruct (invoke _ _ _) as [result mgr']. destruct Ho as [_ [[Hs _]|(z & now & _ & _ & Hs & _)]];
    by eexists.
Defined.

Lemma delete_handler_outcome_witness :
  ∃ p', delete_function (J:=Tree) (demo_request "") ["hello"] demo_platform
        = (Ok (response_empty 204), p') ∧ lock_inv (manager p') ∧ stored (db p') ∅ ∅.
Proof.
  pose proof (delete_handler_outcome (J:=Tree) demo_platform (demo_request "") ["hello"]
                demo_registry ∅ demo_stored (lock_inv_new _ eq_refl ledger_ok_nil)) as Ho. cbv zeta in Ho.
  destruct (delete_function (demo_request "") ["hello"] demo_platform) as [r p'] eqn:Hr.
  assert (r = Ok (response_empty 204)) as ->
    by (apply (f_equal fst) in Hr; vm_compute in Hr; by rewrite <-Hr).
  exists p'. destruct Ho as [Hinv Ho]. split_and!; [done|done|].
  destruct Ho as [(Hs & _)|(_ & _ & _ & Hc)].
  - replace (∅ : gmap string Function) with (delete (c_str (param ["hello"] 0)) demo_registry)
      by (unfold demo_registry; apply delete_singleton_eq). exact Hs.
  - by specialize (Hc _ eq_refl).
Defined.

Lemma deploy_handler_outcome_witness :
  (let '(r, p') := post_functions (J:=Tree) (demo_request "bad") [] demo_platform in
   r = error_response (J:=Tree) 400 "invalid JSON body" ∧ p' = demo_platform) ∧
  ∃ s m', stored (db (post_functions (J:=Tree) (demo_request "{}") [] demo_platform).2) m' ∅ ∧
    m' !! "hello" = Some (new_function s (db_now (db demo_platform))) ∧
    version s = 2 ∧ timeout_ms s = 5000 ∧ idle_timeout_ms s = 60000.
Proof.
  assert (in_long 60000) as Hdef by (by split). split.
  - pose proof (deploy_handler_outcome (J:=Tree) demo_platform (demo_request "bad") []
                  demo_registry ∅ demo_stored Hdef) as Ho.
    destruct (post_functions (demo_request "bad") [] demo_platform) as [r p'].
    by destruct Ho as [_ Ho].
  - pose proof (deploy_handler_outcome (J:=Tree) demo_platform (demo_request "{}") []
                  demo_registry ∅ demo_stored Hdef) as Ho.
    destruct (post_functions (demo_request "{}") [] demo_platform) as [r p'] eqn:Hr.
    assert (resp_status <$> r = Ok 201) as Hok by (apply (f_equal fst) in Hr; vm_compute in Hr; by rewrite <-Hr).
    destruct Ho as [_ [(_ & _ & x & ->)|[(_ & _ & u & ->)|(_ & s & Hd & Ho)]]]; [done|done|].
    destruct Hd as [Hn _ Hv Ht _ _ _ Hi].
    specialize (Hv 0). change (Ok 2 = Ok (version s)) in Hv. change (timeout_ms s = 5000) in Ht.
    change (idle_timeout_ms s = 60000) in Hi. change (Ok "hello" = Ok (name s)) in Hn.
    destruct Ho as [[Hst _]|(x & _ & -> & _)]; [|done]. exists s. eexists. split; [exact Hst|].
    split_and!; [|congruence|done|done]. injection Hn as <-. apply lookup_insert_eq.
Defined.

Lemma api_routes_dispatch_witness :
  dispatch (api_routes (J:=Tree) (D:=Mem) (E:=Sim))
    {| req_method := "GET"; req_path := "/functions/hello"; req_headers := ∅; req_body := "" |}
    (split_path "/functions/hello") false
  = get_function (J:=Tree)
      {| req_method := "GET"; req_path := "/functions/hello"; req_headers := ∅; req_body := "" |}
      ["hello"].
Proof.
  assert (segment_ok "hello") as Hx by done.
  apply (api_routes_dispatch (J:=Tree) (D:=Mem) (E:=Sim) "hello" "" ∅ Hx).
Defined.
