(* ===== verification/PlatformRuns.v ===== *)
(** * The control plane under concurrency

    Request threads in the handlers of [control-plane/src/main.cpp], interleaved
    with each other and with the reaper: every step is one use of the database (a
    [Statement] holds its mutex), one critical section of the runtime manager, the
    arrival of a request, or the rest of the world moving on. The manager's own
    steps are those of [RuntimeConcurrency]; a request thread and the call it makes
    share their name. *)

From S2P Require Import Prelude CppStd StringFacts ContainerBackend FunctionModel Metrics Http.
From S2P Require Import HttpClient HttpServer RuntimeManager RuntimeInvariant RuntimeCalls.
From S2P Require Import RuntimeConcurrency RuntimePool Database FunctionRegistry InvocationStore.
From S2P Require Import Json ControlPlane ControlPlaneFacts.
Import FunctionRegistry InvocationStore.

(** The requests the API offers. *)
Inductive ApiCall : Type :=
  | Deploy (body : string)                     (* POST /functions *)
  | Remove (function_name : string)            (* DELETE /functions/{name} *)
  | Invoke (function_name body : string)       (* POST /functions/{name}/invoke *)
  | Health                                     (* GET /health *)
  | Describe (function_name : string)          (* GET /functions/{name} *)
  | RuntimeOf (function_name : string)         (* GET /functions/{name}/runtime *)
  | ListRuntimes                               (* GET /runtimes *)
  | Scrape                                     (* GET /metrics *)
  | InvocationOf (invocation_id : string).     (* GET /invocations/{id} *)

(** Where a request thread stands: about to ... *)
Inductive Handler : Type :=
  | Deploying (spec : FunctionSpec)                   (* insert the row *)
  | ReadingBack (spec : FunctionSpec)                 (* read it back *)
  | Removing (function_name : string)                 (* delete the row *)
  | Terminating (function_name : string)              (* call terminate *)
  | LookingUp (function_name input : string)          (* read the row *)
  | Found (function_name input : string) (spec : FunctionSpec)   (* call invoke *)
  | Invoking (function_name input : string)           (* (inside invoke) *)
  | Recording (function_name input : string) (result : InvocationResult) (* insert the record *)
  | Describing (function_name : string)               (* read the row *)
  | Checking (function_name : string)                 (* read the row, for its runtime *)
  | Asking (function_name : string)                   (* call status *)
  | Listing                                           (* call list_runtimes *)
  | Counting                                          (* call list_runtimes, for the gauge *)
  | Rendering (active_runtimes : Z)                   (* call metrics.render *)
  | Finding (invocation_id : string)                  (* read the record *)
  | Answered (reply : outcome Response).

(** An exception leaves the handler. *)
Definition settled (r : outcome Handler) : Handler :=
  match r with
  | Ok h => h
  | Throw x => Answered (Throw x)
  | Undefined u => Answered (Undefined u)
  end.

Record Plat (D E : Type) : Type := {
  sys : Sys E;
  store : D;
  handlers : gmap nat Handler;
}.
Arguments sys {_ _} _.
Arguments store {_ _} _.
Arguments handlers {_ _} _.

Inductive plabel : Type :=
  | PArrive (t : nat) (c : ApiCall)
  | POwn (t : nat)
  | PReap
  | PWorld.

Section requests.
  Context {J : Type} `{Json J} {D : Type} `{Sqlite D}.
  Context (default_idle_ms : Z).

Definition missing (function_name : string) : Handler :=
  Answered (error_response (J:=J) 404 ("function not found: " +:+ function_name)).

(** What a thread does before it first touches shared state. *)
Definition received (c : ApiCall) : Handler :=
  match c with
  | Deploy text =>
      match json_parse (J:=J) text with
      | Throw _ => Answered (error_response (J:=J) 400 "invalid JSON body")
      | Undefined u => Answered (Undefined u)
      | Ok body =>
          if negb (json_contains body "name") || negb (json_contains body "image") then
            Answered (error_response (J:=J) 400 "'name' and 'image' are required")
          else settled (Deploying <$> spec_of_body default_idle_ms body)
      end
  | Remove function_name => Removing function_name
  | Invoke function_name body =>
      LookingUp function_name (if decide (body = "") then "{}" else body)
  | Health => Answered (json_response (J:=J) 200 (json_object [("status", json_string "ok")]))
  | Describe function_name => Describing function_name
  | RuntimeOf function_name => Checking function_name
  | ListRuntimes => Listing
  | Scrape => Counting
  | InvocationOf invocation_id => Finding invocation_id
  end.

(** The next use of the database, if that is what comes next. *)
Definition store_move (h : Handler) : option (Io D Handler) :=
  match h with
  | Deploying spec => Some (_ ⇐ upsert_function spec; io_ret (ReadingBack spec))
  | ReadingBack spec =>
      Some (fn ⇐ read_back spec;
            io_ret (Answered (json_response 201 (function_to_json (J:=J) fn))))
  | Removing function_name =>
      Some (removed ⇐ FunctionRegistry.remove function_name;
            io_ret (if (removed : bool) then Terminating function_name
                    else missing function_name))
  | LookingUp function_name input =>
      Some (fn ⇐ FunctionRegistry.get function_name;
            io_ret (match fn with
                    | Some fn => Found function_name input (spec fn)
                    | None => missing function_name
                    end))
  | Recording function_name input result =>
      Some (invocation_id ⇐ InvocationStore.record function_name input (inv_status result)
                              (inv_output result) (inv_duration_ms result)
                              (inv_cold_start result);
            io_ret (Answered (invocation_reply (J:=J) invocation_id result)))
  | Describing function_name =>
      Some (fn ⇐ FunctionRegistry.get function_name;
            io_ret (match fn with
                    | Some fn => Answered (json_response 200 (function_to_json (J:=J) fn))
                    | None => missing function_name
                    end))
  | Checking function_name =>
      Some (fn ⇐ FunctionRegistry.get function_name;
            io_ret (match fn with
                    | Some _ => Asking function_name
                    | None => missing function_name
                    end))
  | Finding invocation_id =>
      Some (record ⇐ InvocationStore.get invocation_id;
            io_ret (Answered (record_reply (J:=J) invocation_id record)))
  | Terminating _ | Found _ _ _ | Invoking _ _ | Answered _
  | Asking _ | Listing | Counting | Rendering _ => None
  end.

(** The next question to the runtime manager or its metrics, if that is what comes
    next. *)
Definition manager_move {E} `{Clock E} (h : Handler) : option (St (Manager E) Handler) :=
  match h with
  | Asking function_name =>
      Some (rt ← status function_name;
            mret (Answered (runtime_reply (J:=J) function_name rt)))
  | Listing =>
      Some (entries ← list_runtimes; mret (Answered (runtimes_reply (J:=J) entries)))
  | Counting =>
      Some (entries ← list_runtimes; mret (Rendering (Z.of_nat (length entries))))
  | Rendering active_runtimes =>
      Some (λ m, (Answered (metrics_reply <$> render active_runtimes (metrics_ m)), m))
  | _ => None
  end.
End requests.

(** [invoke] returns when it records its result. *)
Definition after_call (function_name input : string) (c : option Call) : Handler :=
  match c with
  | Some (Finished result) => Recording function_name input result
  | _ => Invoking function_name input
  end.

Section system.
  Context {J : Type} `{Json J} {D : Type} `{Sqlite D, SqliteView D}.
  Context {E : Type} `{Clock E, ContainerBackend E, Sockets E, BackendHistory E}.
  Context (default_idle_ms : Z).
  Implicit Types p : Plat D E.

Definition pstart (d : D) (e : E) : Plat D E :=
  {| sys := start_of e; store := d; handlers := ∅ |}.

Definition with_sys (s : Sys E) p : Plat D E :=
  {| sys := s; store := store p; handlers := handlers p |}.
Definition with_store (d : D) p : Plat D E :=
  {| sys := sys p; store := d; handlers := handlers p |}.
Definition with_handler (t : nat) (h : Handler) p : Plat D E :=
  {| sys := sys p; store := store p; handlers := <[t := h]> (handlers p) |}.

(** No exception has left a handler: that would have ended the process. *)
Definition alive p : Prop :=
  ∀ t r, handlers p !! t = Some (Answered r) → ∃ resp, r = Ok resp.

Inductive pstep p : plabel → Plat D E → Prop :=
  | p_arrive t c :
      handlers p !! t = None →
      pstep p (PArrive t c) (with_handler t (received (J:=J) default_idle_ms c) p)
  | p_store t h c :
      handlers p !! t = Some h → store_move (J:=J) h = Some c →
      pstep p (POwn t) (with_handler t (settled (c (store p)).1) (with_store (c (store p)).2 p))
  | p_start t function_name input spec s' :
      handlers p !! t = Some (Found function_name input spec) →
      s' = with_call t (Ready spec false) (sys p) → calls (sys p) !! t = None →
      pstep p (POwn t) (with_handler t (Invoking function_name input) (with_sys s' p))
  | p_call t function_name input s' :
      handlers p !! t = Some (Invoking function_name input) → step (sys p) (Own t) s' →
      pstep p (POwn t)
        (with_handler t (after_call function_name input (calls (sys p) !! t)) (with_sys s' p))
  | p_terminate t function_name s' :
      handlers p !! t = Some (Terminating function_name) →
      step (sys p) (Delete function_name) s' →
      pstep p (POwn t) (with_handler t (Answered (Ok (response_empty 204))) (with_sys s' p))
  | p_ask t h (c : St (Manager E) Handler) :
      handlers p !! t = Some h → manager_move (J:=J) h = Some c →
      pstep p (POwn t)
        (with_handler t (c (mgr (sys p))).1 (with_sys (with_mgr (c (mgr (sys p))).2 (sys p)) p))
  | p_reap s' :
      step (sys p) Reap s' → pstep p PReap (with_sys s' p)
  | p_world s' d :
      step (sys p) World s' → same_tables (store p) d →
      pstep p PWorld (with_store d (with_sys s' p)).

(** A process that an exception ended takes no more steps. *)
Inductive prun p : list plabel → Plat D E → Prop :=
  | prun_nil : prun p [] p
  | prun_snoc tr l p1 p2 : prun p tr p1 → alive p1 → pstep p1 l p2 → prun p (tr ++ [l]) p2.

Lemma prun_one p l p' : alive p → pstep p l p' → prun p [l] p'.
Proof. intros Hal Hs. apply (prun_snoc p [] l p p'); [constructor|done..]. Qed.
Lemma prun_app p tr p1 tr' p2 : prun p tr p1 → prun p1 tr' p2 → prun p (tr ++ tr') p2.
Proof.
  intros Hr1 Hr2. induction Hr2 as [|tr' l p2 p3 _ IH Hal Hs]; [by rewrite app_nil_r|].
  rewrite app_assoc. by eapply prun_snoc.
Qed.

(** ** Playing a schedule

    A run as a computation: every call to a container is answered [resp] at once. *)

Definition call_next (resp : ClientResponse) (t : nat) (s : Sys E) : option (Sys E) :=
  c ← calls s !! t;
  Some match c with
       | Ready spec retried =>
           with_call t (after_acquire spec retried 0 (acquire spec (mgr s)).1)
             (with_mgr (acquire spec (mgr s)).2 s)
       | Calling spec retried cold_start host_port container_id =>
           with_call t (Replied spec retried cold_start container_id 0 resp) s
       | Replied spec retried cold_start container_id duration_ms resp =>
           with_call t
             (after_settle spec retried
                (settle spec cold_start container_id duration_ms resp (mgr s)).1)
             (with_mgr (settle spec cold_start container_id duration_ms resp (mgr s)).2 s)
       | Finished result => without_call t (with_mgr (record_result result (mgr s)).2 s)
       end.

Definition own_next (resp : ClientResponse) (t : nat) p : option (Plat D E) :=
  h ← handlers p !! t;
  match store_move (J:=J) h, manager_move (J:=J) h, h with
  | Some c, _, _ =>
      Some (with_handler t (settled (c (store p)).1) (with_store (c (store p)).2 p))
  | None, Some c, _ =>
      Some (with_handler t (c (mgr (sys p))).1 (with_sys (with_mgr (c (mgr (sys p))).2 (sys p)) p))
  | None, None, Found f input spec =>
      if decide (calls (sys p) !! t = None) then
        Some (with_handler t (Invoking f input) (with_sys (with_call t (Ready spec false) (sys p)) p))
      else None
  | None, None, Terminating f =>
      Some (with_handler t (Answered (Ok (response_empty 204)))
              (with_sys (with_mgr (RuntimeManager.terminate f (mgr (sys p))).2 (sys p)) p))
  | None, None, Invoking f input =>
      s' ← call_next resp t (sys p);
      Some (with_handler t (after_call f input (calls (sys p) !! t)) (with_sys s' p))
  | None, None, _ => None
  end.

Definition next (resp : ClientResponse) (l : plabel) p : option (Plat D E) :=
  match l with
  | PArrive t c =>
      if decide (handlers p !! t = None)
      then Some (with_handler t (received (J:=J) default_idle_ms c) p) else None
  | POwn t => own_next resp t p
  | PReap => Some (with_sys (with_mgr (reap_pass (mgr (sys p))).2 (sys p)) p)
  | PWorld => Some p
  end.

Definition handler_alive (h : Handler) : Prop :=
  match h with Answered (Ok _) => True | Answered _ => False | _ => True end.
#[export] Instance handler_alive_dec h : Decision (handler_alive h).
Proof. destruct h; simpl; try case_match; apply _. Defined.

Fixpoint play (resp : ClientResponse) (tr : list plabel) p : option (Plat D E) :=
  match tr with
  | [] => Some p
  | l :: tr =>
      if decide (map_Forall (λ _ h, handler_alive h) (handlers p))
      then p' ← next resp l p; play resp tr p' else None
  end.

Lemma call_next_step resp t (s s' : Sys E) : call_next resp t s = Some s' → step s (Own t) s'.
Proof.
  unfold call_next. destruct (calls s !! t) as [c|] eqn:Hc; [|done]. intros [= <-].
  destruct c; by constructor || eapply step_reply.
Qed.

Lemma next_pstep resp l p p' : next resp l p = Some p' → pstep p l p'.
Proof.
  destruct l as [t c|t| |]; simpl.
  - case_decide; [|done]. intros [= <-]. by constructor.
  - unfold own_next. destruct (handlers p !! t) as [h|] eqn:Ht; [|done]. simpl.
    destruct (store_move h) as [c|] eqn:Hc; [intros [= <-]; by eapply p_store|].
    destruct (manager_move h) as [c|] eqn:Hmv; [intros [= <-]; by eapply p_ask|].
    destruct h; try done.
    + intros [= <-]. by eapply p_terminate; [|apply step_delete].
    + case_decide; [|done]. intros [= <-]. by eapply p_start.
    + destruct (call_next resp t (sys p)) as [s'|] eqn:Hs; [|done]. intros [= <-].
      eapply p_call; [done|by eapply call_next_step].
  - intros [= <-]. apply p_reap, step_reap.
  - intros [= <-]. assert (step (sys p) World (sys p)) as Hw.
    { pose proof (step_world (world (mgr (sys p))) (sys p) eq_refl) as Hw.
      unfold with_mgr, set_world in Hw. by destruct (sys p) as [[] ?]. }
    pose proof (p_world p (sys p) (store p) Hw) as Hp. unfold with_store, with_sys in Hp.
    destruct p. by apply Hp.
Qed.

Lemma play_run resp tr p p' : play resp tr p = Some p' → prun p tr p'.
Proof.
  revert p. induction tr as [|l tr IH]; intros p; simpl; [intros [= <-]; constructor|].
  case_decide as Hal; [|done]. destruct (next resp l p) as [p1|] eqn:Hn; [|done].
  intros Hp. apply (prun_app p [l] p1); [|by apply IH].
  apply prun_one; [|by eapply next_pstep].
  intros t r Ht. apply Hal in Ht. simpl in Ht. destruct r; [by eexists|done..].
Qed.
End system.
