(* ===== verification/PlatformFacts.v ===== *)
(** * What the platform promises under concurrency

    The abstract platform - a map of functions, a map of invocation records and the
    pool of runtimes - and the proof that every interleaving of requests refines it,
    with what every reachable state satisfies: records and metrics agree, every
    runtime was started for a deployed function. *)

From S2P Require Import Prelude CppStd StringFacts ContainerBackend FunctionModel Metrics Http.
From S2P Require Import HttpClient HttpServer RuntimeManager RuntimeInvariant RuntimeCalls.
From S2P Require Import RuntimeConcurrency RuntimePool Database FunctionRegistry InvocationStore.
From S2P Require Import Json ControlPlane ControlPlaneFacts PlatformRuns.
Import FunctionRegistry InvocationStore.

(** ** The specification *)

Record Spec : Type := {
  functions : gmap string Function;
  records : gmap Z InvocationRecord;
  runtimes : Pool;
}.

Inductive move : Type :=
  | MRegister (f : Function)
  | MRemove (function_name : string)
  | MRecord (id : Z) (r : InvocationRecord)
  | MPool (l : pool_label).

(** A record's id is above all earlier ones. *)
Definition apply_move (mv : move) (a : Spec) : option Spec :=
  match mv with
  | MRegister f =>
      Some {| functions := <[name (spec f) := f]> (functions a); records := records a;
              runtimes := runtimes a |}
  | MRemove n =>
      Some {| functions := delete n (functions a); records := records a; runtimes := runtimes a |}
  | MRecord id r =>
      if decide (map_Forall (λ z _, z < id) (records a))
      then Some {| functions := functions a; records := <[id := r]> (records a);
                   runtimes := runtimes a |}
      else None
  | MPool l =>
      p ← pool_apply l (runtimes a);
      Some {| functions := functions a; records := records a; runtimes := p |}
  end.

Fixpoint apply_moves (ms : list move) (a : Spec) : option Spec :=
  match ms with
  | [] => Some a
  | mv :: ms => a' ← apply_move mv a; apply_moves ms a'
  end.

Lemma apply_pool_moves ls a p :
  pool_run ls (runtimes a) = Some p →
  apply_moves (MPool <$> ls) a
  = Some {| functions := functions a; records := records a; runtimes := p |}.
Proof.
  revert a. induction ls as [|l ls IH]; intros a; cbn [pool_run].
  - intros [= <-]. by destruct a.
  - rewrite fmap_cons. cbn [apply_moves apply_move].
    destruct (pool_apply l (runtimes a)) as [p1|]; [|done]. intros Hrun.
    apply (IH {| functions := functions a; records := records a; runtimes := p1 |} Hrun).
Qed.

(** The thread gave up with an exception and nothing was done. *)
Definition failed (h' : Handler) (ms : list move) : Prop :=
  ms = [] ∧ ∃ x, h' = Answered (Throw x).

(** What the answers about runtimes say of the pool. *)
Definition status_view (rt : RuntimeStatus) : string * RuntimeState :=
  (rs_container_id rt, rs_state rt).
Definition listed_view (x : RuntimeListEntry) : string * (string * RuntimeState) :=
  (re_function_name x, (re_container_id x, re_state x)).
Definition lists (entries : list RuntimeListEntry) (rts : gmap string (string * RuntimeState)) : Prop :=
  StronglySorted key_le (re_function_name <$> entries) ∧ NoDup (re_function_name <$> entries) ∧
  list_to_map (listed_view <$> entries) = rts.

(** What one step of a request thread does to the abstract platform [a], and where
    the thread stands afterwards. *)
Definition ascribed {J} `{Json J} (a : Spec) (h h' : Handler) (ms : list move) : Prop :=
  match h with
  | Deploying spec =>
      failed h' ms ∨
      h' = ReadingBack spec ∧ ∃ now, ms = [MRegister (new_function spec now)]
  | ReadingBack spec =>
      failed h' ms ∨
      ms = [] ∧ h' = Answered (match functions a !! c_str (name spec) with
                               | Some fn => json_response 201 (function_to_json (J:=J) fn)
                               | None => Undefined EmptyOptional
                               end)
  | Removing f =>
      failed h' ms ∨
      ms = [MRemove (c_str f)] ∧
      h' = if functions a !! c_str f is Some _ then Terminating f else missing (J:=J) f
  | Terminating f =>
      h' = Answered (Ok (response_empty 204)) ∧ (ms = [] ∨ ms = [MPool (PStop f)])
  | LookingUp f input =>
      failed h' ms ∨
      ms = [] ∧ h' = if functions a !! c_str f is Some fn then Found f input (spec fn)
                     else missing (J:=J) f
  | Found f input _ => h' = Invoking f input ∧ ms = []
  | Invoking f input =>
      (h' = Invoking f input ∨ ∃ result, h' = Recording f input result) ∧
      (ms = [] ∨ ∃ l, ms = [MPool l] ∧ ¬ is_expire l)
  | Recording f input result =>
      failed h' ms ∨
      ∃ id now,
        ms = [MRecord id (new_record id f input (inv_status result) (inv_output result)
                            (inv_duration_ms result) (inv_cold_start result) now)] ∧
        h' = Answered (invocation_reply (J:=J) (to_string id) result)
  | Describing f =>
      failed h' ms ∨
      ms = [] ∧ h' = match functions a !! c_str f with
                     | Some fn => Answered (json_response 200 (function_to_json (J:=J) fn))
                     | None => missing (J:=J) f
                     end
  | Checking f =>
      failed h' ms ∨
      ms = [] ∧ h' = if functions a !! c_str f is Some _ then Asking f else missing (J:=J) f
  | Finding id =>
      failed h' ms ∨
      ms = [] ∧ h' = Answered (record_reply (J:=J) id (named_record (records a) id))
  | Asking f =>
      ms = [] ∧ ∃ rt, h' = Answered (runtime_reply (J:=J) f rt) ∧
                      status_view <$> rt = pool (runtimes a) !! f
  | Listing =>
      ms = [] ∧ ∃ entries, h' = Answered (runtimes_reply (J:=J) entries) ∧
                           lists entries (pool (runtimes a))
  | Counting => ms = [] ∧ h' = Rendering (Z.of_nat (size (pool (runtimes a))))
  | Rendering _ => ms = [] ∧ ∃ text, h' = Answered (Ok (metrics_reply text))
  | Answered _ => False
  end.

(** [p] implements [a]. *)
Record implements {D E} `{SqliteView D, BackendHistory E} (p : Plat D E) (a : Spec) : Prop := {
  im_stored : stored (store p) (functions a) (records a);
  im_runtimes : runtimes a = abstract (mgr (sys p));
}.

(** ** The invariant *)

(** The specs that requests in [tr] deployed. *)
Definition deploys {J} `{Json J} (default_idle_ms : Z) (tr : list plabel) : list FunctionSpec :=
  omap (λ l, match l with
             | PArrive _ c =>
                 match received (J:=J) default_idle_ms c with
                 | Deploying spec => Some spec
                 | _ => None
                 end
             | _ => None
             end) tr.

(** An invocation that [invoke] was entered for and that has no record yet. *)
Definition unrecorded (h : Handler) : Z :=
  match h with Invoking _ _ | Recording _ _ _ => 1 | _ => 0 end.

Section facts.
  Context {J : Type} `{Json J, !JsonNumbers J} {D : Type} `{SqliteSpec D}.
  Context {E : Type} `{Clock E, ContainerBackend E, Sockets E, BackendHistory E}.
  Context `{!BackendSpec E, !QuietWorld E}.
  Context (default_idle_ms : Z).
  Implicit Types p : Plat D E.

(** *** One use of the database *)

(** The cases of a thread that reads a function's row. *)
Ltac lookup_row f :=
  match goal with
  | Hm : represents ?d (functions ?a), Hc : _ = (_, _) |- _ =>
      let Ho := fresh in let Ht := fresh in let x := fresh "x" in
      pose proof (get_outcome f _ d Hm) as Ho; pose proof (get_touches f d) as Ht;
      exists [], a; split; [done|];
      destruct (FunctionRegistry.get f d) as [[?|x|?] ?]; [| |done]; injection Hc as <- <-;
      simpl in Ht; (split_and!; [by eapply stored_same|done|]);
      [destruct Ho as [-> _]; right; split; [done|by destruct (functions a !! c_str f)]
      |left; split; [done|by exists x]]
  end.

Lemma store_move_refines h (c : Io D Handler) d a h' d' :
  stored d (functions a) (records a) → store_move (J:=J) h = Some c →
  (∀ s, h = Deploying s → spec_in_range s) → c d = (h', d') →
  ∃ ms a', apply_moves ms a = Some a' ∧ stored d' (functions a') (records a') ∧
           runtimes a' = runtimes a ∧ ascribed (J:=J) a h (settled h') ms.
Proof.
  intros [Hm Hh] Hmove Hty Hc.
  destruct h as [s|s|f|f|f i|f i s|f i|f i r|f|f|f| | |n|id|r]; try done; simpl in Hmove;
    injection Hmove as <-; unfold io_bind, io_ret in Hc.
  - pose proof (upsert_outcome s _ d Hm (Hty s eq_refl)) as Ho. pose proof (upsert_touches s d) as Ht.
    destruct (upsert_function s d) as [[[]|x|u] d1]; [| |done]; injection Hc as <- <-; simpl in Ht.
    + exists [MRegister (new_function s (db_now d))]. eexists. split; [done|].
      split_and!; [|done|right; eauto]. split; [done|].
      by eapply holds_tables; [apply Ht|apply Ht|].
    + exists [], a. split_and!; [done| |done|left; split; [done|by exists x]].
      split; [done|]. by eapply holds_tables; [apply Ht|apply Ht|].
  - pose proof (read_back_outcome s _ d Hm) as Ho. pose proof (read_back_touches s d) as Ht.
    destruct (read_back s d) as [r d1]. simpl in Ho, Ht.
    exists [], a. split; [done|].
    assert (stored d1 (functions a) (records a)) as Hd1 by (by eapply stored_same).
    destruct Ho as [[x ->]| ->].
    + injection Hc as <- <-. split_and!; [done|done|left; split; [done|by exists x]].
    + destruct (functions a !! c_str (name s)) as [fn|] eqn:Hf; injection Hc as <- <-;
        (split_and!; [done|done|right; simpl; by rewrite Hf]).
  - pose proof (remove_outcome f _ d Hm) as Ho. pose proof (remove_touches f d) as Ht.
    destruct (FunctionRegistry.remove f d) as [[b|x|u] d1]; [| |done]; injection Hc as <- <-;
      simpl in Ht.
    + destruct Ho as [-> Ho]. exists [MRemove (c_str f)]. eexists. split; [done|].
      split_and!; [|done|right; split; [done|]].
      * split; [done|]. by eapply holds_tables; [apply Ht|apply Ht|].
      * case_bool_decide as Hs; destruct (functions a !! c_str f); try done; by destruct Hs.
    + exists [], a. split_and!; [done| |done|left; split; [done|by exists x]].
      split; [done|]. by eapply holds_tables; [apply Ht|apply Ht|].
  - lookup_row f.
  - pose proof (record_outcome f i (inv_status r) (inv_output r) (inv_duration_ms r)
                  (inv_cold_start r) _ d Hh) as Ho.
    pose proof (record_touches f i (inv_status r) (inv_output r) (inv_duration_ms r)
                  (inv_cold_start r) d) as Ht.
    destruct (InvocationStore.record _ _ _ _ _ _ d) as [[n|x|u] d1]; [| |done];
      injection Hc as <- <-; simpl in Ht;
      (assert (represents d1 (functions a)) as Hm1 by (by eapply represents_tables; [apply Ht|])).
    + destruct Ho as (id & -> & _ & _ & Habove & Ho). eexists [MRecord id _]. eexists.
      split; [simpl; by rewrite decide_True by done|].
      split_and!; [by split|done|right; by exists id, (db_now d)].
    + exists [], a. split_and!; [done|by split|done|left; split; [done|by exists x]].
  - lookup_row f.
  - lookup_row f.
  - pose proof (get_record_outcome id _ d Hh) as Ho. pose proof (get_record_touches id d) as Ht.
    exists [], a. split; [done|].
    destruct (InvocationStore.get id d) as [[r|x|u] d1]; [| |done]; injection Hc as <- <-;
      simpl in Ht; (split_and!; [by eapply stored_same|done|]).
    + simpl in Ho. subst r. by right.
    + left. split; [done|by exists x].
Qed.

(** *** One question to the runtime manager *)

Lemma lists_entries now (rs : gmap string Runtime) :
  lists (list_entry now <$> map_entries rs) (entry_view <$> rs).
Proof.
  destruct (map_entries_valid rs) as [Hnd _]. unfold lists.
  rewrite <-!list_fmap_compose. change (re_function_name ∘ list_entry now) with (@fst string Runtime).
  change (listed_view ∘ list_entry now) with (prod_map (@Datatypes.id string) entry_view).
  split; [apply map_entries_sorted|]. split; [done|].
  rewrite list_to_map_fmap. f_equal.
  rewrite (list_to_map_proper _ (map_to_list rs)); [apply list_to_map_to_list|done|].
  apply map_entries_Permutation.
Qed.

(** A question changes no more than time passing, and is answered by the pool. *)
Lemma manager_move_refines {past : Before} h (c : St (Manager E) Handler) m a :
  lock_inv (past:=past) m → runtimes a = abstract m → manager_move (J:=J) h = Some c →
  ascribed (J:=J) a h (c m).1 [] ∧
  ∃ e, history e = history (world m) ∧ (c m).2 = set_world e m.
Proof.
  intros Hm Ha Hmove. assert (set_world (world m) m = m) as Hsame by (by destruct m).
  destruct h as [| | | | | | | | | |f| | |n| |]; try done; injection Hmove as <-; simpl; rewrite ?Ha.
  - unfold status, find_runtime. rewrite !st_bind_run. cbn [fst snd]. simpl.
    rewrite lookup_fmap. destruct (runtimes_ m !! f) as [rt|] eqn:Hf.
    + rewrite st_bind_run, outside_run. split; [split; [done|]; by eexists (Some _)|].
      eexists. split; [apply quiet_now|done].
    + split; [split; [done|]; by exists None|]. by exists (world m).
  - unfold list_runtimes. rewrite !st_bind_run, outside_run. split.
    + split; [done|]. eexists. split; [done|]. apply lists_entries.
    + eexists. split; [apply quiet_now|done].
  - unfold list_runtimes. rewrite !st_bind_run, outside_run. split.
    + split; [done|]. simpl. do 2 f_equal.
      by rewrite length_fmap, map_entries_Permutation, length_map_to_list, map_size_fmap.
    + eexists. split; [apply quiet_now|done].
  - destruct (inv_metrics m Hm) as [evs ->]. unfold render. rewrite render_lines_replay.
    split; [split; [done|]; by eexists|]. by exists (world m).
Qed.

(** *** Where specs come from *)

Context (m0 : gmap string Function) (h0 : gmap Z InvocationRecord) (e : E).

Notation deploys := (deploys (J:=J) default_idle_ms).

(** A function registered when the process started, or deployed since. *)
Definition origin (tr : list plabel) (sp : FunctionSpec) : Prop :=
  (∃ n fn, m0 !! n = Some fn ∧ spec fn = sp) ∨ (∃ s, s ∈ deploys tr ∧ sp = stored_spec s).

Lemma deploys_app tr l : deploys (tr ++ [l]) = deploys tr ++ deploys [l].
Proof. apply omap_app. Qed.
Lemma origin_mono tr l sp : origin tr sp → origin (tr ++ [l]) sp.
Proof.
  intros [Hm|(s & Hs & ->)]; [by left|]. right. exists s. rewrite deploys_app. set_solver.
Qed.

Lemma received_Deploying c s :
  in_long default_idle_ms → received (J:=J) default_idle_ms c = Deploying s → spec_in_range s.
Proof.
  intros Hd. destruct c as [text| | | | | | | |]; simpl; [|done..].
  destruct (json_parse text) as [body| |]; [|done..]. case_match; [done|].
  destruct (spec_of_body default_idle_ms body) as [s'| |] eqn:Hs; [|done..]. intros [= <-].
  by eapply spec_of_body_range.
Qed.

Lemma deploys_range tr s : in_long default_idle_ms → s ∈ deploys tr → spec_in_range s.
Proof.
  intros Hd (l & _ & Hl)%list_elem_of_omap. destruct l as [t c|t| |]; try done.
  destruct (received default_idle_ms c) eqn:Hc; try done. injection Hl as ->.
  by eapply received_Deploying.
Qed.

Definition handler_ok (tr : list plabel) (h : Handler) : Prop :=
  match h with
  | Deploying s => s ∈ deploys tr
  | Found f _ sp => origin tr sp ∧ name sp = c_str f
  | Invoking f _ | Recording f _ _ => ∃ sp, origin tr sp ∧ name sp = c_str f
  | _ => True
  end.

Lemma handler_ok_mono tr l h : handler_ok tr h → handler_ok (tr ++ [l]) h.
Proof.
  destruct h; simpl; try done.
  - rewrite deploys_app. set_solver.
  - intros [? ?]. split; [by apply origin_mono|done].
  - intros (sp & ? & ?). exists sp. split; [by apply origin_mono|done].
  - intros (sp & ? & ?). exists sp. split; [by apply origin_mono|done].
Qed.

Lemma received_ok t c tr : handler_ok (tr ++ [PArrive t c]) (received (J:=J) default_idle_ms c).
Proof.
  unfold handler_ok. rewrite deploys_app. simpl.
  destruct (received default_idle_ms c) eqn:Hc; simpl; try done; [set_solver|..];
    destruct c as [text| | | | | | | |]; simpl in Hc; try done;
    destruct (json_parse text) as [body| |]; try done; case_match; try done;
    destruct (spec_of_body default_idle_ms body); done.
Qed.

(** *** The invariant of reachable states *)

Record plat_inv (tr : list plabel) (tr' : list label) p (m : gmap string Function)
    (h : gmap Z InvocationRecord) : Prop := {
  pi_run : run (start_of e) tr' (sys p);
  pi_stored : stored (store p) m h;
  pi_threads t : is_Some (calls (sys p) !! t) ↔ ∃ f i, handlers p !! t = Some (Invoking f i);
  pi_kept : h0 ⊆ h;
  pi_records : alive p →
    Z.of_nat (size h) + weigh unrecorded (handlers p) = Z.of_nat (size h0) + arrivals tr';
  pi_functions n f : m !! n = Some f → origin tr (spec f);
  pi_handlers t hd : handlers p !! t = Some hd → handler_ok tr hd;
  pi_serves : serves (origin tr) (sys p);
  pi_named z r : h !! z = Some r →
    h0 !! z = Some r ∨ ∃ sp, origin tr sp ∧ name sp = ir_function_name r;
}.

Lemma plat_inv_start d :
  stored d m0 h0 → plat_inv [] [] (pstart d e) m0 h0.
Proof.
  intros Hd. split; simpl; try done.
  - apply run_nil.
  - intros t. rewrite !lookup_empty. split; [by intros [? ?]|by intros (? & ? & ?)].
  - intros n f Hn. left. by exists n, f.
  - intros z r Hz. by left.
Qed.

(** *** Steps of the runtime manager *)

Lemma arrivals_app tr tr' : arrivals (tr ++ tr') = arrivals tr + arrivals tr'.
Proof. unfold arrivals. rewrite filter_app, length_app. lia. Qed.
Lemma own_steps_app tr tr' : own_steps (tr ++ tr') = own_steps tr + own_steps tr'.
Proof. unfold own_steps. rewrite filter_app, length_app. lia. Qed.

Lemma step_own_calls (s s' : Sys E) t :
  step s (Own t) s' →
  ∃ c, calls s !! t = Some c ∧ (∀ t', t' ≠ t → calls s' !! t' = calls s !! t') ∧
       if c is Finished _ then calls s' !! t = None else is_Some (calls s' !! t).
Proof.
  inversion_clear 1; eexists; (split; [done|]); simpl;
    (split; [intros t' Hne; by rewrite ?lookup_insert_ne, ?lookup_delete_ne by done|]);
    rewrite ?lookup_insert_eq, ?lookup_delete_eq; eauto.
Qed.

Lemma step_background_calls (s s' : Sys E) l :
  step s l s' → ¬ is_own l → ¬ is_arrival l → calls s' = calls s.
Proof. by destruct 1; simpl. Qed.

Lemma serves_inner tr p s' l :
  lock_inv (past:=history e) (mgr (sys p)) → step (sys p) l s' → ¬ is_arrival l →
  serves (origin tr) (sys p) → serves (origin tr) s'.
Proof.
  intros Hm Hs Hl Hsv. eapply (serves_step (past:=history e)); [done|done|done|].
  intros t sp ->. by destruct Hl.
Qed.

Lemma plat_inv_own tr tr' p m h t hd hd' ls s' :
  plat_inv tr tr' p m h → alive p → handlers p !! t = Some hd → run (sys p) ls s' →
  (∀ t', is_Some (calls s' !! t') ↔
     if decide (t' = t) then ∃ f i, hd' = Invoking f i else is_Some (calls (sys p) !! t')) →
  unrecorded hd' = unrecorded hd + arrivals ls →
  handler_ok tr hd' → serves (origin tr) s' →
  plat_inv (tr ++ [POwn t]) (tr' ++ ls) (with_handler t hd' (with_sys s' p)) m h.
Proof.
  intros [Hrun Hst Hth Hk Hrec Hfn Hhd Hsv Hnm] Hal Ht Hls Hcs Hunrec Hok Hs'.
  split; simpl; try done.
  - by eapply run_app.
  - intros t'. rewrite Hcs. case_decide as Heq.
    + subst t'. rewrite lookup_insert_eq. naive_solver.
    + rewrite lookup_insert_ne by done. apply Hth.
  - intros _. rewrite (weigh_update _ _ hd), arrivals_app by done. specialize (Hrec Hal). lia.
  - intros n f Hn. by eapply origin_mono, Hfn.
  - intros t' hd''. intros [[<- <-]|[_ Ht']]%lookup_insert_Some; apply handler_ok_mono; eauto.
  - eapply serves_mono; [|exact Hs']. intros sp. apply origin_mono.
  - intros z r [?|(sp & ? & ?)]%Hnm; [by left|right]. exists sp. split; [by apply origin_mono|done].
Qed.

Lemma plat_inv_background tr tr' p m h l l' s' d :
  ledger_ok (history e) → plat_inv tr tr' p m h → alive p → step (sys p) l' s' → ¬ is_own l' → ¬ is_arrival l' →
  same_tables (store p) d → (∀ t, l ≠ POwn t) → (∀ t c, l ≠ PArrive t c) →
  plat_inv (tr ++ [l]) (tr' ++ [l']) (with_store d (with_sys s' p)) m h.
Proof.
  intros He [Hrun Hst Hth Hk Hrec Hfn Hhd Hsv Hnm] Hal Hs Ho Ha Hd Hpo Hpa.
  split; simpl; try done.
  - by eapply run_snoc.
  - by eapply stored_same.
  - intros t'. by rewrite (step_background_calls _ _ _ Hs Ho Ha).
  - intros _. rewrite arrivals_snoc. specialize (Hrec Hal). destruct l'; simpl in *; try tauto; lia.
  - intros n f Hn. by eapply origin_mono, Hfn.
  - intros t' hd' Ht'. apply handler_ok_mono. eauto.
  - eapply serves_mono; [intros sp; apply origin_mono|].
    eapply serves_inner; [by eapply run_lock_inv, start_inv|done..].
  - intros z r [?|(sp & ? & ?)]%Hnm; [by left|right]. exists sp. split; [by apply origin_mono|done].
Qed.

Lemma received_calm c :
  unrecorded (received (J:=J) default_idle_ms c) = 0 ∧
  ∀ f i, received (J:=J) default_idle_ms c ≠ Invoking f i.
Proof.
  destruct c as [text| | | | | | | |]; simpl; [|done..].
  destruct (json_parse text) as [body| |]; [|done..]. case_match; [done|].
  by destruct (spec_of_body default_idle_ms body).
Qed.

Lemma plat_inv_arrive tr tr' p m h t c :
  plat_inv tr tr' p m h → alive p → handlers p !! t = None →
  plat_inv (tr ++ [PArrive t c]) tr' (with_handler t (received (J:=J) default_idle_ms c) p) m h.
Proof.
  intros [Hrun Hst Hth Hk Hrec Hfn Hhd Hsv Hnm] Hal Ht.
  destruct (received_calm c) as (Hun & Hni). split; simpl; try done.
  - intros t'. destruct (decide (t' = t)) as [-> |Hne].
    + rewrite Hth, lookup_insert_eq, Ht. naive_solver.
    + by rewrite lookup_insert_ne.
  - intros _. rewrite weigh_new by done. specialize (Hrec Hal). lia.
  - intros n f Hn. by eapply origin_mono, Hfn.
  - intros t' hd''. intros [[<- <-]|[_ Ht']]%lookup_insert_Some; [apply received_ok|].
    apply handler_ok_mono. eauto.
  - eapply serves_mono; [|done]. intros sp. apply origin_mono.
  - intros z r [?|(sp & ? & ?)]%Hnm; [by left|right]. exists sp. split; [by apply origin_mono|done].
Qed.

(** *** Uses of the database *)

(** What a move leaves of the maps and where the thread stands. *)
Record moved (tr : list plabel) (a a' : Spec) (hd hd' : Handler) : Prop := {
  mv_kept : records a ⊆ records a';
  mv_handler : handler_ok tr hd';
  mv_calm f i : hd' ≠ Invoking f i;
  mv_recorded : (∃ resp, hd' = Answered (Ok resp)) ∨ (∀ r, hd' ≠ Answered r) →
    Z.of_nat (size (records a')) + unrecorded hd' = Z.of_nat (size (records a)) + unrecorded hd;
  mv_functions n f : functions a' !! n = Some f →
    functions a !! n = Some f ∨ origin tr (spec f);
  mv_named z r : records a' !! z = Some r →
    records a !! z = Some r ∨ ∃ sp, origin tr sp ∧ name sp = ir_function_name r;
}.

Lemma failed_moved (tr : list plabel) a hd hd' ms a' :
  failed hd' ms → apply_moves ms a = Some a' → moved tr a a' hd hd'.
Proof.
  intros [-> [x ->]] [= <-]. split; try done; [|naive_solver..].
  intros [[resp ?]|Hn]; [done|by destruct (Hn (Throw x))].
Qed.

Lemma ascribed_moved tr a a' hd hd' ms (c : Io D Handler) :
  (∀ n f, functions a !! n = Some f → origin tr (spec f) ∧ name (spec f) = n) →
  handler_ok tr hd → store_move (J:=J) hd = Some c → ascribed (J:=J) a hd hd' ms →
  apply_moves ms a = Some a' → moved tr a a' hd hd'.
Proof.
  intros Hfn Hok Hc Has Ha.
  destruct hd as [s|s|f|f|f i|f i s|f i|f i r|f|f|f| | |n|id|r]; try done; simpl in Has; clear Hc;
    (destruct Has as [Hfail|Has]; [by eapply failed_moved|]).
  - destruct Has as (-> & now & ->). injection Ha as <-. split; try done; simpl; [|naive_solver].
    intros n f [[<- <-]|[_ ?]]%lookup_insert_Some; [right|by left]. right. eauto.
  - destruct Has as (-> & ->). injection Ha as <-. split; try done; naive_solver.
  - destruct Has as (-> & ->). injection Ha as <-.
    split; simpl; try done; try (by destruct (functions a !! c_str f)); [|naive_solver].
    intros n fn [_ ?]%lookup_delete_Some. by left.
  - destruct Has as (-> & ->). injection Ha as <-.
    destruct (functions a !! c_str f) as [fn|] eqn:Hf; split; try done; try naive_solver.
  - destruct Has as (id & now & -> & ->). simpl in Ha.
    case_decide as Hid; [|done]. injection Ha as <-.
    assert (records a !! id = None) as Hnew.
    { destruct (records a !! id) as [r'|] eqn:Hr; [|done]. specialize (Hid id r' Hr). simpl in Hid. lia. }
    split; simpl; try done; [by apply insert_subseteq| |naive_solver|].
    + intros _. rewrite map_size_insert_None by done. lia.
    + intros z r' [[<- <-]|[_ ?]]%lookup_insert_Some; [right|by left].
      destruct Hok as (sp & ? & ?). by exists sp.
  - destruct Has as (-> & ->). injection Ha as <-.
    destruct (functions a !! c_str f) as [fn|] eqn:Hf; split; try done; naive_solver.
  - destruct Has as (-> & ->). injection Ha as <-.
    destruct (functions a !! c_str f) as [fn|] eqn:Hf; split; try done; naive_solver.
  - destruct Has as (-> & ->). injection Ha as <-. split; try done; naive_solver.
Qed.

Definition spec_of_state p (m : gmap string Function) (h : gmap Z InvocationRecord) : Spec :=
  {| functions := m; records := h; runtimes := abstract (mgr (sys p)) |}.

Lemma plat_inv_store tr tr' p m h t hd c a' hd' d ms :
  plat_inv tr tr' p m h → alive p → handlers p !! t = Some hd →
  store_move (J:=J) hd = Some c → ascribed (J:=J) (spec_of_state p m h) hd hd' ms →
  apply_moves ms (spec_of_state p m h) = Some a' → stored d (functions a') (records a') →
  plat_inv (tr ++ [POwn t]) tr' (with_handler t hd' (with_store d p)) (functions a') (records a').
Proof.
  intros [Hrun Hst Hth Hk Hrec Hfn Hhd Hsv Hnm] Hal Ht Hc Has Ha Hd.
  assert (∀ f i, hd ≠ Invoking f i) as Hcalm by (by intros f i ->).
  assert (moved tr (spec_of_state p m h) a' hd hd') as [Hk' Hok Hni Hrec' Hfn' Hnm'].
  { eapply ascribed_moved; [|by eapply Hhd|done..]. intros n f Hn. split; [by eapply Hfn|].
    by destruct Hst as [Hrep _]; destruct (rep_ok _ _ Hrep n f Hn). }
  split; simpl; try done.
  - intros t'. rewrite Hth. destruct (decide (t' = t)) as [-> |Hne];
      [rewrite lookup_insert_eq; naive_solver|by rewrite lookup_insert_ne].
  - by etrans.
  - intros Hal'. rewrite (weigh_update _ _ hd) by done. specialize (Hrec Hal).
    cut (Z.of_nat (size (records a')) + unrecorded hd' = Z.of_nat (size h) + unrecorded hd);
      [lia|]. apply Hrec'. destruct hd' as [| | | | | | | | | | | | | | |r]; try (by right).
    left. destruct (Hal' t r) as [resp ->]; [apply lookup_insert_eq|by exists resp].
  - intros n f [Hn|?]%Hfn'; apply origin_mono; [by eapply Hfn|done].
  - intros t' hd''. intros [[<- <-]|[_ Ht']]%lookup_insert_Some; apply handler_ok_mono; eauto.
  - eapply serves_mono; [|done]. intros sp. apply origin_mono.
  - intros z r [Hz|(sp & ? & ?)]%Hnm'.
    + apply Hnm in Hz as [?|(sp & ? & ?)]; [by left|right]. exists sp. split; [by apply origin_mono|done].
    + right. exists sp. split; [by apply origin_mono|done].
Qed.

Lemma asked_moved tr a h h' (c : St (Manager E) Handler) :
  manager_move (J:=J) h = Some c → ascribed (J:=J) a h h' [] →
  unrecorded h' = unrecorded h ∧ handler_ok tr h' ∧
  (∀ f i, h ≠ Invoking f i) ∧ (∀ f i, h' ≠ Invoking f i).
Proof. by destruct h; try done; intros _; simpl; [intros (_ & ? & -> & _)..|intros [_ ->]|intros (_ & ? & ->)]. Qed.

(** Every step keeps the invariant and is a move of the abstract platform. *)
Definition attributed (a : Spec) p p' (l : plabel) (ms : list move) : Prop :=
  match l with
  | PArrive _ _ | PWorld => ms = []
  | PReap => ∃ ls, ms = MPool <$> ls ∧ Forall is_expire ls
  | POwn t => ∃ hd hd', handlers p !! t = Some hd ∧ handlers p' !! t = Some hd' ∧
                        ascribed (J:=J) a hd hd' ms
  end.

Lemma pool_only p s' ls a :
  runtimes a = abstract (mgr (sys p)) → pool_run ls (abstract (mgr (sys p))) = Some (abstract (mgr s')) →
  apply_moves (MPool <$> ls) a
  = Some {| functions := functions a; records := records a; runtimes := abstract (mgr s') |}.
Proof. intros Ha Hls. apply apply_pool_moves. by rewrite Ha. Qed.

Lemma pstep_inv tr tr' p m h l p' :
  ledger_ok (history e) → in_long default_idle_ms →
  plat_inv tr tr' p m h → alive p → pstep (J:=J) default_idle_ms p l p' →
  ∃ tr'' ms a', plat_inv (tr ++ [l]) tr'' p' (functions a') (records a') ∧
    apply_moves ms (spec_of_state p m h) = Some a' ∧ implements p' a' ∧
    attributed (spec_of_state p m h) p p' l ms.
Proof.
  intros He Hdef Hinv Hal Hstep.
  assert (lock_inv (past:=history e) (mgr (sys p))) as Hm
    by (eapply run_lock_inv; [apply Hinv|by apply start_inv]).
  destruct Hstep as [t c Ht|t hd c Ht Hc|t f i sp s' Ht -> Hnone|t f i s' Ht Hs|t f s' Ht Hs|
                     t hd c Ht Hc|s' Hs|s' d Hs Hd].
  - exists tr', [], (spec_of_state p m h). split_and!; [by apply plat_inv_arrive|done| |done].
    split; [apply Hinv|done].
  - destruct (c (store p)) as [r d'] eqn:Hr. cbn [fst snd].
    destruct (store_move_refines hd c (store p) (spec_of_state p m h) r d') as (ms & a' & Ha & Hd & Hrt & Has);
      [apply Hinv|done| |done|].
    { intros s ->. eapply deploys_range; [done|]. by apply (pi_handlers _ _ _ _ _ Hinv t _ Ht). }
    exists tr', ms, a'. split_and!; [by eapply plat_inv_store|done|by split|].
    exists hd, (settled r). split_and!; [done|simpl; apply lookup_insert_eq|done].
  - assert (step (sys p) (Arrive t) (with_call t (Ready sp false) (sys p))) as Hs by by apply step_arrive.
    destruct (pi_handlers _ _ _ _ _ Hinv t _ Ht) as [Hsp Hname].
    exists (tr' ++ [Arrive t]), [], (spec_of_state p m h).
    split_and!; [|done|by split; [apply Hinv|]|].
    + eapply plat_inv_own; [done|done|done|by apply run_one| |done|by exists sp|].
      * intros t'. simpl. case_decide as Heq; [subst; rewrite lookup_insert_eq; naive_solver|].
        by rewrite lookup_insert_ne.
      * eapply (serves_step (past:=history e)); [done|done|apply Hinv|]. intros t' sp' [= <-]. simpl.
        rewrite lookup_insert_eq. by intros [= <-].
    + eexists _, _. split_and!; [done|simpl; apply lookup_insert_eq|done].
  - destruct (step_own_calls _ _ _ Hs) as (c & Hc & Hother & Hown).
    destruct (step_refines (past:=history e) _ _ _ Hm Hs) as (ls & Hperm & Hpool).
    exists (tr' ++ [Own t]), (MPool <$> ls).
    eexists. split_and!; [|by apply (pool_only p s')| |].
    + cbn [functions records spec_of_state].
      eapply plat_inv_own; [done|done|done|by apply run_one| | | |].
      * intros t'. rewrite Hc. case_decide as Heq; [subst t'|by rewrite Hother].
        destruct c; simpl; split; try naive_solver; rewrite Hown; by intros [].
      * rewrite Hc. by destruct c.
      * pose proof (pi_handlers _ _ _ _ _ Hinv t _ Ht) as Hok. rewrite Hc. by destruct c.
      * eapply serves_inner; [done|done|by intros []|apply Hinv].
    + split; [apply Hinv|done].
    + eexists _, _. split_and!; [done|simpl; apply lookup_insert_eq|]. rewrite Hc. split.
      * destruct c; simpl; eauto.
      * destruct Hperm as [-> |(x & -> & Hx)]; [by left|right]. by exists x.
  - destruct (step_refines (past:=history e) _ _ _ Hm Hs) as (ls & Hperm & Hpool).
    exists (tr' ++ [Delete f]), (MPool <$> ls).
    eexists. split_and!; [|by apply (pool_only p s')| |].
    + cbn [functions records spec_of_state].
      eapply plat_inv_own; [done|done|done|by apply run_one| |done|done|].
      * intros t'. rewrite (step_background_calls _ _ _ Hs) by (by intros []).
        case_decide as Heq; [subst t'|done]. rewrite (pi_threads _ _ _ _ _ Hinv), Ht. naive_solver.
      * eapply serves_inner; [done|done|by intros []|apply Hinv].
    + split; [apply Hinv|done].
    + eexists _, _. split_and!; [done|simpl; apply lookup_insert_eq|]. split; [done|].
      destruct Hperm as [-> | ->]; [by left|by right].
  - destruct (manager_move_refines hd c (mgr (sys p)) (spec_of_state p m h) Hm eq_refl Hc)
      as (Has & e' & He' & Hw).
    assert (step (sys p) World (with_mgr (c (mgr (sys p))).2 (sys p))) as Hs
      by (rewrite Hw; by apply step_world).
    destruct (asked_moved tr _ _ _ c Hc Has) as (Hun & Hok & Hni & Hni').
    exists (tr' ++ [World]), [], (spec_of_state p m h). split_and!; [|done| |].
    + eapply plat_inv_own; [done|done|done|by apply run_one| | | |].
      * intros t'. simpl. case_decide as Heq; [subst t'|done].
        rewrite (pi_threads _ _ _ _ _ Hinv), Ht. naive_solver.
      * change (arrivals [World]) with 0. lia.
      * done.
      * eapply serves_inner; [done|done|by intros []|apply Hinv].
    + split; [apply Hinv|]. simpl. rewrite Hw. unfold abstract. simpl. by rewrite He'.
    + eexists _, _. split_and!; [done|simpl; apply lookup_insert_eq|done].
  - destruct (step_refines (past:=history e) _ _ _ Hm Hs) as (ls & Hperm & Hpool).
    exists (tr' ++ [Reap]), (MPool <$> ls).
    eexists. split_and!; [|by apply (pool_only p s')|by split; [apply Hinv|]|by exists ls].
    by eapply (plat_inv_background tr tr' p m h _ _ s' (store p)); try done; intros [].
  - destruct (step_refines (past:=history e) _ _ _ Hm Hs) as (ls & Hperm & Hpool).
    simpl in Hperm. subst ls. apply Some_inj in Hpool.
    exists (tr' ++ [World]), [], (spec_of_state p m h). split_and!; [|done| |done].
    + by eapply plat_inv_background; try done; intros [].
    + split; [eapply stored_same; [done|apply Hinv]|exact Hpool].
Qed.

Lemma prun_inv d tr p :
  ledger_ok (history e) → in_long default_idle_ms → stored d m0 h0 →
  prun (J:=J) default_idle_ms (pstart d e) tr p →
  ∃ tr' m h, plat_inv tr tr' p m h.
Proof.
  intros He Hdef Hd. induction 1 as [|tr l p1 p2 _ IH Hal Hs].
  - exists [], m0, h0. by apply plat_inv_start.
  - destruct IH as (tr' & m & h & Hinv).
    destruct (pstep_inv _ _ _ _ _ _ _ He Hdef Hinv Hal Hs) as (tr'' & ms & a' & Hinv' & _).
    by exists tr'', (functions a'), (records a').
Qed.
End facts.
