(* ===== verification/PlatformProgress.v ===== *)
(** * How far a request has to go

    The steps a request of the platform still has to take, whatever its thread meets:
    each of its steps makes them fewer, and no step of another thread changes them. The
    one place where a thread waits for something outside the process is the call to its
    container. *)

From S2P Require Import Prelude CppStd StringFacts ContainerBackend FunctionModel Metrics Http.
From S2P Require Import HttpClient HttpServer RuntimeManager RuntimeInvariant RuntimeCalls.
From S2P Require Import RuntimeConcurrency RuntimePool Database FunctionRegistry InvocationStore.
From S2P Require Import Json ControlPlane ControlPlaneFacts PlatformRuns PlatformFacts.
Import FunctionRegistry InvocationStore.

(** The steps a request has left to take, those inside [invoke] aside. *)
Definition prank (h : Handler) : Z :=
  match h with
  | LookingUp _ _ => 10
  | Found _ _ _ => 9
  | Deploying _ | Removing _ => 2
  | ReadingBack _ | Terminating _ | Invoking _ _ | Recording _ _ _ => 1
  | Checking _ | Counting => 2
  | Describing _ | Asking _ | Listing | Rendering _ | Finding _ => 1
  | Answered _ => 0
  end.

#[export] Instance plabel_own_dec (l : plabel) t : Decision (l = POwn t).
Proof.
  destruct l as [| t'| |]; [by right|destruct (decide (t' = t)) as [-> |]; [by left|right; congruence]|by right..].
Defined.

(** The steps of thread [t], and the requests it was given. *)
Definition steps_of (t : nat) (tr : list plabel) : Z :=
  Z.of_nat (length (filter (λ l, l = POwn t) tr)).
Definition is_arrival_of (t : nat) (l : plabel) : Prop :=
  match l with PArrive t' _ => t' = t | _ => False end.
#[export] Instance is_arrival_of_dec t l : Decision (is_arrival_of t l).
Proof. destruct l; simpl; apply _. Defined.
Definition requests_of (t : nat) (tr : list plabel) : Z :=
  Z.of_nat (length (filter (is_arrival_of t) tr)).

Lemma steps_of_snoc t tr l : steps_of t (tr ++ [l]) = steps_of t tr + if decide (l = POwn t) then 1 else 0.
Proof. unfold steps_of. rewrite filter_app, length_app, filter_cons. case_decide; simpl; lia. Qed.
Lemma requests_of_snoc t tr l :
  requests_of t (tr ++ [l]) = requests_of t tr + if decide (is_arrival_of t l) then 1 else 0.
Proof. unfold requests_of. rewrite filter_app, length_app, filter_cons. case_decide; simpl; lia. Qed.

Section progress.
  Context {J : Type} `{Json J} {D : Type} `{Sqlite D, SqliteView D}.
  Context {E : Type} `{Clock E, ContainerBackend E, Sockets E, BackendHistory E}.
  Context (default_idle_ms : Z).
  Implicit Types (p : Plat D E) (s : Sys E).

Notation pstep := (pstep (J:=J) default_idle_ms).

(** The steps thread [t] has left to take at most. *)
Definition due p (t : nat) : Z :=
  from_option prank 0 (handlers p !! t) + from_option rank 0 (calls (sys p) !! t).

Lemma rank_pos c : 1 ≤ rank c.
Proof. destruct c; simpl; repeat case_match; lia. Qed.
Lemma due_nonneg p t : 0 ≤ due p t.
Proof.
  unfold due. destruct (handlers p !! t) as [h|], (calls (sys p) !! t) as [c|]; simpl;
    try (pose proof (rank_pos c)); try (destruct h; simpl); lia.
Qed.

Lemma received_due c : prank (received (J:=J) default_idle_ms c) ≤ 10.
Proof.
  destruct c as [text| | | | | | | |]; simpl; try lia.
  destruct (json_parse text) as [body| |]; [|simpl; lia..]. case_match; [simpl; lia|].
  by destruct (spec_of_body default_idle_ms body).
Qed.

Lemma store_move_due h (c : Io D Handler) d :
  store_move (J:=J) h = Some c → prank (settled (c d).1) + 1 ≤ prank h.
Proof.
  destruct h; simpl; intros [= <-]; unfold io_bind, io_ret;
    match goal with |- context [match ?m d with _ => _ end] => destruct (m d) as [[x|x|u] d1] end;
    simpl; try lia; repeat case_match; simpl; lia.
Qed.

Lemma manager_move_due h (c : St (Manager E) Handler) m :
  manager_move (J:=J) h = Some c → prank (c m).1 + 1 ≤ prank h.
Proof. by destruct h; try done; intros [= <-]; rewrite ?st_bind_run. Qed.

(** A call that takes a step has fewer left; the others have as many. *)
Lemma own_step_due s t s' :
  step s (Own t) s' →
  ∃ c, calls s !! t = Some c ∧ from_option rank 0 (calls s' !! t) + 1 ≤ rank c ∧
       (if c is Finished _ then calls s' !! t = None else True) ∧
       ∀ t', t' ≠ t → calls s' !! t' = calls s !! t'.
Proof.
  inversion_clear 1; eexists; (split; [done|]); simpl; (split; [|split;
    [by rewrite ?lookup_delete_eq|intros t' Hne; by rewrite ?lookup_insert_ne, ?lookup_delete_ne by done]]);
    rewrite ?lookup_insert_eq, ?lookup_delete_eq; cbn [from_option].
  - destruct (acquire spec (mgr s)).1, retried; simpl; lia.
  - destruct retried; simpl; lia.
  - unfold after_settle. destruct retried; rewrite ?andb_false_r, ?andb_true_r; simpl; [lia|].
    case_match; simpl; lia.
  - done.
Qed.

(** The threads that are in [invoke] are those with a call. *)
Definition threads_agree p : Prop :=
  ∀ t, is_Some (calls (sys p) !! t) ↔ ∃ f i, handlers p !! t = Some (Invoking f i).

Lemma pstep_due p l p' t :
  threads_agree p → pstep p l p' →
  (is_arrival_of t l → handlers p !! t = None ∧ due p t = 0 ∧ due p' t ≤ 10) ∧
  (l = POwn t → is_Some (handlers p !! t) ∧ due p' t + 1 ≤ due p t) ∧
  (¬ is_arrival_of t l → l ≠ POwn t → due p' t = due p t).
Proof.
  intros Hth Hs.
  assert (∀ h, handlers p !! t = Some h → (∀ f i, h ≠ Invoking f i) → calls (sys p) !! t = None) as Hcalm.
  { intros h Hh Hn. apply eq_None_not_Some. intros (f & i & Hi)%Hth. naive_solver. }
  unfold due.
  destruct Hs as [t' c Ht|t' h m Ht Hm|t' f i sp s' Ht -> Hc|t' f i s' Ht Hs|t' f s' Ht Hs
                 |t' h m Ht Hm|s' Hs|s' d Hs _]; cbn [is_arrival_of];
    (split_and!; [intros Hl|intros Hl|intros Hna Hno]); try done; try (injection Hl as ->); try subst t';
    cbn [handlers sys store with_handler with_sys with_store calls with_call with_mgr] in *;
    rewrite ?lookup_insert_eq; try (assert (t' ≠ t) as Hne by congruence);
    rewrite ?lookup_insert_ne by done; try done.
  - assert (calls (sys p) !! t = None) as ->.
    { apply eq_None_not_Some. intros (f & i & Hi)%Hth. congruence. }
    rewrite Ht. pose proof (received_due c). simpl. split; [done|]. lia.
  - rewrite Ht. split; [by eexists|]. pose proof (store_move_due _ _ (store p) Hm). simpl. lia.
  - rewrite Ht, Hc. split; [by eexists|]. simpl. lia.
  - destruct (own_step_due _ _ _ Hs) as (c & Hc & Hr & Hfin & _). rewrite Ht, Hc. split; [by eexists|].
    destruct c; simpl in *; try lia.
  - destruct (own_step_due _ _ _ Hs) as (c & _ & _ & _ & Ho). by rewrite Ho.
  - rewrite Ht. split; [by eexists|]. rewrite (step_background_calls _ _ _ Hs) by (by intros []). simpl. lia.
  - by rewrite (step_background_calls _ _ _ Hs) by (by intros []).
  - rewrite Ht. split; [by eexists|]. pose proof (manager_move_due _ _ (mgr (sys p)) Hm). simpl. lia.
  - by rewrite (step_background_calls _ _ _ Hs) by (by intros []).
  - by rewrite (step_background_calls _ _ _ Hs) by (by intros []).
Qed.

(** The thread a step of the platform is of. *)
Definition stirs (l : plabel) (t : nat) : Prop :=
  match l with PArrive t' _ | POwn t' => t' = t | PReap | PWorld => False end.
#[export] Instance stirs_dec l t : Decision (stirs l t).
Proof. destruct l; simpl; apply _. Defined.

Lemma pstep_handlers p l p' t :
  pstep p l p' →
  (¬ stirs l t → handlers p' !! t = handlers p !! t) ∧
  (stirs l t → is_Some (handlers p' !! t)) ∧
  (is_Some (handlers p !! t) → is_Some (handlers p' !! t)).
Proof.
  intros Hs. destruct Hs as [t' c|t' h m|t' f i sp s' ? ->|t' f i s'|t' f s'|t' h m|s'|s' d];
    simpl; try done; (split_and!;
      [intros Hne; by apply lookup_insert_ne|intros ->; by rewrite lookup_insert_eq|]);
    intros ?; destruct (decide (t' = t)) as [-> |]; by rewrite ?lookup_insert_eq, ?lookup_insert_ne.
Qed.

Lemma unanswered_due p t h :
  handlers p !! t = Some h → (∀ r, h ≠ Answered r) → 0 < due p t.
Proof.
  intros Ht Hna. unfold due. rewrite Ht.
  assert (0 ≤ from_option rank 0 (calls (sys p) !! t))
    by (destruct (calls (sys p) !! t) as [c|]; [pose proof (rank_pos c)|]; simpl; lia).
  assert (0 < prank h) by (destruct h; simpl; try lia; by edestruct Hna). simpl. lia.
Qed.

(** What a thread that has not answered yet can do: inside [client.post] it goes on as
    soon as its container has answered, whatever the answer and the time it took;
    anywhere else it goes on at once. *)
Definition proceeds p (t : nat) : Prop :=
  match calls (sys p) !! t with
  | Some (Calling spec retried cold_start _ container_id) =>
      ∀ duration_ms resp, ∃ p', pstep p (POwn t) p' ∧
        calls (sys p') !! t = Some (Replied spec retried cold_start container_id duration_ms resp)
  | _ => ∃ p', pstep p (POwn t) p'
  end.

Lemma unanswered_proceeds p t h :
  threads_agree p → handlers p !! t = Some h → (∀ r, h ≠ Answered r) → proceeds p t.
Proof.
  intros Hth Ht Hna. unfold proceeds.
  assert ((∀ f i, h ≠ Invoking f i) → calls (sys p) !! t = None) as Hcalm.
  { intros Hn. apply eq_None_not_Some. intros (f & i & Hi)%Hth. naive_solver. }
  destruct h as [s|s|f|f|f i|f i s|f i|f i r|f|f|f| | |n|id|r];
    try by (rewrite Hcalm by done; eexists; first [by eapply p_store|by eapply p_ask]).
  - rewrite Hcalm by done. eexists. eapply p_terminate; [done|]. apply step_delete.
  - pose proof (Hcalm ltac:(done)) as Hc. rewrite Hc. eexists. by eapply p_start.
  - assert (is_Some (calls (sys p) !! t)) as [c Hc] by (apply Hth; eauto). rewrite Hc.
    destruct c as [sp b|sp b cold port cid|sp b cold cid d resp|r].
    + eexists. eapply p_call; [done|]. by apply (step_acquire t sp b 0).
    + intros d resp. eexists. split.
      * eapply p_call; [done|]. by apply (step_reply t sp b cold port cid d resp).
      * simpl. apply lookup_insert_eq.
    + eexists. eapply p_call; [done|]. by apply step_settle.
    + eexists. eapply p_call; [done|]. by apply step_record.
  - by destruct (Hna r).
Qed.
End progress.
