(* ===== verification/PlatformPromises.v ===== *)
(** * The platform's guarantees and limits

    The properties of every interleaving of the control plane's requests, and two
    ways to remove a function whose runtime stays. *)

From S2P Require Import Prelude CppStd StringFacts ContainerBackend FunctionModel Metrics Http.
From S2P Require Import HttpClient HttpServer RuntimeManager RuntimeInvariant SimWorld RuntimeCalls.
From S2P Require Import RuntimeConcurrency RuntimePool Database MemDatabase FunctionRegistry.
From S2P Require Import InvocationStore Json ControlPlane ControlPlaneFacts PlatformRuns.
From S2P Require Import PlatformFacts PlatformProgress.
Import FunctionRegistry InvocationStore.

(** An invocation that is counted and has no record yet. *)
Definition awaiting_record (h : Handler) : Z :=
  match h with Recording _ _ _ => 1 | _ => 0 end.

Section promises.
  Context {J : Type} `{Json J, !JsonNumbers J} {D : Type} `{SqliteSpec D}.
  Context {E : Type} `{Clock E, ContainerBackend E, Sockets E, BackendHistory E}.
  Context `{!BackendSpec E, !QuietWorld E}.
  Implicit Types p : Plat D E.

(** A process that starts on a database that holds [m] and [h] and a world in which
    earlier processes may have run containers. *)
Record starts (default_idle_ms : Z) (d : D) (e : E) (m : gmap string Function)
    (h : gmap Z InvocationRecord) : Prop := {
  st_stored : stored d m h;
  st_ledger : ledger_ok (history e);
  st_default : in_long default_idle_ms;
}.

Lemma starts_inv default_idle_ms d e m0 h0 tr p :
  starts default_idle_ms d e m0 h0 → prun (J:=J) default_idle_ms (pstart d e) tr p →
  ∃ tr' m h, plat_inv (J:=J) default_idle_ms m0 h0 e tr tr' p m h.
Proof. intros [] Hrun. by eapply prun_inv. Qed.

Lemma implements_spec p m h a :
  stored (store p) m h → implements p a → a = spec_of_state p m h.
Proof.
  intros Hst [Hst' Hrt]. destruct (stored_unique _ _ _ _ _ Hst Hst') as [-> ->].
  destruct a. simpl in *. unfold spec_of_state. by rewrite Hrt.
Qed.

(** The handlers that are in [invoke] are the calls of the manager. *)
Lemma weigh_indicator {A} (P : A → Prop) `{∀ x, Decision (P x)} (m : gmap nat A) :
  weigh (λ x, if decide (P x) then 1 else 0) m = Z.of_nat (size (dom (filter (λ kx, P kx.2) m))).
Proof.
  induction m as [|t x m Ht IH] using map_ind; [done|]. rewrite weigh_new, IH by done.
  case_decide as HP.
  - rewrite map_filter_insert_True, dom_insert_L, size_union, size_singleton; [lia| |done].
    apply disjoint_singleton_l. rewrite elem_of_dom, map_lookup_filter, Ht. by intros [].
  - rewrite map_filter_insert_False, delete_id by done. lia.
Qed.

Definition is_invoking (h : Handler) : Prop := match h with Invoking _ _ => True | _ => False end.
#[export] Instance is_invoking_dec h : Decision (is_invoking h).
Proof. destruct h; simpl; apply _. Defined.

Lemma size_calls (hs : gmap nat Handler) (cs : gmap nat Call) :
  (∀ t, is_Some (cs !! t) ↔ ∃ f i, hs !! t = Some (Invoking f i)) →
  weigh unrecorded hs = Z.of_nat (size cs) + weigh awaiting_record hs.
Proof.
  intros Ht.
  assert (∀ m : gmap nat Handler, weigh unrecorded m
    = weigh (λ x, if decide (is_invoking x) then 1 else 0) m + weigh awaiting_record m) as ->.
  { induction m as [|t x m Hm IH] using map_ind; [done|]. rewrite !weigh_new, IH by done.
    destruct x; simpl; lia. }
  rewrite weigh_indicator, <-(size_dom cs). do 3 f_equal. apply set_eq. intros t.
  rewrite !elem_of_dom, Ht, map_lookup_filter. split.
  - intros [h (x & Hx & Hf)%bind_Some]. revert Hf. case_guard as Hp; [|done]. simpl in Hp.
    destruct x; try done. eauto.
  - intros (f & i & ->). simpl. by eexists.
Qed.

(** C5: Every step of every interleaving of requests is a move of the abstract platform:
    deploying, removing and recording each take effect in one indivisible step of
    their thread, which then answers by what was there at that moment; so does every
    request that only reads, whether it asks the registry, the history or the pool of
    runtimes, and a scrape is always answered; invocation ids only grow; the runtimes
    change as the pool allows; nothing else changes anything. *)
Theorem platform_refines_spec (default_idle_ms : Z) (d : D) (e : E) (m0 : gmap string Function)
    (h0 : gmap Z InvocationRecord) (tr : list plabel) (p : Plat D E) (l : plabel)
    (p' : Plat D E) (a : Spec) :
  starts default_idle_ms d e m0 h0 →
  prun (J:=J) default_idle_ms (pstart d e) tr p → alive p →
  pstep (J:=J) default_idle_ms p l p' → implements p a →
  implements (pstart d e)
    {| functions := m0; records := h0;
       runtimes := {| pool := ∅; used := created_ids (history e) |} |} ∧
  ∃ ms a', apply_moves ms a = Some a' ∧ implements p' a' ∧ attributed (J:=J) a p p' l ms.
Proof.
  intros Hstart Hrun Hal Hs Ha. split.
  - split; [apply Hstart|]. apply pool_eq; simpl; [by rewrite fmap_empty|done].
  - destruct (starts_inv _ _ _ _ _ _ _ Hstart Hrun) as (tr' & m & h & Hinv). destruct Hstart.
    destruct (pstep_inv default_idle_ms m0 h0 e tr tr' p m h l p') as (_ & ms & a' & _ & ? & ? & ?);
      try done.
    rewrite (implements_spec p m h a); [|apply Hinv|done]. eauto.
Qed.

(** C6: The history and the metrics agree: as long as no exception has ended the
    process, the records added since it started are the invocations counted, less
    those whose thread is about to insert its record; and no record is ever lost. *)
Theorem records_agree_with_metrics (default_idle_ms : Z) (d : D) (e : E)
    (m0 : gmap string Function) (h0 : gmap Z InvocationRecord) (tr : list plabel)
    (p : Plat D E) :
  starts default_idle_ms d e m0 h0 →
  prun (J:=J) default_idle_ms (pstart d e) tr p → alive p →
  ∃ m h, stored (store p) m h ∧ h0 ⊆ h ∧
    Z.of_nat (size h) + weigh awaiting_record (handlers p)
    = Z.of_nat (size h0) + total (invocation_counts_ (metrics_ (mgr (sys p)))).
Proof.
  intros Hstart Hrun Hal.
  destruct (starts_inv _ _ _ _ _ _ _ Hstart Hrun) as (tr' & m & h & Hinv).
  exists m, h. split; [apply Hinv|]. split; [apply Hinv|].
  pose proof (pi_records _ _ _ _ _ _ _ _ _ Hinv Hal) as Hrec.
  rewrite (size_calls _ _ (pi_threads _ _ _ _ _ _ _ _ _ Hinv)) in Hrec.
  pose proof (run_counts e tr' (sys p) (st_ledger _ _ _ _ _ Hstart) (pi_run _ _ _ _ _ _ _ _ _ Hinv))
    as [_ Hc _]. rewrite weigh_size in Hc. lia.
Qed.

(** C7: Only deployed functions run: every runtime, every call under way and every new
    record is for a function that was registered when the process started or
    deployed since, with the spec that was deployed; and every such spec has its
    numbers in the range of their C++ types. *)
Theorem runtimes_serve_deployed_functions (default_idle_ms : Z) (d : D) (e : E)
    (m0 : gmap string Function) (h0 : gmap Z InvocationRecord) (tr : list plabel)
    (p : Plat D E) :
  starts default_idle_ms d e m0 h0 → prun (J:=J) default_idle_ms (pstart d e) tr p →
  let from := origin (J:=J) default_idle_ms m0 tr in
  (∀ sp, from sp → spec_in_range sp ∧ c_str (name sp) = name sp) ∧
  (∀ f rt, runtimes_ (mgr (sys p)) !! f = Some rt →
     ∃ sp, from sp ∧ name sp = f ∧ rt_idle_timeout_ms rt = idle_timeout_ms sp) ∧
  (∀ t c sp, calls (sys p) !! t = Some c → call_spec c = Some sp → from sp) ∧
  ∃ m h, stored (store p) m h ∧ (∀ n f, m !! n = Some f → from (spec f)) ∧
    ∀ z r, h !! z = Some r → h0 !! z = Some r ∨ ∃ sp, from sp ∧ name sp = ir_function_name r.
Proof.
  intros Hstart Hrun from.
  destruct (starts_inv _ _ _ _ _ _ _ Hstart Hrun) as (tr' & m & h & Hinv).
  destruct Hstart as [[Hrep _] _ Hdef]. split_and!.
  - intros sp [(n & f & Hf & <-)|(s & Hs & ->)].
    + destruct (rep_ok _ _ Hrep n f Hf) as [_ (? & ? & _)]. done.
    + apply deploys_range in Hs; [|done]. split; [done|apply c_str_idemp].
  - apply Hinv.
  - apply Hinv.
  - exists m, h. split; [apply Hinv|]. split; apply Hinv.
Qed.

(** What each thread has been given, has done and has left to do. *)
Lemma steps_and_due default_idle_ms d e m0 h0 tr p t :
  starts default_idle_ms d e m0 h0 → prun (J:=J) default_idle_ms (pstart d e) tr p →
  requests_of t tr = (if handlers p !! t is Some _ then 1 else 0) ∧
  steps_of t tr + due p t ≤ 10 * requests_of t tr.
Proof.
  intros Hstart. induction 1 as [|tr l p1 p2 Hrun [Hreq Hsteps] Hal Hs]; [done|].
  destruct (starts_inv _ _ _ _ _ _ _ Hstart Hrun) as (tr' & m & h & Hinv).
  destruct (pstep_due default_idle_ms p1 l p2 t (pi_threads _ _ _ _ _ _ _ _ _ Hinv) Hs)
    as (Harr & Hown & Hother).
  pose proof (pstep_handlers default_idle_ms p1 l p2 t Hs) as Hpres.
  rewrite requests_of_snoc, steps_of_snoc. destruct Hpres as (Hsame & Hsome & _).
  destruct (decide (is_arrival_of t l)) as [Ha|Ha]; [|destruct (decide (l = POwn t)) as [Ho|Ho]].
  - destruct (Harr Ha) as (Hn & Hd & Hd'). rewrite Hn in Hreq.
    destruct Hsome as [hd ->]; [by destruct l|]. rewrite decide_False by (by intros ->). lia.
  - destruct (Hown Ho) as [[hd Hn] Hd]. rewrite Hn in Hreq. subst l.
    destruct Hsome as [hd' ->]; [done|]. lia.
  - rewrite Hother by done. rewrite Hsame; [|by destruct l; simpl in *; congruence].
    split; [|lia]. by rewrite Z.add_0_r.
Qed.

(** C8: Every request is answered within ten steps of its own, those inside [invoke]
    included, and it waits for no other request: as long as the process lives it takes
    the next step at once, except inside [client.post], where it goes on as soon as its
    own container has answered, whatever the answer and whenever it comes. *)
Theorem requests_complete (default_idle_ms : Z) (d : D) (e : E)
    (m0 : gmap string Function) (h0 : gmap Z InvocationRecord) (tr : list plabel)
    (p : Plat D E) (t : nat) :
  starts default_idle_ms d e m0 h0 → prun (J:=J) default_idle_ms (pstart d e) tr p →
  requests_of t tr ≤ 1 ∧ steps_of t tr + due p t ≤ 10 * requests_of t tr ∧
  ∀ h, handlers p !! t = Some h → (∀ r, h ≠ Answered r) →
    0 < due p t ∧ proceeds (J:=J) default_idle_ms p t.
Proof.
  intros Hstart Hrun.
  destruct (steps_and_due _ _ _ _ _ _ _ t Hstart Hrun) as [Hreq Hsteps].
  destruct (starts_inv _ _ _ _ _ _ _ Hstart Hrun) as (tr' & m & h & Hinv).
  split_and!; [by rewrite Hreq; case_match|done|]. intros hd Ht Hna.
  split; [by eapply unanswered_due|].
  by eapply unanswered_proceeds; [exact (pi_threads _ _ _ _ _ _ _ _ _ Hinv)|..].
Qed.
End promises.

(** ** A race *)

(** An invocation has looked the function up when the function is removed. *)
Definition removal_overtakes : list plabel :=
  [PArrive 0 (Invoke "hello" ""); POwn 0; PArrive 1 (Remove "hello"); POwn 1; POwn 1].
(** It goes on to the end. *)
Definition invocation_ends : list plabel := [POwn 0; POwn 0; POwn 0; POwn 0; POwn 0; POwn 0].

Definition demo_start : Plat Mem Sim := pstart (db demo_platform) (new_sim [reply_ok; reply_ok]).
Definition demo_play (tr : list plabel) : Plat Mem Sim :=
  default demo_start (play (J:=Tree) 60000 ok_response tr demo_start).
Definition removed_first : Plat Mem Sim := demo_play removal_overtakes.
Definition runtime_left : Plat Mem Sim := demo_play (removal_overtakes ++ invocation_ends).

Lemma demo_play_run tr :
  is_Some (play (J:=Tree) 60000 ok_response tr demo_start) →
  prun (J:=Tree) 60000 demo_start tr (demo_play tr).
Proof. intros [p Hp]. unfold demo_play. rewrite Hp. by eapply play_run. Qed.

Lemma removed_first_run : prun (J:=Tree) 60000 demo_start removal_overtakes removed_first.
Proof. apply demo_play_run. vm_compute. by eexists. Qed.

Lemma runtime_left_run :
  prun (J:=Tree) 60000 demo_start (removal_overtakes ++ invocation_ends) runtime_left.
Proof. apply demo_play_run. vm_compute. by eexists. Qed.

Lemma demo_starts : starts 60000 (store demo_start) (new_sim [reply_ok; reply_ok]) demo_registry ∅.
Proof. split; [exact demo_stored|exact ledger_ok_nil|by split]. Qed.

Lemma alive_computed (p : Plat Mem Sim) :
  bool_decide (map_Forall (λ _ h, handler_alive h) (handlers p)) = true → alive p.
Proof.
  rewrite bool_decide_eq_true. intros Hall t r Ht. specialize (Hall t _ Ht). simpl in Hall.
  destruct r; [by eexists|done..].
Qed.

Lemma answered_computed (p : Plat Mem Sim) :
  bool_decide (map_Forall (λ _ h, match h with Answered _ => true | _ => false end = true)
                 (handlers p)) = true →
  map_Forall (λ _ h, ∃ r, h = Answered r) (handlers p).
Proof.
  rewrite bool_decide_eq_true. intros Hall t h Ht. specialize (Hall t h Ht). simpl in Hall.
  clear Ht. destruct h; try done. by eexists.
Qed.

(** Removing a function does not stop an invocation that has already looked it up:
    the removal is answered 204 before any container exists, and when every request
    has been answered a container runs for a function that is not registered. *)
Theorem removed_function_keeps_runtime :
  prun (J:=Tree) 60000 demo_start removal_overtakes removed_first ∧
  handlers removed_first !! 1%nat = Some (Answered (Ok (response_empty 204))) ∧
  history (world (mgr (sys removed_first))) = [] ∧
  prun (J:=Tree) 60000 demo_start (removal_overtakes ++ invocation_ends) runtime_left ∧
  map_Forall (λ _ h, ∃ r, h = Answered r) (handlers runtime_left) ∧
  (FunctionRegistry.get "hello" (store runtime_left)).1 = Ok None ∧
  rt_container_id <$> (runtimes_ (mgr (sys runtime_left)) !! "hello") = Some "c0" ∧
  "c0" ∈ live (history (world (mgr (sys runtime_left)))).
Proof.
  split; [apply removed_first_run|]. split; [by vm_compute|]. split; [by vm_compute|].
  split; [apply runtime_left_run|].
  split_and!; [|by vm_compute|by vm_compute|].
  - by apply answered_computed; vm_compute.
  - by vm_compute.
Qed.

(** A path may hold a NUL: the registry sees the name before it, the runtime manager
    the whole. *)
Definition warm_demo : Platform Mem Sim := {|
  db := db demo_platform; manager := warm_platform []; platform_default_idle_timeout_ms := 60000 |}.

(** Removing a name that goes on after a NUL removes the function and leaves its
    runtime. *)
Theorem removal_up_to_nul_keeps_runtime :
  let '(r, p) := delete_function (J:=Tree) (demo_request "") [("hello" +:+ String NUL "")] warm_demo in
  r = Ok (response_empty 204) ∧ (FunctionRegistry.get "hello" (db p)).1 = Ok None ∧
  rt_container_id <$> (runtimes_ (manager p) !! "hello") = Some "c0".
Proof. by vm_compute. Qed.

(** ** The hypotheses can be met *)

Lemma platform_refines_spec_witness :
  ∃ ms a', apply_moves ms (spec_of_state demo_start demo_registry ∅) = Some a' ∧
    attributed (J:=Tree) (spec_of_state demo_start demo_registry ∅) demo_start
      (with_handler 2 (Removing "other") demo_start) (PArrive 2 (Remove "other")) ms.
Proof.
  destruct (platform_refines_spec (J:=Tree) 60000 _ _ _ _ [] demo_start
              (PArrive 2 (Remove "other")) (with_handler 2 (Removing "other") demo_start)
              (spec_of_state demo_start demo_registry ∅) demo_starts (prun_nil _ _))
    as (_ & ms & a' & Hms & _ & Hat).
  - by apply alive_computed; vm_compute.
  - by apply (p_arrive (J:=Tree) 60000 demo_start 2 (Remove "other")).
  - split; [exact demo_stored|done].
  - by exists ms, a'.
Defined.

Lemma records_agree_with_metrics_witness :
  total (invocation_counts_ (metrics_ (mgr (sys runtime_left)))) = 1 ∧
  ∃ m h, stored (store runtime_left) m h ∧ size h = 1%nat.
Proof.
  split; [by vm_compute|].
  destruct (records_agree_with_metrics (J:=Tree) 60000 _ _ _ _ _ runtime_left demo_starts
              runtime_left_run) as (m & h & Hst & _ & Hn).
  - by apply alive_computed; vm_compute.
  - exists m, h. split; [done|].
    assert (weigh awaiting_record (handlers runtime_left) = 0) as Hw by (by vm_compute).
    assert (total (invocation_counts_ (metrics_ (mgr (sys runtime_left)))) = 1) as Ht
      by (by vm_compute).
    rewrite Hw, Ht, map_size_empty in Hn. lia.
Defined.

Lemma runtimes_serve_deployed_functions_witness :
  ∃ sp, origin (J:=Tree) 60000 demo_registry (removal_overtakes ++ invocation_ends) sp ∧
        name sp = "hello" ∧ spec_in_range sp.
Proof.
  destruct (runtimes_serve_deployed_functions (J:=Tree) 60000 _ _ _ _ _ runtime_left demo_starts
              runtime_left_run) as (Hrange & Hrt & _).
  assert (is_Some (runtimes_ (mgr (sys runtime_left)) !! "hello")) as [rt Hf]
    by (vm_compute; by eexists).
  destruct (Hrt "hello" rt Hf) as (sp & Hsp & Hname & _). exists sp.
  split; [done|]. split; [done|]. by apply Hrange.
Defined.

Lemma requests_complete_witness :
  steps_of 0 (removal_overtakes ++ invocation_ends) = 7 ∧
  steps_of 0 (removal_overtakes ++ invocation_ends) + due runtime_left 0
  ≤ 10 * requests_of 0 (removal_overtakes ++ invocation_ends) ∧
  (∃ h, handlers removed_first !! 0%nat = Some h ∧ 0 < due removed_first 0) ∧
  proceeds (J:=Tree) 60000 removed_first 0.
Proof.
  split; [by vm_compute|].
  destruct (requests_complete (J:=Tree) 60000 _ _ _ _ _ runtime_left 0 demo_starts runtime_left_run)
    as (_ & Hsteps & _). split; [exact Hsteps|].
  assert (((λ h, match h with Answered _ => false | _ => true end) <$>
            handlers removed_first !! 0%nat) = Some true) as Hpos by (by vm_compute).
  apply fmap_Some in Hpos as (h & Hh & Hna').
  assert (∀ r, h ≠ Answered r) as Hna by (intros r ->; by inversion Hna').
  destruct (requests_complete (J:=Tree) 60000 _ _ _ _ _ removed_first 0 demo_starts removed_first_run)
    as (_ & _ & Hgo).
  destruct (Hgo h Hh Hna) as [Hdue Hp]. split; [exists h; split; [exact Hh|exact Hdue]|exact Hp].
Defined.
