(* ===== verification/PlatformHandlers.v ===== *)
(** * Handlers run alone

    The handlers of [ControlPlane] without interference are interleavings of
    [PlatformRuns] in which only their own thread steps and time passes: the split
    of a handler into steps loses nothing of it and adds nothing to it. *)

From S2P Require Import Prelude CppStd StringFacts ContainerBackend FunctionModel Metrics Http.
From S2P Require Import HttpClient HttpServer RuntimeManager RuntimeInvariant SimWorld RuntimeCalls.
From S2P Require Import RuntimeConcurrency RuntimePool Database MemDatabase FunctionRegistry.
From S2P Require Import InvocationStore Json ControlPlane ControlPlaneFacts PlatformRuns.
Import FunctionRegistry InvocationStore.

(** Steps of thread [t], its arrival with [c], and time passing. *)
Definition mine (t : nat) (c : ApiCall) (l : plabel) : Prop :=
  l = PArrive t c ∨ l = POwn t ∨ l = PWorld.
Ltac mine := simpl; rewrite ?Forall_cons, ?Forall_nil; unfold mine; tauto.

Section alone.
  Context {J : Type} `{Json J} {D : Type} `{SqliteSpec D}.
  Context {E : Type} `{Clock E, ContainerBackend E, Sockets E, BackendHistory E}.
  Context `{!BackendSpec E, !QuietWorld E}.
  Context (default_idle_ms : Z).
  Implicit Types p : Plat D E.

Notation prun := (prun (J:=J) default_idle_ms).
Notation pstep := (pstep (J:=J) default_idle_ms).

(** A request that carries no more than [body]. *)
Notation carrying body :=
  {| req_method := ""; req_path := ""; req_headers := ∅; req_body := body |}.

(** What the route table calls for a request. *)
Definition handle (c : ApiCall) : Io (Platform D E) Response :=
  match c with
  | Deploy body => post_functions (J:=J) (carrying body) []
  | Remove f => delete_function (J:=J) (carrying "") [f]
  | Invoke f body => post_invoke (J:=J) (carrying body) [f]
  | Health => get_health (J:=J) (carrying "") []
  | Describe f => get_function (J:=J) (carrying "") [f]
  | RuntimeOf f => get_runtime (J:=J) (carrying "") [f]
  | ListRuntimes => get_runtimes (J:=J) (carrying "") []
  | Scrape => get_metrics (carrying "") []
  | InvocationOf id => get_invocation (J:=J) (carrying "") [id]
  end.

Definition as_platform p : Platform D E :=
  {| db := store p; manager := mgr (sys p); platform_default_idle_timeout_ms := default_idle_ms |}.

(** [p] after the handler left the platform as [q] with answer [r]. *)
Definition after (t : nat) (r : outcome Response) (q : Platform D E) p : Plat D E :=
  {| sys := with_mgr (manager q) (sys p); store := db q;
     handlers := <[t := Answered r]> (handlers p) |}.

Lemma alive_handler t h p :
  alive p → (∀ r, h = Answered r → ∃ resp, r = Ok resp) → alive (with_handler t h p).
Proof. intros Hal Hh t' r. simpl. intros [[<- ?]|[_ ?]]%lookup_insert_Some; eauto. Qed.

Lemma with_handler_twice t h h' d s p :
  with_handler t h' (with_store d (with_sys s (with_handler t h p)))
  = with_handler t h' (with_store d (with_sys s p)).
Proof. unfold with_handler, with_store, with_sys. simpl. by rewrite insert_insert_eq. Qed.

(** One use of the database, from a thread that stands at [h]. *)
Lemma store_alone t h c p :
  alive p → store_move (J:=J) h = Some c →
  prun (with_handler t h p) [POwn t]
    (with_handler t (settled (c (store p)).1) (with_store (c (store p)).2 p)).
Proof.
  intros Hal Hc. apply prun_one.
  - apply alive_handler; [done|]. by intros r ->.
  - pose proof (p_store default_idle_ms (with_handler t h p) t h c (lookup_insert_eq _ _ _) Hc) as Hs.
    unfold with_handler, with_store in *. simpl in *. by rewrite insert_insert_eq in Hs.
Qed.

(** The steps of a call are steps of the thread that is inside [invoke]. *)
Lemma working_lifted t c f i p tr s' :
  run (sys p) tr s' → Forall (working t) tr → is_Some (calls s' !! t) →
  alive p → handlers p !! t = Some (Invoking f i) →
  ∃ ptr, Forall (mine t c) ptr ∧ prun p ptr (with_sys s' p).
Proof.
  intros Hrun. remember (sys p) as s0 eqn:Hs0.
  induction Hrun as [|tr l s1 s2 Hrun IH Hs]; intros Hw Hc Hal Ht.
  { subst. exists []. split; [done|]. destruct p. constructor. }
  apply Forall_app in Hw as [Hw [Hl _]%Forall_cons].
  assert (∀ l', l' = POwn t ∨ l' = PWorld → pstep (with_sys s1 p) l' (with_sys s2 p) →
            is_Some (calls s1 !! t) →
            ∃ ptr, Forall (mine t c) ptr ∧ prun p ptr (with_sys s2 p)) as Hdone.
  { intros l' Hl' Hs' Hc1. destruct (IH Hw Hc1 Hal Ht) as (ptr & Hm & Hp).
    exists (ptr ++ [l']). split.
    - apply Forall_app_2; [done|]. constructor; [|done]. unfold mine. tauto.
    - by eapply prun_snoc. }
  destruct Hl as [-> | ->].
  - apply (Hdone PWorld); [by right| |].
    + pose proof (p_world default_idle_ms (with_sys s1 p) s2 (store p) Hs) as Hpw.
      unfold with_store, with_sys in *. apply Hpw. done.
    + inversion Hs; subst. done.
  - assert (∃ c1, calls s1 !! t = Some c1 ∧ after_call f i (Some c1) = Invoking f i) as (c1 & Hc1 & Ha).
    { inversion Hs; subst; (eexists; split; [done|]); try done.
      simpl in Hc. rewrite lookup_delete_eq in Hc. by destruct Hc. }
    apply (Hdone (POwn t)); [by left| |by eexists].
    pose proof (p_call default_idle_ms (with_sys s1 p) t f i s2 Ht Hs) as Hpc.
    simpl in Hpc. rewrite Hc1, Ha in Hpc. unfold with_handler, with_sys in *. simpl in *.
    by rewrite insert_id in Hpc.
Qed.

(** The moment [invoke] is entered: it reads the clock. *)
Lemma enter_alone t c f i sp p :
  alive p → calls (sys p) !! t = None →
  ∃ ptr, Forall (mine t c) ptr ∧
    prun (with_handler t (Found f i sp) p) ptr
      (with_handler t (Invoking f i)
         (with_sys (with_call t (Ready sp false)
                      (with_mgr (outside steady_now (mgr (sys p))).2 (sys p))) p)).
Proof.
  intros Hal Hc. exists ([PWorld] ++ [POwn t]). split; [mine|].
  set (p0 := with_handler t (Found f i sp) p).
  set (s1 := with_mgr (outside steady_now (mgr (sys p))).2 (sys p)).
  assert (alive p0) as Hal0 by (by apply alive_handler).
  assert (step (sys p0) World s1) as Hw by (unfold s1; rewrite outside_run; apply step_world, quiet_now).
  eapply prun_app; apply prun_one; [done| | |].
  - eapply (p_world default_idle_ms p0 s1 (store p) Hw). by split.
  - exact Hal0.
  - pose proof (p_start default_idle_ms (with_store (store p) (with_sys s1 p0)) t f i sp _
                  (lookup_insert_eq _ _ _) eq_refl Hc) as Hs.
    unfold with_handler, with_sys, with_store, p0 in *. simpl in *. by rewrite insert_insert_eq in Hs.
Qed.

(** [invoke] from entry to return. *)
Lemma invoke_handler_alone t c f i sp p :
  alive p → calls (sys p) !! t = None →
  let '(result, m') := invoke sp i (mgr (sys p)) in
  ∃ ptr, Forall (mine t c) ptr ∧
    prun (with_handler t (Found f i sp) p) ptr
      (with_handler t (Recording f i result) (with_sys (with_mgr m' (sys p)) p)).
Proof.
  intros Hal Hc. pose proof (invoke_alone t sp i (sys p)) as Hi. cbv zeta in Hi.
  destruct (invoke sp i (mgr (sys p))) as [result m']. destruct Hi as (tr & m1 & Hw & Hrun & ->).
  destruct (enter_alone t c f i sp p Hal Hc) as (ptr1 & Hm1 & Hp1).
  set (s0 := with_call t _ _) in Hp1. set (p1 := with_handler t (Invoking f i) (with_sys s0 p)) in Hp1.
  assert (alive p1) as Hal1 by (by apply alive_handler).
  destruct (working_lifted t c f i p1 tr _ Hrun Hw) as (ptr2 & Hm2 & Hp2);
    [by simpl; rewrite lookup_insert_eq|done|simpl; apply lookup_insert_eq|].
  exists ((ptr1 ++ ptr2) ++ [POwn t]). split.
  { apply Forall_app_2; [by apply Forall_app_2|mine]. }
  eapply prun_app; [by eapply prun_app|]. apply prun_one; [done|].
  pose proof (record_step t result m1 (sys p) Hc) as Hs.
  pose proof (p_call default_idle_ms (with_sys (with_call t (Finished result) (with_mgr m1 (sys p))) p1)
                t f i _ (lookup_insert_eq _ _ _) Hs) as Hpc.
  unfold p1, with_handler, with_sys in *. simpl in *.
  by rewrite lookup_insert_eq, insert_insert_eq in Hpc.
Qed.

Lemma register_split s (d : D) :
  register_function s d
  = let '(r, d1) := upsert_function s d in
    match r with
    | Ok _ => read_back s d1
    | Throw x => (Throw x, d1)
    | Undefined u => (Undefined u, d1)
    end.
Proof.
  unfold register_function, register_function_among, upsert_function, read_back, io_bind, io_ret,
    io_lift. by destruct (step_once _ _ d) as [[] d1].
Qed.

Lemma after_store t r d p :
  after t r (set_db d (as_platform p)) p = with_handler t (Answered r) (with_store d p).
Proof. unfold after, with_handler, with_store, with_mgr. simpl. by destruct p as [[] ? ?]. Qed.
Lemma after_same t r p : after t r (as_platform p) p = with_handler t (Answered r) p.
Proof. unfold after, with_handler, with_mgr. simpl. by destruct p as [[] ? ?]. Qed.

(** A handler whose next move ends it. *)
Lemma ends_alone t a h c p r d :
  alive p → store_move (J:=J) h = Some c → settled (c (store p)).1 = Answered r →
  (c (store p)).2 = d →
  ∃ tr, Forall (mine t a) tr ∧
        prun (with_handler t h p) tr (with_handler t (Answered r) (with_store d p)).
Proof.
  intros Hal Hc Hr <-. exists [POwn t]. split; [mine|].
  pose proof (store_alone t h c p Hal Hc) as Hs. by rewrite Hr in Hs.
Qed.

(** A handler whose next move leaves it somewhere else. *)
Lemma continues_alone t a h c p h' d p' :
  alive p → store_move (J:=J) h = Some c → c (store p) = (Ok h', d) →
  (∃ tr, Forall (mine t a) tr ∧ prun (with_handler t h' (with_store d p)) tr p') →
  ∃ tr, Forall (mine t a) tr ∧ prun (with_handler t h p) tr p'.
Proof.
  intros Hal Hc Hr (tr & Hm & Hp). exists ([POwn t] ++ tr). split; [apply Forall_app_2; [mine|done]|].
  eapply prun_app; [|exact Hp]. pose proof (store_alone t h c p Hal Hc) as Hs.
  by rewrite Hr in Hs.
Qed.

(** A handler whose next move is a question to the runtime manager. *)
Lemma asks_alone t a h (c : St (Manager E) Handler) p p' :
  alive p → manager_move (J:=J) h = Some c →
  (∃ tr, Forall (mine t a) tr ∧
         prun (with_handler t (c (mgr (sys p))).1
                 (with_sys (with_mgr (c (mgr (sys p))).2 (sys p)) p)) tr p') →
  ∃ tr, Forall (mine t a) tr ∧ prun (with_handler t h p) tr p'.
Proof.
  intros Hal Hc (tr & Hm & Hp). exists ([POwn t] ++ tr). split; [apply Forall_app_2; [mine|done]|].
  eapply prun_app; [|exact Hp]. apply prun_one.
  - apply alive_handler; [done|]. by intros r ->.
  - pose proof (p_ask default_idle_ms (with_handler t h p) t h c (lookup_insert_eq _ _ _) Hc) as Hs.
    unfold with_handler, with_sys in *. simpl in *. by rewrite insert_insert_eq in Hs.
Qed.

(** The last question. *)
Lemma answered_alone t a h (c : St (Manager E) Handler) p r m :
  alive p → manager_move (J:=J) h = Some c → c (mgr (sys p)) = (Answered r, m) →
  ∃ tr, Forall (mine t a) tr ∧
        prun (with_handler t h p) tr (with_handler t (Answered r) (with_sys (with_mgr m (sys p)) p)).
Proof.
  intros Hal Hc Hr. eapply asks_alone; [done|done|]. rewrite Hr. exists [].
  split; [done|constructor].
Qed.

Lemma after_manager t r m d p :
  after t r (set_manager m (set_db d (as_platform p))) p
  = with_handler t (Answered r) (with_sys (with_mgr m (sys p)) (with_store d p)).
Proof. done. Qed.

Lemma deploying_alone t a s p :
  alive p →
  let '(r, d) := register_function s (store p) in
  ∃ tr, Forall (mine t a) tr ∧
    prun (with_handler t (Deploying s) p) tr
      (with_handler t (Answered (fn ← r; json_response 201 (function_to_json (J:=J) fn)))
         (with_store d p)).
Proof.
  intros Hal. rewrite register_split.
  destruct (upsert_function s (store p)) as [[u|x|u] d1] eqn:Hu.
  - destruct (read_back s d1) as [r d2] eqn:Hb.
    eapply continues_alone; [done|done|by unfold io_bind, io_ret; rewrite Hu|].
    change (with_store d2 p) with (with_store d2 (with_store d1 p)).
    eapply ends_alone; [done|done|..]; simpl; unfold io_bind; rewrite Hb; by destruct r.
  - eapply ends_alone; [done|done|..]; simpl; unfold io_bind; by rewrite Hu.
  - eapply ends_alone; [done|done|..]; simpl; unfold io_bind; by rewrite Hu.
Qed.

Lemma removing_alone t a f p :
  alive p →
  let '(r, q) := delete_function (J:=J) (carrying "") [f] (as_platform p) in
  ∃ tr, Forall (mine t a) tr ∧ prun (with_handler t (Removing f) p) tr (after t r q p).
Proof.
  intros Hal. unfold delete_function, io_bind. rewrite on_db_run. cbn [db as_platform].
  change (param [f] 0) with f.
  destruct (FunctionRegistry.remove f (store p)) as [[b|x|u] d1] eqn:Hrm; cbn [fst snd].
  - destruct b; cbn [negb].
    + rewrite on_manager_run. cbn [manager set_db as_platform].
      eapply continues_alone; [done|done|by unfold io_bind, io_ret; rewrite Hrm|].
      exists [POwn t]. split; [mine|]. apply prun_one; [by apply alive_handler|].
      pose proof (p_terminate default_idle_ms (with_handler t (Terminating f) (with_store d1 p)) t f _
                    (lookup_insert_eq _ _ _) (step_delete f (sys p))) as Hs.
      unfold after, with_handler, with_sys, with_store in *. simpl in *.
      by rewrite insert_insert_eq in Hs.
    + unfold not_found, io_of. rewrite after_store.
      eapply ends_alone; [done|done|..]; simpl; unfold io_bind, io_ret; by rewrite Hrm.
  - rewrite after_store. eapply ends_alone; [done|done|..]; simpl; unfold io_bind; by rewrite Hrm.
  - rewrite after_store. eapply ends_alone; [done|done|..]; simpl; unfold io_bind; by rewrite Hrm.
Qed.

Lemma invoking_alone t a f body p :
  alive p → calls (sys p) !! t = None →
  let '(r, q) := post_invoke (J:=J) (carrying body) [f] (as_platform p) in
  ∃ tr, Forall (mine t a) tr ∧
    prun (with_handler t (LookingUp f (if decide (body = "") then "{}" else body)) p) tr (after t r q p).
Proof.
  intros Hal Hc. unfold post_invoke, io_bind. rewrite on_db_run. cbn [db as_platform req_body].
  change (param [f] 0) with f. set (input := if decide (body = "") then "{}" else body).
  destruct (FunctionRegistry.get f (store p)) as [[[fn|]|x|u] d1] eqn:Hg; cbn [fst snd].
  - rewrite on_manager_run. cbn [manager set_db as_platform].
    pose proof (invoke_handler_alone t a f input (spec fn) (with_store d1 p) Hal Hc) as Hi.
    simpl in Hi. destruct (invoke (spec fn) input (mgr (sys p))) as [result m'].
    destruct Hi as (tr & Hm & Hp). cbn [fst snd]. rewrite on_db_run. cbn [db set_manager set_db].
    set (p2 := with_sys _ (with_store d1 p)) in Hp.
    destruct (record f input (inv_status result) (inv_output result) (inv_duration_ms result)
                (inv_cold_start result) d1) as [ri d2] eqn:Hr.
    set (reply := id ← ri; invocation_reply (J:=J) id result).
    assert (∃ tr2, Forall (mine t a) tr2 ∧
              prun (with_handler t (Recording f input result) p2) tr2
                (with_handler t (Answered reply) (with_store d2 p2))) as (tr2 & Hm2 & Hp2).
    { eapply ends_alone; [done|done|..]; simpl; unfold io_bind; rewrite Hr; by destruct ri. }
    destruct ri as [id|x|u];
      (eapply continues_alone; [done|done|by unfold io_bind, io_ret; rewrite Hg|]);
      (exists (tr ++ tr2); split; [by apply Forall_app_2|]);
      (eapply prun_app; [exact Hp|exact Hp2]).
  - unfold not_found, io_of. rewrite after_store.
    eapply ends_alone; [done|done|..]; simpl; unfold io_bind, io_ret; by rewrite Hg.
  - rewrite after_store. eapply ends_alone; [done|done|..]; simpl; unfold io_bind; by rewrite Hg.
  - rewrite after_store. eapply ends_alone; [done|done|..]; simpl; unfold io_bind; by rewrite Hg.
Qed.

Lemma describing_alone t a f p :
  alive p →
  let '(r, q) := get_function (J:=J) (carrying "") [f] (as_platform p) in
  ∃ tr, Forall (mine t a) tr ∧ prun (with_handler t (Describing f) p) tr (after t r q p).
Proof.
  intros Hal. unfold get_function, io_bind. rewrite on_db_run. cbn [db as_platform].
  change (param [f] 0) with f.
  destruct (FunctionRegistry.get f (store p)) as [[[fn|]|x|u] d1] eqn:Hg; cbn [fst snd];
    unfold not_found, io_of; rewrite after_store;
    (eapply ends_alone; [done|done|..]; simpl; unfold io_bind; by rewrite Hg).
Qed.

Lemma checking_alone t a f p :
  alive p →
  let '(r, q) := get_runtime (J:=J) (carrying "") [f] (as_platform p) in
  ∃ tr, Forall (mine t a) tr ∧ prun (with_handler t (Checking f) p) tr (after t r q p).
Proof.
  intros Hal. unfold get_runtime, io_bind. rewrite on_db_run. cbn [db as_platform].
  change (param [f] 0) with f.
  destruct (FunctionRegistry.get f (store p)) as [[[fn|]|x|u] d1] eqn:Hg; cbn [fst snd].
  - rewrite on_manager_run. cbn [manager set_db as_platform].
    eapply continues_alone; [done|done|by unfold io_bind, io_ret; rewrite Hg|].
    rewrite after_manager. eapply (answered_alone t a _ _ (with_store d1 p)); [done|done|].
    simpl. by rewrite st_bind_run.
  - unfold not_found, io_of. rewrite after_store.
    eapply ends_alone; [done|done|..]; simpl; unfold io_bind; by rewrite Hg.
  - rewrite after_store. eapply ends_alone; [done|done|..]; simpl; unfold io_bind; by rewrite Hg.
  - rewrite after_store. eapply ends_alone; [done|done|..]; simpl; unfold io_bind; by rewrite Hg.
Qed.

Lemma listing_alone t a p :
  alive p →
  let '(r, q) := get_runtimes (J:=J) (carrying "") [] (as_platform p) in
  ∃ tr, Forall (mine t a) tr ∧ prun (with_handler t Listing p) tr (after t r q p).
Proof.
  intros Hal. unfold get_runtimes, io_bind. rewrite on_manager_run. cbn [manager as_platform].
  unfold io_of. eapply answered_alone; [done|done|]. simpl. by rewrite st_bind_run.
Qed.

Lemma scraping_alone t a p :
  alive p →
  let '(r, q) := get_metrics (carrying "") [] (as_platform p) in
  ∃ tr, Forall (mine t a) tr ∧ prun (with_handler t Counting p) tr (after t r q p).
Proof.
  intros Hal. unfold get_metrics, io_bind. rewrite on_manager_run. cbn [manager as_platform].
  rewrite on_manager_run. cbn [manager set_manager fst snd].
  destruct (list_runtimes (mgr (sys p))) as [entries m1] eqn:Hl. cbn [fst snd].
  assert (∃ tr, Forall (mine t a) tr ∧
            prun (with_handler t (Rendering (Z.of_nat (length entries)))
                    (with_sys (with_mgr m1 (sys p)) p)) tr
              (with_handler t
                 (Answered (metrics_reply <$> render (Z.of_nat (length entries)) (metrics_ m1)))
                 (with_sys (with_mgr m1 (sys p)) p))) as Hend.
  { eapply (answered_alone t a _ _ (with_sys (with_mgr m1 (sys p)) p)); [done|done|done]. }
  destruct (render _ (metrics_ m1)) as [text|x|u]; cbn [fst snd];
    (eapply asks_alone; [done|done|]; simpl; rewrite st_bind_run, Hl; exact Hend).
Qed.

Lemma finding_alone t a id p :
  alive p →
  let '(r, q) := get_invocation (J:=J) (carrying "") [id] (as_platform p) in
  ∃ tr, Forall (mine t a) tr ∧ prun (with_handler t (Finding id) p) tr (after t r q p).
Proof.
  intros Hal. unfold get_invocation, io_bind. rewrite on_db_run. cbn [db as_platform].
  change (param [id] 0) with id.
  destruct (InvocationStore.get id (store p)) as [[record|x|u] d1] eqn:Hg; cbn [fst snd];
    unfold io_of; rewrite after_store;
    (eapply ends_alone; [done|done|..]; simpl; unfold io_bind; by rewrite Hg).
Qed.

Lemma handler_alone (t : nat) (c : ApiCall) (p : Plat D E) :
  alive p → handlers p !! t = None → calls (sys p) !! t = None →
  let '(r, q) := handle c (as_platform p) in
  ∃ tr, Forall (mine t c) tr ∧ prun p tr (after t r q p).
Proof.
  intros Hal Ht Hc.
  assert (∀ p', (∃ tr, Forall (mine t c) tr ∧
                   prun (with_handler t (received (J:=J) default_idle_ms c) p) tr p') →
            ∃ tr, Forall (mine t c) tr ∧ prun p tr p') as Harrive.
  { intros p' (tr & Hm & Hp). exists ([PArrive t c] ++ tr). split; [apply Forall_app_2; [mine|done]|].
    eapply prun_app; [apply prun_one; [done|by apply p_arrive]|exact Hp]. }
  assert (∀ r, received (J:=J) default_idle_ms c = Answered r →
            ∃ tr, Forall (mine t c) tr ∧ prun p tr (after t r (as_platform p) p)) as Hat_once.
  { intros r Hr. apply Harrive. exists []. split; [done|]. rewrite after_same, Hr. constructor. }
  destruct c as [text|f|f body| |f|f| | |id].
  - unfold handle, post_functions. cbn [req_body]. simpl in Hat_once, Harrive.
    destruct (json_parse text) as [body|x|u]; [|by apply Hat_once..].
    case_match; [by apply Hat_once|].
    unfold io_bind, io_of. change (ControlPlane.platform_default_idle_timeout_ms _) with default_idle_ms.
    destruct (spec_of_body default_idle_ms body) as [s|x|u]; simpl in Hat_once, Harrive;
      [|by apply Hat_once..].
    rewrite on_db_run. cbn [db as_platform].
    pose proof (deploying_alone t (Deploy text) s p Hal) as Hd.
    destruct (register_function s (store p)) as [[fn|x|u] d]; cbn [fst snd];
      rewrite after_store; apply Harrive, Hd.
  - pose proof (removing_alone t (Remove f) f p Hal) as Hd. simpl.
    destruct (delete_function _ [f] (as_platform p)) as [r q]. by apply Harrive.
  - pose proof (invoking_alone t (Invoke f body) f body p Hal Hc) as Hd. simpl.
    destruct (post_invoke _ [f] (as_platform p)) as [r q]. by apply Harrive.
  - by apply Hat_once.
  - pose proof (describing_alone t (Describe f) f p Hal) as Hd. simpl.
    destruct (get_function _ [f] (as_platform p)) as [r q]. by apply Harrive.
  - pose proof (checking_alone t (RuntimeOf f) f p Hal) as Hd. simpl.
    destruct (get_runtime _ [f] (as_platform p)) as [r q]. by apply Harrive.
  - pose proof (listing_alone t ListRuntimes p Hal) as Hd. simpl.
    destruct (get_runtimes _ [] (as_platform p)) as [r q]. by apply Harrive.
  - pose proof (scraping_alone t Scrape p Hal) as Hd. simpl.
    destruct (get_metrics _ [] (as_platform p)) as [r q]. by apply Harrive.
  - pose proof (finding_alone t (InvocationOf id) id p Hal) as Hd. simpl.
    destruct (get_invocation _ [id] (as_platform p)) as [r q]. by apply Harrive.
Qed.

(** C9: A handler run without interference is one of these interleavings: steps of its
    own thread and of the clock alone lead from its arrival to its answer and to
    the registry, the history and the runtime manager it leaves. *)
Theorem handlers_are_runs (t : nat) (c : ApiCall) (p : Plat D E) :
  alive p → handlers p !! t = None → calls (sys p) !! t = None →
  let '(r, q) := handle c (as_platform p) in
  ∃ tr, Forall (mine t c) tr ∧ prun p tr (after t r q p).
Proof. apply handler_alone. Qed.
End alone.

(** ** The hypotheses can be met *)

Lemma handlers_are_runs_witness :
  let p := pstart (db demo_platform) (new_sim [reply_ok; reply_ok]) in
  let '(r, q) := handle (J:=Tree) (Invoke "hello" "") (as_platform 60000 p) in
  resp_status <$> r = Ok 200 ∧ ∃ tr, prun (J:=Tree) 60000 p tr (after 0 r q p).
Proof.
  intros p. pose proof (handlers_are_runs (J:=Tree) 60000 0 (Invoke "hello" "") p) as Hr.
  assert ((λ r, resp_status <$> r) (handle (J:=Tree) (Invoke "hello" "") (as_platform 60000 p)).1 = Ok 200) as Hok
    by (by vm_compute).
  destruct (handle (Invoke "hello" "") (as_platform 60000 p)) as [r q]. split; [exact Hok|].
  destruct Hr as (tr & _ & Hrun); [|done|done|by exists tr].
  by intros t r'.
Defined.
