(* ===== verification/Service.v ===== *)
(** * The platform behind the server

    The bytes of a connection, the route table and the handlers put together: what
    the connection threads of [ServerLoop] do to the platform is a run of
    [PlatformRuns], whatever the clients send. *)

From S2P Require Import Prelude CppStd StringFacts ContainerBackend FunctionModel Metrics Http.
From S2P Require Import HttpClient HttpServer ServerLoop RuntimeManager RuntimeInvariant SimWorld.
From S2P Require Import RuntimeCalls RuntimeConcurrency RuntimePool Database MemDatabase.
From S2P Require Import FunctionRegistry InvocationStore Json ControlPlane ControlPlaneFacts.
From S2P Require Import PlatformRuns PlatformFacts PlatformPromises PlatformHandlers.
Import FunctionRegistry InvocationStore.

(** ** The API as a table *)

(** The call a request makes, by its method and the segments of its path. *)
Definition api_call (req : Request) : option ApiCall :=
  let m := req_method req in
  match split_path (req_path req) with
  | [a] =>
      if decide (a = "health" ∧ m = "GET") then Some Health
      else if decide (a = "functions" ∧ m = "POST") then Some (Deploy (req_body req))
      else if decide (a = "runtimes" ∧ m = "GET") then Some ListRuntimes
      else if decide (a = "metrics" ∧ m = "GET") then Some Scrape
      else None
  | [a; x] =>
      if decide (a = "functions" ∧ m = "GET") then Some (Describe x)
      else if decide (a = "functions" ∧ m = "DELETE") then Some (Remove x)
      else if decide (a = "invocations" ∧ m = "GET") then Some (InvocationOf x)
      else None
  | [a; x; b] =>
      if decide (a = "functions" ∧ b = "invoke" ∧ m = "POST") then Some (Invoke x (req_body req))
      else if decide (a = "functions" ∧ b = "runtime" ∧ m = "GET") then Some (RuntimeOf x)
      else None
  | _ => None
  end.

(** What a connection asks for. *)
Definition asked (incoming : list string) : outcome (option ApiCall) :=
  req ← parse_request incoming;
  mret (req ≫= api_call).

(** A route table with the paths of the API. *)
Section table.
  Context {S : Type}.
  Context (health deploy describe remove invoke runtime runtimes metrics invocation : HttpServer.Handler S).

Definition api_table : list (Route S) :=
  route "GET" "/invocations/{id}" invocation (
  route "GET" "/metrics" metrics (
  route "GET" "/runtimes" runtimes (
  route "GET" "/functions/{name}/runtime" runtime (
  route "POST" "/functions/{name}/invoke" invoke (
  route "DELETE" "/functions/{name}" remove (
  route "GET" "/functions/{name}" describe (
  route "POST" "/functions" deploy (
  route "GET" "/health" health [])))))))).

Definition entry (c : ApiCall) (req : Request) : St S (outcome Response) :=
  match c with
  | Health => health req []
  | Deploy _ => deploy req []
  | Describe f => describe req [f]
  | Remove f => remove req [f]
  | Invoke f _ => invoke req [f]
  | RuntimeOf f => runtime req [f]
  | ListRuntimes => runtimes req []
  | Scrape => metrics req []
  | InvocationOf id => invocation req [id]
  end.

Lemma api_table_segments :
  api_table =
  [{| method := "GET"; segments := ["health"]; handler := health |};
   {| method := "POST"; segments := ["functions"]; handler := deploy |};
   {| method := "GET"; segments := ["functions"; "{name}"]; handler := describe |};
   {| method := "DELETE"; segments := ["functions"; "{name}"]; handler := remove |};
   {| method := "POST"; segments := ["functions"; "{name}"; "invoke"]; handler := invoke |};
   {| method := "GET"; segments := ["functions"; "{name}"; "runtime"]; handler := runtime |};
   {| method := "GET"; segments := ["runtimes"]; handler := runtimes |};
   {| method := "GET"; segments := ["metrics"]; handler := metrics |};
   {| method := "GET"; segments := ["invocations"; "{id}"]; handler := invocation |}].
Proof. vm_compute. reflexivity. Qed.

Lemma find_route_None (rs : list (Route S)) m segs :
  Forall (λ r, match_segments (HttpServer.segments r) segs = None ∨ HttpServer.method r ≠ m) rs →
  find_route rs m segs = None.
Proof.
  induction 1 as [|r rs [Hr|Hr] _ IH]; simpl; [done|by rewrite Hr|].
  case_match; [by rewrite decide_False|done].
Qed.

Lemma no_route req (s : S) :
  Forall (λ r, match_segments (HttpServer.segments r) (split_path (req_path req)) = None ∨
               HttpServer.method r ≠ req_method req) api_table →
  ∃ resp, resp_status resp ∈ [404; 405] ∧
    dispatch api_table req (split_path (req_path req)) false s = (Ok resp, s).
Proof.
  intros Hno. pose proof (dispatch_first_match S api_table req (split_path (req_path req)) s) as Hd.
  rewrite find_route_None in Hd by done. destruct Hd as (resp & -> & Hk & Hu). exists resp.
  split; [|done].
  destruct (decide (Exists (λ r, is_Some (match_segments (HttpServer.segments r)
                                           (split_path (req_path req)))) api_table)) as [Hx|Hx];
    rewrite Exists_exists in Hx.
  - rewrite Hk; [by do 2 constructor|]. destruct Hx as (r & ? & ?). by exists r.
  - rewrite Hu; [by constructor|]. intros (r & ? & ?). apply Hx. by exists r.
Qed.

(** A call of the table is what its first fitting route runs. *)
Ltac listed :=
  repeat (let Hd := fresh "Hd" in case_decide as Hd; [destruct_and? Hd; subst; reflexivity|]).
(** A route that fits the path has another method. *)
Ltac unlisted :=
  cbn [HttpServer.segments HttpServer.method match_segments];
  repeat match goal with
         | |- context [is_capture ?x] =>
             let b := eval vm_compute in (is_capture x) in change (is_capture x) with b
         end;
  cbv iota; cbn [fmap option_fmap option_map];
  repeat (let Hd := fresh "Hd" in case_decide as Hd);
  first [by left|right; intros ?; subst; tauto].

Lemma dispatch_table req (s : S) :
  match api_call req with
  | Some c => dispatch api_table req (split_path (req_path req)) false s = entry c req s
  | None => ∃ resp, resp_status resp ∈ [404; 405] ∧
      dispatch api_table req (split_path (req_path req)) false s = (Ok resp, s)
  end.
Proof.
  pose proof (no_route req s) as Hno. rewrite api_table_segments in Hno |- *. unfold api_call.
  destruct req as [m path hs body]; cbn [req_method req_path req_body] in *.
  destruct (split_path path) as [|a [|x [|b [|y rest]]]].
  all: listed; apply Hno; repeat (apply Forall_cons_2; [unlisted|]); constructor.
Qed.
End table.

(** ** Connections *)

Section service.
  Context {J : Type} `{Json J, !JsonNumbers J} {D : Type} `{SqliteSpec D}.
  Context {E : Type} `{Clock E, ContainerBackend E, Sockets E, BackendHistory E}.
  Context `{!BackendSpec E, !QuietWorld E}.
  Context (default_idle_ms : Z).
  Implicit Types p : Plat D E.

Notation routes := (api_routes (J:=J) (D:=D) (E:=E)).
Notation prun := (prun (J:=J) default_idle_ms).

(** The body a call carries is the request's. *)
Lemma api_call_body req c :
  api_call req = Some c →
  match c with Deploy body | Invoke _ body => body = req_body req | _ => True end.
Proof.
  unfold api_call. destruct (split_path (req_path req)) as [|a [|x [|b [|y rest]]]]; [done|..|done];
    repeat case_decide; by intros [= <-].
Qed.

(** The server's route table is the table of the API. *)
Lemma dispatch_api req (q : Platform D E) :
  match api_call req with
  | Some c => dispatch routes req (split_path (req_path req)) false q = handle (J:=J) c q
  | None => ∃ resp, resp_status resp ∈ [404; 405] ∧
      dispatch routes req (split_path (req_path req)) false q = (Ok resp, q)
  end.
Proof.
  pose proof (dispatch_table (get_health (J:=J)) (post_functions (J:=J)) (get_function (J:=J))
    (delete_function (J:=J)) (post_invoke (J:=J)) (get_runtime (J:=J)) (get_runtimes (J:=J))
    get_metrics (get_invocation (J:=J)) req q) as Hd.
  destruct (api_call req) as [c|] eqn:Hc; [|exact Hd].
  apply api_call_body in Hc. etrans; [exact Hd|]. by destruct c; subst.
Qed.

(** No handler changes the default idle timeout. *)
Definition keeps_default {A} (c : Io (Platform D E) A) : Prop :=
  ∀ q, platform_default_idle_timeout_ms (c q).2 = platform_default_idle_timeout_ms q.

Lemma keeps_default_bind {A B} (c : Io (Platform D E) A) (f : A → Io (Platform D E) B) :
  keeps_default c → (∀ a, keeps_default (f a)) → keeps_default (x ⇐ c; f x).
Proof.
  intros Hc Hf q. specialize (Hc q). unfold io_bind. destruct (c q) as [[a|x|u] q']; simpl in *.
  - by rewrite Hf.
  - done.
  - done.
Qed.
Lemma keeps_default_db {A} (c : Io D A) : keeps_default (on_db c).
Proof. intros q. by rewrite on_db_run. Qed.
Lemma keeps_default_manager {A} (c : St (Manager E) A) : keeps_default (on_manager c).
Proof. intros q. by rewrite on_manager_run. Qed.
Lemma keeps_default_io_of {A} (r : outcome A) : keeps_default (io_of r).
Proof. done. Qed.
Lemma keeps_default_ret {A} (a : A) : keeps_default (io_ret a).
Proof. done. Qed.

Ltac keeps :=
  repeat first
    [apply keeps_default_db|apply keeps_default_manager|apply keeps_default_io_of
    |apply keeps_default_ret|apply keeps_default_bind; [|intros ?]|progress case_match].

Lemma handle_keeps_default c : keeps_default (handle (J:=J) c).
Proof.
  destruct c; simpl.
  1: { intros q. unfold post_functions. destruct (json_parse _) as [b| |]; [|done..].
       case_match; [done|]. revert q. by keeps. }
  all: unfold delete_function, post_invoke, get_health, get_function, get_runtime, get_runtimes,
         get_metrics, get_invocation, not_found; cbv zeta; by keeps.
Qed.

(** What the server sends for a response. *)
Definition reply_text (resp : Response) : string := response_text_of (with_length_headers resp).

(** What a connection does to the platform [p], and what it is sent. *)
Definition served_as (t : nat) (incoming : list string) p (r : outcome (option string)) (p' : Plat D E) : Prop :=
  match asked incoming with
  | Ok (Some c) => ∃ tr answer,
      Forall (mine t c) tr ∧ prun p tr p' ∧ handlers p' = <[t := Answered answer]> (handlers p) ∧
      r = Some ∘ reply_text <$> answer
  | Ok None =>
      p' = p ∧ (r = Ok None ∨ ∃ resp, resp_status resp ∈ [404; 405] ∧ r = Ok (Some (reply_text resp)))
  | Throw x => p' = p ∧ r = Throw x
  | Undefined u => p' = p ∧ r = Undefined u
  end.

(** One connection without interference. *)
Lemma connection_alone t incoming p :
  alive p → handlers p !! t = None → calls (sys p) !! t = None →
  let '(r, q) := handle_connection routes incoming (as_platform default_idle_ms p) in
  ∃ p', served_as t incoming p r p' ∧ q = as_platform default_idle_ms p' ∧
        calls (sys p') = calls (sys p).
Proof.
  intros Hal Ht Hc. unfold handle_connection, served_as, asked.
  pose proof dispatch_api as Hd. generalize dependent routes. intros rs Hd.
  destruct (parse_request incoming) as [[req|]|x|u]; simpl; [|by exists p; eauto..].
  rewrite st_bind_run. specialize (Hd req (as_platform default_idle_ms p)).
  destruct (api_call req) as [c|].
  - rewrite Hd. pose proof (handler_alone (J:=J) default_idle_ms t c p Hal Ht Hc) as Hh.
    pose proof (handle_keeps_default c (as_platform default_idle_ms p)) as Hk.
    destruct (handle c (as_platform default_idle_ms p)) as [r q]. destruct Hh as (tr & Hm & Hp).
    exists (after t r q p). split_and!; [|destruct q; simpl in Hk; by subst|done].
    by exists tr, r.
  - destruct Hd as (resp & Hst & ->). exists p. split; [|done]. split; [done|]. right. by exists resp.
Qed.

(** *** Every connection, one after the other *)

Section server.
  Context {N : Type} `{AcceptorSpec N}.
  Context (host : string) (port : Z).
  Implicit Types s : Server (Platform D E) N.

Notation server_run := (ServerLoop.run routes host port).

(** The platform of a server on which every request so far was answered. *)
Record serves_platform s (tr : list plabel) (p0 p : Plat D E) : Prop := {
  sp_run : prun p0 tr p;
  sp_app : app s = as_platform default_idle_ms p;
  sp_calls : calls (sys p) = ∅;
  sp_answered t h : handlers p !! t = Some h → ∃ answer, h = Answered answer;
  sp_alive : ServerLoop.terminated s = false → alive p;
}.

Lemma served_run t incoming p r p' :
  alive p → served_as t incoming p r p' →
  (∃ tr, prun p tr p') ∧
  (∀ t' h, handlers p' !! t' = Some h → handlers p !! t' = Some h ∨ ∃ answer, h = Answered answer) ∧
  (∀ reply, r = Ok reply → alive p').
Proof.
  intros Hal. unfold served_as.
  assert ((∃ tr, prun p tr p) ∧
    (∀ t' h, handlers p !! t' = Some h → handlers p !! t' = Some h ∨ ∃ answer, h = Answered answer) ∧
    (∀ reply, r = Ok reply → alive p)) as Hsame.
  { split_and!; [exists []; constructor|by left|done]. }
  destruct (asked incoming) as [[c|]|x|u]; [|by intros [-> _]..].
  intros (tr & answer & _ & Hp & Hh & ->). split; [by exists tr|]. rewrite Hh. split.
  - intros t' h [[_ <-]|[_ ?]]%lookup_insert_Some; [right; by exists answer|by left].
  - intros reply Hr t' a. rewrite Hh.
    intros [[_ [= <-]]|[_ Ha]]%lookup_insert_Some; [|by eapply Hal].
    destruct answer as [resp| |]; [by exists resp|done..].
Qed.

Lemma serve_one t incoming fd s s' tr p0 p t' :
  serves_platform s tr p0 p → ServerLoop.terminated s = false → handlers p !! t' = None →
  connections s !! t = Some fd → serve_step routes t incoming s = Some s' →
  ∃ r tr' p', serves_platform s' tr' p0 p' ∧ served_as t' incoming p r p' ∧
    match r with
    | Ok reply =>
        connections s' = delete t (connections s) ∧
        net s' = (so_close fd (if reply is Some text then (so_send fd text (net s)).2 else net s)).2
    | _ => ServerLoop.terminated s' = true
    end.
Proof.
  intros [Hrun Happ Hcalls Hans Hal] Hterm Hfree Hfd Hs. specialize (Hal Hterm).
  unfold serve_step in Hs. rewrite Hfd in Hs. simpl in Hs.
  pose proof (connection_alone t' incoming p Hal Hfree) as Hc. rewrite Hcalls in Hc.
  specialize (Hc (lookup_empty _)). rewrite Happ in Hs.
  destruct (handle_connection routes incoming (as_platform default_idle_ms p)) as [r q].
  destruct Hc as (p' & Hserved & -> & Hcalls').
  destruct (served_run _ _ _ _ _ Hal Hserved) as ([trc Hp] & Hh & Hal').
  assert (∀ t h, handlers p' !! t = Some h → ∃ answer, h = Answered answer) as Hans'.
  { intros t0 h [?|?]%Hh; [by eapply Hans|done]. }
  exists r, (tr ++ trc), p'.
  destruct r as [reply|x|u]; injection Hs as <-; (split; [|done]);
    (split; simpl; [by eapply prun_app|done..|]); [intros _; by eapply Hal'|done|done].
Qed.

(** The server and the platform together: whatever bytes the clients send and in
    whatever order connections are accepted, served and the server stopped, the
    platform behind the server is in a state of [PlatformRuns], with every request
    answered; and a connection that is served sends its client the answer of exactly
    the call its bytes ask for, 404 or 405 without any effect if they ask for none,
    and is closed - or an exception ends the process. *)
Theorem server_runs_are_platform_runs p0 (net0 : N) (tr : list ServerLoop.label) s :
  alive p0 → handlers p0 = ∅ → calls (sys p0) = ∅ →
  server_run (new_server (as_platform default_idle_ms p0) net0) tr s →
  ∃ ptr p, serves_platform s ptr p0 p ∧
    ∀ t incoming fd s', ServerLoop.terminated s = false → connections s !! t = Some fd →
      serve_step routes t incoming s = Some s' →
      ∃ t' r ptr' p', serves_platform s' ptr' p0 p' ∧ served_as t' incoming p r p' ∧
        match r with
        | Ok reply =>
            connections s' = delete t (connections s) ∧
            net s' = (so_close fd (if reply is Some text then (so_send fd text (net s)).2
                                   else net s)).2
        | _ => ServerLoop.terminated s' = true
        end.
Proof.
  intros Hal Hh0 Hc0 Hrun.
  assert (∃ ptr p, serves_platform s ptr p0 p) as (ptr & p & Hsp).
  { induction Hrun as [|tr l s1 s2 _ IH Hstep].
    - exists [], p0. split; try done; [constructor|]. by rewrite Hh0.
    - destruct IH as (ptr & p & Hsp).
      destruct Hstep as [t s2 Ht Hs|s2 Ht Hs|t incoming s2 Ht Hs|e Ht He].
      + apply listen_app in Hs as [Ha Hx]. destruct Hsp. exists ptr, p. by split; rewrite ?Ha, ?Hx.
      + apply stop_app in Hs as [Ha Hx]. destruct Hsp. exists ptr, p. by split; rewrite ?Ha, ?Hx.
      + destruct (connections s1 !! t) as [fd|] eqn:Hfd;
          [|unfold serve_step in Hs; by rewrite Hfd in Hs].
        destruct (serve_one t incoming fd s1 s2 ptr p0 p (fresh (dom (handlers p))) Hsp Ht)
          as (r & ptr' & p' & Hsp' & _); [|done|done|by eauto].
        apply not_elem_of_dom, is_fresh.
      + destruct Hsp. by exists ptr, p. }
  exists ptr, p. split; [done|]. intros t incoming fd s' Ht Hfd Hs.
  exists (fresh (dom (handlers p))).
  eapply serve_one; [done|done|apply not_elem_of_dom, is_fresh|done|done].
Qed.
End server.
End service.

(** ** The hypotheses can be met *)

Definition demo_service (mvs : list ServerLoop.move) : option (Server (Platform Mem Sim) Net) :=
  foldl (λ s mv, s ≫= play_step (api_routes (J:=Tree)) "0.0.0.0" 8080 mv)
    (Some (new_server (as_platform 60000 demo_start) demo_net)) mvs.

Lemma demo_service_run mvs s :
  demo_service mvs = Some s →
  ServerLoop.run (api_routes (J:=Tree)) "0.0.0.0" 8080
    (new_server (as_platform 60000 demo_start) demo_net) (move_label <$> mvs) s.
Proof. apply server_play_run. Qed.

Definition demo_invocation : list string :=
  ["POST /functions/hello/in"; "voke HTTP/1.1" +:+ CRLF; CRLF].

Lemma server_runs_are_platform_runs_witness :
  ∃ s s' ptr p,
    demo_service accepting = Some s ∧
    serve_step (api_routes (J:=Tree)) 0 demo_invocation s = Some s' ∧
    ServerLoop.terminated s' = false ∧
    prun (J:=Tree) 60000 demo_start ptr p ∧ app s' = as_platform 60000 p ∧
    asked demo_invocation = Ok (Some (Invoke "hello" "")).
Proof.
  destruct (demo_service accepting) as [s|] eqn:Hs; [|by vm_compute in Hs].
  destruct (server_runs_are_platform_runs (J:=Tree) 60000 "0.0.0.0" 8080 demo_start demo_net
              (move_label <$> accepting) s)
    as (ptr & p & Hsp & Hserve); [by intros t r|reflexivity|reflexivity|by apply demo_service_run|].

  assert ((λ s, (ServerLoop.terminated s, connections s !! 0%nat)) <$> demo_service accepting
          = Some (false, Some 4)) as Hst by (vm_compute; reflexivity).
  assert ((λ s, ServerLoop.terminated <$> serve_step (api_routes (J:=Tree)) 0 demo_invocation s)
            <$> demo_service accepting = Some (Some false)) as Hone by (vm_compute; reflexivity).
  rewrite Hs in Hst, Hone. injection Hst as Hal Hfd. injection Hone as Hone.
  apply fmap_Some in Hone as (s' & Hs' & Hal').
  destruct (Hserve 0%nat demo_invocation 4 s' Hal Hfd Hs') as (t' & r & ptr' & p' & Hsp' & _).
  exists s, s', ptr', p'. split_and!;
    [reflexivity|exact Hs'|exact (eq_sym Hal')|exact (sp_run _ _ _ _ _ Hsp')|exact (sp_app _ _ _ _ _ Hsp')|
     vm_compute; reflexivity].
Defined.
