(* ===== verification/ConcurrentService.v ===== *)
(** * The service under concurrency

    The listening thread and [stop] of [ServerLoop], a thread for each connection, the
    reaper and the clock, all interleaved: a connection thread reads its request,
    takes the handler's steps of [PlatformRuns] one by one while others take theirs,
    sends the reply and closes. The theorems say what every client is told, that
    each connection is served in a bounded number of its own steps and waits for no
    other, and that no thread uses another's descriptor. *)

From S2P Require Import Prelude CppStd StringFacts ContainerBackend FunctionModel Metrics Http.
From S2P Require Import HttpClient HttpServer ServerLoop RuntimeManager RuntimeInvariant SimWorld.
From S2P Require Import RuntimeCalls RuntimeConcurrency RuntimePool Database MemDatabase.
From S2P Require Import FunctionRegistry InvocationStore Json ControlPlane ControlPlaneFacts.
From S2P Require Import PlatformRuns PlatformFacts PlatformProgress PlatformPromises.
From S2P Require Import PlatformHandlers Service.
Import FunctionRegistry InvocationStore.

(** Where a connection thread stands in [handle_connection]: about to ..., having read
    [incoming]. *)
Inductive Talk : Type :=
  | Reading                                      (* read and parse the request *)
  | Handling (incoming : list string)            (* (inside the handler) *)
  | Sending (incoming : list string) (reply : string)
  | Closing.

(** A process: its server - what the handlers work on is the platform - and where its
    connection threads stand. *)
Record Live (D E N : Type) : Type := {
  srv : Server (Plat D E) N;
  talks : gmap nat Talk;
}.
Arguments srv {_ _ _} _.
Arguments talks {_ _ _} _.

Inductive clabel : Type :=
  | CListen
  | CAccept (t : nat)
  | CStop
  | COwn (t : nat)
  | CReap
  | CTime                 (* the platform's world moves on *)
  | CNet.                 (* the rest of the process opens and closes descriptors *)
#[export] Instance clabel_eq_dec : EqDecision clabel.
Proof. solve_decision. Defined.

Section service.
  Context {J : Type} `{Json J} {D : Type} `{Sqlite D, SqliteView D}.
  Context {E : Type} `{Clock E, ContainerBackend E, Sockets E, BackendHistory E}.
  Context {N : Type} `{AcceptorSpec N}.
  Context (default_idle_ms : Z) (host : string) (port : Z).
  Implicit Types (p : Plat D E) (s : Live D E N).

Notation routes := (api_routes (J:=J) (D:=D) (E:=E)).
Notation pstep := (pstep (J:=J) default_idle_ms).
Notation prun := (prun (J:=J) default_idle_ms).
Notation received := (received (J:=J) default_idle_ms).

Definition plat s : Plat D E := app (srv s).

Definition launch (e : N) p : Live D E N := {| srv := new_server p e; talks := ∅ |}.

Definition with_srv (v : Server (Plat D E) N) s : Live D E N := {| srv := v; talks := talks s |}.
Definition with_plat p s : Live D E N := with_srv (set_app p (srv s)) s.
Definition talk_to (t : nat) (k : Talk) s : Live D E N :=
  {| srv := srv s; talks := <[t := k]> (talks s) |}.
Definition end_process s : Live D E N := with_srv (ServerLoop.terminate (srv s)) s.

(** An exception that leaves the handler of [t] ends the process. *)
Definition mind_exception (t : nat) s : Live D E N :=
  match handlers (plat s) !! t with
  | Some (Answered (Throw _)) | Some (Answered (Undefined _)) => end_process s
  | _ => s
  end.

(** What thread [t] does with the bytes it reads, up to the handler. *)
Definition read_request (t : nat) (incoming : list string) s : Live D E N :=
  match parse_request incoming with
  | Ok None => talk_to t Closing s
  | Ok (Some req) =>
      match api_call req with
      | Some c =>
          mind_exception t
            (talk_to t (Handling incoming) (with_plat (with_handler t (received c) (plat s)) s))
      | None =>
          match (dispatch routes req (split_path (req_path req)) false
                   (as_platform default_idle_ms (plat s))).1 with
          | Ok resp => talk_to t (Sending incoming (reply_text resp)) s
          | _ => end_process s
          end
      end
  | _ => end_process s
  end.

Definition send_reply (t : nat) (fd : Z) (reply : string) s : Live D E N :=
  talk_to t Closing (with_srv (set_net (so_send fd reply (net (srv s))).2 (srv s)) s).

Definition close_connection (t : nat) (fd : Z) s : Live D E N :=
  {| srv := set_connections (delete t (connections (srv s)))
              (set_net (so_close fd (net (srv s))).2 (srv s));
     talks := delete t (talks s) |}.

Inductive cmove s : clabel → Live D E N → Prop :=
  | c_listen t v :
      listen_step host port t (srv s) = Some v → connections v = connections (srv s) →
      cmove s CListen (with_srv v s)
  | c_accept t v :
      listen_step host port t (srv s) = Some v → connections (srv s) !! t = None →
      handlers (plat s) !! t = None → is_Some (connections v !! t) →
      cmove s (CAccept t) (talk_to t Reading (with_srv v s))
  | c_stop v : stop_step (srv s) = Some v → cmove s CStop (with_srv v s)
  | c_read t incoming :
      talks s !! t = Some Reading → cmove s (COwn t) (read_request t incoming s)
  | c_handle t incoming p' :
      talks s !! t = Some (Handling incoming) → pstep (plat s) (POwn t) p' →
      cmove s (COwn t) (mind_exception t (with_plat p' s))
  | c_answer t incoming resp :
      talks s !! t = Some (Handling incoming) →
      handlers (plat s) !! t = Some (Answered (Ok resp)) →
      cmove s (COwn t) (talk_to t (Sending incoming (reply_text resp)) s)
  | c_send t fd incoming reply :
      talks s !! t = Some (Sending incoming reply) → connections (srv s) !! t = Some fd →
      cmove s (COwn t) (send_reply t fd reply s)
  | c_close t fd :
      talks s !! t = Some Closing → connections (srv s) !! t = Some fd →
      cmove s (COwn t) (close_connection t fd s)
  | c_reap p' : pstep (plat s) PReap p' → cmove s CReap (with_plat p' s)
  | c_time p' : pstep (plat s) PWorld p' → cmove s CTime (with_plat p' s)
  | c_net e : elsewhere (srv s) e → cmove s CNet (with_srv (set_net e (srv s)) s).

(** No thread moves once the process has ended. *)
Inductive crun s : list clabel → Live D E N → Prop :=
  | crun_nil : crun s [] s
  | crun_snoc tr l s1 s2 :
      crun s tr s1 → ServerLoop.terminated (srv s1) = false → cmove s1 l s2 →
      crun s (tr ++ [l]) s2.

(** ** What clients are told *)

(** The only call thread [t] makes in a run of the platform is [c]. *)
Definition arrives_once (t : nat) (c : ApiCall) (ptr : list plabel) : Prop :=
  PArrive t c ∈ ptr ∧ ∀ c', PArrive t c' ∈ ptr → c' = c.

(** What the thread of a connection stands for. *)
Definition serving (ptr : list plabel) p (t : nat) (k : option Talk) : Prop :=
  match k with
  | None | Some Closing => True
  | Some Reading => handlers p !! t = None
  | Some (Handling incoming) =>
      ∃ c h, asked incoming = Ok (Some c) ∧ arrives_once t c ptr ∧ handlers p !! t = Some h
  | Some (Sending incoming reply) =>
      match asked incoming with
      | Ok (Some c) => ∃ resp, arrives_once t c ptr ∧
          handlers p !! t = Some (Answered (Ok resp)) ∧ reply = reply_text resp
      | Ok None => ∃ resp, resp_status resp ∈ [404; 405] ∧ reply = reply_text resp
      | _ => False
      end
  end.

Record live_inv p0 (ptr : list plabel) s : Prop := {
  li_run : prun p0 ptr (plat s);
  li_alive : ServerLoop.terminated (srv s) = false → alive (plat s);
  li_dom : dom (talks s) = dom (connections (srv s));
  li_serving t : serving ptr (plat s) t (talks s !! t);
  li_arrived t c : PArrive t c ∈ ptr → is_Some (handlers (plat s) !! t);
}.

Lemma alive_unstirred l p p' : pstep p l p' → (∀ t, ¬ stirs l t) → alive p → alive p'.
Proof.
  intros Hs Hno Hal t r. rewrite (proj1 (pstep_handlers _ _ _ _ t Hs)) by apply Hno. apply Hal.
Qed.

Lemma serving_same ptr ptr' p p' t k :
  handlers p' !! t = handlers p !! t → (∀ c, PArrive t c ∈ ptr' ↔ PArrive t c ∈ ptr) →
  serving ptr p t k → serving ptr' p' t k.
Proof.
  intros Hh Ha. assert (∀ c, arrives_once t c ptr → arrives_once t c ptr') as Honce.
  { intros c [Hc Hu]. split; [by apply Ha|]. intros c' ?%Ha. by apply Hu. }
  destruct k as [[|inc|inc reply|]|]; simpl; rewrite ?Hh; try done.
  - intros (c & h & ? & ? & ?). exists c, h. eauto.
  - destruct (asked inc) as [[c|]| |]; try done. intros (resp & ? & ? & ?). exists resp. eauto.
Qed.

Lemma unstirred_arrival l t c ptr : ¬ stirs l t → PArrive t c ∈ ptr ++ [l] ↔ PArrive t c ∈ ptr.
Proof.
  rewrite elem_of_app, list_elem_of_singleton. intros Hl. split; [|by left].
  intros [?|<-]; [done|]. by destruct Hl.
Qed.

(** A step of the platform that leaves the other connection threads where they are. *)
Lemma live_inv_plat p0 ptr l s s' :
  live_inv p0 ptr s → ServerLoop.terminated (srv s) = false → pstep (plat s) l (plat s') →
  (ServerLoop.terminated (srv s') = false → alive (plat s')) →
  connections (srv s') = connections (srv s) → dom (talks s') = dom (talks s) →
  (∀ t, ¬ stirs l t → talks s' !! t = talks s !! t) →
  (∀ t, stirs l t → serving (ptr ++ [l]) (plat s') t (talks s' !! t)) →
  live_inv p0 (ptr ++ [l]) s'.
Proof.
  intros [Hr Hal Hd Hsv Ha] Hterm Hs Hal' Hc Hdt Ho Ht. split.
  - by eapply prun_snoc; [|apply Hal|].
  - done.
  - by rewrite Hdt, Hd, Hc.
  - intros t. destruct (decide (stirs l t)) as [Hst|Hst]; [by apply Ht|]. rewrite Ho by done.
    eapply serving_same, Hsv; [by apply (pstep_handlers _ _ _ _ t Hs)|].
    intros c. by apply unstirred_arrival.
  - intros t c. destruct (pstep_handlers _ _ _ _ t Hs) as (_ & Hst & Hkeep).
    rewrite elem_of_app, list_elem_of_singleton. intros [?%Ha|<-]; [by apply Hkeep|by apply Hst].
Qed.

(** A step that leaves the platform alone and moves thread [t] only. *)
Lemma live_inv_talk p0 ptr t s s' :
  live_inv p0 ptr s → plat s' = plat s →
  (ServerLoop.terminated (srv s') = false → ServerLoop.terminated (srv s) = false) →
  dom (talks s') = dom (connections (srv s')) →
  (∀ t', t' ≠ t → talks s' !! t' = talks s !! t') → serving ptr (plat s) t (talks s' !! t) →
  live_inv p0 ptr s'.
Proof.
  intros [Hr Hal Hd Hsv Ha] Hp Hterm Hdt Ho Ht. split; rewrite ?Hp; [done|auto|done| |done].
  intros t'. destruct (decide (t' = t)) as [-> |Hne]; [done|]. by rewrite Ho.
Qed.

Lemma mind_exception_spec t s :
  plat (mind_exception t s) = plat s ∧ talks (mind_exception t s) = talks s ∧
  connections (srv (mind_exception t s)) = connections (srv s) ∧
  net (srv (mind_exception t s)) = net (srv s).
Proof. unfold mind_exception. by repeat case_match. Qed.

Lemma read_request_spec t incoming s :
  connections (srv (read_request t incoming s)) = connections (srv s) ∧
  net (srv (read_request t incoming s)) = net (srv s).
Proof.
  unfold read_request. destruct (parse_request incoming) as [[req|]| |]; try done.
  destruct (api_call req) as [c|]; [|by repeat case_match].
  match goal with |- context [mind_exception t ?s1] =>
    destruct (mind_exception_spec t s1) as (_ & _ & -> & ->) end. done.
Qed.

Lemma mind_exception_alive t s p :
  alive p → (∀ t', t' ≠ t → handlers (plat s) !! t' = handlers p !! t') →
  ServerLoop.terminated (srv (mind_exception t s)) = false → alive (plat s).
Proof.
  intros Hal Ho. unfold mind_exception. intros Hterm t' r Ht'.
  destruct (decide (t' = t)) as [-> |Hne].
  - rewrite Ht' in Hterm. destruct r; [by eexists|done..].
  - rewrite Ho in Ht' by done. by eapply Hal.
Qed.

(** A request that names no call reaches no handler. *)
Lemma refused_alone req p :
  api_call req = None →
  ∃ resp, resp_status resp ∈ [404; 405] ∧
    (dispatch routes req (split_path (req_path req)) false (as_platform default_idle_ms p)).1 = Ok resp.
Proof.
  intros Hreq. pose proof (dispatch_api (J:=J) req (as_platform default_idle_ms p)) as Hd.
  rewrite Hreq in Hd. destruct Hd as (resp & Hst & Hd). exists resp. split; [done|].
  by rewrite Hd.
Qed.

Lemma read_inv p0 ptr t incoming s :
  live_inv p0 ptr s → ServerLoop.terminated (srv s) = false → talks s !! t = Some Reading →
  ∃ ptr', live_inv p0 ptr' (read_request t incoming s).
Proof.
  intros Hi Hterm Ht. pose proof (li_serving _ _ _ Hi t) as Hfree. rewrite Ht in Hfree. simpl in Hfree.
  assert (∀ k, dom (<[t := k]> (talks s)) = dom (talks s)) as Hdom.
  { intros k. apply dom_insert_lookup_L. by rewrite Ht. }
  assert (∀ k, serving ptr (plat s) t (Some k) → live_inv p0 ptr (talk_to t k s)) as Htalk.
  { intros k Hk. eapply live_inv_talk; [done|done|done| | |].
    - simpl. by rewrite Hdom, (li_dom _ _ _ Hi).
    - intros t' Hne'. by apply lookup_insert_ne.
    - simpl. by rewrite lookup_insert_eq. }
  assert (live_inv p0 ptr (end_process s)) as Hend.
  { eapply (live_inv_talk p0 ptr t); [exact Hi|done|done|apply Hi|done|apply Hi]. }
  unfold read_request. destruct (parse_request incoming) as [[req|]|x|u] eqn:Hreq;
    [|exists ptr; by apply Htalk|by exists ptr..].
  destruct (api_call req) as [c|] eqn:Hc.
  - set (p1 := with_handler t (received c) (plat s)).
    set (s1 := talk_to t (Handling incoming) (with_plat p1 s)).
    destruct (mind_exception_spec t s1) as (Hp & Hk & Hcs & _).
    assert (pstep (plat s) (PArrive t c) p1) as Hstep by by constructor.
    exists (ptr ++ [PArrive t c]). eapply live_inv_plat; [exact Hi|done|rewrite Hp; eassumption| | | | |].
    + rewrite Hp. apply (mind_exception_alive t s1 (plat s)); [exact (li_alive _ _ _ Hi Hterm)|].
      intros t' Hne. by apply lookup_insert_ne.
    + by rewrite Hcs.
    + by rewrite Hk, <- (Hdom (Handling incoming)).
    + intros t' Hne. rewrite Hk. apply lookup_insert_ne. simpl in Hne. done.
    + intros t' <-. rewrite Hk, Hp. simpl. rewrite lookup_insert_eq. simpl.
      eexists c, _. split_and!; [by unfold asked; rewrite Hreq; simpl; rewrite Hc| |apply lookup_insert_eq].
      split; [apply elem_of_app; right; by constructor|].
      intros c'. rewrite elem_of_app, list_elem_of_singleton. intros [Ha|[= <-]]; [|done].
      apply (li_arrived _ _ _ Hi) in Ha. rewrite Hfree in Ha. by destruct Ha.
  - destruct (refused_alone req (plat s) Hc) as (resp & Hst & ->). exists ptr. apply Htalk. simpl.
    unfold asked. rewrite Hreq. simpl. rewrite Hc. by exists resp.
Qed.

Lemma cmove_inv p0 ptr s l s' :
  live_inv p0 ptr s → ServerLoop.terminated (srv s) = false → cmove s l s' →
  ∃ ptr', live_inv p0 ptr' s'.
Proof.
  intros Hi Hterm Hmove.
  assert (∀ t k k', talks s !! t = Some k → dom (<[t := k']> (talks s)) = dom (connections (srv s)))
    as Hdom.
  { intros t k k' Ht. rewrite <- (li_dom _ _ _ Hi). apply dom_insert_lookup_L. by rewrite Ht. }
  destruct Hmove as [t v Hv Hc|t v Hv Hc Hh Hacc|v Hv|t incoming Ht|t incoming p' Ht Hs
                    |t incoming resp Ht Hh|t fd incoming reply Ht Hfd|t fd Ht Hfd|p' Hs|p' Hs|e He].
  - apply listen_app in Hv as [Ha Hx]. exists ptr. eapply (live_inv_talk p0 ptr t); [done|done| | |done|].
    + simpl. by rewrite Hx.
    + simpl. rewrite Hc. apply Hi.
    + apply Hi.
  - pose proof Hv as [Ha Hx]%listen_app. exists ptr. eapply (live_inv_talk p0 ptr t); [done|done| | | |].
    + simpl. by rewrite Hx.
    + simpl. apply listen_connections in Hv as [Hv|(fd & _ & Hv)]; rewrite Hv in Hacc |- *;
        [by rewrite Hc in Hacc; destruct Hacc|]. by rewrite !dom_insert_L, (li_dom _ _ _ Hi).
    + intros t' Hne. by apply lookup_insert_ne.
    + simpl. by rewrite lookup_insert_eq.
  - pose proof Hv as [Ha Hx]%stop_app. apply stop_connections in Hv. exists ptr. eapply (live_inv_talk p0 ptr 0%nat); [done|done| | |done|].
    + simpl. by rewrite Hx.
    + simpl. rewrite Hv. apply Hi.
    + apply Hi.
  - by eapply read_inv.
  - set (s1 := with_plat p' s). destruct (mind_exception_spec t s1) as (Hp & Hk & Hcs & _).
    exists (ptr ++ [POwn t]). eapply live_inv_plat; [exact Hi|done|rewrite Hp; eassumption| | | | |].
    + rewrite Hp. apply (mind_exception_alive t s1 (plat s)); [exact (li_alive _ _ _ Hi Hterm)|].
      intros t' Hne. apply (pstep_handlers _ _ _ _ t' Hs). simpl. congruence.
    + by rewrite Hcs.
    + by rewrite Hk.
    + intros t' Hne. by rewrite Hk.
    + intros t' <-. rewrite Hk, Hp. simpl. rewrite Ht. simpl.
      pose proof (li_serving _ _ _ Hi t) as Hsv. rewrite Ht in Hsv. simpl in Hsv.
      destruct Hsv as (c & h & Hc & [Ha Hu] & Hh).
      destruct (pstep_handlers _ _ _ _ t Hs) as (_ & _ & [h' Hh']); [by rewrite Hh|].
      exists c, h'. split_and!; [done| |done]. split; [apply elem_of_app; by left|].
      intros c'. rewrite elem_of_app, list_elem_of_singleton. intros [?|?]; [by apply Hu|done].
  - exists ptr. pose proof (li_serving _ _ _ Hi t) as Hsv. rewrite Ht in Hsv. simpl in Hsv.
    destruct Hsv as (c & h & Hc & Ha & Hh'). eapply (live_inv_talk p0 ptr t); [done|done|done| | |].
    + simpl. by eapply Hdom.
    + intros t' Hne. by apply lookup_insert_ne.
    + simpl. rewrite lookup_insert_eq. simpl. rewrite Hc. by exists resp.
  - exists ptr. eapply (live_inv_talk p0 ptr t); [done|done|done| | |].
    + simpl. by eapply Hdom.
    + intros t' Hne. by apply lookup_insert_ne.
    + simpl. by rewrite lookup_insert_eq.
  - exists ptr. eapply (live_inv_talk p0 ptr t); [done|done|done| | |].
    + simpl. by rewrite !dom_delete_L, (li_dom _ _ _ Hi).
    + intros t' Hne. by apply lookup_delete_ne.
    + simpl. by rewrite lookup_delete_eq.
  - exists (ptr ++ [PReap]). eapply live_inv_plat; [done|done|done| |done|done|done|done].
    intros _. eapply alive_unstirred; [exact Hs|by intros ? []|exact (li_alive _ _ _ Hi Hterm)].
  - exists (ptr ++ [PWorld]). eapply live_inv_plat; [done|done|done| |done|done|done|done].
    intros _. eapply alive_unstirred; [exact Hs|by intros ? []|exact (li_alive _ _ _ Hi Hterm)].
  - exists ptr. eapply (live_inv_talk p0 ptr 0%nat); [done|done|done|apply Hi|done|apply Hi].
Qed.
End service.

(** ** Properties *)

Section properties.
  Context {J : Type} `{Json J, !JsonNumbers J} {D : Type} `{SqliteSpec D}.
  Context {E : Type} `{Clock E, ContainerBackend E, Sockets E, BackendHistory E}.
  Context `{!BackendSpec E, !QuietWorld E}.
  Context {N : Type} `{AcceptorSpec N}.
  Context (default_idle_ms : Z) (host : string) (port : Z).
  Implicit Types (p : Plat D E) (s : Live D E N).

Notation prun := (prun (J:=J) default_idle_ms).
Notation cmove := (cmove (J:=J) default_idle_ms host port).
Notation crun := (crun (J:=J) default_idle_ms host port).
Notation live_inv := (live_inv (J:=J) default_idle_ms).

Lemma launch_inv p0 (e : N) : alive p0 → handlers p0 = ∅ → live_inv p0 [] (launch e p0).
Proof.
  intros Hal Hh. split; simpl; [constructor|done|by rewrite !dom_empty_L|done|].
  intros t c Hc. by apply not_elem_of_nil in Hc.
Qed.

Lemma crun_inv p0 (e : N) tr s :
  alive p0 → handlers p0 = ∅ → crun (launch e p0) tr s → ∃ ptr, live_inv p0 ptr s.
Proof.
  intros Hal Hh Hrun. induction Hrun as [|tr l s1 s2 _ [ptr Hi] Hterm Hmove].
  - exists []. by apply launch_inv.
  - by eapply cmove_inv.
Qed.

(** C10: Every client of the running service is told the answer of its own request: however
    the threads of the connections, the listening thread, [stop], the reaper and the
    clock interleave - inside a request too - the platform behind them is in a state of
    [PlatformRuns]; a connection thread makes there the one call its bytes ask for, and
    what it sends is the answer of that call, or 404 or 405 if they ask for none; and
    the only descriptor it writes to or closes is its own. *)
Theorem concurrent_clients_get_their_answers p0 (e : N) tr s :
  alive p0 → handlers p0 = ∅ → crun (launch e p0) tr s →
  (∃ ptr, prun p0 ptr (plat s) ∧ ∀ t, serving ptr (plat s) t (talks s !! t)) ∧
  ∀ t s', cmove s (COwn t) s' →
    net (srv s') = net (srv s) ∨
    ∃ fd, connections (srv s) !! t = Some fd ∧
      (talks s !! t = Some Closing ∧ net (srv s') = (so_close fd (net (srv s))).2 ∨
       ∃ incoming reply, talks s !! t = Some (Sending incoming reply) ∧
         net (srv s') = (so_send fd reply (net (srv s))).2).
Proof.
  intros Hal Hh Hrun. destruct (crun_inv p0 e tr s Hal Hh Hrun) as [ptr Hi]. split.
  - exists ptr. split; apply Hi.
  - intros t s' Hm. inversion Hm as [| | |? incoming Ht|? incoming p' Ht Hs|? incoming resp Ht Hx
                                    |? fd incoming reply Ht Hfd|? fd Ht Hfd| | |]; subst.
    + left. apply read_request_spec.
    + left. by rewrite (proj2 (proj2 (proj2 (mind_exception_spec _ _)))).
    + by left.
    + right. exists fd. split; [done|]. right. by exists incoming, reply.
    + right. exists fd. split; [done|]. by left.
Qed.

(** *** How far a connection has to go *)

(** The steps thread [t] has taken since a connection was last accepted for it. *)
Definition moves_since (t : nat) (tr : list clabel) : Z :=
  foldl (λ n l, match l with
                | CAccept t' => if decide (t' = t) then 0 else n
                | COwn t' => if decide (t' = t) then n + 1 else n
                | _ => n
                end) 0 tr.

(** The steps it has left to take at most. *)
Definition talk_due s (t : nat) : Z :=
  match talks s !! t with
  | None => 0
  | Some Reading => 14
  | Some (Handling _) => due (plat s) t + 3
  | Some (Sending _ _) => 2
  | Some Closing => 1
  end.

Lemma talk_due_nonneg s t : 0 ≤ talk_due s t.
Proof. unfold talk_due. pose proof (due_nonneg (plat s) t). repeat case_match; lia. Qed.

(** Reading leaves the thread with fewer steps, unless an exception ends the process. *)
Lemma read_due s t incoming :
  threads_agree (plat s) → handlers (plat s) !! t = None →
  ServerLoop.terminated (srv (read_request (J:=J) default_idle_ms t incoming s)) = false →
  talk_due (read_request (J:=J) default_idle_ms t incoming s) t ≤ 13.
Proof.
  intros Hth Hn. unfold read_request. destruct (parse_request incoming) as [[req|]|x|u]; try done.
  - destruct (api_call req) as [c|] eqn:Hc.
    + intros _. unfold talk_due.
      match goal with |- context [mind_exception t ?s1] =>
        destruct (mind_exception_spec t s1) as (-> & -> & _) end.
      simpl. rewrite lookup_insert_eq.
      destruct (pstep_due (J:=J) default_idle_ms (plat s) (PArrive t c)
                  (with_handler t (received (J:=J) default_idle_ms c) (plat s)) t Hth) as [Harr _];
        [by constructor|]. destruct (Harr eq_refl) as (_ & _ & Hd).
      by apply (Z.add_le_mono_r _ 10 3).
    + destruct (refused_alone (J:=J) default_idle_ms req (plat s) Hc) as (resp & _ & ->).
      intros _. unfold talk_due. simpl. rewrite lookup_insert_eq. lia.
  - intros _. unfold talk_due. simpl. rewrite lookup_insert_eq. lia.
Qed.

Lemma talk_due_same s s' t :
  talks s' !! t = talks s !! t → due (plat s') t = due (plat s) t → talk_due s' t = talk_due s t.
Proof. intros Ht Hd. unfold talk_due. by rewrite Ht, Hd. Qed.

Lemma read_elsewhere s t t' incoming :
  t' ≠ t → talk_due (read_request (J:=J) default_idle_ms t' incoming s) t = talk_due s t.
Proof.
  intros Hne. unfold read_request.
  repeat case_match; try done; try (by apply talk_due_same; [apply lookup_insert_ne|]).
  match goal with |- context [mind_exception t' ?s1] =>
    destruct (mind_exception_spec t' s1) as (Hp & Hk & _) end.
  apply talk_due_same; rewrite ?Hp, ?Hk; [by apply lookup_insert_ne|].
  unfold due. simpl. by rewrite lookup_insert_ne.
Qed.

Lemma cmove_due p0 ptr s l s' t :
  live_inv p0 ptr s → threads_agree (plat s) → cmove s l s' →
  (l = CAccept t → talk_due s' t = 14) ∧
  (l = COwn t → 1 ≤ talk_due s t ∧
     (ServerLoop.terminated (srv s') = false → talk_due s' t + 1 ≤ talk_due s t)) ∧
  (l ≠ CAccept t → l ≠ COwn t → talk_due s' t = talk_due s t).
Proof.
  intros Hi Hth Hmove. pose proof (due_nonneg (plat s) t) as Hpos.
  assert (∀ l p', pstep (J:=J) default_idle_ms (plat s) l p' → ¬ is_arrival_of t l → l ≠ POwn t →
            due p' t = due (plat s) t) as Hother.
  { intros l0 p' Hs. by apply (pstep_due (J:=J) default_idle_ms (plat s) l0 p' t Hth Hs). }
  destruct Hmove as [t' v Hv Hc|t' v Hv Hc Hh Hacc|v Hv|t' incoming Ht|t' incoming p' Ht Hs
                    |t' incoming resp Ht Hh|t' fd incoming reply Ht Hfd|t' fd Ht Hfd|p' Hs|p' Hs|x He];
    (split_and!; [intros Hl|intros Hl|intros Hna Hno]); try done; try (injection Hl as ->);
    try (assert (t' ≠ t) as Hne by congruence).
  - apply listen_app in Hv as [Ha _]. apply talk_due_same; [done|]. unfold plat. simpl. by rewrite Ha.
  - unfold talk_due. simpl. by rewrite lookup_insert_eq.
  - apply listen_app in Hv as [Ha _].
    apply talk_due_same; [by apply lookup_insert_ne|]. unfold plat. simpl. by rewrite Ha.
  - apply stop_app in Hv as [Ha _]. apply talk_due_same; [done|]. unfold plat. simpl. by rewrite Ha.
  - pose proof (li_serving _ _ _ _ Hi t) as Hn. rewrite Ht in Hn.
    assert (talk_due s t = 14) as -> by (unfold talk_due; by rewrite Ht). split; [lia|].
    intros Hx. pose proof (read_due s t incoming Hth Hn Hx). lia.
  - by apply read_elsewhere.
  - destruct (pstep_due (J:=J) default_idle_ms (plat s) (POwn t) p' t Hth Hs) as (_ & Hown & _).
    destruct (Hown eq_refl) as [_ Hd]. unfold talk_due.
    destruct (mind_exception_spec t (with_plat p' s)) as (-> & -> & _). simpl. rewrite Ht.
    split; [lia|]. intros _. unfold plat in *. simpl. lia.
  - destruct (mind_exception_spec t' (with_plat p' s)) as (Hp & Hk & _).
    apply talk_due_same; rewrite ?Hp, ?Hk; [done|]. apply (Hother _ _ Hs); simpl; congruence.
  - unfold talk_due. simpl. rewrite Ht, lookup_insert_eq. lia.
  - by apply talk_due_same; [apply lookup_insert_ne|].
  - unfold talk_due. simpl. rewrite Ht, lookup_insert_eq. lia.
  - by apply talk_due_same; [apply lookup_insert_ne|].
  - unfold talk_due. simpl. rewrite Ht, lookup_delete_eq. lia.
  - by apply talk_due_same; [apply lookup_delete_ne|].
  - apply talk_due_same; [done|]. apply (Hother _ _ Hs); [by intros []|done].
  - apply talk_due_same; [done|]. apply (Hother _ _ Hs); [by intros []|done].
Qed.

Lemma moves_since_snoc t tr l :
  moves_since t (tr ++ [l]) =
    if decide (l = CAccept t) then 0
    else moves_since t tr + (if decide (l = COwn t) then 1 else 0).
Proof.
  unfold moves_since. rewrite foldl_app. simpl.
  destruct l; repeat case_decide; simplify_eq; try done; lia.
Qed.

Lemma moves_and_due (d : D) (e : E) (n : N) m0 h0 tr s t :
  starts default_idle_ms d e m0 h0 → crun (launch n (pstart d e)) tr s →
  moves_since t tr ≤ 14 ∧
  (ServerLoop.terminated (srv s) = false → moves_since t tr + talk_due s t ≤ 14).
Proof.
  intros Hstart. induction 1 as [|tr l s1 s2 Hrun [_ IH] Hterm Hm]; [by vm_compute|].
  specialize (IH Hterm).
  destruct (crun_inv (pstart d e) n tr s1) as [ptr Hi]; [|done..|].
  { intros t' r. simpl. by rewrite lookup_empty. }
  destruct (starts_inv _ _ _ _ _ _ _ Hstart (li_run _ _ _ _ Hi)) as (tr' & m & h & Hinv).
  destruct (cmove_due _ _ _ _ _ t Hi (pi_threads _ _ _ _ _ _ _ _ _ Hinv) Hm) as (Hacc & Hown & Ho).
  rewrite moves_since_snoc. pose proof (talk_due_nonneg s1 t).
  destruct (decide (l = CAccept t)) as [Hl|Hl]; [rewrite (Hacc Hl); lia|].
  destruct (decide (l = COwn t)) as [Hl'|Hl']; [destruct (Hown Hl') as [? Hd]|].
  { split; [lia|]. intros Hx. specialize (Hd Hx). lia. }
  rewrite (Ho Hl Hl'). lia.
Qed.

(** C11: Every connection the service accepts is served and closed within fourteen steps
    of its thread, and waits for no other connection: as long as the process lives the
    thread goes on as soon as its own client has sent its request, inside the handler
    as the platform lets the request proceed - at once, or when its own container has
    answered - and then it sends the handler's answer to its own descriptor and closes
    it. *)
Theorem connections_complete (d : D) (e : E) (n : N) m0 h0 tr s t :
  starts default_idle_ms d e m0 h0 → crun (launch n (pstart d e)) tr s →
  moves_since t tr ≤ 14 ∧
  (ServerLoop.terminated (srv s) = false → is_Some (connections (srv s) !! t) →
   moves_since t tr + talk_due s t ≤ 14 ∧ 0 < talk_due s t ∧
   ∃ fd, connections (srv s) !! t = Some fd ∧
     match talks s !! t with
     | Some Reading =>
         ∀ incoming, cmove s (COwn t) (read_request (J:=J) default_idle_ms t incoming s)
     | Some (Handling incoming) =>
         (∃ resp, handlers (plat s) !! t = Some (Answered (Ok resp)) ∧
            cmove s (COwn t) (talk_to t (Sending incoming (reply_text resp)) s)) ∨
         (proceeds (J:=J) default_idle_ms (plat s) t ∧
          ∀ p', pstep (J:=J) default_idle_ms (plat s) (POwn t) p' →
            cmove s (COwn t) (mind_exception t (with_plat p' s)))
     | Some (Sending _ reply) => cmove s (COwn t) (send_reply t fd reply s)
     | Some Closing => cmove s (COwn t) (close_connection t fd s)
     | None => False
     end).
Proof.
  intros Hstart Hrun.
  destruct (moves_and_due _ _ _ _ _ _ _ t Hstart Hrun) as [Hmoves Hdue]. split; [done|].
  intros Hterm [fd Hfd]. specialize (Hdue Hterm).
  destruct (crun_inv (pstart d e) n tr s) as [ptr Hi]; [|done..|].
  { intros t' r. simpl. by rewrite lookup_empty. }
  destruct (starts_inv _ _ _ _ _ _ _ Hstart (li_run _ _ _ _ Hi)) as (tr' & m & h & Hinv).
  pose proof (li_serving _ _ _ _ Hi t) as Hsv.
  assert (t ∈ dom (talks s)) as [k Ht]%elem_of_dom.
  { rewrite (li_dom _ _ _ _ Hi). by eapply elem_of_dom_2. }
  split; [done|]. split.
  { pose proof (due_nonneg (plat s) t). unfold talk_due. rewrite Ht. destruct k; lia. }
  exists fd. split; [done|]. rewrite Ht in Hsv |- *. destruct k as [|inc|inc reply|].
  - intros incoming. by apply c_read.
  - destruct Hsv as (c & hd & _ & _ & Hh).
    assert ((∃ r, hd = Answered r) ∨ ∀ r, hd ≠ Answered r) as [[r ->]|Hna]
      by (destruct hd; eauto; right; done).
    + left. destruct (li_alive _ _ _ _ Hi Hterm t r Hh) as [resp ->]. exists resp.
      split; [done|]. by eapply c_answer.
    + right. split; [|intros p' Hs; by eapply c_handle].
      by eapply unanswered_proceeds; [exact (pi_threads _ _ _ _ _ _ _ _ _ Hinv)|..].
  - by eapply c_send.
  - by apply c_close.
Qed.

(** *** Descriptors *)

Lemma conn_inv_same (v v' : Server (Plat D E) N) :
  conn_inv v → listen_fd_ v' = listen_fd_ v → listener v' = listener v → stopper v' = stopper v →
  connections v' = connections v → open_fds (net v') = open_fds (net v) → conn_inv v'.
Proof.
  intros Hv Hl Hli Hst Hc Ho. eapply conn_inv_move; [exact Hv|done| | | |].
  - intros fd _. by rewrite Ho.
  - intros fd. by rewrite Hli.
  - intros fd. unfold held. by rewrite Hl, Hst.
  - rewrite Hli, Hl. apply Hv.
Qed.

Lemma mind_exception_conn t s : conn_inv (srv s) → conn_inv (srv (mind_exception t s)).
Proof. intros Hv. unfold mind_exception. repeat case_match; try done; by eapply conn_inv_same. Qed.

Lemma cmove_conn_inv s l s' : conn_inv (srv s) → cmove s l s' → conn_inv (srv s').
Proof.
  intros Hv Hm. destruct Hm as [t v Hs _|t v Hs _ _ _|v Hs|t incoming _|t incoming p' _ _|t incoming resp _ _
                               |t fd incoming reply _ Hfd|t fd _ Hfd|p' _|p' _|x [_ Hx]]; simpl.
  - by eapply conn_inv_listen.
  - by eapply conn_inv_listen.
  - by eapply conn_inv_stop.
  - unfold read_request.
    repeat case_match; try done; try (by eapply conn_inv_same). apply mind_exception_conn. by eapply conn_inv_same.
  - apply mind_exception_conn. by eapply conn_inv_same.
  - done.
  - eapply conn_inv_same; try done. simpl. by rewrite send_spec.
  - eapply conn_inv_closed; [done|done|apply close_spec].
  - by eapply conn_inv_same.
  - by eapply conn_inv_same.
  - eapply conn_inv_move; try exact Hv; try done. apply Hv.
Qed.

(** C33: Under every interleaving of the service's threads each connection has a thread of
    its own, with a descriptor that is open and that no other thread and no listening
    uses; the thread's own steps close that descriptor when it has nothing left to do,
    and open or close no other. *)
Theorem service_connections_own_their_sockets p0 (e : N) tr s :
  crun (launch e p0) tr s →
  (∀ t fd, connections (srv s) !! t = Some fd →
     fd ∈ open_fds (net (srv s)) ∧
     (∀ t', connections (srv s) !! t' = Some fd → t' = t) ∧
     listener (srv s) ≠ AtTest fd ∧ ¬ held (srv s) fd) ∧
  ∀ t s', cmove s (COwn t) s' →
    match talks s !! t with
    | Some Closing => ∃ fd, connections (srv s) !! t = Some fd ∧
        connections (srv s') = delete t (connections (srv s)) ∧
        open_fds (net (srv s')) = open_fds (net (srv s)) ∖ {[fd]}
    | _ => connections (srv s') = connections (srv s) ∧
           open_fds (net (srv s')) = open_fds (net (srv s))
    end.
Proof.
  intros Hrun. assert (conn_inv (srv s)) as Hv.
  { induction Hrun as [|tr l s1 s2 _ IH _ Hm]; [apply conn_inv_new|]. by eapply cmove_conn_inv. }
  split.
  - intros t fd Ht. destruct (conn_open _ Hv t fd Ht) as [Hge Hfd]. split_and!; [done| | |].
    + intros t' Ht'. by eapply (conn_inj _ Hv).
    + intros El. by destruct (conn_pending _ Hv fd El Hge) as [_ Hn], (Hn t).
    + intros Hh. by destruct (conn_listen _ Hv fd Hh) as (_ & Hn & _), (Hn t).
  - intros t s' Hm. inversion Hm as [| | |? incoming Ht|? incoming p' Ht Hs|? incoming resp Ht Hx
                                    |? fd incoming reply Ht Hfd|? fd Ht Hfd| | |]; subst;
      rewrite Ht.
    + destruct (read_request_spec (J:=J) default_idle_ms t incoming s) as [-> ->]. done.
    + destruct (mind_exception_spec t (with_plat p' s)) as (_ & _ & -> & ->). done.
    + done.
    + simpl. by rewrite send_spec.
    + exists fd. split_and!; [done|done|]. apply close_spec.
Qed.
End properties.

(** ** Playing a schedule *)

Inductive turn : Type :=
  | Door (t : nat)                             (* the listening thread; it may start [t] *)
  | Halt                                       (* the thread that calls [stop] *)
  | Read (t : nat) (incoming : list string)
  | Work (t : nat).                            (* thread [t]'s next step after reading *)

Section play.
  Context {J : Type} `{Json J} {D : Type} `{Sqlite D, SqliteView D}.
  Context {E : Type} `{Clock E, ContainerBackend E, Sockets E, BackendHistory E}.
  Context {N : Type} `{AcceptorSpec N}.
  Context (default_idle_ms : Z) (host : string) (port : Z) (reply : ClientResponse).
  Implicit Types s : Live D E N.

(** Every call to a container is answered [reply]. *)
Definition work (t : nat) s : option (Live D E N) :=
  k ← talks s !! t;
  match k with
  | Reading => None
  | Handling incoming =>
      match handlers (plat s) !! t with
      | Some (Answered (Ok resp)) => Some (talk_to t (Sending incoming (reply_text resp)) s)
      | _ => p' ← next (J:=J) default_idle_ms reply (POwn t) (plat s);
             Some (mind_exception t (with_plat p' s))
      end
  | Sending _ text => fd ← connections (srv s) !! t; Some (send_reply t fd text s)
  | Closing => fd ← connections (srv s) !! t; Some (close_connection t fd s)
  end.

Definition take_turn (a : turn) s : option (clabel * Live D E N) :=
  if ServerLoop.terminated (srv s) then None else
  match a with
  | Door t =>
      v ← listen_step host port t (srv s);
      if decide (connections v = connections (srv s)) then Some (CListen, with_srv v s)
      else if decide (connections (srv s) !! t = None ∧ is_Some (connections v !! t)) then
        match handlers (plat s) !! t with
        | None => Some (CAccept t, talk_to t Reading (with_srv v s))
        | Some _ => None
        end
      else None
  | Halt => v ← stop_step (srv s); Some (CStop, with_srv v s)
  | Read t incoming =>
      match talks s !! t with
      | Some Reading => Some (COwn t, read_request (J:=J) default_idle_ms t incoming s)
      | _ => None
      end
  | Work t => s' ← work t s; Some (COwn t, s')
  end.

Fixpoint take_turns (l : list turn) s : option (list clabel * Live D E N) :=
  match l with
  | [] => Some ([], s)
  | a :: l => '(x, s') ← take_turn a s; '(xs, s'') ← take_turns l s'; Some (x :: xs, s'')
  end.

Notation cmove := (cmove (J:=J) default_idle_ms host port).
Notation crun := (crun (J:=J) default_idle_ms host port).

Lemma work_cmove t s s' : work t s = Some s' → cmove s (COwn t) s'.
Proof.
  unfold work. destruct (talks s !! t) as [k|] eqn:Ht; [|done]. destruct k as [|inc|inc text|]; simpl.
  - done.
  - intros Hs. assert (∀ p', next (J:=J) default_idle_ms reply (POwn t) (plat s) = Some p' →
                 cmove s (COwn t) (mind_exception t (with_plat p' s))) as Hn.
    { intros p' Hp'. eapply c_handle; [done|]. by eapply next_pstep. }
    simpl in Hn. destruct (handlers (plat s) !! t) as [h|] eqn:Hh.
    + assert ((∃ resp, h = Answered (Ok resp) ∧ s' = talk_to t (Sending inc (reply_text resp)) s) ∨
              ∃ p', own_next (J:=J) reply t (plat s) = Some p' ∧ s' = mind_exception t (with_plat p' s))
        as [(resp & -> & ->)|(p' & Hp' & ->)].
      { destruct (own_next reply t (plat s)) as [p'|].
        - destruct h as [| | | | | | | | | | | | | | |[resp| |]]; simplify_eq/=; eauto.
        - destruct h as [| | | | | | | | | | | | | | |[resp| |]]; simplify_eq/=; eauto. }
      * by eapply c_answer.
      * by apply Hn.
    + destruct (own_next reply t (plat s)) as [p'|]; [|done]. injection Hs as <-. by apply Hn.
  - destruct (connections (srv s) !! t) as [fd|] eqn:Hfd; [|done]. intros [= <-]. by eapply c_send.
  - destruct (connections (srv s) !! t) as [fd|] eqn:Hfd; [|done]. intros [= <-]. by eapply c_close.
Qed.

Lemma take_turn_cmove a s l s' :
  take_turn a s = Some (l, s') → ServerLoop.terminated (srv s) = false ∧ cmove s l s'.
Proof.
  unfold take_turn. destruct (ServerLoop.terminated (srv s)); [done|]. intros Ha. split; [done|].
  revert Ha. destruct a as [t| |t incoming|t].
  - destruct (listen_step host port t (srv s)) as [v|] eqn:Hv; [|done]. simpl.
    case_decide; [intros [= <- <-]; by eapply c_listen|]. case_decide as Hd; [|done].
    destruct Hd as [? ?]. destruct (handlers (plat s) !! t) eqn:Hh; [done|].
    intros [= <- <-]. by eapply c_accept.
  - destruct (stop_step (srv s)) as [v|] eqn:Hv; [|done]. intros [= <- <-]. by eapply c_stop.
  - destruct (talks s !! t) as [[]|] eqn:Ht; try done. intros [= <- <-]. by eapply c_read.
  - destruct (work t s) as [s1|] eqn:Hw; [|done]. intros [= <- <-]. by apply work_cmove.
Qed.

Lemma take_turns_crun l : ∀ s s' s0 tr xs,
  crun s0 tr s → take_turns l s = Some (xs, s') → crun s0 (tr ++ xs) s'.
Proof.
  induction l as [|a l IH]; intros s s' s0 tr xs Hr; simpl.
  - intros [= <- <-]. by rewrite app_nil_r.
  - destruct (take_turn a s) as [[x s1]|] eqn:Ha; [|done]. simpl.
    destruct (take_turns l s1) as [[xs1 s2]|] eqn:Hl; [|done]. intros [= <- <-].
    destruct (take_turn_cmove _ _ _ _ Ha) as [Hterm Hm].
    replace (tr ++ x :: xs1) with ((tr ++ [x]) ++ xs1) by (by rewrite <-app_assoc).
    eapply IH, Hl. by eapply crun_snoc.
Qed.
End play.

(** ** The hypotheses can be met

    Two clients: one invokes a function, which the other removes after the first
    thread has looked it up. *)

Definition two_clients : Live Mem Sim Net := launch (n_set [] [] 2) demo_start.

Definition demo_removal : list string := ["DELETE /functions/hello HTTP/1.1" +:+ CRLF +:+ CRLF].

Definition both_accepted : list turn := replicate 9 (Door 0) ++ replicate 4 (Door 1).
Definition crossing : list turn :=
  both_accepted ++ [Read 0 demo_invocation; Work 0; Read 1 demo_removal; Work 1; Work 1; Work 1] ++
  replicate 7 (Work 0).

Definition demo_turns (l : list turn) : option (list clabel * Live Mem Sim Net) :=
  take_turns (J:=Tree) 60000 "0.0.0.0" 8080 ok_response l two_clients.

(** Where the two threads stand. *)
Definition stands (k : option Talk) : nat :=
  match k with
  | None => 0 | Some Reading => 1 | Some (Handling _) => 2 | Some (Sending _ _) => 3
  | Some Closing => 4
  end.
Definition positions (s : Live Mem Sim Net) : nat * nat * bool :=
  (stands (talks s !! 0%nat), stands (talks s !! 1%nat), ServerLoop.terminated (srv s)).

Lemma demo_turns_crun l tr s :
  demo_turns l = Some (tr, s) → crun (J:=Tree) 60000 "0.0.0.0" 8080 two_clients tr s.
Proof. intros Hl. eapply (take_turns_crun _ _ _ _ l two_clients s two_clients []); [constructor|exact Hl]. Qed.

Lemma crossing_positions :
  positions ∘ snd <$> demo_turns crossing = Some (3%nat, 3%nat, false).
Proof. vm_compute. reflexivity. Qed.
Lemma accepted_positions :
  positions ∘ snd <$> demo_turns both_accepted = Some (1%nat, 1%nat, false).
Proof. vm_compute. reflexivity. Qed.

Lemma concurrent_clients_get_their_answers_witness :
  ∃ tr s ptr, demo_turns crossing = Some (tr, s) ∧ positions s = (3%nat, 3%nat, false) ∧
    prun (J:=Tree) 60000 demo_start ptr (plat s) ∧
    ∀ t, serving ptr (plat s) t (talks s !! t).
Proof.
  destruct (proj1 (fmap_Some _ _ _) crossing_positions) as ([tr s] & Hs & Hpos).
  exists tr, s.
  destruct (concurrent_clients_get_their_answers (J:=Tree) 60000 "0.0.0.0" 8080 demo_start
              (n_set [] [] 2) tr s) as [(ptr & Hp & Hsv) _];
    [by intros t r|reflexivity|by apply (demo_turns_crun crossing)|].
  exists ptr. split; [exact Hs|]. split; [exact (eq_sym Hpos)|]. by split.
Defined.

Lemma connections_complete_witness :
  ∃ tr s s', demo_turns both_accepted = Some (tr, s) ∧
    moves_since 0 tr ≤ 14 ∧ 0 < talk_due s 0 ∧ talks s !! 0%nat = Some Reading ∧
    cmove (J:=Tree) 60000 "0.0.0.0" 8080 s (COwn 0) s'.
Proof.
  destruct (proj1 (fmap_Some _ _ _) accepted_positions) as ([tr s] & Hs & Hpos).
  exists tr, s, (read_request (J:=Tree) 60000 0 demo_invocation s).
  destruct (connections_complete (J:=Tree) 60000 "0.0.0.0" 8080 (store demo_start)
              (new_sim [reply_ok; reply_ok]) (n_set [] [] 2) demo_registry ∅ tr s 0) as [Hn Hstep];
    [exact demo_starts|by apply (demo_turns_crun both_accepted)|].
  assert ((λ x, connections (srv x.2) !! 0%nat) <$> demo_turns both_accepted = Some (Some 4)) as Hdom
    by (vm_compute; reflexivity).
  rewrite Hs in Hdom. injection Hdom as Hdom. injection Hpos as Hk _ Hterm.
  destruct (Hstep (eq_sym Hterm)) as (_ & Hdue & fd & _ & Hgo); [simpl in Hdom; rewrite Hdom; by eexists|].
  destruct (talks s !! 0%nat) as [[]|]; try discriminate Hk.
  split; [exact Hs|]. split; [exact Hn|]. split; [exact Hdue|]. split; [reflexivity|apply Hgo].
Defined.

Lemma service_connections_own_their_sockets_witness :
  ∃ tr s fd fd', demo_turns both_accepted = Some (tr, s) ∧
    connections (srv s) !! 0%nat = Some fd ∧ connections (srv s) !! 1%nat = Some fd' ∧
    fd ∈ open_fds (net (srv s)) ∧ fd' ∈ open_fds (net (srv s)).
Proof.
  destruct (proj1 (fmap_Some _ _ _) accepted_positions) as ([tr s] & Hs & _).
  destruct (service_connections_own_their_sockets (J:=Tree) 60000 "0.0.0.0" 8080 demo_start
              (n_set [] [] 2) tr s) as [Ho _]; [by apply (demo_turns_crun both_accepted)|].
  assert ((λ x, (connections (srv x.2) !! 0%nat, connections (srv x.2) !! 1%nat)) <$>
            demo_turns both_accepted = Some (Some 4, Some 5)) as Hfd by (vm_compute; reflexivity).
  rewrite Hs in Hfd. injection Hfd as H0 H1. exists tr, s, 4, 5.
  split_and!; [exact Hs|exact H0|exact H1|apply (Ho 0%nat 4 H0)|apply (Ho 1%nat 5 H1)].
Defined.
