(* ===== verification/Startup.v ===== *)
(** * Starting the control plane ([main] of [control-plane/src/main.cpp])

    What [main] does before it serves: the environment, the database with its two
    tables and whether they suit the statements of the stores, the backend, the server; and what survives when one process ends, by
    whatever means, and the next one starts. *)

From S2P Require Import Prelude CppStd StringFacts ShellExec ContainerBackend DockerClient.
From S2P Require Import KubernetesClient FunctionModel Metrics Http HttpClient HttpServer ServerLoop.
From S2P Require Import RuntimeManager RuntimeInvariant KubernetesContract SimWorld RuntimeCalls.
From S2P Require Import RuntimeConcurrency RuntimePool Database MemDatabase FunctionRegistry.
From S2P Require Import InvocationStore Json ControlPlane ControlPlaneFacts PlatformRuns.
From S2P Require Import PlatformFacts PlatformPromises PlatformHandlers.
Import FunctionRegistry InvocationStore.

(** [std::getenv] *)
Definition Environ : Type := string → option string.

Definition db_path (getenv : Environ) : string := default "faas.db" (getenv "FAAS_DB_PATH").
Definition listen_host (getenv : Environ) : string := default "0.0.0.0" (getenv "FAAS_HOST").

(** ** The backend *)

(** Either backend runs in a process that has the pod counter. *)
Definition docker_in_proc {E} `{Shell E} : ContainerBackend (KubeProc E) :=
  @DockerClient.backend (KubeProc E) {| sh_popen command := on_world (sh_popen command) |}.

Definition platform_backend {E} `{Shell E, Clock E} (kind : backend_kind) :
    ContainerBackend (KubeProc E) :=
  match kind with
  | KindDocker => docker_in_proc
  | KindKubernetes => KubernetesClient.backend
  end.

(** ** Up to [server.listen] *)

Section main.
  Context {J : Type} `{Json J} {D : Type} `{Sqlite D}.

Definition backend_banner (kind : backend_kind) : string :=
  match kind with
  | KindDocker => "runtime backend: docker"
  | KindKubernetes => "runtime backend: kubernetes (kubectl)"
  end.
Definition listening_banner (getenv : Environ) : string :=
  "control plane listening on " +:+ listen_host getenv +:+ ":"
  +:+ to_string (listen_port (getenv "FAAS_PORT")).

(** The objects [main] builds, in order; the runtime manager starts empty on the
    world [e]. *)
Definition boot {E} (getenv : Environ) (e : E) : Io D (Platform D E) :=
  _ ⇐ open_database (db_path getenv);
  _ ⇐ open_registry;
  _ ⇐ open_store;
  λ d, (Ok {| db := d; manager := new_manager e;
              platform_default_idle_timeout_ms :=
                default_idle_timeout_ms (getenv "FAAS_IDLE_TIMEOUT_MS") |}, d).

Section serving.
  Context {E : Type} `{Shell E, Clock E, Sockets E}.
  Context {N : Type} `{Acceptor N}.

(** The route table over the backend that the environment chooses. *)
Definition main_routes (getenv : Environ) : list (Route (Platform D (KubeProc E))) :=
  @api_routes J _ D _ (KubeProc E) _
    (platform_backend (make_runtime_backend (getenv "FAAS_RUNTIME_BACKEND"))) _.

(** [main] until the server has something to do: what it printed, and the server
    about to listen. *)
Definition main (getenv : Environ) (e : E) (net : N) :
    Io D (list string * Server (Platform D (KubeProc E)) N) :=
  p ⇐ boot getenv {| pod_counter := 0; kube_world := e |};
  io_ret ([backend_banner (make_runtime_backend (getenv "FAAS_RUNTIME_BACKEND"));
           listening_banner getenv],
          new_server p net).

(** Its thread goes on with [server.listen]. *)
Definition main_step (getenv : Environ) (t : nat) (s : Server (Platform D (KubeProc E)) N) :
    option (Server (Platform D (KubeProc E)) N) :=
  listen_step (listen_host getenv) (listen_port (getenv "FAAS_PORT")) t s.

(** The server that [main] starts has the platform of [PlatformRuns] behind it. *)
Lemma main_serves `{!SqliteView D, !BackendHistory (KubeProc E)} getenv (e : E) (ne : N) d lines s d' :
  main getenv e ne d = (Ok (lines, s), d') →
  ∃ ms, s = new_server
    (as_platform ms (pstart d' {| pod_counter := 0; kube_world := e |})) ne.
Proof.
  unfold main, boot, io_bind, io_ret.
  destruct (open_database _ d) as [[u| |] d1]; [|done..].
  destruct (open_registry d1) as [[u1| |] d2]; [|done..].
  destruct (open_store d2) as [[u2| |] d3]; [|done..]. intros [= <- <- <-]. by eexists.
Qed.
End serving.
End main.

(** ** What survives *)

Section restart.
  Context {J : Type} `{Json J, !JsonNumbers J} {D : Type} `{SqliteSpec D, !SqliteSchema D, !SqliteFile D}.
  Context {E : Type} `{Clock E, ContainerBackend E, Sockets E, BackendHistory E}.
  Context `{!BackendSpec E, !QuietWorld E}.

Lemma stol_range s z : stol s = Ok z → in_long z.
Proof. unfold stol. destruct (strto s); [|done]. case_decide; [|done]. by intros [= <-]. Qed.

Lemma default_idle_range env : in_long (default_idle_timeout_ms env).
Proof.
  unfold default_idle_timeout_ms. destruct env as [v|]; [|by split].
  destruct (stol v) eqn:Hv; [by eapply stol_range|by split|by split].
Qed.

(** The tables of the program, and what its stores ask of them. *)
Definition own_tables : list Schema := [functions_schema; invocations_schema].
Inductive store_use : sql_stmt → list sql_value → Prop :=
  | use_register s : store_use kRegister (bound_values s)
  | use_get name : store_use kGet [bind_text name]
  | use_remove name : store_use kRemove [bind_text name]
  | use_list : store_use kList []
  | use_record function_name input output status duration_ms (cold_start : bool) :
      store_use kInvocationInsert
        [bind_text function_name; bind_text input; bind_text output; bind_text status;
         bind_int64 duration_ms; bind_int64 (if cold_start then 1 else 0)]
  | use_record_of id : store_use kInvocationSelect [bind_int64 id].

Lemma own_tables_fit stmt params :
  store_use stmt params → ∃ sc, sc ∈ own_tables ∧ stmt_table stmt = sc_table sc ∧ fits sc stmt params = true.
Proof.
  assert (functions_schema ∈ own_tables ∧ invocations_schema ∈ own_tables) as [Hf Hi]
    by (unfold own_tables; by rewrite !elem_of_cons; split; [left|right; left]).
  destruct 1; first [exists functions_schema; by split_and!|exists invocations_schema; by split_and!].
Qed.

Lemma open_database_file (d : D) :
  let '(r, d') := open_database (db_file D) d in
  same_tables d d' ∧ (∀ t, db_schema d' t = db_schema d t) ∧ ∀ u, r ≠ Undefined u.
Proof.
  unfold open_database, io_bind, io_lift. pose proof (file_open_law d) as Ho.
  by destruct (sqlite_open (db_file D) d) as [[msg|] d1]; destruct Ho.
Qed.

(** Starting keeps what the tables hold, whether it succeeds or throws; when it succeeds
    both tables are there. *)
Lemma boot_tables getenv (e : E) (d : D) :
  db_path getenv = db_file D →
  let '(r, d') := boot getenv e d in
  same_tables d d' ∧
  match r with
  | Ok p => p = {| db := d'; manager := new_manager e;
                   platform_default_idle_timeout_ms :=
                     default_idle_timeout_ms (getenv "FAAS_IDLE_TIMEOUT_MS") |} ∧
            ∀ sc, sc ∈ own_tables →
              db_schema d' (sc_table sc) = Some (default sc (db_schema d (sc_table sc)))
  | Throw _ => True
  | Undefined _ => False
  end.
Proof.
  intros Hpath. unfold boot, io_bind, open_registry, open_store. rewrite Hpath.
  pose proof (open_database_file d) as Ho.
  destruct (open_database (db_file D) d) as [[u|x|u] d1]; destruct Ho as (Ht & Hs & Hu);
    [|done|by destruct (Hu u)].
  pose proof (exec_create_table functions_schema d1 eq_refl) as Hf.
  destruct (exec (create_table_sql functions_schema) d1) as [[u1|x|u1] d2]; destruct Hf as [Ht1 Hs1];
    [|split; [by eapply same_tables_trans|done]|done].
  pose proof (exec_create_table invocations_schema d2 eq_refl) as Hi.
  destruct (exec (create_table_sql invocations_schema) d2) as [[u2|x|u2] d3]; destruct Hi as [Ht2 Hs2];
    [|split; [by eauto using same_tables_trans|done]|done].
  split; [by eauto using same_tables_trans|]. split; [done|]. intros sc.
  unfold own_tables. rewrite !elem_of_cons, elem_of_nil. intros [-> |[-> |[]]]; rewrite Hs2, Hs1, Hs; done.
Qed.

(** One process on the database and the world the last one left: it fails to start,
    or it serves for a while and ends, by an exception or from outside. *)
Inductive lifetime (getenv : Environ) : D * E → D * E → Prop :=
  | fails_to_start d e x d' :
      boot getenv e d = (Throw x, d') → lifetime getenv (d, e) (d', e)
  | serves_a_while d e q d' tr p :
      boot getenv e d = (Ok q, d') →
      prun (J:=J) (platform_default_idle_timeout_ms q) (pstart (db q) (world (manager q))) tr p →
      lifetime getenv (d, e) (store p, world (mgr (sys p))).

Lemma lifetime_keeps getenv d e d1 e1 m0 h0 :
  db_path getenv = db_file D → stored d m0 h0 → ledger_ok (history e) →
  lifetime getenv (d, e) (d1, e1) →
  ∃ m1 h1, stored d1 m1 h1 ∧ h0 ⊆ h1 ∧ ledger_ok (history e1) ∧
           ∀ i, i ∈ live (history e) → i ∈ live (history e1).
Proof.
  intros Hpath Hst He Hlife. pose proof (boot_tables getenv e d Hpath) as Hb.
  assert ((∃ x, boot getenv e d = (Throw x, d1) ∧ e1 = e) ∨
          ∃ q d' tr p, boot getenv e d = (Ok q, d') ∧
            prun (J:=J) (platform_default_idle_timeout_ms q) (pstart (db q) (world (manager q))) tr p ∧
            d1 = store p ∧ e1 = world (mgr (sys p))) as [(x & Hboot & ->)|(q & d' & tr & p & Hboot & Hrun & -> & ->)].
  { inversion Hlife; subst; [left; eauto|right]. do 4 eexists. eauto. }
  - rewrite Hboot in Hb. destruct Hb as [Ht _]. exists m0, h0. split_and!; try done.
    by eapply stored_same.
  - rewrite Hboot in Hb. destruct Hb as [Ht [-> _]].
    cbn [db manager world new_manager platform_default_idle_timeout_ms] in Hrun.
    assert (stored d' m0 h0) as Hst' by (by eapply stored_same).
    destruct (prun_inv _ m0 h0 e d' tr p He (default_idle_range _) Hst' Hrun)
      as (tr' & m & h & Hinv).
    exists m, h. split; [apply Hinv|]. split; [apply Hinv|].
    pose proof (run_lock_inv (past:=history e) _ _ _ (pi_run _ _ _ _ _ _ _ _ _ Hinv)
                  (start_inv e He)) as Hm.
    split; [apply Hm|]. intros i Hi. apply (inv_live _ Hm). by left.
Qed.

(** C26: Starting on the database of an earlier process: [main] gets as far as serving,
    or throws, and never runs into undefined behaviour. Either way every function and
    every record is still there. When it serves, the runtime manager it built knows no
    runtime and has counted nothing, and the interleavings of its requests may begin;
    each of the two tables is there as the file had it or, if it had none, as the program
    defines it; and unless the file had a table of that name that the program did not
    define, every statement that the stores issue suits its table: its columns are the
    table's, each value it stores has the type that its column declares, no column is left
    out, and its key is the table's. *)
Theorem boot_outcome (getenv : Environ) (d : D) (e : E) (m : gmap string Function)
    (h : gmap Z InvocationRecord) :
  db_path getenv = db_file D → stored d m h → ledger_ok (history e) →
  let '(r, d') := boot getenv e d in
  stored d' m h ∧
  match r with
  | Ok p =>
      db p = d' ∧ runtimes_ (manager p) = ∅ ∧ metrics_ (manager p) = new_metrics ∧
      world (manager p) = e ∧ starts (platform_default_idle_timeout_ms p) d' e m h ∧
      (∀ sc, sc ∈ own_tables →
         db_schema d' (sc_table sc) = Some (default sc (db_schema d (sc_table sc)))) ∧
      ((∀ sc, sc ∈ own_tables → default sc (db_schema d (sc_table sc)) = sc) →
       ∀ stmt params, store_use stmt params →
         ∃ sc, db_schema d' (stmt_table stmt) = Some sc ∧ fits sc stmt params = true)
  | Throw _ => True
  | Undefined _ => False
  end.
Proof.
  intros Hpath Hst He. pose proof (boot_tables getenv e d Hpath) as Hb.
  destruct (boot getenv e d) as [r d']. destruct Hb as [Ht Hr].
  assert (stored d' m h) as Hst' by (by eapply stored_same). split; [done|].
  destruct r as [p|x|u]; [|done..]. destruct Hr as [-> Hs]. split_and!; try done.
  - split; [done|done|apply default_idle_range].
  - intros Hown stmt params Huse.
    destruct (own_tables_fit stmt params Huse) as (sc & Hsc & Htable & Hfits).
    exists sc. split; [|done]. by rewrite Htable, Hs, Hown.
Qed.

(** C27: However often the control plane is stopped, crashes, fails to start and is
    started again on its database, no invocation record is ever lost, and the
    containers of a process that ended go on running for ever: no later process
    removes them, since none knows them. *)
Theorem restarts_keep_records_and_orphans (getenv : Environ) (d d' : D) (e e' : E)
    (m0 : gmap string Function) (h0 : gmap Z InvocationRecord) :
  db_path getenv = db_file D → stored d m0 h0 → ledger_ok (history e) →
  rtc (lifetime getenv) (d, e) (d', e') →
  ∃ m h, stored d' m h ∧ h0 ⊆ h ∧ ledger_ok (history e') ∧
         ∀ i, i ∈ live (history e) → i ∈ live (history e').
Proof.
  intros Hpath Hst He Hlives. remember (d, e) as a eqn:Ha. remember (d', e') as b eqn:Hb.
  revert d e m0 h0 Hst He Ha d' e' Hb.
  induction Hlives as [a|a a1 b Hlife _ IH]; intros d e m0 h0 Hst He -> d' e' Hb.
  { injection Hb as -> ->. by exists m0, h0. }
  destruct a1 as [d1 e1].
  destruct (lifetime_keeps getenv d e d1 e1 m0 h0 Hpath Hst He Hlife) as (m1 & h1 & Hst1 & Hh & He1 & Hlive).
  destruct (IH d1 e1 m1 h1 Hst1 He1 eq_refl d' e' Hb) as (m & h & Hst' & Hh' & He' & Hl').
  exists m, h. split_and!; [done|by etrans|done|]. auto.
Qed.
End restart.

(** ** The port *)

Definition digits_free (v : string) : Prop :=
  starts_with_digit (split_sign (drop_spaces v)).2 = false.

Lemma to_uint16_bounds z : 0 ≤ to_uint16 z < 65536.
Proof. unfold to_uint16. by apply Z.mod_pos_bound. Qed.

Lemma to_uint16_to_int z : to_uint16 (to_int z) = z `mod` 65536.
Proof.
  unfold to_uint16, to_int. change (2 ^ 16) with 65536.
  rewrite Zminus_mod, Z.mod_mod_divide by (by exists 65536).
  rewrite <-Zminus_mod. f_equal. lia.
Qed.

(** [bind] is asked for the value of [FAAS_PORT] modulo 65536: a port of the
    documented range is the one that is bound, a larger or negative number of type
    [long] wraps around to another port, numbers beyond that are clamped first,
    and a value without digits asks for port 0, any free port. *)
Theorem listen_port_bounds {S N : Type} `{Acceptor N} (getenv : Environ) (t : nat)
    (s : Server S N) :
  listener s = AtBind →
  ∃ port, 0 ≤ port < 65536 ∧
    listen_step (listen_host getenv) (listen_port (getenv "FAAS_PORT")) t s
    = (let '(bound, e) := so_bind (listen_fd_ s) (listen_address (listen_host getenv)) port (net s) in
       Some (listener_to
               (if (bound : bool) then AtListen
                else Threw (RuntimeError ("failed to bind to " +:+
                       endpoint (listen_host getenv) (listen_port (getenv "FAAS_PORT")))))
               (set_net e s))) ∧
    match getenv "FAAS_PORT" with
    | None => port = 8080
    | Some v =>
        (digits_free v → port = 0) ∧
        ∀ z, v = to_string z →
          (0 ≤ z < 65536 → port = z) ∧ (in_long z → port = z `mod` 65536) ∧
          (long_max < z → port = 65535) ∧ (z < long_min → port = 0)
    end.
Proof.
  intros Hb. exists (to_uint16 (listen_port (getenv "FAAS_PORT"))).
  split; [apply to_uint16_bounds|]. split; [unfold listen_step; by rewrite Hb|].
  destruct (getenv "FAAS_PORT") as [v|]; [|done]. unfold listen_port, atoi. split.
  - unfold digits_free, strto. destruct (split_sign (drop_spaces v)) as [neg s']. simpl.
    by intros ->.
  - intros z ->. rewrite strto_to_string, signed_parse.
    unfold in_long, long_min, long_max. rewrite to_uint16_to_int.
    split_and!; intros Hz.
    + rewrite Z.min_r, Z.max_r by lia. apply Z.mod_small. lia.
    + by rewrite Z.min_r, Z.max_r by lia.
    + by rewrite Z.min_l, Z.max_r by lia.
    + by rewrite Z.min_r, Z.max_l by lia.
Qed.

(** ** The hypotheses can be met *)

Definition no_environment : Environ := λ _, None.
Definition port_environment (v : string) : Environ :=
  λ name, if decide (name = "FAAS_PORT") then Some v else None.

Lemma demo_path : db_path no_environment = db_file Mem.
Proof. reflexivity. Qed.

Lemma new_mem_stored : stored (new_mem 7) ∅ ∅.
Proof.
  split; split; [by vm_compute|intros n f Hf; by rewrite lookup_empty in Hf
                |intros z; by vm_compute|intros z r Hr; by rewrite lookup_empty in Hr].
Qed.
Lemma demo_own sc :
  sc ∈ own_tables → default sc (db_schema (db demo_platform) (sc_table sc)) = sc.
Proof.
  unfold own_tables. rewrite !elem_of_cons, elem_of_nil. intros [-> |[-> |[]]]; by vm_compute.
Qed.
Definition booted {A} (r : outcome A) : bool := match r with Ok _ => true | _ => false end.

(** On a file with both tables, and on a new one. *)
Lemma boot_outcome_witness :
  (∃ p d', boot no_environment (new_sim []) (db demo_platform) = (Ok p, d') ∧
           stored d' demo_registry ∅ ∧ runtimes_ (manager p) = ∅ ∧
           ∀ name, ∃ sc, db_schema d' "functions" = Some sc ∧ fits sc kGet [bind_text name] = true) ∧
  ∃ p d', boot no_environment (new_sim []) (new_mem 7) = (Ok p, d') ∧ stored d' ∅ ∅ ∧
          db_schema d' "invocations" = Some invocations_schema.
Proof.
  assert (∀ d, booted (boot no_environment (new_sim []) d).1 = true →
            ∃ p d', boot no_environment (new_sim []) d = (Ok p, d')) as Hok.
  { intros d. destruct (boot no_environment (new_sim []) d) as [[p|x|u] d']; [by exists p, d'|done..]. }
  split.
  - destruct (Hok (db demo_platform)) as (p & d' & Hboot); [by vm_compute|].
    pose proof (boot_outcome (D:=Mem) no_environment (db demo_platform) (new_sim []) demo_registry ∅
                  demo_path demo_stored ledger_ok_nil) as Hb.
    rewrite Hboot in Hb. destruct Hb as (Hst & _ & Hr & _ & _ & _ & _ & Hfit). exists p, d'.
    split; [exact Hboot|]. split; [exact Hst|]. split; [exact Hr|]. intros name.
    apply (Hfit demo_own kGet), use_get.
  - destruct (Hok (new_mem 7)) as (p & d' & Hboot); [by vm_compute|].
    pose proof (boot_outcome (D:=Mem) no_environment (new_mem 7) (new_sim []) ∅ ∅
                  demo_path new_mem_stored ledger_ok_nil) as Hb.
    rewrite Hboot in Hb. destruct Hb as (Hst & _ & _ & _ & _ & _ & Hs & _). exists p, d'.
    split; [exact Hboot|]. split; [exact Hst|]. apply (Hs invocations_schema). right. left.
Defined.

(** A process that left a container behind, and one that failed to start. *)
Lemma restarts_keep_records_and_orphans_witness :
  ∃ m h, stored (store runtime_left) m h ∧
         ledger_ok (history (world (mgr (sys runtime_left)))).
Proof.
  destruct (restarts_keep_records_and_orphans (J:=Tree) (D:=Mem) no_environment (db demo_platform)
              (store runtime_left) (new_sim [reply_ok; reply_ok])
              (world (mgr (sys runtime_left))) demo_registry ∅ demo_path demo_stored ledger_ok_nil)
    as (m & h & Hst & _ & Hl & _); [|by exists m, h].
  apply rtc_once. eapply (serves_a_while no_environment); [reflexivity|].
  exact runtime_left_run.
Defined.

Lemma listen_port_bounds_witness :
  ∃ port, listen_step "0.0.0.0" (listen_port (port_environment "70000" "FAAS_PORT")) 0
            (listener_to AtBind (new_server tt demo_net))
          = Some (listener_to AtListen (set_net (so_bind (-1) (so_inaddr_any (E:=Net)) port demo_net).2
                    (listener_to AtBind (new_server tt demo_net)))) ∧
          port = 4464.
Proof.
  destruct (listen_port_bounds (port_environment "70000") 0 (listener_to AtBind (new_server tt demo_net)) eq_refl)
    as (port & _ & Hstep & _ & Hport).
  exists port. destruct (Hport 70000 eq_refl) as (_ & Hp & _).
  split; [exact Hstep|]. by rewrite Hp.
Defined.
