(* ===== verification/Timeouts.v ===== *)
(** * What the socket timeouts bound ([http_client.cpp], [runtime_manager.cpp])

    [Client::request] sets [SO_RCVTIMEO] and [SO_SNDTIMEO], which the operating system
    applies to every [connect], [send] and [recv] by itself. This file follows the
    receive loop recv by recv against a peer that takes its time, and says how long a
    call, and the readiness loop of [start_runtime], can take - and that neither is
    bounded by the timeout. *)

From S2P Require Import Prelude CppStd StringFacts ContainerBackend FunctionModel Metrics Http.
From S2P Require Import HttpClient RuntimeManager.

(** ** A peer that takes its time, in milliseconds *)

Inductive ending : Type :=
  | Closes (after : Z)
  | Fails (after : Z)
  | Silent.                          (* never sends again, and stays connected *)

Record Peer : Type := {
  connect_ms : Z;
  accepts : bool;
  send_ms : Z;                       (* until it has taken the request *)
  arrivals : list (Z * string);      (* what it sends, each piece this long after the last *)
  finally : ending;
}.

(** A blocking call of [ms] milliseconds under a timeout, [0] for none: does it end by
    itself, and when does it return? *)
Definition wait (timeo ms : Z) : bool * Z :=
  if decide (0 < timeo < ms) then (false, timeo) else (true, ms).

(** [while ((n = recv(...)) > 0) data.append(...)]: the pieces, how it ends, and after
    how many milliseconds. [None]: the last [recv] never returns. *)
Fixpoint recv_loop (timeo : Z) (pieces : list (Z * string)) (fin : ending) :
    option (list string * recv_end * Z) :=
  match pieces with
  | [] =>
      match fin with
      | Closes ms => let '(ends, t) := wait timeo ms in
                     Some ([], if (ends : bool) then RecvClosed else RecvTimedOut, t)
      | Fails ms => let '(ends, t) := wait timeo ms in
                    Some ([], if (ends : bool) then RecvError else RecvTimedOut, t)
      | Silent => if decide (0 < timeo) then Some ([], RecvTimedOut, timeo) else None
      end
  | (ms, data) :: pieces =>
      let '(ends, t) := wait timeo ms in
      if (ends : bool) then
        '(blocks, e, t') ← recv_loop timeo pieces fin;
        Some (data :: blocks, e, t + t')
      else Some ([], RecvTimedOut, t)
  end.

(** ** A world of such peers

    One thread's calls: every [connect] reaches the next peer. *)
Record Timed : Type := {
  t_clock : Z;                       (* nanoseconds *)
  t_timeo : Z;                       (* of the socket in use, milliseconds *)
  t_peers : list Peer;
  t_peer : option Peer;              (* the one connected to *)
  t_blocked : bool;                  (* a [recv] never returned *)
}.

Definition at_clock (ns : Z) (w : Timed) : Timed := {|
  t_clock := ns; t_timeo := t_timeo w; t_peers := t_peers w; t_peer := t_peer w;
  t_blocked := t_blocked w |}.
Definition elapse (ms : Z) (w : Timed) : Timed := at_clock (t_clock w + ms * 1000000) w.
Definition with_timeo (ms : Z) (w : Timed) : Timed := {|
  t_clock := t_clock w; t_timeo := ms; t_peers := t_peers w; t_peer := t_peer w;
  t_blocked := t_blocked w |}.
Definition next_peer (ps : list Peer) (p : option Peer) (w : Timed) : Timed := {|
  t_clock := t_clock w; t_timeo := t_timeo w; t_peers := ps; t_peer := p;
  t_blocked := t_blocked w |}.
Definition block (w : Timed) : Timed := {|
  t_clock := t_clock w; t_timeo := t_timeo w; t_peers := t_peers w; t_peer := t_peer w;
  t_blocked := true |}.

#[export] Instance timed_clock : Clock Timed := {|
  steady_now := λ w, (t_clock w, w);
  sleep_for_ms ms := λ w, (tt, elapse ms w);
|}.

#[export] Instance timed_sockets : Sockets Timed := {|
  so_addr := unit;
  so_socket := λ w, (3, with_timeo 0 w);
  so_set_timeouts _ s us := λ w, (tt, with_timeo (s * 1000 + Z.quot us 1000) w);
  so_inet_pton _ := Some tt;
  so_gethostbyname _ := mret None;
  so_connect _ _ _ := λ w,
    match t_peers w with
    | [] => (false, w)
    | p :: ps => let '(ends, t) := wait (t_timeo w) (connect_ms p) in
                 (ends && accepts p, elapse t (next_peer ps (Some p) w))
    end;
  so_send _ _ := λ w,
    match t_peer w with
    | None => (false, w)
    | Some p => let '(ends, t) := wait (t_timeo w) (send_ms p) in (ends, elapse t w)
    end;
  so_recv_all _ := λ w,
    match t_peer w with
    | None => (([], RecvError), w)
    | Some p =>
        match recv_loop (t_timeo w) (arrivals p) (finally p) with
        | Some (blocks, e, t) => ((blocks, e), elapse t w)
        | None => (([], RecvError), block w)
        end
    end;
  so_close _ := mret tt;
|}.

(** ** The receive loop *)

Definition ending_ok (fin : ending) : Prop :=
  match fin with Closes ms | Fails ms => 0 ≤ ms | Silent => True end.
Record peer_ok (p : Peer) : Prop := {
  pk_connect : 0 ≤ connect_ms p;
  pk_send : 0 ≤ send_ms p;
  pk_arrivals : Forall (λ a, 0 ≤ a.1) (arrivals p);
  pk_finally : ending_ok (finally p);
}.

Lemma wait_0 timeo : wait timeo 0 = (true, 0).
Proof. unfold wait. by rewrite decide_False by lia. Qed.
Lemma wait_bound timeo ms : 0 < timeo → 0 ≤ ms → 0 ≤ (wait timeo ms).2 ≤ timeo.
Proof. intros ? ?. unfold wait. case_decide; simpl; lia. Qed.

Lemma recv_loop_ends timeo pieces fin :
  0 < timeo → Forall (λ a, 0 ≤ a.1) pieces → ending_ok fin →
  ∃ blocks e t, recv_loop timeo pieces fin = Some (blocks, e, t) ∧
    0 ≤ t ≤ timeo * (Z.of_nat (length blocks) + 1) ∧ (length blocks ≤ length pieces)%nat.
Proof.
  intros Ht Hp Hf. induction Hp as [|[ms data] pieces Hms _ IH].
  - destruct fin as [ms|ms|]; simpl in *.
    + pose proof (wait_bound timeo ms Ht Hf). destruct (wait timeo ms) as [ends t].
      eexists _, _, _. split; [done|]. simpl in *. lia.
    + pose proof (wait_bound timeo ms Ht Hf). destruct (wait timeo ms) as [ends t].
      eexists _, _, _. split; [done|]. simpl in *. lia.
    + rewrite decide_True by done. eexists _, _, _. split; [done|]. simpl. lia.
  - simpl in *. pose proof (wait_bound timeo ms Ht Hms). destruct (wait timeo ms) as [[] t]; simpl in *.
    + destruct IH as (blocks & e & t' & -> & ? & ?). eexists _, _, _. split; [done|]. simpl. lia.
    + eexists _, _, _. split; [done|]. simpl. lia.
Qed.

(** A peer whose pauses stay within the timeout is heard to the end. *)
Lemma recv_loop_hears timeo pieces ms :
  Forall (λ a, 0 ≤ a.1 ≤ timeo) pieces → 0 ≤ ms ≤ timeo →
  recv_loop timeo pieces (Closes ms)
  = Some (snd <$> pieces, RecvClosed, foldr (λ a n, a.1 + n) ms pieces).
Proof.
  intros Hp Hms. induction Hp as [|[d data] pieces Hd _ IH]; simpl in *.
  - unfold wait. by rewrite decide_False by lia.
  - unfold wait at 1. rewrite decide_False by lia. by rewrite IH.
Qed.

(** ** A call *)

(** A peer that is heard in [k] pieces at most. *)
Definition brief (k : nat) (p : Peer) : Prop := peer_ok p ∧ (length (arrivals p) ≤ k)%nat.

Lemma timeval_ms timeout_ms :
  Z.quot timeout_ms 1000 * 1000 + Z.quot (Z.rem timeout_ms 1000 * 1000) 1000 = timeout_ms.
Proof. rewrite Z.quot_mul by lia. pose proof (Z.quot_rem' timeout_ms 1000). lia. Qed.

(** A call takes at most the timeout for its [connect], for its [send] and for each
    [recv]. *)
Lemma request_time c method path body content_type timeout_ms k (w : Timed) :
  0 < timeout_ms → Forall (brief k) (t_peers w) →
  let w' := (request c method path body content_type timeout_ms w).2 in
  ∃ ms, t_clock w' = t_clock w + ms * 1000000 ∧ 0 ≤ ms ≤ timeout_ms * (Z.of_nat k + 3) ∧
        t_blocked w' = t_blocked w ∧ Forall (brief k) (t_peers w').
Proof.
  intros Ht Hps. assert (0 ≤ timeout_ms * Z.of_nat k) as Hk0 by nia. unfold request.
  rewrite st_bind_run. simpl.
  rewrite (decide_True (P:=timeout_ms > 0)) by lia. rewrite st_bind_run. simpl.
  rewrite timeval_ms. rewrite st_bind_run. unfold resolve. simpl. rewrite st_bind_run. simpl.
  destruct (t_peers w) as [|p ps] eqn:Hw; simpl.
  { exists 0. rewrite Hw. split_and!; [lia|lia|nia|done|constructor]. }
  apply Forall_cons in Hps as [[Hp Hk] Hps].
  pose proof (wait_bound timeout_ms (connect_ms p) Ht (pk_connect _ Hp)) as Hc.
  destruct (wait timeout_ms (connect_ms p)) as [ends t]. simpl in Hc |- *.
  destruct (ends && accepts p); simpl.
  2:{ exists t. split_and!; [done|lia|nia|done|done]. }
  rewrite st_bind_run. simpl.
  pose proof (wait_bound timeout_ms (send_ms p) Ht (pk_send _ Hp)) as Hs.
  destruct (wait timeout_ms (send_ms p)) as [sent t']. simpl in Hs |- *. destruct sent; simpl.
  2:{ exists (t + t'). split_and!; [lia|lia|nia|done|done]. }
  rewrite st_bind_run. simpl.
  destruct (recv_loop_ends timeout_ms (arrivals p) (finally p) Ht (pk_arrivals _ Hp) (pk_finally _ Hp))
    as (blocks & e & t2 & -> & Ht2 & Hl). simpl.
  assert (timeout_ms * (Z.of_nat (length blocks) + 1) ≤ timeout_ms * (Z.of_nat k + 1)) by nia.
  exists (t + t' + t2). destruct e; simpl; split_and!; try done; nia.
Qed.

(** ** The readiness loop *)

Lemma await_healthy_time n port k (w : Timed) :
  Forall (brief k) (t_peers w) →
  let w' := (await_healthy n port w).2 in
  ∃ ms, t_clock w' = t_clock w + ms * 1000000 ∧
    0 ≤ ms ≤ Z.of_nat n * (kHealthCheckTimeoutMs * (Z.of_nat k + 3) + kReadinessIntervalMs) ∧
    t_blocked w' = t_blocked w.
Proof.
  revert w. induction n as [|n IH]; intros w Hps; cbn [await_healthy].
  { exists 0. simpl. split_and!; lia || done. }
  rewrite st_bind_run. unfold is_healthy, get. rewrite (st_bind_run (request _ _ _ _ _ _)).
  destruct (request_time (client_to port) "GET" "/health" "" "" kHealthCheckTimeoutMs k w)
    as (ms & Hc & Hms & Hb & Hps'); [by vm_compute|done|].
  destruct (request _ _ _ _ _ _ w) as [resp w1]. cbn [fst snd mret st_ret] in *.
  destruct (cr_ok resp && in_2xx (cr_status resp)); cbn [fst snd mret st_ret].
  - exists ms. split_and!; [done|lia| |done]. unfold kReadinessIntervalMs. nia.
  - rewrite st_bind_run. simpl.
    destruct (IH (elapse kReadinessIntervalMs w1) Hps') as (ms' & Hc' & Hms' & Hb').
    exists (ms + kReadinessIntervalMs + ms'). simpl in Hc', Hb'. split_and!; [lia|..|congruence];
      unfold kReadinessIntervalMs in *; lia.
Qed.

(** A container whose port is open and that never answers. *)
Definition silent_peer : Peer := {|
  connect_ms := 0; accepts := true; send_ms := 0; arrivals := []; finally := Silent |}.

Definition before (ps : list Peer) : Timed := {|
  t_clock := 0; t_timeo := 0; t_peers := ps; t_peer := None; t_blocked := false |}.

(** C18: The wait for a new container to become healthy, during which the runtime manager's
    mutex is held: if every reply to a health check comes in at most [k] pieces it
    takes at most fifty times the interval and [k + 3] socket timeouts, and it always
    ends; a container that accepts connections and stays silent is waited for 105
    seconds, twenty times the five that the interval alone adds up to. *)
Theorem startup_window_bound (port : Z) (k : nat) (w : Timed) :
  Forall (brief k) (t_peers w) →
  let w' := (await_healthy kReadinessAttempts port w).2 in
  (t_blocked w' = t_blocked w ∧
   t_clock w ≤ t_clock w' ≤
     t_clock w + 50 * (2000 * (Z.of_nat k + 3) + 100) * 1000000) ∧
  let '(healthy, w'') := await_healthy kReadinessAttempts port (before (replicate 50 silent_peer)) in
  healthy = false ∧ t_clock w'' = 50 * (2000 + 100) * 1000000.
Proof.
  intros Hps w'. split.
  - destruct (await_healthy_time kReadinessAttempts port k w Hps) as (ms & Hc & Hms & Hb).
    unfold w'. rewrite Hc, Hb. unfold kReadinessAttempts, kHealthCheckTimeoutMs, kReadinessIntervalMs in Hms.
    split; [done|]. lia.
  - vm_compute. done.
Qed.

(** ** The invocation *)

(** A function that answers at once and goes on for [n] pieces, each after a pause. *)
Definition trickle (pause : Z) (n : nat) : Peer := {|
  connect_ms := 0; accepts := true; send_ms := 0;
  arrivals := (0, "HTTP/1.1 200 OK" +:+ CRLFCRLF) :: replicate n (pause, ".");
  finally := Closes 0 |}.

Definition call_invoke (port : Z) (input : string) (timeout_ms : Z) (p : Peer) :
    ClientResponse * Timed :=
  post (client_to port) "/invoke" input "application/json" timeout_ms (before [p]).

Lemma call_invoke_heard port input timeout_ms p blocks t :
  0 < timeout_ms → connect_ms p = 0 → accepts p = true → send_ms p = 0 →
  recv_loop timeout_ms (arrivals p) (finally p) = Some (blocks, RecvClosed, t) →
  (call_invoke port input timeout_ms p).1 = parse_response (foldl String.append "" blocks) ∧
  t_clock (call_invoke port input timeout_ms p).2 = t * 1000000.
Proof.
  intros Ht Hc Ha Hs Hr. unfold call_invoke, post, request. rewrite st_bind_run. simpl.
  rewrite (decide_True (P:=timeout_ms > 0)) by lia. rewrite st_bind_run. simpl.
  rewrite timeval_ms, st_bind_run. unfold resolve. simpl. rewrite st_bind_run. simpl.
  rewrite Hc, Ha, wait_0. simpl.
  rewrite st_bind_run. simpl. rewrite Hs, wait_0. simpl.
  rewrite st_bind_run. simpl. rewrite Hr. simpl. split; [done|lia].
Qed.

Lemma replicate_time (pause : Z) n :
  foldr (λ a m, a.1 + m) 0 (replicate n (pause, ".")) = Z.of_nat n * pause.
Proof. induction n as [|n IH]; [done|]. cbn [replicate foldr fst]. rewrite IH. lia. Qed.

Lemma foldl_append_acc (l : list string) : ∀ acc : string,
  ∃ rest, foldl String.append acc l = acc +:+ rest.
Proof.
  induction l as [|s l IH]; intros acc; simpl; [exists ""; by rewrite app_empty_r|].
  destruct (IH (acc +:+ s)) as [rest ->]. exists (s +:+ rest). by rewrite app_assoc_str.
Qed.

(** C19: The timeout of an invocation bounds the silence of the function and not the call:
    one that never answers is given up after exactly [timeout_ms], but whatever
    [timeout_ms] is and however long [limit_ms], a function that keeps sending is
    waited for longer than [limit_ms] and its answer counts as a success; and with a
    timeout of zero or less a function that never answers is waited for forever. *)
Theorem timeout_bounds_silence_only (port : Z) (input : string) (timeout_ms limit_ms : Z) :
  0 < timeout_ms →
  (let '(resp, w) := call_invoke port input timeout_ms silent_peer in
   cr_timed_out resp = true ∧ t_clock w = timeout_ms * 1000000) ∧
  (let '(resp, w) := call_invoke port input timeout_ms (trickle timeout_ms (Z.to_nat limit_ms + 1)) in
   cr_ok resp = true ∧ cr_timed_out resp = false ∧ in_2xx (cr_status resp) = true ∧
   limit_ms * 1000000 < t_clock w) ∧
  (∀ t, t ≤ 0 → t_blocked (call_invoke port input t silent_peer).2 = true).
Proof.
  intros Ht. split_and!.
  - unfold call_invoke, post, request. rewrite st_bind_run. simpl.
    rewrite (decide_True (P:=timeout_ms > 0)) by lia. rewrite st_bind_run. simpl.
    rewrite timeval_ms, st_bind_run. unfold resolve. simpl. rewrite st_bind_run. simpl.
    rewrite wait_0. simpl. rewrite st_bind_run. simpl.
    rewrite wait_0. simpl. rewrite st_bind_run. simpl.
    rewrite decide_True by done. simpl. split; [done|lia].
  - set (n := (Z.to_nat limit_ms + 1)%nat).
    destruct (call_invoke_heard port input timeout_ms (trickle timeout_ms n)
                (snd <$> arrivals (trickle timeout_ms n)) (Z.of_nat n * timeout_ms))
      as [Hresp Hclock]; [done..| |].
    { cbn [finally trickle]. rewrite recv_loop_hears; [|apply Forall_cons; split; [simpl; lia|]|lia].
      - cbn [arrivals trickle foldr fst]. by rewrite replicate_time.
      - apply Forall_replicate. simpl. lia. }
    destruct (call_invoke port input timeout_ms (trickle timeout_ms n)) as [resp w]. cbn [fst snd] in Hresp, Hclock.
    subst resp. rewrite Hclock.
    destruct (foldl_append_acc (snd <$> replicate n (timeout_ms, "."))
                ("HTTP/1.1 200 OK" +:+ CRLFCRLF)) as [rest Hrest].
    change (foldl String.append "" (snd <$> arrivals (trickle timeout_ms n))
            = ("HTTP/1.1 200 OK" +:+ CRLFCRLF) +:+ rest) in Hrest.
    rewrite Hrest, app_assoc_str.
    destruct (truncated_reply_is_ok "HTTP/1.1 200 OK" "" rest eq_refl ltac:(done)) as (_ & _ & Hst).
    destruct (truncated_reply_is_ok "HTTP/1.1 200 OK" rest "" eq_refl ltac:(done)) as (Hok & _ & _).
    assert (cr_timed_out (parse_response ("HTTP/1.1 200 OK" +:+ CRLFCRLF +:+ rest)) = false) as Hto.
    { unfold parse_response. repeat case_match; done. }
    split_and!; [done|done|rewrite app_empty_l in Hst; rewrite <-Hst; by vm_compute|]. subst n. nia.
  - intros t Htn. unfold call_invoke, post, request. rewrite st_bind_run. simpl.
    rewrite (decide_False (P:=t > 0)) by lia. rewrite st_bind_run. simpl.
    done.
Qed.

(** ** The hypotheses can be met *)

Lemma silent_is_brief : brief 0 silent_peer.
Proof. split; [by split; [done|done|constructor|done]|done]. Qed.

Lemma startup_window_bound_witness :
  t_clock (await_healthy kReadinessAttempts 30000 (before [silent_peer])).2
  ≤ 50 * (2000 * (Z.of_nat 0 + 3) + 100) * 1000000.
Proof.
  destruct (startup_window_bound 30000 0 (before [silent_peer])) as [(_ & _ & Hb) _];
    [constructor; [exact silent_is_brief|constructor]|exact Hb].
Defined.

Lemma timeout_bounds_silence_only_witness :
  in_2xx (cr_status (call_invoke 30000 "{}" 5000 (trickle 5000 (Z.to_nat 60000 + 1))).1) = true ∧
  60000 * 1000000 < t_clock (call_invoke 30000 "{}" 5000 (trickle 5000 (Z.to_nat 60000 + 1))).2.
Proof.
  destruct (timeout_bounds_silence_only 30000 "{}" 5000 60000 eq_refl) as (_ & H & _).
  revert H. generalize (call_invoke 30000 "{}" 5000 (trickle 5000 (Z.to_nat 60000 + 1))).
  intros [resp w] (_ & _ & Hst & Hc). split; [exact Hst|exact Hc].
Defined.
