(* ===== verification/Locks.v ===== *)
(** * Locking

    A small language of code that takes mutexes, the machine that runs threads of it,
    and a check, [ok], that computes for a piece of code whether it takes the mutexes
    in one order, touches what they protect only under them and gives them back. The
    theorems of this file are about any program whose threads pass the check;
    [LockedProgram] translates the control plane's threads. *)

From S2P Require Import Prelude CppStd.

(** ** A language of locks *)

Inductive mutex : Type :=
  | DbMutex            (* Database::mutex_ *)
  | ManagerMutex       (* RuntimeManager::mutex_ *)
  | MetricsMutex.      (* Metrics::mutex_ *)

#[export] Instance mutex_eq_dec : EqDecision mutex.
Proof. solve_decision. Defined.
#[export] Instance mutex_countable : Countable mutex.
Proof.
  refine (inj_countable'
    (λ m, match m with DbMutex => 0%nat | ManagerMutex => 1%nat | MetricsMutex => 2%nat end)
    (λ n, match n with O => DbMutex | 1%nat => ManagerMutex | _ => MetricsMutex end) _).
  by intros [].
Defined.

(** What the threads share. *)
Inductive shared : Type :=
  | Connection         (* the sqlite3 connection and its statements *)
  | Runtimes           (* RuntimeManager::runtimes_ *)
  | Series.            (* the counters and histograms of Metrics *)

Definition protector (d : shared) : mutex :=
  match d with Connection => DbMutex | Runtimes => ManagerMutex | Series => MetricsMutex end.

(** Code, as far as locking is concerned. [Guard] is the scope of a [lock_guard], of a
    [unique_lock] or of a [Statement]; at its end the mutex is released if it is still
    held. *)
Inductive code : Type :=
  | Skip
  | Outside (throws : bool)              (* touches nothing shared; may throw *)
  | Touch (d : shared) (throws : bool)
  | Seq (c1 c2 : code)
  | Either (c1 c2 : code)                (* a branch *)
  | Loop (c : code)                      (* any number of times *)
  | Guard (m : mutex) (c : code)
  | Unlock (m : mutex)                   (* lock.unlock() *)
  | Relock (m : mutex).                  (* lock.lock() *)

#[export] Instance shared_eq_dec : EqDecision shared.
Proof. solve_decision. Defined.
#[export] Instance shared_countable : Countable shared.
Proof.
  refine (inj_countable'
    (λ d, match d with Connection => 0%nat | Runtimes => 1%nat | Series => 2%nat end)
    (λ n, match n with O => Connection | 1%nat => Runtimes | _ => Series end) _).
  by intros [].
Defined.
#[export] Instance code_eq_dec : EqDecision code.
Proof. solve_decision. Defined.

Definition block (cs : list code) : code := foldr Seq Skip cs.

(** ** Threads *)

(** A thread is what it has left to do: code to run and guards to leave. *)
Inductive item : Type :=
  | Run (c : code)
  | Leave (m : mutex).
Notation thread := (list item).

#[export] Instance item_eq_dec : EqDecision item.
Proof. solve_decision. Defined.

(** [terminated] is set when an exception leaves a thread: no thread of the program has
    a handler, so [std::terminate] ends the process there and then. *)
Record Machine : Type := {
  threads : gmap nat thread;
  holder : gmap mutex nat;
  terminated : bool;
}.

(** One step of thread [t] that has [k] left, while [h] says who holds which mutex. *)
Inductive tstep (t : nat) (h : gmap mutex nat) : thread → thread → gmap mutex nat → Prop :=
  | t_skip k : tstep t h (Run Skip :: k) k h
  | t_outside b k : tstep t h (Run (Outside b) :: k) k h
  | t_touch d b k : tstep t h (Run (Touch d b) :: k) k h
  | t_seq c1 c2 k : tstep t h (Run (Seq c1 c2) :: k) (Run c1 :: Run c2 :: k) h
  | t_left c1 c2 k : tstep t h (Run (Either c1 c2) :: k) (Run c1 :: k) h
  | t_right c1 c2 k : tstep t h (Run (Either c1 c2) :: k) (Run c2 :: k) h
  | t_again c k : tstep t h (Run (Loop c) :: k) (Run c :: Run (Loop c) :: k) h
  | t_done c k : tstep t h (Run (Loop c) :: k) k h
  | t_guard m c k :
      h !! m = None → tstep t h (Run (Guard m c) :: k) (Run c :: Leave m :: k) (<[m := t]> h)
  | t_unlock m k : h !! m = Some t → tstep t h (Run (Unlock m) :: k) k (delete m h)
  | t_relock m k : h !! m = None → tstep t h (Run (Relock m) :: k) k (<[m := t]> h)
  | t_leave m k :
      tstep t h (Leave m :: k) k (if decide (h !! m = Some t) then delete m h else h).

(** The code a thread may throw from. *)
Definition throwing (k : thread) : bool :=
  match k with Run (Outside b) :: _ | Run (Touch _ b) :: _ => b | _ => false end.

(** One step of a process whose threads start with one of [bodies]. *)
Inductive mstep (bodies : list code) (s : Machine) (t : nat) : Machine → Prop :=
  | m_step k k' h' :
      terminated s = false → threads s !! t = Some k → tstep t (holder s) k k' h' →
      mstep bodies s t {| threads := <[t := k']> (threads s); holder := h'; terminated := false |}
  | m_throw k :
      terminated s = false → threads s !! t = Some k → throwing k = true →
      mstep bodies s t {| threads := threads s; holder := holder s; terminated := true |}
  | m_start c :
      terminated s = false → threads s !! t = None → c ∈ bodies →
      mstep bodies s t
        {| threads := <[t := [Run c]]> (threads s); holder := holder s; terminated := false |}.

Inductive reachable (bodies : list code) : Machine → Prop :=
  | r_boot : reachable bodies {| threads := ∅; holder := ∅; terminated := false |}
  | r_step s t s' : reachable bodies s → mstep bodies s t s' → reachable bodies s'.

(** ** The check *)

Definition rank (m : mutex) : nat :=
  match m with DbMutex => 0 | ManagerMutex => 1 | MetricsMutex => 2 end.

(** May [m] be locked by a thread that holds [H]? *)
Definition above (H : gset mutex) (m : mutex) : bool :=
  bool_decide (set_Forall (λ x, (rank x < rank m)%nat) H).

(** Does [c], run in the scopes of the guards [G] while [H] is held, keep the rules and
    end with a set of held mutexes [ends] accepts? *)
Fixpoint ok (G H : gset mutex) (c : code) (ends : gset mutex → bool) : bool :=
  match c with
  | Skip | Outside _ => ends H
  | Touch d _ => bool_decide (protector d ∈ H) && ends H
  | Seq c1 c2 => ok G H c1 (λ H', ok G H' c2 ends)
  | Either c1 c2 => ok G H c1 ends && ok G H c2 ends
  | Loop c => ok G H c (λ H', bool_decide (H' = H)) && ends H
  | Guard m c =>
      bool_decide (m ∉ G) && above H m &&
      ok ({[m]} ∪ G) ({[m]} ∪ H) c (λ H', ends (H' ∖ {[m]}))
  | Unlock m => bool_decide (m ∈ H) && ends (H ∖ {[m]})
  | Relock m => bool_decide (m ∈ G) && above H m && ends ({[m]} ∪ H)
  end.

(** What a thread's body must pass: it starts and ends holding nothing. *)
Definition checked (c : code) : bool := ok ∅ ∅ c (λ H, bool_decide (H = ∅)).

Fixpoint guards (k : thread) : gset mutex :=
  match k with
  | [] => ∅
  | Run _ :: k => guards k
  | Leave m :: k => {[m]} ∪ guards k
  end.

Fixpoint thread_ok (H : gset mutex) (k : thread) : bool :=
  match k with
  | [] => bool_decide (H = ∅)
  | Run c :: k => ok (guards k) H c (λ H', thread_ok H' k)
  | Leave m :: k => thread_ok (H ∖ {[m]}) k
  end.

(** ** Soundness of the check *)

Definition held (h : gmap mutex nat) (t : nat) : gset mutex :=
  dom (filter (λ p, p.2 = t) h).

Lemma elem_of_held h t m : m ∈ held h t ↔ h !! m = Some t.
Proof.
  unfold held. rewrite elem_of_dom. unfold is_Some.
  setoid_rewrite map_lookup_filter_Some. simpl.
  split; [intros (x & Hx & ->); done | intros Hx; by exists t].
Qed.

Lemma held_insert h t m : h !! m = None → held (<[m := t]> h) t = {[m]} ∪ held h t.
Proof.
  intros Hm. apply set_eq; intros x. rewrite elem_of_union, elem_of_singleton, !elem_of_held.
  destruct (decide (x = m)) as [-> |Hx].
  - rewrite lookup_insert_eq. naive_solver.
  - rewrite lookup_insert_ne by done. naive_solver.
Qed.

Lemma held_delete h t m : held (delete m h) t = held h t ∖ {[m]}.
Proof.
  apply set_eq; intros x. rewrite elem_of_difference, elem_of_singleton, !elem_of_held.
  rewrite lookup_delete_Some. naive_solver.
Qed.

(** A step of one thread is no step of what another holds. *)
Lemma held_insert_other h t t' m :
  t' ≠ t → h !! m = None → held (<[m := t]> h) t' = held h t'.
Proof.
  intros Ht Hm. apply set_eq; intros x. rewrite !elem_of_held, lookup_insert_Some.
  split; [intros [[-> ?]|[??]]; congruence|]. intros Hx. right. split; [congruence|done].
Qed.

Lemma held_delete_other h t t' m : t' ≠ t → h !! m = Some t → held (delete m h) t' = held h t'.
Proof.
  intros Ht Hm. apply set_eq; intros x. rewrite !elem_of_held, lookup_delete_Some.
  split; [naive_solver|]. intros Hx. split; [congruence|done].
Qed.

Lemma ok_mono G c : ∀ H (e1 e2 : gset mutex → bool),
  (∀ H', e1 H' = true → e2 H' = true) → ok G H c e1 = true → ok G H c e2 = true.
Proof.
  revert G. induction c as [|b|d b|c1 IH1 c2 IH2|c1 IH1 c2 IH2|c IH|m c IH|m|m];
    intros G H e1 e2 He; simpl; rewrite ?andb_true_iff.
  - apply He.
  - apply He.
  - intros [? ?]. auto.
  - apply IH1. intros H'. by apply IH2.
  - intros [? ?]. eauto.
  - intros [? ?]. auto.
  - intros [[? ?] Hc]. split; [auto|]. eapply IH, Hc. simpl. auto.
  - intros [? ?]. auto.
  - intros [[? ?] ?]. auto.
Qed.

Lemma tstep_ok t h k k' h' :
  tstep t h k k' h' → thread_ok (held h t) k = true → thread_ok (held h' t) k' = true.
Proof.
  destruct 1; simpl; rewrite ?andb_true_iff; try done.
  - by intros [_ ?].
  - by intros [? _].
  - by intros [_ ?].
  - intros [Hc Hk]. eapply ok_mono, Hc. intros H' ->%bool_decide_eq_true.
    simpl. by rewrite Hc, Hk.
  - by intros [_ ?].
  - rewrite held_insert by done. intros [_ ?]. done.
  - rewrite held_delete. by intros [_ ?].
  - rewrite held_insert by done. by intros [_ ?].
  - intros Hk. case_decide as Hm; [by rewrite held_delete|].
    replace (held h t) with (held h t ∖ {[m]}); [done|].
    apply set_eq; intros x. rewrite elem_of_difference, elem_of_singleton, elem_of_held. naive_solver.
Qed.

Lemma tstep_others t t' h k k' h' : tstep t h k k' h' → t' ≠ t → held h' t' = held h t'.
Proof.
  destruct 1; intros Ht; try done;
    [by apply held_insert_other|by eapply held_delete_other|by apply held_insert_other|].
  case_decide; [by eapply held_delete_other|done].
Qed.

Definition machine_ok (s : Machine) : Prop :=
  (∀ t k, threads s !! t = Some k → thread_ok (held (holder s) t) k = true) ∧
  (∀ t, threads s !! t = None → held (holder s) t = ∅).

Section program.
Context (bodies : list code) (Hbodies : forallb checked bodies = true).

Lemma mstep_ok s t s' : mstep bodies s t s' → machine_ok s → machine_ok s'.
Proof.
  intros Hs [Hk Hn].
  destruct Hs as [k k' h' _ Ht Hst|k _ Ht _|c _ Ht Hc]; [|done|]; split; simpl; intros t'.
  - intros k0. rewrite lookup_insert_Some. intros [[<- <-]|[Hne Ht']].
    + eapply tstep_ok; eauto.
    + rewrite (tstep_others _ _ _ _ _ _ Hst) by done. by apply Hk.
  - intros [Ht' Hne]%lookup_insert_None. rewrite (tstep_others _ _ _ _ _ _ Hst) by done. by apply Hn.
  - intros k0. rewrite lookup_insert_Some. intros [[<- <-]|[Hne Ht']]; [|by apply Hk].
    rewrite (Hn t Ht). simpl.
    by apply (proj1 (forallb_forall _ _) Hbodies), list_elem_of_In.
  - intros [Ht' _]%lookup_insert_None. by apply Hn.
Qed.

Lemma reachable_ok s : reachable bodies s → machine_ok s.
Proof.
  induction 1 as [|s t s' _ IH Hs]; [|by eapply mstep_ok].
  split; simpl; [intros t k; by rewrite lookup_empty|done].
Qed.

(** A mutex is held by a thread that is alive and has work left. *)
Lemma holder_alive s m t :
  reachable bodies s → holder s !! m = Some t → ∃ it k, threads s !! t = Some (it :: k).
Proof.
  intros [Hk Hn]%reachable_ok Hm%elem_of_held. destruct (threads s !! t) as [[|it k]|] eqn:Ht; [..|].
  - apply Hk in Ht. simpl in Ht. apply bool_decide_eq_true in Ht. set_solver.
  - eauto.
  - apply Hn in Ht. set_solver.
Qed.

(** ** No data race *)

Definition about_to_touch (s : Machine) (t : nat) (d : shared) : Prop :=
  ∃ b k, threads s !! t = Some (Run (Touch d b) :: k).

Lemma touch_holds s t d :
  reachable bodies s → about_to_touch s t d → holder s !! protector d = Some t.
Proof.
  intros [Hk _]%reachable_ok (b & k & Ht). apply Hk in Ht. simpl in Ht.
  apply andb_true_iff in Ht as [Hd _]. apply bool_decide_eq_true in Hd. by apply elem_of_held.
Qed.

Lemma race_free s t1 t2 d :
  reachable bodies s → about_to_touch s t1 d → about_to_touch s t2 d → t1 = t2.
Proof. intros Hr H1%touch_holds H2%touch_holds; [|done..]. congruence. Qed.

(** ** No deadlock *)

(** Thread [t1] has to wait for the mutex that [t2] holds. *)
Definition wants (k : thread) : option mutex :=
  match k with Run (Guard m _) :: _ | Run (Relock m) :: _ => Some m | _ => None end.
Definition waits (s : Machine) (t1 t2 : nat) : Prop :=
  ∃ k m, threads s !! t1 = Some k ∧ wants k = Some m ∧ holder s !! m = Some t2.

Definition can_step (s : Machine) (t : nat) : Prop :=
  ∃ k k' h', threads s !! t = Some k ∧ tstep t (holder s) k k' h'.

(** A thread takes the mutexes in order. *)
Lemma wants_above s t k m :
  machine_ok s → threads s !! t = Some k → wants k = Some m →
  ∀ x, holder s !! x = Some t → (rank x < rank m)%nat.
Proof.
  intros [Hk _] Ht Hw x Hx%elem_of_held. apply Hk in Ht.
  destruct k as [|[[]|] k]; simplify_eq/=; unfold above in Ht;
    rewrite !andb_true_iff, !bool_decide_eq_true in Ht; naive_solver.
Qed.

Lemma step_or_wait s t it k :
  machine_ok s → threads s !! t = Some (it :: k) →
  can_step s t ∨ ∃ m t', wants (it :: k) = Some m ∧ holder s !! m = Some t'.
Proof.
  intros [Hk _] Ht. pose proof (Hk _ _ Ht) as Hok.
  assert (∀ m, holder s !! m = None ∨ ∃ t', holder s !! m = Some t') as Hm
    by (intros m; destruct (holder s !! m); eauto).
  destruct it as [c|m]; [|left; repeat eexists; [done|constructor]].
  destruct c as [| | | | | |m c|m|m]; try (left; repeat eexists; [done|by constructor]).
  - destruct (Hm m) as [Hn|[t' Hs]]; [|right; by exists m, t'].
    left; repeat eexists; [done|by constructor].
  - left; repeat eexists; [done|]. constructor. simpl in Hok.
    apply andb_true_iff in Hok as [Hin _]. apply bool_decide_eq_true in Hin. by apply elem_of_held.
  - destruct (Hm m) as [Hn|[t' Hs]]; [|right; by exists m, t'].
    left; repeat eexists; [done|by constructor].
Qed.

(** Whoever a thread waits for, along the chain of holders, someone can go on; and no
    thread waits, along such a chain, for itself. *)
Lemma chain_ends s n : ∀ t it k,
  reachable bodies s → threads s !! t = Some (it :: k) →
  (∀ m, wants (it :: k) = Some m → (2 < rank m + n)%nat) →
  ∃ t', rtc (waits s) t t' ∧ can_step s t'.
Proof.
  induction n as [|n IH]; intros t it k Hr Ht Hn;
    (destruct (step_or_wait s t it k) as [Hc|(m & t' & Hw & Hm)];
      [by apply reachable_ok|done|by exists t|]).
  - specialize (Hn m Hw). destruct m; simpl in Hn; lia.
  - destruct (holder_alive s m t' Hr Hm) as (it' & k' & Ht').
    destruct (IH t' it' k' Hr Ht') as (t2 & Hc & Hs2).
    + intros m' Hw'. pose proof (wants_above s t' _ m' (reachable_ok s Hr) Ht' Hw' m Hm).
      specialize (Hn m Hw). lia.
    + exists t2. split; [|done]. eapply rtc_l, Hc. by exists (it :: k), m.
Qed.

Lemma deadlock_free s t it k :
  reachable bodies s → threads s !! t = Some (it :: k) →
  ∃ t', rtc (waits s) t t' ∧ can_step s t'.
Proof.
  intros Hr Ht. apply (chain_ends s 3 t it k); [done..|]. intros m _. destruct m; simpl; lia.
Qed.

Lemma waits_rank s t1 t2 :
  reachable bodies s → tc (waits s) t1 t2 →
  ∀ k2 m2, threads s !! t2 = Some k2 → wants k2 = Some m2 →
  ∃ k1 m1, threads s !! t1 = Some k1 ∧ wants k1 = Some m1 ∧ (rank m1 < rank m2)%nat.
Proof.
  intros Hr. induction 1 as [t1 t2 Hw|t1 t2 t3 Hw Hc IH]; intros k2 m2 Hk2 Hm2.
  - destruct Hw as (k1 & m1 & Hk1 & Hm1 & Hh). exists k1, m1. split_and!; [done..|].
    exact (wants_above s t2 k2 m2 (reachable_ok s Hr) Hk2 Hm2 _ Hh).
  - destruct (IH k2 m2 Hk2 Hm2) as (kb & mb & Hkb & Hmb & Hlt).
    destruct Hw as (k1 & m1 & Hk1 & Hm1 & Hh). exists k1, m1. split_and!; [done..|].
    pose proof (wants_above s t2 kb mb (reachable_ok s Hr) Hkb Hmb _ Hh). lia.
Qed.

Lemma no_cycle s t : reachable bodies s → ¬ tc (waits s) t t.
Proof.
  intros Hr Hc.
  assert (∃ k m, threads s !! t = Some k ∧ wants k = Some m) as (k & m & Hk & Hm).
  { inversion Hc as [? ? (k & m & ? & ? & _)|? ? ? (k & m & ? & ? & _) _]; eauto. }
  destruct (waits_rank s t t Hr Hc k m Hk Hm) as (k1 & m1 & Hk1 & Hm1 & Hlt).
  simplify_eq. lia.
Qed.
End program.

(** ** Playing a schedule *)

(** The step of thread [t], taking the second way at a branch or a loop if [other]. *)
Definition tnext (other : bool) (t : nat) (h : gmap mutex nat) (k : thread) :
    option (thread * gmap mutex nat) :=
  match k with
  | [] => None
  | Leave m :: k => Some (k, if decide (h !! m = Some t) then delete m h else h)
  | Run c :: k =>
      match c with
      | Skip | Outside _ | Touch _ _ => Some (k, h)
      | Seq c1 c2 => Some (Run c1 :: Run c2 :: k, h)
      | Either c1 c2 => Some (Run (if other then c2 else c1) :: k, h)
      | Loop c => Some (if other then k else Run c :: Run (Loop c) :: k, h)
      | Guard m c => if decide (h !! m = None) then Some (Run c :: Leave m :: k, <[m := t]> h) else None
      | Unlock m => if decide (h !! m = Some t) then Some (k, delete m h) else None
      | Relock m => if decide (h !! m = None) then Some (k, <[m := t]> h) else None
      end
  end.

Lemma tnext_tstep other t h k k' h' : tnext other t h k = Some (k', h') → tstep t h k k' h'.
Proof.
  destruct k as [|[c|m] k]; [done| |]; simpl; [|intros [= <- <-]; constructor].
  destruct c; repeat case_match; intros [= <- <-]; by constructor.
Qed.

Inductive event : Type :=
  | Begin (t : nat) (c : code)
  | Go (t : nat)
  | GoOther (t : nat).

Definition mnext (e : event) (s : Machine) : option Machine :=
  let go other t :=
    k ← threads s !! t; '(k', h') ← tnext other t (holder s) k;
    Some {| threads := <[t := k']> (threads s); holder := h'; terminated := false |} in
  if terminated s then None else
  match e with
  | Begin t c =>
      if decide (threads s !! t = None) then
        Some {| threads := <[t := [Run c]]> (threads s); holder := holder s; terminated := false |}
      else None
  | Go t => go false t
  | GoOther t => go true t
  end.

Fixpoint schedule (es : list event) (s : Machine) : option Machine :=
  match es with [] => Some s | e :: es => s' ← mnext e s; schedule es s' end.

Definition begins (bodies : list code) (e : event) : Prop :=
  match e with Begin _ c => c ∈ bodies | _ => True end.
#[export] Instance begins_dec bodies e : Decision (begins bodies e).
Proof. destruct e; simpl; apply _. Defined.

Lemma mnext_mstep bodies e s s' :
  begins bodies e → mnext e s = Some s' → ∃ t, mstep bodies s t s'.
Proof.
  unfold mnext. destruct (terminated s) eqn:Hend; [done|]. destruct e as [t c|t|t]; simpl.
  - intros Hc. case_decide as Ht; [|done]. intros [= <-]. exists t. by constructor.
  - intros _. destruct (threads s !! t) as [k|] eqn:Ht; [|done]. simpl.
    destruct (tnext false t (holder s) k) as [[k' h']|] eqn:Hn; [|done]. intros [= <-].
    exists t. eapply m_step; [done..|]. by eapply tnext_tstep.
  - intros _. destruct (threads s !! t) as [k|] eqn:Ht; [|done]. simpl.
    destruct (tnext true t (holder s) k) as [[k' h']|] eqn:Hn; [|done]. intros [= <-].
    exists t. eapply m_step; [done..|]. by eapply tnext_tstep.
Qed.

Lemma schedule_reachable bodies es : ∀ s s',
  Forall (begins bodies) es → reachable bodies s → schedule es s = Some s' → reachable bodies s'.
Proof.
  induction es as [|e es IH]; intros s s' Hes Hr; simpl; [by intros [= <-]|].
  apply Forall_cons in Hes as [He Hes]. destruct (mnext e s) as [s1|] eqn:Hn; [|done]. simpl.
  destruct (mnext_mstep bodies e s s1 He Hn) as (t & Hs). apply IH; [done|by eapply r_step].
Qed.

(** ** A thread alone

    The steps thread 0 takes while the others stand still, and how many times it enters
    a critical section: locks a mutex when it holds none. *)

Definition enters (h h' : gmap mutex nat) : nat :=
  if bool_decide (h = ∅ ∧ h' ≠ ∅) then 1 else 0.

Inductive solo (k : thread) (h : gmap mutex nat) : nat → thread → gmap mutex nat → Prop :=
  | solo_here : solo k h 0 k h
  | solo_step k1 h1 n k2 h2 :
      tstep 0 h k k1 h1 → solo k1 h1 n k2 h2 → solo k h (enters h h1 + n) k2 h2.

(** The thread's steps, its branches taken as [bs] says, until [there] accepts. *)
Fixpoint drive (there : thread → gmap mutex nat → bool) (fuel : nat) (bs : list bool)
    (k : thread) (h : gmap mutex nat) : option (nat * thread * gmap mutex nat) :=
  if there k h then Some (0%nat, k, h) else
  match fuel with
  | O => None
  | Datatypes.S fuel =>
      let branches := match k with Run (Either _ _) :: _ | Run (Loop _) :: _ => true | _ => false end in
      '(k1, h1) ← tnext (branches && List.hd false bs) 0 h k;
      '(n, k2, h2) ← drive there fuel (if branches then List.tl bs else bs) k1 h1;
      Some (enters h h1 + n, k2, h2)%nat
  end.

Lemma drive_solo there fuel : ∀ bs k h n k' h',
  drive there fuel bs k h = Some (n, k', h') → solo k h n k' h' ∧ there k' h' = true.
Proof.
  induction fuel as [|fuel IH]; intros bs k h n k' h'; simpl.
  - destruct (there k h) eqn:Hth; [|done]. intros [= <- <- <-]. split; [constructor|done].
  - destruct (there k h) eqn:Hth; [intros [= <- <- <-]; split; [constructor|done]|].
    destruct (tnext _ 0 h k) as [[k1 h1]|] eqn:Hn; [|done]. simpl.
    destruct (drive there fuel _ k1 h1) as [[[n2 k2] h2]|] eqn:Hd; [|done]. intros [= <- <- <-].
    destruct (IH _ _ _ _ _ _ Hd) as [Hs Ht]. split; [|done].
    eapply solo_step, Hs. by eapply tnext_tstep.
Qed.
