(* ===== verification/Serialization.v ===== *)
(** * Runs without interleaving inside a critical section

    The machine of [Locks] with its steps labelled, and the theorem that every run can
    be reordered - no thread's own steps, no two uses of a mutex and no two accesses to
    the same data change their order - into one in which the pieces of each thread run
    without interruption. A piece takes mutexes and then gives them back; for code that
    passes the check [phased] it is at most one critical section, from holding nothing
    to holding nothing. *)

From stdpp Require Import relations.
From S2P Require Import Prelude CppStd Locks.

(** ** Labelled steps *)

Inductive act : Type :=
  | Silent
  | Begins (c : code)
  | Touches (d : shared)
  | Acquires (m : mutex)
  | Releases (m : mutex)
  | Passes (m : mutex).    (* the end of a guard whose mutex was given back before *)

(** What a thread that has [k] left may do, and what it has left then. *)
Inductive tmove : thread → act → thread → Prop :=
  | mv_skip k : tmove (Run Skip :: k) Silent k
  | mv_outside b k : tmove (Run (Outside b) :: k) Silent k
  | mv_touch d b k : tmove (Run (Touch d b) :: k) (Touches d) k
  | mv_seq c1 c2 k : tmove (Run (Seq c1 c2) :: k) Silent (Run c1 :: Run c2 :: k)
  | mv_left c1 c2 k : tmove (Run (Either c1 c2) :: k) Silent (Run c1 :: k)
  | mv_right c1 c2 k : tmove (Run (Either c1 c2) :: k) Silent (Run c2 :: k)
  | mv_again c k : tmove (Run (Loop c) :: k) Silent (Run c :: Run (Loop c) :: k)
  | mv_done c k : tmove (Run (Loop c) :: k) Silent k
  | mv_guard m c k : tmove (Run (Guard m c) :: k) (Acquires m) (Run c :: Leave m :: k)
  | mv_unlock m k : tmove (Run (Unlock m) :: k) (Releases m) k
  | mv_relock m k : tmove (Run (Relock m) :: k) (Acquires m) k
  | mv_leave m k : tmove (Leave m :: k) (Releases m) k
  | mv_pass m k : tmove (Leave m :: k) (Passes m) k.

Definition enabled (t : nat) (a : act) (h : gmap mutex nat) : Prop :=
  match a with
  | Acquires m => h !! m = None
  | Releases m => h !! m = Some t
  | Passes m => h !! m ≠ Some t
  | _ => True
  end.
Definition after (t : nat) (a : act) (h : gmap mutex nat) : gmap mutex nat :=
  match a with Acquires m => <[m := t]> h | Releases m => delete m h | _ => h end.

(** A step of a run: whose, what, and the thread before and after. *)
Record move : Type := { mover : nat; what : act; from : thread; rest : thread }.

Definition starts_from (e : move) : option thread :=
  match what e with Begins _ => None | _ => Some (from e) end.
Definition legal (bodies : list code) (e : move) : Prop :=
  match what e with
  | Begins c => c ∈ bodies ∧ rest e = [Run c]
  | a => tmove (from e) a (rest e)
  end.
Definition result (e : move) (s : Machine) : Machine := {|
  threads := <[mover e := rest e]> (threads s);
  holder := after (mover e) (what e) (holder s);
  terminated := false |}.

(** [does bodies s e s']: the process in [s] takes the step [e] to [s']. *)
Record does (bodies : list code) (s : Machine) (e : move) (s' : Machine) : Prop := {
  does_running : terminated s = false;
  does_legal : legal bodies e;
  does_from : threads s !! mover e = starts_from e;
  does_enabled : enabled (mover e) (what e) (holder s);
  does_result : s' = result e s;
}.

Inductive runs (bodies : list code) (s : Machine) : list move → Machine → Prop :=
  | runs_nil : runs bodies s [] s
  | runs_cons e s1 tr s2 : does bodies s e s1 → runs bodies s1 tr s2 → runs bodies s (e :: tr) s2.

Definition fresh_process : Machine := {| threads := ∅; holder := ∅; terminated := false |}.

(** ** Reordering *)

(** What a step uses that others may use. *)
Definition uses (a : act) : option (mutex + shared) :=
  match a with
  | Acquires m | Releases m => Some (inl m)
  | Touches d => Some (inr d)
  | _ => None
  end.
Definition independent (e1 e2 : move) : Prop :=
  mover e1 ≠ mover e2 ∧ ∀ r, uses (what e1) = Some r → uses (what e2) ≠ Some r.

Inductive swap : list move → list move → Prop :=
  | swap_two p e1 e2 q : independent e1 e2 → swap (p ++ e1 :: e2 :: q) (p ++ e2 :: e1 :: q).
Definition reorders : list move → list move → Prop := rtc swap.

(** ** Pieces *)

Definition acquires (e : move) : bool := match what e with Acquires _ => true | _ => false end.
Definition releases (e : move) : bool := match what e with Releases _ => true | _ => false end.
Definition released (b : list move) : bool := existsb releases b.

(** The steps of one thread, cut where it takes a mutex after giving one back. *)
Definition add (bs : list (list move)) (e : move) : list (list move) :=
  match last bs with
  | None => [[e]]
  | Some b => if acquires e && released b then bs ++ [[e]] else List.removelast bs ++ [b ++ [e]]
  end.
Definition pieces (l : list move) : list (list move) := foldl add [] l.

Definition of_thread (t : nat) (tr : list move) : list move := filter (λ e, mover e = t) tr.

(** A run in pieces: whose, and its steps. *)
Notation piece := (nat * list move)%type.
Definition steps_in (bl : list piece) : list move := concat bl.*2.
Definition mine (t : nat) (bl : list piece) : list (list move) := (filter (λ b, b.1 = t) bl).*2.

(** ** Memory

    Any meaning of the steps in which each sees the data of its thread and, at a
    [Touch], what it touches; [None] where the code would not go that way. *)

Record Memory (L V : Type) : Type := { private : gmap nat L; common : gmap shared V }.
Arguments private {L V} _.
Arguments common {L V} _.

Record Meaning (L V : Type) : Type := {
  computes : move → option L → option L;
  accesses : move → option L → option V → option (L * V);
}.
Arguments computes {L V} _ _ _.
Arguments accesses {L V} _ _ _ _.

Definition performs {L V} (M : Meaning L V) (x : Memory L V) (e : move) : option (Memory L V) :=
  match what e with
  | Touches d =>
      '(l, v) ← accesses M e (private x !! mover e) (common x !! d);
      Some {| private := <[mover e := l]> (private x); common := <[d := v]> (common x) |}
  | _ =>
      l ← computes M e (private x !! mover e);
      Some {| private := <[mover e := l]> (private x); common := common x |}
  end.
Fixpoint perform_all {L V} (M : Meaning L V) (tr : list move) (x : Memory L V) : option (Memory L V) :=
  match tr with [] => Some x | e :: tr => x' ← performs M x e; perform_all M tr x' end.

(** ** Two-phase code *)

(** Does [c], started while [H] is held and - if [p] - after a mutex was given back since
    the thread held none, take mutexes only when [p] does not hold? *)
Fixpoint phased (H : gset mutex) (p : bool) (c : code) (ends : gset mutex → bool → bool) : bool :=
  match c with
  | Skip | Outside _ | Touch _ _ => ends H p
  | Seq c1 c2 => phased H p c1 (λ H' p', phased H' p' c2 ends)
  | Either c1 c2 => phased H p c1 ends && phased H p c2 ends
  | Loop c => phased H p c (λ H' p', bool_decide (H' = H) && Bool.eqb p' p) && ends H p
  | Guard m c =>
      negb p &&
      phased ({[m]} ∪ H) p c (λ H' p',
        if decide (m ∈ H') then ends (H' ∖ {[m]}) (bool_decide (H' ∖ {[m]} ≠ ∅)) else ends H' p')
  | Unlock m => ends (H ∖ {[m]}) (bool_decide (H ∖ {[m]} ≠ ∅))
  | Relock m => negb p && ends ({[m]} ∪ H) p
  end.

(** What the body of a thread must pass for its pieces to be whole sections. *)
Definition two_phase (c : code) : bool := phased ∅ false c (λ _ _, true).

Fixpoint thread_phased (H : gset mutex) (p : bool) (k : thread) : bool :=
  match k with
  | [] => true
  | Run c :: k => phased H p c (λ H' p', thread_phased H' p' k)
  | Leave m :: k =>
      if decide (m ∈ H) then thread_phased (H ∖ {[m]}) (bool_decide (H ∖ {[m]} ≠ ∅)) k
      else thread_phased H p k
  end.

(** What a thread holds, and whether it has given a mutex back since it held none, after
    a step of its own. *)
Definition phase (st : gset mutex * bool) (a : act) : gset mutex * bool :=
  match a with
  | Acquires m => ({[m]} ∪ st.1, st.2)
  | Releases m => (st.1 ∖ {[m]}, bool_decide (st.1 ∖ {[m]} ≠ ∅))
  | _ => st
  end.
Definition phase_after (l : list move) : gset mutex * bool :=
  foldl (λ st e, phase st (what e)) (∅, false) l.
Definition held_after (l : list move) : gset mutex := (phase_after l).1.

(** ** Steps of the machine *)

Lemma tstep_tmove t h k k' h' :
  tstep t h k k' h' → ∃ a, tmove k a k' ∧ enabled t a h ∧ h' = after t a h.
Proof.
  destruct 1; try (by eexists; split_and!; [constructor|..]).
  destruct (decide (h !! m = Some t)) as [Hm|Hm].
  - exists (Releases m). split_and!; [constructor|done|done].
  - exists (Passes m). split_and!; [constructor|done|done].
Qed.

Lemma tmove_tstep t h k a k' : tmove k a k' → enabled t a h → tstep t h k k' (after t a h).
Proof.
  destruct 1; simpl; intros He; try by constructor.
  - pose proof (t_leave t h m k) as Hs. by rewrite decide_True in Hs.
  - pose proof (t_leave t h m k) as Hs. by rewrite decide_False in Hs.
Qed.

Lemma tmove_not_begins k a k' c : tmove k a k' → a ≠ Begins c.
Proof. by destruct 1. Qed.

Section program.
Context (bodies : list code) (Hbodies : forallb checked bodies = true).
Implicit Types (s : Machine) (e : move) (tr : list move).
Notation does := (does bodies).
Notation runs := (runs bodies).

Lemma does_mstep s e s' : does s e s' → mstep bodies s (mover e) s'.
Proof.
  intros [Hrun Hleg Hfrom Hen ->]. unfold legal, starts_from, result in *.
  destruct (what e) as [|c| | | |] eqn:Ha; try by (eapply m_step; [done..|]; by apply tmove_tstep).
  destruct Hleg as [Hc ->]. by constructor.
Qed.

Lemma mstep_does s t s' :
  mstep bodies s t s' →
  (∃ e, mover e = t ∧ does s e s') ∨ (terminated s' = true ∧ threads s' = threads s ∧ holder s' = holder s).
Proof.
  destruct 1 as [k k' h' Hr Ht Hs|k Hr Ht _|c Hr Ht Hc]; [left|by right|left].
  - apply tstep_tmove in Hs as (a & Hm & He & ->).
    exists {| mover := t; what := a; from := k; rest := k' |}. split; [done|].
    assert (∀ c, a ≠ Begins c) as Hnb by (intros c; by eapply tmove_not_begins).
    split; unfold legal, starts_from, result; simpl; try done; destruct a; naive_solver.
  - exists {| mover := t; what := Begins c; from := []; rest := [Run c] |}. split; [done|].
    by split; unfold legal, starts_from, result.
Qed.

Lemma runs_app s tr1 s1 tr2 s2 : runs s tr1 s1 → runs s1 tr2 s2 → runs s (tr1 ++ tr2) s2.
Proof. induction 1; simpl; [done|]. intros. econstructor; eauto. Qed.
Lemma runs_app_inv s tr1 tr2 s2 : runs s (tr1 ++ tr2) s2 → ∃ s1, runs s tr1 s1 ∧ runs s1 tr2 s2.
Proof.
  revert s. induction tr1 as [|e tr1 IH]; simpl; intros s Hr; [by exists s; split; [constructor|]|].
  inversion Hr as [|? s1 ? ? He Hr']; subst. apply IH in Hr' as (s2' & H1 & H2).
  exists s2'. split; [by econstructor|done].
Qed.
Lemma runs_one s e s' : does s e s' → runs s [e] s'.
Proof. intros. econstructor; [done|constructor]. Qed.
Lemma runs_snoc_inv s tr e s2 : runs s (tr ++ [e]) s2 → ∃ s1, runs s tr s1 ∧ does s1 e s2.
Proof.
  intros (s1 & H1 & H2)%runs_app_inv. inversion H2 as [|? ? ? ? He Hn]; subst.
  inversion Hn; subst. eauto.
Qed.
(** A run is determined by its steps. *)
Lemma runs_det s tr s1 s2 : runs s tr s1 → runs s tr s2 → s1 = s2.
Proof.
  intros H1. revert s2. induction H1 as [|s e s1 tr s' He _ IH]; intros s2 H2; inversion H2; subst; [done|].
  apply IH. destruct He as [_ _ _ _ ->]. by match goal with H : does _ _ _ |- _ => destruct H as [_ _ _ _ ->] end.
Qed.
Lemma runs_ok s tr s' : runs s tr s' → machine_ok s → machine_ok s'.
Proof.
  induction 1 as [|s e s1 tr s' He _ IH]; [done|]. intros Hs. apply IH.
  by eapply mstep_ok, Hs; [apply Hbodies|eapply does_mstep].
Qed.
Lemma fresh_ok : machine_ok fresh_process.
Proof. split; simpl; [intros t k; by rewrite lookup_empty|done]. Qed.
Hint Resolve fresh_ok runs_ok : core.

(** Every state the process can reach is the end of a run, or where an exception ended
    one. *)
Lemma reachable_runs s :
  reachable bodies s →
  ∃ tr s', runs fresh_process tr s' ∧ threads s' = threads s ∧ holder s' = holder s ∧
           (terminated s = false → s' = s).
Proof.
  induction 1 as [|s t s2 _ (tr & s' & Hr & Ht & Hh & Heq) Hs].
  - exists [], fresh_process. by split; [constructor|].
  - assert (terminated s = false) as Hf by (by destruct Hs). apply Heq in Hf as ->.
    apply mstep_does in Hs as [(e & _ & He)|(Hte & Ht' & Hh')].
    + exists (tr ++ [e]), s2. split; [|done]. eapply runs_app; [done|by apply runs_one].
    + exists tr, s. split_and!; [done..|congruence].
Qed.

(** ** Movers *)

(** Neighbouring steps of different threads can be taken the other way around, unless
    the second takes what the first has given back. *)
Definition hands_over (e1 e2 : move) : Prop := ∃ m, what e1 = Releases m ∧ what e2 = Acquires m.

Lemma touches_held s e s' d :
  machine_ok s → does s e s' → what e = Touches d → holder s !! protector d = Some (mover e).
Proof.
  intros [Hk _] [_ Hleg Hfrom _ _] Ha. unfold legal, starts_from in *. rewrite Ha in Hleg, Hfrom.
  inversion Hleg as [| |d' b k Hf| | | | | | | | | |]; subst. rewrite <-Hf in Hfrom.
  apply Hk in Hfrom. simpl in Hfrom. apply andb_true_iff in Hfrom as [Hd _].
  apply bool_decide_eq_true in Hd. by apply elem_of_held.
Qed.

Lemma adjacent_independent s e1 s1 e2 s2 :
  machine_ok s → does s e1 s1 → does s1 e2 s2 → mover e1 ≠ mover e2 → ¬ hands_over e1 e2 →
  independent e1 e2.
Proof.
  intros Hok H1 H2 Hne Hho. split; [done|]. intros r.
  pose proof (does_enabled _ _ _ _ H1) as He1. pose proof (does_enabled _ _ _ _ H2) as He2.
  pose proof (does_result _ _ _ _ H1) as Hr1. rewrite Hr1 in He2. unfold hands_over in Hho. simpl in He2.
  destruct (what e1) as [| |d1|m1|m1|] eqn:Ha1; intros [= <-]; destruct (what e2) as [| |d2|m2|m2|] eqn:Ha2;
    intros [= ->]; simpl in *.
  - pose proof (touches_held _ _ _ _ Hok H1 Ha1) as Ht1.
    pose proof (touches_held s1 _ _ _ ltac:(eapply runs_ok; [by apply runs_one|done]) H2 Ha2) as Ht2.
    rewrite Hr1 in Ht2. simpl in Ht2. rewrite Ha1 in Ht2. simpl in Ht2. congruence.
  - by rewrite lookup_insert_eq in He2.
  - rewrite lookup_insert_eq in He2. congruence.
  - eauto.
  - by rewrite lookup_delete_eq in He2.
Qed.

(** What one thread may do with the mutexes does not depend on the others, but for
    [hands_over]. *)
Lemma enabled_swap t1 a1 t2 a2 h :
  t1 ≠ t2 → (∀ m, a1 = Releases m → a2 ≠ Acquires m) → enabled t1 a1 h → enabled t2 a2 (after t1 a1 h) →
  enabled t2 a2 h ∧ enabled t1 a1 (after t2 a2 h) ∧ after t1 a1 (after t2 a2 h) = after t2 a2 (after t1 a1 h).
Proof.
  intros Ht Hho. destruct a1 as [| | |m1|m1|m1], a2 as [| | |m2|m2|m2]; simpl; try done;
    destruct (decide (m1 = m2)) as [-> |Hm]; rewrite ?lookup_insert_eq, ?lookup_delete_eq,
      ?lookup_insert_ne, ?lookup_delete_ne by done; intros; simplify_eq; try done;
    try (by rewrite insert_insert_ne by done);
    try (by rewrite delete_insert_ne by done);
    try (by rewrite delete_delete by done).
  all: naive_solver.
Qed.
Lemma adjacent_commute s e1 s1 e2 s2 :
  does s e1 s1 → does s1 e2 s2 → mover e1 ≠ mover e2 → ¬ hands_over e1 e2 →
  ∃ s1', does s e2 s1' ∧ does s1' e1 s2.
Proof.
  intros [Hrun1 Hleg1 Hfrom1 Hen1 ->] [Hrun2 Hleg2 Hfrom2 Hen2 ->] Hne Hho.
  unfold result in *. simpl in *. rewrite lookup_insert_ne in Hfrom2 by done.
  destruct (enabled_swap (mover e1) (what e1) (mover e2) (what e2) (holder s)) as (H2 & H1 & Hafter);
    [done|intros m Ha Hb; apply Hho; by exists m|done..|].
  exists (result e2 s). split; [by split|]. unfold result. split; simpl; [done..| |done|].
  - by rewrite lookup_insert_ne by done.
  - unfold result. simpl. by rewrite Hafter, insert_insert_ne by done.
Qed.

(** ** Reordering *)

Lemma swap_app p q tr tr' : swap tr tr' → swap (p ++ tr ++ q) (p ++ tr' ++ q).
Proof.
  destruct 1 as [p0 e1 e2 q0 Hi]. rewrite <-!app_assoc. simpl.
  rewrite !(app_assoc p p0). by constructor.
Qed.
Lemma reorders_app p q tr tr' : reorders tr tr' → reorders (p ++ tr ++ q) (p ++ tr' ++ q).
Proof. apply (rtc_congruence (λ x, p ++ x ++ q)). intros x y. apply swap_app. Qed.
Lemma reorders_head p tr tr' : reorders tr tr' → reorders (p ++ tr) (p ++ tr').
Proof. intros Hr%(reorders_app p []). by rewrite !app_nil_r in Hr. Qed.
Lemma reorders_tail q tr tr' : reorders tr tr' → reorders (tr ++ q) (tr' ++ q).
Proof. exact (reorders_app [] q tr tr'). Qed.

(** The steps [b] of a thread can go before the steps [q] of others that come before
    them. *)
Definition passes (b q : list move) : Prop :=
  ∀ e' e, e' ∈ q → e ∈ b → mover e' ≠ mover e ∧ ¬ hands_over e' e.

Lemma move_left s q s1 e s2 :
  machine_ok s → runs s q s1 → does s1 e s2 → passes [e] q →
  runs s (e :: q) s2 ∧ reorders (q ++ [e]) (e :: q).
Proof.
  intros Hok Hq. revert e s2 Hok.
  induction Hq as [s|s e' s0 q s1 He' Hq IH]; intros e s2 Hok He Hp; [split; [by apply runs_one|apply rtc_refl]|].
  destruct (IH e s2) as [Hr Hs]; [by eapply runs_ok, Hok; apply runs_one|done| |].
  { intros e1 e2 H1 H2. apply Hp; [by right|done]. }
  destruct (Hp e' e) as [Hne Hho]; [by left..|].
  inversion Hr as [|? s0' ? ? H0 Hr']; subst.
  pose proof (adjacent_independent _ _ _ _ _ Hok He' H0 Hne Hho) as Hind.
  destruct (adjacent_commute _ _ _ _ _ He' H0 Hne Hho) as (s' & Ha & Hb).
  split; [econstructor; [done|by econstructor]|].
  etrans; [apply (reorders_head [e']), Hs|]. apply rtc_once. by apply (swap_two [] e' e q).
Qed.

Lemma piece_left b : ∀ s q s1 s2,
  machine_ok s → runs s q s1 → runs s1 b s2 → passes b q →
  runs s (b ++ q) s2 ∧ reorders (q ++ b) (b ++ q).
Proof.
  induction b as [|e b IH]; intros s q s1 s2 Hok Hq Hb Hp.
  - inversion Hb; subst. by rewrite app_nil_r.
  - inversion Hb as [|? s1' ? ? He Hb']; subst.
    destruct (move_left s q s1 e s1') as [Hr Hs]; [done..| |].
    { intros e1 e2 H1 H2. apply Hp; [done|]. apply list_elem_of_singleton in H2 as ->. by left. }
    inversion Hr as [|? s0 ? ? H0 Hr']; subst.
    destruct (IH s0 q s1' s2) as [Hr2 Hs2];
      [by eapply runs_ok, Hok; apply runs_one|done..|intros e1 e2 H1 H2; apply Hp; [done|by right]|].
    split; [by econstructor|]. etrans; [|by apply (reorders_head [e])].
    change (q ++ e :: b) with (q ++ [e] ++ b). rewrite app_assoc. by apply (reorders_tail b) in Hs.
Qed.
(** One step more, moved to the left past [q]. *)
Lemma insert_step tr s0 p q s e s' :
  machine_ok s0 → runs s0 (p ++ q) s → reorders tr (p ++ q) → does s e s' → passes [e] q →
  runs s0 (p ++ e :: q) s' ∧ reorders (tr ++ [e]) (p ++ e :: q).
Proof.
  intros Hok (s1 & Hp & Hq)%runs_app_inv Htr He Hpass.
  destruct (move_left s1 q s e s') as [Hr Hs]; [by eapply runs_ok|done..|].
  split; [by eapply runs_app|]. etrans; [by apply reorders_tail|].
  rewrite <-app_assoc. by apply reorders_head.
Qed.
End program.

(** ** Pieces of a thread *)

Lemma pieces_snoc l e : pieces (l ++ [e]) = add (pieces l) e.
Proof. unfold pieces. by rewrite foldl_app. Qed.
Lemma add_nil e : add [] e = [[e]].
Proof. done. Qed.
Lemma add_snoc B b e :
  add (B ++ [b]) e = if acquires e && released b then (B ++ [b]) ++ [[e]] else B ++ [b ++ [e]].
Proof. unfold add. rewrite last_snoc. by rewrite List.removelast_last. Qed.

Lemma concat_pieces l : concat (pieces l) = l.
Proof.
  induction l as [|e l IH] using rev_ind; [done|]. rewrite pieces_snoc.
  destruct (pieces l) as [|b B _] using rev_ind; [simpl in IH; by subst|].
  rewrite add_snoc. rewrite concat_app in IH. simpl in IH. rewrite app_nil_r in IH.
  destruct (_ && _); rewrite !concat_app; simpl; rewrite ?app_nil_r, ?app_assoc; by rewrite IH.
Qed.

Lemma released_snoc b e : released (b ++ [e]) = released b || releases e.
Proof. unfold released. rewrite existsb_app. simpl. by rewrite orb_false_r. Qed.

(** A piece is over when the thread takes a mutex after it gave one back. *)
Lemma pieces_over l B b : pieces l = B ++ [b] → Forall (λ b, released b = true) B.
Proof.
  revert B b. induction l as [|e l IH] using rev_ind; intros B b; [by destruct B|]. rewrite pieces_snoc.
  destruct (pieces l) as [|b0 B0 _] using rev_ind.
  - intros Hp. destruct B as [|? [|]]; done.
  - rewrite add_snoc. specialize (IH B0 b0 eq_refl).
    destruct (acquires e && released b0) eqn:Hc.
    + intros [<- _]%app_inj_tail. apply Forall_app. apply andb_true_iff in Hc as [_ ?]. by repeat constructor.
    + by intros [<- _]%app_inj_tail.
Qed.

Lemma of_thread_app t tr1 tr2 : of_thread t (tr1 ++ tr2) = of_thread t tr1 ++ of_thread t tr2.
Proof. apply filter_app. Qed.
Lemma of_thread_snoc t tr e :
  of_thread t (tr ++ [e]) = of_thread t tr ++ if decide (mover e = t) then [e] else [].
Proof. rewrite of_thread_app. unfold of_thread at 2. rewrite filter_cons. by case_decide. Qed.
Lemma elem_of_of_thread t tr e : e ∈ of_thread t tr ↔ mover e = t ∧ e ∈ tr.
Proof. unfold of_thread. by rewrite list_elem_of_filter. Qed.

Lemma mine_app t l1 l2 : mine t (l1 ++ l2) = mine t l1 ++ mine t l2.
Proof. unfold mine. by rewrite filter_app, fmap_app. Qed.
Lemma mine_cons t t' b l : mine t ((t', b) :: l) = (if decide (t' = t) then [b] else []) ++ mine t l.
Proof. unfold mine. rewrite filter_cons. simpl. by case_decide. Qed.
Lemma steps_in_app l1 l2 : steps_in (l1 ++ l2) = steps_in l1 ++ steps_in l2.
Proof. unfold steps_in. by rewrite fmap_app, concat_app. Qed.
Lemma steps_in_cons b l : steps_in (b :: l) = b.2 ++ steps_in l.
Proof. done. Qed.
Lemma elem_of_steps_in e l : e ∈ steps_in l ↔ ∃ b, b ∈ l ∧ e ∈ b.2.
Proof.
  unfold steps_in. rewrite list_elem_of_In, in_concat. setoid_rewrite <-list_elem_of_In.
  setoid_rewrite list_elem_of_fmap. naive_solver.
Qed.
Lemma elem_of_mine t b l : b ∈ mine t l ↔ (t, b) ∈ l.
Proof.
  unfold mine. rewrite list_elem_of_fmap. setoid_rewrite list_elem_of_filter. split.
  - by intros ([t' b'] & -> & <- & Hin).
  - intros Hin. by exists (t, b).
Qed.

(** The pieces of [tr] in [bl] are each of one thread. *)
Lemma pieces_own tr bl t b e :
  (∀ t, mine t bl = pieces (of_thread t tr)) → (t, b) ∈ bl → e ∈ b → mover e = t.
Proof.
  intros Hm Hb%elem_of_mine He. rewrite Hm in Hb.
  apply (elem_of_of_thread t tr). rewrite <-(concat_pieces (of_thread t tr)).
  rewrite list_elem_of_In, in_concat. exists b. by rewrite <-!list_elem_of_In.
Qed.

Lemma of_thread_steps_in t l :
  (∀ t' b e, (t', b) ∈ l → e ∈ b → mover e = t') → of_thread t (steps_in l) = concat (mine t l).
Proof.
  induction l as [|[t' b] l IH]; intros Hown; [done|]. rewrite steps_in_cons, of_thread_app, mine_cons, concat_app.
  rewrite <-IH by (intros ???; set_solver). f_equal. simpl.
  assert (∀ e, e ∈ b → mover e = t') as Hb by (intros e; apply Hown; by left).
  unfold of_thread. case_decide as Ht.
  - simpl. rewrite app_nil_r. subst t'. clear -Hb. induction b as [|e b IH]; [done|].
    rewrite filter_cons_True by (apply Hb; by left). f_equal. apply IH. set_solver.
  - clear -Hb Ht. induction b as [|e b IH]; [done|].
    rewrite filter_cons_False by (rewrite (Hb e) by (by left); done). apply IH. set_solver.
Qed.

(** The last piece of a thread. *)
Lemma mine_last t l : mine t l ≠ [] → ∃ l1 b l2, l = l1 ++ (t, b) :: l2 ∧ mine t l2 = [].
Proof.
  induction l as [|[t' b] l IH] using rev_ind; [done|]. rewrite mine_app, mine_cons.
  case_decide as Ht; simpl; [|rewrite app_nil_r].
  - subst t'. intros _. by exists l, b, [].
  - intros (l1 & b' & l2 & -> & Hl2)%IH. exists l1, b', (l2 ++ [(t', b)]).
    split; [by rewrite <-app_assoc|]. rewrite mine_app, mine_cons, Hl2. by rewrite decide_False.
Qed.

(** ** A run in pieces

    [C] are the pieces in which a mutex was given back, in the order of the first such
    step; [O] those that have only taken mutexes so far. *)

Section program.
Context (bodies : list code) (Hbodies : forallb checked bodies = true).
Implicit Types (s : Machine) (e : move) (tr : list move) (C O : list piece).
Notation does := (does bodies).
Notation runs := (runs bodies).

Record sorted (tr : list move) (s : Machine) (C O : list piece) : Prop := {
  so_runs : runs fresh_process (steps_in (C ++ O)) s;
  so_reorders : reorders tr (steps_in (C ++ O));
  so_mine t : mine t (C ++ O) = pieces (of_thread t tr);
  so_over : Forall (λ b, released b.2 = true) C;
  so_open : Forall (λ b, released b.2 = false) O;
}.

Lemma sorted_own tr s C O t b e : sorted tr s C O → (t, b) ∈ C ++ O → e ∈ b → mover e = t.
Proof. intros Hs. by apply (pieces_own tr), so_mine with (s := s). Qed.

Lemma sorted_others tr s C O t l e :
  sorted tr s C O → l ⊆ C ++ O → mine t l = [] → e ∈ steps_in l → mover e ≠ t.
Proof.
  intros Hs Hl Hm ([t' b] & Hb & He)%elem_of_steps_in.
  rewrite (sorted_own _ _ _ _ t' b e Hs); [|by apply Hl|done]. intros ->.
  apply elem_of_mine in Hb. rewrite Hm in Hb. by apply elem_of_nil in Hb.
Qed.

Lemma open_no_release O e : Forall (λ b, released b.2 = false) O → e ∈ steps_in O → releases e = false.
Proof.
  intros HO ([t b] & Hb & He)%elem_of_steps_in. rewrite Forall_forall in HO.
  specialize (HO _ Hb). simpl in HO. destruct (releases e) eqn:Hr; [|done].
  rewrite <-HO. symmetry. apply existsb_exists. exists e. by rewrite <-list_elem_of_In.
Qed.

(** Nobody hands a mutex to who takes none, and who gives none back hands over none. *)
Lemma passes_release e q : acquires e = false → (∀ e', e' ∈ q → mover e' ≠ mover e) → passes [e] q.
Proof.
  intros Ha Hq e' e0 He' ->%list_elem_of_singleton. split; [by apply Hq|].
  intros (m & _ & Hm). unfold acquires in Ha. by rewrite Hm in Ha.
Qed.
Lemma passes_open b q t :
  (∀ e, e ∈ b → mover e = t) → (∀ e', e' ∈ q → mover e' ≠ t) → (∀ e', e' ∈ q → releases e' = false) →
  passes b q.
Proof.
  intros Hb Hq Hr e' e He' He. split; [rewrite (Hb e He); by apply Hq|].
  intros (m & Hm & _). specialize (Hr e' He'). unfold releases in Hr. by rewrite Hm in Hr.
Qed.

(** A step that is its thread's first, or takes a mutex after the thread's last piece was
    over, opens a piece. *)
Lemma sorted_new tr s C O e s' :
  sorted tr s C O → does s e s' → releases e = false →
  pieces (of_thread (mover e) (tr ++ [e])) = pieces (of_thread (mover e) tr) ++ [[e]] →
  sorted (tr ++ [e]) s' C (O ++ [(mover e, [e])]).
Proof.
  intros Hs He Hr Hp. destruct Hs as [Hrun Hre Hmine HC HO].
  assert (steps_in (C ++ O ++ [(mover e, [e])]) = steps_in (C ++ O) ++ [e]) as Hst.
  { rewrite app_assoc, steps_in_app. done. }
  split; [| | |done|].
  - rewrite Hst. by eapply runs_app, runs_one.
  - rewrite Hst. by apply reorders_tail.
  - intros t. rewrite app_assoc, mine_app, mine_cons, Hmine. case_decide as Ht.
    + subst t. by rewrite Hp.
    + rewrite of_thread_snoc, decide_False by done. by rewrite !app_nil_r.
  - apply Forall_app. split; [done|]. constructor; [|done]. simpl. by rewrite Hr.
Qed.

(** A step of a piece that is over, or that does not end it, joins it where it is. *)
Lemma sorted_join tr s l1 t b l2 e s' :
  machine_ok s → runs fresh_process (steps_in (l1 ++ (t, b) :: l2)) s →
  reorders tr (steps_in (l1 ++ (t, b) :: l2)) → does s e s' → passes [e] (steps_in l2) →
  runs fresh_process (steps_in (l1 ++ (t, b ++ [e]) :: l2)) s' ∧
  reorders (tr ++ [e]) (steps_in (l1 ++ (t, b ++ [e]) :: l2)).
Proof.
  rewrite !steps_in_app, !steps_in_cons. simpl. rewrite <-(app_assoc b), !(app_assoc _ b).
  intros Hok Hrun Hre He Hp. eapply insert_step; [apply Hbodies|apply fresh_ok|done..].
Qed.

Lemma mine_join tr t l1 b l2 e t' :
  mover e = t → mine t l2 = [] →
  (∀ t', mine t' (l1 ++ (t, b) :: l2) = pieces (of_thread t' tr)) → acquires e && released b = false →
  mine t' (l1 ++ (t, b ++ [e]) :: l2) = pieces (of_thread t' (tr ++ [e])).
Proof.
  intros Ht Hl2 Hm Hc. specialize (Hm t'). rewrite mine_app, mine_cons in Hm |- *.
  rewrite of_thread_snoc, Ht. case_decide as Htt.
  - subst t'. rewrite Hl2 in Hm |- *. simpl in *. rewrite pieces_snoc, <-Hm, add_snoc, Hc. done.
  - by rewrite app_nil_r.
Qed.
(** A piece that gives its first mutex back goes before those that have given none. *)
Lemma sorted_close C O1 t b O2 tr s :
  runs fresh_process (steps_in (C ++ O1 ++ (t, b) :: O2)) s →
  reorders tr (steps_in (C ++ O1 ++ (t, b) :: O2)) → passes b (steps_in O1) →
  runs fresh_process (steps_in ((C ++ [(t, b)]) ++ O1 ++ O2)) s ∧
  reorders tr (steps_in ((C ++ [(t, b)]) ++ O1 ++ O2)).
Proof.
  rewrite !steps_in_app, !steps_in_cons. simpl. rewrite app_nil_r, <-!app_assoc.
  intros Hrun Hre Hp. apply runs_app_inv in Hrun as (s1 & H1 & Hrun).
  rewrite app_assoc in Hrun. apply runs_app_inv in Hrun as (s3 & Hrun & H3).
  apply runs_app_inv in Hrun as (s2 & H2 & Hb).
  destruct (piece_left bodies Hbodies b s1 (steps_in O1) s2 s3) as [Hr Hs]; [|done..|].
  { by eapply runs_ok, fresh_ok. }
  split.
  - eapply runs_app; [done|]. rewrite app_assoc. by eapply runs_app.
  - etrans; [done|]. apply reorders_head. rewrite !app_assoc. by apply reorders_tail.
Qed.

Lemma sorted_unopened tr s C O1 t b O2 : sorted tr s C (O1 ++ (t, b) :: O2) → mine t O1 = [].
Proof.
  intros Hs. pose proof (so_mine _ _ _ _ Hs t) as Hm. rewrite !mine_app, mine_cons in Hm.
  rewrite decide_True in Hm by done.
  assert (Forall (λ b, released b = true) (mine t O1)) as Ho.
  { destruct (mine t O2) as [|b2 B2 _] using rev_ind; symmetry in Hm.
    - rewrite app_assoc in Hm. by apply pieces_over, Forall_app in Hm as [_ ?].
    - rewrite !app_assoc in Hm. apply pieces_over in Hm. rewrite !Forall_app in Hm. naive_solver. }
  pose proof (so_open _ _ _ _ Hs) as Hop. rewrite Forall_forall in Ho. rewrite Forall_forall in Hop.
  destruct (mine t O1) as [|b1 B1] eqn:HO1; [done|]. exfalso.
  assert ((t, b1) ∈ O1) as Hin by (apply elem_of_mine; rewrite HO1; by left).
  specialize (Ho b1 ltac:(by left)). specialize (Hop (t, b1) ltac:(set_solver)). simpl in Hop. congruence.
Qed.

Lemma sorted_step_open tr s C O1 b O2 e s' :
  sorted tr s C (O1 ++ (mover e, b) :: O2) → mine (mover e) O2 = [] → does s e s' →
  ∃ C' O', sorted (tr ++ [e]) s' C' O'.
Proof.
  intros Hs Hl2 He. pose proof (sorted_unopened _ _ _ _ _ _ _ Hs) as Hl1.
  pose proof Hs as [Hrun Hre Hmine HC HO]. set (t := mover e) in *.
  assert (released b = false) as Hb by (rewrite Forall_forall in HO; apply (HO (t, b)); set_solver).
  assert (∀ e', e' ∈ b ++ [e] → mover e' = t) as Hown.
  { intros e' [He'| ->%list_elem_of_singleton]%elem_of_app; [|done].
    eapply (sorted_own _ _ _ _ t b e' Hs); [set_solver|done]. }
  assert (∀ O', O' ⊆ O1 ++ (t, b) :: O2 → mine t O' = [] →
    (∀ e', e' ∈ steps_in O' → mover e' ≠ t) ∧ ∀ e', e' ∈ steps_in O' → releases e' = false) as Hothers.
  { intros O' Hsub Hm. split; intros e' He'.
    - eapply (sorted_others _ _ _ _ t O' e' Hs); [set_solver|done|done].
    - eapply open_no_release, He'. apply Forall_forall. intros x Hx.
      rewrite Forall_forall in HO. by apply HO, Hsub. }
  destruct (Hothers O1) as [Hm1 Hr1]; [set_solver|done|]. destruct (Hothers O2) as [Hm2 Hr2]; [set_solver|done|].
  rewrite app_assoc in Hrun, Hre.
  destruct (sorted_join tr s (C ++ O1) t b O2 e s') as [Hrun' Hre']; [|done..| |].
  { by eapply runs_ok, fresh_ok. }
  { eapply (passes_open _ _ t); [|done..]. by intros e' ->%list_elem_of_singleton. }
  assert (∀ t', mine t' ((C ++ O1) ++ (t, b ++ [e]) :: O2) = pieces (of_thread t' (tr ++ [e]))) as Hmine'.
  { intros t'. apply mine_join; [done|done| |by rewrite Hb, andb_false_r]. intros t0. by rewrite <-app_assoc. }
  apply Forall_app in HO as [HO1 HO2%Forall_cons]. rewrite <-app_assoc in Hrun', Hre'.
  destruct (releases e) eqn:Hrel.
  - exists (C ++ [(t, b ++ [e])]), (O1 ++ O2).
    destruct (sorted_close C O1 t (b ++ [e]) O2 (tr ++ [e]) s') as [Hrun2 Hre2]; [done..| |].
    { by eapply (passes_open _ _ t). }
    split; [done..| | |apply Forall_app; naive_solver].
    + intros t'. rewrite <-Hmine', !mine_app, !mine_cons. simpl. case_decide as Ht; [|by rewrite app_nil_r, <-app_assoc].
      subst t'. rewrite Hl1. by rewrite !app_nil_r, <-app_assoc.
    + apply Forall_app. split; [done|]. repeat constructor. simpl. by rewrite released_snoc, Hrel, orb_true_r.
  - exists C, (O1 ++ (t, b ++ [e]) :: O2). split; [done..| |done|].
    + intros t'. by rewrite <-Hmine', <-app_assoc.
    + apply Forall_app. split; [done|]. constructor; [|naive_solver]. simpl. by rewrite released_snoc, Hb, Hrel.
Qed.

Lemma sorted_step_over tr s C1 b C2 O e s' :
  sorted tr s (C1 ++ (mover e, b) :: C2) O → mine (mover e) (C2 ++ O) = [] → does s e s' → acquires e = false →
  sorted (tr ++ [e]) s' (C1 ++ (mover e, b ++ [e]) :: C2) O.
Proof.
  intros Hs Hl2 He Ha. pose proof Hs as [Hrun Hre Hmine HC HO]. rewrite <-app_assoc in Hrun, Hre. simpl in *.
  destruct (sorted_join tr s C1 (mover e) b (C2 ++ O) e s') as [Hrun' Hre']; [|done..| |].
  { by eapply runs_ok, fresh_ok. }
  { apply passes_release; [done|]. intros e' He'.
    eapply (sorted_others _ _ _ _ (mover e) (C2 ++ O) e' Hs); [set_solver|done..]. }
  split; [by rewrite <-app_assoc..| | |done].
  - intros t'. rewrite <-app_assoc. simpl. apply mine_join; [done..| |by rewrite Ha].
    intros t0. by rewrite <-Hmine, <-app_assoc.
  - apply Forall_app in HC as [HC1 [Hb HC2]%Forall_cons]. simpl in Hb. apply Forall_app. split; [done|].
    constructor; [|done]. simpl. by rewrite released_snoc, Hb.
Qed.
Lemma runs_threads tr s t : runs fresh_process tr s → threads s !! t = None ↔ of_thread t tr = [].
Proof.
  revert s. induction tr as [|e tr IH] using rev_ind; intros s Hr.
  - inversion Hr; subst. split; [done|]. intros _. apply lookup_empty.
  - apply runs_snoc_inv in Hr as (s1 & Hr & He). rewrite of_thread_snoc.
    destruct He as [_ _ _ _ ->]. simpl. case_decide as Ht.
    + subst t. rewrite lookup_insert_eq. split; [done|by destruct (of_thread _ tr)].
    + rewrite app_nil_r, lookup_insert_ne by done. by apply IH.
Qed.

Lemma sorted_step tr s C O e s' :
  runs fresh_process tr s → sorted tr s C O → does s e s' → ∃ C' O', sorted (tr ++ [e]) s' C' O'.
Proof.
  intros Hrun Hs He. set (t := mover e).
  destruct (decide (mine t O = [])) as [HO|HO].
  2:{ apply mine_last in HO as (O1 & b & O2 & -> & Hl2). by eapply sorted_step_open. }
  assert (pieces (of_thread t (tr ++ [e])) = add (mine t C) e) as Hadd.
  { rewrite of_thread_snoc, decide_True, pieces_snoc by done.
    by rewrite <-(so_mine _ _ _ _ Hs), mine_app, HO, app_nil_r. }
  assert (mine t C = pieces (of_thread t tr)) as HC by (by rewrite <-(so_mine _ _ _ _ Hs), mine_app, HO, app_nil_r).
  destruct (decide (mine t C = [])) as [HC0|HC0].
  - exists C, (O ++ [(t, [e])]). apply (sorted_new tr s C O e s'); [done..| |].
    + pose proof (concat_pieces (of_thread t tr)) as Hnil. rewrite <-HC, HC0 in Hnil. symmetry in Hnil.
      apply (runs_threads tr s t Hrun) in Hnil. destruct He as [_ _ Hfrom _ _]. fold t in Hfrom.
      rewrite Hnil in Hfrom. unfold starts_from, releases in *. by destruct (what e).
    + fold t. by rewrite Hadd, HC0, <-HC, HC0.
  - destruct (mine_last t C HC0) as (C1 & b & C2 & -> & Hl2).
    assert (released b = true) as Hb.
    { pose proof (so_over _ _ _ _ Hs) as Hover. rewrite Forall_forall in Hover. apply (Hover (t, b)). set_solver. }
    destruct (acquires e) eqn:Ha.
    + eexists _, _. apply (sorted_new tr s _ O e s'); [done..| |].
      * unfold acquires, releases in *. by destruct (what e).
      * fold t. rewrite Hadd, <-HC, mine_app, mine_cons, decide_True, Hl2 by done. simpl.
        by rewrite add_snoc, Ha, Hb, <-!app_assoc.
    + eexists _, _. eapply sorted_step_over; [exact Hs| |exact He|done]. fold t. by rewrite mine_app, Hl2, HO.
Qed.

(** Every run can be reordered into one in pieces. *)
Lemma run_in_pieces tr s :
  runs fresh_process tr s →
  ∃ bl, runs fresh_process (steps_in bl) s ∧ reorders tr (steps_in bl) ∧
        ∀ t, mine t bl = pieces (of_thread t tr).
Proof.
  intros Hr. cut (∃ C O, sorted tr s C O).
  { intros (C & O & [H1 H2 H3 _ _]). by exists (C ++ O). }
  revert s Hr. induction tr as [|e tr IH] using rev_ind; intros s Hr.
  - exists [], []. by split; [|apply rtc_refl|..].
  - apply runs_snoc_inv in Hr as (s1 & Hr & He). destruct (IH s1 Hr) as (C & O & Hs).
    by eapply sorted_step.
Qed.
End program.

(** ** What a reordering keeps *)

Lemma reorders_of_thread t tr tr' : reorders tr tr' → of_thread t tr' = of_thread t tr.
Proof.
  induction 1 as [|tr1 tr2 tr3 Hs _ IH]; [done|]. rewrite IH. destruct Hs as [p e1 e2 q [Hne _]].
  change (e1 :: e2 :: q) with ([e1] ++ [e2] ++ q). change (e2 :: e1 :: q) with ([e2] ++ [e1] ++ q).
  rewrite !of_thread_app. unfold of_thread. rewrite !filter_cons, !filter_nil.
  repeat case_decide; try done; congruence.
Qed.

(** Who uses a mutex or touches data, in which order. *)
Definition users (r : mutex + shared) (tr : list move) : list move := filter (λ e, uses (what e) = Some r) tr.

Lemma reorders_users r tr tr' : reorders tr tr' → users r tr' = users r tr.
Proof.
  induction 1 as [|tr1 tr2 tr3 Hs _ IH]; [done|]. rewrite IH. destruct Hs as [p e1 e2 q [_ Hi]].
  unfold users. rewrite !filter_app, !filter_cons. specialize (Hi r). repeat case_decide; naive_solver.
Qed.

Section memory.
Context {L V : Type} (M : Meaning L V).

Lemma performs_swap e1 e2 x :
  independent e1 e2 → (x1 ← performs M x e1; performs M x1 e2) = (x1 ← performs M x e2; performs M x1 e1).
Proof.
  intros [Hne Hi]. unfold performs.
  destruct (what e1) as [| |d1| | |] eqn:Ha1, (what e2) as [| |d2| | |] eqn:Ha2;
    rewrite ?Ha1, ?Ha2 in Hi; try (assert (d1 ≠ d2) by (intros ->; by apply (Hi (inr d2))));
    destruct x as [pr co]; simpl;
    repeat (first
      [ rewrite lookup_insert_ne by done
      | match goal with
        | |- context [computes M ?e ?l] => destruct (computes M e l) eqn:?; simpl
        | |- context [accesses M ?e ?l ?v] => destruct (accesses M e l v) as [[? ?]|] eqn:?; simpl
        end ]);
    simplify_eq; try done; f_equal; f_equal; by apply insert_insert_ne.
Qed.

Lemma perform_all_app tr1 tr2 x : perform_all M (tr1 ++ tr2) x = perform_all M tr1 x ≫= perform_all M tr2.
Proof.
  revert x. induction tr1 as [|e tr1 IH]; intros x; [done|]. simpl.
  destruct (performs M x e); simpl; [apply IH|done].
Qed.

Lemma perform_two e1 e2 q x :
  perform_all M (e1 :: e2 :: q) x = (x1 ← performs M x e1; performs M x1 e2) ≫= perform_all M q.
Proof. simpl. by destruct (performs M x e1). Qed.

Lemma reorders_perform tr tr' x : reorders tr tr' → perform_all M tr' x = perform_all M tr x.
Proof.
  induction 1 as [|tr1 tr2 tr3 Hs _ IH]; [done|]. rewrite IH. destruct Hs as [p e1 e2 q Hi].
  rewrite !perform_all_app. destruct (perform_all M p x) as [y|]; [|done].
  change (perform_all M (e2 :: e1 :: q) y = perform_all M (e1 :: e2 :: q) y).
  by rewrite !perform_two, (performs_swap e1 e2 y Hi).
Qed.
End memory.

(** ** Whole sections *)

Lemma phased_mono c : ∀ H p (e1 e2 : gset mutex → bool → bool),
  (∀ H' p', e1 H' p' = true → e2 H' p' = true) → phased H p c e1 = true → phased H p c e2 = true.
Proof.
  induction c as [|b|d b|c1 IH1 c2 IH2|c1 IH1 c2 IH2|c IH|m c IH|m|m];
    intros H p e1 e2 He; simpl; rewrite ?andb_true_iff; [apply He..| | | | | |].
  - apply IH1. intros H' p'. by apply IH2.
  - intros [? ?]. eauto.
  - intros [? ?]. auto.
  - intros [? Hc]. split; [done|]. eapply IH, Hc. intros H' p'. cbn beta. destruct (decide (m ∈ H')); apply He.
  - apply He.
  - intros [? ?]. auto.
Qed.

(** What [Releases] and [Passes] say about the mutexes held. *)
Definition agrees (H : gset mutex) (a : act) : Prop :=
  match a with Releases m => m ∈ H | Passes m => m ∉ H | _ => True end.

Lemma tmove_phased k a k' H p :
  tmove k a k' → agrees H a → thread_phased H p k = true →
  (∀ m, a = Acquires m → p = false) ∧ thread_phased (phase (H, p) a).1 (phase (H, p) a).2 k' = true.
Proof.
  destruct 1; simpl; rewrite ?andb_true_iff; intros Ha; try (intros Hk; split; [done|]); try tauto.
  - destruct Hk as [Hc Hk]. eapply phased_mono, Hc. simpl.
    intros H' p' [->%bool_decide_eq_true ->%Bool.eqb_prop]%andb_true_iff. by rewrite Hc, Hk.
  - by intros [?%negb_true_iff ?].
  - by intros [?%negb_true_iff ?].
  - by rewrite decide_True in Hk.
  - by rewrite decide_False in Hk.
Qed.

(** A thread's steps that take mutexes only before giving any back, section by section. *)
Inductive orderly : list move → Prop :=
  | orderly_nil : orderly []
  | orderly_snoc l e :
      orderly l → (acquires e = true → (phase_after l).2 = false) → orderly (l ++ [e]).

Lemma phase_after_snoc l e : phase_after (l ++ [e]) = phase (phase_after l) (what e).
Proof. unfold phase_after. by rewrite foldl_app. Qed.

Lemma orderly_pieces l :
  orderly l →
  (∀ B b B', pieces l = B ++ b :: B' → held_after (concat B) = ∅) ∧
  ∀ B b, pieces l = B ++ [b] → released b = true → (phase_after l).2 = true ∨ held_after l = ∅.
Proof.
  induction 1 as [|l e Hl [IHs IHr] Ha]; [split; intros []; done|].
  unfold held_after. rewrite pieces_snoc, phase_after_snoc.
  assert (releases e = true → (phase (phase_after l) (what e)).2 = true ∨ (phase (phase_after l) (what e)).1 = ∅) as Hrel.
  { unfold releases. destruct (what e); try done. intros _. simpl.
    rewrite bool_decide_eq_true. destruct (decide ((phase_after l).1 ∖ {[m]} = ∅)); auto. }
  pose proof (concat_pieces l) as Hcat.
  destruct (pieces l) as [|b0 B0 _] using rev_ind.
  - rewrite add_nil. split.
    + intros [|? [|]] b B' [=]; done.
    + intros [|? [|]] b [=]; subst; [|done..]. unfold released. simpl. rewrite orb_false_r. apply Hrel.
  - rewrite add_snoc. specialize (IHr B0 b0 eq_refl). destruct (acquires e && released b0) eqn:Hc.
    + apply andb_true_iff in Hc as [Hacq Hb0]. specialize (Ha Hacq). split.
      * intros B b B' Heq. destruct B' as [|b' B' _] using rev_ind.
        -- apply app_inj_tail in Heq as [<- _]. rewrite Hcat. destruct (IHr Hb0); [congruence|done].
        -- rewrite app_comm_cons, (app_assoc B) in Heq. apply app_inj_tail in Heq as [Heq _].
           by eapply IHs.
      * intros B b [_ <-]%app_inj_tail. unfold released. simpl. unfold acquires, releases in *.
        by destruct (what e).
    + split.
      * intros B b B' Heq. destruct B' as [|b' B' _] using rev_ind.
        -- apply app_inj_tail in Heq as [<- _]. by eapply IHs.
        -- rewrite app_comm_cons, (app_assoc B) in Heq. apply app_inj_tail in Heq as [-> _].
           eapply (IHs B b (B' ++ [b0])). by rewrite <-app_assoc.
      * intros B b [_ <-]%app_inj_tail. rewrite released_snoc, orb_true_iff. intros [Hb|Hr]; [|by apply Hrel].
        destruct (releases e) eqn:Hre; [by apply Hrel|]. rewrite Hb, andb_true_r in Hc.
        unfold acquires, releases in *. by destruct (what e); try done; apply IHr.
Qed.

(** A piece takes mutexes before it gives any back. *)
Lemma piece_phases l b :
  b ∈ pieces l →
  ∃ x y, b = x ++ y ∧ Forall (λ e, releases e = false) x ∧ Forall (λ e, acquires e = false) y.
Proof.
  revert b. induction l as [|e l IH] using rev_ind; intros b; [by intros ?%elem_of_nil|].
  rewrite pieces_snoc.
  assert (∃ x y, [e] = x ++ y ∧ Forall (λ e, releases e = false) x ∧ Forall (λ e, acquires e = false) y) as He.
  { destruct (releases e) eqn:Hr; [exists [], [e]|exists [e], []]; split_and!; try done; constructor; try done.
    unfold acquires, releases in *. by destruct (what e). }
  destruct (pieces l) as [|b0 B0 _] using rev_ind; [by intros ->%list_elem_of_singleton|].
  rewrite add_snoc. destruct (acquires e && released b0) eqn:Hc; rewrite elem_of_app.
  - intros [Hb| ->%list_elem_of_singleton]; [by apply IH|done].
  - intros [Hb| ->%list_elem_of_singleton]; [apply IH; set_solver|].
    destruct (IH b0) as (x & y & -> & Hx & Hy); [set_solver|]. destruct (acquires e) eqn:Ha.
    + exists (x ++ y ++ [e]), []. split_and!; [by rewrite app_nil_r, <-app_assoc| |done].
      apply Forall_forall. intros e' He'. simpl in Hc.
      destruct (releases e') eqn:Hr; [|done]. rewrite app_assoc in He'.
      apply elem_of_app in He' as [He'| ->%list_elem_of_singleton].
      * rewrite <-Hc. symmetry. apply existsb_exists. exists e'. by rewrite <-list_elem_of_In.
      * unfold acquires, releases in *. by destruct (what e).
    + exists x, (y ++ [e]). split_and!; [by rewrite <-app_assoc|done|]. apply Forall_app. by repeat constructor.
Qed.

Section program.
Context (bodies : list code) (Hbodies : forallb checked bodies = true).
Notation does := (does bodies).
Notation runs := (runs bodies).

Lemma does_held s e s' t :
  does s e s' →
  held (holder s') t = (if decide (mover e = t) then (phase (held (holder s) t, false) (what e)).1 else held (holder s) t) ∧
  agrees (held (holder s) (mover e)) (what e).
Proof.
  intros [_ _ _ Hen ->]. simpl. destruct (what e); simpl in *; split; try done;
    try (by case_decide); try (by apply elem_of_held); try (by rewrite elem_of_held).
  - case_decide as Ht; [subst; by rewrite held_insert|by rewrite held_insert_other].
  - case_decide as Ht; [subst; by rewrite held_delete|by apply held_delete_other with (t := mover e)].
Qed.

Lemma phase_held H p q a : (phase (H, p) a).1 = (phase (H, q) a).1.
Proof. by destruct a. Qed.

Lemma runs_held tr s t : runs fresh_process tr s → held (holder s) t = held_after (of_thread t tr).
Proof.
  revert s. induction tr as [|e tr IH] using rev_ind; intros s Hr.
  - inversion Hr; subst. apply set_eq. intros x. rewrite elem_of_held. simpl. by rewrite lookup_empty.
  - apply runs_snoc_inv in Hr as (s1 & Hr & He). destruct (does_held _ _ _ t He) as [-> _].
    rewrite of_thread_snoc, (IH s1 Hr). unfold held_after. case_decide; [|by rewrite app_nil_r].
    rewrite phase_after_snoc. destruct (phase_after _). apply phase_held.
Qed.

(** All that thread [t] runs is two-phase code. *)
Definition well_phased (t : nat) (tr : list move) : Prop :=
  ∀ e c, e ∈ of_thread t tr → what e = Begins c → two_phase c = true.

Lemma runs_orderly tr s t :
  runs fresh_process tr s → well_phased t tr →
  orderly (of_thread t tr) ∧
  ∀ k, threads s !! t = Some k →
       thread_phased (held_after (of_thread t tr)) (phase_after (of_thread t tr)).2 k = true.
Proof.
  revert s. induction tr as [|e tr IH] using rev_ind; intros s Hr Hw.
  - inversion Hr; subst. split; [constructor|]. intros k. simpl. by rewrite lookup_empty.
  - unfold well_phased in *. apply runs_snoc_inv in Hr as (s1 & Hr & He). pose proof (runs_held _ _ t Hr) as Hheld.
    destruct (IH s1 Hr) as [Ho Hk]; [intros e' c Hin; apply Hw; rewrite of_thread_app; set_solver|].
    rewrite of_thread_snoc in Hw |- *. pose proof (does_held _ _ _ t He) as [_ Hag].
    destruct He as [_ Hleg Hfrom _ ->]. simpl. case_decide as Ht.
    2:{ rewrite app_nil_r, lookup_insert_ne by done. auto. }
    subst t. rewrite lookup_insert_eq. unfold held_after. rewrite phase_after_snoc.
    destruct (what e) as [|c| | | |] eqn:Ha; unfold legal, starts_from in Hleg, Hfrom; rewrite Ha in Hleg, Hfrom.
    2:{ destruct Hleg as [_ Hrest]. apply (runs_threads bodies tr) in Hfrom as Hnil; [|done].
        rewrite Hnil in Hw |- *. simpl. split.
        - apply (orderly_snoc [] e); [constructor|]. unfold acquires. by rewrite Ha.
        - intros k [= <-]. rewrite Hrest. simpl. apply (Hw e c); [by left|done]. }
    all: pose proof (tmove_phased _ _ _ (held_after (of_thread (mover e) tr)) (phase_after (of_thread (mover e) tr)).2 Hleg)
        as Hph; rewrite Hheld in Hag; destruct (Hph Hag (Hk _ Hfrom)) as [Hacq Hrest].
    all: split; [constructor; [done|unfold acquires; rewrite Ha; naive_solver]|intros k [= <-]].
    all: unfold held_after in Hrest; by destruct (phase_after _).
Qed.

(** In a run in pieces, a thread whose code is two-phase begins each piece holding
    nothing. *)
Lemma piece_starts_free tr l1 t b l2 s s1 :
  runs fresh_process tr s → well_phased t tr →
  (∀ t', mine t' (l1 ++ (t, b) :: l2) = pieces (of_thread t' tr)) →
  runs fresh_process (steps_in l1) s1 → ∀ m, holder s1 !! m ≠ Some t.
Proof.
  intros Hr Hw Hm Hr1 m Hh%elem_of_held. rewrite (runs_held _ _ t Hr1) in Hh.
  rewrite of_thread_steps_in in Hh.
  2:{ intros t' b' e Hin. apply (pieces_own tr (l1 ++ (t, b) :: l2)); [done|set_solver]. }
  destruct (runs_orderly tr s t Hr Hw) as [Ho _]. apply orderly_pieces in Ho as [Hfree _].
  specialize (Hm t). rewrite mine_app, mine_cons, decide_True in Hm by done. symmetry in Hm.
  rewrite (Hfree _ _ _ Hm) in Hh. by apply elem_of_empty in Hh.
Qed.

End program.

(** ** Playing a schedule *)

(** What a thread does next. *)
Definition next_act (t : nat) (h : gmap mutex nat) (k : thread) : act :=
  match k with
  | Run (Touch d _) :: _ => Touches d
  | Run (Guard m _) :: _ | Run (Relock m) :: _ => Acquires m
  | Run (Unlock m) :: _ => Releases m
  | Leave m :: _ => if decide (h !! m = Some t) then Releases m else Passes m
  | _ => Silent
  end.

Lemma tnext_tmove other t h k k' h' :
  tnext other t h k = Some (k', h') →
  tmove k (next_act t h k) k' ∧ enabled t (next_act t h k) h ∧ h' = after t (next_act t h k) h.
Proof.
  destruct k as [|[c|m] k]; [done| |]; simpl.
  - destruct c; repeat case_match; intros [= <- <-]; by split_and!; [constructor|..].
  - intros [= <- <-]. case_decide; by split_and!; [constructor|..].
Qed.

(** The step an event of a schedule is. *)
Definition move_of (ev : event) (s : Machine) : option move :=
  let go other t :=
    k ← threads s !! t; '(k', _) ← tnext other t (holder s) k;
    Some {| mover := t; what := next_act t (holder s) k; from := k; rest := k' |} in
  match ev with
  | Begin t c => Some {| mover := t; what := Begins c; from := []; rest := [Run c] |}
  | Go t => go false t
  | GoOther t => go true t
  end.

Fixpoint recording_of (es : list event) (s : Machine) : option (list move * Machine) :=
  match es with
  | [] => Some ([], s)
  | ev :: es =>
      e ← move_of ev s; s1 ← mnext ev s; '(tr, s2) ← recording_of es s1; Some (e :: tr, s2)
  end.

Lemma move_of_does bodies ev s e s' :
  begins bodies ev → move_of ev s = Some e → mnext ev s = Some s' → does bodies s e s'.
Proof.
  assert (∀ other t,
    (k ← threads s !! t; '(k', _) ← tnext other t (holder s) k;
     Some {| mover := t; what := next_act t (holder s) k; from := k; rest := k' |}) = Some e →
    (k ← threads s !! t; '(k', h') ← tnext other t (holder s) k;
     Some {| threads := <[t := k']> (threads s); holder := h'; terminated := false |}) = Some s' →
    terminated s = false → does bodies s e s') as Hgo.
  { intros other t. destruct (threads s !! t) as [k|] eqn:Hk; [|done]. simpl.
    destruct (tnext other t (holder s) k) as [[k' h']|] eqn:Hn; [|done]. simpl. intros [= <-] [= <-] Hf.
    apply tnext_tmove in Hn as (Hm & He & ->).
    assert (∀ c, next_act t (holder s) k ≠ Begins c) as Hnb by (intros c; by eapply tmove_not_begins).
    split; unfold legal, starts_from, result; simpl; try done; destruct (next_act _ _ _); naive_solver. }
  unfold mnext, move_of. destruct (terminated s) eqn:Hf; [done|]. destruct ev as [t c|t|t]; simpl; [|eauto..].
  intros Hc [= <-]. case_decide as Ht; [|done]. intros [= <-].
  by split; unfold legal, starts_from, result.
Qed.

Lemma recording_runs bodies es : ∀ s tr s',
  Forall (begins bodies) es → recording_of es s = Some (tr, s') → runs bodies s tr s'.
Proof.
  induction es as [|ev es IH]; intros s tr s' Hes; simpl; [intros [= <- <-]; constructor|].
  apply Forall_cons in Hes as [Hev Hes]. destruct (move_of ev s) as [e|] eqn:He; [|done]. simpl.
  destruct (mnext ev s) as [s1|] eqn:Hs; [|done]. simpl.
  destruct (recording_of es s1) as [[tr1 s2]|] eqn:Hrec; [|done]. intros [= <- <-].
  econstructor; [by eapply move_of_does|by apply IH].
Qed.
