(* ===== verification/LockedProgram.v ===== *)
(** * The locks of the control plane

    The threads of the control plane in the language of [Locks]: what
    [database.cpp], [function_registry.cpp], [invocation_store.cpp], [metrics.cpp] and
    [runtime_manager.cpp] lock, touch and release, in their order, and the handlers of
    [main.cpp] that call them. They pass the check, so the process has no deadlock and
    no data race on what the mutexes protect; and every step of [PlatformRuns], a pass
    of the reaper included, is at most one of their critical sections, which is why that
    model may take it as one step. *)

From S2P Require Import Prelude CppStd StringFacts ContainerBackend FunctionModel Metrics Http.
From S2P Require Import HttpClient HttpServer RuntimeManager RuntimeInvariant RuntimeCalls.
From S2P Require Import SimWorld RuntimeConcurrency RuntimePool Database MemDatabase FunctionRegistry.
From S2P Require Import InvocationStore Json ControlPlane ControlPlaneFacts PlatformRuns PlatformFacts.
From S2P Require Import PlatformPromises Locks Serialization.

Module Code.

(** ** database.cpp *)

Definition exec : code := Guard DbMutex (Touch Connection true).

(** A [Statement] locks the database's mutex before it prepares and releases it after
    it finalizes. *)
Definition statement (body : list code) : code :=
  Guard DbMutex (block ([Touch Connection true] ++ body ++ [Touch Connection false])).
Definition bind : code := Touch Connection false.
Definition step : code := Touch Connection true.
Definition column : code := Touch Connection false.
Definition changes : code := Touch Connection false.
Definition last_insert_id : code := Touch Connection false.

(** ** function_registry.cpp *)

Definition registry_get : code :=
  statement [bind; step; Either Skip (block (replicate 9 column))].
Definition insert_function : code := statement (replicate 9 bind ++ [step]).
Definition register_function : code := block [insert_function; registry_get].
Definition registry_remove : code := statement [bind; step; changes].
Definition registry_list : code := statement [Loop (block (step :: replicate 9 column)); step].

(** ** invocation_store.cpp *)

Definition record : code := statement (replicate 6 bind ++ [step; last_insert_id]).
Definition store_get : code :=
  block [Outside false;                    (* stol, whose exceptions it catches *)
         Either Skip (statement [bind; step; Either Skip (block (replicate 8 column))])].

(** ** metrics.cpp *)

Definition record_invocation : code := Guard MetricsMutex (Touch Series false).
Definition record_runtime_created : code := Guard MetricsMutex (Touch Series false).
Definition record_runtime_terminated : code := Guard MetricsMutex (Touch Series false).
Definition render : code := Guard MetricsMutex (Touch Series false).

(** ** runtime_manager.cpp *)

(** [run_container], [get_host_port] and the health checks touch nothing shared. *)
Definition start_runtime : code := Outside false.
Definition remove_container : code := Outside false.
Definition find : code := Touch Runtimes false.

(** Remove the runtime that was found, if the name is tracked. *)
Definition drop_runtime : code :=
  block [remove_container; Touch Runtimes false; record_runtime_terminated].

(** [try_invoke] from where a runtime is at hand. *)
Definition serve : code :=
  block [Touch Runtimes false;             (* BUSY, last_used_at *)
         Unlock ManagerMutex;
         Outside false;                    (* client.post *)
         Relock ManagerMutex;
         find;
         Either Skip                       (* no longer tracked *)
           (Either drop_runtime            (* timed out or dead *)
              (Touch Runtimes false))].    (* IDLE, last_used_at *)

Definition try_invoke : code :=
  Guard ManagerMutex
    (block [find;
            Either
              (block [start_runtime;
                      Either (block [Unlock ManagerMutex; Outside false])
                        (block [Touch Runtimes false; record_runtime_created; serve])])
              serve]).

Definition invoke : code :=
  block [Outside false; try_invoke; Either Skip try_invoke; record_invocation].
Definition status : code := Guard ManagerMutex find.
Definition list_runtimes : code :=
  Guard ManagerMutex (block [Touch Runtimes false; Loop (Touch Runtimes false)]).
Definition terminate : code := Guard ManagerMutex (block [find; Either Skip drop_runtime]).
Definition reap_pass : code := Guard ManagerMutex (Loop (block [find; Either drop_runtime Skip])).
Definition reap_idle_runtimes : code := Loop (block [Outside false; reap_pass]).

(** ** main.cpp *)

(** Replies are built from what the thread has copied; [json::dump] may throw. *)
Definition reply : code := Outside true.

Definition post_functions : code :=
  block [Outside true; Either reply (block [register_function; reply])].
Definition get_function : code := block [registry_get; reply].
Definition delete_function : code :=
  block [registry_remove; Either reply (block [terminate; reply])].
Definition post_invoke : code :=
  block [registry_get; Either reply (block [invoke; record; reply])].
Definition get_runtime : code :=
  block [registry_get; Either reply (block [status; reply])].
Definition get_runtimes : code := block [list_runtimes; reply].
Definition get_metrics : code := block [list_runtimes; render; reply].
Definition get_invocation : code := block [store_get; reply].

Definition handler (c : ApiCall) : code :=
  match c with
  | Deploy _ => post_functions
  | Remove _ => delete_function
  | Invoke _ _ => post_invoke
  | Health => reply
  | Describe _ => get_function
  | RuntimeOf _ => get_runtime
  | ListRuntimes => get_runtimes
  | Scrape => get_metrics
  | InvocationOf _ => get_invocation
  end.

(** [handle_connection]: read a request, which may throw; reply; send and close. *)
Definition connection (c : code) : code := block [Outside true; c; Outside false].

(** [main] up to [listen], whose return the control plane never asks for. *)
Definition main_thread : code := block [exec; exec; Outside true].

Definition every_call : list ApiCall :=
  [Deploy ""; Remove ""; Invoke "" ""; Health; Describe ""; RuntimeOf ""; ListRuntimes; Scrape;
   InvocationOf ""].

(** [main], the reaper, and a thread for each connection: one that asks for something,
    or one whose request is refused before a handler runs. *)
Definition bodies : list code :=
  main_thread :: reap_idle_runtimes :: connection Skip :: (connection ∘ handler <$> every_call).
End Code.

Lemma bodies_checked : forallb checked Code.bodies = true.
Proof. by vm_compute. Qed.

(** ** Between two steps of the platform *)

Import Code.

(** What a connection thread has left to run where [PlatformRuns] has it in [h], its call
    - if it has one - in [c]. *)
Definition sending : thread := [Run (block [Outside false])].
Definition within (cs : list code) : thread := Run (block cs) :: Run Skip :: sending.
Definition recording : thread := within [record; reply].
Definition rest_of_invoke (retried : bool) : thread :=
  Run (block (if retried then [record_invocation] else [Either Skip try_invoke; record_invocation]))
    :: recording.
Definition rest_of_attempt (cold_start : bool) : thread :=
  replicate (if cold_start then 3 else 1)%nat (Run Skip) ++ [Leave ManagerMutex].

Definition in_call (c : Call) : thread :=
  match c with
  | Ready _ false =>
      Run (block [try_invoke; Either Skip try_invoke; record_invocation]) :: recording
  | Ready _ true => Run try_invoke :: rest_of_invoke true
  | Calling _ retried cold_start _ _ =>
      Run (block [Outside false; Relock ManagerMutex; find;
                  Either Skip (Either drop_runtime (Touch Runtimes false))])
        :: rest_of_attempt cold_start ++ rest_of_invoke retried
  | Replied _ retried cold_start _ _ _ =>
      Run (block [Relock ManagerMutex; find;
                  Either Skip (Either drop_runtime (Touch Runtimes false))])
        :: rest_of_attempt cold_start ++ rest_of_invoke retried
  | Finished _ => Run (block [record_invocation]) :: recording
  end.

Definition resume (h : Handler) (c : option Call) : thread :=
  match h with
  | Deploying _ => within [register_function; reply]
  | ReadingBack _ => Run (block [registry_get]) :: Run (block [reply]) :: Run Skip :: sending
  | Removing _ => Run delete_function :: sending
  | Terminating _ => within [terminate; reply]
  | LookingUp _ _ => Run post_invoke :: sending
  | Found _ _ _ => within [invoke; record; reply]
  | Invoking _ _ => from_option in_call [] c
  | Recording _ _ _ => recording
  | Describing _ => Run get_function :: sending
  | Checking _ => Run get_runtime :: sending
  | Asking _ => within [status; reply]
  | Listing => Run get_runtimes :: sending
  | Counting => Run get_metrics :: sending
  | Rendering _ => Run (block [render; reply]) :: sending
  | Finding _ => Run get_invocation :: sending
  | Answered _ => sending
  end.

(** The thread takes a step, and more, from [k] to [k'] entering at most one critical
    section, and holds nothing before or after. *)
Definition one_section (k k' : thread) : Prop :=
  ∃ k1 h1 n, tstep 0 ∅ k k1 h1 ∧ solo k1 h1 n k' ∅ ∧ (enters ∅ h1 + n ≤ 1)%nat.
(** It gets from [k] to where it may throw, in at most one critical section. *)
Definition section_throws (k : thread) : Prop :=
  ∃ n k' h', (n ≤ 1)%nat ∧ solo k ∅ n k' h' ∧ throwing k' = true.

Definition leads_to (k : thread) (h : Handler) (c : option Call) : Prop :=
  match h with
  | Answered (Throw _) => section_throws k
  | Answered (Undefined _) => True
  | _ => one_section k (resume h c)
  end.

Definition gets_to (bs : list bool) (k k' : thread) : bool :=
  let branches := match k with Run (Either _ _) :: _ | Run (Loop _) :: _ => true | _ => false end in
  match tnext (branches && List.hd false bs) 0 ∅ k with
  | Some (k1, h1) =>
      match drive (λ k2 h2, bool_decide (k2 = k') && bool_decide (h2 = ∅)) 100
              (if branches then List.tl bs else bs) k1 h1 with
      | Some (n, _, _) => Nat.leb (enters ∅ h1 + n) 1
      | None => false
      end
  | None => false
  end.
Lemma gets_to_section bs k k' : gets_to bs k k' = true → one_section k k'.
Proof.
  unfold gets_to. destruct (tnext _ 0 ∅ k) as [[k1 h1]|] eqn:Hk1; [|done].
  destruct (drive _ 100 _ k1 h1) as [[[n k2] h2]|] eqn:Hd; [|done].
  intros Hn%Nat.leb_le. apply drive_solo in Hd as [Hs Hth].
  apply andb_true_iff in Hth as [->%bool_decide_eq_true ->%bool_decide_eq_true].
  exists k1, h1, n. split_and!; [by eapply tnext_tstep|done|done].
Qed.

Definition gets_to_throw (bs : list bool) (k : thread) : bool :=
  match drive (λ k1 _, throwing k1) 100 bs k ∅ with
  | Some (n, _, _) => Nat.leb n 1
  | None => false
  end.
Lemma gets_to_throw_section bs k : gets_to_throw bs k = true → section_throws k.
Proof.
  unfold gets_to_throw. destruct (drive _ 100 bs k ∅) as [[[n k1] h1]|] eqn:Hd; [|done].
  intros Hn%Nat.leb_le. apply drive_solo in Hd as [Hs Hth]. by exists n, k1, h1.
Qed.

(** *** The reaper

    A pass has as many turns as there are runtimes, so its section is said act by act. *)

(** What thread 0 does, alone, from where it has [k] left and holds [h]. *)
Inductive acts_alone (k : thread) (h : gmap mutex nat) : list act → thread → gmap mutex nat → Prop :=
  | alone_here : acts_alone k h [] k h
  | alone_next a k1 l k2 h2 :
      tmove k a k1 → enabled 0 a h → acts_alone k1 (after 0 a h) l k2 h2 →
      acts_alone k h (a :: l) k2 h2.

Definition visible (a : act) : bool := match a with Silent => false | _ => true end.

(** The pass holds the manager's mutex from its first look at the runtimes to its last;
    it looks at every runtime, and at each it removes - [gone] - it uses the metrics,
    whose mutex it takes inside. *)
Definition reap_section (gone : list bool) : list act :=
  Acquires ManagerMutex ::
  flat_map (λ g : bool,
    Touches Runtimes ::
    if g then [Touches Runtimes; Acquires MetricsMutex; Touches Series; Releases MetricsMutex]
    else []) gone ++
  [Releases ManagerMutex].

Definition reaps (gone : list bool) : Prop :=
  ∃ l, acts_alone [Run reap_idle_runtimes] ∅ l [Run reap_idle_runtimes] ∅ ∧
       filter visible l = reap_section gone.

Lemma acts_alone_app k h l k1 h1 l' k2 h2 :
  acts_alone k h l k1 h1 → acts_alone k1 h1 l' k2 h2 → acts_alone k h (l ++ l') k2 h2.
Proof. induction 1; [done|]. simpl. econstructor; eauto. Qed.

(** Which runtimes a step of the platform removed, in the order of the map. *)
Definition removed_between {D E} (p p' : Plat D E) : list bool :=
  (λ f, bool_decide (runtimes_ (mgr (sys p')) !! f = None)) <$>
  (map_to_list (runtimes_ (mgr (sys p)))).*1.

Ltac act_by move := eapply alone_next; [apply move|by vm_compute|simpl].

(** One turn of the pass. *)
Lemma reap_turn (g : bool) k :
  ∃ l, acts_alone (Run (Loop (block [find; Either drop_runtime Skip])) :: k) {[ManagerMutex := 0%nat]} l
         (Run (Loop (block [find; Either drop_runtime Skip])) :: k) {[ManagerMutex := 0%nat]} ∧
       filter visible l = Touches Runtimes ::
         if g then [Touches Runtimes; Acquires MetricsMutex; Touches Series; Releases MetricsMutex]
         else [].
Proof.
  exists (if g
    then [Silent; Silent; Touches Runtimes; Silent; Silent; Silent; Silent; Silent;
          Touches Runtimes; Silent; Acquires MetricsMutex; Touches Series; Releases MetricsMutex;
          Silent; Silent]
    else [Silent; Silent; Touches Runtimes; Silent; Silent; Silent; Silent]).
  split; [|by destruct g].
  destruct g; act_by mv_again; act_by mv_seq; act_by mv_touch; act_by mv_seq.
  - act_by mv_left. act_by mv_seq. act_by mv_outside. act_by mv_seq. act_by mv_touch. act_by mv_seq.
    act_by mv_guard. act_by mv_touch. act_by mv_leave. act_by mv_skip. act_by mv_skip. constructor.
  - act_by mv_right. act_by mv_skip. act_by mv_skip. constructor.
Qed.

Lemma reap_turns (gone : list bool) k :
  ∃ l, acts_alone (Run (Loop (block [find; Either drop_runtime Skip])) :: k) {[ManagerMutex := 0%nat]} l
         (Run (Loop (block [find; Either drop_runtime Skip])) :: k) {[ManagerMutex := 0%nat]} ∧
       filter visible l = flat_map (λ g : bool,
         Touches Runtimes ::
         if g then [Touches Runtimes; Acquires MetricsMutex; Touches Series; Releases MetricsMutex]
         else []) gone.
Proof.
  induction gone as [|g gone (l & Hl & Hv)]; [exists []; by split; [constructor|]|].
  destruct (reap_turn g k) as (lg & Hg & Hvg). exists (lg ++ l).
  split; [by eapply acts_alone_app|]. by rewrite filter_app, Hv, Hvg.
Qed.

Lemma reaps_all (gone : list bool) : reaps gone.
Proof.
  destruct (reap_turns gone [Leave ManagerMutex; Run Skip; Run reap_idle_runtimes]) as (l & Hl & Hv).
  exists ([Silent; Silent; Silent; Silent; Acquires ManagerMutex] ++ l ++
          [Silent; Releases ManagerMutex; Silent]). split.
  - act_by mv_again. act_by mv_seq. act_by mv_outside. act_by mv_seq. act_by mv_guard.
    eapply acts_alone_app; [exact Hl|]. act_by mv_done. act_by mv_leave. act_by mv_skip. constructor.
  - rewrite !filter_app, Hv. done.
Qed.

(** Run the thread, with the given branches. *)
Ltac section_with bs := apply (gets_to_section bs); vm_compute; exact eq_refl.
Ltac section_by_throwing bs := apply (gets_to_throw_section bs); vm_compute; exact eq_refl.

Section steps.
  Context {J : Type} `{Json J} {D : Type} `{Sqlite D, SqliteView D}.
  Context {E : Type} `{Clock E, ContainerBackend E, Sockets E, BackendHistory E}.
  Context (default_idle_ms : Z).
  Implicit Types p : Plat D E.

Lemma settled_bind {A} (m : Io D A) (f : A → Handler) (d : D) :
  settled ((x ⇐ m; io_ret (f x)) d).1 = settled (f <$> (m d).1).
Proof. unfold io_bind. by destruct (m d) as [[] ?]. Qed.

Lemma leads_answered_once bs bt k (r : outcome Response) c :
  gets_to bs k sending = true → gets_to_throw bt k = true → leads_to k (Answered r) c.
Proof.
  intros Hs Ht. destruct r; simpl; [by eapply gets_to_section|by eapply gets_to_throw_section|done].
Qed.
Ltac section_by_replying bs bt :=
  match goal with c' : option Call |- _ => apply (leads_answered_once bs bt _ _ c') end;
  vm_compute; exact eq_refl.

(** One use of the database. *)
Lemma store_step_section (h : Handler) (m : Io D Handler) (d : D) (c c' : option Call) :
  store_move (J:=J) h = Some m → leads_to (resume h c) (settled (m d).1) c'.
Proof.
  destruct h; simpl; intros [= <-]; rewrite settled_bind.
  - destruct (FunctionRegistry.upsert_function _ d).1; simpl; [section_with [false]|section_by_throwing [false]|done].
  - destruct (FunctionRegistry.read_back _ d).1; simpl; [|section_by_throwing [false]|done].
    section_by_replying [false] [false].
  - destruct (FunctionRegistry.remove _ d).1 as [[]| |]; simpl; [section_with [true]| |section_by_throwing [false]|done].
    section_by_replying [false] [false].
  - destruct (FunctionRegistry.get _ d).1 as [[]| |]; simpl; [section_with [true; true]| |section_by_throwing [false]|done].
    section_by_replying [false; false] [false].
  - destruct (InvocationStore.record _ _ _ _ _ _ d).1; simpl; [|section_by_throwing [false]|done].
    section_by_replying [false] [false].
  - destruct (FunctionRegistry.get _ d).1 as [[]| |]; simpl; [| |section_by_throwing [false]|done];
      section_by_replying [false] [false].
  - destruct (FunctionRegistry.get _ d).1 as [[]| |]; simpl; [section_with [true; true]| |section_by_throwing [false]|done].
    section_by_replying [false; false] [false].
  - destruct (InvocationStore.get _ d).1; simpl; [|section_by_throwing [true]|done].
    section_by_replying [false] [false].
Qed.

(** One question to the runtime manager or its metrics. *)
Lemma manager_step_section (h : Handler) (m : St (Manager E) Handler) (e : Manager E) (c c' : option Call) :
  manager_move (J:=J) h = Some m → leads_to (resume h c) (m e).1 c'.
Proof.
  destruct h; try done; simpl; intros [= <-].
  - rewrite st_bind_run. simpl. section_by_replying (@nil bool) (@nil bool).
  - rewrite st_bind_run. simpl. section_by_replying [true] [true].
  - rewrite st_bind_run. simpl. section_with [true].
  - section_by_replying (@nil bool) (@nil bool).
Qed.
(** One step of a call to [invoke]; its record is what the handler does next. *)
Lemma call_step_section t (s s' : Sys E) c f i :
  RuntimeConcurrency.step s (Own t) s' → calls s !! t = Some c →
  leads_to (in_call c) (after_call f i (Some c)) (calls s' !! t).
Proof.
  intros Hs. inversion Hs; subst; intros Hc; simplify_eq; simpl; rewrite ?lookup_insert_eq; simpl.
  - destruct (acquire _ _).1 as [error|[] port id], retried; simpl;
      [section_with [false; false]|section_with [false; false; false]
      |section_with [false; true]|section_with [false; true]|section_with [true]|section_with [true]].
  - destruct retried, cold_start; section_with (@nil bool).
  - destruct (settle _ _ _ _ _ _).1 as [r failed]. unfold after_settle. simpl.
    destruct retried; rewrite ?andb_false_r; [destruct cold_start; section_with [false]|].
    destruct (_ && _), cold_start; simpl;
      [section_with [false; true]|section_with [false; true]|section_with [false]|section_with [false]].
  - section_with (@nil bool).
Qed.

(** A request that has been read, up to the first thing its handler shares. *)
Lemma arrival_section (a : ApiCall) (c' : option Call) :
  leads_to [Run (connection (handler a))] (received (J:=J) default_idle_ms a) c'.
Proof.
  destruct a as [text|f|f body| |f|f| | |id]; try (section_with (@nil bool)).
  - simpl. destruct (json_parse (J:=J) text) as [body| |]; [|section_by_replying [false] [false]|done].
    destruct (_ || _); [section_by_replying [false] [false]|].
    destruct (spec_of_body default_idle_ms body); simpl;
      [section_with [true]|section_by_throwing [false]|done].
  - simpl. section_by_replying (@nil bool) (@nil bool).
Qed.

(** C12: every step of the concurrent platform is at most one critical section of the code:
    a thread of the program, run alone from where the model has it, takes steps of its
    own and reaches where the model puts it next - or throws, where the model has it
    throw - locking a mutex at most once while it holds none and holding none at either
    end. A pass of the reaper locks the manager's mutex once and keeps it from its look
    at the first runtime to its look at the last, whichever of them it removes. *)
Theorem platform_steps_are_sections p l p' :
  pstep (J:=J) default_idle_ms p l p' →
  match l with
  | PArrive t a => ∃ h', handlers p' !! t = Some h' ∧
      leads_to [Run (connection (handler a))] h' (calls (sys p') !! t)
  | POwn t => ∃ h h', handlers p !! t = Some h ∧ handlers p' !! t = Some h' ∧
      leads_to (resume h (calls (sys p) !! t)) h' (calls (sys p') !! t)
  | PReap => reaps (removed_between p p')
  | PWorld => True
  end.
Proof.
  intros Hs. destruct Hs as [t a _|t h m Ht Hm|t f i sp s' Ht -> Hc|t f i s' Ht Hs|t f s' Ht Hs
                            |t h m Ht Hm|s' _|]; simpl; [..|apply reaps_all|done];
    rewrite ?lookup_insert_eq.
  - eexists. split; [done|apply arrival_section].
  - eexists _, _. split_and!; [done..|by apply store_step_section].
  - eexists _, _. split_and!; [done..|]. simpl. section_with (@nil bool).
  - eexists _, _. split_and!; [done..|]. simpl.
    destruct (calls (sys p) !! t) as [c|] eqn:Hc; [|inversion Hs; congruence].
    by eapply call_step_section.
  - eexists _, _. split_and!; [done..|]. section_with [false].
  - eexists _, _. split_and!; [done..|by apply manager_step_section].
Qed.
End steps.

(** An invocation is about to look for its runtime; it starts one. *)
Definition before_the_call : list plabel := [PArrive 0 (Invoke "hello" ""); POwn 0; POwn 0].

Lemma platform_steps_are_sections_witness :
  ∃ h h',
    handlers (demo_play before_the_call) !! 0%nat = Some h ∧
    handlers (demo_play (before_the_call ++ [POwn 0])) !! 0%nat = Some h' ∧
    leads_to (resume h (calls (sys (demo_play before_the_call)) !! 0%nat)) h'
      (calls (sys (demo_play (before_the_call ++ [POwn 0]))) !! 0%nat).
Proof.
  apply (platform_steps_are_sections (J:=Tree) 60000 (demo_play before_the_call) (POwn 0)).
  apply (next_pstep (J:=Tree) 60000 ok_response). vm_compute. exact eq_refl.
Defined.

(** ** The process *)

(** C14: whoever still has work in the running control plane - [main], the reaper or a
    connection - can take a step, or waits for a mutex along a chain of holders that
    ends at a thread that can; and no thread waits, along such a chain, for itself. *)
Theorem control_plane_never_deadlocks s t it k :
  reachable bodies s → threads s !! t = Some (it :: k) →
  (∃ t', rtc (waits s) t t' ∧ can_step s t') ∧ ¬ tc (waits s) t t.
Proof.
  intros Hr Ht. split; [by eapply deadlock_free; [apply bodies_checked|..]|].
  by eapply no_cycle; [apply bodies_checked|].
Qed.

(** C15: a thread of the control plane that is about to touch the database connection, the
    map of runtimes or the metrics holds the mutex that protects it, and no other
    thread is about to touch the same. *)
Theorem control_plane_has_no_data_race s t d :
  reachable bodies s → about_to_touch s t d →
  holder s !! protector d = Some t ∧ ∀ t', t' ≠ t → ¬ about_to_touch s t' d.
Proof.
  intros Hr Ht. split; [by eapply touch_holds; [apply bodies_checked|..]|].
  intros t' Hne Ht'. by apply Hne, (race_free bodies bodies_checked s t' t d).
Qed.

(** A mutex is held by a thread that has work left; one that finished holds none, and
    unlocking is always the holder's. *)
Lemma control_plane_releases s m t :
  reachable bodies s → holder s !! m = Some t → ∃ it k, threads s !! t = Some (it :: k).
Proof. apply holder_alive, bodies_checked. Qed.

Lemma control_plane_unlocks s t m k :
  reachable bodies s → threads s !! t = Some (Run (Unlock m) :: k) → holder s !! m = Some t.
Proof.
  intros Hr Ht. destruct (reachable_ok bodies bodies_checked s Hr) as [Hk _].
  apply Hk in Ht. simpl in Ht. apply andb_true_iff in Ht as [Hm _].
  apply bool_decide_eq_true in Hm. by apply elem_of_held.
Qed.

(** ** Two requests at the runtime manager's mutex *)

Definition nothing : Machine := {| threads := ∅; holder := ∅; terminated := false |}.

(** An invocation marks its runtime idle while another request asks for the runtimes. *)
Definition contention : list event :=
  [Begin 0 (connection (handler (Invoke "" "")))] ++ replicate 60 (GoOther 0) ++
  [Begin 1 (connection (handler ListRuntimes))] ++ replicate 4 (Go 1).
Definition contended : Machine := default nothing (schedule contention nothing).

Lemma contended_reachable : reachable bodies contended.
Proof.
  apply (schedule_reachable bodies contention nothing); [|constructor|by vm_compute].
  by apply (bool_decide_unpack (Forall (begins bodies) contention)); vm_compute.
Qed.

(** The thread at the head of [k] stands at [Touch Runtimes]. *)
Definition touches_runtimes (k : option thread) : bool :=
  match k with Some (Run (Touch Runtimes _) :: _) => true | _ => false end.

Lemma touches_runtimes_about s t :
  touches_runtimes (threads s !! t) = true → about_to_touch s t Runtimes.
Proof.
  unfold about_to_touch. destruct (threads s !! t) as [[|[c|] k]|]; try done.
  destruct c; try done. destruct d; try done. by eexists _, _.
Qed.

Lemma control_plane_has_no_data_race_witness :
  holder contended !! ManagerMutex = Some 0%nat ∧
  ∀ t', t' ≠ 0%nat → ¬ about_to_touch contended t' Runtimes.
Proof.
  apply (control_plane_has_no_data_race contended 0 Runtimes);
    [exact contended_reachable|apply touches_runtimes_about; vm_compute; exact eq_refl].
Defined.

Definition waiting_thread : thread := default [] (threads contended !! 1%nat).

Lemma control_plane_never_deadlocks_witness :
  let s := contended in
  wants waiting_thread = Some ManagerMutex ∧ holder s !! ManagerMutex = Some 0%nat ∧
  (∃ t', rtc (waits s) 1%nat t' ∧ can_step s t') ∧ ¬ tc (waits s) 1%nat 1%nat.
Proof.
  cbv zeta. split; [vm_compute; exact eq_refl|]. split; [vm_compute; exact eq_refl|].
  apply (control_plane_never_deadlocks contended 1
           (List.hd (Leave DbMutex) waiting_thread) (List.tl waiting_thread));
    [exact contended_reachable|vm_compute; exact eq_refl].
Defined.

(** ** The end of main

    [Database::~Database] closes the connection without the mutex. [main] reaches it
    when [listen] returns, which it does after [stop] - a call the control plane never
    makes; a program that made it would race with the connections still open. *)

Definition main_to_the_end : code := block [exec; exec; Outside true; Touch Connection false].

Definition closing : list event :=
  [Begin 0 main_to_the_end] ++ replicate 11 (Go 0) ++
  [Begin 1 (connection (handler (Describe "")))] ++ replicate 6 (Go 1).
Definition closed_under : Machine := default nothing (schedule closing nothing).

Definition touches_connection (k : option thread) : bool :=
  match k with Some (Run (Touch Connection _) :: _) => true | _ => false end.

Lemma main_to_the_end_races :
  checked main_to_the_end = false ∧
  reachable (main_to_the_end :: bodies) closed_under ∧
  touches_connection (threads closed_under !! 0%nat) = true ∧
  touches_connection (threads closed_under !! 1%nat) = true.
Proof.
  split; [by vm_compute|]. split; [|by vm_compute].
  apply (schedule_reachable _ closing nothing); [|constructor|by vm_compute].
  by apply (bool_decide_unpack (Forall (begins (main_to_the_end :: bodies)) closing)); vm_compute.
Qed.
