(* ===== verification/AtomicSections.v ===== *)
(** * The critical sections of the control plane are atomic

    Every run of the threads of [LockedProgram] can be reordered into one in which the
    critical sections do not overlap ([Serialization]). [PlatformRuns] takes each of its
    steps at once, and [platform_steps_are_sections] says each is one section run alone:
    this is why no interleaving inside a section can be told from one around it. *)

From S2P Require Import Prelude CppStd Http ControlPlane PlatformRuns Locks Serialization LockedProgram.
Import Code.

(** The threads whose pieces are whole sections: all but the reaper, whose pass may remove
    several runtimes and counts each while it keeps the manager's mutex. *)
Definition sectioned (c : code) : bool := bool_decide (c ≠ reap_idle_runtimes).

Lemma bodies_two_phase : forallb (λ c, negb (sectioned c) || two_phase c) bodies = true.
Proof. by vm_compute. Qed.
Lemma reaper_is_not_two_phase : two_phase reap_idle_runtimes = false.
Proof. by vm_compute. Qed.

(** Where thread [t] began. *)
Definition began (t : nat) (c : code) (tr : list move) : Prop :=
  ∃ e, e ∈ of_thread t tr ∧ what e = Begins c.

Lemma sectioned_well_phased tr s t :
  runs bodies fresh_process tr s → ¬ began t reap_idle_runtimes tr → well_phased t tr.
Proof.
  intros Hr Hn e c He Hc.
  assert (c ∈ bodies) as Hin.
  { apply elem_of_of_thread in He as [_ He]. apply list_elem_of_split in He as (l1 & l2 & ->).
    apply runs_app_inv in Hr as (s1 & _ & Hr). inversion Hr as [|? ? ? ? Hd _]; subst.
    destruct Hd as [_ Hleg _ _ _]. unfold legal in Hleg. rewrite Hc in Hleg. by destruct Hleg. }
  pose proof bodies_two_phase as Hb. rewrite forallb_forall in Hb.
  specialize (Hb c). rewrite <-list_elem_of_In in Hb. specialize (Hb Hin).
  apply orb_true_iff in Hb as [Hs|]; [|done]. apply negb_true_iff, bool_decide_eq_false in Hs.
  destruct Hn. exists e. split; [done|]. destruct (decide (c = reap_idle_runtimes)); [congruence|tauto].
Qed.

(** C13: every run of the control plane's threads, however they interleave, can be reordered -
    keeping each thread's steps, the order in which each mutex is taken and given back
    and the order of the accesses to each protected datum, and so, for whatever the
    steps compute from what they read, every value read and the final memory - into a
    run to the same state in which each thread runs piece by piece without interruption.
    A piece takes mutexes and then gives them back, and a thread other than the reaper
    begins each holding none: its critical sections do not overlap with anything. *)
Theorem control_plane_sections_are_atomic tr s :
  runs bodies fresh_process tr s →
  ∃ bl, runs bodies fresh_process (steps_in bl) s ∧
    (∀ t, of_thread t (steps_in bl) = of_thread t tr ∧ mine t bl = pieces (of_thread t tr)) ∧
    (∀ r, users r (steps_in bl) = users r tr) ∧
    (∀ (L V : Type) (M : Meaning L V) x, perform_all M (steps_in bl) x = perform_all M tr x) ∧
    ∀ l1 t b l2, bl = l1 ++ (t, b) :: l2 →
      (∃ x y, b = x ++ y ∧ Forall (λ e, releases e = false) x ∧ Forall (λ e, acquires e = false) y) ∧
      (¬ began t reap_idle_runtimes tr →
       ∀ s1, runs bodies fresh_process (steps_in l1) s1 → ∀ m, holder s1 !! m ≠ Some t).
Proof.
  intros Hr. destruct (run_in_pieces bodies bodies_checked tr s Hr) as (bl & Hrun & Hre & Hm).
  exists bl. split_and!; [done|..].
  - intros t. split; [by apply reorders_of_thread|done].
  - intros r. by apply reorders_users.
  - intros L V M x. by apply reorders_perform.
  - intros l1 t b l2 ->. split.
    + apply (piece_phases (of_thread t tr)). rewrite <-Hm. apply elem_of_mine. set_solver.
    + intros Hn s1 Hr1. apply (piece_starts_free bodies bodies_checked tr l1 t b l2 s s1 Hr); [by eapply sectioned_well_phased|done..].
Qed.

(** ** Two requests that interleave

    An invocation is in the manager's mutex when another request takes the database's; it
    leaves its section and enters the next before the other leaves. *)

Definition interleaved : list event :=
  [Begin 0 (connection (handler (Invoke "" "")))] ++ replicate 50 (GoOther 0) ++
  [Begin 1 (connection (handler (Describe "")))] ++ replicate 9 (GoOther 1) ++
  replicate 6 (GoOther 0) ++ replicate 28 (GoOther 1) ++ replicate 5 (GoOther 0).
Definition interleaved_run : list move * Machine := default ([], nothing) (recording_of interleaved fresh_process).

Lemma interleaved_runs : runs bodies fresh_process interleaved_run.1 interleaved_run.2.
Proof.
  apply (recording_runs bodies interleaved).
  - by apply (bool_decide_unpack (Forall (begins bodies) interleaved)); vm_compute.
  - unfold interleaved_run. destruct (recording_of interleaved fresh_process) as [[tr s]|] eqn:Hr; [done|].
    vm_compute in Hr. discriminate.
Qed.

(** Who locks and unlocks in a run, in order. *)
Definition lockers (tr : list move) : list nat := mover <$> filter (λ e, acquires e || releases e) tr.

Definition begins_reaper (e : move) : bool :=
  match what e with Begins c => negb (sectioned c) | _ => false end.
Lemma not_began t tr : existsb begins_reaper (of_thread t tr) = false → ¬ began t reap_idle_runtimes tr.
Proof.
  intros Hex (e & He & Hc). assert (existsb begins_reaper (of_thread t tr) = true); [|congruence].
  apply existsb_exists. exists e. rewrite <-list_elem_of_In. split; [done|].
  unfold begins_reaper. rewrite Hc. apply negb_true_iff, bool_decide_eq_false. tauto.
Qed.

Lemma control_plane_sections_are_atomic_witness :
  let tr := interleaved_run.1 in
  lockers tr = [0; 0; 0; 1; 0; 0; 1]%nat ∧
  ∃ bl, runs bodies fresh_process (steps_in bl) interleaved_run.2 ∧
    mine 0 bl = pieces (of_thread 0 tr) ∧
    ∀ l1 t b l2, bl = l1 ++ (t, b) :: l2 → (t < 2)%nat →
    ∀ s1, runs bodies fresh_process (steps_in l1) s1 → ∀ m, holder s1 !! m ≠ Some t.
Proof.
  cbv zeta. split; [vm_compute; exact eq_refl|].
  destruct (control_plane_sections_are_atomic _ _ interleaved_runs) as (bl & Hr & Hm & _ & _ & Hp).
  exists bl. split; [exact Hr|]. split; [apply Hm|]. intros l1 t b l2 Hbl Ht.
  apply (Hp l1 t b l2 Hbl), not_began. destruct t as [|[|t]]; [..|lia]; vm_compute; exact eq_refl.
Defined.
