(* ===== verification/Cli.v ===== *)
(** * The command line client ([cli/src/main.cpp])

    Argument and unit parsing, and every command: what it prints, the request it
    sends and its exit status. [std::stod] and the printing of a [double] are
    parameters. *)

From S2P Require Import Prelude CppStd StringFacts Http HttpClient SimWorld Json.
From Stdlib Require Import PrimFloat.

Record Args : Type := {
  positional : list string;
  flags : gmap string string;
}.

(** The loop over [argv]: a token that starts with [--] takes the next one as its
    value, whatever it is; the last one has an empty value. *)
Fixpoint parse_args_loop (argv : list string) (args : Args) : Args :=
  match argv with
  | [] => args
  | token :: argv =>
      if String.prefix "--" token then
        let key := drop 2 token in
        match argv with
        | [] => {| positional := positional args; flags := <[key := ""]> (flags args) |}
        | value :: argv =>
            parse_args_loop argv
              {| positional := positional args; flags := <[key := value]> (flags args) |}
        end
      else
        parse_args_loop argv
          {| positional := positional args ++ [token]; flags := flags args |}
  end.
Definition parse_args (argv : list string) : Args :=
  parse_args_loop argv {| positional := []; flags := ∅ |}.

(** [value.substr(value.size() - 2)] and [value.substr(0, value.size() - n)]. *)
Definition suffix2 (value : string) : string := drop (String.length value - 2) value.
Definition without_last (n : nat) (value : string) : string := take (String.length value - n) value.

Definition parse_duration_ms (value : string) (fallback : Z) : outcome Z :=
  if decide (value = "") then Ok fallback
  else if decide ((2 < String.length value)%nat ∧ suffix2 value = "ms") then
    stoi (without_last 2 value)
  else if decide (last_char value = Some "s"%char) then
    n ← stoi (without_last 1 value); int_mul n 1000
  else if decide (last_char value = Some "m"%char) then
    n ← stoi (without_last 1 value); int_mul n 60000
  else stoi value.

Definition parse_memory_mb (value : string) (fallback : Z) : outcome Z :=
  if decide (value = "") then Ok fallback
  else if decide ((2 < String.length value)%nat ∧ suffix2 value = "Mi") then
    stoi (without_last 2 value)
  else if decide ((2 < String.length value)%nat ∧ suffix2 value = "Gi") then
    n ← stoi (without_last 2 value); int_mul n 1024
  else stoi value.

(** Without a colon, [find] is [npos], whose successor is 0: the whole endpoint is
    both host and port. *)
Definition make_client (env : option string) : outcome Client :=
  let endpoint := default "127.0.0.1:8080" env in
  let '(host, port_text) :=
    match find_char ":" endpoint with
    | Some colon => (take colon endpoint, drop (colon + 1) endpoint)
    | None => (endpoint, endpoint)
    end in
  port ← stoi port_text;
  mret {| host_ := host; port_ := port |}.

(** ** The terminal *)

Record Terminal (E : Type) : Type := {
  out : string;
  err : string;
  net : E;
}.
Arguments out {_} _.
Arguments err {_} _.
Arguments net {_} _.

Section cli.
  Context {E : Type} `{Sockets E} {J : Type} `{Json J}.
  Context (std_stod : string → outcome float) (ostream_double : float → string).
  Context (FAAS_API : option string).

Definition cout (text : string) : Io (Terminal E) unit := λ t,
  (Ok tt, {| out := out t +:+ text; err := err t; net := net t |}).
Definition cerr (text : string) : Io (Terminal E) unit := λ t,
  (Ok tt, {| out := out t; err := err t +:+ text; net := net t |}).

Definition on_net {A} (m : St E A) : Io (Terminal E) A :=
  io_lift (zoom net (λ e t, {| out := out t; err := err t; net := e |}) m).

(** [std::cout << label << value << "\n"]: the label is out before the value is
    computed. *)
Definition cout_field (label : string) (value : outcome string) : Io (Terminal E) unit :=
  _ ⇐ cout label;
  v ⇐ io_of value;
  cout (line v).

Definition api_get (path : string) : Io (Terminal E) ClientResponse :=
  client ⇐ io_of (make_client FAAS_API); on_net (get client path 0).
Definition api_post (path body : string) : Io (Terminal E) ClientResponse :=
  client ⇐ io_of (make_client FAAS_API); on_net (post client path body "application/json" 0).
Definition api_del (path : string) : Io (Terminal E) ClientResponse :=
  client ⇐ io_of (make_client FAAS_API); on_net (del client path 0).

Definition api_failed (resp : ClientResponse) : bool :=
  negb (cr_ok resp) || bool_decide (300 ≤ cr_status resp).

(** The caught block prints the label before [value] can throw; the handler then
    prints the line again. *)
Definition print_api_error (resp : ClientResponse) : Io (Terminal E) unit :=
  if negb (cr_ok resp) then
    _ ⇐ cerr (line ("error: could not reach control plane (" +:+ cr_error resp +:+ ")"));
    cerr (line "is the control plane running? see: make run")
  else
    io_catch
      (body ⇐ io_of (json_parse (cr_body resp));
       _ ⇐ cerr "error: ";
       text ⇐ io_of (json_value_string body "error" (cr_body resp));
       cerr (line text))
      (λ _, cerr (line ("error: " +:+ cr_body resp))).

Definition usage (text : string) : Io (Terminal E) Z :=
  _ ⇐ cerr (line text);
  io_ret 1.

(** The fields of a deploy request that a flag adds. *)
Definition flag_field (args : Args) (flag key : string) (read : string → outcome J) :
    outcome (list (string * J)) :=
  match flags args !! flag with
  | None => mret []
  | Some v => x ← read v; mret [(key, x)]
  end.

Definition deploy_body (args : Args) (name image : string) : outcome J :=
  timeout ← flag_field args "timeout" "timeout_ms" (λ v, json_integer <$> parse_duration_ms v 5000);
  memory ← flag_field args "memory" "memory_mb" (λ v, json_integer <$> parse_memory_mb v 256);
  cpu ← flag_field args "cpu" "cpu" (λ v, json_double <$> std_stod v);
  concurrency ← flag_field args "concurrency" "max_concurrency" (λ v, json_integer <$> stoi v);
  idle ← flag_field args "idle-timeout" "idle_timeout_ms"
           (λ v, json_integer <$> parse_duration_ms v 60000);
  mret (json_object ([("name", json_string name); ("image", json_string image)]
                     ++ timeout ++ memory ++ cpu ++ concurrency ++ idle)).

(** A command that fails on an API error and otherwise goes on. *)
Definition unless_failed (resp : ClientResponse) (k : Io (Terminal E) Z) : Io (Terminal E) Z :=
  if api_failed resp then _ ⇐ print_api_error resp; io_ret 1 else k.

Definition cmd_deploy (args : Args) : Io (Terminal E) Z :=
  match positional args with
  | [] => usage ("usage: cloudfn deploy <name> --image <image> [--timeout 5s] [--memory 256Mi] "
                 +:+ "[--cpu 0.5] [--concurrency 1] [--idle-timeout 60s]")
  | name :: _ =>
      match flags args !! "image" with
      | None | Some "" => usage "error: --image is required"
      | Some image =>
          body ⇐ io_of (deploy_body args name image);
          client ⇐ io_of (make_client FAAS_API);
          text ⇐ io_of (json_dump body);
          resp ⇐ on_net (post client "/functions" text "application/json" 0);
          unless_failed resp
            (_ ⇐ cout (line ("deployed " +:+ name));
             io_ret 0)
      end
  end.

(** [cmd_describe] from the parsed reply on. *)
Definition print_function (fn : J) : Io (Terminal E) Z :=
  _ ⇐ cout_field "Name:        " (json_value_string fn "name" "");
  _ ⇐ cout_field "Version:     " (to_string <$> json_value_int fn "version" 1);
  _ ⇐ cout_field "Image:       " (json_value_string fn "image" "");
  _ ⇐ cout_field "Timeout:     "
        ((λ z, to_string z +:+ "ms") <$> json_value_int fn "timeout_ms" 0);
  _ ⇐ cout_field "Memory:      "
        ((λ z, to_string z +:+ "Mi") <$> json_value_int fn "memory_mb" 0);
  _ ⇐ cout_field "CPU:         " (ostream_double <$> json_value_double fn "cpu" 0%float);
  _ ⇐ cout_field "Concurrency: " (to_string <$> json_value_int fn "max_concurrency" 1);
  _ ⇐ cout_field "Idle timeout: "
        ((λ z, to_string z +:+ "ms") <$> json_value_int fn "idle_timeout_ms" 0);
  _ ⇐ cout_field "Status:      " (json_value_string fn "status" "");
  io_ret 0.

Definition cmd_describe (args : Args) : Io (Terminal E) Z :=
  match positional args with
  | [] => usage "usage: cloudfn describe <name>"
  | name :: _ =>
      resp ⇐ api_get ("/functions/" +:+ name);
      unless_failed resp
        (fn ⇐ io_of (json_parse (cr_body resp));
         print_function fn)
  end.

Definition bool_text (b : bool) : string := if b then "true" else "false".

Definition cmd_invoke (args : Args) : Io (Terminal E) Z :=
  match positional args with
  | [] => usage "usage: cloudfn invoke <name> --data '<json>'"
  | name :: _ =>
      let data := default "{}" (flags args !! "data") in
      resp ⇐ api_post ("/functions/" +:+ name +:+ "/invoke") data;
      if negb (cr_ok resp) then _ ⇐ print_api_error resp; io_ret 1 else
      match json_parse (cr_body resp) with
      | Throw _ =>
          _ ⇐ cerr (line ("error: unexpected response: " +:+ cr_body resp));
          io_ret 1
      | Undefined u => io_of (Undefined u)
      | Ok body =>
          if bool_decide (300 ≤ cr_status resp) then
            _ ⇐ cerr "error: ";
            text ⇐ io_of (json_value_string body "error" (cr_body resp));
            _ ⇐ cerr (line text);
            io_ret 1
          else
            _ ⇐ cout_field "status: " (json_value_string body "status" "");
            _ ⇐ (if json_contains body "result"
                 then cout_field "result: " (json_dump (json_index body "result"))
                 else if json_contains body "error"
                 then cout_field "error: " (json_value_string body "error" "")
                 else io_ret tt);
            _ ⇐ cout_field "duration: "
                  ((λ z, to_string z +:+ " ms") <$> json_value_int body "duration_ms" 0);
            _ ⇐ cout_field "cold_start: "
                  (bool_text <$> json_value_bool body "cold_start" false);
            _ ⇐ cout_field "invocation_id: " (json_value_string body "invocation_id" "");
            status ⇐ io_of (json_value_string body "status" "");
            io_ret (if decide (status = "success") then 0 else 1)
      end
  end.

(** [cmd_invocation] from the parsed reply on. *)
Definition print_record (record : J) : Io (Terminal E) Z :=
  _ ⇐ cout_field "id:         " (json_value_string record "id" "");
  _ ⇐ cout_field "function:   " (json_value_string record "function" "");
  _ ⇐ cout_field "status:     " (json_value_string record "status" "");
  _ ⇐ cout_field "result:     "
        (if json_contains record "result" then json_dump (json_index record "result")
         else mret "null");
  _ ⇐ cout_field "duration:   "
        ((λ z, to_string z +:+ " ms") <$> json_value_int record "duration_ms" 0);
  _ ⇐ cout_field "cold_start: " (bool_text <$> json_value_bool record "cold_start" false);
  io_ret 0.

Definition cmd_invocation (args : Args) : Io (Terminal E) Z :=
  match positional args with
  | [] => usage "usage: cloudfn invocation <id>"
  | id :: _ =>
      resp ⇐ api_get ("/invocations/" +:+ id);
      unless_failed resp
        (record ⇐ io_of (json_parse (cr_body resp));
         print_record record)
  end.

Definition cmd_logs (args : Args) : Io (Terminal E) Z :=
  match positional args with
  | [] => usage "usage: cloudfn logs <name>"
  | _ :: _ =>
      _ ⇐ cout (line "logs are not implemented yet");
      io_ret 0
  end.

Definition TAB : string := String "009"%char "".

Fixpoint print_entries (entries : list J) : Io (Terminal E) Z :=
  match entries with
  | [] => io_ret 0
  | entry :: entries =>
      function ⇐ io_of (json_value_string entry "function" "");
      _ ⇐ cout (function +:+ TAB);
      state ⇐ io_of (json_value_string entry "state" "");
      _ ⇐ cout (state +:+ TAB +:+ "port=");
      port ⇐ io_of (json_value_int entry "host_port" 0);
      _ ⇐ cout (to_string port +:+ TAB +:+ "idle_ms=");
      idle ⇐ io_of (json_value_long entry "idle_ms" 0);
      _ ⇐ cout (line (to_string idle));
      print_entries entries
  end.

Definition cmd_runtimes (args : Args) : Io (Terminal E) Z :=
  resp ⇐ api_get "/runtimes";
  unless_failed resp
    (entries ⇐ io_of (json_parse (cr_body resp));
     if json_empty entries then
       _ ⇐ cout (line "no active runtimes");
       io_ret 0
     else print_entries (json_elements entries)).

Definition cmd_delete (args : Args) : Io (Terminal E) Z :=
  match positional args with
  | [] => usage "usage: cloudfn delete <name>"
  | name :: _ =>
      resp ⇐ api_del ("/functions/" +:+ name);
      unless_failed resp
        (_ ⇐ cout (line ("deleted " +:+ name));
         io_ret 0)
  end.

(** [main], its [argv] without the program name. *)
Definition main (argv : list string) : Io (Terminal E) Z :=
  match argv with
  | [] => usage "usage: cloudfn <deploy|describe|invoke|invocation|logs|delete|runtimes> ..."
  | command :: argv =>
      let args := parse_args argv in
      if decide (command = "deploy") then cmd_deploy args
      else if decide (command = "describe") then cmd_describe args
      else if decide (command = "invoke") then cmd_invoke args
      else if decide (command = "invocation") then cmd_invocation args
      else if decide (command = "logs") then cmd_logs args
      else if decide (command = "delete") then cmd_delete args
      else if decide (command = "runtimes") then cmd_runtimes args
      else usage ("unknown command: " +:+ command)
  end.
End cli.

(** ** Units *)

Lemma last_char_lacks c s : lacks c s = true → last_char s ≠ Some c.
Proof.
  induction s as [|a s IH]; [done|]. intros [Ha Hs]%lacks_cons.
  destruct s as [|b s]; simpl in *; [congruence|]. by apply IH.
Qed.

Lemma suffix2_split value a b :
  suffix2 value = String a (String b "") → ∃ t, value = (t +:+ String a "") +:+ String b "".
Proof.
  intros Hs. exists (take (String.length value - 2) value).
  rewrite <-(take_drop (String.length value - 2) value) at 1. unfold suffix2 in Hs.
  by rewrite Hs, app_assoc_str.
Qed.

Lemma suffix2_last value a b :
  suffix2 value = String a (String b "") → last_char value = Some b.
Proof. intros [t ->]%suffix2_split. apply last_char_snoc. Qed.

Lemma suffix2_before x a b c :
  lacks a x = true → suffix2 (x +:+ String c "") ≠ String a (String b "").
Proof.
  intros Hx [t Ht]%suffix2_split.
  apply (f_equal pop_back) in Ht. rewrite !pop_back_snoc in Ht. subst.
  apply lacks_app in Hx as [_ Hx]. by apply lacks_cons in Hx as [? _].
Qed.

Lemma suffix2_app x a b :
  suffix2 (x +:+ String a (String b "")) = String a (String b "").
Proof.
  unfold suffix2. rewrite length_app_str. simpl. rewrite Nat.add_sub. apply drop_length_app.
Qed.
Lemma without_last_app x t n : String.length t = n → without_last n (x +:+ t) = x.
Proof. intros <-. unfold without_last. rewrite length_app_str, Nat.add_sub. apply take_length_app. Qed.

Lemma to_string_length z : (0 < String.length (to_string z))%nat.
Proof. pose proof (to_string_ne z). destruct (to_string z); simpl; [done|lia]. Qed.

(** Durations and sizes mean what their unit says, and what does not fit an [int]
    after the multiplication is undefined. *)
Theorem units_are_parsed (n fallback : Z) :
  in_int n →
  parse_duration_ms (to_string n +:+ "ms") fallback = Ok n ∧
  parse_duration_ms (to_string n +:+ "s") fallback = int_mul n 1000 ∧
  parse_duration_ms (to_string n +:+ "m") fallback = int_mul n 60000 ∧
  parse_duration_ms (to_string n) fallback = Ok n ∧
  parse_memory_mb (to_string n +:+ "Mi") fallback = Ok n ∧
  parse_memory_mb (to_string n +:+ "Gi") fallback = int_mul n 1024 ∧
  parse_memory_mb (to_string n) fallback = Ok n ∧
  parse_duration_ms "" fallback = Ok fallback ∧ parse_memory_mb "" fallback = Ok fallback.
Proof.
  intros Hn. set (x := to_string n).
  assert (∀ t, x +:+ t ≠ "") as Hne
    by (intros t; unfold x; pose proof (to_string_ne n); by destruct (to_string n)).
  assert (∀ c, is_digit c = false → c ≠ "-"%char → lacks c x = true) as Hlack
    by (intros; by apply to_string_lacks).
  pose proof (to_string_length n) as Hlen. fold x in Hlen.
  assert (∀ c, is_digit c = false → c ≠ "-"%char → last_char x ≠ Some c) as Hlast
    by (intros; by apply last_char_lacks, Hlack).
  assert (x ≠ "") as Hx by (rewrite <-(app_empty_r x); apply Hne).
  assert (stoi x = Ok n) as Hst by (by apply stoi_to_string).
  assert (∀ a b, is_digit b = false → b ≠ "-"%char →
            suffix2 x ≠ String a (String b "")) as Hsuf
    by (intros a b ? ? Hs%suffix2_last; by apply (Hlast b)).
  unfold parse_duration_ms, parse_memory_mb.
  split_and!; try done.
  - rewrite decide_False, decide_True, (without_last_app x "ms" 2 eq_refl); [done| |apply Hne].
    split; [rewrite length_app_str; simpl; lia|apply suffix2_app].
  - rewrite decide_False, decide_False, last_char_snoc, decide_True, (without_last_app x "s" 1 eq_refl), Hst;
      [done|done| |apply Hne].
    intros [_ Hs]. by apply (suffix2_before x "m" "s" "s") in Hs; [|apply Hlack].
  - rewrite decide_False, decide_False, last_char_snoc, decide_False, decide_True,
      (without_last_app x "m" 1 eq_refl), Hst; [done|done|done| |apply Hne].
    intros [_ Hs]. by apply (suffix2_before x "m" "s" "m") in Hs; [|apply Hlack].
  - rewrite !decide_False; [done|by apply Hlast|by apply Hlast| |done].
    intros [_ Hs]. by apply Hsuf in Hs.
  - rewrite decide_False, decide_True, (without_last_app x "Mi" 2 eq_refl); [done| |apply Hne].
    split; [rewrite length_app_str; simpl; lia|apply suffix2_app].
  - rewrite decide_False, decide_False, decide_True, (without_last_app x "Gi" 2 eq_refl), Hst;
      [done| | |apply Hne].
    + split; [rewrite length_app_str; simpl; lia|apply suffix2_app].
    + intros [_ Hs]. by rewrite suffix2_app in Hs.
  - rewrite !decide_False; [done| | |done]; intros [_ Hs];
      by apply Hsuf in Hs.
Qed.

(** Units nobody defined are accepted too: the number is taken, the unit dropped
    or misread. *)
Theorem unknown_units_are_misread (fallback : Z) :
  parse_duration_ms "5h" fallback = Ok 5 ∧
  parse_duration_ms "5 minutes" fallback = Ok 5000 ∧
  parse_memory_mb "1G" fallback = Ok 1 ∧
  parse_memory_mb "262144Ki" fallback = Ok 262144.
Proof. by vm_compute. Qed.

(** ** Arguments *)

(** A command line as meant: positional arguments and flags with values. *)
Inductive arg : Type := Positional (s : string) | Flag (key value : string).
Definition arg_tokens (a : arg) : list string :=
  match a with Positional s => [s] | Flag k v => ["--" +:+ k; v] end.
Definition arg_ok (a : arg) : Prop :=
  match a with Positional s => String.prefix "--" s = false | Flag _ _ => True end.
Definition add_arg (args : Args) (a : arg) : Args :=
  match a with
  | Positional s => {| positional := positional args ++ [s]; flags := flags args |}
  | Flag k v => {| positional := positional args; flags := <[k := v]> (flags args) |}
  end.

(** Parsing recovers positional arguments in order and, for each flag, its last
    value; a final flag without a value gets the empty one. *)
Theorem parse_args_roundtrip (args : list arg) (key : string) :
  Forall arg_ok args →
  let meant := foldl add_arg {| positional := []; flags := ∅ |} args in
  parse_args (mjoin (arg_tokens <$> args)) = meant ∧
  parse_args (mjoin (arg_tokens <$> args) ++ ["--" +:+ key]) = add_arg meant (Flag key "").
Proof.
  assert (∀ args rest args0, Forall arg_ok args →
    parse_args_loop (mjoin (arg_tokens <$> args) ++ rest) args0
    = parse_args_loop rest (foldl add_arg args0 args)) as Hgen.
  { clear args. induction args as [|[s|k v] args IH]; intros rest args0 Hok; [done|..];
      apply Forall_cons in Hok as [Ha Hok].
    - simpl. simpl in Ha. rewrite Ha. by apply IH.
    - cbn [fmap list_fmap mjoin list_join arg_tokens app]. cbn [parse_args_loop].
      rewrite prefix_app. change (drop 2 ("--" +:+ k)) with k. by apply IH. }
  intros Hok. unfold parse_args. cbv zeta. split.
  - rewrite <-(app_nil_r (mjoin _)). by rewrite Hgen.
  - rewrite Hgen by done. cbn [parse_args_loop]. by rewrite prefix_app.
Qed.

(** ** The endpoint *)

(** [FAAS_API] is host and port around its first colon; without a colon the whole
    text is taken for the port as well, and a host name is an exception. *)
Theorem make_client_endpoint (host : string) (port : Z) :
  lacks ":" host = true → in_int port →
  make_client (Some (host +:+ ":" +:+ to_string port)) = Ok {| host_ := host; port_ := port |} ∧
  (strto host = None → make_client (Some host) = Throw InvalidArgument) ∧
  make_client None = Ok {| host_ := "127.0.0.1"; port_ := 8080 |}.
Proof.
  intros Hh Hp. split_and!.
  - unfold make_client. cbn [from_option id]. change (":" +:+ to_string port) with (String ":" (to_string port)).
    rewrite find_char_app by done. rewrite Nat.add_1_r, drop_S_app, take_length_app.
    by rewrite stoi_to_string.
  - intros Hs. unfold make_client. cbn [from_option id].
    apply find_char_None in Hh as ->. unfold stoi. by rewrite Hs.
  - by vm_compute.
Qed.

(** ** Exit status *)

Section exit_status.
  Context {E : Type} `{Sockets E} {J : Type} `{Json J}.
  Context (std_stod : string → outcome float) (ostream_double : float → string).
  Context (FAAS_API : option string).

Lemma io_of_inv {S A} (r : outcome A) (s s' : S) a : io_of r s = (Ok a, s') → r = Ok a ∧ s' = s.
Proof. by intros [= -> ->]. Qed.

Lemma unless_failed_inv resp (k : Io (Terminal E) Z) t code t' :
  unless_failed (J:=J) resp k t = (Ok code, t') →
  (code = 1 ∧ api_failed resp = true) ∨ (api_failed resp = false ∧ k t = (Ok code, t')).
Proof.
  unfold unless_failed. destruct (api_failed resp); [|by right].
  intros (a & t1 & _ & Hr)%io_bind_inv. injection Hr as <- _. by left.
Qed.

(** Reporting an error sends nothing. *)
Lemma unless_failed_net resp (k : Io (Terminal E) Z) t code t' :
  unless_failed (J:=J) resp k t = (Ok code, t') → api_failed resp = true → net t' = net t.
Proof.
  unfold unless_failed. intros Hrun Hf. rewrite Hf in Hrun. apply io_bind_inv in Hrun as (u & t1 & Hp & Hr).
  injection Hr as _ <-. revert Hp. unfold print_api_error, cerr, io_catch, io_bind, io_of.
  destruct (negb (cr_ok resp)); [by intros [= _ <-]|].
  destruct (json_parse (cr_body resp)) as [body|x|u'];
    [|by intros [= _ <-]|by intros [=]].
  destruct (json_value_string body "error" (cr_body resp)); [..|by intros [=]]; by intros [= _ <-].
Qed.

Lemma api_failed_false resp :
  api_failed resp = false ↔ cr_ok resp = true ∧ cr_status resp < 300.
Proof.
  unfold api_failed. rewrite orb_false_iff, negb_false_iff, bool_decide_eq_false. split; lia || idtac.
  - intros [? ?]. split; [done|lia].
  - intros [? ?]. split; [done|lia].
Qed.

(** What a [deploy] that returns has done. *)
Lemma cmd_deploy_inv (args : Args) (t : Terminal E) (code : Z) (t' : Terminal E) :
  cmd_deploy (J:=J) std_stod FAAS_API args t = (Ok code, t') →
  code = 1 ∧ net t' = net t ∨
  ∃ name rest image body client text,
    positional args = name :: rest ∧ flags args !! "image" = Some image ∧ image ≠ "" ∧
    deploy_body (J:=J) std_stod args name image = Ok body ∧ json_dump body = Ok text ∧
    make_client FAAS_API = Ok client ∧
    let '(resp, e') := post client "/functions" text "application/json" 0 (net t) in
    net t' = e' ∧
    (code = 1 ∧ api_failed resp = true ∨
     code = 0 ∧ cr_ok resp = true ∧ cr_status resp < 300 ∧
     out t' = out t +:+ line ("deployed " +:+ name) ∧ err t' = err t).
Proof.
  assert (∀ text t code t', usage (E:=E) text t = (Ok code, t') → code = 1 ∧ net t' = net t) as Hus.
  { intros text t0 code0 t0' Hu. unfold usage, io_bind, cerr, io_ret in Hu. by injection Hu as <- <-. }
  unfold cmd_deploy. destruct (positional args) as [|name rest]; [intros ?%Hus; by left|].
  destruct (flags args !! "image") as [image|] eqn:Hi; [|intros ?%Hus; by left].
  intros Hrun.
  assert (image = "" ∧ code = 1 ∧ net t' = net t ∨ image ≠ "" ∧
    (body ⇐ io_of (deploy_body (J:=J) std_stod args name image);
     client ⇐ io_of (make_client FAAS_API);
     text ⇐ io_of (json_dump body);
     resp ⇐ on_net (post client "/functions" text "application/json" 0);
     unless_failed (J:=J) resp (_ ⇐ cout (line ("deployed " +:+ name)); io_ret 0)) t
    = (Ok code, t')) as [[_ ?]|[Hne Hrun']].
  { destruct image; [left; split; [done|by eapply Hus]|by right]. }
  { by left. }
  clear Hrun. apply io_bind_inv in Hrun' as (body & t1 & [Hb ->]%io_of_inv & Hrun).
  apply io_bind_inv in Hrun as (client & t2 & [Hc ->]%io_of_inv & Hrun).
  apply io_bind_inv in Hrun as (text & t3 & [Ht ->]%io_of_inv & Hrun).
  apply io_bind_inv in Hrun as (resp & t4 & Hp & Hrun).
  right. exists name, rest, image, body, client, text.
  unfold on_net, io_lift, zoom in Hp.
  destruct (post client "/functions" text "application/json" 0 (net t)) as [resp' e'] eqn:Hpost.
  injection Hp as -> <-. do 6 (split; [done|]).
  pose proof (unless_failed_net resp _ _ _ _ Hrun) as Hnet.
  apply unless_failed_inv in Hrun as [[-> Hf]|[Hok Hrun]].
  - by split; [rewrite Hnet|left].
  - injection Hrun as <- <-. split; [done|]. right. apply api_failed_false in Hok as [? ?].
    by split_and!.
Qed.

(** [deploy] ends with 0 or 1, or an exception. With 0, exactly one request was
    sent, it held the name, the image and every flag given, and the control plane
    answered it with a status below 300. *)
Theorem cmd_deploy_exit_status (args : Args) (t : Terminal E) (code : Z) (t' : Terminal E) :
  cmd_deploy (J:=J) std_stod FAAS_API args t = (Ok code, t') →
  (code = 0 ∨ code = 1) ∧
  (code = 0 → ∃ name rest image body client text,
     positional args = name :: rest ∧ flags args !! "image" = Some image ∧ image ≠ "" ∧
     deploy_body (J:=J) std_stod args name image = Ok body ∧ json_dump body = Ok text ∧
     make_client FAAS_API = Ok client ∧
     let '(resp, e') := post client "/functions" text "application/json" 0 (net t) in
     cr_ok resp = true ∧ cr_status resp < 300 ∧
     net t' = e' ∧ out t' = out t +:+ line ("deployed " +:+ name) ∧ err t' = err t).
Proof.
  intros Hrun. apply cmd_deploy_inv in Hrun as [[-> _]|Hrun]; [split; [by right|done]|].
  destruct Hrun as (name & rest & image & body & client & text & ? & ? & ? & ? & ? & ? & Hpost).
  destruct (post client "/functions" text "application/json" 0 (net t)) as [resp e'] eqn:Hp.
  destruct Hpost as (? & [[-> _]|(-> & ? & ? & ? & ?)]); [split; [by right|done]|].
  split; [by left|]. intros _. exists name, rest, image, body, client, text. rewrite Hp. by split_and!.
Qed.

(** A field that was printed, and the text of it. *)
Lemma cout_field_inv label value (t t' : Terminal E) a :
  cout_field label value t = (Ok a, t') →
  ∃ v, value = Ok v ∧
    t' = {| out := out t +:+ line (label +:+ v); err := err t; net := net t |}.
Proof.
  unfold cout_field, io_bind, io_of, cout, line. destruct value as [v| |]; [|done..]. intros [= _ <-].
  exists v. split; [done|]. simpl. by rewrite !app_assoc_str.
Qed.

(** Printing on the standard output only. *)
Definition shows (t t' : Terminal E) : Prop :=
  ∃ text, t' = {| out := out t +:+ text; err := err t; net := net t |}.

Lemma shows_field label value (t t' : Terminal E) a :
  cout_field label value t = (Ok a, t') → shows t t'.
Proof. intros (v & _ & ->)%cout_field_inv. by eexists. Qed.
Lemma shows_trans t1 t2 t3 : shows t1 t2 → shows t2 t3 → shows t1 t3.
Proof. intros [x ->] [y ->]. exists (x +:+ y). simpl. by rewrite app_assoc_str. Qed.

(** What [cmd_invoke] makes of the reply to its request. *)
Definition invoke_printed (resp : ClientResponse) (code : Z) (t t' : Terminal E) : Prop :=
  (code = 1 ∧ out t' = out t ∧
     (cr_ok resp = false ∨ 300 ≤ cr_status resp ∨ ∃ x, json_parse (J:=J) (cr_body resp) = Throw x)) ∨
  ∃ body status invocation_id shown,
    cr_ok resp = true ∧ cr_status resp < 300 ∧ json_parse (J:=J) (cr_body resp) = Ok body ∧
    json_value_string body "status" "" = Ok status ∧
    json_value_string body "invocation_id" "" = Ok invocation_id ∧
    out t' = out t +:+ line ("status: " +:+ status) +:+ shown +:+
             line ("invocation_id: " +:+ invocation_id) ∧
    code = if decide (status = "success") then 0 else 1.

Lemma invoke_printed_error resp code t t' :
  invoke_printed resp code t t' → cr_ok resp = false ∨ 300 ≤ cr_status resp → code = 1.
Proof.
  intros [(-> & _)|(body & status & i & shown & Hok & Hlt & _)] Hbad; [done|].
  destruct Hbad; [congruence|lia].
Qed.

Lemma invoke_printed_result resp code t t' body status i :
  invoke_printed resp code t t' → cr_ok resp = true → cr_status resp = 200 →
  json_parse (J:=J) (cr_body resp) = Ok body →
  (∀ d, json_value_string body "status" d = Ok status) →
  (∀ d, json_value_string body "invocation_id" d = Ok i) →
  code = (if decide (status = "success") then 0 else 1) ∧
  ∃ shown, out t' = out t +:+ line ("status: " +:+ status) +:+ shown +:+ line ("invocation_id: " +:+ i).
Proof.
  intros Hp Hok H200 Hparse Hs Hi.
  destruct Hp as [(_ & _ & [?|[?|[x ?]]])|(body' & status' & i' & shown & _ & _ & Hp' & Hs' & Hi' & Hout & ->)];
    [congruence|lia|congruence|].
  rewrite Hparse in Hp'. injection Hp' as <-. rewrite Hs in Hs'. injection Hs' as <-.
  rewrite Hi in Hi'. injection Hi' as <-. eauto.
Qed.

(** What an [invoke] that returns has done: it sent one request, unless it was called
    without a name, and reports what the reply says. *)
Lemma cmd_invoke_inv (args : Args) (t : Terminal E) (code : Z) (t' : Terminal E) :
  cmd_invoke (J:=J) FAAS_API args t = (Ok code, t') →
  positional args = [] ∧ code = 1 ∧ net t' = net t ∨
  ∃ name rest client,
    positional args = name :: rest ∧ make_client FAAS_API = Ok client ∧
    let '(resp, e') := post client ("/functions/" +:+ name +:+ "/invoke")
                         (default "{}" (flags args !! "data")) "application/json" 0 (net t) in
    net t' = e' ∧
    invoke_printed resp code t t'.
Proof.
  unfold cmd_invoke. destruct (positional args) as [|name rest].
  { intros (a & t1 & Hu & Hr)%io_bind_inv. injection Hr as <- <-. left. by injection Hu as _ <-. }
  intros (resp & t1 & Hapi & Hrun)%io_bind_inv. right.
  apply io_bind_inv in Hapi as (client & t2 & [Hc ->]%io_of_inv & Hp).
  exists name, rest, client. do 2 (split; [done|]).
  unfold on_net, io_lift, zoom in Hp. set (path := "/functions/" +:+ name +:+ "/invoke") in *.
  destruct (post client path _ "application/json" 0 (net t)) as [resp' e'] eqn:Hpost.
  injection Hp as -> <-.
  destruct (cr_ok resp) eqn:Hok; cbn [negb] in Hrun.
  2:{ apply io_bind_inv in Hrun as (a & t2 & Hr1 & Hr). injection Hr as <- <-.
      unfold print_api_error in Hr1. rewrite Hok in Hr1. cbn [negb] in Hr1.
      apply io_bind_inv in Hr1 as (a1 & t3 & Hx & Hy). injection Hx as _ <-. injection Hy as _ <-.
      split; [done|]. left. by split_and!; [..|left]. }
  destruct (json_parse (cr_body resp)) as [body|x|u] eqn:Hparse; [| |done].
  2:{ apply io_bind_inv in Hrun as (a & t2 & Hx & Hr). injection Hx as _ <-. injection Hr as <- <-.
      split; [done|]. left. split_and!; [done..|]. right. right. by exists x. }
  case_bool_decide as Hst.
  { apply io_bind_inv in Hrun as (a1 & t2 & Hx & Hrun). injection Hx as _ <-.
    apply io_bind_inv in Hrun as (a2 & t3 & [_ ->]%io_of_inv & Hrun).
    apply io_bind_inv in Hrun as (a3 & t4 & Hx & Hr). injection Hx as _ <-. injection Hr as <- <-.
    split; [done|]. left. split_and!; [done..|]. right. by left. }
  apply io_bind_inv in Hrun as (a1 & t2 & (status & Hs & ->)%cout_field_inv & Hrun).
  apply io_bind_inv in Hrun as (a2 & t3 & Hmid & Hrun).
  apply io_bind_inv in Hrun as (a3 & t4 & Hdur%shows_field & Hrun).
  apply io_bind_inv in Hrun as (a4 & t5 & Hcold%shows_field & Hrun).
  apply io_bind_inv in Hrun as (a5 & t6 & (id & Hid & ->)%cout_field_inv & Hrun).
  apply io_bind_inv in Hrun as (status' & t7 & [Hs' ->]%io_of_inv & Hr). injection Hr as <- <-.
  rewrite Hs in Hs'. injection Hs' as <-.
  match type of Hmid with _ ?t1 = _ => assert (shows t1 t3) as Hm end.
  { destruct (json_contains body "result"); [by eapply shows_field|].
    destruct (json_contains body "error"); [by eapply shows_field|].
    injection Hmid as _ <-. exists "". simpl. by rewrite app_empty_r. }
  destruct (shows_trans _ _ _ (shows_trans _ _ _ Hm Hdur) Hcold) as [shown ->]. simpl.
  split; [done|]. right. exists body, status, id, shown. split_and!; try done; [lia|].
  by rewrite !app_assoc_str.
Qed.

(** [invoke] ends with 0 or 1, or an exception; with 0 only if the platform
    answered the request and reported [success]. *)
Theorem cmd_invoke_exit_status (args : Args) (t : Terminal E) (code : Z) (t' : Terminal E) :
  cmd_invoke (J:=J) FAAS_API args t = (Ok code, t') →
  (code = 0 ∨ code = 1) ∧
  (code = 0 → ∃ name rest client body,
     positional args = name :: rest ∧ make_client FAAS_API = Ok client ∧
     let '(resp, e') := post client ("/functions/" +:+ name +:+ "/invoke")
                          (default "{}" (flags args !! "data")) "application/json" 0 (net t) in
     cr_ok resp = true ∧ cr_status resp < 300 ∧ net t' = e' ∧
     json_parse (cr_body resp) = Ok body ∧
     json_value_string body "status" "" = Ok "success").
Proof.
  intros [(_ & -> & _)|(name & rest & client & Hpos & Hc & Hrun)]%cmd_invoke_inv;
    [split; [by right|done]|].
  destruct (post client _ _ "application/json" 0 (net t)) as [resp e'] eqn:Hpost.
  destruct Hrun as [Hnet [(-> & _)|(body & status & id & shown & Hok & Hst & Hp & Hs & _ & _ & ->)]];
    [split; [by right|done]|].
  case_decide as Hd; [|split; [by right|done]]. split; [by left|]. intros _. subst status.
  exists name, rest, client, body. rewrite Hpost. by split_and!.
Qed.
End exit_status.

(** ** The hypotheses can be met *)

Lemma units_are_parsed_witness : parse_duration_ms "5s" 0 = Ok 5000.
Proof.
  assert (in_int 5) as Hn by done. destruct (units_are_parsed 5 0 Hn) as (_ & Hs & _).
  change "5s" with (to_string 5 +:+ "s"). rewrite Hs. by vm_compute.
Defined.

Lemma parse_args_roundtrip_witness :
  positional (parse_args ["hello"; "--image"; "hello:v1"; "--cpu"]) = ["hello"].
Proof.
  assert (Forall arg_ok [Positional "hello"; Flag "image" "hello:v1"]) as Hok
    by (by repeat constructor).
  destruct (parse_args_roundtrip [Positional "hello"; Flag "image" "hello:v1"] "cpu" Hok)
    as [_ Hp].
  change ["hello"; "--image"; "hello:v1"; "--cpu"]
    with (mjoin (arg_tokens <$> [Positional "hello"; Flag "image" "hello:v1"])
          ++ ["--" +:+ "cpu"]).
  by rewrite Hp.
Defined.

Lemma make_client_endpoint_witness :
  make_client (Some "10.0.0.1:9090") = Ok {| host_ := "10.0.0.1"; port_ := 9090 |} ∧
  make_client (Some "localhost") = Throw InvalidArgument.
Proof.
  split; [by apply (make_client_endpoint "10.0.0.1" 9090)|].
  by apply (make_client_endpoint "localhost" 1).
Defined.

(** A terminal on the simulated network, facing the stand-in JSON library. *)
Definition demo_terminal (replies : list (list string * recv_end)) : Terminal Sim :=
  {| out := ""; err := ""; net := new_sim replies |}.
Definition demo_stod (s : string) : outcome float := Ok 0.5%float.
Definition demo_args : Args := parse_args ["hello"; "--image"; "hello:v1"; "--timeout"; "5s"].

Lemma cmd_deploy_exit_status_witness :
  ∃ t', cmd_deploy (J:=Tree) demo_stod None demo_args (demo_terminal [reply_ok]) = (Ok 0, t') ∧
        out t' = line "deployed hello".
Proof.
  destruct (cmd_deploy (J:=Tree) demo_stod None demo_args (demo_terminal [reply_ok]))
    as [r t'] eqn:Hr.
  assert (r = Ok 0) as -> by (apply (f_equal fst) in Hr; vm_compute in Hr; by rewrite <-Hr).
  exists t'. split; [done|].
  destruct (cmd_deploy_exit_status (J:=Tree) demo_stod None demo_args _ _ _ Hr) as [_ Hz].
  destruct (Hz eq_refl) as (name & rest & image & body & client & text & Hp & _ & _ & _ & _ & _ & Hpost).
  assert (name = "hello") as -> by (vm_compute in Hp; by injection Hp).
  destruct (post client "/functions" text "application/json" 0 _). by destruct Hpost as (_ & _ & _ & -> & _).
Defined.

Lemma cmd_invoke_exit_status_witness :
  ∃ code t', cmd_invoke (J:=Tree) None demo_args (demo_terminal [reply_ok]) = (Ok code, t') ∧
             (code = 0 ∨ code = 1).
Proof.
  destruct (cmd_invoke (J:=Tree) None demo_args (demo_terminal [reply_ok])) as [r t'] eqn:Hr.
  assert (r = Ok 1) as -> by (apply (f_equal fst) in Hr; vm_compute in Hr; by rewrite <-Hr).
  exists 1, t'. split; [done|]. by apply (cmd_invoke_exit_status (J:=Tree) None demo_args _ _ _ Hr).
Defined.
