(* ===== verification/EndToEnd.v ===== *)
(** * From the command line to the registry

    The command line client talking to the control plane: a world in which what the
    client sends is what the server reads. One call of [Client::request] is one run
    of [handle_connection], and [cloudfn deploy] puts a row into the registry. *)

From S2P Require Import Prelude CppStd StringFacts ContainerBackend FunctionModel Metrics Http.
From S2P Require Import HttpClient HttpServer HttpRoundtrip RuntimeManager SimWorld Database.
From S2P Require Import MemDatabase FunctionRegistry InvocationStore Json JsonPage ControlPlane.
From S2P Require Import ControlPlaneFacts Cli.
From Stdlib Require Import PrimFloat.

(** ** The loopback *)

Record Loop (S : Type) : Type := {
  served : S;             (* what the server's handlers work on *)
  in_flight : string;     (* sent and not read yet *)
}.
Arguments served {_} _.
Arguments in_flight {_} _.

(** How the network cuts a message into blocks. *)
Definition cuts_ok (cut : string → list string) : Prop :=
  ∀ s, bytes (cut s) = s ∧ Forall (λ b, b ≠ "") (cut s).

Section loopback.
  Context {S : Type} (routes_ : list (Route S)) (cut : string → list string).

(** The server answers while the client waits in [recv]; a handler that an
    exception leaves ends the server and with it the connection. *)
Definition serve (l : Loop S) : (list string * recv_end) * Loop S :=
  let '(r, s) := handle_connection routes_ (cut (in_flight l)) (served l) in
  (match r with
   | Ok (Some reply) => (cut reply, RecvClosed)
   | _ => ([], RecvClosed)
   end, {| served := s; in_flight := "" |}).

Definition loop_sockets : Sockets (Loop S) := {|
  so_addr := unit;
  so_socket := mret 3;
  so_set_timeouts _ _ _ := mret tt;
  so_inet_pton _ := Some tt;
  so_gethostbyname _ := mret None;
  so_connect _ _ _ := mret true;
  so_send _ text := λ l, (true, {| served := served l; in_flight := text |});
  so_recv_all _ := serve;
  so_close _ := mret tt;
|}.
#[local] Existing Instance loop_sockets.

Lemma request_over_loopback c method path body content_type timeout (l : Loop S) :
  request c method path body content_type timeout l
  = (let '((blocks, _), l') := serve {| served := served l;
       in_flight := request_text method path (host_ c) body content_type |} in
     (parse_response (foldl String.append "" blocks), l')).
Proof.
  unfold request, resolve. unfold mbind, st_bind, mret, st_ret. simpl.
  destruct (decide (timeout > 0)); simpl; unfold serve; simpl;
    by destruct (handle_connection routes_ _ _) as [[[reply|]|x|u] s].
Qed.

Lemma bytes_foldl bs : foldl String.append "" bs = bytes bs.
Proof.
  assert (∀ acc, foldl String.append acc bs = acc +:+ bytes bs) as Hacc.
  { induction bs as [|b bs IH]; intros acc; simpl; [by rewrite app_empty_r|].
    by rewrite IH, app_assoc_str. }
  by rewrite Hacc.
Qed.

(** One call of the client is one run of the handler. *)
Lemma exchange (c : Client) (method path body content_type : string) (timeout : Z)
    (l : Loop S) :
  cuts_ok cut →
  token_ok method → token_ok path → value_ok (host_ c) → value_ok content_type →
  Z.of_nat (String.length (request_text method path (host_ c) body content_type)) ≤ 2 ^ 20 →
  let req := {| req_method := method; req_path := path;
                req_headers := request_headers (host_ c) body content_type; req_body := body |} in
  let '(r, s') := dispatch routes_ req (split_path path) false (served l) in
  let '(reply, l') := request c method path body content_type timeout l in
  served l' = s' ∧
  match r with
  | Ok resp =>
      0 ≤ resp_status resp ≤ int_max → map_Forall (λ k v, field_ok (k, v)) (resp_headers resp) →
      reply = {| cr_status := resp_status resp;
                 cr_headers := resp_headers (with_length_headers resp);
                 cr_body := resp_body resp; cr_ok := true; cr_timed_out := false; cr_error := "" |}
  | _ => reply = client_failure "empty response from server"
  end.
Proof.
  intros Hcut Hm Hp Hh Hct Hlen req. rewrite request_over_loopback. unfold serve.
  cbn [served in_flight]. set (text := request_text _ _ _ _ _) in *.
  destruct (Hcut text) as [Hbytes Hne].
  pose proof (request_roundtrip method path (host_ c) body content_type (cut text) Hm Hp Hh Hct
                Hbytes Hne ltac:(by rewrite Hbytes)) as Hparse.
  unfold handle_connection. rewrite Hparse, st_bind_run. fold req. change (req_path req) with path.
  destruct (dispatch routes_ req (split_path path) false (served l)) as [[resp|x|u] s'];
    cbn [fst snd]; st_red; (split; [done|]); try done.
  intros Hst Hok. rewrite bytes_foldl, (proj1 (Hcut _)). by apply response_roundtrip.
Qed.

(** C28: Client and server understand each other: whatever blocks the network cuts
    their messages into, a call of the client runs the handler that the server's
    dispatch finds for the same method, path and body, and returns exactly its
    status, headers and body; if an exception leaves the handler the client sees an
    empty response. *)
Theorem exchange_roundtrip (c : Client) (method path body content_type : string) (timeout : Z)
    (l : Loop S) :
  cuts_ok cut →
  token_ok method → token_ok path → value_ok (host_ c) → value_ok content_type →
  Z.of_nat (String.length (request_text method path (host_ c) body content_type)) ≤ 2 ^ 20 →
  let req := {| req_method := method; req_path := path;
                req_headers := request_headers (host_ c) body content_type; req_body := body |} in
  let '(r, s') := dispatch routes_ req (split_path path) false (served l) in
  let '(reply, l') := request c method path body content_type timeout l in
  served l' = s' ∧
  match r with
  | Ok resp =>
      0 ≤ resp_status resp ≤ int_max → map_Forall (λ k v, field_ok (k, v)) (resp_headers resp) →
      reply = {| cr_status := resp_status resp;
                 cr_headers := resp_headers (with_length_headers resp);
                 cr_body := resp_body resp; cr_ok := true; cr_timed_out := false; cr_error := "" |}
  | _ => reply = client_failure "empty response from server"
  end.
Proof. apply exchange. Qed.
End loopback.

(** ** Deploying *)

(** The value of a flag in the units of its parser, or the documented default. *)
Definition flag_or {A} (args : Args) (flag : string) (read : string → outcome A) (default_value : A) :
    outcome A :=
  match flags args !! flag with None => Ok default_value | Some v => read v end.

(** The spec that the arguments of [cloudfn deploy] ask for; the share of a CPU is what
    [std::stod] makes of the argument, as it [reread]s from the request's text. *)
Record asks (std_stod : string → outcome float) (reread : float → outcome float) (args : Args) (default_idle_ms : Z) (s : FunctionSpec) : Prop := {
  ask_name : head (positional args) = Some (name s);
  ask_image : flags args !! "image" = Some (image s);
  ask_version : version s = 1;
  ask_timeout : flag_or args "timeout" (λ v, parse_duration_ms v 5000) 5000 = Ok (timeout_ms s);
  ask_memory : flag_or args "memory" (λ v, parse_memory_mb v 256) 256 = Ok (memory_mb s);
  ask_cpu : flag_or args "cpu" (λ v, r ← std_stod v; reread r) 0.5%float = Ok (cpu s);
  ask_concurrency : flag_or args "concurrency" stoi 1 = Ok (max_concurrency s);
  ask_idle : flag_or args "idle-timeout" (λ v, parse_duration_ms v 60000) default_idle_ms
             = Ok (idle_timeout_ms s);
}.

Lemma stoi_range v z : stoi v = Ok z → in_int z.
Proof. unfold stoi. destruct (strto v); [|done]. case_decide; [|done]. by intros [= <-]. Qed.
Lemma int_mul_range a b z : int_mul a b = Ok z → in_int z.
Proof. unfold int_mul. case_decide; [|done]. by intros [= <-]. Qed.

Lemma parse_duration_range v d z : in_int d → parse_duration_ms v d = Ok z → in_int z.
Proof.
  intros Hd. unfold parse_duration_ms. repeat case_decide; [by intros [= <-]| | | |];
    try apply stoi_range;
    (destruct (stoi _); [|done..]); simpl; apply int_mul_range.
Qed.
Lemma parse_memory_range v d z : in_int d → parse_memory_mb v d = Ok z → in_int z.
Proof.
  intros Hd. unfold parse_memory_mb. repeat case_decide; [by intros [= <-]| | |];
    try apply stoi_range;
    (destruct (stoi _); [|done..]); simpl; apply int_mul_range.
Qed.

Section deploy.
  Context {J : Type} `{Json J, !JsonObjects J} {D : Type} `{SqliteSpec D}.
  Context {E : Type} `{Clock E, ContainerBackend E, Sockets E}.
  Context (std_stod : string → outcome float) (FAAS_API : option string).
  Context (cut : string → list string).

Notation asks := (asks std_stod (json_reread (J:=J))).
Notation reads_as := (reads_as (json_reread (J:=J))).

(** The fields of the request that the command writes. *)
Definition field_of {A} (wrap : A → field) (args : Args) (flag key : string) (read : string → outcome A) :
    outcome (list (string * field)) :=
  match flags args !! flag with
  | None => mret []
  | Some v => x ← read v; mret [(key, wrap x)]
  end.
Notation int_field := (field_of FInt).
Notation real_field := (field_of FReal).
Definition deploy_fields (args : Args) (name image : string) : outcome (list (string * field)) :=
  timeout ← int_field args "timeout" "timeout_ms" (λ v, parse_duration_ms v 5000);
  memory ← int_field args "memory" "memory_mb" (λ v, parse_memory_mb v 256);
  cpu ← real_field args "cpu" "cpu" std_stod;
  concurrency ← int_field args "concurrency" "max_concurrency" stoi;
  idle ← int_field args "idle-timeout" "idle_timeout_ms" (λ v, parse_duration_ms v 60000);
  mret ([("name", FString name); ("image", FString image)]
        ++ timeout ++ memory ++ cpu ++ concurrency ++ idle).

Lemma flag_field_of {A} (wrap : A → field) (args : Args) (flag key : string) (read : string → outcome A) :
  flag_field (J:=J) args flag key (λ v, (λ x, field_json (wrap x)) <$> read v)
  = (λ fields : list (string * field), (field_pair <$> fields : list (string * J)))
      <$> field_of wrap args flag key read.
Proof.
  unfold flag_field, field_of. destruct (flags args !! flag); [|done]. by destruct (read _).
Qed.

Lemma deploy_body_fields args name image :
  deploy_body (J:=J) std_stod args name image = object_of (J:=J) <$> deploy_fields args name image.
Proof.
  unfold deploy_body, deploy_fields.
  rewrite !(flag_field_of FInt), (flag_field_of FReal).
  destruct (int_field args "timeout" _ _) as [l1| |]; [|done..]. simpl.
  destruct (int_field args "memory" _ _) as [l2| |]; [|done..]. simpl.
  destruct (real_field args "cpu" _ _) as [l5| |]; [|done..]. simpl.
  destruct (int_field args "concurrency" _ _) as [l3| |]; [|done..]. simpl.
  destruct (int_field args "idle-timeout" _ _) as [l4| |]; [|done..]. simpl.
  unfold object_of. by rewrite !fmap_cons, !fmap_app.
Qed.

(** What the server reads of them. *)

Lemma field_of_cases {A} (wrap : A → field) (args : Args) (flag key : string) (read : string → outcome A) l :
  field_of wrap args flag key read = Ok l →
  (flags args !! flag = None ∧ l = []) ∨
  ∃ v x, flags args !! flag = Some v ∧ read v = Ok x ∧ l = [(key, wrap x)].
Proof.
  unfold field_of. destruct (flags args !! flag) as [v|]; [|intros [= <-]; by left].
  destruct (read v) as [x| |] eqn:Hv; [|done..]. intros [= <-]. right. eauto.
Qed.

Lemma int_field_read (args : Args) (flag key : string) (read : string → outcome Z) d l (j : J) :
  (∀ v z, read v = Ok z → in_int z) → in_int d →
  int_field args flag key read = Ok l → reads_as j key (snd <$> head l) →
  ∃ z, flag_or args flag read d = Ok z ∧ in_int z ∧ json_value_int j key d = Ok z.
Proof.
  intros Hread Hd Hl [_ Hj]. unfold flag_or.
  apply field_of_cases in Hl as [[Hf ->]|(v & z & Hf & Hz & ->)]; rewrite Hf; simpl in Hj.
  - exists d. split_and!; [done|done|apply Hj].
  - exists z. split_and!; [done|by eapply Hread|]. apply Hj. by eapply Hread.
Qed.

Lemma long_field_read (args : Args) (flag key : string) (read : string → outcome Z) d l (j : J) :
  (∀ v z, read v = Ok z → in_int z) → in_long d →
  int_field args flag key read = Ok l → reads_as j key (snd <$> head l) →
  ∃ z, flag_or args flag read d = Ok z ∧ in_long z ∧ json_value_long j key d = Ok z.
Proof.
  intros Hread Hd Hl [_ Hj]. unfold flag_or.
  apply field_of_cases in Hl as [[Hf ->]|(v & z & Hf & Hz & ->)]; rewrite Hf; simpl in Hj.
  - exists d. split_and!; [done|done|apply Hj].
  - exists z. split_and!; [done|by eapply in_int_long, Hread|]. by eapply Hj, in_int_long, Hread.
Qed.

Lemma real_field_read (args : Args) (flag key : string) (read : string → outcome float) d l (j : J) :
  real_field args flag key read = Ok l → reads_as j key (snd <$> head l) →
  json_value_double j key d = flag_or args flag (λ v, r ← read v; json_reread (J:=J) r) d.
Proof.
  intros Hl [_ Hj]. unfold flag_or.
  apply field_of_cases in Hl as [[Hf ->]|(v & r & Hf & Hr & ->)]; rewrite Hf; simpl in Hj.
  - apply Hj.
  - by rewrite Hr, Hj.
Qed.

(** The keys of the fields, and who holds what. *)
Lemma deploy_fields_lookup args name image fields :
  deploy_fields args name image = Ok fields →
  ∃ l1 l2 l3 l4 l5,
    int_field args "timeout" "timeout_ms" (λ v, parse_duration_ms v 5000) = Ok l1 ∧
    int_field args "memory" "memory_mb" (λ v, parse_memory_mb v 256) = Ok l2 ∧
    int_field args "concurrency" "max_concurrency" stoi = Ok l3 ∧
    int_field args "idle-timeout" "idle_timeout_ms" (λ v, parse_duration_ms v 60000) = Ok l4 ∧
    real_field args "cpu" "cpu" std_stod = Ok l5 ∧
    NoDup fields.*1 ∧
    let m : gmap string field := list_to_map fields in
    m !! "name" = Some (FString name) ∧ m !! "image" = Some (FString image) ∧
    m !! "version" = None ∧ m !! "cpu" = snd <$> head l5 ∧
    m !! "timeout_ms" = snd <$> head l1 ∧ m !! "memory_mb" = snd <$> head l2 ∧
    m !! "max_concurrency" = snd <$> head l3 ∧ m !! "idle_timeout_ms" = snd <$> head l4.
Proof.
  unfold deploy_fields.
  destruct (int_field args "timeout" _ _) as [l1| |] eqn:H1'; [|done..].
  destruct (int_field args "memory" _ _) as [l2| |] eqn:H2'; [|done..].
  destruct (real_field args "cpu" _ _) as [l5| |] eqn:H5'; [|done..].
  destruct (int_field args "concurrency" _ _) as [l3| |] eqn:H3'; [|done..].
  destruct (int_field args "idle-timeout" _ _) as [l4| |] eqn:H4'; [|done..].
  intros [= <-]. exists l1, l2, l3, l4, l5. do 5 (split; [done|]).
  apply field_of_cases in H1' as [[_ ->]|(v1 & z1 & _ & _ & ->)];
  apply field_of_cases in H2' as [[_ ->]|(v2 & z2 & _ & _ & ->)];
  apply field_of_cases in H3' as [[_ ->]|(v3 & z3 & _ & _ & ->)];
  apply field_of_cases in H4' as [[_ ->]|(v4 & z4 & _ & _ & ->)];
  apply field_of_cases in H5' as [[_ ->]|(v5 & r5 & _ & _ & ->)];
  (split; [by apply (bool_decide_unpack _); vm_compute|by split_and!]).
Qed.

Lemma deploy_request_read (args : Args) name image fields text default_idle_ms :
  in_long default_idle_ms → head (positional args) = Some name →
  flags args !! "image" = Some image →
  deploy_fields args name image = Ok fields → json_dump (object_of (J:=J) fields) = Ok text →
  ∃ j, json_parse (J:=J) text = Ok j ∧ json_contains j "name" = true ∧
       json_contains j "image" = true ∧
       match spec_of_body default_idle_ms j with
       | Ok s => asks args default_idle_ms s ∧ spec_in_range s
       | _ => True
       end.
Proof.
  intros Hdef Hname Himage Hfields Htext.
  destruct (deploy_fields_lookup _ _ _ _ Hfields)
    as (l1 & l2 & l3 & l4 & l5 & Hl1 & Hl2 & Hl3 & Hl4 & Hl5 & Hnd & Hn & Hi & Hv & Hc & Ht & Hm & Hmc & Hit).
  destruct (object_reads fields text Hnd Htext) as (j & Hj & Hreads).
  pose proof (Hreads "name") as [Cn Rn]. pose proof (Hreads "image") as [Ci Ri].
  pose proof (Hreads "version") as [_ Rv]. pose proof (Hreads "cpu") as Rc.
  pose proof (Hreads "timeout_ms") as Rt. pose proof (Hreads "memory_mb") as Rm.
  pose proof (Hreads "max_concurrency") as Rmc. pose proof (Hreads "idle_timeout_ms") as Rit.
  rewrite Hn in Cn, Rn. rewrite Hi in Ci, Ri. rewrite Hv in Rv. rewrite Hc in Rc.
  rewrite Ht in Rt. rewrite Hm in Rm. rewrite Hmc in Rmc. rewrite Hit in Rit.
  destruct (int_field_read _ _ _ _ 5000 _ _ (λ v z, parse_duration_range v 5000 z ltac:(by split))
              ltac:(by split) Hl1 Rt) as (z1 & F1 & Z1 & V1).
  destruct (int_field_read _ _ _ _ 256 _ _ (λ v z, parse_memory_range v 256 z ltac:(by split))
              ltac:(by split) Hl2 Rm) as (z2 & F2 & Z2 & V2).
  destruct (int_field_read _ _ _ _ 1 _ _ stoi_range ltac:(by split) Hl3 Rmc) as (z3 & F3 & Z3 & V3).
  destruct (long_field_read _ _ _ _ default_idle_ms _ _
              (λ v z, parse_duration_range v 60000 z ltac:(by split)) Hdef Hl4 Rit)
    as (z4 & F4 & Z4 & V4).
  pose proof (real_field_read _ _ _ _ 0.5%float _ _ Hl5 Rc) as V5.
  exists j. split; [done|]. split; [by rewrite Cn|]. split; [by rewrite Ci|].
  unfold spec_of_body. rewrite Rn, Ri. simpl. rewrite (proj1 Rv). simpl. rewrite V1. simpl.
  rewrite V2. simpl. rewrite V5. destruct (flag_or args "cpu" _ _) as [share| |] eqn:F5; [|done..]. simpl.
  rewrite V3. simpl. rewrite V4. simpl. split; [by split|by split_and!].
Qed.

(** The whole call: the handler that the request reaches. *)
Definition platform_routes : list (Route (Platform D E)) := api_routes (J:=J).
#[local] Instance platform_loop : Sockets (Loop (Platform D E)) := loop_sockets platform_routes cut.

Lemma dispatch_deploy req p :
  req_method req = "POST" →
  dispatch platform_routes req (split_path "/functions") false p = post_functions (J:=J) req [] p.
Proof. intros Hm. unfold platform_routes. simpl. by rewrite Hm. Qed.

Lemma json_response_ok code (body : J) resp :
  json_response code body = Ok resp → 0 ≤ code ≤ int_max →
  0 ≤ resp_status resp ≤ int_max ∧ map_Forall (λ k v, field_ok (k, v)) (resp_headers resp).
Proof.
  unfold json_response. destruct (json_dump body) as [text| |]; [|done..]. intros [= <-] Hc.
  split; [done|]. by apply map_Forall_singleton.
Qed.

(** [cloudfn deploy name --image image ...] through the client, the network, the
    server, the route and the handler: when it reports success the registry holds
    exactly the spec that its arguments ask for, with the documented defaults,
    under that name, and everything else in the database is as it was. When it
    reports a failure the registry is unchanged, or the function was stored and only
    the answer was lost. *)
Theorem deploy_end_to_end (args : Args) (t t' : Terminal (Loop (Platform D E))) (code : Z)
    (name image : string) (m : gmap string Function) (h : gmap Z InvocationRecord) :
  let p := served (net t) in
  let p' := served (net t') in
  let text := (fields ← deploy_fields args name image; json_dump (object_of (J:=J) fields)) in
  cuts_ok cut → in_long (platform_default_idle_timeout_ms p) → stored (db p) m h →
  head (positional args) = Some name → flags args !! "image" = Some image →
  (∀ c, make_client FAAS_API = Ok c → value_ok (host_ c) ∧
     ∀ s, text = Ok s → Z.of_nat (String.length
            (request_text "POST" "/functions" (host_ c) s "application/json")) ≤ 2 ^ 20) →
  cmd_deploy (J:=J) std_stod FAAS_API args t = (Ok code, t') →
  manager p' = manager p ∧
  ((code = 1 ∧ stored (db p') m h) ∨
   ∃ s now, asks args (platform_default_idle_timeout_ms p) s ∧
     stored (db p') (<[c_str name := FunctionRegistry.new_function s now]> m) h ∧
     (code = 1 ∨ code = 0 ∧ out t' = out t +:+ line ("deployed " +:+ name))).
Proof.
  intros p p' text Hcut Hdef Hst Hname Himage Hsize Hrun.
  apply cmd_deploy_inv in Hrun as [[-> Hnet]|Hrun].
  { unfold p'. rewrite Hnet. split; [done|]. by left. }
  destruct Hrun as (name' & rest & image' & body & c & txt & Hpos & Himg & _ & Hbody & Htext & Hc & Hpost).
  rewrite Hpos in Hname. injection Hname as ->. rewrite Himage in Himg. injection Himg as <-.
  rewrite deploy_body_fields in Hbody.
  destruct (deploy_fields args name image) as [fields| |] eqn:Hf; [|done..]. injection Hbody as <-.
  destruct (Hsize c Hc) as [Hhost Hlen]. specialize (Hlen txt Htext).
  destruct (deploy_request_read args name image fields txt (platform_default_idle_timeout_ms p) Hdef
              ltac:(by rewrite Hpos) Himage Hf Htext)
    as (j & Hparse & Cn & Ci & Hspec).
  pose proof (exchange platform_routes cut c "POST" "/functions" txt "application/json" 0 (net t)
                Hcut ltac:(done) ltac:(done) Hhost ltac:(done) Hlen) as Hex.
  cbv zeta in Hex. rewrite dispatch_deploy in Hex by done. fold p in Hex.
  change (request c "POST" "/functions" txt "application/json" 0 (net t))
    with (post c "/functions" txt "application/json" 0 (net t)) in Hex.
  destruct (post c "/functions" txt "application/json" 0 (net t)) as [reply l'].
  destruct Hpost as [<- Hpost].
  unfold post_functions in Hex. cbn [req_body] in Hex. rewrite Hparse, Cn, Ci in Hex. simpl in Hex.
  unfold io_bind, io_of in Hex. destruct Hst as [Hm Hh].
  destruct (spec_of_body (platform_default_idle_timeout_ms p) j) as [s|x|u]; cbn [fst snd] in Hex;
    [|destruct Hex as [Hs' ->]; unfold p'; rewrite Hs'; split; [done|left];
      by destruct Hpost as [[-> _]|(_ & Hok & _)]..].
  destruct Hspec as [Hasks Hrange]. rewrite on_db_run in Hex.
  pose proof (FunctionRegistry.register_outcome s m (db p) Hm Hrange) as Hr. cbv zeta in Hr.
  pose proof (FunctionRegistry.register_touches s (db p)) as Ht.
  assert (c_str name = c_str (FunctionModel.name s)) as Hcn.
  { pose proof (ask_name _ _ _ _ _ Hasks) as Ha. rewrite Hpos in Ha. by injection Ha as <-. }
  rewrite Hcn. destruct (FunctionRegistry.register_function s (db p)) as [[fn|x|u] d1];
    cbn [fst snd] in *; [| |done];
    assert (InvocationStore.holds d1 h) as Hh1
      by (by eapply InvocationStore.holds_tables; [apply Ht|apply Ht|]).
  - destruct Hr as [-> Hm1]. destruct Hex as [Hs' _]. unfold p'. rewrite Hs'. split; [done|].
    right. exists s, (db_now (db p)). split; [done|]. split; [by split|].
    destruct Hpost as [[-> _]|(-> & _ & _ & Hout & _)]; [by left|by right].
  - destruct Hex as [Hs' ->]. unfold p'. rewrite Hs'. split; [done|].
    destruct Hpost as [[-> _]|(_ & Hok & _)]; [|done].
    destruct Hr as [Hm1|Hm1]; [left|right]; [split; [done|by split]|].
    exists s, (db_now (db p)). split; [done|]. split; [by split|by left].
Qed.
End deploy.

(** ** A deployment *)

Definition demo_cut (s : string) : list string := if decide (s = "") then [] else [s].
Lemma demo_cut_ok : cuts_ok demo_cut.
Proof.
  intros s. unfold demo_cut. case_decide as Hs; [subst; split; [done|constructor]|].
  split; [apply app_empty_r|by constructor].
Qed.

Definition demo_terminal : Terminal (Loop (Platform Mem Sim)) := {|
  out := ""; err := "";
  net := {| served := demo_platform; in_flight := "" |};
|}.
Definition demo_args : Args := parse_args ["greet"; "--image"; "greet:1"; "--timeout"; "2s"; "--cpu"; "0.5"].
Definition demo_stod (v : string) : outcome float := Ok 0.5%float.

Definition demo_deploy : outcome Z * Terminal (Loop (Platform Mem Sim)) :=
  let _ := platform_loop (J:=Page) (D:=Mem) (E:=Sim) demo_cut in
  cmd_deploy (J:=Page) demo_stod None demo_args demo_terminal.

Lemma demo_deploy_code : demo_deploy.1 = Ok 0.
Proof. by vm_compute. Qed.
Lemma demo_deploy_run : demo_deploy = (Ok 0, demo_deploy.2).
Proof. rewrite <-demo_deploy_code. by destruct demo_deploy. Qed.

(** ** The hypotheses can be met *)

Lemma exchange_roundtrip_witness :
  cr_status (request (H:=loop_sockets (api_routes (J:=Page) (D:=Mem) (E:=Sim)) demo_cut)
    {| host_ := "localhost"; port_ := 8080 |} "GET" "/nowhere" "" "" 0
    {| served := demo_platform; in_flight := "" |}).1 = 404.
Proof.
  pose proof (exchange_roundtrip (api_routes (J:=Page) (D:=Mem) (E:=Sim)) demo_cut
                {| host_ := "localhost"; port_ := 8080 |} "GET" "/nowhere" "" "" 0
                {| served := demo_platform; in_flight := "" |} demo_cut_ok
                ltac:(done) ltac:(done) ltac:(done) ltac:(done) ltac:(by vm_compute)) as Hx.
  cbv zeta in Hx.
  destruct (request _ _ _ _ _ _ _) as [reply l]. simpl in Hx. destruct Hx as [_ Hx].
  rewrite Hx; [done|done|by apply map_Forall_singleton].
Defined.

Lemma deploy_end_to_end_witness :
  ∃ s now,
    stored (db (served (net demo_deploy.2)))
      (<["greet" := FunctionRegistry.new_function s now]> demo_registry) ∅ ∧
    image s = "greet:1" ∧ timeout_ms s = 2000.
Proof.
  assert (in_long 60000) as Hdef by (by split).
  destruct (deploy_end_to_end (J:=Page) demo_stod None demo_cut demo_args demo_terminal demo_deploy.2 0
              "greet" "greet:1" demo_registry ∅ demo_cut_ok Hdef demo_stored)
    as [_ [[? _]|(s & now & Hasks & Hst & _)]]; [done|done| |exact demo_deploy_run|done|].
  - intros c Hc.
    assert (c = {| host_ := "127.0.0.1"; port_ := 8080 |}) as -> by (vm_compute in Hc; congruence).
    split; [done|]. intros txt Htxt. vm_compute in Htxt. injection Htxt as <-. by vm_compute.
  - exists s, now. split; [exact Hst|].
    pose proof (ask_image _ _ _ _ _ Hasks) as Hi. pose proof (ask_timeout _ _ _ _ _ Hasks) as Ht.
    change (Some "greet:1" = Some (image s)) in Hi. change (Ok 2000 = Ok (timeout_ms s)) in Ht.
    split; congruence.
Defined.
