(* ===== verification/InvokeEndToEnd.v ===== *)
(** * From the command line to a function and back

    [cloudfn invoke] through the client, the network, the server, the route, the
    handler, the runtime manager and the database, and its answer all the way back to
    the terminal. *)

From S2P Require Import Prelude CppStd StringFacts ContainerBackend FunctionModel Metrics Http.
From S2P Require Import HttpClient HttpServer HttpRoundtrip RuntimeManager RuntimeInvariant SimWorld.
From S2P Require Import RuntimeCalls Database MemDatabase FunctionRegistry InvocationStore Json JsonPage.
From S2P Require Import ControlPlane ControlPlaneFacts PlatformRuns PlatformHandlers Service Cli EndToEnd.
Import InvocationStore.

Section invoke.
  Context {J : Type} `{Json J, !JsonObjects J} {D : Type} `{SqliteSpec D}.
  Context {E : Type} `{Clock E, ContainerBackend E, Sockets E, BackendHistory E}.
  Context (FAAS_API : option string) (cut : string → list string).

Notation routes := (api_routes (J:=J) (D:=D) (E:=E)).
#[local] Instance platform_loop : Sockets (Loop (Platform D E)) := loop_sockets routes cut.

Definition invoke_path (name : string) : string := "/functions/" +:+ name +:+ "/invoke".

(** A function name that is one segment of a path and one word of a request line. *)
Definition name_ok (name : string) : Prop := segment_ok name ∧ token_ok name.

Lemma invoke_path_split name : segment_ok name → split_path (invoke_path name) = ["functions"; name; "invoke"].
Proof.
  intros Hn. rewrite <-(split_path_segments ["functions"; name; "invoke"]) by (by repeat apply Forall_cons_2).
  done.
Qed.

Lemma invoke_path_token name : token_ok name → token_ok (invoke_path name).
Proof.
  intros [_ Hn]. split; [done|]. unfold invoke_path. by rewrite !str_forall_app, Hn.
Qed.

(** The request of the command reaches the handler of invocations. *)
Lemma dispatch_invoke name data headers q :
  segment_ok name →
  dispatch routes {| req_method := "POST"; req_path := invoke_path name; req_headers := headers;
                     req_body := data |} (split_path (invoke_path name)) false q
  = post_invoke (J:=J) {| req_method := ""; req_path := ""; req_headers := ∅; req_body := data |} [name] q.
Proof.
  intros Hn.
  pose proof (dispatch_api (J:=J) {| req_method := "POST"; req_path := invoke_path name;
                                     req_headers := headers; req_body := data |} q) as Hd.
  assert (api_call {| req_method := "POST"; req_path := invoke_path name; req_headers := headers;
                      req_body := data |} = Some (Invoke name data)) as Hc.
  { unfold api_call. cbn [req_path req_method req_body]. rewrite invoke_path_split by done.
    by rewrite decide_True. }
  rewrite Hc in Hd. exact Hd.
Qed.

(** What the client reads of the reply. *)
Lemma invocation_reply_read (i : string) (result : InvocationResult) resp :
  invocation_reply (J:=J) i result = Ok resp →
  (0 ≤ resp_status resp ≤ int_max ∧ map_Forall (λ k v, field_ok (k, v)) (resp_headers resp)) ∧
  if decide (inv_status result = "infra_error") then resp_status resp = 502 else
  resp_status resp = 200 ∧
  ∃ body, json_parse (J:=J) (resp_body resp) = Ok body ∧
    (∀ d, json_value_string body "status" d = Ok (inv_status result)) ∧
    ∀ d, json_value_string body "invocation_id" d = Ok i.
Proof.
  assert (∀ (value : J) (key : string) code (s : string) resp,
    key ≠ "invocation_id" → key ≠ "status" → key ≠ "duration_ms" → key ≠ "cold_start" →
    json_response code (json_object
      ([("invocation_id", json_string i); ("status", json_string s); (key, value)] ++
       [("duration_ms", json_integer (inv_duration_ms result));
        ("cold_start", json_bool (inv_cold_start result))])) = Ok resp →
    ∃ body, json_parse (J:=J) (resp_body resp) = Ok body ∧
      (∀ d, json_value_string body "status" d = Ok s) ∧
      ∀ d, json_value_string body "invocation_id" d = Ok i) as Hread.
  { intros value key code s resp' Hk1 Hk2 Hk3 Hk4. unfold json_response.
    destruct (json_dump _) as [text| |] eqn:Hdump; [|done..]. intros [= <-].
    apply json_object_law in Hdump as (body & Hp & Hv).
    - exists body. split_and!; [done|..]; intros d; eapply rf_string; [exact Hv| |exact Hv|]; simpl; set_solver.
    - simpl. repeat (apply NoDup_cons; split; [set_solver|]). constructor. }
  unfold invocation_reply. case_decide as Hinfra; [|case_decide as Hto].
  - intros Hr. pose proof (json_response_status _ _ _ Hr) as Hst.
    apply json_response_ok in Hr; [|by vm_compute]. done.
  - intros Hr. pose proof (json_response_status _ _ _ Hr) as Hst.
    pose proof (json_response_ok _ _ _ Hr ltac:(by vm_compute)) as Hok.
    split; [done|]. split; [done|]. rewrite Hto. eapply Hread, Hr; done.
  - destruct (parse_or_text (inv_output result)) as [value| |]; [|done..]. intros Hr.
    change (json_response 200 (json_object
      ([("invocation_id", json_string i); ("status", json_string (inv_status result)); ("result", value)] ++
       [("duration_ms", json_integer (inv_duration_ms result));
        ("cold_start", json_bool (inv_cold_start result))])) = Ok resp) in Hr.
    pose proof (json_response_status _ _ _ Hr) as Hst.
    pose proof (json_response_ok _ _ _ Hr ltac:(by vm_compute)) as Hok.
    split; [done|]. split; [done|]. eapply Hread, Hr; done.
Qed.

(** The input the function gets: the handler replaces an empty one. *)
Definition data_of (args : Args) : string := default "{}" (flags args !! "data").
Definition input_of (args : Args) : string :=
  if decide (data_of args = "") then "{}" else data_of args.

(** What the command makes of the handler's answer about an invocation. *)
Lemma invocation_shown (rowid : Z) (result : InvocationResult) reply code (t t' : Terminal (Loop (Platform D E))) :
  match invocation_reply (J:=J) (to_string rowid) result with
  | Ok resp =>
      0 ≤ resp_status resp ≤ int_max → map_Forall (λ k v, field_ok (k, v)) (resp_headers resp) →
      reply = {| cr_status := resp_status resp;
                 cr_headers := resp_headers (with_length_headers resp);
                 cr_body := resp_body resp; cr_ok := true; cr_timed_out := false; cr_error := "" |}
  | _ => reply = client_failure "empty response from server"
  end →
  invoke_printed (J:=J) reply code t t' →
  (code = 0 ↔ inv_status result = "success" ∧
              ∃ resp, invocation_reply (J:=J) (to_string rowid) result = Ok resp) ∧
  (code = 0 → ∃ shown, out t' = out t +:+ line "status: success" +:+ shown +:+
                                line ("invocation_id: " +:+ to_string rowid)).
Proof.
  destruct (invocation_reply (J:=J) (to_string rowid) result) as [resp|x|u] eqn:Hrep; intros Hex Hrun.
  2-3: subst reply; apply invoke_printed_error in Hrun as ->; [|by left];
       split; [|done]; split; [done|]; by intros (_ & ? & ?).
  destruct (invocation_reply_read _ _ _ Hrep) as [[Hb Hf] Hread]. rewrite (Hex Hb Hf) in Hrun.
  case_decide as Hinfra.
  { apply invoke_printed_error in Hrun as ->; [|right; simpl; lia].
    split; [|done]. split; [done|]. rewrite Hinfra. by intros [? _]. }
  destruct Hread as (H200 & body & Hp & Hstatus & Hid).
  apply (invoke_printed_result _ _ _ _ body (inv_status result) (to_string rowid)) in Hrun
    as [-> [shown Hout]]; [|done..].
  case_decide as Hsucc; (split; [|]); [by split; [eauto|]| |by split; [|intros [? _]]|done].
  intros _. exists shown. by rewrite Hsucc in Hout.
Qed.

(** What the command has done when it returns. *)
Lemma invoke_command_outcome (args : Args) (t t' : Terminal (Loop (Platform D E))) (code : Z)
    (name : string) (m : gmap string Function) (h : gmap Z InvocationRecord) :
  let p := served (net t) in
  let p' := served (net t') in
  cuts_ok cut → stored (db p) m h → head (positional args) = Some name → name_ok name →
  (∀ c, make_client FAAS_API = Ok c → value_ok (host_ c) ∧
     Z.of_nat (String.length (request_text "POST" (invoke_path name) (host_ c) (data_of args)
                                "application/json")) ≤ 2 ^ 20) →
  cmd_invoke (J:=J) FAAS_API args t = (Ok code, t') →
  match m !! c_str name with
  | None => code = 1 ∧ manager p' = manager p ∧ stored (db p') m h
  | Some f =>
      (code = 1 ∧ manager p' = manager p ∧ stored (db p') m h ∧ ∃ x, lookup_fails p name x) ∨
      let '(result, mgr') := invoke (spec f) (input_of args) (manager p) in
      manager p' = mgr' ∧
      ((code = 1 ∧ stored (db p') m h ∧ ∃ x, recording_fails p name (input_of args) result x) ∨
       ∃ rowid now,
         in_long rowid ∧ h !! rowid = None ∧
         stored (db p') m
           (<[rowid := new_record rowid name (input_of args) (inv_status result)
                         (inv_output result) (inv_duration_ms result) (inv_cold_start result) now]> h) ∧
         (code = 0 ↔ inv_status result = "success" ∧
                     ∃ resp, invocation_reply (J:=J) (to_string rowid) result = Ok resp) ∧
         (code = 0 → ∃ shown, out t' = out t +:+ line "status: success" +:+ shown +:+
                                       line ("invocation_id: " +:+ to_string rowid)))
  end.
Proof.
  intros p p' Hcut Hst Hname [Hseg Htok] Hsize Hrun.
  apply cmd_invoke_inv in Hrun as [(Hpos & _)|(name' & rest & c & Hpos & Hc & Hrun)];
    rewrite Hpos in Hname; [done|]. injection Hname as ->.
  destruct (Hsize c Hc) as [Hhost Hlen]. fold (invoke_path name) (data_of args) in Hrun.
  pose proof (exchange routes cut c "POST" (invoke_path name) (data_of args) "application/json" 0 (net t)
                Hcut ltac:(done) (invoke_path_token name Htok) Hhost ltac:(done) Hlen) as Hex.
  cbv zeta in Hex. rewrite dispatch_invoke in Hex by done. fold p in Hex.
  change (request c "POST" (invoke_path name) (data_of args) "application/json" 0 (net t))
    with (post c (invoke_path name) (data_of args) "application/json" 0 (net t)) in Hex.
  destruct (post c (invoke_path name) (data_of args) "application/json" 0 (net t)) as [reply l'].
  destruct Hrun as [<- Hrun].
  pose proof (post_invoke_outcome (J:=J) p
    {| req_method := ""; req_path := ""; req_headers := ∅; req_body := data_of args |} [name] m h Hst) as Ho.
  cbv zeta in Ho. change (param [name] 0) with name in Ho. unfold invoke_input in Ho. cbn [req_body] in Ho.
  fold (input_of args) in Ho.
  destruct (post_invoke (J:=J) _ [name] p) as [r q]. destruct Hex as [Hq Hex]. fold p' in Hq. rewrite Hq.
  (* a reply that is no answer of a handler *)
  assert (∀ x, r = Throw x → code = 1) as Hthrow.
  { intros x ->. rewrite Hex in Hrun. apply invoke_printed_error in Hrun; [done|by left]. }
  destruct (m !! c_str name) as [f|].
  2:{ destruct Ho as (Hm & Hs & Hr). split_and!; [|done|done]. destruct Hr as [Hr|[x Hr]]; [|by eapply Hthrow].
      destruct r as [resp|x|u]; [|by eapply Hthrow|].
      2:{ rewrite Hex in Hrun. apply invoke_printed_error in Hrun; [done|by left]. }
      symmetry in Hr. pose proof (json_response_status _ _ _ Hr) as H404.
      apply json_response_ok in Hr as [Hb Hf]; [|by vm_compute]. rewrite (Hex Hb Hf) in Hrun.
      apply invoke_printed_error in Hrun; [done|right; simpl; lia]. }
  destruct Ho as [(Hm & Hs & x & Hx & Hd)|Ho]; [left; split_and!; [by eapply Hthrow|done..|by exists x]|right].
  destruct (invoke (spec f) (input_of args) (manager p)) as [result mgr'].
  destruct Ho as [Hm [(Hs & x & Hx & Hd)|(rowid & now & Hl & Hn & Hs & Hr)]]; (split; [done|]);
    [left; split_and!; [by eapply Hthrow|done|by exists x]|right].
  exists rowid, now. do 3 (split; [done|]). subst r. exact (invocation_shown _ _ _ _ _ _ Hex Hrun).
Qed.

(** C29: [cloudfn invoke name] through the client, the network, the server, the route, the
    handler, the runtime manager and the database, and back: for a name that is not
    registered it ends with 1 and changes nothing; for a registered one the function
    is invoked with its registered spec and the data given, the result is recorded
    under a fresh id, and the command ends with 0 exactly when that result is a success
    whose answer could be printed, having shown the id of that record. It does less for
    two reasons only, and then ends with 1: the statement that looks the function up
    failed, and nothing was done, or the one that inserts the record did. *)
Theorem invoke_end_to_end (args : Args) (t t' : Terminal (Loop (Platform D E))) (code : Z)
    (name : string) (m : gmap string Function) (h : gmap Z InvocationRecord) :
  let p := served (net t) in
  let p' := served (net t') in
  cuts_ok cut → stored (db p) m h → head (positional args) = Some name → name_ok name →
  (∀ c, make_client FAAS_API = Ok c → value_ok (host_ c) ∧
     Z.of_nat (String.length (request_text "POST" (invoke_path name) (host_ c) (data_of args)
                                "application/json")) ≤ 2 ^ 20) →
  cmd_invoke (J:=J) FAAS_API args t = (Ok code, t') →
  match m !! c_str name with
  | None => code = 1 ∧ manager p' = manager p ∧ stored (db p') m h
  | Some f =>
      (code = 1 ∧ manager p' = manager p ∧ stored (db p') m h ∧ ∃ x, lookup_fails p name x) ∨
      let '(result, mgr') := invoke (spec f) (input_of args) (manager p) in
      manager p' = mgr' ∧
      ((code = 1 ∧ stored (db p') m h ∧ ∃ x, recording_fails p name (input_of args) result x) ∨
       ∃ rowid now,
         h !! rowid = None ∧
         stored (db p') m
           (<[rowid := new_record rowid name (input_of args) (inv_status result)
                         (inv_output result) (inv_duration_ms result) (inv_cold_start result) now]> h) ∧
         (code = 0 ↔ inv_status result = "success" ∧
                     ∃ resp, invocation_reply (J:=J) (to_string rowid) result = Ok resp) ∧
         (code = 0 → ∃ shown, out t' = out t +:+ line "status: success" +:+ shown +:+
                                       line ("invocation_id: " +:+ to_string rowid)))
  end.
Proof.
  intros p p' Hcut Hst Hname Hok Hsize Hrun.
  pose proof (invoke_command_outcome args t t' code name m h Hcut Hst Hname Hok Hsize Hrun) as Ho.
  fold p p' in Ho. destruct (m !! c_str name) as [f|]; [|done]. destruct Ho as [Ho|Ho]; [by left|right].
  destruct (invoke _ _ _) as [result mgr']. destruct Ho as [Hm [Ho|(rowid & now & _ & Ho)]]; (split; [done|]);
    [by left|right]. by exists rowid, now.
Qed.
End invoke.

(** ** The hypotheses can be met *)

Definition invoke_args : Args := parse_args ["hello"; "--data"; "7"].
Definition invoke_terminal : Terminal (Loop (Platform Mem Sim)) :=
  {| out := ""; err := ""; net := {| served := demo_platform; in_flight := "" |} |}.
Definition demo_invoke : outcome Z * Terminal (Loop (Platform Mem Sim)) :=
  let _ := platform_loop (J:=Page) (D:=Mem) (E:=Sim) demo_cut in
  cmd_invoke (J:=Page) None invoke_args invoke_terminal.

Lemma demo_invoke_code : demo_invoke.1 = Ok 0.
Proof. by vm_compute. Qed.
Lemma demo_invoke_run : demo_invoke = (Ok 0, demo_invoke.2).
Proof. rewrite <-demo_invoke_code. by destruct demo_invoke. Qed.

Lemma invoke_end_to_end_witness :
  ∃ rowid now shown result,
    inv_status result = "success" ∧
    stored (db (served (net demo_invoke.2))) demo_registry
      {[rowid := new_record rowid "hello" "7" (inv_status result) (inv_output result)
                   (inv_duration_ms result) (inv_cold_start result) now]} ∧
    out demo_invoke.2 = line "status: success" +:+ shown +:+ line ("invocation_id: " +:+ to_string rowid).
Proof.
  pose proof (invoke_end_to_end (J:=Page) None demo_cut invoke_args invoke_terminal demo_invoke.2 0
                "hello" demo_registry ∅ demo_cut_ok demo_stored eq_refl) as Hinv.
  cbv zeta in Hinv. change (demo_registry !! c_str "hello") with (Some (FunctionRegistry.new_function FunctionRegistry.hello_spec 7)) in Hinv.
  cbv iota in Hinv. change (input_of invoke_args) with "7" in Hinv.
  destruct Hinv as [[? _]|Hinv]; [by repeat split| |exact demo_invoke_run|discriminate|].
  { intros c Hc.
    assert (c = {| host_ := "127.0.0.1"; port_ := 8080 |}) as -> by (vm_compute in Hc; congruence).
    split; [done|by vm_compute]. }
  revert Hinv. generalize (invoke (spec (FunctionRegistry.new_function FunctionRegistry.hello_spec 7)) "7" (manager (served (net invoke_terminal)))).
  intros [result mgr'] [_ [[? _]|(rowid & now & _ & Hst & Hcode & Hout)]]; [discriminate|].
  destruct (Hout eq_refl) as [shown Hs]. exists rowid, now, shown, result.
  split; [by apply Hcode|]. split; [exact Hst|exact Hs].
Defined.
