(* ===== verification/ReadEndToEnd.v ===== *)
(** * The reading commands, and commands one after the other

    [cloudfn describe], [invocation], [runtimes] and [delete] through the client, the
    network, the server, the route and the handler, and what the terminal shows; and what
    a command shows of what the one before it did. *)

From S2P Require Import Prelude CppStd StringFacts ContainerBackend FunctionModel Metrics Http.
From S2P Require Import HttpClient HttpServer HttpRoundtrip RuntimeManager RuntimeInvariant SimWorld.
From S2P Require Import RuntimeCalls Database MemDatabase FunctionRegistry InvocationStore Json JsonPage.
From S2P Require Import ControlPlane ControlPlaneFacts PlatformRuns PlatformHandlers Service Cli EndToEnd.
From S2P Require Import InvokeEndToEnd.
From Stdlib Require Import PrimFloat.
Import InvocationStore.

(** ** Commands that send one request *)

Section command.
  Context {S : Type} (routes : list (Route S)) (cut : string → list string).
  Context {J : Type} `{Json J} (FAAS_API : option string).

#[local] Instance command_loop : Sockets (Loop S) := loop_sockets routes cut.
Notation term := (Terminal (Loop S)).

(** One request, then what [k] makes of the reply. *)
Definition asking (method path : string) (k : ClientResponse → Io term Z) : Io term Z :=
  resp ⇐ (client ⇐ io_of (make_client FAAS_API); on_net (request client method path "" "" 0));
  unless_failed (J:=J) resp (k resp).

(** The endpoint can be named in a request, and the request fits the server's limit. *)
Definition endpoint_ok (method path : string) : Prop :=
  ∀ c, make_client FAAS_API = Ok c → value_ok (host_ c) ∧
    Z.of_nat (String.length (request_text method path (host_ c) "" "")) ≤ 2 ^ 20.

Lemma print_api_error_out resp (t t' : term) a :
  print_api_error (J:=J) resp t = (Ok a, t') → out t' = out t ∧ net t' = net t.
Proof.
  unfold print_api_error, cerr, io_catch, io_bind, io_of.
  destruct (negb (cr_ok resp)); [by intros [= _ <-]|].
  destruct (json_parse (cr_body resp)) as [body|x|u'];
    [|by intros [= _ <-]|by intros [=]].
  destruct (json_value_string body "error" (cr_body resp)); [..|by intros [=]]; by intros [= _ <-].
Qed.

Lemma asking_outcome method path k (t t' : term) code r q :
  cuts_ok cut → token_ok method → token_ok path → endpoint_ok method path →
  (∀ headers, dispatch routes {| req_method := method; req_path := path; req_headers := headers; req_body := "" |}
     (split_path path) false (served (net t)) = (r, q)) →
  (∀ resp, r = Ok resp → 0 ≤ resp_status resp ≤ int_max ∧ map_Forall (λ k v, field_ok (k, v)) (resp_headers resp)) →
  asking method path k t = (Ok code, t') →
  (code = 1 ∧ out t' = out t ∧ served (net t') = q ∧ ∀ resp, r = Ok resp → 300 ≤ resp_status resp) ∨
  ∃ resp reply t0, r = Ok resp ∧ resp_status resp < 300 ∧ cr_body reply = resp_body resp ∧
    out t0 = out t ∧ served (net t0) = q ∧ k reply t0 = (Ok code, t').
Proof.
  intros Hcut Hm Hp Hend Hd Hfine Hrun.
  apply io_bind_inv in Hrun as (reply & t0 & Hreq & Hrun).
  apply io_bind_inv in Hreq as (c & t1 & [Hc ->]%io_of_inv & Hreq).
  destruct (Hend c Hc) as [Hhost Hlen].
  pose proof (exchange routes cut c method path "" "" 0 (net t) Hcut Hm Hp Hhost ltac:(done) Hlen) as Hex.
  cbv zeta in Hex. rewrite Hd in Hex. unfold on_net, io_lift, zoom in Hreq.
  destruct (request c method path "" "" 0 (net t)) as [reply' l']. injection Hreq as -> <-.
  destruct Hex as [Hq Hex].
  assert (api_failed reply = false → ∃ resp, r = Ok resp ∧ resp_status resp < 300 ∧ cr_body reply = resp_body resp) as Hgood.
  { intros [Hok Hlt]%api_failed_false. destruct r as [resp|x|u]; [|by rewrite Hex in Hok..].
    destruct (Hfine resp eq_refl) as [Hb Hf]. rewrite (Hex Hb Hf) in Hlt |- *. by exists resp. }
  destruct (api_failed reply) eqn:Hfail.
  - left. unfold unless_failed in Hrun. rewrite Hfail in Hrun.
    apply io_bind_inv in Hrun as (a & t2 & Herr%print_api_error_out & Hr). injection Hr as <- <-.
    destruct Herr as [Ho Hn]. split_and!; [done|done|by rewrite Hn|].
    intros resp ->. destruct (Hfine resp eq_refl) as [Hb Hf]. rewrite (Hex Hb Hf) in Hfail.
    unfold api_failed in Hfail. simpl in Hfail. by apply bool_decide_eq_true in Hfail.
  - right. apply unless_failed_inv in Hrun as [[_ ?]|[_ Hrun]]; [congruence|].
    destruct (Hgood eq_refl) as (resp & Hr & Hlt & Hb). exists resp, reply.
    eexists. split_and!; [..|exact Hrun]; done.
Qed.
End command.

(** ** What the commands print *)

Section printing.
  Context {E : Type} `{Sockets E} {J : Type} `{Json J, !JsonObjects J}.
  Context (ostream_double : float → string).
Notation term := (Terminal E).

Definition printed (text : string) (t : term) : term :=
  {| out := out t +:+ text; err := err t; net := net t |}.
Lemma printed_printed a b t : printed b (printed a t) = printed (a +:+ b) t.
Proof. unfold printed. simpl. by rewrite app_assoc_str. Qed.

Lemma cout_field_then {A} label v (m : Io term A) t :
  (_ ⇐ cout_field label (Ok v); m) t = m (printed (label +:+ line v) t).
Proof.
  unfold cout_field, cout, io_of, io_bind, printed. simpl. by rewrite app_assoc_str.
Qed.
Lemma cout_field_then_inv {A} label v (m : Io term A) t a t' :
  (_ ⇐ cout_field label v; m) t = (Ok a, t') →
  ∃ text, v = Ok text ∧ m (printed (label +:+ line text) t) = (Ok a, t').
Proof.
  destruct v as [text|x|u]; [rewrite cout_field_then; by exists text|..];
    by unfold cout_field, io_bind, cout, io_of.
Qed.

(** The lines of [cloudfn describe]; the CPU share is what its JSON number reads as. *)
Definition description (fn : Function) (share : float) : string :=
  ("Name:        " +:+ line (name (spec fn))) +:+
  ("Version:     " +:+ line (to_string (version (spec fn)))) +:+
  ("Image:       " +:+ line (image (spec fn))) +:+
  ("Timeout:     " +:+ line (to_string (timeout_ms (spec fn)) +:+ "ms")) +:+
  ("Memory:      " +:+ line (to_string (memory_mb (spec fn)) +:+ "Mi")) +:+
  ("CPU:         " +:+ line (ostream_double share)) +:+
  ("Concurrency: " +:+ line (to_string (max_concurrency (spec fn)))) +:+
  ("Idle timeout: " +:+ line (to_string (to_int (idle_timeout_ms (spec fn))) +:+ "ms")) +:+
  ("Status:      " +:+ line (function_status_to_string (FunctionModel.status fn))).

(** The fields [function_to_json] prints. *)
Definition function_fields (fn : Function) : list (string * J) :=
  [("name", json_string (name (spec fn)));
   ("version", json_integer (version (spec fn)));
   ("image", json_string (image (spec fn)));
   ("timeout_ms", json_integer (timeout_ms (spec fn)));
   ("memory_mb", json_integer (memory_mb (spec fn)));
   ("cpu", json_double (cpu (spec fn)));
   ("max_concurrency", json_integer (max_concurrency (spec fn)));
   ("idle_timeout_ms", json_integer (idle_timeout_ms (spec fn)));
   ("status", json_string (function_status_to_string (FunctionModel.status fn)))].

(** A field of an object that reads back. *)
Ltac in_fields :=
  match goal with |- _ ∈ ?l => let l' := eval hnf in l in change l with l' end; rewrite !elem_of_cons; tauto.

Lemma print_function_shows fn (j : J) t code t' :
  spec_in_range (spec fn) → reads_fields json_reread j (function_fields fn) →
  print_function (J:=J) ostream_double j t = (Ok code, t') →
  code = 0 ∧ ∃ share, json_reread (cpu (spec fn)) = Ok share ∧ t' = printed (description fn share) t.
Proof.
  intros (Hv & Ht & Hm & Hc & Hi) Hr. unfold print_function.
  erewrite (rf_string _ _ _ Hr "name") by in_fields.
  erewrite (rf_int _ _ _ Hr "version") by (in_fields || by apply in_int_long).
  erewrite (rf_string _ _ _ Hr "image") by in_fields.
  erewrite (rf_int _ _ _ Hr "timeout_ms") by (in_fields || by apply in_int_long).
  erewrite (rf_int _ _ _ Hr "memory_mb") by (in_fields || by apply in_int_long).
  erewrite (rf_double _ _ _ Hr "cpu") by in_fields.
  erewrite (rf_int _ _ _ Hr "max_concurrency") by (in_fields || by apply in_int_long).
  erewrite (rf_int _ _ _ Hr "idle_timeout_ms") by (in_fields || done).
  erewrite (rf_string _ _ _ Hr "status") by in_fields.
  rewrite !to_int_id by done. cbn [fmap outcome_fmap]. rewrite !cout_field_then.
  intros (share & Hshare & Hrun)%cout_field_then_inv. rewrite !cout_field_then in Hrun. injection Hrun as <- <-.
  split; [done|]. destruct (json_reread (cpu (spec fn))) as [r| |]; [|done..]. injection Hshare as <-.
  exists r. split; [done|]. rewrite !printed_printed. unfold description. by rewrite !app_assoc_str.
Qed.

(** The lines of [cloudfn invocation]; [result] is the text of the output's JSON value. *)
Definition record_lines (r : InvocationRecord) (result : string) : string :=
  ("id:         " +:+ line (ir_id r)) +:+
  ("function:   " +:+ line (ir_function_name r)) +:+
  ("status:     " +:+ line (ir_status r)) +:+
  ("result:     " +:+ line result) +:+
  ("duration:   " +:+ line (to_string (to_int (ir_duration_ms r)) +:+ " ms")) +:+
  ("cold_start: " +:+ line (bool_text (ir_cold_start r))).

Definition record_fields (r : InvocationRecord) (output : J) : list (string * J) :=
  [("id", json_string (ir_id r)); ("function", json_string (ir_function_name r));
   ("status", json_string (ir_status r)); ("result", output);
   ("duration_ms", json_integer (ir_duration_ms r)); ("cold_start", json_bool (ir_cold_start r))].

Lemma print_record_shows r output (j : J) t code t' :
  in_long (ir_duration_ms r) → reads_fields json_reread j (record_fields r output) →
  print_record (J:=J) j t = (Ok code, t') →
  code = 0 ∧ ∃ text, json_dump output = Ok text ∧ t' = printed (record_lines r text) t.
Proof.
  intros Hd Hr. unfold print_record.
  erewrite (rf_string _ _ _ Hr "id") by in_fields.
  erewrite (rf_string _ _ _ Hr "function") by in_fields.
  erewrite (rf_string _ _ _ Hr "status") by in_fields.
  rewrite (rf_contains _ _ _ Hr "result"), bool_decide_true by (simpl; set_solver).
  erewrite (rf_dump _ _ _ Hr "result" output) by in_fields.
  erewrite (rf_int _ _ _ Hr "duration_ms") by (in_fields || done).
  erewrite (rf_bool _ _ _ Hr "cold_start") by in_fields.
  cbn [fmap outcome_fmap]. rewrite !cout_field_then.
  intros (text & Htext & Hrun)%cout_field_then_inv. rewrite !cout_field_then in Hrun. injection Hrun as <- <-.
  split; [done|]. exists text. split; [done|]. rewrite !printed_printed. unfold record_lines.
  by rewrite !app_assoc_str.
Qed.

(** A line of [cloudfn runtimes]. *)
Definition entry_line (e : RuntimeListEntry) : string :=
  re_function_name e +:+ TAB +:+ runtime_state_to_string (re_state e) +:+ TAB +:+
  "port=" +:+ to_string (re_host_port e) +:+ TAB +:+ "idle_ms=" +:+ line (to_string (re_idle_ms e)).
Definition entry_lines (es : list RuntimeListEntry) : string := foldr String.append "" (entry_line <$> es).

Definition entry_fields (e : RuntimeListEntry) : list (string * J) :=
  [("function", json_string (re_function_name e));
   ("state", json_string (runtime_state_to_string (re_state e)));
   ("container_id", json_string (re_container_id e));
   ("host_port", json_integer (re_host_port e)); ("idle_ms", json_integer (re_idle_ms e))].
(** The values fit their types, [int] and [long]. *)
Definition entry_ok (e : RuntimeListEntry) : Prop := in_int (re_host_port e) ∧ in_long (re_idle_ms e).

Lemma print_entries_shows es : ∀ (js : list J) t,
  Forall entry_ok es → Forall2 (reads_fields json_reread) js (entry_fields <$> es) →
  print_entries (J:=J) js t = (Ok 0, printed (entry_lines es) t).
Proof.
  induction es as [|e es IH]; intros js t Hok Hjs.
  - apply Forall2_nil_inv_r in Hjs as ->. unfold printed. simpl. rewrite app_empty_r. by destruct t.
  - apply Forall_cons in Hok as [[Hp Hi] Hok]. rewrite fmap_cons in Hjs.
    apply Forall2_cons_inv_r in Hjs as (j & js' & Hj & Hjs & ->). cbn [print_entries].
    erewrite (rf_string _ _ _ Hj "function") by in_fields.
    erewrite (rf_string _ _ _ Hj "state") by in_fields.
    erewrite (rf_int _ _ _ Hj "host_port") by (in_fields || by apply in_int_long).
    erewrite (rf_long _ _ _ Hj "idle_ms") by (in_fields || done).
    rewrite to_int_id by done. unfold io_bind, io_of, cout. cbn [out err net].
    rewrite (IH js' _ Hok Hjs). f_equal. unfold printed. cbn [out err net]. f_equal.
    change (entry_lines (e :: es)) with (entry_line e +:+ entry_lines es). unfold entry_line.
    by rewrite !app_assoc_str.
Qed.
End printing.

(** ** From the terminal to the platform and back *)

Section commands.
  Context {J : Type} `{Json J, !JsonObjects J} {D : Type} `{SqliteSpec D}.
  Context {E : Type} `{Clock E, ContainerBackend E, Sockets E, BackendHistory E}.
  Context (ostream_double : float → string) (FAAS_API : option string) (cut : string → list string).

Notation routes := (api_routes (J:=J) (D:=D) (E:=E)).
#[local] Instance reading_loop : Sockets (Loop (Platform D E)) := loop_sockets routes cut.
Notation term := (Terminal (Loop (Platform D E))).
Notation asking := (asking (J:=J) routes cut FAAS_API).
Notation endpoint_ok := (endpoint_ok FAAS_API).

Definition function_path (name : string) : string := "/functions/" +:+ name.
Definition invocation_path (id : string) : string := "/invocations/" +:+ id.

Lemma path_token prefix name : token_ok prefix → token_ok name → token_ok (prefix +:+ name).
Proof. intros [? Hp] [_ Hn]. split; [by destruct prefix|]. by rewrite str_forall_app, Hp. Qed.

Lemma json_response_fine code (body : J) :
  0 ≤ code ≤ int_max → ∀ resp, json_response code body = Ok resp →
  0 ≤ resp_status resp ≤ int_max ∧ map_Forall (λ k v, field_ok (k, v)) (resp_headers resp).
Proof. intros Hc resp Hr. by eapply json_response_ok. Qed.

(** A command that asks a route whose reply [j] it prints. *)
Lemma json_response_body code (body : J) resp :
  json_response code body = Ok resp → resp_status resp = code ∧ json_dump body = Ok (resp_body resp).
Proof. unfold json_response. destruct (json_dump body); [|done..]. by intros [= <-]. Qed.

Lemma function_keys fn : NoDup (function_fields (J:=J) fn).*1.
Proof. by apply (bool_decide_unpack _); vm_compute. Qed.
Lemma record_keys r (output : J) : NoDup (record_fields r output).*1.
Proof. by apply (bool_decide_unpack _); vm_compute. Qed.
Lemma entry_keys e : NoDup (entry_fields (J:=J) e).*1.
Proof. by apply (bool_decide_unpack _); vm_compute. Qed.

(** A handler that threw sends no reply. *)
Lemma no_reply_or (r r' : outcome Response) :
  (∃ x, r = Throw x) ∨ r = r' → (∀ resp, r ≠ Ok resp) ∨ r = r'.
Proof. intros [[x ->]|Hr]; [by left|by right]. Qed.

Definition no_request : Request := {| req_method := ""; req_path := ""; req_headers := ∅; req_body := "" |}.

(** The reply is an error, or none: nothing is shown and the command ends with 1. *)
Lemma asking_refused method path k (t t' : term) code r q err_code (body : J) :
  cuts_ok cut → token_ok method → token_ok path → endpoint_ok method path →
  (∀ headers, dispatch routes {| req_method := method; req_path := path; req_headers := headers; req_body := "" |}
     (split_path path) false (served (net t)) = (r, q)) →
  (∀ resp, r ≠ Ok resp) ∨ r = json_response err_code body → 300 ≤ err_code ≤ int_max →
  asking method path k t = (Ok code, t') → code = 1 ∧ out t' = out t ∧ served (net t') = q.
Proof.
  intros Hcut Hm Hp Hend Hd Hr Hcode Hrun.
  apply (asking_outcome routes cut FAAS_API) with (r := r) (q := q) in Hrun
    as [(-> & Hout & Hq & _)|(resp & reply & t0 & Hok & Hlt & _)]; [done| |done..|].
  - destruct Hr as [Hr|Hr]; [by apply Hr in Hok|]. rewrite Hr in Hok. apply json_response_status in Hok. lia.
  - intros resp Hok. destruct Hr as [Hr|Hr]; [by apply Hr in Hok|]. rewrite Hr in Hok.
    eapply json_response_fine, Hok. lia.
Qed.

(** The reply is a JSON value, or there is none. *)
Lemma asking_answered method path print (t t' : term) code r q (body : J) :
  cuts_ok cut → token_ok method → token_ok path → endpoint_ok method path →
  (∀ headers, dispatch routes {| req_method := method; req_path := path; req_headers := headers; req_body := "" |}
     (split_path path) false (served (net t)) = (r, q)) →
  (∀ resp, r ≠ Ok resp) ∨ r = json_response 200 body →
  asking method path (λ resp, j ⇐ io_of (json_parse (cr_body resp)); print j) t = (Ok code, t') →
  (code = 1 ∧ out t' = out t ∧ served (net t') = q ∧ ∀ resp, r ≠ Ok resp) ∨
  ∃ text j t0, json_dump body = Ok text ∧ json_parse text = Ok j ∧
    out t0 = out t ∧ served (net t0) = q ∧ print j t0 = (Ok code, t').
Proof.
  intros Hcut Hm Hp Hend Hd Hr Hrun.
  apply (asking_outcome routes cut FAAS_API) with (r := r) (q := q) in Hrun
    as [(-> & Hout & Hq & H300)|(resp & reply & t0 & Hok & Hlt & Hbody & Hout & Hq & Hrun)]; [..|done|done|done|done|done|].
  - left. split_and!; [done..|]. intros resp ->. specialize (H300 resp eq_refl).
    destruct Hr as [Hr|Hr]; [by eapply Hr|]. symmetry in Hr. apply json_response_status in Hr. lia.
  - right. destruct Hr as [Hr|Hr]; [by apply Hr in Hok|]. rewrite Hr in Hok.
    apply json_response_body in Hok as [_ Hdump].
    apply io_bind_inv in Hrun as (j & t1 & [Hj ->]%io_of_inv & Hrun). rewrite Hbody in Hj.
    by exists (resp_body resp), j, t0.
  - intros resp Hok. destruct Hr as [Hr|Hr]; [by apply Hr in Hok|]. rewrite Hr in Hok.
    eapply json_response_fine, Hok. done.
Qed.

(** [cloudfn describe name] changes nothing; it ends with 1 and shows nothing if the name
    is not registered or the control plane could not answer, and otherwise shows the
    registered function, its idle timeout as far as an [int] holds it. *)
Theorem describe_end_to_end (args : Args) (t t' : term) (code : Z) (name : string)
    (m : gmap string Function) (h : gmap Z InvocationRecord) :
  let p := served (net t) in
  let p' := served (net t') in
  cuts_ok cut → stored (db p) m h → head (positional args) = Some name → name_ok name →
  endpoint_ok "GET" (function_path name) →
  cmd_describe (J:=J) ostream_double FAAS_API args t = (Ok code, t') →
  manager p' = manager p ∧ stored (db p') m h ∧
  match m !! c_str name with
  | None => code = 1 ∧ out t' = out t
  | Some f =>
      (code = 1 ∧ out t' = out t ∧ ∀ resp, (get_function (J:=J) no_request [name] p).1 ≠ Ok resp) ∨
      (code = 0 ∧ ∃ share, json_reread (cpu (spec f)) = Ok share ∧
                           out t' = out t +:+ description ostream_double f share)
  end.
Proof.
  intros p p' Hcut Hst Hname [Hseg Htok] Hend Hrun. unfold p'. clear p'.
  destruct (positional args) as [|name' rest] eqn:Hpos; [done|]. injection Hname as ->.
  unfold cmd_describe in Hrun. rewrite Hpos in Hrun.
  pose proof (get_function_outcome (J:=J) p no_request [name] m h Hst) as Ho. cbv zeta in Ho.
  destruct (get_function (J:=J) no_request [name] p) as [r q] eqn:Hget. destruct Ho as (Hsq & Hmq & Hr).
  change (param [name] 0) with name in Hr. apply no_reply_or in Hr.
  assert (token_ok (function_path name)) as Hpath by (by apply path_token).
  assert (∀ headers, dispatch routes {| req_method := "GET"; req_path := function_path name;
            req_headers := headers; req_body := "" |} (split_path (function_path name)) false p = (r, q)) as Hd.
  { intros headers. destruct (api_routes_dispatch (J:=J) (D:=D) (E:=E) name "" headers Hseg) as (_ & _ & Hd & _).
    rewrite <-Hget. exact (f_equal (λ g, g p) Hd). }
  destruct (m !! c_str name) as [f|] eqn:Hf.
  - destruct (asking_answered "GET" (function_path name) _ _ _ _ r q (function_to_json f) Hcut ltac:(done) Hpath Hend Hd Hr Hrun)
      as [(Hcode & Hout & Hq & Hno)|(text & j & t0 & Hdump & Hj & Hout & Hq & Hrun')].
    + rewrite Hq. split; [done|]. split; [done|]. by left.
    + apply (json_object_law (function_fields f)) in Hdump as (j' & Hj' & Hreads); [|apply function_keys].
      rewrite Hj in Hj'. injection Hj' as <-.
      apply (print_function_shows ostream_double f) in Hrun' as (-> & share & Hshare & ->); [|by eapply Hsq|done].
      simpl. rewrite Hq, Hout. split; [done|]. split; [done|]. right. split; [done|]. by exists share.
  - destruct (asking_refused "GET" (function_path name) _ _ _ _ r q 404 _ Hcut ltac:(done) Hpath Hend Hd Hr ltac:(done) Hrun)
      as (-> & Hout & Hq). by rewrite Hq.
Qed.

(** [cloudfn invocation id] changes nothing; it ends with 1 and shows nothing if there is
    no record of that id or the control plane could not answer, and otherwise shows the
    record. *)
Theorem invocation_end_to_end (args : Args) (t t' : term) (code : Z) (id : string)
    (m : gmap string Function) (h : gmap Z InvocationRecord) :
  let p := served (net t) in
  let p' := served (net t') in
  cuts_ok cut → stored (db p) m h → map_Forall (λ _ r, in_long (ir_duration_ms r)) h →
  head (positional args) = Some id → name_ok id → endpoint_ok "GET" (invocation_path id) →
  cmd_invocation (J:=J) FAAS_API args t = (Ok code, t') →
  manager p' = manager p ∧ stored (db p') m h ∧
  match named_record h id with
  | None => code = 1 ∧ out t' = out t
  | Some r =>
      (code = 1 ∧ out t' = out t ∧ ∀ resp, (get_invocation (J:=J) no_request [id] p).1 ≠ Ok resp) ∨
      (code = 0 ∧ ∃ output text, parse_or_text (J:=J) (ir_output r) = Ok output ∧ json_dump output = Ok text ∧
                                 out t' = out t +:+ record_lines r text)
  end.
Proof.
  intros p p' Hcut Hst Hlong Hname [Hseg Htok] Hend Hrun. unfold p'. clear p'.
  destruct (positional args) as [|id' rest] eqn:Hpos; [done|]. injection Hname as ->.
  unfold cmd_invocation in Hrun. rewrite Hpos in Hrun.
  pose proof (get_invocation_outcome (J:=J) p no_request [id] m h Hst) as Ho. cbv zeta in Ho.
  destruct (get_invocation (J:=J) no_request [id] p) as [r q] eqn:Hget. destruct Ho as (Hsq & Hmq & Hr).
  change (param [id] 0) with id in Hr. apply no_reply_or in Hr.
  assert (token_ok (invocation_path id)) as Hpath by (by apply path_token).
  assert (∀ headers, dispatch routes {| req_method := "GET"; req_path := invocation_path id;
            req_headers := headers; req_body := "" |} (split_path (invocation_path id)) false p = (r, q)) as Hd.
  { intros headers. destruct (api_routes_dispatch (J:=J) (D:=D) (E:=E) id "" headers Hseg)
      as (_ & _ & _ & _ & _ & _ & _ & _ & Hd). rewrite <-Hget. exact (f_equal (λ g, g p) Hd). }
  destruct (named_record h id) as [rec|] eqn:Hrec; unfold record_reply in Hr; cbv iota beta in Hr.
  2:{ destruct (asking_refused "GET" (invocation_path id) _ _ _ _ r q 404 _ Hcut ltac:(done) Hpath Hend Hd Hr ltac:(done) Hrun)
        as (-> & Hout & Hq). by rewrite Hq. }
  assert (in_long (ir_duration_ms rec)) as Hl.
  { unfold named_record in Hrec. destruct (stol id); [|done..]. by eapply Hlong. }
  destruct (parse_or_text (J:=J) (ir_output rec)) as [output|x|u] eqn:Hpt; simpl in Hr.
  2-3: assert (∀ resp, r ≠ Ok resp) as Hno by (destruct Hr as [|Hr]; [done|by rewrite Hr]);
    destruct (asking_refused "GET" (invocation_path id) _ _ _ _ r q 404 (json_object []) Hcut ltac:(done) Hpath Hend Hd (or_introl Hno) ltac:(done) Hrun)
      as (-> & Hout & Hq); rewrite Hq; (split; [done|]); (split; [done|]); by left.
  - destruct (asking_answered "GET" (invocation_path id) _ _ _ _ r q (json_object (record_fields rec output))
                Hcut ltac:(done) Hpath Hend Hd Hr Hrun)
      as [(Hcode & Hout & Hq & Hno)|(text & j & t0 & Hdump & Hj & Hout & Hq & Hrun')].
    + rewrite Hq. split; [done|]. split; [done|]. by left.
    + apply json_object_law in Hdump as (j' & Hj' & Hreads); [|apply record_keys].
      rewrite Hj in Hj'. injection Hj' as <-.
      apply (print_record_shows rec output) in Hrun' as (-> & shown & Hshown & ->); [|done..].
      simpl. rewrite Hq, Hout. split; [done|]. split; [done|]. right. split; [done|]. by exists output, shown.
Qed.

(** [cloudfn runtimes] shows the runtimes the manager tracks, one line each, and changes
    nothing. *)
Theorem runtimes_end_to_end (args : Args) (t t' : term) (code : Z) :
  let p := served (net t) in
  let p' := served (net t') in
  let '(entries, mgr) := list_runtimes (manager p) in
  cuts_ok cut → Forall entry_ok entries → endpoint_ok "GET" "/runtimes" →
  cmd_runtimes (J:=J) FAAS_API args t = (Ok code, t') →
  p' = set_manager mgr p ∧
  ((code = 1 ∧ out t' = out t ∧ ∀ resp, runtimes_reply (J:=J) entries ≠ Ok resp) ∨
   (code = 0 ∧ out t' = out t +:+ if decide (entries = []) then line "no active runtimes" else entry_lines entries)).
Proof.
  intros p p'. unfold p'. clear p'. destruct (list_runtimes (manager p)) as [entries mgr] eqn:Hlist.
  intros Hcut Hok Hend Hrun.
  pose proof (asking_answered "GET" "/runtimes"
    (λ entries, if json_empty entries then _ ⇐ cout (line "no active runtimes"); io_ret 0
                else print_entries (json_elements entries)) t t' code (runtimes_reply entries) (set_manager mgr p)
    (json_array (json_object <$> (entry_fields <$> entries))) Hcut ltac:(done) ltac:(done) Hend) as Ha.
  destruct Ha as [(-> & Hout & Hq & Hno)|(text & j & t0 & Hdump & Hj & Hout & Hq & Hrun')]; [| |exact Hrun|..].
  - intros headers. transitivity (get_runtimes (J:=J) no_request [] p); [done|].
    unfold get_runtimes, io_bind. by rewrite on_manager_run, Hlist.
  - right. unfold runtimes_reply. by rewrite <-list_fmap_compose.
  - split; [done|]. by left.
  - apply json_array_law in Hdump as (j' & Hj' & Hempty & Hreads).
    2:{ apply Forall_fmap, Forall_true. intros e. apply entry_keys. }
    rewrite Hj in Hj'. injection Hj' as <-. rewrite Hempty in Hrun'. destruct entries as [|e es].
    + injection Hrun' as <- <-. split; [done|]. right. by rewrite <-Hout.
    + rewrite bool_decide_false in Hrun' by done.
      rewrite (print_entries_shows (e :: es)) in Hrun' by done. injection Hrun' as <- <-.
      split; [done|]. right. simpl. by rewrite <-Hout.
Qed.

(** C32: [cloudfn delete name] ends with 0 exactly when the control plane could remove a function
    of that name: then neither the registry nor the runtime manager knows it, its container
    is not running, and nothing else has changed; otherwise nothing has. *)
Theorem delete_end_to_end `{!BackendSpec E, !QuietWorld E} {past : Before} (args : Args) (t t' : term) (code : Z)
    (name : string) (m : gmap string Function) (h : gmap Z InvocationRecord) :
  let p := served (net t) in
  let p' := served (net t') in
  cuts_ok cut → stored (db p) m h → lock_inv (manager p) →
  head (positional args) = Some name → name_ok name → endpoint_ok "DELETE" (function_path name) →
  cmd_delete (J:=J) FAAS_API args t = (Ok code, t') →
  lock_inv (manager p') ∧
  ((code = 0 ∧ is_Some (m !! c_str name) ∧ stored (db p') (delete (c_str name) m) h ∧
    runtimes_ (manager p') = delete name (runtimes_ (manager p)) ∧
    (∀ rt, runtimes_ (manager p) !! name = Some rt →
           rt_container_id rt ∉ live (history (world (manager p')))) ∧
    out t' = out t +:+ line ("deleted " +:+ name)) ∨
   (code = 1 ∧ stored (db p') m h ∧ manager p' = manager p ∧ out t' = out t ∧
    (m !! c_str name = None ∨ ∃ x, (delete_function (J:=J) no_request [name] p).1 = Throw x))).
Proof.
  intros p p' Hcut Hst Hinv Hname [Hseg Htok] Hend Hrun. unfold p'. clear p'.
  destruct (positional args) as [|name' rest] eqn:Hpos; [done|]. injection Hname as ->.
  unfold cmd_delete in Hrun. rewrite Hpos in Hrun.
  pose proof (delete_function_outcome (J:=J) p no_request [name] m h Hst) as Ho. cbv zeta in Ho.
  destruct (delete_function (J:=J) no_request [name] p) as [r q] eqn:Hdel.
  change (param [name] 0) with name in Ho.
  assert (token_ok (function_path name)) as Hpath by (by apply path_token).
  assert (∀ headers, dispatch routes {| req_method := "DELETE"; req_path := function_path name;
            req_headers := headers; req_body := "" |} (split_path (function_path name)) false p = (r, q)) as Hd.
  { intros headers. destruct (api_routes_dispatch (J:=J) (D:=D) (E:=E) name "" headers Hseg)
      as (_ & _ & _ & Hd & _). rewrite <-Hdel. exact (f_equal (λ g, g p) Hd). }
  destruct Ho as [(-> & Hsome & Hs & Hm)|(Hs & Hm & Hr)].
  - destruct (terminate_outcome name (manager p) Hinv) as (Hl & Hrt & Hc). rewrite <-Hm in Hl, Hrt, Hc.
    destruct (asking_outcome routes cut FAAS_API "DELETE" (function_path name)
                (λ _, _ ⇐ cout (line ("deleted " +:+ name)); io_ret 0) t t' code
                (Ok (response_empty 204)) q Hcut ltac:(done) Hpath Hend Hd) as
      [(_ & _ & _ & Hge)|(resp & reply & t0 & _ & _ & _ & Hout & Hq & Hrun')]; [|exact Hrun|..].
    + intros resp [= <-]. split; [done|]. apply map_Forall_empty.
    + specialize (Hge _ eq_refl). simpl in Hge. lia.
    + injection Hrun' as <- <-. simpl. rewrite Hq, <-Hout. split; [done|]. by left.
  - assert ((∀ resp, r ≠ Ok resp) ∨ r = json_response 404 (json_object [("error", json_string ("function not found: " +:+ name))])) as Hno.
    { destruct Hr as [[x ->]|[_ ->]]; [by left|by right]. }
    destruct (asking_refused "DELETE" (function_path name) _ _ _ _ r q 404 _ Hcut ltac:(done) Hpath Hend Hd Hno
                ltac:(done) Hrun) as (-> & Hout & Hq).
    rewrite Hq, Hm. split; [done|]. right. split_and!; [done..|]. destruct Hr as [Hr|[Hn _]]; [right|by left].
    done.
Qed.
(** ** One command after the other *)

Lemma id_name_ok z : 0 ≤ z → name_ok (to_string z).
Proof.
  intros Hz. split; [split_and!; [apply to_string_ne|by apply to_string_lacks..]|].
  split; [apply to_string_ne|]. eapply str_forall_impl; [|by apply to_string_nonneg_digits].
  by intros [[] [] [] [] [] [] [] []].
Qed.

(** C30: what [cloudfn deploy name ...] has deployed is what [cloudfn describe name] shows:
    the spec its arguments ask for - image, timeout, memory, share of a CPU, concurrency
    and idle timeout, each by its flag or the documented default - is the one stored, and
    unless the control plane cannot answer the second command shows exactly that spec. *)
Theorem deploy_then_describe (std_stod : string → outcome float) (args args2 : Args) (t t1 t2 : term) (code : Z)
    (name image : string) (m : gmap string Function) (h : gmap Z InvocationRecord) :
  let p := served (net t) in
  let text := (fields ← deploy_fields std_stod args name image; json_dump (object_of (J:=J) fields)) in
  cuts_ok cut → in_long (platform_default_idle_timeout_ms p) → stored (db p) m h →
  head (positional args) = Some name → flags args !! "image" = Some image →
  (∀ c, make_client FAAS_API = Ok c → value_ok (host_ c) ∧
     ∀ s, text = Ok s → Z.of_nat (String.length
            (request_text "POST" "/functions" (host_ c) s "application/json")) ≤ 2 ^ 20) →
  head (positional args2) = Some name → name_ok name → endpoint_ok "GET" (function_path name) →
  cmd_deploy (J:=J) std_stod FAAS_API args t = (Ok 0, t1) →
  cmd_describe (J:=J) ostream_double FAAS_API args2 t1 = (Ok code, t2) →
  ∃ s now,
    asks std_stod (json_reread (J:=J)) args (platform_default_idle_timeout_ms p) s ∧
    stored (db (served (net t2))) (<[c_str name := FunctionRegistry.new_function s now]> m) h ∧
    manager (served (net t2)) = manager p ∧
    ((code = 1 ∧ out t2 = out t1 ∧
      ∀ resp, (get_function (J:=J) no_request [name] (served (net t1))).1 ≠ Ok resp) ∨
     (code = 0 ∧ ∃ share, json_reread (cpu s) = Ok share ∧
        out t2 = out t +:+ line ("deployed " +:+ name) +:+
                 description ostream_double (FunctionRegistry.new_function s now) share)).
Proof.
  intros p text Hcut Hdef Hst Hname Himage Hsize Hname2 Hok Hend Hdeploy Hdescribe.
  destruct (deploy_end_to_end std_stod FAAS_API cut args t t1 0 name image m h Hcut Hdef Hst Hname Himage
              Hsize Hdeploy) as [Hm1 [[? _]|(s & now & Hasks & Hst1 & [?|[_ Hout1]])]]; [done| |].
  { done. }
  destruct (describe_end_to_end args2 t1 t2 code name _ h Hcut Hst1 Hname2 Hok Hend Hdescribe) as (Hm2 & Hst2 & Hd).
  rewrite lookup_insert_eq in Hd. exists s, now. split; [done|]. split; [done|]. split; [by rewrite Hm2|].
  destruct Hd as [Hd|(-> & share & Hshare & Hout2)]; [by left|right]. split; [done|]. exists share.
  split; [done|]. by rewrite Hout2, Hout1, app_assoc_str.
Qed.

(** C31: the id that [cloudfn invoke name] shows names the record of that invocation: after it
    ended with 0 it has shown an id, and [cloudfn invocation] with this id changes nothing
    and shows that record - the function's name, its status, its output, its duration and
    whether it was a cold start - unless the control plane cannot answer. *)
Theorem invoke_then_invocation (args : Args) (t t1 : term) (name : string)
    (m : gmap string Function) (h : gmap Z InvocationRecord) :
  let p := served (net t) in
  cuts_ok cut → stored (db p) m h → head (positional args) = Some name → name_ok name →
  (∀ c, make_client FAAS_API = Ok c → value_ok (host_ c) ∧
     Z.of_nat (String.length (request_text "POST" (invoke_path name) (host_ c) (data_of args)
                                "application/json")) ≤ 2 ^ 20) →
  map_Forall (λ _ r, in_long (ir_duration_ms r)) h →
  (∀ f, m !! c_str name = Some f → in_long (inv_duration_ms (invoke (spec f) (input_of args) (manager p)).1)) →
  cmd_invoke (J:=J) FAAS_API args t = (Ok 0, t1) →
  ∃ f rowid now shown,
    let result := (invoke (spec f) (input_of args) (manager p)).1 in
    let r := new_record rowid name (input_of args) (inv_status result) (inv_output result)
               (inv_duration_ms result) (inv_cold_start result) now in
    m !! c_str name = Some f ∧ inv_status result = "success" ∧
    out t1 = out t +:+ line "status: success" +:+ shown +:+ line ("invocation_id: " +:+ to_string rowid) ∧
    ∀ args2 t2 code,
      head (positional args2) = Some (to_string rowid) → endpoint_ok "GET" (invocation_path (to_string rowid)) →
      cmd_invocation (J:=J) FAAS_API args2 t1 = (Ok code, t2) →
      manager (served (net t2)) = manager (served (net t1)) ∧
      stored (db (served (net t2))) m (<[rowid := r]> h) ∧
      ((code = 1 ∧ out t2 = out t1 ∧
        ∀ resp, (get_invocation (J:=J) no_request [to_string rowid] (served (net t1))).1 ≠ Ok resp) ∨
       (code = 0 ∧ ∃ output text, parse_or_text (J:=J) (ir_output r) = Ok output ∧ json_dump output = Ok text ∧
                                  out t2 = out t1 +:+ record_lines r text)).
Proof.
  intros p Hcut Hst Hname Hok Hsize Hlong Hdur Hinv.
  pose proof (invoke_command_outcome FAAS_API cut args t t1 0 name m h Hcut Hst Hname Hok Hsize Hinv) as Ho.
  cbv zeta in Ho. fold p in Ho. destruct (m !! c_str name) as [f|] eqn:Hf; [|by destruct Ho].
  destruct Ho as [[? _]|Ho]; [done|]. specialize (Hdur f eq_refl).
  destruct (invoke (spec f) (input_of args) (manager p)) as [result mgr'] eqn:Hr.
  destruct Ho as [Hm [[? _]|(rowid & now & Hl & Hn & Hst1 & Hcode & Hout)]]; [done|].
  destruct (Hout eq_refl) as [shown Hshown]. destruct (proj1 Hcode eq_refl) as [Hsucc _].
  exists f, rowid, now, shown. cbv zeta. rewrite Hr. cbn [fst] in *. split_and!; [done..|].
  intros args2 t2 code Hname2 Hend Hrun.
  assert (0 < rowid) as Hpos.
  { destruct Hst1 as [_ Hh]. destruct (holds_ids _ _ Hh rowid _ (lookup_insert_eq _ _ _)) as [? _]. lia. }
  pose proof (invocation_end_to_end args2 t1 t2 code (to_string rowid) m _ Hcut Hst1) as Hread.
  unfold named_record in Hread. rewrite stol_to_string, lookup_insert_eq in Hread by done.
  apply Hread; [|done|apply id_name_ok; lia|done|done].
  by apply map_Forall_insert_2.
Qed.
End commands.

(** ** The hypotheses can be met *)

Definition demo_show (x : float) : string := "0.5".
Notation demo_term := (Terminal (Loop (Platform Mem Sim))).

Lemma demo_client c : make_client None = Ok c → c = {| host_ := "127.0.0.1"; port_ := 8080 |}.
Proof. intros Hc. vm_compute in Hc. congruence. Qed.
Lemma demo_endpoint method path :
  Z.of_nat (String.length (request_text method path "127.0.0.1" "" "")) ≤ 2 ^ 20 → endpoint_ok None method path.
Proof. intros Hl c ->%demo_client. by split. Qed.

(** [cloudfn describe greet] after the deployment of [EndToEnd]. *)
Definition greet : Args := parse_args ["greet"].
Definition demo_describe : outcome Z * demo_term :=
  let _ := reading_loop (J:=Page) (D:=Mem) (E:=Sim) demo_cut in
  cmd_describe (J:=Page) demo_show None greet demo_deploy.2.
Lemma demo_describe_run : demo_describe = (Ok 0, demo_describe.2).
Proof. assert (demo_describe.1 = Ok 0) as <- by (by vm_compute). by destruct demo_describe. Qed.

Lemma deploy_then_describe_witness :
  ∃ s now share,
    image s = "greet:1" ∧ timeout_ms s = 2000 ∧ cpu s = 0.5%float ∧
    out demo_describe.2 = line "deployed greet" +:+ description demo_show (FunctionRegistry.new_function s now) share.
Proof.
  destruct (deploy_then_describe (J:=Page) (D:=Mem) (E:=Sim) demo_show None demo_cut demo_stod demo_args greet
              EndToEnd.demo_terminal demo_deploy.2 demo_describe.2 0 "greet" "greet:1" demo_registry ∅ demo_cut_ok)
    as (s & now & Hasks & _ & _ & [[? _]|(_ & share & _ & Hout)]);
    [by split|exact demo_stored|done|done| |done|by repeat split|by apply demo_endpoint; vm_compute
    |exact demo_deploy_run|exact demo_describe_run|done|].
  - intros c ->%demo_client. split; [done|]. intros txt Htxt. vm_compute in Htxt. injection Htxt as <-. by vm_compute.
  - exists s, now, share.
    pose proof (ask_image _ _ _ _ _ Hasks) as Hi. pose proof (ask_timeout _ _ _ _ _ Hasks) as Ht.
    change (Some "greet:1" = Some (image s)) in Hi. change (Ok 2000 = Ok (timeout_ms s)) in Ht.
    pose proof (ask_cpu _ _ _ _ _ Hasks) as Hc. change (Ok 0.5%float = Ok (cpu s)) in Hc.
    split; [congruence|]. split; [congruence|]. split; [congruence|exact Hout].
Defined.

(** The record of the invocation of [InvokeEndToEnd]. *)
Lemma invoke_then_invocation_witness :
  ∃ f rowid now shown,
    let result := (invoke (spec f) "7" (manager demo_platform)).1 in
    inv_status result = "success" ∧
    out demo_invoke.2 = line "status: success" +:+ shown +:+ line ("invocation_id: " +:+ to_string rowid) ∧
    ∀ args2 t2 code, head (positional args2) = Some (to_string rowid) →
      endpoint_ok None "GET" (invocation_path (to_string rowid)) →
      cmd_invocation (J:=Page) (H:=reading_loop (J:=Page) (D:=Mem) (E:=Sim) demo_cut) None args2 demo_invoke.2
        = (Ok code, t2) →
      stored (db (served (net t2))) demo_registry
        {[rowid := new_record rowid "hello" "7" (inv_status result) (inv_output result)
                     (inv_duration_ms result) (inv_cold_start result) now]}.
Proof.
  destruct (invoke_then_invocation (J:=Page) (D:=Mem) (E:=Sim) None demo_cut invoke_args invoke_terminal demo_invoke.2
              "hello" demo_registry ∅ demo_cut_ok demo_stored eq_refl)
    as (f & rowid & now & shown & _ & Hs & Hout & Hread).
  - by repeat split.
  - intros c ->%demo_client. split; [done|by vm_compute].
  - apply map_Forall_empty.
  - intros f Hf. change (demo_registry !! c_str "hello") with (Some (FunctionRegistry.new_function FunctionRegistry.hello_spec 7)) in Hf.
    injection Hf as <-. apply (bool_decide_unpack _). vm_compute. exact I.
  - exact demo_invoke_run.
  - exists f, rowid, now, shown. split; [exact Hs|]. split; [exact Hout|].
    intros args2 t2 code Ha He Hr. by apply (Hread args2 t2 code Ha He Hr).
Defined.

(** [cloudfn runtimes] after that invocation: its runtime is idle. *)
Definition no_args : Args := parse_args [].
Definition demo_list : outcome Z * demo_term :=
  let _ := reading_loop (J:=Page) (D:=Mem) (E:=Sim) demo_cut in
  cmd_runtimes (J:=Page) None no_args demo_invoke.2.
Lemma demo_list_run : demo_list = (Ok 0, demo_list.2).
Proof. assert (demo_list.1 = Ok 0) as <- by (by vm_compute). by destruct demo_list. Qed.
Definition demo_tracked : list RuntimeListEntry * Manager Sim := list_runtimes (manager (served (net demo_invoke.2))).
#[export] Instance entry_ok_dec e : Decision (entry_ok e).
Proof. unfold entry_ok, in_int, in_long. apply _. Defined.

Lemma runtimes_end_to_end_witness :
  ∃ entries,
    re_function_name <$> entries = ["hello"] ∧ out demo_list.2 = out demo_invoke.2 +:+ entry_lines entries.
Proof.
  pose proof (runtimes_end_to_end (J:=Page) (D:=Mem) (E:=Sim) None demo_cut no_args demo_invoke.2 demo_list.2 0) as Hl.
  cbv zeta in Hl. fold demo_tracked in Hl.
  assert (demo_tracked = (demo_tracked.1, demo_tracked.2)) as Heq by apply surjective_pairing.
  rewrite Heq in Hl. clear Heq.
  destruct Hl as [_ [[Hc _]|[_ Hout]]].
  - exact demo_cut_ok.
  - apply (bool_decide_unpack (Forall entry_ok demo_tracked.1)). vm_compute. exact I.
  - apply demo_endpoint. vm_compute. discriminate.
  - exact demo_list_run.
  - discriminate Hc.
  - destruct (decide (demo_tracked.1 = [])) as [Hn|_] in Hout; [exfalso|eexists; split; [|exact Hout]; vm_compute; exact eq_refl].
    apply (f_equal length) in Hn. vm_compute in Hn. discriminate Hn.
Defined.

(** [cloudfn delete hello] on a fresh platform. *)
#[local] Existing Instance sim_before.
Definition hello_args : Args := parse_args ["hello"].
Definition demo_delete : outcome Z * demo_term :=
  let _ := reading_loop (J:=Page) (D:=Mem) (E:=Sim) demo_cut in
  cmd_delete (J:=Page) None hello_args invoke_terminal.
Lemma demo_delete_run : demo_delete = (Ok 0, demo_delete.2).
Proof. assert (demo_delete.1 = Ok 0) as <- by (by vm_compute). by destruct demo_delete. Qed.

Lemma delete_end_to_end_witness :
  lock_inv (manager (served (net demo_delete.2))) ∧ stored (db (served (net demo_delete.2))) ∅ ∅ ∧
  out demo_delete.2 = line "deleted hello".
Proof.
  destruct (delete_end_to_end (J:=Page) (D:=Mem) (E:=Sim) None demo_cut hello_args invoke_terminal demo_delete.2 0
              "hello" demo_registry ∅ demo_cut_ok demo_stored (lock_inv_new _ eq_refl ledger_ok_nil) eq_refl)
    as [Hinv [(_ & _ & Hs & _ & _ & Hout)|[? _]]];
    [by repeat split|by apply demo_endpoint; vm_compute|exact demo_delete_run| |done].
  split; [exact Hinv|]. split; [|exact Hout].
  replace (∅ : gmap string Function) with (delete (c_str "hello") demo_registry)
    by (unfold demo_registry; apply delete_singleton_eq). exact Hs.
Defined.
